(* ===== verification/_CoqProject ===== *)
-Q . S2P
Prelude.v
Bytes.v
Error.v
External.v
Headers.v
Range.v
Percent.v
NetworkPolicy.v
DataRequest.v
SourceRegistry.v
RangeTable.v
FileSystem.v
Digest.v
Storage.v
Disk.v
DiskTasks.v
DiskInvariant.v
DiskMetadata.v
DiskWrite.v
DiskCalm.v
DiskTheorems.v
DiskRaces.v
DiskInterleaved.v
Manager.v
ManagerTheorems.v
SingleFlight.v
NetSource.v
NetTheorems.v
Response.v
NetworkHandler.v
Tee.v
Pipeline.v
MixedSource.v
DataSourceManager.v
PipelineTheorems.v
EndToEnd.v
Eviction.v
Playlist.v
HlsManager.v
HlsManagerTheorems.v
HlsHandler.v
HlsTheorems.v
HlsBase.v
HlsClaims.v
P2pManifest.v
P2pManifestTheorems.v
P2p.v
P2pTheorems.v
P2pClaims.v
P2pDisk.v
RequestHandler.v
HandlerClaims.v
Server.v
ServerTheorems.v
Bencode.v
BencodeTheorems.v
PeerWire.v
TorrentMeta.v
TorrentMetaTheorems.v
TorrentExtension.v
Scheduler.v
SchedulerTheorems.v
TorrentStore.v
Trackers.v
Dht.v
DhtTheorems.v
Magnet.v
PeerConnection.v
PeerConnectionTheorems.v
PeerClaims.v
Swarm.v
Program.v
Rqbit.v
RqbitClaims.v
Ffi.v
FfiClaims.v
Harmony.v
HarmonyClaims.v
Android.v
AndroidClaims.v
