(* ===== verification/Prelude.v ===== *)
(** * A caching media proxy: verification library

    The program (Rust, [src/src/]) is an HTTP proxy for media players.  A
    player asks it for a byte range of a resource; the proxy answers from a disk
    cache, from the network, or from both joined together, and stores what it
    fetches while it forwards it.  Playlists are rewritten so that their segments
    pass through the proxy too; two optional features serve content from an
    authorized byte provider of the host program and from BitTorrent peers.

    ** The parts of the program and where they are modelled

    The request path, from the outside in:

    - [server.rs] binds, accepts, counts and stops ([Server]: its configuration
      and construction, the service around the handler, and the status machine of
      [start] and [stop], the last two as step relations).
    - [request_handler.rs] routes a request, holds a permit while it is served,
      retries once with a refreshed authorization and turns 206 into 200 where no
      range was asked for ([RequestHandler], with the counters of [metrics.rs]).
    - [hls/handler.rs] and [hls/mod.rs] download, rewrite and cache playlists:
      [Playlist] is the rewriting, [HlsManager] the parsed playlists and the two
      bounded caches (their eviction loop is [Eviction]), [HlsHandler] the handler.
    - [data_request.rs]: a request is built from headers, from a [/proxy/] path
      or from a registered source, and gets the key it is cached under
      ([DataRequest]); [source_registry.rs] keeps the registered sources
      ([SourceRegistry]).
    - [data_source_manager.rs] decides how a request is served
      ([DataSourceManager]: [process_request], [process_head] and every path they
      take), with [handlers/mixed_source.rs] for a cached prefix joined with
      the rest from the network ([MixedSource]), [handlers/single_flight.rs] so
      that one request fetches and the others wait ([SingleFlight]),
      [handlers/response.rs] for the response ([Response]) and
      [handlers/network.rs] for what a download becomes ([NetworkHandler]).
    - [data_source/net_source.rs] downloads a range, with retries and a body
      that resumes after a broken connection ([NetSource]); it is guarded by
      [utils/network_policy.rs], which admits hosts and rejects private
      addresses ([NetworkPolicy]).
    - [handlers/tee.rs] forks a body to the client and to the cache ([Tee]; the
      task it spawns is a job of [Pipeline]), [handlers/cache.rs] writes it
      ([Pipeline]).
    - [storage/manager.rs] keeps the bookkeeping of the cache and evicts
      ([Manager]) over any engine that implements [storage/mod.rs] ([Storage]).
    - [storage/disk.rs] is the engine: data files, a table of completed ranges
      beside each ([RangeTable]), and the operations on them ([Disk]) over a
      file system whose calls may fail ([FileSystem]).  [DiskTasks] has the operations
      again as tasks with their await points and locks.
    - [utils/range.rs], [utils/percent_encoding.rs], [utils/error.rs] and
      [utils/digest.rs] are [Range], [Percent], [Error] and [Digest].

    The optional features:

    - [p2p.rs]: [P2pManifest] has the manifests with their piece digests and the
      verified reads, [P2p] the registry of sources, the memory and disk caches of
      verified pieces and the leases.
    - [p2p_network.rs]: [Bencode] (the decoder), [TorrentMeta] (torrent files),
      [Magnet] (magnet links), [PeerWire] (handshake and messages),
      [TorrentExtension] (metadata exchange), [Scheduler] (which piece next),
      [TorrentStore] (pieces on disk, upload sessions), [Trackers] (announces over
      UDP and HTTP, compact peer lists), [Dht] (queries and routing table), [PeerConnection] (one peer:
      connect, download, upload), [Swarm] (many peers at once, as a step
      relation on their shared scheduler).
    - [rqbit_backend.rs]: [Rqbit] has the backend over the librqbit library, which
      is the class [LibRqbit] of its calls: its two tables, the lock of additions
      and every operation, one after the other and interleaved at the await points.

    How other programs use it:

    - [main.rs] makes the configuration from the command line,
      [utils/logger.rs] writes the log, [http_types.rs] makes bodies (all [Program]).
    - [ffi.rs] is the C interface: [Ffi] has what crosses it in memory of
      the other side (texts, JSON buffers, the callbacks of the host) and every
      exported function over a heap of live handles, [FfiClaims] these functions as
      data.  A use of a pointer that is not live is [None].
    - [harmony_config.rs] and [harmony_napi.rs] are [Harmony]: an object that owns
      a handle, and its methods.
    - [android_jni.rs] is [Android]: the tables from tokens to handles and
      contexts, and the native methods; [AndroidClaims] interleaves the steps of
      the methods that release the lock of the table in between.

    [Prelude] has results, the state-and-error monad and its notations, saturating
    and wrapping 64-bit arithmetic, hint databases and tactics; [Bytes] has the
    string functions of the standard library the code uses (decimal numbers,
    trimming, splitting) and the laws of UTF-8 and trimming; [Headers] has HTTP
    header maps; [FileSystem] has paths from texts too.

    ** State, effects and concurrency

    An operation is a function from a state to a result and a state ([io] of
    [Prelude]); an early return with an error keeps the state reached so far.
    The state of the disk engine is the file system, its in-memory index and the
    script of failures the next system calls meet; the state of a download is the
    list of answers the network gives; the state of the whole pipeline is
    [World] of [Pipeline]: the shared storage manager and single-flight table,
    the network, the clock readings, the tasks spawned so far, and a list of
    interferences.  At each point where the code awaits, the next interference (an
    arbitrary run of the operations of other tasks on the shared state) is
    applied, so that a theorem about a request holds for every interleaving of
    other requests and background tasks with it.  [SingleFlight] is a step relation, and
    the two halves of a leader's drop are separate steps.  [Server] and [Swarm] are step
    relations too: requests and peer tasks interleave at their await points.  A peer is the
    bytes it will send and how the connection ends, a tracker the datagrams it answers
    with; what is sent to them is recorded in order.

    The operations of the disk engine are steps of two sizes.  In [Disk], and so in
    [Pipeline] and [EndToEnd], a whole operation is one step; this is what the locks
    make of the writing operations of one key, but the reading ones ([read],
    [check_range], [upstream_meta]) hold no lock.  In [DiskTasks] a step ends at the
    next await, locks are taken and given back, and tasks may be dropped: the
    soundness of the cache and of granted reads is shown there too, under one
    condition that the code does not enforce (no removal of a key, and no
    enumeration, beside a reader or writer of it), and three races show that it is
    needed.  Elsewhere blocking on a lock is not modelled.

    The steps of [Rqbit] are its stretches between two awaits, so that its tables are
    seen half changed by others.  The C interface, its command task and the server
    thread are one state, the handle: a caller that waits in vain leaves its command in
    the queue, and a call that would wait for ever returns [Blocks].  Mutexes are never
    poisoned here: nothing panics while it holds one.

    ** Interfaces

    [StorageEngine] of [Storage] is the trait; [EngineSpec]
    is the contract an engine keeps, on which [PipelineTheorems] and the
    manager rely, and [EndToEnd] shows that the disk engine keeps it.
    [MediaSources] and [RqbitBackend] of [RequestHandler] are what the handler asks of
    its sources and of the torrent library; [Server] gives the instance of the former
    that the program builds, [Rqbit] the one of the latter.  [NewServer] of [Ffi] is the
    construction of a server, [Allocator] the addresses of boxes, [FfiJson] the
    serialization of what is reported, [Jvm] of [Android] the virtual machine.
    External code is a parameter, with what the code relies on as classes of laws
    in [External], [FileSystem] and [Disk]: URL and URI parsing, the text test of
    header values, SHA-256 (length and no collision between keys in use), JSON
    (decoding what was encoded), SHA-1 (its length), the m3u8 parser, the iteration order of hash maps, name
    resolution and the order of directory entries.  Each class has a concrete
    instance, used by the witnesses.

    ** What the theorems show

    - [EndToEnd]: whatever path a request takes and whatever happens meanwhile,
      the bytes a client reads are the bytes of the resource at the interval the
      response announces, and the cache stays sound.  [PipelineTheorems] has the
      lemma for each path.
    - [DiskTheorems] (lemmas in [DiskInvariant], [DiskMetadata], [DiskWrite],
      [DiskCalm]): every reachable cache records only ranges whose bytes are on
      disk; what is written is read back, also after a restart; a failing write
      records exactly the prefix that was accepted; deleted entries miss.
    - [DiskInterleaved] (lemmas in [DiskRaces]): the first of these, and what a read
      delivers, for tasks that interleave at their await points, by rely and guarantee;
      and the races of readers and of the enumeration with removals and writes.
    - [RangeTable]: merging keeps the table normal and adds exactly the new range.
    - [ManagerTheorems]: the accounting equals the sum of the entries, a cleanup
      round evicts oldest first and no more than needed, warm-up counts each entry
      once.
    - [NetTheorems]: a download delivers the bytes of the resource in order,
      across retries; a partial response is accepted exactly when its
      Content-Range fits the request.
    - [SingleFlight]: no follower misses the wake-up; [Tee]: neither side of the
      fork cuts the other short; [MixedSource]: exact lengths or an error.
    - [NetworkPolicy]: what is admitted, and the address classes against their
      definition by CIDR blocks.  [Range], [Percent], [DataRequest],
      [SourceRegistry], [Response]: functional behaviour, errors and round trips.
    - [HlsClaims], [HlsManagerTheorems], [HlsBase] (lemmas in [HlsTheorems]): a
      rewritten playlist keeps its lines, and every reference leads to a source
      registered for its absolute URL; the caches stay in their limits and evict
      the oldest; the halving search for a segment agrees with a scan.
    - [P2pClaims], [P2pManifestTheorems], [P2pDisk] (lemmas in [P2pTheorems]): only
      verified bytes are returned, whatever the provider and the disk do; the caches
      are bounded and their books exact.
    - [HandlerClaims]: at most one retry, status codes,
      and the exact bytes of a P2P response, on top of the registry's theorems.
      [ServerTheorems]: permits and gauges under every interleaving; which statuses
      follow each other.
    - [BencodeTheorems], [PeerWire], [Magnet], [TorrentMetaTheorems],
      [TorrentExtension], [Trackers], [DhtTheorems]: the decoders end on every
      input, invert their encoders and accept exactly what they should; the routing
      table keeps the closest nodes; an announcement goes out once and only to an
      admitted address.
    - [SchedulerTheorems], [TorrentStore], [PeerClaims] (lemmas in
      [PeerConnectionTheorems]), [Swarm]: the best piece is claimed, by one task at a
      time and a bounded number of times; a stored piece is whole and verified; a
      download returns the requested bytes whatever the peer sends.
    - [RqbitClaims]: the limit on torrents under every
      interleaving, agreement of the tables, and the exact bytes of a torrent response.
    - [FfiClaims]: what holds of every handle whatever is called
      on it, that it starts at most once and is freed, and that a torrent is added
      only when the host authorizes it.  [AndroidClaims] ends with what a host delivers:
      addresses and pieces arrive whole or not at all.
    - [HarmonyClaims], [AndroidClaims]: no
      method of a binding uses a freed handle, tokens are never used twice, and the
      context of an installed callback outlives the handle; a list of hosts and JSON
      cross the interface unchanged.
    - Some theorems state a behaviour the code should not have:
      [half_removed_entry_serves_zeros], [removal_beside_reader_serves_zeros],
      [reader_undoes_record], [warm_up_beside_write_serves_zeros], [mapped_unspecified_accepted],
      [external_overflow_evicts_all], [query_misplaces_references], [lifecycle_gaps],
      [torrent_name_escapes], [mapped_addresses_pass], [dht_queries_unreadable],
      [every_block_needs_unchoke], [announced_id_refused],
      [interleaved_removal_strands_hash], [failed_initialization_leaks],
      [second_destroy_frees_context].

    ** Bounds and fuel

    64-bit integers are [Z] with their saturation, wrap-around or overflow
    check written where the code has it.  Where a loop is not structural its
    definition takes fuel, and the amount given bounds its rounds:

    - the retry loop of a body makes at most [MAX_ATTEMPTS] rounds, which is its fuel;
      reading a body to its end takes as many steps as the frames the network still has
      ([frames_left]), and the delivery of a response takes one step per byte at
      most, so that its theorem asks for more fuel than the announced length; the
      chunks of a P2P response are cut from a range with its length as fuel;
    - loops over a text (lines, tags, references) take its length; the eviction loops take
      the size of their map, and the one of the disk cache one more;
    - the bencode decoder takes twice the length of its input and one more, the root
      dictionary of a torrent file twice the length and two more;
    - a loop that receives messages takes one unit for each byte that is still to come;
      the blocks of a piece take the length of the piece; draining bits in the base-32
      decoder takes two;
    - the walk over external cache directories takes fuel because a directory tree
      has no bound known to the code.

    ** Not modelled

    [lib.rs] (re-exports and the logging macro), tasks that panic and mutexes that are
    poisoned by one, builds without the P2P features (their stubs answer with an error),
    the example programs and the benchmark, the Kotlin, Swift and C wrappers of the
    hosts (the interfaces are shown for every sequence of calls).  Features that relax the network policy
    ([allow-private-upstream]) are off in the model. *)

From stdpp Require Export base tactics option list numbers fin_maps gmap sets sorting.
From Stdlib Require Export ZArith Lia.

Declare Scope rust_scope.
Delimit Scope rust_scope with rust.
Open Scope rust_scope.
Open Scope Z_scope.

(** ** Results: Rust's [Result<T, E>] *)

Inductive result (E A : Type) : Type :=
| Ok (a : A)
| Err (e : E).
Arguments Ok {E A} a.
Arguments Err {E A} e.

#[export] Instance result_ret {E} : MRet (result E) := fun _ a => Ok a.
#[export] Instance result_bind {E} : MBind (result E) :=
  fun _ _ k m => match m with Ok a => k a | Err e => Err e end.
#[export] Instance result_fmap {E} : FMap (result E) :=
  fun _ _ f m => match m with Ok a => Ok (f a) | Err e => Err e end.
#[export] Instance result_eq_dec {E A} `{EqDecision E, EqDecision A} :
  EqDecision (result E A).
Proof. solve_decision. Defined.

Definition is_ok {E A} (r : result E A) : bool :=
  match r with Ok _ => true | Err _ => false end.

(** [Result::map_err]. *)
Definition map_err {E F A} (f : E -> F) (r : result E A) : result F A :=
  match r with Ok a => Ok a | Err e => Err (f e) end.

(** [Option::ok_or]. *)
Definition ok_or {E A} (o : option A) (e : E) : result E A :=
  match o with Some a => Ok a | None => Err e end.

Lemma bind_Ok_inv {E A B} (m : result E A) (k : A -> result E B) b :
  m ≫= k = Ok b -> exists a, m = Ok a /\ k a = Ok b.
Proof. destruct m; simpl; [eauto | discriminate]. Qed.

Lemma bind_Err_inv {E A B} (m : result E A) (k : A -> result E B) e :
  m ≫= k = Err e -> m = Err e \/ exists a, m = Ok a /\ k a = Err e.
Proof. destruct m; simpl; [eauto | intros [= ->]; auto]. Qed.

Lemma map_err_Ok {E F A} (f : E -> F) (r : result E A) a :
  map_err f r = Ok a <-> r = Ok a.
Proof. destruct r; simpl; split; congruence. Qed.

Lemma ok_or_Ok {E A} (o : option A) (e : E) a :
  ok_or o e = Ok a <-> o = Some a.
Proof. destruct o; simpl; split; congruence. Qed.

(** ** Effects: a state monad whose computations may fail.

    A failing computation keeps the state it has reached: a Rust function
    that returns early with [?] does not undo what it did before. *)

Definition io (S E A : Type) : Type := S -> result E A * S.

#[export] Instance io_ret {S E} : MRet (io S E) := fun _ a s => (Ok a, s).
#[export] Instance io_bind {S E} : MBind (io S E) :=
  fun _ _ k m s =>
    match m s with
    | (Ok a, s') => k a s'
    | (Err e, s') => (Err e, s')
    end.

Section Io.
Context {S E : Type}.

Definition throw {A} (e : E) : io S E A := fun s => (Err e, s).
Definition get : io S E S := fun s => (Ok s, s).
Definition put (s : S) : io S E unit := fun _ => (Ok tt, s).
Definition modify (f : S -> S) : io S E unit := fun s => (Ok tt, f s).
Definition lift {A} (r : result E A) : io S E A := fun s => (r, s).
(** Run [m] and hand its outcome back as a value: a [match] on a call. *)
Definition attempt {A} (m : io S E A) : io S E (result E A) :=
  fun s => let '(r, s') := m s in (Ok r, s').

Lemma io_bind_inv {A B} (m : io S E A) (k : A -> io S E B) s r s' :
  (m ≫= k) s = (r, s') ->
  (exists a s1, m s = (Ok a, s1) /\ k a s1 = (r, s'))
  \/ (exists e, m s = (Err e, s') /\ r = Err e).
Proof.
  unfold mbind, io_bind. destruct (m s) as [[a|e] s1]; [eauto|].
  intros [= <- <-]. eauto.
Qed.

Lemma io_bind_Ok {A B} (m : io S E A) (k : A -> io S E B) s a s1 :
  m s = (Ok a, s1) -> (m ≫= k) s = k a s1.
Proof. unfold mbind, io_bind. by intros ->. Qed.

Lemma io_bind_Err {A B} (m : io S E A) (k : A -> io S E B) s e s1 :
  m s = (Err e, s1) -> (m ≫= k) s = (Err e, s1).
Proof. unfold mbind, io_bind. by intros ->. Qed.
End Io.

(** ** Machine integers: [u64] (and the 64-bit [usize]) as [Z] in range *)

Abbreviation u64_max := 18446744073709551615%Z.
Abbreviation i64_max := 9223372036854775807%Z.

Definition is_u64 (z : Z) : Prop := 0 <= z <= u64_max.
Definition is_u64b (z : Z) : bool := (0 <=? z) && (z <=? u64_max).

#[export] Instance is_u64_dec z : Decision (is_u64 z).
Proof. unfold is_u64; apply _. Defined.

Definition checked_add (a b : Z) : option Z :=
  if a + b <=? u64_max then Some (a + b) else None.
Definition checked_sub (a b : Z) : option Z :=
  if b <=? a then Some (a - b) else None.
Definition checked_mul (a b : Z) : option Z :=
  if a * b <=? u64_max then Some (a * b) else None.
Definition saturating_add (a b : Z) : Z := Z.min (a + b) u64_max.
Definition saturating_sub (a b : Z) : Z := Z.max (a - b) 0.
Definition saturating_mul (a b : Z) : Z := Z.min (a * b) u64_max.

Lemma checked_add_Some a b c :
  checked_add a b = Some c <-> c = a + b /\ a + b <= u64_max.
Proof.
  unfold checked_add. destruct (Z.leb_spec (a + b) u64_max); split;
    [intros [= <-]; lia | intros [-> _]; reflexivity | discriminate | lia].
Qed.

Lemma checked_sub_Some a b c :
  checked_sub a b = Some c <-> c = a - b /\ b <= a.
Proof.
  unfold checked_sub. destruct (Z.leb_spec b a); split;
    [intros [= <-]; lia | intros [-> _]; reflexivity | discriminate | lia].
Qed.

Lemma checked_mul_Some a b c :
  checked_mul a b = Some c <-> c = a * b /\ a * b <= u64_max.
Proof.
  unfold checked_mul. destruct (Z.leb_spec (a * b) u64_max); split;
    [intros [= <-]; lia | intros [-> _]; reflexivity | discriminate | lia].
Qed.

Lemma checked_add_None a b :
  checked_add a b = None <-> u64_max < a + b.
Proof. unfold checked_add. destruct (Z.leb_spec (a + b) u64_max); split; try done; lia. Qed.

Lemma checked_sub_None a b : checked_sub a b = None <-> a < b.
Proof. unfold checked_sub. destruct (Z.leb_spec b a); split; try done; lia. Qed.

(** The run of a concrete computation, from its first component. *)
Lemma run_result {A B} (p : A * B) a : p.1 = a -> p = (a, p.2).
Proof. destruct p; simpl; by intros ->. Qed.

(** ** Bit operations *)

(** Joining a high and a low part: [(h << n) | l]. *)
Lemma lor_shiftl_add h l n :
  0 <= n -> 0 <= l < 2 ^ n -> Z.lor (Z.shiftl h n) l = h * 2 ^ n + l.
Proof.
  intros Hn Hl. pose proof (Z.add_lor_land (Z.shiftl h n) l) as H.
  assert (Hz : Z.land (Z.shiftl h n) l = 0).
  { apply Z.bits_inj'. intros i Hi. rewrite Z.land_spec, Z.bits_0.
    destruct (Z.ltb_spec i n).
    - rewrite Z.shiftl_spec_low by lia. done.
    - replace (Z.testbit l i) with false; [apply andb_false_r|].
      symmetry. destruct (Z.eq_dec l 0) as [->|]; [apply Z.bits_0|].
      apply Z.bits_above_log2; [lia|]. apply Z.log2_lt_pow2; [lia|].
      pose proof (Z.pow_le_mono_r 2 n i). lia. }
  rewrite Z.shiftl_mul_pow2 in * by lia. lia.
Qed.

(** The low bits: [z & (2^n - 1)]. *)
Lemma land_ones_mod z n : 0 <= n -> Z.land z (2 ^ n - 1) = z mod 2 ^ n.
Proof. intros. rewrite <- Z.land_ones by done. by rewrite Z.ones_equiv, Z.sub_1_r. Qed.

(** ** Tactics *)

(** Turn every boolean test on integers and every decision in the context or
    the goal into its proposition. *)
Ltac bool_to_prop :=
  repeat match goal with
  | H : context [?a <=? ?b] |- _ => destruct (Z.leb_spec a b)
  | H : context [?a <? ?b] |- _ => destruct (Z.ltb_spec a b)
  | H : context [?a =? ?b] |- _ => destruct (Z.eqb_spec a b)
  | |- context [?a <=? ?b] => destruct (Z.leb_spec a b)
  | |- context [?a <? ?b] => destruct (Z.ltb_spec a b)
  | |- context [?a =? ?b] => destruct (Z.eqb_spec a b)
  end.

(** Split a run of a bind into the run of its first part and the rest. *)
Tactic Notation "run_bind" hyp(H) "as" ident(a) ident(s) ident(E) :=
  apply io_bind_inv in H as [(a & s & E & H)|(a & E & H)].

(** Invert a successful chain of binds. *)
Ltac res_inv :=
  repeat match goal with
  | H : _ ≫= _ = Ok _ |- _ =>
      apply bind_Ok_inv in H; destruct H as (? & ? & H)
  | H : map_err _ _ = Ok _ |- _ => apply map_err_Ok in H
  | H : ok_or _ _ = Ok _ |- _ => apply ok_or_Ok in H
  | H : mret _ = Ok _ |- _ => injection H as H
  | H : Ok _ = Ok _ |- _ => injection H as H
  | H : Err _ = Ok _ |- _ => discriminate H
  | H : Ok _ = Err _ |- _ => discriminate H
  end; subst.

Create HintDb proxy.
#[export] Hint Unfold is_u64 : proxy.
#[export] Hint Extern 1 (_ <= _) => lia : proxy.
#[export] Hint Extern 1 (_ < _) => lia : proxy.
#[export] Hint Extern 1 (is_u64 _) => unfold is_u64 in *; lia : proxy.
