(* ===== verification/Bytes.v ===== *)
(** * Bytes and UTF-8 text

    Rust's [String] and [&str] are UTF-8 byte sequences; both, and the file
    contents, header values and bodies, are [list byte] here.  The file
    models the functions of the standard library the sources call on them
    ([strip_prefix], [contains], [split], [trim], [find], [ends_with],
    [make_ascii_lowercase], [parse::<u64>], integer formatting,
    [String::from_utf8]) and proves that printing and parsing a [u64] are
    inverse. *)

From Stdlib Require Import Strings.Byte Strings.String.
From S2P Require Import Prelude.

Abbreviation byte := Byte.byte.
Definition text : Type := list byte.

(** The UTF-8 bytes of a source literal. *)
Definition str (s : string) : text := list_byte_of_string s.
Arguments str s%_string_scope : simpl never.

(** ** Bytes as integers *)

Definition b2z (b : byte) : Z := Z.of_N (Byte.to_N b).
Definition z2b (z : Z) : byte := default Byte.x00 (Byte.of_N (Z.to_N z)).

#[export] Instance byte_eq_dec : EqDecision byte := Byte.byte_eq_dec.
#[export] Instance byte_inhabited : Inhabited byte := populate Byte.x00.

Lemma z2b_b2z b : z2b (b2z b) = b.
Proof. destruct b; reflexivity. Qed.

#[export] Program Instance byte_countable : Countable byte :=
  inj_countable' b2z z2b _.
Next Obligation. apply z2b_b2z. Qed.

Lemma b2z_range b : 0 <= b2z b < 256.
Proof. destruct b; vm_compute; split; discriminate || reflexivity. Qed.

#[export] Instance b2z_inj : Inj (=) (=) b2z.
Proof. intros a b H. rewrite <- (z2b_b2z a), H. apply z2b_b2z. Qed.

(** A decidable property of bytes holds of all of them when it computes to
    [true] on the 256 values. *)
Lemma forall_byte (P : byte -> bool) :
  forallb (fun n => P (z2b (Z.of_nat n))) (seq 0 256) = true -> forall b, P b = true.
Proof.
  intros H b. rewrite forallb_forall in H. rewrite <- (z2b_b2z b).
  pose proof (b2z_range b). specialize (H (Z.to_nat (b2z b))).
  rewrite Z2Nat.id in H by lia. apply H. apply in_seq. lia.
Qed.

Lemma b2z_z2b z : 0 <= z < 256 -> b2z (z2b z) = z.
Proof.
  intros Hz.
  assert (H : forallb (fun n => b2z (z2b (Z.of_nat n)) =? Z.of_nat n) (seq 0 256) = true)
    by (vm_compute; reflexivity).
  rewrite forallb_forall in H. specialize (H (Z.to_nat z)).
  rewrite Z2Nat.id in H by lia. apply Z.eqb_eq, H, in_seq. lia.
Qed.

(** ** Searching and splitting *)

(** [str::strip_prefix]. *)
Fixpoint strip_prefix (p s : text) : option text :=
  match p, s with
  | [], _ => Some s
  | a :: p', b :: s' => if decide (a = b) then strip_prefix p' s' else None
  | _ :: _, [] => None
  end.

Definition starts_with (p s : text) : bool := bool_decide (is_Some (strip_prefix p s)).
Definition ends_with (p s : text) : bool := starts_with (reverse p) (reverse s).

(** [str::strip_suffix]. *)
Definition strip_suffix (p s : text) : option text :=
  reverse <$> strip_prefix (reverse p) (reverse s).

(** [str::contains] for a one-byte pattern. *)
Definition contains (c : byte) (s : text) : bool := existsb (fun b => bool_decide (b = c)) s.

(** [str::split] on a one-byte separator: always at least one piece. *)
Fixpoint split (c : byte) (s : text) : list text :=
  match s with
  | [] => [[]]
  | b :: s' =>
      if decide (b = c) then [] :: split c s'
      else match split c s' with
           | p :: ps => (b :: p) :: ps
           | [] => [[b]]
           end
  end.

(** [str::split_once] on a one-byte separator. *)
Fixpoint split_once (c : byte) (s : text) : option (text * text) :=
  match s with
  | [] => None
  | b :: s' =>
      if decide (b = c) then Some ([], s')
      else '(l, r) ← split_once c s'; Some (b :: l, r)
  end.

(** [str::find]: the byte index of the first occurrence. *)
Fixpoint find (p s : text) : option nat :=
  if starts_with p s then Some O
  else match s with
       | [] => None
       | _ :: s' => S <$> find p s'
       end.

(** ** Trimming: the characters of Unicode's [White_Space], as UTF-8 *)

Definition whitespace : list text :=
  [ [Byte.x09]; [Byte.x0a]; [Byte.x0b]; [Byte.x0c]; [Byte.x0d]; [Byte.x20];
    [Byte.xc2; Byte.x85]; [Byte.xc2; Byte.xa0]; [Byte.xe1; Byte.x9a; Byte.x80];
    [Byte.xe2; Byte.x80; Byte.x80]; [Byte.xe2; Byte.x80; Byte.x81];
    [Byte.xe2; Byte.x80; Byte.x82]; [Byte.xe2; Byte.x80; Byte.x83];
    [Byte.xe2; Byte.x80; Byte.x84]; [Byte.xe2; Byte.x80; Byte.x85];
    [Byte.xe2; Byte.x80; Byte.x86]; [Byte.xe2; Byte.x80; Byte.x87];
    [Byte.xe2; Byte.x80; Byte.x88]; [Byte.xe2; Byte.x80; Byte.x89];
    [Byte.xe2; Byte.x80; Byte.x8a]; [Byte.xe2; Byte.x80; Byte.xa8];
    [Byte.xe2; Byte.x80; Byte.xa9]; [Byte.xe2; Byte.x80; Byte.xaf];
    [Byte.xe2; Byte.x81; Byte.x9f]; [Byte.xe3; Byte.x80; Byte.x80] ].

(** Remove one leading character of [ws], if there is one. *)
Fixpoint strip_any (ws : list text) (s : text) : option text :=
  match ws with
  | [] => None
  | w :: ws' => match strip_prefix w s with
                | Some s' => Some s'
                | None => strip_any ws' s
                end
  end.

(** Every removed character shortens the text: its length is enough fuel. *)
Fixpoint strip_all (fuel : nat) (ws : list text) (s : text) : text :=
  match fuel with
  | O => s
  | S fuel' => match strip_any ws s with
               | Some s' => strip_all fuel' ws s'
               | None => s
               end
  end.

Definition trim_start (s : text) : text := strip_all (length s) whitespace s.
Definition trim_end (s : text) : text :=
  reverse (strip_all (length s) (map reverse whitespace) (reverse s)).
Definition trim (s : text) : text := trim_end (trim_start s).
Arguments trim : simpl never.

(** [make_ascii_lowercase] / [to_ascii_lowercase]. *)
Definition is_ascii_upper (b : byte) : bool := (65 <=? b2z b) && (b2z b <=? 90).
Definition byte_lower (b : byte) : byte :=
  if is_ascii_upper b then z2b (b2z b + 32) else b.
Definition ascii_lowercase (s : text) : text := map byte_lower s.
(** [eq_ignore_ascii_case]. *)
Definition eq_ignore_ascii_case (s t : text) : bool :=
  bool_decide (ascii_lowercase s = ascii_lowercase t).

(** ** Decimal integers *)

Definition digit_value (b : byte) : option Z :=
  if (48 <=? b2z b) && (b2z b <=? 57) then Some (b2z b - 48) else None.

Fixpoint parse_digits (acc : Z) (s : text) : option Z :=
  match s with
  | [] => Some acc
  | b :: s' =>
      d ← digit_value b;
      m ← checked_mul acc 10;
      a ← checked_add m d;
      parse_digits a s'
  end.

(** [str::parse::<u64>]: one leading [+] is accepted, the empty text and a
    lone sign are not, and a value above [u64::MAX] is an error. *)
Definition parse_u64 (s : text) : option Z :=
  match s with
  | [] => None
  | [b] => if decide (b = Byte.x2b) then None else parse_digits 0 s
  | b :: s' => if decide (b = Byte.x2b) then parse_digits 0 s' else parse_digits 0 s
  end.

Definition digit (d : Z) : byte := z2b (48 + d).

Fixpoint format_digits (fuel : nat) (n : Z) (acc : text) : text :=
  match fuel with
  | O => acc
  | S fuel' =>
      let acc' := digit (n mod 10) :: acc in
      if n <? 10 then acc' else format_digits fuel' (n / 10) acc'
  end.

(** [{}] of a [u64]: a number below [2 ^ k] has at most [k] digits. *)
Definition format_u64 (n : Z) : text := format_digits (S (Z.to_nat (Z.log2 n))) n [].
Arguments format_u64 : simpl never.

(** ** Hexadecimal digits *)

Definition hex_digit (letters : Z) (d : Z) : byte :=
  if d <? 10 then z2b (48 + d) else z2b (letters + (d - 10)).

(** ** UTF-8 validity ([String::from_utf8]): the well-formed byte sequences
    of the Unicode standard, table 3-7 *)

Definition in_range (lo hi : Z) (b : byte) : bool := (lo <=? b2z b) && (b2z b <=? hi).
Definition is_cont (b : byte) : bool := in_range 128 191 b.

(** The length of the well-formed sequence at the head of [s]. *)
Definition utf8_head (s : text) : option nat :=
  match s with
  | b0 :: s' =>
      if in_range 0 127 b0 then Some 1%nat
      else match s' with
      | b1 :: s'' =>
          if in_range 194 223 b0 then if is_cont b1 then Some 2%nat else None
          else match s'' with
          | b2 :: s''' =>
              let three :=
                (in_range 224 224 b0 && in_range 160 191 b1)
                || (in_range 225 236 b0 && is_cont b1)
                || (in_range 237 237 b0 && in_range 128 159 b1)
                || (in_range 238 239 b0 && is_cont b1) in
              if three then if is_cont b2 then Some 3%nat else None
              else match s''' with
              | b3 :: _ =>
                  if ((in_range 240 240 b0 && in_range 144 191 b1)
                      || (in_range 241 243 b0 && is_cont b1)
                      || (in_range 244 244 b0 && in_range 128 143 b1))
                     && is_cont b2 && is_cont b3
                  then Some 4%nat else None
              | [] => None
              end
          | [] => None
          end
      | [] => None
      end
  | [] => None
  end.

Fixpoint utf8_scan (fuel : nat) (s : text) : bool :=
  match s with
  | [] => true
  | _ =>
      match fuel, utf8_head s with
      | S fuel', Some n => utf8_scan fuel' (drop n s)
      | _, _ => false
      end
  end.

(** Every sequence has at least one byte: the length is enough fuel. *)
Definition utf8_valid (s : text) : bool := utf8_scan (length s) s.

Definition is_ascii (s : text) : bool := forallb (in_range 0 127) s.

(** ** Lemmas *)

Lemma strip_prefix_Some p s t : strip_prefix p s = Some t <-> s = p ++ t.
Proof.
  revert s; induction p as [|a p IH]; intros s; simpl; [naive_solver|].
  destruct s as [|b s]; [naive_solver|].
  case_decide as Hab; [subst; rewrite IH|]; naive_solver.
Qed.

Lemma strip_prefix_app p t : strip_prefix p (p ++ t) = Some t.
Proof. by apply strip_prefix_Some. Qed.

Lemma starts_with_spec p s : starts_with p s = true <-> exists t, s = p ++ t.
Proof.
  unfold starts_with. rewrite bool_decide_eq_true. split.
  - intros [t Ht]. exists t. by apply strip_prefix_Some.
  - intros [t ->]. exists t. apply strip_prefix_app.
Qed.

Lemma ends_with_spec p s : ends_with p s = true <-> exists t, s = t ++ p.
Proof.
  unfold ends_with. rewrite starts_with_spec. split.
  - intros [t Ht]. exists (reverse t). apply (f_equal reverse) in Ht.
    by rewrite reverse_involutive, reverse_app, reverse_involutive in Ht.
  - intros [t ->]. exists (reverse t). apply reverse_app.
Qed.

Lemma contains_spec c s : contains c s = true <-> c ∈ s.
Proof.
  unfold contains. rewrite existsb_exists, list_elem_of_In. split.
  - intros (b & Hb & ->%bool_decide_eq_true). exact Hb.
  - intros Hc. exists c. split; [exact Hc|]. by apply bool_decide_eq_true.
Qed.

Lemma contains_app c s t : contains c (s ++ t) = contains c s || contains c t.
Proof. apply existsb_app. Qed.

Lemma split_no_sep c s : c ∉ s -> split c s = [s].
Proof.
  induction s as [|b s IH]; intros H; simpl; [reflexivity|].
  rewrite not_elem_of_cons in H. destruct H as [Hb Hs].
  rewrite decide_False by congruence. by rewrite IH.
Qed.

Lemma split_app c s t : c ∉ s -> split c (s ++ c :: t) = s :: split c t.
Proof.
  induction s as [|b s IH]; intros H; simpl; [by rewrite decide_True|].
  rewrite not_elem_of_cons in H. destruct H as [Hb Hs].
  rewrite decide_False by congruence. by rewrite IH.
Qed.

Lemma split_join c s : mjoin (map (fun p => p ++ [c]) (split c s)) = s ++ [c].
Proof.
  induction s as [|b s IH]; simpl; [reflexivity|].
  case_decide as Hb; [subst; simpl; by rewrite IH|].
  destruct (split c s) as [|p ps] eqn:E; simpl in *.
  - destruct s; discriminate.
  - by rewrite IH.
Qed.

Lemma split_pieces c s : Forall (fun p => c ∉ p) (split c s).
Proof.
  induction s as [|b s IH]; simpl; [by constructor; [apply not_elem_of_nil|]|].
  case_decide; [constructor; [apply not_elem_of_nil|done]|].
  destruct (split c s) as [|p ps].
  - constructor; [|done]. rewrite list_elem_of_singleton. done.
  - inversion_clear IH. constructor; [|done]. rewrite elem_of_cons. naive_solver.
Qed.

Lemma split_once_Some c s l r :
  split_once c s = Some (l, r) <-> s = l ++ c :: r /\ c ∉ l.
Proof.
  revert l r; induction s as [|b s IH]; intros l r; simpl.
  - split; [done|]. intros [H _]. destruct l; discriminate.
  - case_decide as Hb; [subst b|].
    + split.
      * intros [= <- <-]. split; [done|apply not_elem_of_nil].
      * intros [H Hl]. destruct l as [|x l]; [by injection H as ->|].
        injection H as -> _. set_solver.
    + destruct (split_once c s) as [[l' r']|] eqn:E; simpl.
      * destruct (IH l' r') as [IH' _]. destruct (IH' eq_refl) as [-> Hn].
        split.
        -- intros [= <- <-]. split; [done|]. set_solver.
        -- intros [H Hl]. destruct l as [|x l]; [naive_solver|].
           simpl in H. injection H as <- H.
           destruct (IH l r) as [_ IH2]. rewrite not_elem_of_cons in Hl.
           specialize (IH2 (conj H (proj2 Hl))). by injection IH2 as -> ->.
      * split; [done|]. intros [H Hl]. destruct l as [|x l]; [naive_solver|].
        simpl in H. injection H as <- ->. rewrite not_elem_of_cons in Hl.
        destruct (IH l r) as [_ IH2]. by specialize (IH2 (conj eq_refl (proj2 Hl))).
Qed.

(** Trimming a text that neither starts nor ends with white space. *)
Lemma strip_all_id fuel ws s : strip_any ws s = None -> strip_all fuel ws s = s.
Proof. destruct fuel; simpl; [done|]. by intros ->. Qed.

Lemma strip_any_None ws s :
  strip_any ws s = None <-> Forall (fun w => strip_prefix w s = None) ws.
Proof.
  induction ws as [|w ws IH]; simpl; [naive_solver|].
  rewrite Forall_cons. destruct (strip_prefix w s); [naive_solver|]. tauto.
Qed.

(** ** Printing and parsing integers *)

Definition is_digit (b : byte) : bool := (48 <=? b2z b) && (b2z b <=? 57).

Lemma digit_b2z d : 0 <= d < 10 -> b2z (digit d) = 48 + d.
Proof. intros. apply b2z_z2b. lia. Qed.

Lemma digit_value_digit d : 0 <= d < 10 -> digit_value (digit d) = Some d.
Proof.
  intros H. unfold digit_value. rewrite digit_b2z by done.
  bool_to_prop; simpl; try lia. f_equal. lia.
Qed.

Lemma is_digit_digit d : 0 <= d < 10 -> is_digit (digit d) = true.
Proof. intros H. unfold is_digit. rewrite digit_b2z by done. bool_to_prop; done || lia. Qed.

(** The value of a digit string, without the overflow checks. *)
Definition digits_value (acc : Z) (s : text) : Z :=
  fold_left (fun a b => a * 10 + (b2z b - 48)) s acc.

Lemma digits_value_ge acc s :
  0 <= acc -> forallb is_digit s = true -> acc <= digits_value acc s.
Proof.
  revert acc; induction s as [|b s IH]; intros acc Ha Hs; simpl in *; [lia|].
  apply andb_true_iff in Hs as [Hb Hs]. unfold is_digit in Hb.
  etransitivity; [|apply IH; [|done]]; bool_to_prop; simpl in *; try done; lia.
Qed.

Lemma is_digit_value b : is_digit b = true -> 0 <= b2z b - 48 < 10.
Proof. unfold is_digit. bool_to_prop; simpl; try done; lia. Qed.

Lemma parse_digits_value acc s :
  is_u64 acc -> forallb is_digit s = true ->
  parse_digits acc s =
    if digits_value acc s <=? u64_max then Some (digits_value acc s) else None.
Proof.
  revert acc; induction s as [|b s IH]; intros acc Ha Hs; simpl in *.
  { unfold is_u64 in Ha. destruct (Z.leb_spec acc u64_max); [done|lia]. }
  apply andb_true_iff in Hs as [Hb Hs].
  pose proof (is_digit_value b Hb) as Hd. unfold is_u64 in Ha.
  pose proof (digits_value_ge (acc * 10 + (b2z b - 48)) s ltac:(lia) Hs) as Hge.
  unfold digit_value. unfold is_digit in Hb. rewrite Hb. simpl.
  destruct (checked_mul acc 10) as [m|] eqn:Em; simpl.
  - apply checked_mul_Some in Em as [-> ?].
    destruct (checked_add _ _) as [m|] eqn:Ea; simpl.
    + apply checked_add_Some in Ea as [-> ?]. apply IH; [unfold is_u64; lia|done].
    + apply checked_add_None in Ea.
      destruct (Z.leb_spec (digits_value (acc * 10 + (b2z b - 48)) s) u64_max); [lia|done].
  - unfold checked_mul in Em. destruct (Z.leb_spec (acc * 10) u64_max); [done|].
    destruct (Z.leb_spec (digits_value (acc * 10 + (b2z b - 48)) s) u64_max); [lia|done].
Qed.

Lemma format_digits_app fuel n acc :
  format_digits fuel n acc = format_digits fuel n [] ++ acc.
Proof.
  revert n acc; induction fuel as [|fuel IH]; intros n acc; simpl; [done|].
  destruct (n <? 10); [done|]. rewrite IH, (IH _ [_]), <- app_assoc. done.
Qed.

Lemma format_digits_value fuel n a :
  0 <= n < 10 ^ Z.of_nat fuel ->
  exists k, digits_value a (format_digits fuel n []) = a * 10 ^ k + n /\ 0 <= k.
Proof.
  revert n a; induction fuel as [|fuel IH]; intros n a Hn.
  { exists 0. simpl in *. lia. }
  rewrite Nat2Z.inj_succ, Z.pow_succ_r in Hn by lia. simpl.
  pose proof (Z.mod_pos_bound n 10 ltac:(lia)) as Hm.
  pose proof (Z.div_mod n 10 ltac:(lia)) as Hdm.
  destruct (Z.ltb_spec n 10).
  - exists 1. simpl. rewrite digit_b2z by lia. rewrite Z.mod_small by lia. lia.
  - rewrite format_digits_app. unfold digits_value. rewrite fold_left_app. simpl.
    destruct (IH (n / 10) a) as (k & Hk & ?).
    { split; [apply Z.div_pos; lia|]. apply Z.div_lt_upper_bound; lia. }
    unfold digits_value in Hk. rewrite Hk, digit_b2z by lia.
    exists (k + 1). rewrite Z.pow_add_r by lia. split; nia.
Qed.

Lemma format_digits_digit fuel n acc :
  0 <= n -> forallb is_digit acc = true -> forallb is_digit (format_digits fuel n acc) = true.
Proof.
  revert n acc; induction fuel as [|fuel IH]; intros n acc Hn Hacc; simpl; [done|].
  pose proof (Z.mod_pos_bound n 10 ltac:(lia)) as Hm.
  destruct (n <? 10); [|apply IH; [apply Z.div_pos; lia|]];
    simpl; rewrite is_digit_digit by lia; done.
Qed.

Lemma format_digits_nonempty fuel n acc : format_digits (S fuel) n acc <> [].
Proof.
  revert n acc; induction fuel as [|fuel IH]; intros n acc; simpl.
  - by destruct (n <? 10).
  - destruct (n <? 10); [done|]. apply IH.
Qed.

Lemma format_fuel n : 0 <= n -> n < 10 ^ Z.of_nat (S (Z.to_nat (Z.log2 n))).
Proof.
  intros Hn. destruct (Z.eq_dec n 0) as [->|]; [reflexivity|].
  rewrite Nat2Z.inj_succ, Z2Nat.id by apply Z.log2_nonneg.
  pose proof (Z.log2_spec n ltac:(lia)) as [_ H].
  pose proof (Z.pow_le_mono_l 2 10 (Z.succ (Z.log2 n))). lia.
Qed.

Lemma format_u64_digits n : 0 <= n -> forallb is_digit (format_u64 n) = true.
Proof. intros. by apply format_digits_digit. Qed.

Lemma format_u64_nonempty n : format_u64 n <> [].
Proof. apply format_digits_nonempty. Qed.

Lemma format_u64_value n : 0 <= n -> digits_value 0 (format_u64 n) = n.
Proof.
  intros Hn. destruct (format_digits_value _ n 0 (conj Hn (format_fuel n Hn))) as (k & H & _).
  exact H.
Qed.

Lemma digit_not_plus b : is_digit b = true -> b <> Byte.x2b.
Proof. intros H ->. discriminate. Qed.

Lemma parse_u64_digits s :
  s <> [] -> forallb is_digit s = true -> parse_u64 s = parse_digits 0 s.
Proof.
  intros Hne Hs. destruct s as [|b [|c s]]; [done| |]; unfold parse_u64;
    rewrite decide_False; try done; apply digit_not_plus;
    simpl in Hs; by destruct (is_digit b).
Qed.

Lemma parse_format_u64 n : is_u64 n -> parse_u64 (format_u64 n) = Some n.
Proof.
  intros [H0 H1]. pose proof (format_u64_digits n H0) as Hd.
  rewrite parse_u64_digits by auto using format_u64_nonempty.
  rewrite parse_digits_value by (done || unfold is_u64; lia).
  rewrite format_u64_value by done. bool_to_prop; [done|lia].
Qed.

Lemma format_u64_inj m n : 0 <= m -> 0 <= n -> format_u64 m = format_u64 n -> m = n.
Proof. intros Hm Hn H. rewrite <- (format_u64_value m), H by done. by apply format_u64_value. Qed.

Lemma parse_digits_range acc s n :
  is_u64 acc -> parse_digits acc s = Some n -> is_u64 n.
Proof.
  revert acc; induction s as [|b s IH]; intros acc Ha; simpl; [intros [= <-]; done|].
  unfold digit_value. destruct (_ && _) eqn:Hb; [simpl|done].
  destruct (checked_mul acc 10) as [m|] eqn:Em; [simpl|done].
  destruct (checked_add m _) as [a|] eqn:Ea; [simpl|done].
  apply checked_mul_Some in Em as [-> ?]. apply checked_add_Some in Ea as [-> ?].
  apply IH. unfold is_u64 in *. bool_to_prop; simpl in Hb; try done. lia.
Qed.

Lemma parse_u64_range s n : parse_u64 s = Some n -> is_u64 n.
Proof.
  unfold parse_u64. assert (is_u64 0) by (unfold is_u64; lia).
  destruct s as [|b [|c s]]; [done| |]; case_decide; try done;
    intros H'; by apply parse_digits_range in H'.
Qed.

(** * UTF-8 and trimming

    The scanner of [Bytes] as a grammar of characters: what is concatenated,
    trimmed or joined from valid texts is a valid text again; trimming twice is
    trimming once, and a list of texts that was joined by a separator none of
    them contains is split into the same texts. *)

(** ** Characters *)

Definition utf8_char (c : text) : Prop := c <> [] /\ utf8_head c = Some (length c).

Inductive utf8 : text -> Prop :=
| utf8_nil : utf8 []
| utf8_cons c s : utf8_char c -> utf8 s -> utf8 (c ++ s).

Lemma utf8_head_spec s n t :
  utf8_head s = Some n -> (1 <= n <= length s)%nat /\ utf8_head (take n s ++ t) = Some n.
Proof.
  intros E. destruct s as [|b0 s]; [done|]. simpl in E.
  destruct (in_range 0 127 b0) eqn:H0; [injection E as <-; simpl; rewrite H0; split; [lia|done]|].
  destruct s as [|b1 s]; [done|].
  destruct (in_range 194 223 b0) eqn:H1.
  { destruct (is_cont b1) eqn:H2; [|done]. injection E as <-. simpl. rewrite H0, H1, H2. split; [lia|done]. }
  destruct s as [|b2 s]; [done|].
  match type of E with (if ?x then _ else _) = _ => destruct x eqn:H2 end.
  { destruct (is_cont b2) eqn:H3; [|done]. injection E as <-. simpl. rewrite H0, H1, H2, H3. split; [lia|done]. }
  destruct s as [|b3 s]; [done|].
  match type of E with (if ?x then _ else _) = _ => destruct x eqn:H3; [|done] end.
  injection E as <-. simpl. rewrite H0, H1, H2, H3. split; [lia|done].
Qed.

Lemma utf8_head_char s n : utf8_head s = Some n -> utf8_char (take n s).
Proof.
  intros E. destruct (utf8_head_spec s n [] E) as [Hn Ht]. rewrite app_nil_r in Ht.
  split; [|rewrite length_take; replace (n `min` length s)%nat with n by lia; done].
  destruct s; [simpl in Hn; lia|]. by destruct n; [lia|].
Qed.

Lemma utf8_char_head c s : utf8_char c -> utf8_head (c ++ s) = Some (length c).
Proof. intros [_ E]. destruct (utf8_head_spec c _ s E) as [_ H]. by rewrite firstn_all in H. Qed.

(** The first byte of a character is no continuation byte, the others are. *)
Lemma utf8_char_cont b c : utf8_char (b :: c) -> is_cont b = false /\ Forall (fun x => is_cont x = true) c.
Proof.
  intros [_ E]. simpl in E. unfold is_cont in *.
  assert (Hb : forall lo hi, in_range lo hi b = true -> 191 < lo \/ hi < 128 -> in_range 128 191 b = false).
  { unfold in_range. intros lo hi H1 H2. bool_to_prop; lia. }
  assert (Hc : forall lo hi x, in_range lo hi x = true -> 128 <= lo -> hi <= 191 -> in_range 128 191 x = true).
  { unfold in_range. intros lo hi x H1 H2 H3. bool_to_prop; lia. }
  destruct (in_range 0 127 b) eqn:H0.
  { injection E as E. destruct c; [|done]. split; [eapply Hb; [eassumption|lia]|done]. }
  destruct c as [|b1 c]; [done|]. destruct (in_range 194 223 b) eqn:H1.
  { destruct (in_range 128 191 b1) eqn:H2; [|done]. injection E as E. destruct c; [|done].
    split; [eapply Hb; [eassumption|lia]|by repeat constructor]. }
  destruct c as [|b2 c]; [done|].
  match type of E with (if ?x then _ else _) = _ => destruct x eqn:H2 end.
  { destruct (in_range 128 191 b2) eqn:H3; [|done]. injection E as E. destruct c; [|done].
    rewrite !orb_true_iff, !andb_true_iff in H2.
    split; [|constructor; [|by repeat constructor]]; naive_solver eauto with lia. }
  destruct c as [|b3 c]; [done|].
  match type of E with (if ?x then _ else _) = _ => destruct x eqn:H3; [|done] end.
  injection E as E. destruct c; [|done]. rewrite !andb_true_iff, !orb_true_iff, !andb_true_iff in H3.
  split; [|repeat constructor]; naive_solver eauto with lia.
Qed.

(** ** The scanner and the grammar *)

Lemma utf8_scan_sound fuel s : utf8_scan fuel s = true -> utf8 s.
Proof.
  revert s. induction fuel as [|fuel IH]; intros [|b s]; try (by constructor); [done|].
  cbn [utf8_scan]. destruct (utf8_head (b :: s)) as [n|] eqn:E; [|done]. intros H%IH.
  rewrite <- (take_drop n (b :: s)). constructor; [by apply utf8_head_char|done].
Qed.

Lemma utf8_scan_complete s : utf8 s -> forall fuel, (length s <= fuel)%nat -> utf8_scan fuel s = true.
Proof.
  induction 1 as [|c s Hc Hs IH]; intros fuel Hf; [by destruct fuel|].
  pose proof (utf8_char_head c s Hc) as Eh. destruct Hc as [Hne _]. destruct c as [|b c]; [done|].
  rewrite length_app in Hf. simpl in Hf. destruct fuel as [|fuel]; [lia|].
  change ((b :: c) ++ s) with (b :: (c ++ s)) in *. cbn [utf8_scan]. rewrite Eh.
  simpl. rewrite drop_app_length. apply IH. lia.
Qed.

Lemma utf8_valid_iff s : utf8_valid s = true <-> utf8 s.
Proof. split; [apply utf8_scan_sound|]. intros H. by apply utf8_scan_complete. Qed.

Lemma utf8_app s t : utf8 s -> utf8 t -> utf8 (s ++ t).
Proof. induction 1 as [|c s Hc _ IH]; intros Ht; [done|]. rewrite <- app_assoc. constructor; [done|by apply IH]. Qed.

(** What follows a character, and what stands before one. *)
Lemma utf8_tail c s : utf8_char c -> utf8 (c ++ s) -> utf8 s.
Proof.
  intros Hc H. inversion H as [E|c' s' Hc' Hs' E].
  { destruct Hc as [Hc _]. by destruct c. }
  pose proof (utf8_char_head c s Hc) as E1. rewrite <- E, (utf8_char_head c' s' Hc') in E1. injection E1 as E1.
  apply app_inj_1 in E as [_ ->]; done.
Qed.

Lemma utf8_init s c : utf8_char c -> utf8 (s ++ c) -> utf8 s.
Proof.
  intros Hc H. remember (s ++ c) as u eqn:E. revert s E.
  induction H as [|c' s' Hc' Hs' IH]; intros s E; [destruct s; [constructor|done]|].
  apply app_eq_inv in E as [(k & -> & ->)|(k & -> & ->)]; [|constructor; [done|by apply IH]].
  destruct s as [|b s]; [constructor|]. destruct k as [|x k].
  { rewrite app_nil_r in Hc'. rewrite <- (app_nil_r (b :: s)). constructor; [done|constructor]. }
  exfalso. apply utf8_char_cont in Hc' as [_ Hall].
  apply utf8_char_cont in Hc as [Hx _]. rewrite Forall_app, Forall_cons in Hall. destruct Hall as [_ [Hy _]]. congruence.
Qed.

(** ** Trimming *)

Lemma whitespace_chars w : w ∈ whitespace -> utf8_char w.
Proof.
  assert (H : Forall utf8_char whitespace) by (repeat (constructor; [by split|]); constructor).
  rewrite Forall_forall in H. apply H.
Qed.

Lemma strip_any_Some ws s t : strip_any ws s = Some t -> exists w, w ∈ ws /\ s = w ++ t.
Proof.
  induction ws as [|w ws IH]; [done|]. simpl. destruct (strip_prefix w s) as [t'|] eqn:E.
  - intros [= <-]. exists w. apply strip_prefix_Some in E. split; [by left|done].
  - intros H. destruct (IH H) as (w' & ? & ?). exists w'. split; [by right|done].
Qed.

(** What stripping leaves: a suffix of the text that begins with none of [ws]. *)
Lemma strip_all_None fuel ws s :
  Forall (fun w => w <> []) ws -> (length s <= fuel)%nat -> strip_any ws (strip_all fuel ws s) = None.
Proof.
  intros Hws. revert s. induction fuel as [|fuel IH]; intros s Hf; simpl.
  - destruct s; [|simpl in Hf; lia]. apply strip_any_None. eapply Forall_impl; [exact Hws|]. by intros [|? ?].
  - destruct (strip_any ws s) as [t|] eqn:E; [|done]. apply IH.
    destruct (strip_any_Some _ _ _ E) as (w & Hw & ->). rewrite Forall_forall in Hws. specialize (Hws w Hw).
    rewrite length_app in Hf. destruct w; [done|]. simpl in Hf. lia.
Qed.

Lemma strip_all_suffix fuel ws s : exists p, s = p ++ strip_all fuel ws s.
Proof.
  revert s. induction fuel as [|fuel IH]; intros s; simpl; [by exists []|].
  destruct (strip_any ws s) as [t|] eqn:E; [|by exists []].
  apply strip_any_Some in E as (w & _ & ->). destruct (IH t) as [p Hp]. exists (w ++ p). by rewrite <- app_assoc, <- Hp.
Qed.

Lemma utf8_trim_start s : utf8 s -> utf8 (trim_start s).
Proof.
  unfold trim_start. generalize (length s). intros fuel. revert s.
  induction fuel as [|fuel IH]; intros s Hs; cbn [strip_all]; [done|].
  destruct (strip_any whitespace s) as [t|] eqn:E; [|done].
  apply strip_any_Some in E as (w & Hw & ->). apply IH. eapply (utf8_tail w); [by apply whitespace_chars|done].
Qed.

Lemma utf8_trim_end s : utf8 s -> utf8 (trim_end s).
Proof.
  unfold trim_end. generalize (length s). intros fuel. revert s.
  induction fuel as [|fuel IH]; intros s Hs; cbn [strip_all]; [by rewrite reverse_involutive|].
  destruct (strip_any _ (reverse s)) as [t|] eqn:E; [|by rewrite reverse_involutive].
  apply strip_any_Some in E as (w & Hw & Es). apply (f_equal reverse) in Es.
  rewrite reverse_involutive, reverse_app in Es. rewrite <- (reverse_involutive t). apply IH.
  apply list_elem_of_In, in_map_iff in Hw as (w' & <- & Hw%list_elem_of_In). rewrite reverse_involutive in Es.
  subst s. eapply (utf8_init _ w'); [by apply whitespace_chars|done].
Qed.

Lemma utf8_trim s : utf8 s -> utf8 (trim s).
Proof. intros. by apply utf8_trim_end, utf8_trim_start. Qed.

Lemma whitespace_nonempty : Forall (fun w => w <> []) whitespace /\ Forall (fun w => w <> []) (map reverse whitespace).
Proof. split; repeat (constructor; [by intros ?|]); constructor. Qed.

(** What is left has no white space at its ends. *)
Lemma trim_end_prefix s : exists p, s = trim_end s ++ p.
Proof.
  destruct (strip_all_suffix (length s) (map reverse whitespace) (reverse s)) as [p E].
  exists (reverse p). apply (f_equal reverse) in E. by rewrite reverse_involutive, reverse_app in E.
Qed.

Lemma trim_start_clean s : strip_any whitespace s = None -> strip_any whitespace (trim_end s) = None.
Proof.
  rewrite !strip_any_None, !Forall_forall. intros H w Hw. specialize (H w Hw).
  destruct (strip_prefix w (trim_end s)) as [t|] eqn:E; [|done]. apply strip_prefix_Some in E.
  destruct (trim_end_prefix s) as [p Hp]. rewrite E, <- app_assoc in Hp. by rewrite Hp, strip_prefix_app in H.
Qed.

Lemma trim_idem s : trim (trim s) = trim s.
Proof.
  destruct whitespace_nonempty as [H1 H2].
  assert (Hs : strip_any whitespace (trim s) = None) by (apply trim_start_clean, strip_all_None; done).
  unfold trim at 1, trim_start. rewrite strip_all_id by done.
  unfold trim_end. rewrite strip_all_id; [apply reverse_involutive|].
  unfold trim at 1, trim_end. rewrite reverse_involutive. apply strip_all_None; [done|]. by rewrite length_reverse.
Qed.

(** Trimming keeps a byte that is not there away. *)
Lemma trim_elem c s : c ∈ trim s -> c ∈ s.
Proof.
  unfold trim. intros H. destruct (trim_end_prefix (trim_start s)) as [p Hp].
  destruct (strip_all_suffix (length s) whitespace s) as [q Hq]. fold (trim_start s) in Hq.
  rewrite Hq, elem_of_app. right. rewrite Hp, elem_of_app. by left.
Qed.

(** ** Joining and splitting *)

(** [Vec<String>::join(sep)]. *)
Fixpoint join (sep : text) (l : list text) : text :=
  match l with
  | [] => []
  | [s] => s
  | s :: l' => s ++ sep ++ join sep l'
  end.

Lemma split_of_join c l : l <> [] -> Forall (fun s => c ∉ s) l -> split c (join [c] l) = l.
Proof.
  induction l as [|s l IH]; [done|]. intros _ [Hs Hl]%Forall_cons. destruct l as [|s' l]; [by apply split_no_sep|].
  change (join [c] (s :: s' :: l)) with (s ++ c :: join [c] (s' :: l)). rewrite split_app by done. by rewrite IH.
Qed.

Lemma utf8_join sep l : utf8 sep -> Forall utf8 l -> utf8 (join sep l).
Proof.
  intros Hsep. induction 1 as [|s l Hs _ IH]; [constructor|]. destruct l as [|s' l]; [done|].
  change (utf8 (s ++ sep ++ join sep (s' :: l))). by repeat apply utf8_app.
Qed.

Lemma join_elem c sep l : c ∈ join sep l <-> (exists s, s ∈ l /\ c ∈ s) \/ (c ∈ sep /\ (1 < length l)%nat).
Proof.
  induction l as [|s l IH]; [simpl; split; [by intros ?%elem_of_nil|intros [(? & ?%elem_of_nil & _)|[_ ?]]; [done|lia]]|].
  destruct l as [|s' l].
  { simpl. split; [intros; left; exists s; split; [by left|done]|].
    intros [(x & Hx & ?)|[_ ?]]; [|lia]. by apply list_elem_of_singleton in Hx as ->. }
  change (join sep (s :: s' :: l)) with (s ++ sep ++ join sep (s' :: l)). rewrite !elem_of_app, IH.
  setoid_rewrite (elem_of_cons (s' :: l)). simpl. split.
  - intros [?|[?|[(x & ? & ?)|[? ?]]]]; [left; eauto|right; split; [done|lia]|left; eauto|right; split; [done|lia]].
  - intros [(x & [->|?] & ?)|[? _]]; [by left|right; right; left; eauto|by right; left].
Qed.
