(* ===== verification/Error.v ===== *)
(** * The error type of the crate ([utils/error.rs])

    [ProxyError], its conversion to an HTTP status and to the text a client
    may see, the attachment of a source id to an expired authorization, and
    the [From] conversions that [?] applies.  A foreign error is represented
    by the text its [Display] prints. *)

From Stdlib Require Import Strings.String.
From S2P Require Import Prelude Bytes.

Module ProxyError.
Inductive t : Type :=
| Cache (msg : text)
| Network (msg : text)
| UpstreamAuthorizationExpired (source_id : option Z)
| InvalidRange (msg : text)
| Request (msg : text)
| Storage (msg : text)
| Parse (msg : text)
| IO (msg : text)
| MethodNotAllowed.

#[export] Instance t_eq_dec : EqDecision t.
Proof. solve_decision. Defined.

(** [impl Display]. *)
Definition display (e : t) : text :=
  match e with
  | Cache msg => str "Cache error: " ++ msg
  | Network msg => str "Network error: " ++ msg
  | UpstreamAuthorizationExpired _ => str "Upstream authorization expired"
  | InvalidRange msg => str "Invalid range error: " ++ msg
  | Request msg => str "Request error: " ++ msg
  | Storage msg => str "Storage error: " ++ msg
  | Parse msg => str "Parse error: " ++ msg
  | IO msg => str "IO error: " ++ msg
  | MethodNotAllowed => str "Method not allowed"
  end.

Definition status_code (e : t) : Z :=
  match e with
  | InvalidRange _ => 416
  | Request _ => 400
  | Network _ => 502
  | UpstreamAuthorizationExpired _ => 502
  | Cache _ | Storage _ | IO _ => 500
  | Parse _ => 502
  | MethodNotAllowed => 405
  end.

Definition public_message (e : t) : text :=
  match e with
  | InvalidRange _ => str "Requested range not satisfiable"
  | Request _ => str "Bad request"
  | Network _ | Parse _ | UpstreamAuthorizationExpired _ => str "Upstream error"
  | Cache _ | Storage _ | IO _ => str "Internal error"
  | MethodNotAllowed => str "Method not allowed"
  end.

Definition with_source_id (e : t) (source_id : option Z) : t :=
  match e with
  | UpstreamAuthorizationExpired None => UpstreamAuthorizationExpired source_id
  | error => error
  end.

Definition expired_source_id (e : t) : option Z :=
  match e with
  | UpstreamAuthorizationExpired source_id => source_id
  | _ => None
  end.

(** The [From] instances. *)
Definition from_hyper (err : text) : t := Network err.
Definition from_io (err : text) : t := IO err.
Definition from_parse_int (err : text) : t := Parse err.
Definition from_serde_json (err : text) : t := Parse err.
Definition from_http (err : text) : t := Request err.
Definition from_to_str (err : text) : t := Request (str "Invalid header value: " ++ err).
Definition from_utf8 (err : text) : t := Parse err.
Definition from_acquire : t := Storage (str "无法获取信号量").

(** What a client can observe of an error. *)
Definition observable (e : t) : Z * text := (status_code e, public_message e).

(** The class of an error: its constructor, without the payload. *)
Inductive kind := KClient | KRange | KUpstream | KInternal | KMethod.
#[export] Instance kind_eq_dec : EqDecision kind.
Proof. solve_decision. Defined.
Definition kind_of (e : t) : kind :=
  match e with
  | InvalidRange _ => KRange
  | Request _ => KClient
  | Network _ | Parse _ | UpstreamAuthorizationExpired _ => KUpstream
  | Cache _ | Storage _ | IO _ => KInternal
  | MethodNotAllowed => KMethod
  end.
End ProxyError.

Abbreviation Result := (result ProxyError.t).

Module ErrorFacts.
Import ProxyError.

(** What a client sees of an error is a function of its class alone:
    two errors answer with the same status and the same body exactly when
    they are of the same class, whatever paths or upstream URLs their
    internal messages hold. *)
Theorem observable_is_class (e1 e2 : t) :
  observable e1 = observable e2 <-> kind_of e1 = kind_of e2.
Proof. by destruct e1, e2; vm_compute. Qed.

(** Every status is a client or server error status. *)
Lemma status_code_is_error (e : t) : 400 <= status_code e < 600.
Proof. destruct e; simpl; lia. Qed.

(** Attaching a source id is idempotent, never replaces an id that is
    already there and does not change what a client sees. *)
Lemma with_source_id_spec (e : t) (i j : option Z) :
  observable (with_source_id e i) = observable e
  /\ (is_Some i -> with_source_id (with_source_id e i) j = with_source_id e i)
  /\ (forall k, expired_source_id e = Some k -> with_source_id e i = e).
Proof.
  destruct e as [| |[]| | | | | |], i, j; simpl; split_and!; try done;
    intros [? ?]; done.
Qed.
End ErrorFacts.
