(* ===== verification/External.v ===== *)
(** * Interfaces to third-party code

    The crates the sources call and that are not part of the repository
    appear as type classes: an operation of the class stands for the
    library function, its laws (in the classes whose name ends in [Laws])
    are documented behaviour the sources rely on.  Every theorem that uses a
    law has a witness on a concrete instance. *)

From S2P Require Import Prelude Bytes.

(** ** The [url] crate

    A parsed URL is given by what its accessors return. *)

Module Url.
Record t : Type := mk {
  scheme : text;
  username : text;
  password : option text;
  host_str : option text;
  port : option Z;
  port_or_known_default : option Z;
  path : text;
  query : option text;
  as_str : text;              (* the serialization, [Url::to_string] *)
}.
End Url.

Class UrlParser : Type := url_parse : text -> option Url.t.

(** ** The [http] crate

    Which bytes [HeaderValue::to_str] and [HeaderValue::from_str] accept, the
    text of a status code (its [Display]), and the parsed form of a request
    URI. *)

Class HeaderText : Type := {
  visible_text : text -> bool;
  status_text : Z -> text;
}.

Record Uri : Type := mk_Uri { uri_path : text; uri_string : text }.
Class UriParser : Type := uri_parse : text -> option Uri.

(** ** [std::collections::HashMap]: the iteration order is unspecified

    [keys_order m] is the order in which [m] is iterated. *)

Class HashOrder (K A : Type) `{Countable K} : Type := keys_order : gmap K A -> list K.

Class HashOrderLaws (K A : Type) `{HashOrder K A} : Prop := {
  keys_order_perm (m : gmap K A) : keys_order m ≡ₚ (map_to_list m).*1;
}.

(** The order of the key encoding is one such order. *)
Definition sorted_order (K A : Type) `{Countable K} : HashOrder K A :=
  fun m => (map_to_list m).*1.
Lemma sorted_order_laws (K A : Type) `{Countable K} : @HashOrderLaws K A _ _ (sorted_order K A).
Proof. constructor. intros m. reflexivity. Qed.

Lemma keys_order_elem {K A} `{HashOrderLaws K A} (m : gmap K A) k :
  k ∈ keys_order m <-> is_Some (m !! k).
Proof.
  rewrite keys_order_perm, list_elem_of_fmap. split.
  - intros ([k' v] & -> & Hk%elem_of_map_to_list). eauto.
  - intros [v Hv]. exists (k, v). split; [done|]. by apply elem_of_map_to_list.
Qed.

(** ** The [sha2] crate *)

Class Sha256 : Type := sha256 : list byte -> list byte.
Class Sha256Laws `{Sha256} : Prop := {
  sha256_length s : length (sha256 s) = 32%nat;
}.
