(* ===== verification/Headers.v ===== *)
(** * Header maps and messages

    A header map is the list of its (lower-case name, value) pairs, in
    insertion order, with repeated names allowed; requests carry the parts
    the handlers look at. *)

From Stdlib Require Import Strings.String.
From S2P Require Import Prelude Bytes Error External.

Definition HeaderMap : Type := list (text * text).

(** [HeaderMap::get]: the first value of the name. *)
Fixpoint hget (name : text) (h : HeaderMap) : option text :=
  match h with
  | [] => None
  | (k, v) :: h' => if decide (k = name) then Some v else hget name h'
  end.

Definition contains_key (name : text) (h : HeaderMap) : bool :=
  bool_decide (is_Some (hget name h)).
Definition hremove (name : text) (h : HeaderMap) : HeaderMap :=
  base.filter (fun kv : text * text => kv.1 <> name) (h : list (text * text)).
(** [HeaderMap::insert] replaces every earlier value of the name. *)
Definition hinsert (name value : text) (h : HeaderMap) : HeaderMap :=
  hremove name h ++ [(name, value)].
Definition happend (name value : text) (h : HeaderMap) : HeaderMap := h ++ [(name, value)].

Record Request : Type := mk_Request {
  method : text;
  uri : Uri;
  headers : HeaderMap;
}.

(** [HeaderValue::to_str] followed by [?]. *)
Definition header_to_str `{HeaderText} (v : text) : Result text :=
  if visible_text v then Ok v
  else Err (ProxyError.from_to_str (str "failed to convert header to a str")).

Lemma hget_app n h1 h2 :
  hget n (h1 ++ h2) = match hget n h1 with Some v => Some v | None => hget n h2 end.
Proof. induction h1 as [|[k v] h1 IH]; simpl; [done|]. by case_decide. Qed.

Lemma hget_hremove_eq n h : hget n (hremove n h) = None.
Proof.
  unfold hremove in *. induction h as [|[k v] h IH]; [done|].
  rewrite filter_cons. case_decide as Hk; simpl in *; [|done].
  by rewrite decide_False.
Qed.

Lemma hget_hremove_ne n m h : n <> m -> hget m (hremove n h) = hget m h.
Proof.
  intros Hn. unfold hremove in *. induction h as [|[k v] h IH]; [done|].
  rewrite filter_cons. case_decide as Hk; simpl in *.
  - case_decide; [done|]. done.
  - rewrite decide_False; [done|]. intros ->. naive_solver.
Qed.

Lemma hget_hinsert_eq n v h : hget n (hinsert n v h) = Some v.
Proof. unfold hinsert. rewrite hget_app, hget_hremove_eq. simpl. by rewrite decide_True. Qed.

Lemma hget_hinsert_ne n m v h : n <> m -> hget m (hinsert n v h) = hget m h.
Proof.
  intros Hn. unfold hinsert. rewrite hget_app, hget_hremove_ne by done. simpl.
  rewrite decide_False by done. by destruct (hget m h).
Qed.

Lemma contains_key_spec n h : contains_key n h = true <-> is_Some (hget n h).
Proof. apply bool_decide_eq_true. Qed.
