(* ===== verification/Range.v ===== *)
(** * HTTP byte ranges ([utils/range.rs])

    Parsing and printing of [Range] values, positioning of suffix ranges,
    convergence of open-ended ranges and the length arithmetic, on [u64]
    values.  The theorems characterise the accepted syntax, show that
    printing and parsing are inverse, and that no operation over- or
    underflows. *)

From Stdlib Require Import Strings.Byte Strings.String.
From S2P Require Import Prelude Bytes Error.

Inductive RangeSpec : Type :=
| Offset (start end_ : Z)
| Suffix (length : Z).

#[export] Instance RangeSpec_eq_dec : EqDecision RangeSpec.
Proof. solve_decision. Defined.

Definition OPEN_ENDED : Z := u64_max.

Definition endpoints (self : RangeSpec) (total_size : option Z) : Result (Z * Z) :=
  match self with
  | Offset start end_ => Ok (start, end_)
  | Suffix length =>
      match total_size with
      | Some 0 => Err (ProxyError.InvalidRange (str "资源长度为 0"))
      | Some total => Ok (saturating_sub total length, total - 1)
      | None => Err (ProxyError.InvalidRange (str "总长度未知，无法定位后缀范围"))
      end
  end.

Definition parse_range_spec (range : text) : Result RangeSpec :=
  match strip_prefix (str "bytes=") range with
  | None => Err (ProxyError.Request (str "Invalid range format"))
  | Some range =>
    if contains x2c range then
      Err (ProxyError.InvalidRange (str "multiple byte ranges are not supported"))
    else
    match split x2d range with
    | [part0; part1] =>
      let first := trim part0 in
      let second := trim part1 in
      if decide (first = []) then
        length ← ok_or (parse_u64 second) (ProxyError.Request (str "Invalid suffix length"));
        if length =? 0 then Err (ProxyError.InvalidRange (str "后缀范围长度不能为 0"))
        else Ok (Suffix length)
      else
        start ← ok_or (parse_u64 first) (ProxyError.Request (str "Invalid start position"));
        end_ ← (if decide (second = []) then Ok OPEN_ENDED
                else ok_or (parse_u64 second)
                       (ProxyError.Request (str "Invalid end position")));
        if end_ <? start then
          Err (ProxyError.Request (str "Invalid range: start > end"))
        else Ok (Offset start end_)
    | _ => Err (ProxyError.Request (str "Invalid range format"))
    end
  end.

Definition parse_range (range : text) : Result (Z * Z) :=
  spec ← parse_range_spec range;
  match spec with
  | Offset start end_ => Ok (start, end_)
  | Suffix _ => Err (ProxyError.InvalidRange (str "后缀范围需先借总长度解析为具体区间"))
  end.

Definition format_range (start end_ : Z) : text :=
  if end_ =? OPEN_ENDED then str "bytes=" ++ format_u64 start ++ str "-"
  else str "bytes=" ++ format_u64 start ++ str "-" ++ format_u64 end_.

Definition resolve_range (start end_ : Z) (total_size : option Z) : Result (Z * Z) :=
  match total_size with
  | Some 0 => Err (ProxyError.InvalidRange (str "资源长度为 0"))
  | Some total =>
      let last := total - 1 in
      if last <? start then
        Err (ProxyError.InvalidRange
               (str "范围起点 " ++ format_u64 start ++ str " 超出资源长度 " ++ format_u64 total))
      else Ok (start, Z.min end_ last)
  | None =>
      if end_ =? OPEN_ENDED then
        Err (ProxyError.InvalidRange (str "总长度未知，无法确定开区间的结束位置"))
      else Ok (start, end_)
  end.

Definition range_length (start end_ : Z) : Result Z :=
  ok_or (checked_sub end_ start ≫= fun span => checked_add span 1)
    (ProxyError.InvalidRange
       (str "无效范围: " ++ format_u64 start ++ str "-" ++ format_u64 end_)).

Definition clamp_end_to_upstream_length (start end_ upstream_length : Z) : Z :=
  match upstream_length with
  | 0 => end_
  | length => Z.min end_ (saturating_add start (length - 1))
  end.

(** ** The accepted syntax, as a relation *)

(** [denotes s n]: after trimming, [s] is the decimal numeral [n]. *)
Definition denotes (s : text) (n : Z) : Prop := parse_u64 (trim s) = Some n.

Inductive range_syntax : text -> RangeSpec -> Prop :=
| syn_closed a b s e :
    x2c ∉ a ++ b -> x2d ∉ a ++ b -> denotes a s -> denotes b e -> s <= e ->
    range_syntax (str "bytes=" ++ a ++ x2d :: b) (Offset s e)
| syn_open a b s :
    x2c ∉ a ++ b -> x2d ∉ a ++ b -> denotes a s -> trim b = [] ->
    range_syntax (str "bytes=" ++ a ++ x2d :: b) (Offset s OPEN_ENDED)
| syn_suffix a b n :
    x2c ∉ a ++ b -> x2d ∉ a ++ b -> trim a = [] -> denotes b n -> n <> 0 ->
    range_syntax (str "bytes=" ++ a ++ x2d :: b) (Suffix n).

(** A well-formed range specification: [u64] fields, an ordered offset pair,
    a positive suffix. *)
Definition spec_ok (r : RangeSpec) : Prop :=
  match r with
  | Offset s e => 0 <= s <= e /\ e <= u64_max
  | Suffix n => 0 < n <= u64_max
  end.

Lemma denotes_nonempty s n : denotes s n -> trim s <> [].
Proof. unfold denotes. intros H Hs. by rewrite Hs in H. Qed.

Lemma denotes_range s n : denotes s n -> 0 <= n <= u64_max.
Proof. apply parse_u64_range. Qed.

Lemma split_two c s a b :
  split c s = [a; b] <-> (s = a ++ c :: b) /\ (c ∉ a) /\ (c ∉ b).
Proof.
  split.
  - intros H. pose proof (split_pieces c s) as Hp. pose proof (split_join c s) as Hj.
    rewrite H in *. simpl in Hj. rewrite app_nil_r, app_assoc in Hj.
    apply (inj (fun l => l ++ [c])) in Hj. subst.
    rewrite !Forall_cons in Hp. rewrite <- app_assoc. naive_solver.
  - intros (-> & Ha & Hb). rewrite split_app by done. by rewrite split_no_sep.
Qed.

(** [trim] leaves a text whose end bytes are visible ASCII unchanged. *)
Definition visible (b : byte) : bool := in_range 33 126 b.

Lemma whitespace_not_visible w b s :
  w ∈ whitespace -> visible b = true -> strip_prefix w (b :: s) = None.
Proof.
  intros Hw Hb. destruct (strip_prefix w (b :: s)) as [t|] eqn:E; [|done].
  apply strip_prefix_Some in E. exfalso. revert Hw E.
  assert (Hf : Forall (fun w => match w with [] => False | c :: _ => visible c = false end)
                 whitespace) by (repeat constructor).
  rewrite Forall_forall in Hf. intros Hw E. specialize (Hf w Hw).
  destruct w as [|c w]; [done|]. simpl in E. injection E as -> _. congruence.
Qed.

Lemma whitespace_rev_not_visible w b s :
  w ∈ whitespace -> visible b = true -> strip_prefix (reverse w) (b :: s) = None.
Proof.
  intros Hw Hb. destruct (strip_prefix (reverse w) (b :: s)) as [t|] eqn:E; [|done].
  apply strip_prefix_Some in E. exfalso.
  assert (Hf : Forall (fun w => match reverse w with [] => False | c :: _ => visible c = false end)
                 whitespace) by (repeat constructor).
  rewrite Forall_forall in Hf. specialize (Hf w Hw).
  destruct (reverse w) as [|c w']; [done|]. simpl in E. injection E as -> _. congruence.
Qed.

Lemma trim_visible s : s <> [] -> forallb visible s = true -> trim s = s.
Proof.
  intros Hne Hv. unfold trim, trim_end, trim_start.
  assert (Hs : strip_all (length s) whitespace s = s).
  { apply strip_all_id, strip_any_None, Forall_forall. intros w Hw.
    destruct s as [|b s]; [done|]. apply whitespace_not_visible; [done|].
    simpl in Hv. by destruct (visible b). }
  rewrite Hs. rewrite strip_all_id; [apply reverse_involutive|].
  apply strip_any_None, Forall_forall. intros w Hw.
  apply list_elem_of_In, in_map_iff in Hw as (w' & <- & Hw%list_elem_of_In).
  destruct (reverse s) as [|b t] eqn:E.
  { apply (f_equal reverse) in E. by rewrite reverse_involutive in E. }
  apply whitespace_rev_not_visible; [done|].
  rewrite forallb_forall in Hv. apply Hv, list_elem_of_In. rewrite <- elem_of_reverse, E.
  apply list_elem_of_here.
Qed.

Lemma trim_nil : trim [] = [].
Proof. reflexivity. Qed.

Lemma is_digit_visible b : is_digit b = true -> visible b = true.
Proof. unfold is_digit, visible, in_range. bool_to_prop; simpl; try done; lia. Qed.

Lemma digits_visible s : forallb is_digit s = true -> forallb visible s = true.
Proof. rewrite !forallb_forall. eauto using is_digit_visible. Qed.

Lemma digits_not_elem c s : is_digit c = false -> forallb is_digit s = true -> c ∉ s.
Proof.
  intros Hc Hs Hin%list_elem_of_In. rewrite forallb_forall in Hs.
  specialize (Hs c Hin). congruence.
Qed.

Lemma trim_format_u64 n : 0 <= n -> trim (format_u64 n) = format_u64 n.
Proof. intros. apply trim_visible; auto using format_u64_nonempty, digits_visible, format_u64_digits. Qed.

Lemma denotes_format n : is_u64 n -> denotes (format_u64 n) n.
Proof. intros Hn. unfold denotes. rewrite trim_format_u64 by apply Hn. by apply parse_format_u64. Qed.

Lemma parse_range_spec_syntax (r : text) (spec : RangeSpec) :
  parse_range_spec r = Ok spec <-> range_syntax r spec.
Proof.
  split.
  - unfold parse_range_spec. destruct (strip_prefix _ r) as [s|] eqn:Ep; [|done].
    apply strip_prefix_Some in Ep as ->.
    destruct (contains x2c s) eqn:Ec; [done|].
    assert (Hc : x2c ∉ s) by (rewrite <- contains_spec; congruence).
    destruct (split x2d s) as [|a [|b [|]]] eqn:Es; try done.
    apply split_two in Es as (-> & Ha & Hb).
    assert (x2c ∉ a ++ b) by (clear Ha Hb; rewrite !elem_of_app, elem_of_cons in *; tauto).
    assert (x2d ∉ a ++ b) by (rewrite elem_of_app; tauto).
    case_decide as Hf; intros H1.
    + res_inv. bool_to_prop; simplify_eq. by apply syn_suffix.
    + res_inv. case_decide as Hs; res_inv; bool_to_prop; simplify_eq.
      * by apply syn_open.
      * by apply syn_closed.
  - destruct 1 as [a b s e Hc Hd Ha Hb Hle | a b s Hc Hd Ha Hb | a b n Hc Hd Ha Hb Hn];
      unfold parse_range_spec; rewrite strip_prefix_app.
    all: replace (contains x2c (a ++ x2d :: b)) with false
      by (symmetry; apply not_true_iff_false; rewrite contains_spec;
          rewrite elem_of_app, elem_of_cons in *; intuition discriminate).
    all: rewrite (proj2 (split_two x2d _ a b)) by (rewrite elem_of_app in Hd; tauto).
    + rewrite decide_False by eauto using denotes_nonempty. rewrite Ha. simpl.
      rewrite decide_False by eauto using denotes_nonempty. rewrite Hb. simpl.
      bool_to_prop; [lia|done].
    + rewrite decide_False by eauto using denotes_nonempty. rewrite Ha. simpl.
      rewrite decide_True by done. simpl. apply denotes_range in Ha. unfold OPEN_ENDED.
      bool_to_prop; [lia|done].
    + rewrite decide_True by done. rewrite Hb. simpl. bool_to_prop; [lia|done].
Qed.

Lemma range_syntax_ok r spec : range_syntax r spec -> spec_ok spec.
Proof.
  destruct 1 as [? ? ? ? _ _ Ha%denotes_range Hb%denotes_range ?
                |? ? ? _ _ Ha%denotes_range _|? ? ? _ _ _ Hb%denotes_range ?];
    simpl; unfold OPEN_ENDED; lia.
Qed.

Lemma parse_range_spec_format start end_ :
  0 <= start <= end_ -> end_ <= u64_max ->
  parse_range_spec (format_range start end_) = Ok (Offset start end_).
Proof.
  intros Hs He. apply parse_range_spec_syntax. unfold format_range.
  assert (Hn : forall n c, 0 <= n -> is_digit c = false -> c ∉ format_u64 n)
    by (intros; apply digits_not_elem; auto using format_u64_digits).
  destruct (Z.eqb_spec end_ OPEN_ENDED) as [->|].
  - apply (syn_open _ [] start); rewrite ?app_nil_r; try (apply Hn; done || lia);
      [apply denotes_format; unfold is_u64; lia | done].
  - apply (syn_closed _ (format_u64 end_) start end_);
      rewrite ?elem_of_app; [| |apply denotes_format; unfold is_u64; lia..|lia].
    all: intros [Hx|Hx]; refine (Hn _ _ _ _ Hx); done || lia.
Qed.

Lemma parse_range_format start end_ :
  0 <= start <= end_ -> end_ <= u64_max -> parse_range (format_range start end_) = Ok (start, end_).
Proof. intros Hs He. unfold parse_range. by rewrite parse_range_spec_format. Qed.

(** What a resolved range is, for a known or unknown total. *)
Lemma resolve_range_Ok start end_ total s e :
  0 <= start <= end_ -> resolve_range start end_ total = Ok (s, e) ->
  s = start /\ s <= e <= end_
  /\ match total with Some t => e < t \/ t < 0 | None => e = end_ /\ end_ <> OPEN_ENDED end.
Proof.
  intros Hs E. unfold resolve_range in E. destruct total as [t|].
  - destruct t as [|t|t]; [done| |].
    + destruct (Z.ltb_spec (Z.pos t - 1) start); [done|]. injection E as <- <-. lia.
    + destruct (Z.ltb_spec (Z.neg t - 1) start); [done|]. lia.
  - destruct (Z.eqb_spec end_ OPEN_ENDED); [done|]. injection E as <- <-. lia.
Qed.

Module RangeTheorems.

(** [parse_range_spec] accepts exactly the texts [bytes=a-b],
    [bytes=a-] and [bytes=-n] (numerals up to [u64::MAX], surrounding white
    space allowed, one range only, [a <= b], [n > 0]), gives each the
    specification it denotes, and that specification is well formed. *)
Theorem parse_range_spec_correct (r : text) (spec : RangeSpec) :
  (parse_range_spec r = Ok spec <-> range_syntax r spec)
  /\ (parse_range_spec r = Ok spec -> spec_ok spec).
Proof.
  split; [apply parse_range_spec_syntax|].
  intros H%parse_range_spec_syntax. by eapply range_syntax_ok.
Qed.

(** Both theorem parts at [bytes= 5 -+9] and [bytes=-500]. *)
Lemma parse_range_spec_correct_witness :
  range_syntax (str "bytes= 5 -+9") (Offset 5 9) /\ spec_ok (Suffix 500).
Proof.
  split.
  - apply (parse_range_spec_correct (str "bytes= 5 -+9") (Offset 5 9)). reflexivity.
  - apply (parse_range_spec_correct (str "bytes=-500") (Suffix 500)). reflexivity.
Defined.

(** Printing an ordered pair of [u64] endpoints with [format_range] and
    parsing it back, with [parse_range_spec] or [parse_range], gives the
    same endpoints, the open-ended sentinel included: the normalised range
    that is handed to the upstream fetch means what the client asked. *)
Theorem format_parse_round_trip (start end_ : Z) :
  0 <= start <= end_ -> end_ <= u64_max ->
  parse_range_spec (format_range start end_) = Ok (Offset start end_)
  /\ parse_range (format_range start end_) = Ok (start, end_).
Proof.
  intros Hs He. pose proof (parse_range_spec_format start end_ Hs He) as H.
  split; [done|]. unfold parse_range. by rewrite H.
Qed.

Lemma format_parse_round_trip_witness :
  parse_range (format_range 10 OPEN_ENDED) = Ok (10, OPEN_ENDED).
Proof. apply (format_parse_round_trip 10 OPEN_ENDED); unfold OPEN_ENDED; lia. Defined.

(** Positioning any well-formed specification against a known length
    and resolving it gives either the 416 error, exactly when no byte of
    the resource is selected, or a closed interval inside the resource
    whose length [range_length] computes without overflow; a suffix range
    selects exactly the last [min n total] bytes. *)
Theorem resolve_spec_correct (spec : RangeSpec) (total : Z) :
  spec_ok spec -> is_u64 total ->
  match '(s, e) ← endpoints spec (Some total); resolve_range s e (Some total) with
  | Err err =>
      ProxyError.status_code err = 416
      /\ (total = 0 \/ exists s e, spec = Offset s e /\ total <= s)
  | Ok (s, e) =>
      0 <= s <= e /\ e < total
      /\ range_length s e = Ok (e - s + 1)
      /\ match spec with
         | Offset s0 e0 => s = s0 /\ e = Z.min e0 (total - 1)
         | Suffix n => e = total - 1 /\ e - s + 1 = Z.min n total
         end
  end.
Proof.
  intros Hs [Ht0 Ht1].
  assert (Hlen : forall s e, 0 <= s <= e -> e < total -> range_length s e = Ok (e - s + 1)).
  { intros s e ? ?. unfold range_length, checked_sub. bool_to_prop; [|lia]. simpl.
    unfold checked_add. bool_to_prop; [done|lia]. }
  destruct spec as [s0 e0|n]; simpl in *.
  - unfold resolve_range. destruct total as [|total|]; [auto| |lia].
    destruct (Z.ltb_spec (Z.pos total - 1) s0); simpl.
    + split; [done|]. right. exists s0, e0. split; [done|lia].
    + split_and!; try lia. apply Hlen; lia.
  - destruct total as [|total|]; [simpl; auto| |lia]. cbn [mbind result_bind].
    unfold resolve_range, saturating_sub.
    destruct (Z.ltb_spec (Z.pos total - 1) (Z.max (Z.pos total - n) 0)); [lia|].
    split_and!; try lia. apply Hlen; lia.
Qed.

Lemma resolve_spec_correct_witness :
  endpoints (Suffix 500) (Some 200) = Ok (0, 199)
  /\ range_length 0 199 = Ok 200.
Proof.
  split; [reflexivity|].
  assert (Hs : spec_ok (Suffix 500)) by (simpl; lia).
  assert (Ht : is_u64 200) by (unfold is_u64; lia).
  pose proof (resolve_spec_correct (Suffix 500) 200 Hs Ht) as H.
  apply H.
Defined.

(** Narrowing the end of a closed interval to the length the upstream
    declared keeps the interval non-empty and inside the requested one, and
    makes it exactly as long as the shorter of the request and the declared
    body; a declared length of 0 (unknown) changes nothing. *)
Theorem clamp_end_correct (start end_ upstream_length : Z) :
  0 <= start <= end_ -> end_ <= u64_max -> is_u64 upstream_length ->
  let end' := clamp_end_to_upstream_length start end_ upstream_length in
  start <= end' <= end_
  /\ (upstream_length = 0 -> end' = end_)
  /\ (0 < upstream_length ->
      end' - start + 1 = Z.min (end_ - start + 1) upstream_length).
Proof.
  intros Hs He [Hl0 Hl1]. unfold clamp_end_to_upstream_length, saturating_add.
  destruct upstream_length as [|l|l]; simpl; lia.
Qed.

Lemma clamp_end_correct_witness :
  clamp_end_to_upstream_length 1000 2000 100 = 1099.
Proof.
  assert (H := clamp_end_correct 1000 2000 100 ltac:(lia) ltac:(lia)
                 ltac:(unfold is_u64; lia)).
  cbv zeta in H. lia.
Defined.
End RangeTheorems.
