(* ===== verification/Percent.v ===== *)
(** * Percent encoding of URL components ([utils/percent_encoding.rs])

    [encode_component] and [decode_component] with their byte indices in
    errors; encoding gives only unreserved characters and escapes, and
    decoding inverts it on every UTF-8 text. *)

From Stdlib Require Import Strings.Byte Strings.String.
From S2P Require Import Prelude Bytes Error.

Inductive PercentDecodeError : Type :=
| InvalidEscape (index : nat)
| InvalidUtf8.

#[export] Instance PercentDecodeError_eq_dec : EqDecision PercentDecodeError.
Proof. solve_decision. Defined.

Definition percent_error_display (e : PercentDecodeError) : text :=
  match e with
  | InvalidEscape index => str "invalid percent escape at byte " ++ format_u64 (Z.of_nat index)
  | InvalidUtf8 => str "decoded value is not valid UTF-8"
  end.

Definition is_ascii_alphanumeric (b : byte) : bool :=
  in_range 48 57 b || in_range 65 90 b || in_range 97 122 b.

Definition is_unreserved (b : byte) : bool :=
  is_ascii_alphanumeric b
  || bool_decide (b ∈ [x2d; x2e; x5f; x7e]).

Definition hex_value (b : byte) : option Z :=
  if in_range 48 57 b then Some (b2z b - 48)
  else if in_range 97 102 b then Some (b2z b - 97 + 10)
  else if in_range 65 70 b then Some (b2z b - 65 + 10)
  else None.

Definition HEX_upper (d : Z) : byte := hex_digit 65 d.

Definition encode_byte (b : byte) : text :=
  if is_unreserved b then [b]
  else [x25; HEX_upper (Z.shiftr (b2z b) 4); HEX_upper (Z.land (b2z b) 15)].

Definition encode_component (value : text) : text :=
  if forallb is_unreserved value then value
  else mjoin (map encode_byte value).

(** The decoding loop: [index] is the loop variable, [rest] the input from
    [index] on, [decoded] the output so far.  Each step consumes at least one
    byte, so the input length is enough fuel. *)
Fixpoint decode_loop (fuel : nat) (index : nat) (rest decoded : text) :
    result PercentDecodeError text :=
  match rest, fuel with
  | [], _ => Ok decoded
  | _, O => Ok decoded
  | b :: rest', S fuel' =>
      if decide (b = x25) then
        high ← ok_or (rest' !! 0%nat ≫= hex_value) (InvalidEscape index);
        low ← ok_or (rest' !! 1%nat ≫= hex_value) (InvalidEscape index);
        decode_loop fuel' (index + 3) (drop 2 rest')
          (decoded ++ [z2b (Z.lor (Z.shiftl high 4) low)])
      else decode_loop fuel' (index + 1) rest' (decoded ++ [b])
  end.

Definition decode_component (value : text) : result PercentDecodeError text :=
  if negb (contains x25 value) then Ok value
  else
    decoded ← decode_loop (length value) 0 value [];
    if utf8_valid decoded then Ok decoded else Err InvalidUtf8.

(** ** Reference: the escapes a text holds, read left to right *)

(** [unescapes s t]: [s] is [t] with some of its bytes written as escapes. *)
Inductive unescapes : text -> text -> Prop :=
| un_nil : unescapes [] []
| un_plain b s t : b <> x25 -> unescapes s t -> unescapes (b :: s) (b :: t)
| un_escape h l hv lv s t :
    hex_value h = Some hv -> hex_value l = Some lv -> unescapes s t ->
    unescapes (x25 :: h :: l :: s) (z2b (16 * hv + lv) :: t).

Lemma hex_value_range b v : hex_value b = Some v -> 0 <= v < 16.
Proof.
  unfold hex_value, in_range.
  destruct (Z.leb_spec 48 (b2z b)), (Z.leb_spec (b2z b) 57),
    (Z.leb_spec 97 (b2z b)), (Z.leb_spec (b2z b) 102),
    (Z.leb_spec 65 (b2z b)), (Z.leb_spec (b2z b) 70); simpl; intros; simplify_eq; lia.
Qed.

Lemma nibbles h l : 0 <= h < 16 -> 0 <= l < 16 -> Z.lor (Z.shiftl h 4) l = 16 * h + l.
Proof. intros Hh Hl. rewrite lor_shiftl_add by lia. lia. Qed.

Lemma decode_loop_sound fuel i s acc t :
  decode_loop fuel i s acc = Ok t -> (length s <= fuel)%nat ->
  exists u, t = acc ++ u /\ unescapes s u.
Proof.
  revert i s acc; induction fuel as [|fuel IH]; intros i [|b s] acc H Hf; simpl in *;
    try (res_inv; exists []; rewrite app_nil_r; split; [done|constructor]); [lia|].
  case_decide as Hb; [subst b|].
  - destruct s as [|h [|l s]]; simpl in H; try done.
    + by destruct (hex_value h).
    + destruct (hex_value h) as [hv|] eqn:Eh; [|done].
      destruct (hex_value l) as [lv|] eqn:El; [|done]. simpl in H.
      apply IH in H as (u & -> & Hu); [|simpl in *; rewrite drop_0; lia].
      rewrite nibbles in * by eauto using hex_value_range.
      eexists. rewrite <- app_assoc. split; [done|]. by constructor.
  - apply IH in H as (u & -> & Hu); [|lia].
    eexists. rewrite <- app_assoc. split; [done|]. by constructor.
Qed.

Lemma decode_loop_complete fuel i s acc u :
  unescapes s u -> (length s <= fuel)%nat -> decode_loop fuel i s acc = Ok (acc ++ u).
Proof.
  intros H. revert fuel i acc. induction H as [|b s t Hb _ IH|h l hv lv s t Hh Hl _ IH];
    intros [|fuel] i acc Hf; simpl in *; try lia; try by rewrite app_nil_r.
  - rewrite decide_False by done. rewrite IH by lia. by rewrite <- app_assoc.
  - rewrite Hh, Hl. simpl. rewrite drop_0, IH by lia.
    rewrite nibbles by eauto using hex_value_range. by rewrite <- app_assoc.
Qed.

Lemma unescapes_no_percent s : x25 ∉ s -> unescapes s s.
Proof. induction s; rewrite ?not_elem_of_cons; constructor; naive_solver. Qed.

Lemma unescapes_app s1 t1 s2 t2 :
  unescapes s1 t1 -> unescapes s2 t2 -> unescapes (s1 ++ s2) (t1 ++ t2).
Proof. induction 1; simpl; [done|..]; intros; constructor; auto. Qed.

Lemma unescapes_fun s t1 t2 : unescapes s t1 -> unescapes s t2 -> t1 = t2.
Proof.
  intros H. revert t2. induction H; inversion 1; subst; try done; f_equal; auto.
  congruence.
Qed.

Lemma unescapes_one h l hv lv b :
  hex_value h = Some hv -> hex_value l = Some lv -> z2b (16 * hv + lv) = b ->
  unescapes [x25; h; l] [b].
Proof. intros Hh Hl <-. by apply un_escape; [| |constructor]. Qed.

Lemma encode_byte_unescapes b : unescapes (encode_byte b) [b].
Proof.
  destruct b; vm_compute;
    first [ apply un_plain; [discriminate | apply un_nil]
          | eapply unescapes_one; reflexivity ].
Qed.

Lemma is_unreserved_not_percent b : is_unreserved b = true -> b <> x25.
Proof. by intros H ->. Qed.

Lemma encode_component_unescapes s : unescapes (encode_component s) s.
Proof.
  unfold encode_component. destruct (forallb is_unreserved s) eqn:E.
  - apply unescapes_no_percent. intros H%list_elem_of_In.
    rewrite forallb_forall in E. by specialize (E _ H).
  - clear E. induction s as [|b s IH]; simpl; [constructor|].
    change (b :: s) with ([b] ++ s). apply unescapes_app; [apply encode_byte_unescapes|done].
Qed.

Lemma decode_component_spec s t :
  decode_component s = Ok t <->
    unescapes s t /\ (x25 ∈ s -> utf8_valid t = true).
Proof.
  unfold decode_component. destruct (contains x25 s) eqn:E; simpl.
  - apply contains_spec in E as Hin. split.
    + intros H. apply bind_Ok_inv in H as (d & Hd & H).
      apply decode_loop_sound in Hd as (u & -> & Hu); [|done]. simpl in H.
      destruct (utf8_valid u) eqn:Eu; [|done]. injection H as <-. done.
    + intros [Hu Hv]. rewrite (decode_loop_complete _ _ _ _ t) by done. simpl.
      by rewrite Hv.
  - assert (Hn : x25 ∉ s) by (rewrite <- contains_spec; congruence).
    split.
    + intros [= <-]. split; [by apply unescapes_no_percent|done].
    + intros [Hu _]. f_equal. eapply unescapes_fun; [|done]. by apply unescapes_no_percent.
Qed.

Module PercentTheorems.
(** [decode_component] accepts exactly the texts whose escapes are all
    complete and whose unescaped bytes are UTF-8 (a text without a percent
    sign is returned as it is), and its result is the unescaped text. *)
Theorem decode_component_correct (s t : text) :
  decode_component s = Ok t <->
    unescapes s t /\ (x25 ∈ s -> utf8_valid t = true).
Proof. apply decode_component_spec. Qed.

(** Decoding inverts encoding on every UTF-8 text, and the encoded
    component consists of unreserved characters and percent signs only, so
    that it is one path segment of the proxy URL it is embedded in. *)
Theorem encode_decode_round_trip (s : text) :
  utf8_valid s = true ->
  decode_component (encode_component s) = Ok s
  /\ Forall (fun b => is_unreserved b = true \/ b = x25) (encode_component s).
Proof.
  intros Hs. split.
  - apply decode_component_spec. split; [apply encode_component_unescapes|done].
  - unfold encode_component. destruct (forallb is_unreserved s) eqn:E.
    + apply Forall_forall. intros b Hb%list_elem_of_In. left.
      rewrite forallb_forall in E. auto.
    + clear. induction s as [|b s IH]; simpl; [constructor|].
      apply Forall_app. split; [|done]. clear.
      assert (H : forallb (fun c => is_unreserved c || bool_decide (c = x25))
                    (encode_byte b) = true)
        by (revert b; apply forall_byte; vm_compute; reflexivity).
      apply Forall_forall. intros c Hc%list_elem_of_In.
      rewrite forallb_forall in H. specialize (H c Hc).
      apply orb_true_iff in H as [?|?%bool_decide_eq_true]; auto.
Qed.

Lemma encode_decode_round_trip_witness :
  encode_component (str "a/视频 1") = str "a%2F%E8%A7%86%E9%A2%91%201"
  /\ decode_component (encode_component (str "a/视频 1")) = Ok (str "a/视频 1").
Proof.
  split; [reflexivity|].
  apply (encode_decode_round_trip (str "a/视频 1")). reflexivity.
Defined.
End PercentTheorems.
