(* ===== verification/NetworkPolicy.v ===== *)
(** * Upstream admission ([utils/network_policy.rs])

    The host allow-list with its 30 second DNS admission cache, the resolver
    that filters addresses at connection time, and the classification of
    addresses.  The IPv4 classification is proved equal to a list of CIDR
    blocks, the IPv6 one to a list of blocks after unwrapping embedded IPv4
    addresses, and admission to the conjunction of the checks the policy
    promises. *)

From Stdlib Require Import Strings.Byte Strings.String.
From S2P Require Import Prelude Bytes Error External.

(** ** Addresses *)

Record Ipv4Addr : Type := mk_v4 { oct0 : Z; oct1 : Z; oct2 : Z; oct3 : Z }.
Record Ipv6Addr : Type := mk_v6
  { seg0 : Z; seg1 : Z; seg2 : Z; seg3 : Z; seg4 : Z; seg5 : Z; seg6 : Z; seg7 : Z }.
Inductive IpAddr : Type := V4 (ip : Ipv4Addr) | V6 (ip : Ipv6Addr).
Record SocketAddr : Type := mk_addr { addr_ip : IpAddr; addr_port : Z }.

#[export] Instance Ipv4Addr_eq_dec : EqDecision Ipv4Addr.
Proof. solve_decision. Defined.

(** [Ipv4Addr::from(u32)]: big-endian octets. *)
Definition v4_from_u32 (n : Z) : Ipv4Addr :=
  mk_v4 (Z.land (Z.shiftr n 24) 255) (Z.land (Z.shiftr n 16) 255)
        (Z.land (Z.shiftr n 8) 255) (Z.land n 255).

(** The predicates of [std::net::Ipv4Addr]. *)
Module V4.
Definition is_private (a : Ipv4Addr) : bool :=
  (oct0 a =? 10)
  || ((oct0 a =? 172) && ((16 <=? oct1 a) && (oct1 a <=? 31)))
  || ((oct0 a =? 192) && (oct1 a =? 168)).
Definition is_loopback (a : Ipv4Addr) : bool := oct0 a =? 127.
Definition is_link_local (a : Ipv4Addr) : bool := (oct0 a =? 169) && (oct1 a =? 254).
Definition is_unspecified (a : Ipv4Addr) : bool :=
  (oct0 a =? 0) && (oct1 a =? 0) && (oct2 a =? 0) && (oct3 a =? 0).
Definition is_broadcast (a : Ipv4Addr) : bool :=
  (oct0 a =? 255) && (oct1 a =? 255) && (oct2 a =? 255) && (oct3 a =? 255).
Definition is_documentation (a : Ipv4Addr) : bool :=
  ((oct0 a =? 192) && (oct1 a =? 0) && (oct2 a =? 2))
  || ((oct0 a =? 198) && (oct1 a =? 51) && (oct2 a =? 100))
  || ((oct0 a =? 203) && (oct1 a =? 0) && (oct2 a =? 113)).
Definition is_multicast (a : Ipv4Addr) : bool := (224 <=? oct0 a) && (oct0 a <=? 239).
End V4.

(** The predicates of [std::net::Ipv6Addr]. *)
Module V6.
Definition is_loopback (a : Ipv6Addr) : bool :=
  (seg0 a =? 0) && (seg1 a =? 0) && (seg2 a =? 0) && (seg3 a =? 0)
  && (seg4 a =? 0) && (seg5 a =? 0) && (seg6 a =? 0) && (seg7 a =? 1).
Definition is_unspecified (a : Ipv6Addr) : bool :=
  (seg0 a =? 0) && (seg1 a =? 0) && (seg2 a =? 0) && (seg3 a =? 0)
  && (seg4 a =? 0) && (seg5 a =? 0) && (seg6 a =? 0) && (seg7 a =? 0).
Definition is_multicast (a : Ipv6Addr) : bool := Z.land (seg0 a) 0xff00 =? 0xff00.
End V6.

Definition is_public_ipv4 (a : Ipv4Addr) : bool :=
  negb (V4.is_private a
        || V4.is_loopback a
        || V4.is_link_local a
        || V4.is_unspecified a
        || V4.is_broadcast a
        || V4.is_documentation a
        || V4.is_multicast a
        || (oct0 a =? 0)
        || (240 <=? oct0 a)
        || ((oct0 a =? 100) && ((64 <=? oct1 a) && (oct1 a <=? 127)))
        || ((oct0 a =? 198) && ((oct1 a =? 18) || (oct1 a =? 19)))
        || ((oct0 a =? 192) && (oct1 a =? 0) && (oct2 a =? 0))
        || ((oct0 a =? 192) && (oct1 a =? 88) && (oct2 a =? 99))).

Definition embedded_ipv4 (a : Ipv6Addr) : option Ipv4Addr :=
  if seg0 a =? 0x2002 then Some (v4_from_u32 (Z.lor (Z.shiftl (seg1 a) 16) (seg2 a)))
  else if (seg0 a =? 0x0064) && (seg1 a =? 0xff9b) then
    Some (v4_from_u32 (Z.lor (Z.shiftl (seg6 a) 16) (seg7 a)))
  else if ((seg0 a =? 0) && (seg1 a =? 0) && (seg2 a =? 0) && (seg3 a =? 0) && (seg4 a =? 0))
          && ((seg5 a =? 0xffff) || (seg5 a =? 0)) then
    let v4 := v4_from_u32 (Z.lor (Z.shiftl (seg6 a) 16) (seg7 a)) in
    if negb (V4.is_unspecified v4) then Some v4 else None
  else None.

Definition is_public_ipv6 (a : Ipv6Addr) : bool :=
  match embedded_ipv4 a with
  | Some v4 => is_public_ipv4 v4
  | None =>
      negb (V6.is_loopback a
            || V6.is_unspecified a
            || V6.is_multicast a
            || (Z.land (seg0 a) 0xfe00 =? 0xfc00)
            || (Z.land (seg0 a) 0xffc0 =? 0xfe80)
            || ((seg0 a =? 0x2001) && (seg1 a =? 0x0db8))
            || ((seg0 a =? 0x2001) && (seg1 a =? 0x0000))
            || ((seg0 a =? 0x2001) && (Z.land (seg1 a) 0xfff0 =? 0x0020))
            || ((seg0 a =? 0x0100) && ((seg1 a =? 0) && (seg2 a =? 0) && (seg3 a =? 0))))
  end.

Definition is_public_ip (a : IpAddr) : bool :=
  match a with
  | V4 a => is_public_ipv4 a
  | V6 a => is_public_ipv6 a
  end.

(** The production build (without [allow-private-upstream]). *)
Definition is_allowed_target (a : IpAddr) : bool := is_public_ip a.

(** ** The connection-time resolver *)

(** [PublicOnlyResolverV1::call]: [inner] is the answer of the system
    resolver; an error is its text. *)
Definition resolver_call (host : text) (inner : result text (list SocketAddr)) :
    result text (list SocketAddr) :=
  addresses ← inner;
  let allowed := base.filter (fun a => is_allowed_target (addr_ip a) = true) addresses in
  match allowed with
  | [] => Err (host ++ str " 没有解析到任何公网地址，已拒绝连接")
  | _ => Ok allowed
  end.

(** ** The policy *)

(** Milliseconds. *)
Definition ADMISSION_TTL : Z := 30000.
Definition MAX_ADMISSION_ENTRIES : Z := 1024.

Record NetworkPolicy : Type := mk_NetworkPolicy {
  allowed_hosts : gset text;
  admitted : gmap text Z;         (* target -> instant of the admission *)
  admitted_poisoned : bool;       (* the mutex is poisoned *)
}.

Definition deny_all : NetworkPolicy := mk_NetworkPolicy ∅ ∅ false.

Definition allow_hosts (hosts : list text) : NetworkPolicy :=
  mk_NetworkPolicy
    (list_to_set (base.filter (fun h => h <> []) (map (fun h => ascii_lowercase (trim h)) hosts)))
    ∅ false.

(** [format!({host}:{port})]. *)
Definition target_of (host : text) (port : Z) : text := host ++ str ":" ++ format_u64 port.

Section Policy.
Context `{UrlParser} `{!HashOrder text Z}.

(** [Instant::elapsed] at [now] (a later instant counts as 0). *)
Definition elapsed (now at_ : Z) : Z := Z.max 0 (now - at_).

Definition is_recently_admitted (p : NetworkPolicy) (target : text) (now : Z) : bool :=
  if admitted_poisoned p then false
  else match admitted p !! target with
       | Some at_ => elapsed now at_ <? ADMISSION_TTL
       | None => false
       end.

Definition evict_one (m : gmap text Z) : gmap text Z :=
  match keys_order m with
  | victim :: _ => delete victim m
  | [] => m
  end.

Definition remember_admission (p : NetworkPolicy) (target : text) (now : Z) : NetworkPolicy :=
  if admitted_poisoned p then p
  else
    let m := admitted p in
    let m :=
      if (MAX_ADMISSION_ENTRIES <=? Z.of_nat (size m)) && negb (bool_decide (is_Some (m !! target)))
      then
        let m := base.filter (fun kv => elapsed now kv.2 < ADMISSION_TTL) m in
        if (MAX_ADMISSION_ENTRIES <=? Z.of_nat (size m)) then evict_one m else m
      else m in
    mk_NetworkPolicy (allowed_hosts p) (<[target := now]> m) (admitted_poisoned p).

(** [validate]: [lookup] is the answer of [lookup_host] ([None] for an
    error), [now] the instant of the cache check, [now'] that of the
    insertion after the resolution. *)
Definition validate (p : NetworkPolicy) (raw_url : text)
    (lookup : text -> Z -> option (list SocketAddr)) (now now' : Z) :
    Result unit * NetworkPolicy :=
  match url_parse raw_url with
  | None => (Err (ProxyError.Request (str "无效的上游 URL")), p)
  | Some url =>
  if negb (bool_decide (Url.scheme url ∈ [str "http"; str "https"])) then
    (Err (ProxyError.Request (str "仅允许 HTTP(S) 上游")), p)
  else if negb (bool_decide (Url.username url = [])) || bool_decide (is_Some (Url.password url)) then
    (Err (ProxyError.Request (str "上游 URL 不允许包含凭据")), p)
  else match Url.host_str url with
  | None => (Err (ProxyError.Request (str "上游 URL 缺少主机")), p)
  | Some host =>
  let host := ascii_lowercase host in
  if negb (bool_decide (host ∈ allowed_hosts p)) then
    (Err (ProxyError.Request (str "上游主机不在白名单中")), p)
  else match Url.port_or_known_default url with
  | None => (Err (ProxyError.Request (str "无效的上游端口")), p)
  | Some port =>
  let target := target_of host port in
  if is_recently_admitted p target now then (Ok tt, p)
  else match lookup host port with
  | None => (Err (ProxyError.Network (str "无法解析上游主机")), p)
  | Some addresses =>
  let public := length (base.filter (fun a => is_allowed_target (addr_ip a) = true) addresses) in
  let total := length addresses in
  if (total =? 0)%nat then
    (Err (ProxyError.Network (str "上游主机没有可用地址")), p)
  else if (public =? 0)%nat then
    (Err (ProxyError.Request (str "上游主机解析到非公网地址")), p)
  else (Ok tt, remember_admission p target now')
  end end end end.
End Policy.

(** ** Address blocks *)

(** The integer of an address, and membership in the block [base/len]. *)
Definition v4_to_Z (a : Ipv4Addr) : Z := oct0 a * 2 ^ 24 + oct1 a * 2 ^ 16 + oct2 a * 2 ^ 8 + oct3 a.
Definition v4_valid (a : Ipv4Addr) : Prop :=
  0 <= oct0 a < 256 /\ 0 <= oct1 a < 256 /\ 0 <= oct2 a < 256 /\ 0 <= oct3 a < 256.
Definition in_block (bits : Z) (n : Z) (block : Z * Z) : bool :=
  (block.1 <=? n) && (n <? block.1 + 2 ^ (bits - block.2)).

Definition v4 (a b c d : Z) : Z := v4_to_Z (mk_v4 a b c d).

(** The IPv4 blocks that are not publicly routable unicast: the special
    purpose registry, multicast and the reserved class E. *)
Definition v4_reserved : list (Z * Z) :=
  [ (v4 0 0 0 0, 8); (v4 10 0 0 0, 8); (v4 100 64 0 0, 10); (v4 127 0 0 0, 8);
    (v4 169 254 0 0, 16); (v4 172 16 0 0, 12); (v4 192 0 0 0, 24); (v4 192 0 2 0, 24);
    (v4 192 88 99 0, 24); (v4 192 168 0 0, 16); (v4 198 18 0 0, 15);
    (v4 198 51 100 0, 24); (v4 203 0 113 0, 24); (v4 224 0 0 0, 4); (v4 240 0 0 0, 4) ].

Definition v6_to_Z (a : Ipv6Addr) : Z :=
  seg0 a * 2 ^ 112 + seg1 a * 2 ^ 96 + seg2 a * 2 ^ 80 + seg3 a * 2 ^ 64
  + seg4 a * 2 ^ 48 + seg5 a * 2 ^ 32 + seg6 a * 2 ^ 16 + seg7 a.
Definition is_u16 (z : Z) : Prop := 0 <= z < 65536.
Definition v6_valid (a : Ipv6Addr) : Prop :=
  is_u16 (seg0 a) /\ is_u16 (seg1 a) /\ is_u16 (seg2 a) /\ is_u16 (seg3 a)
  /\ is_u16 (seg4 a) /\ is_u16 (seg5 a) /\ is_u16 (seg6 a) /\ is_u16 (seg7 a).

(** The IPv6 blocks that are refused. *)
Definition v6_reserved : list (Z * Z) :=
  [ (1, 128); (0, 128); (0xff00 * 2 ^ 112, 8); (0xfc00 * 2 ^ 112, 7);
    (0xfe80 * 2 ^ 112, 10); (0x2001 * 2 ^ 112 + 0x0db8 * 2 ^ 96, 32);
    (0x2001 * 2 ^ 112, 32); (0x2001 * 2 ^ 112 + 0x0020 * 2 ^ 96, 28);
    (0x0100 * 2 ^ 112, 64) ].

(** The ways an IPv4 address is written inside an IPv6 one. *)
Inductive embedding := Mapped | Compatible | Nat64 | SixToFour.
Definition embed (k : embedding) (a : Ipv4Addr) : Ipv6Addr :=
  let hi := oct0 a * 256 + oct1 a in
  let lo := oct2 a * 256 + oct3 a in
  match k with
  | Mapped => mk_v6 0 0 0 0 0 0xffff hi lo
  | Compatible => mk_v6 0 0 0 0 0 0 hi lo
  | Nat64 => mk_v6 0x64 0xff9b 0 0 0 0 hi lo
  | SixToFour => mk_v6 0x2002 hi lo 0 0 0 0 1
  end.

(** ** Classification lemmas *)

Ltac block_tac :=
  intros; unfold in_block, v4, v4_to_Z, v4_valid in *; simpl in *;
  bool_to_prop; simpl; try reflexivity; lia.

Lemma block_8 a x :
  v4_valid a -> in_block 32 (v4_to_Z a) (v4 x 0 0 0, 8) = (oct0 a =? x).
Proof. block_tac. Qed.

Lemma block_16 a x y :
  v4_valid a -> 0 <= y < 256 ->
  in_block 32 (v4_to_Z a) (v4 x y 0 0, 16) = (oct0 a =? x) && (oct1 a =? y).
Proof. block_tac. Qed.

Lemma block_24 a x y z :
  v4_valid a -> 0 <= y < 256 -> 0 <= z < 256 ->
  in_block 32 (v4_to_Z a) (v4 x y z 0, 24)
  = (oct0 a =? x) && (oct1 a =? y) && (oct2 a =? z).
Proof. block_tac. Qed.

(** Shorter prefixes: a block of second octets, a block of first octets. *)
Lemma block_second a x y len :
  v4_valid a -> 0 <= y -> 8 <= len <= 16 -> y + 2 ^ (16 - len) <= 256 ->
  in_block 32 (v4_to_Z a) (v4 x y 0 0, len)
  = (oct0 a =? x) && ((y <=? oct1 a) && (oct1 a <=? y + 2 ^ (16 - len) - 1)).
Proof.
  intros Ha Hy Hl Hb. unfold in_block. simpl fst; simpl snd.
  replace (2 ^ (32 - len)) with (2 ^ (16 - len) * 65536).
  2:{ replace (32 - len) with ((16 - len) + 16) by lia. by rewrite Z.pow_add_r by lia. }
  assert (0 < 2 ^ (16 - len)) by (apply Z.pow_pos_nonneg; lia).
  generalize dependent (2 ^ (16 - len)). intros n Hn Hn0. block_tac.
Qed.

Lemma block_first a x len :
  v4_valid a -> 0 <= len <= 8 ->
  in_block 32 (v4_to_Z a) (v4 x 0 0 0, len)
  = (x <=? oct0 a) && (oct0 a <=? x + 2 ^ (8 - len) - 1).
Proof.
  intros Ha Hl. unfold in_block. simpl fst; simpl snd.
  replace (2 ^ (32 - len)) with (2 ^ (8 - len) * 16777216).
  2:{ replace (32 - len) with ((8 - len) + 24) by lia. by rewrite Z.pow_add_r by lia. }
  generalize dependent (2 ^ (8 - len)). intros n. block_tac.
Qed.

Lemma is_public_ipv4_blocks a :
  v4_valid a -> is_public_ipv4 a = negb (existsb (in_block 32 (v4_to_Z a)) v4_reserved).
Proof.
  intros Ha. unfold is_public_ipv4, v4_reserved. f_equal. cbn [existsb].
  rewrite (block_second a 100 64 10), (block_second a 172 16 12),
    (block_second a 198 18 15), (block_first a 224 4), (block_first a 240 4) by (done || lia).
  rewrite !block_8, !block_16, !block_24 by (done || lia).
  assert (Hb : V4.is_broadcast a = true -> (240 <=? oct0 a) = true).
  { unfold V4.is_broadcast. rewrite !andb_true_iff, !Z.eqb_eq, Z.leb_le. lia. }
  assert (Hz : V4.is_unspecified a = true -> (oct0 a =? 0) = true).
  { unfold V4.is_unspecified. rewrite !andb_true_iff. tauto. }
  assert (Hs : (oct1 a =? 18) || (oct1 a =? 19)
               = (18 <=? oct1 a) && (oct1 a <=? 18 + 2 ^ (16 - 15) - 1))
    by (simpl; bool_to_prop; simpl; try done; lia).
  assert (He : (240 <=? oct0 a)
               = (240 <=? oct0 a) && (oct0 a <=? 240 + 2 ^ (8 - 4) - 1)).
  { destruct Ha as [? _]. simpl. bool_to_prop; simpl; try done; lia. }
  unfold V4.is_private, V4.is_loopback, V4.is_link_local, V4.is_documentation,
    V4.is_multicast.
  rewrite <- He, Hs. clear He Hs.
  change (64 + 2 ^ (16 - 10) - 1) with 127. change (16 + 2 ^ (16 - 12) - 1) with 31.
  change (224 + 2 ^ (8 - 4) - 1) with 239.
  rewrite orb_false_r. apply eq_true_iff_eq. rewrite !orb_true_iff. clear Ha. tauto.
Qed.

(** Masks on 16-bit segments are blocks of values. *)
Definition for_u16 (P : Z -> bool) : bool :=
  forallb (fun h => forallb (fun l => P (256 * Z.of_nat h + Z.of_nat l)) (seq 0 256)) (seq 0 256).

Lemma for_u16_spec P : for_u16 P = true -> forall z, is_u16 z -> P z = true.
Proof.
  unfold for_u16, is_u16. intros H z Hz. rewrite forallb_forall in H.
  specialize (H (Z.to_nat (z / 256))). rewrite forallb_forall in H.
  specialize (fun h => H h (Z.to_nat (z mod 256))).
  pose proof (Z.mod_pos_bound z 256 ltac:(lia)). pose proof (Z.div_mod z 256 ltac:(lia)).
  rewrite !Z2Nat.id in H by lia.
  replace (256 * (z / 256) + z mod 256) with z in H by lia.
  apply H; apply in_seq; lia.
Qed.

Lemma mask_block (mask pat lo hi : Z) :
  for_u16 (fun z => Bool.eqb (Z.land z mask =? pat) ((lo <=? z) && (z <=? hi))) = true ->
  forall z, is_u16 z -> (Z.land z mask =? pat) = ((lo <=? z) && (z <=? hi)).
Proof. intros H z Hz. by apply Bool.eqb_prop, (for_u16_spec _ H). Qed.

Lemma mask_ff00 z : is_u16 z -> (Z.land z 0xff00 =? 0xff00) = ((0xff00 <=? z) && (z <=? 0xffff)).
Proof. apply mask_block. vm_compute. reflexivity. Qed.
Lemma mask_fe00 z : is_u16 z -> (Z.land z 0xfe00 =? 0xfc00) = ((0xfc00 <=? z) && (z <=? 0xfdff)).
Proof. apply mask_block. vm_compute. reflexivity. Qed.
Lemma mask_ffc0 z : is_u16 z -> (Z.land z 0xffc0 =? 0xfe80) = ((0xfe80 <=? z) && (z <=? 0xfebf)).
Proof. apply mask_block. vm_compute. reflexivity. Qed.
Lemma mask_fff0 z : is_u16 z -> (Z.land z 0xfff0 =? 0x0020) = ((0x0020 <=? z) && (z <=? 0x002f)).
Proof. apply mask_block. vm_compute. reflexivity. Qed.

Ltac block6_tac :=
  intros; unfold in_block, v6_to_Z, v6_valid, is_u16 in *; simpl in *;
  bool_to_prop; simpl; try reflexivity; lia.

(** A block of 64 bits or less is a condition on the leading segments. *)
Lemma block6_first a lo hi len :
  v6_valid a -> 2 ^ (128 - len) = (hi - lo + 1) * 2 ^ 112 ->
  in_block 128 (v6_to_Z a) (lo * 2 ^ 112, len) = (lo <=? seg0 a) && (seg0 a <=? hi).
Proof. intros Ha Hl. unfold in_block. simpl fst; simpl snd. rewrite Hl. clear Hl. block6_tac. Qed.

Lemma block6_second a x lo hi len :
  v6_valid a -> 0 <= lo <= hi -> hi < 65536 -> 2 ^ (128 - len) = (hi - lo + 1) * 2 ^ 96 ->
  in_block 128 (v6_to_Z a) (x * 2 ^ 112 + lo * 2 ^ 96, len)
  = (seg0 a =? x) && ((lo <=? seg1 a) && (seg1 a <=? hi)).
Proof. intros Ha Hr Hh Hl. unfold in_block. simpl fst; simpl snd. rewrite Hl. clear Hl. block6_tac. Qed.

Lemma block6_64 a x :
  v6_valid a ->
  in_block 128 (v6_to_Z a) (x * 2 ^ 112, 64)
  = (seg0 a =? x) && ((seg1 a =? 0) && (seg2 a =? 0) && (seg3 a =? 0)).
Proof. block6_tac. Qed.

Lemma block6_host a x :
  v6_valid a -> is_u16 x ->
  in_block 128 (v6_to_Z a) (x, 128)
  = (seg0 a =? 0) && (seg1 a =? 0) && (seg2 a =? 0) && (seg3 a =? 0)
    && (seg4 a =? 0) && (seg5 a =? 0) && (seg6 a =? 0) && (seg7 a =? x).
Proof.
  intros Ha Hx. apply eq_true_iff_eq. unfold in_block. simpl fst; simpl snd.
  rewrite !andb_true_iff, !Z.eqb_eq, Z.leb_le, Z.ltb_lt.
  unfold v6_to_Z, v6_valid, is_u16 in *. change (2 ^ (128 - 128)) with 1. simpl. lia.
Qed.

Lemma is_public_ipv6_blocks a :
  v6_valid a ->
  is_public_ipv6 a =
    match embedded_ipv4 a with
    | Some v => is_public_ipv4 v
    | None => negb (existsb (in_block 128 (v6_to_Z a)) v6_reserved)
    end.
Proof.
  intros Ha. unfold is_public_ipv6. destruct (embedded_ipv4 a); [done|]. f_equal.
  unfold v6_reserved. cbn [existsb].
  rewrite !block6_host, (block6_first a 0xff00 0xffff 8), (block6_first a 0xfc00 0xfdff 7),
    (block6_first a 0xfe80 0xfebf 10), (block6_second a 0x2001 0xdb8 0xdb8 32),
    (block6_second a 0x2001 0x20 0x2f 28), block6_64
    by (done || lia || (unfold is_u16; lia)).
  replace (0x2001 * 2 ^ 112) with (0x2001 * 2 ^ 112 + 0 * 2 ^ 96) by lia.
  rewrite (block6_second a 0x2001 0 0 32) by (done || lia).
  unfold V6.is_loopback, V6.is_unspecified, V6.is_multicast.
  destruct Ha as (H0 & H1 & _). rewrite mask_ff00, mask_fe00, mask_ffc0, mask_fff0 by done.
  assert (He : forall x y, ((y <=? x) && (x <=? y)) = (x =? y))
    by (intros; bool_to_prop; simpl; done || lia).
  rewrite !He, orb_false_r, !orb_assoc. reflexivity.
Qed.

Lemma v4_from_u32_segments a :
  v4_valid a ->
  v4_from_u32 (Z.lor (Z.shiftl (oct0 a * 256 + oct1 a) 16) (oct2 a * 256 + oct3 a)) = a.
Proof.
  intros (H0 & H1 & H2 & H3). rewrite lor_shiftl_add by lia. unfold v4_from_u32.
  change 255 with (2 ^ 8 - 1). rewrite !land_ones_mod, !Z.shiftr_div_pow2 by lia.
  destruct a as [a b c d]; simpl in *. f_equal.
  - rewrite Z.mod_small; [|split; [apply Z.div_pos; lia|apply Z.div_lt_upper_bound; lia]].
    symmetry. apply (Z.div_unique _ _ _ (b * 65536 + c * 256 + d)); lia.
  - replace (((a * 256 + b) * 2 ^ 16 + (c * 256 + d)) / 2 ^ 16) with (b + a * 2 ^ 8).
    + rewrite Z.mod_add, Z.mod_small; lia.
    + apply (Z.div_unique _ _ _ (c * 256 + d)); lia.
  - replace (((a * 256 + b) * 2 ^ 16 + (c * 256 + d)) / 2 ^ 8)
      with (c + (a * 256 + b) * 2 ^ 8).
    + rewrite Z.mod_add, Z.mod_small; lia.
    + apply (Z.div_unique _ _ _ d); lia.
  - replace ((a * 256 + b) * 2 ^ 16 + (c * 256 + d))
      with (d + ((a * 256 + b) * 2 ^ 8 + c) * 2 ^ 8) by lia.
    rewrite Z.mod_add, Z.mod_small; lia.
Qed.

Lemma unspecified_spec a : V4.is_unspecified a = true <-> a = mk_v4 0 0 0 0.
Proof.
  unfold V4.is_unspecified. rewrite !andb_true_iff, !Z.eqb_eq. destruct a; simpl.
  split; [intros (((-> & ->) & ->) & ->); done|]. by intros [= -> -> -> ->].
Qed.

Lemma embedded_embed k a :
  v4_valid a -> a <> mk_v4 0 0 0 0 -> embedded_ipv4 (embed k a) = Some a.
Proof.
  intros Ha Hz. unfold embedded_ipv4, embed.
  assert (Hu : V4.is_unspecified a = false)
    by (apply not_true_iff_false; by rewrite unspecified_spec).
  destruct k; cbn [seg0 seg1 seg2 seg3 seg4 seg5 seg6 seg7 Z.eqb Pos.eqb andb orb];
    rewrite v4_from_u32_segments by done; rewrite ?Hu; done.
Qed.

(** ** Admission *)

(** The checks that are made on every call, the cache included. *)
Definition admissible `{UrlParser} (p : NetworkPolicy) (raw_url host : text) (port : Z) : Prop :=
  exists url h, url_parse raw_url = Some url
    /\ (Url.scheme url = str "http" \/ Url.scheme url = str "https")
    /\ Url.username url = [] /\ Url.password url = None
    /\ Url.host_str url = Some h /\ host = ascii_lowercase h
    /\ host ∈ allowed_hosts p
    /\ Url.port_or_known_default url = Some port.

(** The name resolves, now, to at least one public address. *)
Definition resolves_public (lookup : text -> Z -> option (list SocketAddr)) host port : Prop :=
  exists addrs a, lookup host port = Some addrs /\ a ∈ addrs
    /\ is_allowed_target (addr_ip a) = true.

Section PolicyLemmas.
Context `{UrlParser} `{!HashOrder text Z, !HashOrderLaws text Z}.
Implicit Types p : NetworkPolicy.

Lemma public_count addrs :
  (length (base.filter (fun a => is_allowed_target (addr_ip a) = true) addrs) =? 0)%nat = false
  <-> exists a, a ∈ addrs /\ is_allowed_target (addr_ip a) = true.
Proof.
  rewrite Nat.eqb_neq, length_zero_iff_nil. split.
  - intros Hne. destruct (base.filter _ addrs) as [|a l] eqn:E; [done|].
    exists a. assert (Ha : a ∈ a :: l) by apply list_elem_of_here.
    rewrite <- E, list_elem_of_filter in Ha. tauto.
  - intros (a & Ha & Hp) E.
    assert (Hf : a ∈ base.filter (fun a => is_allowed_target (addr_ip a) = true) addrs)
      by by apply list_elem_of_filter.
    rewrite E in Hf. by apply not_elem_of_nil in Hf.
Qed.

Lemma validate_Ok p raw_url lookup now now' p' :
  validate p raw_url lookup now now' = (Ok tt, p') <->
  exists host port, admissible p raw_url host port /\
    ((is_recently_admitted p (target_of host port) now = true /\ p' = p)
     \/ (is_recently_admitted p (target_of host port) now = false
         /\ resolves_public lookup host port
         /\ p' = remember_admission p (target_of host port) now')).
Proof.
  unfold validate. split.
  - destruct (url_parse raw_url) as [url|] eqn:Eu; [|done].
    destruct (bool_decide (Url.scheme url ∈ _)) eqn:Es; [simpl|done].
    apply bool_decide_eq_true in Es. rewrite list_elem_of_In in Es. simpl in Es.
    destruct (bool_decide (Url.username url = [])) eqn:En; [simpl|done].
    apply bool_decide_eq_true in En.
    destruct (bool_decide (is_Some (Url.password url))) eqn:Ep; [done|].
    apply bool_decide_eq_false, eq_None_not_Some in Ep.
    destruct (Url.host_str url) as [h|] eqn:Eh; [|done].
    destruct (bool_decide (ascii_lowercase h ∈ _)) eqn:Ea; [simpl|done].
    apply bool_decide_eq_true in Ea.
    destruct (Url.port_or_known_default url) as [port|] eqn:Epo; [|done].
    assert (Hadm : admissible p raw_url (ascii_lowercase h) port)
      by (exists url, h; naive_solver).
    intros Hv. exists (ascii_lowercase h), port. split; [exact Hadm|].
    destruct (is_recently_admitted _ _ _); [left; naive_solver|right].
    destruct (lookup _ _) as [addrs|] eqn:El; [|done].
    destruct (length addrs =? 0)%nat; [done|].
    destruct (length (base.filter _ addrs) =? 0)%nat eqn:Ec; [done|].
    apply public_count in Ec as (a & ? & ?).
    split; [done|]. split; [by exists addrs, a|]. by injection Hv as <-.
  - intros (host & port & (url & h & -> & Hs & -> & -> & -> & -> & Ha & ->) & Hr).
    rewrite bool_decide_eq_true_2 by (rewrite list_elem_of_In; simpl; naive_solver). simpl.
    rewrite (bool_decide_eq_true_2 _ Ha). simpl.
    destruct Hr as [[-> ->]|(-> & (addrs & a & -> & Ha' & Hp) & ->)]; [done|].
    destruct (length addrs =? 0)%nat eqn:El.
    { apply Nat.eqb_eq, length_zero_iff_nil in El as ->. by apply not_elem_of_nil in Ha'. }
    by rewrite (proj2 (public_count addrs)) by eauto.
Qed.

Lemma validate_Err_state p raw_url lookup now now' e p' :
  validate p raw_url lookup now now' = (Err e, p') -> p' = p.
Proof. unfold validate. intros. repeat case_match; by simplify_eq. Qed.

Lemma evict_one_size (m : gmap text Z) : m <> ∅ -> (size (evict_one m) < size m)%nat.
Proof.
  intros Hm. unfold evict_one. pose proof (keys_order_perm m) as Hp.
  destruct (keys_order m) as [|k ks].
  - apply Permutation_nil in Hp. apply fmap_nil_inv in Hp.
    by apply map_to_list_empty_iff in Hp.
  - assert (Hk : k ∈ (map_to_list m).*1) by (rewrite <- Hp; apply list_elem_of_here).
    apply list_elem_of_fmap in Hk as ([k' v] & -> & Hk%elem_of_map_to_list).
    simpl. rewrite map_size_delete_Some by eauto.
    destruct (size m) eqn:E; [|lia]. by apply map_size_empty_inv in E as ->.
Qed.

Lemma evict_one_subseteq (m : gmap text Z) : evict_one m ⊆ m.
Proof. unfold evict_one. destruct (keys_order m); [done|]. apply delete_subseteq. Qed.

Lemma remember_admission_entries p target now t at_ :
  admitted (remember_admission p target now) !! t = Some at_ ->
  (t = target /\ at_ = now) \/ admitted p !! t = Some at_.
Proof.
  unfold remember_admission. destruct (admitted_poisoned p); [by right|]. simpl.
  rewrite lookup_insert_Some. intros [[<- <-]|[_ Hl]]; [by left|right].
  destruct (_ && _); [|done].
  assert (Hs : base.filter (fun kv : text * Z => elapsed now kv.2 < ADMISSION_TTL) (admitted p)
               ⊆ admitted p) by apply map_filter_subseteq.
  destruct (_ <=? _); eapply lookup_weaken; eauto.
  etrans; [apply evict_one_subseteq|done].
Qed.

Lemma size_insert_le (m : gmap text Z) k v : (size (<[k := v]> m) <= S (size m))%nat.
Proof. rewrite map_size_insert. destruct (m !! k); unfold id; lia. Qed.

Lemma remember_admission_size p target now :
  Z.of_nat (size (admitted p)) <= MAX_ADMISSION_ENTRIES ->
  Z.of_nat (size (admitted (remember_admission p target now))) <= MAX_ADMISSION_ENTRIES.
Proof.
  unfold remember_admission. destruct (admitted_poisoned p); [done|]. simpl. intros Hsz.
  destruct (MAX_ADMISSION_ENTRIES <=? Z.of_nat (size (admitted p))) eqn:Ef; simpl.
  - destruct (admitted p !! target) as [x|] eqn:Et.
    + rewrite bool_decide_eq_true_2 by eauto. simpl. by rewrite map_size_insert_Some.
    + rewrite bool_decide_eq_false_2 by (by intros [? ?]). simpl.
      set (m := base.filter _ (admitted p)).
      assert (Hm : (size m <= size (admitted p))%nat)
        by (apply map_size_filter_le || apply map_subseteq_size, map_filter_subseteq).
      pose proof (evict_one_size m) as He.
      destruct (MAX_ADMISSION_ENTRIES <=? Z.of_nat (size m)) eqn:Em.
      * apply Z.leb_le in Em. pose proof (size_insert_le (evict_one m) target now).
        assert (m <> ∅) by (intros ->; rewrite map_size_empty in Em; unfold MAX_ADMISSION_ENTRIES in Em; lia).
        specialize (He ltac:(done)). lia.
      * apply Z.leb_gt in Em. pose proof (size_insert_le m target now). lia.
  - apply Z.leb_gt in Ef. pose proof (size_insert_le (admitted p) target now). lia.
Qed.
End PolicyLemmas.

(** ** Runs of the policy *)

(** One call of [validate] and its outcome. *)
Record call := mk_call {
  call_url : text;
  call_dns : text -> Z -> option (list SocketAddr);
  call_now : Z;
  call_end : Z;
  call_result : Result unit;
}.

(** The policy built from [hosts], after the calls of the trace (newest
    first), which happen one after the other. *)
Inductive policy_run `{UrlParser} `{!HashOrder text Z} (hosts : list text) :
    list call -> NetworkPolicy -> Prop :=
| run_init : policy_run hosts [] (allow_hosts hosts)
| run_call tr p c p' :
    policy_run hosts tr p ->
    Forall (fun c' => call_end c' <= call_now c) tr -> call_now c <= call_end c ->
    validate p (call_url c) (call_dns c) (call_now c) (call_end c) = (call_result c, p') ->
    policy_run hosts (c :: tr) p'.

(** A call that resolved [target] to a public address. *)
Definition resolved_by `{UrlParser} (hosts : list text) (target : text) (at_ : Z) (c : call) : Prop :=
  call_result c = Ok tt /\ call_end c = at_
  /\ exists host port, target = target_of host port
       /\ admissible (allow_hosts hosts) (call_url c) host port
       /\ resolves_public (call_dns c) host port.

Section PolicyRun.
Context `{UrlParser} `{!HashOrder text Z, !HashOrderLaws text Z} (hosts : list text).

Lemma validate_allowed_hosts p raw lookup now now' r p' :
  validate p raw lookup now now' = (r, p') -> allowed_hosts p' = allowed_hosts p.
Proof.
  destruct r as [[]|e]; [|by intros ->%validate_Err_state].
  intros (host & port & _ & [[_ ->]|(_ & _ & ->)])%validate_Ok; [done|].
  unfold remember_admission. by destruct (admitted_poisoned p).
Qed.

Lemma run_allowed_hosts tr p :
  policy_run hosts tr p -> allowed_hosts p = allowed_hosts (allow_hosts hosts).
Proof. induction 1; [done|]. by erewrite validate_allowed_hosts by done. Qed.

Lemma admissible_allowed p q raw host port :
  allowed_hosts p = allowed_hosts q -> admissible p raw host port -> admissible q raw host port.
Proof. intros E (url & h & Hx). exists url, h. by rewrite <- E. Qed.

Lemma run_entries tr p :
  policy_run hosts tr p ->
  Z.of_nat (size (admitted p)) <= MAX_ADMISSION_ENTRIES
  /\ forall t at_, admitted p !! t = Some at_ -> Exists (resolved_by hosts t at_) tr.
Proof.
  induction 1 as [|tr p c p' Hrun [IHs IHe] _ _ Hv].
  { split; [unfold MAX_ADMISSION_ENTRIES; simpl; rewrite map_size_empty; lia|].
    intros t at_. simpl. by rewrite lookup_empty. }
  destruct (call_result c) as [[]|e] eqn:Er.
  2:{ apply validate_Err_state in Hv as ->. split; [done|]. intros. apply Exists_cons. auto. }
  apply validate_Ok in Hv as (host & port & Ha & [[_ ->]|(_ & Hr & ->)]).
  { split; [done|]. intros. apply Exists_cons. auto. }
  split; [by apply remember_admission_size|].
  intros t at_ Ht%remember_admission_entries. apply Exists_cons.
  destruct Ht as [[-> ->]|Ht]; [left|auto].
  split; [done|]. split; [done|]. exists host, port.
  eauto using admissible_allowed, run_allowed_hosts.
Qed.
End PolicyRun.

(** A small URL library for the witnesses: every text is an [http] URL of
    the host [cdn.example]. *)
Definition demo_url (s : text) : Url.t :=
  Url.mk (str "http") [] None (Some (str "cdn.example")) None (Some 80) (str "/v.mp4") None s.
Definition demo_parser : UrlParser := fun s => Some (demo_url s).
Definition demo_dns (host : text) (port : Z) : option (list SocketAddr) :=
  Some [mk_addr (V4 (mk_v4 10 0 0 1)) port; mk_addr (V4 (mk_v4 93 184 216 34)) port].

Module NetworkPolicyTheorems.
(** The IPv4 classification is exactly the complement of the special
    purpose address blocks (this-network, private, carrier NAT, loopback,
    link-local, protocol assignments, documentation, 6to4 relay,
    benchmarking, multicast and reserved). *)
Theorem is_public_ipv4_correct (a : Ipv4Addr) :
  v4_valid a ->
  is_public_ipv4 a = negb (existsb (in_block 32 (v4_to_Z a)) v4_reserved).
Proof. apply is_public_ipv4_blocks. Qed.

Lemma is_public_ipv4_correct_witness :
  is_public_ipv4 (mk_v4 100 127 0 1) = false /\ is_public_ipv4 (mk_v4 100 128 0 1) = true.
Proof.
  split.
  - rewrite (is_public_ipv4_correct (mk_v4 100 127 0 1)); [reflexivity|].
    unfold v4_valid; simpl; lia.
  - rewrite (is_public_ipv4_correct (mk_v4 100 128 0 1)); [reflexivity|].
    unfold v4_valid; simpl; lia.
Defined.



(** The IPv4-mapped form of the unspecified address, ::ffff:0.0.0.0,
    is classified as public, although 0.0.0.0 itself and the compatible,
    NAT64 and 6to4 forms of it are refused: [embedded_ipv4] declines to
    unwrap an unspecified address and leaves it to the IPv6 checks, which
    only know [::]. *)
Theorem mapped_unspecified_accepted :
  is_public_ip (V6 (embed Mapped (mk_v4 0 0 0 0))) = true
  /\ is_public_ip (V4 (mk_v4 0 0 0 0)) = false
  /\ forall k, k <> Mapped -> is_public_ip (V6 (embed k (mk_v4 0 0 0 0))) = false.
Proof. split_and!; [reflexivity..|]. by intros [] Hk; [congruence|reflexivity..]. Qed.

(** The connection-time resolver returns a non-empty list, in the order
    of the system resolver, of exactly the public addresses of the answer,
    and an error when there is none: no other address reaches connect. *)
Theorem resolver_call_correct (host : text) (addrs : list SocketAddr) :
  match resolver_call host (Ok addrs) with
  | Ok out => out <> [] /\ out `sublist_of` addrs
      /\ forall a, a ∈ out <-> a ∈ addrs /\ is_public_ip (addr_ip a) = true
  | Err _ => forall a, a ∈ addrs -> is_public_ip (addr_ip a) = false
  end.
Proof.
  unfold resolver_call. simpl.
  assert (Hin : forall a, a ∈ base.filter (fun a => is_allowed_target (addr_ip a) = true) addrs
                  <-> a ∈ addrs /\ is_public_ip (addr_ip a) = true)
    by (intros a; rewrite list_elem_of_filter; unfold is_allowed_target; tauto).
  assert (Hsub : base.filter (fun a => is_allowed_target (addr_ip a) = true) addrs
                   `sublist_of` addrs) by apply sublist_filter.
  destruct (base.filter _ addrs) as [|b out] eqn:E.
  - intros a Ha. apply not_true_iff_false. intros Hp.
    by apply (not_elem_of_nil a), Hin.
  - split_and!; done.
Qed.



(** Along any sequence of calls, the admission cache never holds more
    than 1024 entries, and each of its entries stems from an earlier call,
    made at the instant the entry records, whose name resolution gave a
    public address for that very host and port: nothing is admitted from
    the cache that was not resolved at most 30 seconds before. *)
Theorem admission_cache_sound `{UrlParser} `{!HashOrder text Z, !HashOrderLaws text Z} (hosts : list text)
    (tr : list call) (p : NetworkPolicy) (now : Z) (t : text) :
  policy_run hosts tr p ->
  Z.of_nat (size (admitted p)) <= 1024
  /\ (is_recently_admitted p t now = true ->
      exists at_, now - at_ < 30000 /\ Exists (resolved_by hosts t at_) tr).
Proof.
  intros [Hs He]%run_entries. split; [exact Hs|].
  unfold is_recently_admitted. destruct (admitted_poisoned p); [done|].
  destruct (admitted p !! t) as [at_|] eqn:Et; [|done].
  rewrite Z.ltb_lt. unfold elapsed, ADMISSION_TTL. intros Hl.
  exists at_. split; [lia|]. by apply He.
Qed.

Definition demo_call : call :=
  mk_call (str "http://cdn.example/v.mp4") demo_dns 0 5 (Ok tt).
Definition demo_policy : NetworkPolicy :=
  (@validate demo_parser (sorted_order text Z) (allow_hosts [str "cdn.example"])
     (str "http://cdn.example/v.mp4") demo_dns 0 5).2.

Lemma admission_cache_sound_witness :
  exists at_, 29000 - at_ < 30000
    /\ Exists (@resolved_by demo_parser [str "cdn.example"]
                 (target_of (str "cdn.example") 80) at_) [demo_call].
Proof.
  assert (Hrun : @policy_run demo_parser (sorted_order text Z) [str "cdn.example"]
                   [demo_call] demo_policy).
  { eapply (@run_call demo_parser (sorted_order text Z) _ [] (allow_hosts [str "cdn.example"]));
      [constructor|constructor|simpl; lia|vm_compute; reflexivity]. }
  apply (@admission_cache_sound demo_parser (sorted_order text Z) (sorted_order_laws text Z)
           [str "cdn.example"] [demo_call] demo_policy 29000
           (target_of (str "cdn.example") 80) Hrun).
  vm_compute. reflexivity.
Defined.
End NetworkPolicyTheorems.
