(* ===== verification/DataRequest.v ===== *)
(** * Requests and cache keys ([data_request.rs])

    How a request names its upstream URL, and the cache key it is stored
    under.  The theorems show that the key determines, and is determined by,
    the upstream resource and the identity headers, and that the URL
    embedded in a proxy path is recovered. *)

From Stdlib Require Import Strings.Byte Strings.String.
From S2P Require Import Prelude Bytes Error External Headers Percent.

Definition PROXY_PREFIX : text := str "/proxy/".
Definition ASSET_ID : text := str "X-Cache-Asset-Id".
Definition ASSET_REVISION : text := str "X-Cache-Asset-Revision".
(** The keys under which the header map holds these names. *)
Definition X_ORIGINAL_URL : text := str "x-original-url".
Definition K_ASSET_ID : text := ascii_lowercase ASSET_ID.
Definition K_ASSET_REVISION : text := ascii_lowercase ASSET_REVISION.
Definition RANGE : text := str "range".

Inductive RequestType : Type := Normal | M3u8.
#[export] Instance RequestType_eq_dec : EqDecision RequestType.
Proof. solve_decision. Defined.

Record DataRequest : Type := mk_DataRequest {
  url : text;
  cache_key : text;
  range : text;
  client_sent_range : bool;
  dr_headers : HeaderMap;
  request_type : RequestType;
  source_id : option Z;
}.

Record RegisteredSource : Type := mk_RegisteredSource {
  rs_identity : text;
  rs_url : text;
}.
#[export] Instance RegisteredSource_eq_dec : EqDecision RegisteredSource.
Proof. solve_decision. Defined.

(** [while let Some(index) = clean_url.find(PROXY_PREFIX)]: each round drops
    at least the prefix, so the length is enough fuel. *)
Fixpoint clean_proxy_path (fuel : nat) (clean_url : text) : text :=
  match fuel with
  | O => clean_url
  | S fuel' =>
      match find PROXY_PREFIX clean_url with
      | Some index => clean_proxy_path fuel' (drop (index + length PROXY_PREFIX) clean_url)
      | None => clean_url
      end
  end.

(** [write!] of a length, a colon and the value. *)
Definition push_component (key value : text) : text :=
  key ++ format_u64 (Z.of_nat (length value)) ++ str ":" ++ value.

Definition canonical_upstream_identity (parsed : Url.t) : Result text :=
  host ← ok_or (Url.host_str parsed) (ProxyError.Request (str "上游 URL 缺少主机"));
  Ok (Url.scheme parsed ++ str "://" ++ ascii_lowercase host
      ++ match Url.port parsed with
         | Some port => str ":" ++ format_u64 port
         | None => []
         end
      ++ Url.path parsed).

Section Build.
Context `{UrlParser} `{HeaderText} `{UriParser}.

Definition push_header (hs : HeaderMap) (key name : text) : Result text :=
  raw ← ok_or (hget (ascii_lowercase name) hs) (ProxyError.Request (name ++ str " 缺失"));
  value ← header_to_str raw;
  let value := trim value in
  if decide (value = []) then Err (ProxyError.Request (name ++ str " 不能为空"))
  else Ok (push_component (key ++ str "|") value).

Definition build_cache_key (parsed : Url.t) (hs : HeaderMap) : Result text :=
  identity ← canonical_upstream_identity parsed;
  let key := push_component [] identity in
  match contains_key K_ASSET_ID hs, contains_key K_ASSET_REVISION hs with
  | false, false => Ok key
  | true, true =>
      key ← push_header hs key ASSET_ID;
      push_header hs key ASSET_REVISION
  | _, _ =>
      Err (ProxyError.Request (str "缓存身份头必须同时提供或同时省略: "
             ++ ASSET_ID ++ str ", " ++ ASSET_REVISION))
  end.

(** The upstream URL a request names. *)
Definition request_url (req : Request) : Result text :=
  match hget X_ORIGINAL_URL (headers req) with
  | Some original_url => header_to_str original_url
  | None =>
      match strip_prefix PROXY_PREFIX (uri_path (uri req)) with
      | Some proxy_path =>
          map_err (fun e => ProxyError.Request (str "URL 解码失败: " ++ percent_error_display e))
            (decode_component (clean_proxy_path (length proxy_path) proxy_path))
      | None =>
          parsed_url ← ok_or (url_parse (uri_string (uri req)))
                         (ProxyError.Request (str "无效的请求URL"));
          Ok (Url.as_str parsed_url)
      end
  end.

Definition with_source_id (req : Request) (source_id : option Z) : Result DataRequest :=
  url ← request_url req;
  parsed ← ok_or (url_parse url) (ProxyError.Request (str "无效的上游 URL"));
  cache_key ← build_cache_key parsed (headers req);
  range ← match hget RANGE (headers req) with
          | Some range_header => header_to_str range_header
          | None => Ok (str "bytes=0-")
          end;
  Ok (mk_DataRequest url cache_key range (contains_key RANGE (headers req)) (headers req)
        (if ends_with (str ".m3u8") (Url.path parsed) then M3u8 else Normal)
        source_id).

Definition new (req : Request) : Result DataRequest := with_source_id req None.

Definition from_registered_source (req : Request) (source_id : Z)
    (source : RegisteredSource) : Result DataRequest :=
  uri ← ok_or (uri_parse (rs_url source)) (ProxyError.from_http (str "invalid uri"));
  let hs := headers req in
  hs ← (if visible_text (rs_url source) then Ok (hinsert X_ORIGINAL_URL (rs_url source) hs)
        else Err (ProxyError.Request (str "registered source URL is invalid")));
  hs ← (if visible_text (rs_identity source) then Ok (hinsert K_ASSET_ID (rs_identity source) hs)
        else Err (ProxyError.Request (str "registered source identity is invalid")));
  let hs := hinsert K_ASSET_REVISION (str "registered") hs in
  with_source_id (mk_Request (str "GET") uri hs) (Some source_id).
End Build.

(** ** Length-prefixed components *)

Lemma push_component_app key v : push_component key v = key ++ push_component [] v.
Proof. unfold push_component. by rewrite app_nil_l. Qed.

Lemma format_no_colon n : 0 <= n -> x3a ∉ format_u64 n.
Proof.
  intros Hn Hin%list_elem_of_In. pose proof (format_u64_digits n Hn) as Hd.
  rewrite forallb_forall in Hd. by specialize (Hd _ Hin).
Qed.

(** A component can be split off unambiguously. *)
Lemma push_component_inj v1 v2 r1 r2 :
  push_component [] v1 ++ r1 = push_component [] v2 ++ r2 -> v1 = v2 /\ r1 = r2.
Proof.
  unfold push_component. change (str ":") with [x3a]. simpl. rewrite <- !app_assoc. simpl.
  intros E.
  assert (S1 : forall v r, split_once x3a
             (format_u64 (Z.of_nat (length v)) ++ x3a :: v ++ r)
             = Some (format_u64 (Z.of_nat (length v)), v ++ r)).
  { intros v r. apply split_once_Some. split; [done|]. apply format_no_colon. lia. }
  pose proof (S1 v1 r1) as H1. rewrite E, S1 in H1. injection H1 as Hl Hr.
  apply format_u64_inj in Hl; [|lia..]. apply Nat2Z.inj in Hl.
  apply app_inj_1 in Hr as [-> ->]; done.
Qed.

Definition key_text (identity : text) (asset : option (text * text)) : text :=
  push_component [] identity
  ++ match asset with
     | None => []
     | Some (id, rev) => x7c :: push_component [] id ++ x7c :: push_component [] rev
     end.

Lemma key_text_inj i1 a1 i2 a2 : key_text i1 a1 = key_text i2 a2 -> i1 = i2 /\ a1 = a2.
Proof.
  unfold key_text. intros [-> E]%push_component_inj. split; [done|].
  destruct a1 as [[id1 rev1]|], a2 as [[id2 rev2]|]; try done.
  injection E as E. apply push_component_inj in E as [-> E]. injection E as E.
  assert (E' : push_component [] rev1 ++ [] = push_component [] rev2 ++ [])
    by by rewrite !app_nil_r.
  by apply push_component_inj in E' as [-> _].
Qed.

(** ** The identity of an upstream resource *)

(** The shape the [url] crate gives the parts of a URL with a host: the
    scheme has no colon, the host no slash, and a colon or bracket only as
    part of an IPv6 literal in brackets, the path is empty or starts with a slash. *)
Definition no_colon_or_brackets (h : text) : Prop :=
  ((x3a ∉ h) /\ (x5b ∉ h)) \/ exists h', h = x5b :: h' ++ [x5d] /\ (x5d ∉ h').

Definition url_wf (u : Url.t) : Prop :=
  (x3a ∉ Url.scheme u)
  /\ (forall h, Url.host_str u = Some h -> (x2f ∉ h) /\ no_colon_or_brackets h)
  /\ (Url.path u = [] \/ exists p, Url.path u = x2f :: p)
  /\ (forall p, Url.port u = Some p -> is_u64 p).

(** What the identity is made of. *)
Definition resource (u : Url.t) : option (text * text * option Z * text) :=
  h ← Url.host_str u;
  Some (Url.scheme u, ascii_lowercase h, Url.port u, Url.path u).

Lemma byte_lower_fixed b c :
  c ∈ [x3a; x2f; x5b; x5d] -> byte_lower b = c <-> b = c.
Proof.
  intros Hc. split; [|by intros ->; revert Hc; rewrite !elem_of_cons, elem_of_nil;
                      intros [->|[->|[->|[->|[]]]]]].
  intros E. assert (H : forallb (fun c => Bool.eqb (bool_decide (byte_lower b = c))
                                   (bool_decide (b = c))) [x3a; x2f; x5b; x5d] = true).
  { revert b E. intros b _. revert b. apply (forall_byte (fun b =>
      forallb (fun c => Bool.eqb (bool_decide (byte_lower b = c)) (bool_decide (b = c)))
        [x3a; x2f; x5b; x5d])). vm_compute. reflexivity. }
  rewrite forallb_forall in H. apply list_elem_of_In in Hc. specialize (H c Hc).
  apply Bool.eqb_prop in H. rewrite (bool_decide_eq_true_2 _ E) in H.
  symmetry in H. by apply bool_decide_eq_true in H.
Qed.

Lemma lowercase_elem c h : c ∈ [x3a; x2f; x5b; x5d] -> c ∈ ascii_lowercase h <-> c ∈ h.
Proof.
  intros Hc. unfold ascii_lowercase. rewrite !list_elem_of_In, in_map_iff. split.
  - intros (b & Hb & Hin). by apply (byte_lower_fixed b c Hc) in Hb as ->.
  - intros Hin. exists c. split; [by apply byte_lower_fixed|done].
Qed.

Lemma lowercase_brackets h : no_colon_or_brackets h -> no_colon_or_brackets (ascii_lowercase h).
Proof.
  intros [Hc|(h' & -> & Hn)].
  - left. by rewrite !lowercase_elem by set_solver.
  - right. exists (ascii_lowercase h'). split.
    + unfold ascii_lowercase. simpl. rewrite map_app. done.
    + by rewrite lowercase_elem by set_solver.
Qed.

(** The port suffix of a host. *)
Definition port_text (p : option Z) : text :=
  match p with Some p => str ":" ++ format_u64 p | None => [] end.

Lemma port_text_no_slash p : (forall n, p = Some n -> is_u64 n) -> x2f ∉ port_text p.
Proof.
  intros Hp. destruct p as [n|]; simpl; [|apply not_elem_of_nil].
  rewrite not_elem_of_cons. split; [done|].
  intros Hin%list_elem_of_In. pose proof (format_u64_digits n ltac:(apply Hp; done)) as Hd.
  rewrite forallb_forall in Hd. by specialize (Hd _ Hin).
Qed.

Lemma port_text_inj p q :
  (forall n, p = Some n -> is_u64 n) -> (forall n, q = Some n -> is_u64 n) ->
  port_text p = port_text q -> p = q.
Proof.
  intros Hp Hq. destruct p as [n|], q as [m|]; simpl; try done. intros E.
  injection E as E. apply format_u64_inj in E as ->; [done|apply Hp|apply Hq]; done.
Qed.

(** Split a text before the first occurrence of a byte. *)
Lemma app_first_inj (c : byte) a1 a2 r1 r2 :
  c ∉ a1 -> c ∉ a2 -> (r1 = [] \/ exists t, r1 = c :: t) -> (r2 = [] \/ exists t, r2 = c :: t) ->
  a1 ++ r1 = a2 ++ r2 -> a1 = a2 /\ r1 = r2.
Proof.
  revert a2; induction a1 as [|b a1 IH]; intros [|b' a2] H1 H2 Hr1 Hr2 E; simpl in *; try done.
  - destruct Hr1 as [->|[t ->]]; [done|]. injection E as -> _. set_solver.
  - destruct Hr2 as [->|[t ->]]; [done|]. injection E as -> _. set_solver.
  - injection E as -> E. rewrite not_elem_of_cons in H1, H2.
    destruct (IH a2) as [-> ->]; tauto.
Qed.

Lemma host_port_inj h1 p1 h2 p2 :
  no_colon_or_brackets h1 -> no_colon_or_brackets h2 ->
  (forall n, p1 = Some n -> is_u64 n) -> (forall n, p2 = Some n -> is_u64 n) ->
  h1 ++ port_text p1 = h2 ++ port_text p2 -> h1 = h2 /\ p1 = p2.
Proof.
  intros H1 H2 Hp1 Hp2 E.
  assert (Hpt : forall p, port_text p = [] \/ exists t, port_text p = x3a :: t)
    by (intros [p|]; simpl; eauto).
  assert (Hx : h1 = h2 /\ port_text p1 = port_text p2).
  { destruct H1 as [H1|(h1' & -> & H1)], H2 as [H2|(h2' & -> & H2)].
    - by apply (app_first_inj x3a) in E; try tauto.
    - exfalso. destruct h1 as [|b h1]; simpl in E.
      + destruct (Hpt p1) as [E'|[t E']]; rewrite E' in E; done.
      + injection E as -> E. set_solver.
    - exfalso. destruct h2 as [|b h2]; simpl in E.
      + destruct (Hpt p2) as [E'|[t E']]; rewrite E' in E; done.
      + injection E as <- E. set_solver.
    - simpl in E. injection E as E. rewrite <- !app_assoc in E.
      apply (app_first_inj x5d) in E; simpl; eauto. destruct E as [-> E].
      by injection E as E. }
  destruct Hx as [-> Hx]. split; [done|]. by apply port_text_inj.
Qed.

Lemma identity_spec u :
  match resource u with
  | Some (sc, h, p, pa) =>
      canonical_upstream_identity u = Ok (sc ++ str "://" ++ h ++ port_text p ++ pa)
  | None => exists e, canonical_upstream_identity u = Err e
  end.
Proof.
  unfold resource, canonical_upstream_identity. destruct (Url.host_str u) as [h|]; simpl; eauto.
Qed.

Lemma identity_inj u1 u2 i :
  url_wf u1 -> url_wf u2 ->
  canonical_upstream_identity u1 = Ok i -> canonical_upstream_identity u2 = Ok i ->
  resource u1 = resource u2.
Proof.
  intros W1 W2. pose proof (identity_spec u1) as S1. pose proof (identity_spec u2) as S2.
  revert S1 S2. unfold resource, url_wf in *.
  destruct (Url.host_str u1) as [h1|]; simpl; [|intros [e ->]; done].
  destruct (Url.host_str u2) as [h2|]; simpl; [|intros _ [e ->]; done].
  intros -> -> [= <-] E. injection E as E.
  destruct W1 as (Ws1 & Wh1 & Wp1 & Wq1), W2 as (Ws2 & Wh2 & Wp2 & Wq2).
  destruct (Wh1 h1 eq_refl) as [Hs1 Hb1%lowercase_brackets].
  destruct (Wh2 h2 eq_refl) as [Hs2 Hb2%lowercase_brackets].
  apply (app_first_inj x3a) in E; [|done|done|simpl; eauto..]. destruct E as [-> E].
  injection E as E. rewrite !app_assoc in E.
  apply (app_first_inj x2f) in E; [|rewrite elem_of_app, lowercase_elem by set_solver;
    intros [?|Hp]; [done|by apply port_text_no_slash in Hp]..|done|done].
  destruct E as [E ->]. by apply host_port_inj in E as [-> ->].
Qed.

Lemma identity_resource u1 u2 :
  resource u1 = resource u2 ->
  match canonical_upstream_identity u1, canonical_upstream_identity u2 with
  | Ok i, Ok j => i = j
  | Err _, Err _ => True
  | _, _ => False
  end.
Proof.
  intros E. pose proof (identity_spec u1) as S1. pose proof (identity_spec u2) as S2.
  rewrite E in S1. destruct (resource u2) as [[[[sc h] p] pa]|].
  - by rewrite S1, S2.
  - destruct S1 as [? ->], S2 as [? ->]. done.
Qed.

(** ** The cache key *)

(** The identity headers of a request, as the key uses them. *)
Definition asset_headers (hs : HeaderMap) : option (text * text) :=
  id ← hget K_ASSET_ID hs; rev ← hget K_ASSET_REVISION hs; Some (trim id, trim rev).

Section KeyLemmas.
Context `{UrlParser} `{HeaderText} `{UriParser}.

Lemma push_header_Ok hs key name k :
  push_header hs key name = Ok k <->
  exists raw, hget (ascii_lowercase name) hs = Some raw /\ visible_text raw = true
    /\ trim raw <> [] /\ k = key ++ x7c :: push_component [] (trim raw).
Proof.
  unfold push_header, header_to_str.
  destruct (hget (ascii_lowercase name) hs) as [raw|]; cbn [ok_or mbind result_bind];
    [|naive_solver].
  destruct (visible_text raw) eqn:Ev; cbn [mbind result_bind].
  2:{ split; [done|]. intros (raw' & [= <-] & Hv & _). congruence. }
  destruct (decide (trim raw = [])) as [Ht|Ht].
  { split; [done|]. intros (raw' & [= <-] & _ & Hn & _). congruence. }
  rewrite (push_component_app (key ++ _)), <- app_assoc. change (str "|") with [x7c].
  split; [intros [= <-]; by exists raw|]. by intros (raw' & [= <-] & _ & _ & ->).
Qed.

Lemma build_cache_key_Ok parsed hs k :
  build_cache_key parsed hs = Ok k ->
  exists i, canonical_upstream_identity parsed = Ok i /\ k = key_text i (asset_headers hs).
Proof.
  unfold build_cache_key. destruct (canonical_upstream_identity parsed) as [i|]; simpl; [|done].
  intros E. exists i. split; [done|]. unfold key_text, asset_headers, contains_key in *.
  destruct (hget K_ASSET_ID hs) as [a|] eqn:Ea, (hget K_ASSET_REVISION hs) as [b|] eqn:Eb;
    simpl in *; try done.
  - apply bind_Ok_inv in E as (k1 & (ra & Ha & _ & _ & ->)%push_header_Ok
                                  & (rb & Hb & _ & _ & ->)%push_header_Ok).
    fold K_ASSET_ID in Ha. fold K_ASSET_REVISION in Hb. simplify_eq.
    by rewrite <- !app_assoc.
  - injection E as <-. by rewrite app_nil_r.
Qed.

(** The key of a request without identity headers always exists. *)
Lemma build_cache_key_total parsed hs i :
  canonical_upstream_identity parsed = Ok i ->
  contains_key K_ASSET_ID hs = false -> contains_key K_ASSET_REVISION hs = false ->
  build_cache_key parsed hs = Ok (push_component [] i).
Proof. unfold build_cache_key. by intros -> -> ->. Qed.
End KeyLemmas.

(** ** Proxy paths *)

Lemma find_None_head c p s : c ∉ s -> find (c :: p) s = None.
Proof.
  assert (Hs : forall s, c ∉ s -> starts_with (c :: p) s = false).
  { intros s' Hc. apply not_true_iff_false. rewrite starts_with_spec.
    intros [t ->]. by apply Hc, list_elem_of_here. }
  induction s as [|b s IH]; intros Hc; cbn [find]; rewrite Hs by done; [done|].
  rewrite not_elem_of_cons in Hc. by rewrite IH by tauto.
Qed.

Lemma find_Some_bound p s i : find p s = Some i -> (i + length p <= length s)%nat.
Proof.
  revert i; induction s as [|b s IH]; intros i; simpl;
    destruct (starts_with p _) eqn:E; try done.
  1,2: apply starts_with_spec in E as [t E]; intros [= <-]; apply (f_equal length) in E;
    rewrite length_app in E; simpl in *; lia.
  destruct (find p s) as [j|] eqn:Ej; [|done]. intros [= <-]. specialize (IH j eq_refl). lia.
Qed.

(** The loop ends with a text that holds no further proxy prefix. *)
Lemma clean_proxy_path_clean fuel s :
  (length s <= fuel)%nat -> find PROXY_PREFIX (clean_proxy_path fuel s) = None.
Proof.
  revert s; induction fuel as [|fuel IH]; intros s Hf; simpl.
  - by destruct s; [|simpl in Hf; lia].
  - destruct (find PROXY_PREFIX s) as [i|] eqn:E; [|done].
    apply find_Some_bound in E. apply IH. rewrite length_drop.
    unfold PROXY_PREFIX in *. cbn in *. lia.
Qed.

Lemma encode_no_slash s : x2f ∉ encode_component s.
Proof.
  assert (Hb : forall b, x2f ∉ encode_byte b).
  { intros b. assert (H : negb (contains x2f (encode_byte b)) = true)
      by (revert b; apply forall_byte; vm_compute; reflexivity).
    rewrite <- contains_spec. by destruct (contains _ _). }
  unfold encode_component. destruct (forallb is_unreserved s) eqn:E.
  - intros Hin%list_elem_of_In. rewrite forallb_forall in E. by specialize (E _ Hin).
  - clear E. induction s as [|b s IH]; simpl; [apply not_elem_of_nil|].
    rewrite elem_of_app. naive_solver.
Qed.

(** A parser for the witnesses: host [cdn.example], the given text as path. *)
Definition demo_path_parser : UrlParser :=
  fun s => Some (Url.mk (str "https") [] None (Some (str "CDN.example")) None (Some 443)
                   (x2f :: s) None s).
Definition demo_text : HeaderText := {| visible_text _ := true; status_text := format_u64 |}.

Module DataRequestTheorems.
(** Two cache keys are equal exactly when the requests are for the same
    upstream resource (scheme, case-folded host, port, path; the query does
    not count) and carry the same identity headers: distinct upstream
    resources never share a cache entry, whatever identity headers the
    clients forge, and a re-signed URL finds the entry of the old one. *)
Theorem cache_key_correct `{HeaderText} (u1 u2 : Url.t) (hs1 hs2 : HeaderMap) (k1 k2 : text) :
  url_wf u1 -> url_wf u2 ->
  build_cache_key u1 hs1 = Ok k1 -> build_cache_key u2 hs2 = Ok k2 ->
  k1 = k2 <-> resource u1 = resource u2 /\ asset_headers hs1 = asset_headers hs2.
Proof.
  intros W1 W2 (i1 & E1 & ->)%build_cache_key_Ok (i2 & E2 & ->)%build_cache_key_Ok. split.
  - intros [-> ->]%key_text_inj. split; [by eapply identity_inj|done].
  - intros [Er ->]. apply identity_resource in Er. rewrite E1, E2 in Er. by subst.
Qed.

Definition demo_u (host query : text) : Url.t :=
  Url.mk (str "https") [] None (Some host) None (Some 443) (str "/v.mp4") (Some query) [].
Definition demo_hs : HeaderMap := [(K_ASSET_ID, str " a "); (K_ASSET_REVISION, str "1")].

Lemma cache_key_correct_witness :
  @build_cache_key demo_text (demo_u (str "CDN.example") (str "sig=1")) demo_hs
    = Ok (str "25:https://cdn.example/v.mp4|1:a|1:1")
  /\ resource (demo_u (str "CDN.example") (str "sig=1"))
     = resource (demo_u (str "cdn.example") (str "sig=2")).
Proof.
  assert (W : forall q, url_wf (demo_u (str "cdn.example") q)
                        /\ url_wf (demo_u (str "CDN.example") q)).
  { intros q. unfold url_wf, no_colon_or_brackets. simpl. split_and!; try done;
      try (apply (bool_decide_unpack _); vm_compute; exact I);
      try (intros h [= <-]; split; [|left; split];
           apply (bool_decide_unpack _); vm_compute; exact I);
      right; eexists; reflexivity. }
  split; [vm_compute; reflexivity|].
  apply (@cache_key_correct demo_text (demo_u (str "CDN.example") (str "sig=1"))
           (demo_u (str "cdn.example") (str "sig=2")) demo_hs demo_hs
           (str "25:https://cdn.example/v.mp4|1:a|1:1")
           (str "25:https://cdn.example/v.mp4|1:a|1:1")); [apply W|apply W|..];
    vm_compute; reflexivity.
Defined.

(** The path the proxy hands out for an upstream URL, the proxy prefix
    followed by the percent-encoded URL, is read back as that URL; and the
    loop that strips repeated prefixes always ends, with a text in which no
    prefix is left. *)
Theorem proxy_path_round_trip `{UrlParser} `{HeaderText} (req : Request) (u : text) :
  utf8_valid u = true ->
  hget X_ORIGINAL_URL (headers req) = None ->
  uri_path (uri req) = PROXY_PREFIX ++ encode_component u ->
  request_url req = Ok u
  /\ forall s, find PROXY_PREFIX (clean_proxy_path (length s) s) = None.
Proof.
  intros Hu Hx Hp. split; [|intros; by apply clean_proxy_path_clean].
  unfold request_url. rewrite Hx, Hp, strip_prefix_app.
  assert (Hc : forall fuel, clean_proxy_path fuel (encode_component u) = encode_component u).
  { intros [|fuel]; simpl; [done|].
    unfold PROXY_PREFIX. change (str "/proxy/") with (x2f :: str "proxy/").
    by rewrite find_None_head by apply encode_no_slash. }
  rewrite Hc. apply map_err_Ok, decode_component_spec.
  split; [apply encode_component_unescapes|done].
Qed.

Definition demo_req (p : text) (hs : HeaderMap) : Request :=
  mk_Request (str "GET") (mk_Uri p p) hs.

Lemma proxy_path_round_trip_witness :
  @request_url demo_path_parser demo_text
    (demo_req (str "/proxy/https%3A%2F%2Fcdn.example%2Fv.mp4%3Fs%3D1") [])
  = Ok (str "https://cdn.example/v.mp4?s=1").
Proof.
  apply (@proxy_path_round_trip demo_path_parser demo_text
           (demo_req (str "/proxy/https%3A%2F%2Fcdn.example%2Fv.mp4%3Fs%3D1") [])
           (str "https://cdn.example/v.mp4?s=1")); vm_compute; reflexivity.
Defined.

(** A request for a registered source is built from the registered URL
    and identity alone: whatever original-URL or identity headers the
    client sends are overridden, the key is the one of the registered
    identity, and only the client's [Range] header is kept. *)
Theorem registered_source_correct `{UrlParser} `{HeaderText} `{UriParser}
    (req : Request) (id : Z) (source : RegisteredSource) (r : DataRequest) :
  from_registered_source req id source = Ok r ->
  url r = rs_url source
  /\ source_id r = Some id
  /\ (exists parsed i, url_parse (rs_url source) = Some parsed
       /\ canonical_upstream_identity parsed = Ok i
       /\ cache_key r = key_text i (Some (trim (rs_identity source), str "registered"))
       /\ (request_type r = M3u8 <-> ends_with (str ".m3u8") (Url.path parsed) = true))
  /\ range r = default (str "bytes=0-") (hget RANGE (headers req))
  /\ (client_sent_range r = true <-> is_Some (hget RANGE (headers req))).
Proof.
  unfold from_registered_source. intros E.
  apply bind_Ok_inv in E as (u & _ & E).
  destruct (visible_text (rs_url source)) eqn:Ev; cbn [mbind result_bind] in E; [|done].
  destruct (visible_text (rs_identity source)) eqn:Ei; cbn [mbind result_bind] in E; [|done].
  set (hs := hinsert K_ASSET_REVISION _ _) in E.
  assert (Hu : hget X_ORIGINAL_URL hs = Some (rs_url source)).
  { unfold hs. rewrite !hget_hinsert_ne by done. apply hget_hinsert_eq. }
  assert (Ha : asset_headers hs = Some (trim (rs_identity source), str "registered")).
  { unfold asset_headers, hs. rewrite hget_hinsert_eq.
    rewrite hget_hinsert_ne by done. rewrite hget_hinsert_eq. reflexivity. }
  assert (Hr : hget RANGE hs = hget RANGE (headers req))
    by (unfold hs; by rewrite !hget_hinsert_ne by done).
  unfold with_source_id, request_url in E. cbn [headers] in E. rewrite Hu in E.
  assert (Hh : header_to_str (rs_url source) = Ok (rs_url source))
    by (unfold header_to_str; by rewrite Ev).
  rewrite Hh in E. cbn [mbind result_bind] in E.
  apply bind_Ok_inv in E as (parsed & Hp%ok_or_Ok & E).
  apply bind_Ok_inv in E as (k & (i & Hi & ->)%build_cache_key_Ok & E).
  apply bind_Ok_inv in E as (rg & Hrg & E). rewrite Ha in E. injection E as <-. simpl.
  rewrite contains_key_spec, Hr in *.
  split_and!; try done.
  - exists parsed, i. split_and!; try done. by destruct (ends_with _ _).
  - destruct (hget RANGE (headers req)) as [v|]; simpl in *; [|by injection Hrg as <-].
    unfold header_to_str in Hrg. destruct (visible_text v); by simplify_eq.
Qed.

Lemma registered_source_correct_witness :
  exists r, @from_registered_source demo_path_parser demo_text
      (fun s => Some (mk_Uri s s))
      (demo_req (str "/media/7") [(X_ORIGINAL_URL, str "http://evil"); (RANGE, str "bytes=5-")])
      7 (mk_RegisteredSource (str "movie") (str "a.m3u8")) = Ok r
    /\ url r = str "a.m3u8" /\ range r = str "bytes=5-".
Proof.
  eexists. split; [vm_compute; reflexivity|].
  pose proof (@registered_source_correct demo_path_parser demo_text (fun s => Some (mk_Uri s s))
      (demo_req (str "/media/7") [(X_ORIGINAL_URL, str "http://evil"); (RANGE, str "bytes=5-")])
      7 (mk_RegisteredSource (str "movie") (str "a.m3u8")) _ ltac:(vm_compute; reflexivity))
    as (Hu & _ & _ & Hr & _).
  split; [exact Hu | exact Hr].
Defined.
End DataRequestTheorems.
