(* ===== verification/SourceRegistry.v ===== *)
(** * The registry of media sources ([source_registry.rs])

    A table from opaque ids to (identity, signed URL), its id counter, the
    refresh provider and the per-source refresh locks.  Every operation is
    atomic: the code holds the table's write lock across each change.  The
    invariant covers every reachable registry. *)

From Stdlib Require Import Strings.Byte Strings.String.
From S2P Require Import Prelude Bytes Error External Headers DataRequest.

Definition MAX_REGISTERED_SOURCES : Z := 10000.
Definition MAX_SOURCE_URL_LENGTH : Z := 16 * 1024.

Definition RefreshProvider : Type := Z -> Result text.

Record SourceRegistry : Type := mk_SourceRegistry {
  next_id : Z;
  entries : gmap Z RegisteredSource;
  refresh_provider : option RefreshProvider;
  refresh_locks : gset Z;          (* the ids that own a refresh lock *)
  entries_poisoned : bool;
  provider_poisoned : bool;
  locks_poisoned : bool;
}.

Definition default : SourceRegistry := mk_SourceRegistry 1 ∅ None ∅ false false false.

Definition set_entries (f : gmap Z RegisteredSource -> gmap Z RegisteredSource)
    (r : SourceRegistry) : SourceRegistry :=
  mk_SourceRegistry (next_id r) (f (entries r)) (refresh_provider r) (refresh_locks r)
    (entries_poisoned r) (provider_poisoned r) (locks_poisoned r).
Definition set_locks (f : gset Z -> gset Z) (r : SourceRegistry) : SourceRegistry :=
  mk_SourceRegistry (next_id r) (entries r) (refresh_provider r) (f (refresh_locks r))
    (entries_poisoned r) (provider_poisoned r) (locks_poisoned r).
Definition set_next_id (n : Z) (r : SourceRegistry) : SourceRegistry :=
  mk_SourceRegistry n (entries r) (refresh_provider r) (refresh_locks r)
    (entries_poisoned r) (provider_poisoned r) (locks_poisoned r).
Definition set_provider (p : option RefreshProvider) (r : SourceRegistry) : SourceRegistry :=
  mk_SourceRegistry (next_id r) (entries r) p (refresh_locks r)
    (entries_poisoned r) (provider_poisoned r) (locks_poisoned r).

Abbreviation M := (io SourceRegistry ProxyError.t).

Definition validate_component (value label : text) : Result text :=
  let value := trim value in
  if bool_decide (value = []) || (512 <? Z.of_nat (length value))
     || existsb (fun b => bool_decide (b = x00)) value
  then Err (ProxyError.Request (label ++ str "无效"))
  else Ok value.

Section Registry.
Context `{UrlParser} `{!HashOrder Z RegisteredSource}.

Definition validate_source_url (value : text) : Result text :=
  if (MAX_SOURCE_URL_LENGTH <? Z.of_nat (length value))
     || existsb (fun b => bool_decide (b = x00)) value
  then Err (ProxyError.Request (str "来源 URL 无效"))
  else
    parsed ← ok_or (url_parse value) (ProxyError.Request (str "来源 URL 无效"));
    if negb (bool_decide (Url.scheme parsed ∈ [str "http"; str "https"]))
       || negb (bool_decide (Url.username parsed = []))
       || bool_decide (is_Some (Url.password parsed))
       || bool_decide (Url.host_str parsed = None)
    then Err (ProxyError.Request (str "来源 URL 必须是无凭据的 HTTP(S) 地址"))
    else Ok value.

Definition unavailable : ProxyError.t := ProxyError.Request (str "来源注册表不可用").

(** [next_id.fetch_update(..)] on a 64-bit counter; the result is the
    previous value. *)
Definition fetch_next_id : M Z := fun r =>
  let value := next_id r in
  if value =? 0 then (Err (ProxyError.Request (str "来源 ID 已耗尽")), r)
  else (Ok value, set_next_id (Z.max ((value + 1) mod 2 ^ 64) 1) r).

(** The tail shared by [register] and [register_or_reuse]. *)
Definition insert_new (identity url : text) : M Z :=
  r ← get;
  if MAX_REGISTERED_SOURCES <=? Z.of_nat (size (entries r)) then
    throw (ProxyError.Request (str "来源注册表已达到容量上限"))
  else
    id ← fetch_next_id;
    _ ← modify (set_entries <[id := mk_RegisteredSource identity url]>);
    mret id.

Definition register (identity url : text) : M Z :=
  identity ← lift (validate_component identity (str "媒体身份"));
  url ← lift (validate_source_url url);
  r ← get;
  if entries_poisoned r then throw unavailable else insert_new identity url.

Definition resolve (r : SourceRegistry) (id : Z) : option RegisteredSource :=
  if entries_poisoned r then None else entries r !! id.

(** [entries.iter().find(..)]. *)
Definition find_source (es : gmap Z RegisteredSource) (identity url : text) : option Z :=
  List.find (fun id => bool_decide (es !! id = Some (mk_RegisteredSource identity url)))
    (keys_order es).

Definition register_or_reuse (identity url : text) : M Z :=
  identity ← lift (validate_component identity (str "媒体身份"));
  url ← lift (validate_source_url url);
  r ← get;
  if entries_poisoned r then throw unavailable
  else match find_source (entries r) identity url with
       | Some id => mret id
       | None => insert_new identity url
       end.

Definition refresh (id : Z) (url : text) : M unit :=
  url ← lift (validate_source_url url);
  r ← get;
  if entries_poisoned r then throw unavailable
  else match entries r !! id with
       | None => throw (ProxyError.Request (str "来源 ID 不存在"))
       | Some source =>
           modify (set_entries <[id := mk_RegisteredSource (rs_identity source) url]>)
       end.

Definition remove (id : Z) : M bool := fun r =>
  if entries_poisoned r then (Ok false, r)
  else match entries r !! id with
       | None => (Ok false, r)
       | Some _ =>
           let r := set_entries (delete id) r in
           (Ok true, if locks_poisoned r then r else set_locks (fun l => l ∖ {[id]}) r)
       end.

Definition clear : M unit := fun r =>
  let r := if entries_poisoned r then r else set_entries (fun _ => ∅) r in
  (Ok tt, if locks_poisoned r then r else set_locks (fun _ => ∅) r).

Definition set_refresh_provider (provider : option RefreshProvider) : M unit :=
  r ← get;
  if provider_poisoned r then throw (ProxyError.Request (str "来源刷新器不可用"))
  else modify (set_provider provider).

Definition refresh_from_provider_if_current (id : Z) (expected_url : text) : M unit :=
  r ← get;
  match resolve r id with
  | None => throw (ProxyError.Request (str "来源 ID 不存在"))
  | Some _ =>
    if locks_poisoned r then throw (ProxyError.Request (str "来源刷新锁不可用"))
    else
      _ ← modify (set_locks (fun l => {[id]} ∪ l));
      r ← get;
      if match resolve r id with
         | Some source => negb (bool_decide (rs_url source = expected_url))
         | None => false
         end
      then mret tt
      else if provider_poisoned r then throw (ProxyError.Request (str "来源刷新器不可用"))
      else match refresh_provider r with
           | None => throw (ProxyError.Request (str "来源刷新器未配置"))
           | Some provider =>
               url ← lift (provider id);
               refresh id url
           end
  end.

Definition refresh_from_provider (id : Z) : M unit :=
  r ← get;
  match resolve r id with
  | None => throw (ProxyError.Request (str "来源 ID 不存在"))
  | Some source => refresh_from_provider_if_current id (rs_url source)
  end.

(** ** Reachable registries *)

Inductive reg_op : Type :=
| OpRegister (identity url : text)
| OpReuse (identity url : text)
| OpRefresh (id : Z) (url : text)
| OpRemove (id : Z)
| OpClear
| OpSetProvider (p : option RefreshProvider)
| OpRefreshIfCurrent (id : Z) (expected : text)
| OpRefreshFrom (id : Z).

Definition run_op (op : reg_op) (r : SourceRegistry) : SourceRegistry :=
  match op with
  | OpRegister i u => (register i u r).2
  | OpReuse i u => (register_or_reuse i u r).2
  | OpRefresh id u => (refresh id u r).2
  | OpRemove id => (remove id r).2
  | OpClear => (clear r).2
  | OpSetProvider p => (set_refresh_provider p r).2
  | OpRefreshIfCurrent id e => (refresh_from_provider_if_current id e r).2
  | OpRefreshFrom id => (refresh_from_provider id r).2
  end.

Definition run_ops (ops : list reg_op) (r : SourceRegistry) : SourceRegistry :=
  fold_left (fun r op => run_op op r) ops r.

(** ** The invariant *)

Definition source_ok (s : RegisteredSource) : Prop :=
  rs_identity s <> [] /\ (length (rs_identity s) <= 512)%nat /\ (x00 ∉ rs_identity s)
  /\ validate_source_url (rs_url s) = Ok (rs_url s).

Definition registry_ok (r : SourceRegistry) : Prop :=
  1 <= next_id r <= u64_max
  /\ Z.of_nat (size (entries r)) <= MAX_REGISTERED_SOURCES
  /\ map_Forall (fun id s => 1 <= id <= u64_max /\ source_ok s) (entries r).

(** Before the counter first wraps, every id ever given is below it. *)
Definition ids_below (r : SourceRegistry) : Prop :=
  map_Forall (fun id _ => id < next_id r) (entries r).
End Registry.

Lemma existsb_nul s : existsb (fun b => bool_decide (b = x00)) s = false <-> x00 ∉ s.
Proof. rewrite <- (contains_spec x00 s). unfold contains. by destruct (existsb _ _). Qed.

Lemma validate_component_Ok v l i :
  validate_component v l = Ok i ->
  i = trim v /\ i <> [] /\ (length i <= 512)%nat /\ (x00 ∉ i).
Proof.
  unfold validate_component. destruct (_ || _) eqn:E; [done|]. intros [= <-].
  rewrite !orb_false_iff in E. destruct E as [[E1 E2] E3].
  apply bool_decide_eq_false in E1. apply Z.ltb_ge in E2. apply existsb_nul in E3.
  split_and!; try done; lia.
Qed.

(** Unfold the state monad. *)
Ltac run_m := unfold mbind, io_bind, mret, io_ret, get, throw, lift, modify in *; cbn beta iota in *.

Section RegistryLemmas.
Context `{UrlParser} `{!HashOrder Z RegisteredSource, !HashOrderLaws Z RegisteredSource}.
Implicit Types r : SourceRegistry.

Lemma validate_source_url_Ok v u : validate_source_url v = Ok u -> u = v.
Proof.
  unfold validate_source_url. case_match; [done|]. intros E.
  apply bind_Ok_inv in E as (p & _ & E). case_match; by simplify_eq.
Qed.

Lemma validated_source_ok v l w i u :
  validate_component v l = Ok i -> validate_source_url w = Ok u ->
  source_ok (mk_RegisteredSource i u).
Proof.
  intros (_ & ? & ? & ?)%validate_component_Ok Hu.
  split_and!; try done. by destruct (validate_source_url_Ok _ _ Hu).
Qed.

(** A well-formed pair, and the two outcomes of storing it. *)
Lemma insert_new_cases identity url r :
  1 <= next_id r ->
  insert_new identity url r =
    if MAX_REGISTERED_SOURCES <=? Z.of_nat (size (entries r))
    then (Err (ProxyError.Request (str "来源注册表已达到容量上限")), r)
    else (Ok (next_id r),
          set_entries <[next_id r := mk_RegisteredSource identity url]>
            (set_next_id (Z.max ((next_id r + 1) mod 2 ^ 64) 1) r)).
Proof.
  intros Hn. unfold insert_new. run_m. destruct (_ <=? _); [done|].
  unfold fetch_next_id. destruct (Z.eqb_spec (next_id r) 0); [lia|]. done.
Qed.

Lemma registry_ok_insert r identity url :
  registry_ok r -> source_ok (mk_RegisteredSource identity url) ->
  Z.of_nat (size (entries r)) < MAX_REGISTERED_SOURCES ->
  registry_ok (set_entries <[next_id r := mk_RegisteredSource identity url]>
                 (set_next_id (Z.max ((next_id r + 1) mod 2 ^ 64) 1) r)).
Proof.
  intros (Hn & Hs & He) Hok Hc. unfold registry_ok. simpl.
  pose proof (Z.mod_pos_bound (next_id r + 1) (2 ^ 64) ltac:(lia)).
  change (2 ^ 64) with 18446744073709551616 in *. split_and!; [lia|lia| |].
  - rewrite map_size_insert. destruct (_ !! _); unfold id; lia.
  - by apply map_Forall_insert_2.
Qed.

Lemma registry_ok_entries (r : SourceRegistry) f :
  registry_ok r ->
  (forall id s, f (entries r) !! id = Some s -> exists s', entries r !! id = Some s'
      /\ (source_ok s' -> source_ok s)) ->
  registry_ok (set_entries f r).
Proof.
  intros (Hn & Hs & He) Hf. split; [done|]. simpl. split.
  - etrans; [|exact Hs]. apply inj_le. rewrite <- !size_dom.
    apply subseteq_size. intros id [s Hid]%elem_of_dom. apply elem_of_dom.
    destruct (Hf id s Hid) as (s' & ? & _). eauto.
  - intros id s Hid. destruct (Hf id s Hid) as (s' & Hs' & Hok).
    destruct (He id s' Hs'). auto.
Qed.

Lemma register_ok identity url r : registry_ok r -> registry_ok (register identity url r).2.
Proof.
  intros Hr. unfold register. run_m.
  destruct (validate_component _ _) as [i|] eqn:Ei; [|done].
  destruct (validate_source_url url) as [u|] eqn:Eu; [|done].
  destruct (entries_poisoned r); [done|].
  rewrite insert_new_cases by apply Hr. destruct (Z.leb_spec MAX_REGISTERED_SOURCES (Z.of_nat (size (entries r)))); [done|].
  apply registry_ok_insert; eauto using validated_source_ok.
Qed.

Lemma register_or_reuse_ok identity url r :
  registry_ok r -> registry_ok (register_or_reuse identity url r).2.
Proof.
  intros Hr. unfold register_or_reuse. run_m.
  destruct (validate_component _ _) as [i|] eqn:Ei; [|done].
  destruct (validate_source_url url) as [u|] eqn:Eu; [|done].
  destruct (entries_poisoned r); [done|]. destruct (find_source _ _ _); [done|].
  rewrite insert_new_cases by apply Hr. destruct (Z.leb_spec MAX_REGISTERED_SOURCES (Z.of_nat (size (entries r)))); [done|].
  apply registry_ok_insert; eauto using validated_source_ok.
Qed.

Lemma refresh_ok id url r : registry_ok r -> registry_ok (refresh id url r).2.
Proof.
  intros Hr. unfold refresh. run_m.
  destruct (validate_source_url url) as [u|] eqn:Eu; [|done].
  destruct (entries_poisoned r); [done|]. destruct (entries r !! id) as [s|] eqn:Es; [|done].
  simpl. apply registry_ok_entries; [done|]. intros id' s' Hl.
  apply lookup_insert_Some in Hl as [[<- <-]|[_ Hl]]; [|eauto].
  exists s. split; [done|]. intros (? & ? & ? & ?). split_and!; try done. simpl.
  by destruct (validate_source_url_Ok _ _ Eu).
Qed.

Lemma registry_ok_locks r f : registry_ok r -> registry_ok (set_locks f r).
Proof. done. Qed.

Lemma refresh_if_current_ok id e r :
  registry_ok r -> registry_ok (refresh_from_provider_if_current id e r).2.
Proof.
  intros Hr. unfold refresh_from_provider_if_current. run_m.
  destruct (resolve r id); [|done]. destruct (locks_poisoned r); [done|].
  match goal with |- context [if ?b then _ else _] => destruct b; [done|] end.
  destruct (provider_poisoned _); [done|]. simpl.
  destruct (refresh_provider r) as [p|]; [|done].
  destruct (p id); [|done]. by apply refresh_ok.
Qed.

Lemma run_op_ok op r : registry_ok r -> registry_ok (run_op op r).
Proof.
  intros Hr. destruct op; simpl.
  - by apply register_ok.
  - by apply register_or_reuse_ok.
  - by apply refresh_ok.
  - unfold remove. destruct (entries_poisoned r); [done|].
    destruct (entries r !! id); [|done]. simpl.
    assert (Hd : registry_ok (set_entries (delete id) r)).
    { apply registry_ok_entries; [done|]. intros id' s' [_ Hl]%lookup_delete_Some. eauto. }
    by destruct (locks_poisoned r).
  - unfold clear.
    assert (Hd : registry_ok (set_entries (fun _ => ∅) r))
      by (apply registry_ok_entries; [done|]; intros ? ?; by rewrite lookup_empty).
    by destruct (entries_poisoned r), (locks_poisoned _).
  - unfold set_refresh_provider. run_m. by destruct (provider_poisoned r).
  - by apply refresh_if_current_ok.
  - unfold refresh_from_provider. run_m.
    destruct (resolve r id); [|done]. by apply refresh_if_current_ok.
Qed.

Lemma find_source_Some es identity url id :
  find_source es identity url = Some id ->
  es !! id = Some (mk_RegisteredSource identity url).
Proof. by intros [_ ?%bool_decide_eq_true]%List.find_some. Qed.

Lemma find_source_None es identity url id :
  find_source es identity url = None -> es !! id <> Some (mk_RegisteredSource identity url).
Proof.
  intros Hf Hid.
  assert (Hin : In id (keys_order es)) by (apply list_elem_of_In, keys_order_elem; eauto).
  pose proof (List.find_none _ _ Hf id Hin) as Hx.
  by apply bool_decide_eq_false in Hx.
Qed.
End RegistryLemmas.

Lemma default_registry_ok `{UrlParser} : registry_ok default.
Proof.
  unfold registry_ok, MAX_REGISTERED_SOURCES. simpl. rewrite map_size_empty.
  split_and!; try lia. apply map_Forall_empty.
Qed.

(** A registry for the witnesses: every text is an [http] URL. *)
Definition demo_registry_parser : UrlParser :=
  fun s => Some (Url.mk (str "http") [] None (Some (str "cdn.example")) None (Some 80) [x2f] None s).
Definition demo_order : HashOrder Z RegisteredSource := sorted_order Z RegisteredSource.
Definition demo_order_laws : @HashOrderLaws Z RegisteredSource _ _ demo_order :=
  sorted_order_laws Z RegisteredSource.

Module SourceRegistryTheorems.
(** Every registry reachable from the empty one by any sequence of
    operations (registrations, reuse, refreshes by hand or by the provider,
    removals, clearing) has at most 10000 entries, only non-zero 64-bit
    ids, and only identities and URLs that passed validation. *)
Theorem reachable_registry_ok `{UrlParser} `{!HashOrder Z RegisteredSource}
    (ops : list reg_op) : registry_ok (run_ops ops default).
Proof.
  pose proof default_registry_ok as Hr.
  unfold run_ops. revert Hr. generalize default.
  induction ops as [|op ops IH]; intros r Hr; simpl; [done|].
  apply IH. by apply run_op_ok.
Qed.

(** A successful registration stores exactly the trimmed identity and
    the URL under the id it returns, leaves every other source as it was,
    and, as long as the 64-bit counter has not wrapped, that id was not in
    use. *)
Theorem register_correct `{UrlParser} (r : SourceRegistry) (identity u : text)
    (id : Z) (r' : SourceRegistry) :
  registry_ok r -> register identity u r = (Ok id, r') ->
  resolve r' id = Some (mk_RegisteredSource (trim identity) u)
  /\ (forall j, j <> id -> resolve r' j = resolve r j)
  /\ (ids_below r -> resolve r id = None
      /\ (id < u64_max -> ids_below r')).
Proof.
  intros Hr. unfold register. run_m.
  destruct (validate_component _ _) as [i|] eqn:Ei; [|done].
  destruct (validate_source_url u) as [v|] eqn:Eu; [|done].
  apply validate_component_Ok in Ei as (-> & _). apply validate_source_url_Ok in Eu as ->.
  destruct (entries_poisoned r) eqn:Ep; [done|].
  rewrite insert_new_cases by apply Hr. destruct (_ <=? _); [done|]. intros [= <- <-].
  unfold resolve. simpl. rewrite Ep. split_and!.
  - by rewrite lookup_insert_eq.
  - intros j Hj. by rewrite lookup_insert_ne.
  - intros Hb. split.
    + destruct (entries r !! next_id r) eqn:E; [|done]. apply Hb in E. lia.
    + intros Hlt id' s. simpl. rewrite lookup_insert_Some.
      destruct Hr as (Hn & _). rewrite Z.mod_small by (change (2 ^ 64) with 18446744073709551616; lia).
      intros [[<- _]|[_ Hl%Hb]]; lia.
Qed.

Definition demo_reg : SourceRegistry :=
  @run_ops demo_registry_parser demo_order
    [OpRegister (str " movie ") (str "http://cdn.example/a?sig=1")] default.

Lemma register_correct_witness :
  resolve (@register demo_registry_parser (str "x") (str "http://y") demo_reg).2 2
  = Some (mk_RegisteredSource (str "x") (str "http://y"))
  /\ resolve demo_reg 2 = None.
Proof.
  pose proof (@register_correct demo_registry_parser demo_reg (str "x") (str "http://y") 2
      (@register demo_registry_parser (str "x") (str "http://y") demo_reg).2) as H.
  destruct H as (H1 & _ & H2).
  - apply (@run_op_ok demo_registry_parser demo_order).
    unfold registry_ok, MAX_REGISTERED_SOURCES. simpl. rewrite map_size_empty.
    split_and!; try lia. apply map_Forall_empty.
  - vm_compute. reflexivity.
  - split; [exact H1|]. apply H2. intros id s Hid.
    assert (Hc : entries demo_reg = {[1 := mk_RegisteredSource (str "movie")
                                            (str "http://cdn.example/a?sig=1")]})
      by (vm_compute; reflexivity).
    rewrite Hc in Hid. apply lookup_singleton_Some in Hid as [<- _]. vm_compute. reflexivity.
Defined.

(** [register_or_reuse] returns an id that resolves to exactly the
    requested identity and URL; when such an entry exists it is reused and
    nothing changes, and otherwise exactly one entry is added. *)
Theorem register_or_reuse_correct `{UrlParser}
    `{!HashOrder Z RegisteredSource, !HashOrderLaws Z RegisteredSource}
    (r : SourceRegistry) (identity u : text) (id : Z) (r' : SourceRegistry) :
  registry_ok r -> register_or_reuse identity u r = (Ok id, r') ->
  resolve r' id = Some (mk_RegisteredSource (trim identity) u)
  /\ ((exists j, resolve r j = Some (mk_RegisteredSource (trim identity) u)) -> r' = r)
  /\ ((forall j, resolve r j <> Some (mk_RegisteredSource (trim identity) u)) ->
      id = next_id r /\ forall j, j <> id -> resolve r' j = resolve r j).
Proof.
  intros Hr. unfold register_or_reuse. run_m.
  destruct (validate_component _ _) as [i|] eqn:Ei; [|done].
  destruct (validate_source_url u) as [v|] eqn:Eu; [|done].
  apply validate_component_Ok in Ei as (-> & _). apply validate_source_url_Ok in Eu as ->.
  destruct (entries_poisoned r) eqn:Ep; [done|]. unfold resolve. rewrite Ep.
  destruct (find_source _ _ _) as [j|] eqn:Ef.
  - apply find_source_Some in Ef. intros [= <- <-]. rewrite Ep.
    split_and!; [done|done|]. intros Hno. by destruct (Hno j).
  - pose proof (fun k => find_source_None _ _ _ k Ef) as Hno.
    rewrite insert_new_cases by apply Hr. destruct (_ <=? _); [done|]. intros [= <- <-].
    simpl. rewrite Ep. split_and!.
    + by rewrite lookup_insert_eq.
    + intros [k Hk]. by destruct (Hno k).
    + intros _. split; [done|]. intros k Hk. by rewrite lookup_insert_ne.
Qed.

Lemma register_or_reuse_correct_witness :
  (@register_or_reuse demo_registry_parser demo_order (str "movie")
     (str "http://cdn.example/a?sig=1") demo_reg).2 = demo_reg.
Proof.
  eapply (@register_or_reuse_correct demo_registry_parser demo_order demo_order_laws
           demo_reg (str "movie") (str "http://cdn.example/a?sig=1") 1).
  - apply (@run_op_ok demo_registry_parser demo_order).
    unfold registry_ok, MAX_REGISTERED_SOURCES. simpl. rewrite map_size_empty.
    split_and!; try lia. apply map_Forall_empty.
  - vm_compute. reflexivity.
  - exists 1. vm_compute. reflexivity.
Defined.

(** A refresh, by hand or through the provider, only ever replaces the
    URL of the source it names: identities, and with them the cache keys of
    all sources, stay as they were; and when the URL has already been
    replaced since the caller read it, the provider is not asked and
    nothing changes but the creation of the refresh lock. *)
Theorem refresh_keeps_identity `{UrlParser} (r : SourceRegistry) (id : Z) (expected : text)
    (res : Result unit) (r' : SourceRegistry) :
  refresh_from_provider_if_current id expected r = (res, r') ->
  (forall j, rs_identity <$> resolve r' j = rs_identity <$> resolve r j)
  /\ (forall j, j <> id -> resolve r' j = resolve r j)
  /\ (forall s, resolve r id = Some s -> rs_url s <> expected ->
      entries r' = entries r /\ (locks_poisoned r = false -> res = Ok tt)).
Proof.
  unfold refresh_from_provider_if_current. run_m.
  destruct (resolve r id) as [s|] eqn:Es.
  2:{ intros [= <- <-]. split_and!; done. }
  destruct (locks_poisoned r) eqn:El.
  { intros [= <- <-]. split_and!; try done. }
  assert (Hl : forall j f, resolve (set_locks f r) j = resolve r j) by done.
  rewrite Hl, Es.
  destruct (bool_decide (rs_url s = expected)) eqn:Eu; simpl.
  2:{ intros [= <- <-]. split_and!; try done; intros; by rewrite ?Hl. }
  apply bool_decide_eq_true in Eu.
  destruct (provider_poisoned r).
  { intros [= <- <-]. split_and!; try done; intros; simplify_eq; congruence. }
  destruct (refresh_provider r) as [p|].
  2:{ intros [= <- <-]. split_and!; try done; intros; simplify_eq; congruence. }
  destruct (p id) as [u|].
  2:{ intros [= <- <-]. split_and!; try done; intros; simplify_eq; congruence. }
  unfold refresh. run_m.
  destruct (validate_source_url u) as [v|].
  2:{ intros [= <- <-]. split_and!; try done; intros; simplify_eq; congruence. }
  unfold resolve in *. simpl. destruct (entries_poisoned r) eqn:Ep; [done|]. rewrite Es.
  intros [= <- <-]. simpl. rewrite Ep. split_and!.
  - intros j. destruct (decide (j = id)) as [->|].
    + by rewrite lookup_insert_eq, Es.
    + by rewrite lookup_insert_ne.
  - intros j Hj. by rewrite lookup_insert_ne.
  - intros s' [= <-] Hne. congruence.
Qed.

Definition demo_reg_provider : SourceRegistry :=
  set_provider (Some (fun _ => Ok (str "http://cdn.example/a?sig=2"))) demo_reg.

Lemma refresh_keeps_identity_witness :
  rs_identity <$> resolve (@refresh_from_provider_if_current demo_registry_parser 1
      (str "http://cdn.example/a?sig=1") demo_reg_provider).2 1 = Some (str "movie")
  /\ resolve (@refresh_from_provider_if_current demo_registry_parser 1
      (str "http://cdn.example/a?sig=1") demo_reg_provider).2 1
     = Some (mk_RegisteredSource (str "movie") (str "http://cdn.example/a?sig=2")).
Proof.
  split; [|vm_compute; reflexivity].
  destruct (@refresh_keeps_identity demo_registry_parser demo_reg_provider 1
      (str "http://cdn.example/a?sig=1") (Ok tt)
      (@refresh_from_provider_if_current demo_registry_parser 1
      (str "http://cdn.example/a?sig=1") demo_reg_provider).2) as [H _];
    [vm_compute; reflexivity|].
  rewrite H. vm_compute. reflexivity.
Defined.

(** The id counter is never exhausted: after the last 64-bit id it
    restarts at 1 instead of reporting an error, and the next registration
    then overwrites the source registered under id 1. *)
Theorem counter_wraps_and_overwrites `{UrlParser} (r : SourceRegistry) (i u : text) :
  next_id r = u64_max -> entries_poisoned r = false ->
  Z.of_nat (size (entries r)) < MAX_REGISTERED_SOURCES - 1 ->
  validate_component i (str "媒体身份") = Ok i -> validate_source_url u = Ok u ->
  let r1 := (register i u r).2 in
  register i u r = (Ok u64_max, r1)
  /\ (register i u r1).1 = Ok 1
  /\ resolve (register i u r1).2 1 = Some (mk_RegisteredSource i u).
Proof.
  intros Hn Hp Hc Hi Hu. cbv zeta. unfold register. run_m. rewrite Hi, Hu, Hp.
  rewrite insert_new_cases by lia. rewrite Hn.
  destruct (Z.leb_spec MAX_REGISTERED_SOURCES (Z.of_nat (size (entries r)))); [lia|].
  simpl. rewrite Hp, insert_new_cases by (simpl; lia). simpl.
  match goal with |- context [_ <=? ?n] => destruct (Z.leb_spec MAX_REGISTERED_SOURCES n) as [Hx|] end.
  { rewrite map_size_insert in Hx. destruct (_ !! _); unfold id in Hx; lia. }
  split_and!; [done|done|]. unfold resolve. simpl. rewrite Hp. by rewrite lookup_insert_eq.
Qed.

Lemma counter_wraps_and_overwrites_witness :
  let r := set_next_id u64_max demo_reg in
  resolve r 1 = Some (mk_RegisteredSource (str "movie") (str "http://cdn.example/a?sig=1"))
  /\ resolve (@register demo_registry_parser (str "x") (str "http://y")
       (@register demo_registry_parser (str "x") (str "http://y") r).2).2 1
     = Some (mk_RegisteredSource (str "x") (str "http://y")).
Proof.
  cbv zeta. split; [vm_compute; reflexivity|].
  apply (@counter_wraps_and_overwrites demo_registry_parser (set_next_id u64_max demo_reg)
           (str "x") (str "http://y")); vm_compute; reflexivity.
Defined.
End SourceRegistryTheorems.
