(* ===== verification/RangeTable.v ===== *)
(** * Completed-range tables ([storage/disk.rs], pure part)

    The record kept per cache entry, the insertion of a completed range into
    its table and the validation of a table read back from disk.  A table in
    normal form (sorted, disjoint, no two ranges adjacent) is shown to denote
    a set of offsets: insertion is set union, and the one-range coverage test
    the lookups use is exactly set inclusion. *)

From Stdlib Require Import Sorted.
From S2P Require Import Prelude Bytes.

Definition RANGE_METADATA_VERSION : Z := 1.

Record RangeMetadata : Type := mk_RangeMetadata {
  version : Z;                       (* u32 *)
  completed : list (Z * Z);
  key : option text;
  total_size : option Z;
  content_type : option text;
}.

#[export] Instance RangeMetadata_eq_dec : EqDecision RangeMetadata.
Proof. solve_decision. Defined.

Definition metadata_default : RangeMetadata := mk_RangeMetadata 0 [] None None None.

(** [slice::partition_point], on the partitioned slices it is specified for:
    the length of the longest prefix that satisfies the predicate. *)
Fixpoint partition_point {A} (p : A -> bool) (l : list A) : nat :=
  match l with
  | [] => O
  | x :: l' => if p x then S (partition_point p l') else O
  end.

(** [Vec::splice] of one element over [first..last]. *)
Definition splice_one {A} (first last : nat) (x : A) (l : list A) : list A :=
  take first l ++ [x] ++ drop last l.

Definition merge_range (ranges : list (Z * Z)) (start end_ : Z) : list (Z * Z) :=
  let first := partition_point (fun range => saturating_add range.2 1 <? start) ranges in
  let last := partition_point (fun range => range.1 <=? saturating_add end_ 1) ranges in
  let '(merged_start, merged_end) :=
    match drop first (take last ranges) with
    | (t0 :: _) as touching =>
        (Z.min t0.1 start, fold_left (fun widest range => Z.max widest range.2) touching end_)
    | [] => (start, end_)
    end in
  splice_one first last (merged_start, merged_end) ranges.

(** The loop of [metadata_is_valid] over the ranges. *)
Fixpoint ranges_valid (file_size : Z) (previous_end : option Z) (l : list (Z * Z)) : bool :=
  match l with
  | [] => true
  | (start, end_) :: l' =>
      if (end_ <? start) || (file_size <=? end_) then false
      else if match previous_end with
              | Some previous => start <=? saturating_add previous 1
              | None => false
              end then false
      else ranges_valid file_size (Some end_) l'
  end.

Definition metadata_is_valid (metadata : RangeMetadata) (k : text) (file_size : option Z) : bool :=
  if (RANGE_METADATA_VERSION <? version metadata) || negb (bool_decide (key metadata = Some k))
  then false
  else if match total_size metadata, file_size with
          | Some total, Some size => total <? size
          | _, _ => false
          end then false
  else match file_size with
       | None => bool_decide (completed metadata = [])
       | Some size => ranges_valid size None (completed metadata)
       end.

(** The coverage test of [check_range]. *)
Definition covers (ranges : list (Z * Z)) (start requested_end : Z) : bool :=
  existsb (fun c => (c.1 <=? start) && (requested_end <=? c.2)) ranges.

(** ** Tables as sets of offsets *)

Definition in_range_pair (r : Z * Z) (o : Z) : Prop := r.1 <= o <= r.2.
Definition has_offset (ranges : list (Z * Z)) (o : Z) : Prop :=
  Exists (fun r => in_range_pair r o) ranges.

Definition range_ok (r : Z * Z) : Prop := 0 <= r.1 <= r.2 /\ r.2 <= u64_max.
Definition before (x y : Z * Z) : Prop := x.2 + 1 < y.1.
Definition normal (ranges : list (Z * Z)) : Prop :=
  Forall range_ok ranges /\ StronglySorted before ranges.

(** ** Partitioned slices *)

Lemma partition_point_le {A} (p : A -> bool) l : (partition_point p l <= length l)%nat.
Proof. induction l as [|x l IH]; simpl; [lia|]. destruct (p x); lia. Qed.

Lemma partition_point_take {A} (p : A -> bool) l :
  Forall (fun x => p x = true) (take (partition_point p l) l).
Proof. induction l as [|x l IH]; simpl; [done|]. destruct (p x) eqn:E; simpl; auto. Qed.

(** On a list where [p] never holds again after it failed. *)
Lemma partition_point_drop {A} (p : A -> bool) (P : A -> Prop) (R : A -> A -> Prop) l :
  Forall P l -> StronglySorted R l ->
  (forall x y, P x -> P y -> R x y -> p x = false -> p y = false) ->
  Forall (fun x => p x = false) (drop (partition_point p l) l).
Proof.
  intros HP Hs Hm. induction Hs as [|x l Hl IH Hx]; simpl; [done|].
  apply Forall_cons in HP as [HPx HP].
  destruct (p x) eqn:E; simpl; [auto|]. constructor; [done|].
  rewrite Forall_forall in *. eauto.
Qed.

Lemma partition_point_mono {A} (p q : A -> bool) l :
  Forall (fun x => p x = true -> q x = true) l ->
  (partition_point p l <= partition_point q l)%nat.
Proof.
  induction 1 as [|x l Hx Hl IH]; simpl; [lia|].
  destruct (p x) eqn:Ep; [rewrite Hx by done; lia|lia].
Qed.

(** ** Normal tables *)

Lemma normal_nil : normal [].
Proof. split; constructor. Qed.

Lemma normal_cons r l :
  normal (r :: l) <-> range_ok r /\ Forall (before r) l /\ normal l.
Proof.
  unfold normal. split.
  - intros [H1 H2]. apply Forall_cons in H1. inversion_clear H2. tauto.
  - intros (? & ? & ? & ?). split; constructor; done.
Qed.

Lemma StronglySorted_app_iff {A} (R : A -> A -> Prop) l1 l2 :
  StronglySorted R (l1 ++ l2) <->
  StronglySorted R l1 /\ StronglySorted R l2 /\ Forall (fun x => Forall (R x) l2) l1.
Proof.
  induction l1 as [|x l1 IH]; simpl.
  - split; [intros; split_and!; [constructor|done|constructor]|]. tauto.
  - split.
    + inversion_clear 1 as [|? ? Hs Hf]. apply IH in Hs as (? & ? & ?).
      apply Forall_app in Hf as [? ?]. split_and!; [constructor; done|done|constructor; done].
    + intros (H1 & H2 & H3). inversion_clear H1 as [|? ? Hs Hf].
      apply Forall_cons in H3 as [? ?]. constructor; [apply IH; done|apply Forall_app; done].
Qed.

Lemma normal_app l1 l2 :
  normal (l1 ++ l2) <-> normal l1 /\ normal l2 /\ Forall (fun x => Forall (before x) l2) l1.
Proof. unfold normal. rewrite Forall_app, StronglySorted_app_iff. tauto. Qed.

(** In a normal table at most one range can contain a connected interval. *)
Lemma covers_spec ranges start end_ :
  normal ranges -> start <= end_ ->
  covers ranges start end_ = true <-> forall o, start <= o <= end_ -> has_offset ranges o.
Proof.
  intros Hn Hse. unfold covers, has_offset, in_range_pair. rewrite existsb_exists. split.
  - intros (c & Hc & Hb) o Ho. apply Exists_exists. exists c.
    apply andb_true_iff in Hb as [?%Z.leb_le ?%Z.leb_le].
    split; [by apply list_elem_of_In|lia].
  - intros Hall. destruct Hn as [Hok Hs]. induction ranges as [|c l IH].
    { specialize (Hall start ltac:(lia)). by inversion Hall. }
    apply Forall_cons in Hok as [Hc Hok]. inversion_clear Hs as [|? ? Hs' Hf].
    destruct (decide (c.1 <= start <= c.2)) as [Hin|Hout].
    + exists c. split; [by left|]. destruct (decide (end_ <= c.2)) as [|Hgt].
      * apply andb_true_iff. rewrite !Z.leb_le. lia.
      * exfalso. specialize (Hall (c.2 + 1) ltac:(lia)).
        apply Exists_cons in Hall as [?|Hl]; [lia|].
        apply Exists_exists in Hl as (d & Hd & ?). rewrite Forall_forall in Hf.
        specialize (Hf d Hd). unfold before in Hf. lia.
    + destruct IH as (d & Hd & Hb); [done|done| |exists d; split; [by right|done]].
      intros o Ho. pose proof (Hall o Ho) as Ho'. apply Exists_cons in Ho' as [Hco|?]; [|done].
      exfalso. specialize (Hall start ltac:(lia)).
      apply Exists_cons in Hall as [?|Hl]; [lia|].
      apply Exists_exists in Hl as (d & Hd & ?). rewrite Forall_forall in Hf.
      specialize (Hf d Hd). unfold before, range_ok in *. lia.
Qed.

(** ** Insertion *)

(** The position of [start..end_] in a normal table: the ranges that end
    before it, those that touch it, those that begin after it. *)
Lemma merge_range_split ranges start end_ :
  normal ranges -> 0 <= start <= end_ -> end_ <= u64_max ->
  exists A T C, ranges = A ++ T ++ C
    /\ partition_point (fun r => saturating_add r.2 1 <? start) ranges = length A
    /\ partition_point (fun r => r.1 <=? saturating_add end_ 1) ranges = length (A ++ T)
    /\ Forall (fun r => r.2 + 1 < start) A
    /\ Forall (fun r => start <= r.2 + 1 /\ r.1 <= end_ + 1) T
    /\ Forall (fun r => end_ + 1 < r.1) C.
Proof.
  intros [Hok Hs] Hse He.
  set (p := fun r : Z * Z => saturating_add r.2 1 <? start).
  set (q := fun r : Z * Z => r.1 <=? saturating_add end_ 1).
  assert (Hp : forall r, range_ok r -> p r = true <-> r.2 + 1 < start).
  { intros r [??]. unfold p, saturating_add. rewrite Z.ltb_lt. lia. }
  assert (Hq : forall r, range_ok r -> q r = true <-> r.1 <= end_ + 1).
  { intros r [??]. unfold q, saturating_add. rewrite Z.leb_le. lia. }
  assert (Hle : (partition_point p ranges <= partition_point q ranges)%nat).
  { apply partition_point_mono. eapply Forall_impl; [exact Hok|].
    intros r Hr. rewrite Hp, Hq by done. unfold range_ok in Hr. lia. }
  pose proof (partition_point_le q ranges) as Hlq.
  pose proof (partition_point_take p ranges) as Htp.
  pose proof (partition_point_take q ranges) as Htq.
  assert (Hdp : Forall (fun x => p x = false) (drop (partition_point p ranges) ranges)).
  { apply (partition_point_drop p range_ok before); [done..|].
    unfold p, range_ok, before, saturating_add. intros x y. rewrite !Z.ltb_ge. lia. }
  assert (Hdq : Forall (fun x => q x = false) (drop (partition_point q ranges) ranges)).
  { apply (partition_point_drop q range_ok before); [done..|].
    unfold q, range_ok, before, saturating_add. intros x y. rewrite !Z.leb_gt. lia. }
  set (i := partition_point p ranges) in *. set (j := partition_point q ranges) in *.
  exists (take i ranges), (drop i (take j ranges)), (drop j ranges).
  assert (Hsplit : take i ranges ++ drop i (take j ranges) = take j ranges).
  { rewrite <- (take_drop i (take j ranges)) at 2. by rewrite take_take, Nat.min_l by lia. }
  split_and!.
  - by rewrite app_assoc, Hsplit, take_drop.
  - rewrite length_take. lia.
  - rewrite Hsplit, length_take. lia.
  - apply Forall_forall. intros r Hr. rewrite Forall_forall in Htp, Hok.
    apply Hp; [apply Hok|auto]. rewrite <- (take_drop i ranges). apply elem_of_app. by left.
  - apply Forall_forall. intros r Hr.
    assert (Hr' : r ∈ take j ranges) by (rewrite <- Hsplit; apply elem_of_app; by right).
    assert (Hin : r ∈ ranges)
      by (rewrite <- (take_drop j ranges); apply elem_of_app; by left).
    assert (Hr'' : r ∈ drop i ranges).
    { rewrite <- (take_drop j ranges), drop_app_le by (rewrite length_take; lia).
      apply elem_of_app. by left. }
    rewrite Forall_forall in Htq, Hdp, Hok. specialize (Hok r Hin).
    pose proof (Htq r Hr') as H1%Hq; [|done].
    pose proof (Hdp r Hr'') as H2. apply not_true_iff_false in H2. rewrite Hp in H2 by done. lia.
  - apply Forall_forall. intros r Hr.
    assert (Hin : r ∈ ranges)
      by (rewrite <- (take_drop j ranges); apply elem_of_app; by right).
    rewrite Forall_forall in Hdq, Hok. pose proof (Hdq r Hr) as H2.
    apply not_true_iff_false in H2. rewrite Hq in H2 by auto. lia.
Qed.

Lemma fold_max_spec (l : list (Z * Z)) (e : Z) :
  e <= fold_left (fun w r => Z.max w r.2) l e
  /\ Forall (fun r => r.2 <= fold_left (fun w r => Z.max w r.2) l e) l
  /\ (fold_left (fun w r => Z.max w r.2) l e = e
      \/ Exists (fun r => r.2 = fold_left (fun w r => Z.max w r.2) l e) l).
Proof.
  revert e; induction l as [|r l IH]; intros e; simpl; [split_and!; auto; lia|].
  destruct (IH (Z.max e r.2)) as (H1 & H2 & H3). split_and!; [lia|constructor; [lia|done]|].
  destruct H3 as [H3|H3]; [|right; apply Exists_cons; by right].
  destruct (Z.max_spec e r.2) as [[? Hm]|[? Hm]]; rewrite Hm in *; [right; apply Exists_cons; left; congruence|by left].
Qed.

(** The range that replaces the touched ones. *)
Definition hull (T : list (Z * Z)) (start end_ : Z) : Z * Z :=
  match T with
  | t0 :: _ => (Z.min t0.1 start, fold_left (fun w r => Z.max w r.2) T end_)
  | [] => (start, end_)
  end.

Lemma merge_range_eq A T C start end_ :
  partition_point (fun r => saturating_add r.2 1 <? start) (A ++ T ++ C) = length A ->
  partition_point (fun r => r.1 <=? saturating_add end_ 1) (A ++ T ++ C) = length (A ++ T) ->
  merge_range (A ++ T ++ C) start end_ = A ++ hull T start end_ :: C.
Proof.
  intros H1 H2. unfold merge_range. rewrite H1, H2. unfold splice_one.
  replace (drop (length A) (take (length (A ++ T)) (A ++ T ++ C))) with T.
  2:{ rewrite app_assoc, take_app_length, drop_app_length. done. }
  rewrite take_app_length. rewrite (app_assoc A T C), drop_app_length.
  unfold hull. by destruct T.
Qed.

Lemma hull_spec T start end_ :
  normal T -> 0 <= start <= end_ -> end_ <= u64_max ->
  Forall (fun r => start <= r.2 + 1 /\ r.1 <= end_ + 1) T ->
  range_ok (hull T start end_)
  /\ (forall o, in_range_pair (hull T start end_) o <-> start <= o <= end_ \/ has_offset T o)
  /\ ((hull T start end_).1 = start \/ Exists (fun r => (hull T start end_).1 = r.1) T)
  /\ ((hull T start end_).2 = end_ \/ Exists (fun r => (hull T start end_).2 = r.2) T).
Proof.
  intros HT Hse He Ht. destruct T as [|t0 T].
  { unfold range_ok, has_offset, in_range_pair. simpl. split_and!; auto; try lia.
    intros o. rewrite Exists_nil. tauto. }
  unfold hull. destruct (fold_max_spec (t0 :: T) end_) as (F1 & F2 & F3).
  set (m := fold_left _ _ _) in *.
  apply normal_cons in HT as (Hok0 & Hb & HT). destruct HT as [HokT HsT].
  apply Forall_cons in Ht as [Ht0 Ht]. apply Forall_cons in F2 as [F20 F2].
  rewrite Forall_forall in HokT, Ht, F2, Hb.
  assert (Hm : m <= u64_max).
  { destruct F3 as [->|F3]; [done|]. apply Exists_exists in F3 as (r & Hr & Hrm).
    apply elem_of_cons in Hr as [->|Hr]; [destruct Hok0; lia|].
    specialize (HokT r Hr). destruct HokT; lia. }
  unfold range_ok, in_range_pair, has_offset in *. simpl. split_and!; try lia.
  - intros o. rewrite Exists_cons, Exists_exists. split.
    + intros Ho. destruct (decide (start <= o <= end_)) as [|Hn]; [by left|right].
      destruct (decide (t0.1 <= o <= t0.2)) as [|Hn0]; [by left|right].
      destruct F3 as [Hme|F3]; [lia|]. apply Exists_exists in F3 as (r & Hr & Hrm).
      apply elem_of_cons in Hr as [->|Hr]; [lia|]. exists r. split; [done|].
      specialize (Ht r Hr). simpl in *. unfold in_range_pair. lia.
    + unfold in_range_pair. intros [Ho|[Ho|(r & Hr & Ho)]]; [lia|lia|].
      specialize (F2 r Hr). specialize (Hb r Hr). simpl in F2. unfold before, in_range_pair in *. lia.
  - destruct (Z.min_spec t0.1 start) as [[_ ->]|[_ ->]]; [right; by left|by left].
  - destruct F3 as [->|F3]; [by left|right]. eapply Exists_impl; [exact F3|]. simpl. auto.
Qed.

Lemma merge_range_spec ranges start end_ :
  normal ranges -> 0 <= start <= end_ -> end_ <= u64_max ->
  normal (merge_range ranges start end_)
  /\ forall o, has_offset (merge_range ranges start end_) o
               <-> has_offset ranges o \/ start <= o <= end_.
Proof.
  intros Hn Hse He.
  destruct (merge_range_split ranges start end_ Hn Hse He) as (A & T & C & -> & H1 & H2 & HA & HT & HC).
  rewrite merge_range_eq by done.
  apply normal_app in Hn as (HnA & HnTC & HATC). apply normal_app in HnTC as (HnT & HnC & HTC).
  destruct (hull_spec T start end_ HnT Hse He HT) as (Hok & Hden & Hlo & Hhi).
  set (h := hull T start end_) in *. split.
  - apply normal_app. split; [done|]. rewrite Forall_forall in HA, HC, HATC, HTC.
    assert (HhC : Forall (before h) C).
    { apply Forall_forall. intros c Hc. unfold before. destruct Hhi as [->|Hhi]; [auto|].
      apply Exists_exists in Hhi as (t & Ht & ->). specialize (HTC t Ht).
      rewrite Forall_forall in HTC. by apply HTC. }
    split; [apply normal_cons; done|].
    apply Forall_forall. intros a Ha. specialize (HATC a Ha). rewrite Forall_forall in HATC.
    apply Forall_cons. split.
    + unfold before. destruct Hlo as [->|Hlo]; [auto|].
      apply Exists_exists in Hlo as (t & Ht & ->). apply HATC, elem_of_app. by left.
    + apply Forall_forall. intros c Hc. apply HATC, elem_of_app. by right.
  - intros o. unfold has_offset. rewrite !Exists_app, Exists_cons. fold (has_offset T o).
    rewrite Hden. tauto.
Qed.

(** ** Validation *)

Definition u64_pair (r : Z * Z) : Prop := is_u64 r.1 /\ is_u64 r.2.

Lemma ranges_valid_spec size prev l :
  is_u64 size -> Forall u64_pair l -> (forall p, prev = Some p -> 0 <= p < size) ->
  ranges_valid size prev l = true <->
  normal l /\ Forall (fun r => r.2 < size) l
  /\ (forall p, prev = Some p -> Forall (fun r => p + 1 < r.1) l).
Proof.
  intros Hsz Hl. revert prev; induction Hl as [|[s e] l [Hs He] Hl IH]; intros prev Hp; simpl.
  { split; [intros _|done]. split_and!; [apply normal_nil|constructor|constructor]. }
  unfold is_u64 in *. simpl in *.
  rewrite normal_cons, Forall_cons. unfold range_ok, before. simpl.
  destruct (Z.ltb_spec e s); simpl; [split; [done|lia]|].
  destruct (Z.leb_spec size e); simpl; [split; [done|lia]|].
  assert (Hprev : match prev with Some p => s <=? saturating_add p 1 | None => false end = false
                  <-> forall p, prev = Some p -> p + 1 < s).
  { destruct prev as [p|]; [|naive_solver]. specialize (Hp p eq_refl).
    unfold saturating_add. rewrite Z.leb_gt. split; [|naive_solver lia].
    intros ? ? [= <-]. lia. }
  assert (Htail : forall p, prev = Some p -> Forall (fun r => p + 1 < r.1) ((s, e) :: l)
                    <-> p + 1 < s /\ Forall (fun r => p + 1 < r.1) l)
    by (intros; by rewrite Forall_cons).
  destruct (match prev with Some p => _ | None => false end).
  - split; [done|]. intros (_ & _ & Hx). exfalso.
    enough (true = false) by done. apply Hprev. intros p Hpp. by apply (Htail p Hpp), Hx.
  - rewrite IH by (intros ? [= <-]; lia). destruct Hprev as [Hprev _].
    specialize (Hprev eq_refl). split.
    + intros (Hn & Hf & Hx). specialize (Hx e eq_refl). split_and!; auto; try lia.
      intros p Hpp. apply Htail; [done|]. split; [auto|]. specialize (Hprev p Hpp).
      eapply Forall_impl; [exact Hx|]. simpl. intros; lia.
    + intros ((_ & Hb & Hn) & [_ Hf] & _). split_and!; [done..|]. intros p [= <-]. done.
Qed.

(** A metadata record whose fields are in range. *)
Definition metadata_typed (m : RangeMetadata) : Prop :=
  0 <= version m /\ Forall u64_pair (completed m)
  /\ (forall t, total_size m = Some t -> is_u64 t).

Lemma metadata_is_valid_spec m k file_size :
  metadata_typed m -> (forall size, file_size = Some size -> is_u64 size) ->
  metadata_is_valid m k file_size = true <->
  version m <= RANGE_METADATA_VERSION /\ key m = Some k
  /\ match file_size with
     | None => completed m = []
     | Some size =>
         (forall total, total_size m = Some total -> size <= total)
         /\ normal (completed m) /\ Forall (fun r => r.2 < size) (completed m)
     end.
Proof.
  intros (_ & Hc & _) Hf. unfold metadata_is_valid.
  destruct (Z.ltb_spec RANGE_METADATA_VERSION (version m)); simpl; [split; [done|lia]|].
  destruct (bool_decide (key m = Some k)) eqn:Ek; simpl;
    [apply bool_decide_eq_true in Ek | apply bool_decide_eq_false in Ek; naive_solver].
  destruct file_size as [size|].
  - assert (Ht : match total_size m with Some total => total <? size | None => false end = false
                 <-> forall total, total_size m = Some total -> size <= total).
    { destruct (total_size m) as [t|]; [|naive_solver]. rewrite Z.ltb_ge. naive_solver. }
    destruct (match total_size m with Some _ => _ | None => false end).
    { split; [done|]. intros (_ & _ & Hx & _). by apply Ht in Hx. }
    rewrite ranges_valid_spec by (auto || done). split.
    + intros (? & ? & _). split_and!; try done. by apply Ht.
    + intros (_ & _ & _ & ? & ?). split_and!; done.
  - destruct (total_size m); rewrite bool_decide_eq_true; naive_solver.
Qed.

Module RangeTableTheorems.
(** C12: inserting a completed range into a table in normal form gives a
    table in normal form (sorted, disjoint, adjacent ranges joined) that
    denotes exactly the union of the old offsets and the new range; and the
    two binary searches give an ordered pair of positions, so that the
    splice never panics. *)
Theorem merge_range_correct (ranges : list (Z * Z)) (start end_ : Z) :
  normal ranges -> 0 <= start <= end_ -> end_ <= u64_max ->
  normal (merge_range ranges start end_)
  /\ (forall o, has_offset (merge_range ranges start end_) o
                <-> has_offset ranges o \/ start <= o <= end_)
  /\ (partition_point (fun r => saturating_add r.2 1 <? start)%Z ranges
      <= partition_point (fun r => r.1 <=? saturating_add end_ 1)%Z ranges
      <= length ranges)%nat.
Proof.
  intros Hn Hse He. destruct (merge_range_spec ranges start end_ Hn Hse He) as [H1 H2].
  split_and!; [done|done| |].
  - destruct (merge_range_split ranges start end_ Hn Hse He)
      as (A & T & C & _ & -> & -> & _). rewrite length_app. lia.
  - apply partition_point_le.
Qed.

Lemma merge_range_correct_witness :
  normal [(0, 9); (20, 29)]
  /\ merge_range [(0, 9); (20, 29)] 10 25 = [(0, 29)]
  /\ normal (merge_range [(0, 9); (20, 29)] 10 25).
Proof.
  assert (Hn : normal [(0, 9); (20, 29)]).
  { split; repeat constructor; simpl; lia. }
  split; [exact Hn|]. split; [reflexivity|].
  apply (merge_range_correct [(0, 9); (20, 29)] 10 25); [exact Hn|lia|lia].
Defined.

(** On a table in normal form the test that looks for one stored range
    containing the requested one succeeds exactly when every requested
    offset is stored: no complete range is missed and none is invented. *)
Theorem covers_correct (ranges : list (Z * Z)) (start end_ : Z) :
  normal ranges -> start <= end_ ->
  covers ranges start end_ = true <-> (forall o, start <= o <= end_ -> has_offset ranges o).
Proof. apply covers_spec. Qed.

Lemma covers_correct_witness :
  covers [(0, 9); (20, 29)] 2 7 = true /\ has_offset [(0, 9); (20, 29)] 5.
Proof.
  split; [reflexivity|].
  apply (covers_correct [(0, 9); (20, 29)] 2 7); [|lia|reflexivity|lia].
  split; repeat constructor; simpl; lia.
Defined.

(** Metadata read from disk is accepted for a key exactly when it is of
    a known version, carries that key, its table is in normal form and lies
    inside the data file, and the file is not longer than the known total
    (with no data file: when the table is empty). *)
Theorem metadata_is_valid_correct (m : RangeMetadata) (k : text) (file_size : option Z) :
  metadata_typed m -> (forall size, file_size = Some size -> is_u64 size) ->
  metadata_is_valid m k file_size = true <->
  version m <= RANGE_METADATA_VERSION /\ key m = Some k
  /\ match file_size with
     | None => completed m = []
     | Some size =>
         (forall total, total_size m = Some total -> size <= total)
         /\ normal (completed m) /\ Forall (fun r => r.2 < size) (completed m)
     end.
Proof. apply metadata_is_valid_spec. Qed.

Lemma metadata_is_valid_correct_witness :
  normal (completed (mk_RangeMetadata 1 [(0, 3); (5, 6)] (Some []) (Some 10) None)).
Proof.
  assert (Ht : metadata_typed (mk_RangeMetadata 1 [(0, 3); (5, 6)] (Some []) (Some 10) None)).
  { split_and!; [simpl; lia | repeat constructor; simpl; lia
                | intros t [= <-]; unfold is_u64; lia]. }
  apply (metadata_is_valid_correct (mk_RangeMetadata 1 [(0, 3); (5, 6)] (Some []) (Some 10) None)
           [] (Some 7)); [exact Ht | intros s [= <-]; unfold is_u64; lia | reflexivity].
Defined.
End RangeTableTheorems.
