(* ===== verification/FileSystem.v ===== *)
(** * The file system under the cache

    A small POSIX file system: directories, names, inodes (an open handle
    survives the removal or replacement of its name) and a script of faults.
    Every call of [tokio::fs] the sources make is one operation; each takes
    the next entry of the fault script, so that a theorem about every script
    covers every combination of failing and short calls, and a crash at any
    call (all later ones fail). *)

From Stdlib Require Import Strings.Byte Strings.String.
From S2P Require Import Prelude Bytes.

(** A path is the list of its components. *)
Definition path : Type := list text.

Definition parent (p : path) : path := removelast p.
Definition file_name (p : path) : text := List.last p [].

(** [Path::with_extension] on a file name: what follows the last dot, if the
    dot is not the first character, is replaced. *)
Definition file_stem (name : text) : text :=
  match split_once x2e (reverse name) with
  | Some (_, before_rev) => if decide (before_rev = []) then name else reverse before_rev
  | None => name
  end.
Definition name_with_extension (name ext : text) : text :=
  match ext with
  | [] => file_stem name
  | _ => file_stem name ++ str "." ++ ext
  end.
Definition with_extension (p : path) (ext : text) : path :=
  parent p ++ [name_with_extension (file_name p) ext].

(** [io::Error]: its kind, as far as the sources test it, and its text. *)
Record ioerr : Type := mk_ioerr { is_not_found : bool; io_text : text }.
Definition not_found : ioerr := mk_ioerr true (str "No such file or directory (os error 2)").
Definition invalid_argument : ioerr := mk_ioerr false (str "Invalid argument (os error 22)").

(** What the next call does: succeed; transfer at most [n] bytes (reads);
    fail with a text, a write having transferred [n] bytes before. *)
Inductive fault : Type := Good | Short (n : nat) | Bad (msg : text) (n : nat).

Record fs : Type := mk_fs {
  names : gmap path nat;
  inodes : gmap nat (list byte);
  next_ino : nat;
  dirs : gset path;
  faults : list fault;
}.

Definition set_names f (s : fs) := mk_fs (f (names s)) (inodes s) (next_ino s) (dirs s) (faults s).
Definition set_inodes f (s : fs) := mk_fs (names s) (f (inodes s)) (next_ino s) (dirs s) (faults s).
Definition set_dirs f (s : fs) := mk_fs (names s) (inodes s) (next_ino s) (f (dirs s)) (faults s).
Definition set_faults f (s : fs) := mk_fs (names s) (inodes s) (next_ino s) (dirs s) (f (faults s)).
Definition alloc (p : path) (content : list byte) (s : fs) : fs :=
  mk_fs (<[p := next_ino s]> (names s)) (<[next_ino s := content]> (inodes s))
    (S (next_ino s)) (dirs s) (faults s).

Abbreviation FS := (io fs ioerr).

Definition next_fault (s : fs) : fault := List.hd Good (faults s).
Definition pop (s : fs) : fs := set_faults (@List.tl fault) s.

(** A call that fails as a whole. *)
Definition syscall {A} (body : FS A) : FS A := fun s =>
  match next_fault s with
  | Bad msg _ => (Err (mk_ioerr false msg), pop s)
  | _ => body (pop s)
  end.

(** The content of a file written at [pos]; a gap is filled with zeros. *)
Definition pad (c : list byte) (n : nat) : list byte := c ++ replicate (n - length c) x00.
Definition overwrite (c : list byte) (pos : nat) (b : list byte) : list byte :=
  match b with
  | [] => c
  | _ => take pos (pad c pos) ++ b ++ drop (pos + length b) c
  end.

Definition fs_read (p : path) : FS (list byte) := syscall (fun s =>
  match names s !! p ≫= fun i => inodes s !! i with
  | Some c => (Ok c, s)
  | None => (Err not_found, s)
  end).

(** [fs::write]: create or truncate, then write.  A failing call may have
    left nothing, or a prefix of the content, behind. *)
Definition put_file (p : path) (content : list byte) (s : fs) : fs :=
  match names s !! p with
  | Some i => set_inodes <[i := content]> s
  | None => alloc p content s
  end.
Definition fs_write (p : path) (content : list byte) : FS unit := fun s =>
  match next_fault s with
  | Bad msg O => (Err (mk_ioerr false msg), pop s)
  | Bad msg (S n) =>
      (Err (mk_ioerr false msg),
       if decide (parent p ∈ dirs s) then put_file p (take n content) (pop s) else pop s)
  | _ =>
      if decide (parent p ∈ dirs s) then (Ok tt, put_file p content (pop s))
      else (Err not_found, pop s)
  end.

Definition fs_rename (src dst : path) : FS unit := syscall (fun s =>
  match names s !! src with
  | Some i => (Ok tt, set_names (fun n => <[dst := i]> (delete src n)) s)
  | None => (Err not_found, s)
  end).

Definition fs_remove (p : path) : FS unit := syscall (fun s =>
  match names s !! p with
  | Some _ => (Ok tt, set_names (delete p) s)
  | None => (Err not_found, s)
  end).

(** [fs::metadata]: the length of a file. *)
Definition fs_stat (p : path) : FS Z := syscall (fun s =>
  match names s !! p ≫= fun i => inodes s !! i with
  | Some c => (Ok (Z.of_nat (length c)), s)
  | None => (Err not_found, s)
  end).

(** All the directories on the way to [p], [p] included. *)
Definition ancestors (p : path) : gset path :=
  list_to_set (map (fun n => take n p) (seq 0 (S (length p)))).
Definition fs_create_dir_all (p : path) : FS unit := syscall (fun s =>
  (Ok tt, set_dirs (union (ancestors p)) s)).

(** [OpenOptions .. .create(true).truncate(false)]: the handle is the inode. *)
Definition fs_open_create (p : path) : FS nat := syscall (fun s =>
  match names s !! p with
  | Some i => (Ok i, s)
  | None =>
      if decide (parent p ∈ dirs s) then (Ok (next_ino s), alloc p [] s)
      else (Err not_found, s)
  end).
Definition fs_open (p : path) : FS nat := syscall (fun s =>
  match names s !! p with
  | Some i => (Ok i, s)
  | None => (Err not_found, s)
  end).

Definition fs_fstat (i : nat) : FS Z := syscall (fun s =>
  match inodes s !! i with
  | Some c => (Ok (Z.of_nat (length c)), s)
  | None => (Err not_found, s)
  end).

(** [seek(SeekFrom::Start(n))]: an offset beyond [i64::MAX] is refused. *)
Definition fs_seek (n : Z) : FS unit := syscall (fun s =>
  if i64_max <? n then (Err invalid_argument, s) else (Ok tt, s)).

Definition fs_sync : FS unit := syscall (fun s => (Ok tt, s)).

(** Write all of [b] at [pos]; a failure may leave a prefix. *)
Definition fs_pwrite (i pos : nat) (b : list byte) : FS unit := fun s =>
  let write b s := set_inodes (alter (fun c => overwrite c pos b) i) s in
  match next_fault s with
  | Bad msg n => (Err (mk_ioerr false msg), write (take n b) (pop s))
  | _ => (Ok tt, write b (pop s))
  end.

(** Read at most [n] bytes at [pos]: at least one unless at the end. *)
Definition fs_pread (i pos n : nat) : FS (list byte) := syscall (fun s =>
  let avail := take n (drop pos (default [] (inodes s !! i))) in
  (Ok avail, s)).
Definition fs_pread_short (i pos n : nat) : FS (list byte) := fun s =>
  match next_fault s with
  | Short k => fs_pread i pos (Nat.min n (S k)) s
  | _ => fs_pread i pos n s
  end.

(** [read_dir]: the entries below [p], with whether each is a directory. *)
Definition children (p : path) (q : path) : option text :=
  match List.rev q with
  | n :: rest => if decide (List.rev rest = p) then Some n else None
  | [] => None
  end.
Definition entries_of (s : fs) (p : path) : list (text * bool) :=
  omap (fun q => n ← children p q; Some (n, true)) (elements (dirs s))
  ++ omap (fun qi => n ← children p qi.1; Some (n, false)) (map_to_list (names s)).
Definition fs_read_dir (p : path) : FS (list (text * bool)) := syscall (fun s =>
  if decide (p ∈ dirs s) then (Ok (entries_of s p), s) else (Err not_found, s)).

(** [next_entry] and [file_type]: calls that may fail. *)
Definition fs_touch : FS unit := syscall (fun s => (Ok tt, s)).

(** The order in which a directory is listed is unspecified. *)
Class DirOrder : Type := dir_order : list (text * bool) -> list (text * bool).
Class DirOrderLaws `{DirOrder} : Prop := { dir_order_perm l : dir_order l ≡ₚ l }.

(** ** Lemmas *)

Lemma length_pad c n : length (pad c n) = Nat.max (length c) n.
Proof. unfold pad. rewrite length_app, length_replicate. lia. Qed.

Lemma overwrite_nil c pos : overwrite c pos [] = c.
Proof. done. Qed.

Lemma length_overwrite c pos b :
  b <> [] -> length (overwrite c pos b) = Nat.max (length c) (pos + length b).
Proof.
  intros Hb. destruct b as [|x b]; [done|]. unfold overwrite.
  rewrite !length_app, length_take, length_pad, length_drop. simpl. lia.
Qed.

(** Inside the written block the new bytes, elsewhere the old ones. *)
Lemma overwrite_lookup_in c pos b i :
  (pos <= i < pos + length b)%nat -> overwrite c pos b !! i = b !! (i - pos)%nat.
Proof.
  intros Hi. destruct b as [|x b]; [simpl in Hi; lia|]. unfold overwrite.
  assert (Hl : length (take pos (pad c pos)) = pos) by (rewrite length_take, length_pad; lia).
  rewrite lookup_app_r by lia. rewrite Hl. rewrite lookup_app_l by lia. done.
Qed.

Lemma overwrite_lookup_out c pos b i x :
  ~ (pos <= i < pos + length b)%nat -> c !! i = Some x -> overwrite c pos b !! i = Some x.
Proof.
  intros Hi Hx. destruct b as [|y b]; [done|]. unfold overwrite.
  pose proof (lookup_lt_Some _ _ _ Hx) as Hlt.
  assert (Hl : length (take pos (pad c pos)) = pos) by (rewrite length_take, length_pad; lia).
  destruct (decide (i < pos)%nat).
  - rewrite lookup_app_l by lia. rewrite lookup_take_lt by lia.
    unfold pad. by rewrite lookup_app_l.
  - rewrite lookup_app_r by lia. rewrite Hl. rewrite lookup_app_r by lia.
    rewrite lookup_drop. replace (_ + _)%nat with i by lia. done.
Qed.

(** * Paths from texts ([std::path], on Unix)

    [PathBuf::from] of a text, as the list of components that [FileSystem]
    works with: an absolute path starts with the root, empty components and
    dots in the middle are dropped, and a leading dot is kept.  Joining with a
    relative path appends. *)

Definition ROOT : text := str "/".

Definition kept_component (c : text) : bool :=
  negb (bool_decide (c = []) || bool_decide (c = str ".")).

Definition path_of (s : text) : path :=
  match s with
  | x2f :: rest => ROOT :: List.filter kept_component (split x2f rest)
  | _ =>
      match split x2f s with
      | c :: cs =>
          (if bool_decide (c = str ".") then [c] else List.filter kept_component [c])
          ++ List.filter kept_component cs
      | [] => []
      end
  end.

(** [Path::is_absolute]. *)
Definition is_absolute (p : path) : bool := bool_decide (List.hd [] p = ROOT).

(** A path is absolute exactly when its text starts with a slash. *)
Lemma is_absolute_iff s : is_absolute (path_of s) = true <-> List.hd_error s = Some x2f.
Proof.
  unfold is_absolute. rewrite bool_decide_eq_true. split.
  - destruct s as [|b s]; [done|]. destruct (decide (b = x2f)) as [->|Hb]; [done|].
    assert (E : path_of (b :: s) = match split x2f (b :: s) with
              | c :: cs => (if bool_decide (c = str ".") then [c] else List.filter kept_component [c])
                           ++ List.filter kept_component cs
              | [] => [] end) by (by destruct b).
    rewrite E. clear E. pose proof (split_pieces x2f (b :: s)) as Hp.
    destruct (split x2f (b :: s)) as [|c cs]; [done|]. intros Hr. exfalso.
    assert (Hin : ROOT ∈ c :: cs).
    { case_bool_decide as Hd; [subst c; done|]. simpl in Hr. destruct (kept_component c).
      - simpl in Hr. subst c. constructor.
      - constructor. destruct (List.filter kept_component cs) as [|d ds] eqn:Ef; [done|].
        simpl in Hr. subst d. apply list_elem_of_In, (List.filter_In kept_component).
        rewrite Ef. by left. }
    rewrite Forall_forall in Hp. apply (Hp ROOT Hin). vm_compute. by constructor.
  - destruct s as [|b s]; [done|]. intros [= ->]. done.
Qed.
