(* ===== verification/Digest.v ===== *)
(** * Digests ([utils/digest.rs])

    The hexadecimal form of a SHA-256 digest and its first byte, over the
    digest function of the [sha2] crate. *)

From Stdlib Require Import Strings.Byte.
From S2P Require Import Prelude Bytes External.

Definition HEX_lower (d : Z) : byte := hex_digit 97 d.

Definition hex_of_byte (b : byte) : text :=
  [HEX_lower (Z.shiftr (b2z b) 4); HEX_lower (Z.land (b2z b) 15)].

Definition sha256_hex `{Sha256} (input : list byte) : text :=
  mjoin (map hex_of_byte (sha256 input)).

Definition sha256_first_byte `{Sha256} (input : list byte) : Z :=
  match sha256 input with b :: _ => b2z b | [] => 0 end.

(** The value of a lower-case hexadecimal digit. *)
Definition unhex (d : byte) : Z := if b2z d <=? 57 then b2z d - 48 else b2z d - 87.

Lemma hex_of_byte_inj a b : hex_of_byte a = hex_of_byte b -> a = b.
Proof.
  assert (H : forall c, z2b (16 * unhex (HEX_lower (Z.shiftr (b2z c) 4))
                             + unhex (HEX_lower (Z.land (b2z c) 15))) = c)
    by (intros c; destruct c; vm_compute; reflexivity).
  intros E. rewrite <- (H a), <- (H b). injection E as -> ->. done.
Qed.

Lemma hex_join_inj l1 l2 :
  mjoin (map hex_of_byte l1) = mjoin (map hex_of_byte l2) -> l1 = l2.
Proof.
  revert l2; induction l1 as [|a l1 IH]; intros [|b l2] E; try done.
  cbn [map mjoin list_join] in E. apply (app_inj_1 (hex_of_byte a) (hex_of_byte b)) in E as [E1 E2].
  - apply hex_of_byte_inj in E1 as ->. f_equal. by apply IH.
  - done.
Qed.

(** Two inputs with the same hexadecimal digest have the same digest. *)
Lemma sha256_hex_inj `{Sha256} a b : sha256_hex a = sha256_hex b -> sha256 a = sha256 b.
Proof. apply hex_join_inj. Qed.

(** Every character of the digest is a lower-case hexadecimal digit. *)
Lemma sha256_hex_chars `{Sha256} a c :
  c ∈ sha256_hex a -> in_range 48 57 c || in_range 97 102 c = true.
Proof.
  unfold sha256_hex. induction (sha256 a) as [|b l IH]; simpl.
  - by intros ?%not_elem_of_nil.
  - rewrite !elem_of_cons. intros [->|[->|Hc]]; [| |auto]; destruct b; vm_compute; reflexivity.
Qed.

Lemma sha256_hex_no_dot `{Sha256} a : x2e ∉ sha256_hex a.
Proof. intros Hc%sha256_hex_chars. discriminate. Qed.

Lemma sha256_hex_length `{Sha256Laws} a : length (sha256_hex a) = 64%nat.
Proof.
  unfold sha256_hex. pose proof (sha256_length a) as Hl. revert Hl.
  generalize (sha256 a). intros l Hl.
  assert (Hx : length (mjoin (map hex_of_byte l)) = (2 * length l)%nat).
  { clear Hl. induction l as [|b l IH]; simpl; [done|]. rewrite IH. simpl. lia. }
  rewrite Hx. lia.
Qed.
