(* ===== verification/Storage.v ===== *)
(** * The storage interface ([storage/mod.rs])

    The trait [StorageEngine] as a class over the engine's state: a client
    (the manager) is written against it, the disk engine is an instance. *)

From S2P Require Import Prelude Bytes Error Range.

(** A body stream that ends: the items it yields, in order. *)
Definition stream : Type := list (Result (list byte)).

Record StorageConfig : Type := mk_StorageConfig {
  root_path : list text;
  chunk_size : Z;
}.

Record UpstreamMeta : Type := mk_UpstreamMeta {
  um_total_size : option Z;
  um_content_type : option text;
}.
#[export] Instance UpstreamMeta_eq_dec : EqDecision UpstreamMeta.
Proof. solve_decision. Defined.

Definition upstream_meta_default : UpstreamMeta := mk_UpstreamMeta None None.

Definition is_empty (m : UpstreamMeta) : bool :=
  bool_decide (um_total_size m = None) && bool_decide (um_content_type m = None).

(** [S] is the state of the engine, [R] the state of a read stream. *)
Class StorageEngine (S R : Type) : Type := {
  se_write : text -> stream -> Z * Z -> io S ProxyError.t Z;
  se_read : text -> Z * Z -> io S ProxyError.t R;
  se_next : R -> io S ProxyError.t (option (list byte * R));
  se_get_size : text -> io S ProxyError.t (option Z);
  se_check_range : text -> Z * Z -> io S ProxyError.t bool;
  se_delete : text -> io S ProxyError.t unit;
  se_record_upstream_meta : text -> UpstreamMeta -> io S ProxyError.t unit;
  se_upstream_meta : text -> io S ProxyError.t UpstreamMeta;
  se_enumerate : io S ProxyError.t (list (text * Z));
}.

(** The bytes a stream yields before its first error or its end. *)
Fixpoint stream_bytes (s : stream) : list byte :=
  match s with
  | Ok b :: s' => b ++ stream_bytes s'
  | _ => []
  end.

(** The error that ends a stream, if one does. *)
Fixpoint stream_error (s : stream) : option ProxyError.t :=
  match s with
  | [] => None
  | Ok _ :: s' => stream_error s'
  | Err e :: _ => Some e
  end.

(** ** Resources

    [content k] stands for the bytes of the upstream resource of the key
    [k]. *)

(** [b] is what the resource of [k] holds from [pos] on. *)
Definition honest_at (content : text -> list byte) (k : text) (pos : nat) (b : list byte) : Prop :=
  forall j x, b !! j = Some x -> content k !! (pos + j)%nat = Some x.

(** The bytes [start .. start + n) of the resource. *)
Definition slice (content : text -> list byte) (k : text) (start n : Z) : list byte :=
  take (Z.to_nat n) (drop (Z.to_nat start) (content k)).

Lemma slice_app content k a n m :
  0 <= a -> 0 <= n -> 0 <= m ->
  slice content k a (n + m) = slice content k a n ++ slice content k (a + n) m.
Proof.
  intros Ha Hn Hm. unfold slice. rewrite Z2Nat.inj_add by lia.
  rewrite (Z2Nat.inj_add a n) by lia. rewrite <- drop_drop.
  rewrite <- (take_drop (Z.to_nat n) (take (Z.to_nat n + Z.to_nat m) _)).
  rewrite take_take, Nat.min_l by lia. f_equal.
  rewrite skipn_firstn_comm. f_equal. lia.
Qed.

(** * What a storage engine promises

    The contract between the storage engine and its clients (the manager, the
    cache handler and the request pipeline): an invariant, an extension order
    that says what may happen underneath an open read stream, and what each
    operation guarantees in terms of the upstream resources.  The clients'
    theorems are proved against this class; the disk engine implements it
    ([EndToEnd]). *)

Class EngineSpec {S R} (engine : StorageEngine S R)
    (content : text -> list byte) (InUse : text -> Prop) : Type := {
  (** Everything recorded as cached is the resource's. *)
  es_inv : S -> Prop;
  es_ext : S -> S -> Prop;
  es_ext_preorder :: PreOrder es_ext;
  (** [es_reading s k start total done rd]: the stream [rd] serves [total]
      bytes of [k] from [start] on and has handed out [done] of them. *)
  es_reading : S -> text -> Z -> Z -> Z -> R -> Prop;
  es_reading_bounds s k start total done rd :
    es_reading s k start total done rd ->
    0 <= start /\ 0 <= done <= total /\ start + total <= Z.of_nat (length (content k));
  es_reading_ext s s' k start total done rd :
    InUse k -> es_ext s s' -> es_reading s k start total done rd ->
    es_reading s' k start total done rd;
  es_write k st range s r s' :
    InUse k -> es_inv s -> 0 <= range.1 ->
    honest_at content k (Z.to_nat range.1) (stream_bytes st) ->
    se_write k st range s = (r, s') ->
    es_inv s' /\ es_ext s s'
    /\ forall n, r = Ok n -> n = Z.of_nat (length (stream_bytes st));
  es_read k range s r s' :
    InUse k -> es_inv s -> 0 <= range.1 -> se_read k range s = (r, s') ->
    es_inv s' /\ es_ext s s'
    /\ forall rd, r = Ok rd -> exists total,
         es_reading s' k range.1 total 0 rd /\ 0 < total
         /\ (range.2 <> OPEN_ENDED -> total = range.2 - range.1 + 1);
  es_next k start total done rd s r s' :
    InUse k -> es_inv s -> es_reading s k start total done rd -> se_next rd s = (r, s') ->
    es_inv s' /\ es_ext s s'
    /\ match r with
       | Ok None => done = total
       | Ok (Some (b, rd')) =>
           b <> [] /\ b = slice content k (start + done) (Z.of_nat (length b))
           /\ es_reading s' k start total (done + Z.of_nat (length b)) rd'
       | Err _ => True
       end;
  es_get_size k s r s' :
    InUse k -> es_inv s -> se_get_size k s = (r, s') -> es_inv s' /\ es_ext s s';
  es_check_range k range s r s' :
    InUse k -> es_inv s -> se_check_range k range s = (r, s') -> es_inv s' /\ es_ext s s';
  es_upstream_meta k s r s' :
    InUse k -> es_inv s -> se_upstream_meta k s = (r, s') ->
    es_inv s' /\ es_ext s s'
    /\ forall m t, r = Ok m -> um_total_size m = Some t -> t = Z.of_nat (length (content k));
  es_record_upstream_meta k m s r s' :
    InUse k -> es_inv s ->
    (forall t, um_total_size m = Some t -> t = Z.of_nat (length (content k))) ->
    se_record_upstream_meta k m s = (r, s') -> es_inv s' /\ es_ext s s';
  (** A removal that is reported as failed may have broken the entry. *)
  es_delete k s r s' :
    InUse k -> es_inv s -> se_delete k s = (r, s') ->
    es_ext s s' /\ (r = Ok tt -> es_inv s');
}.

(** Run a stream to its end or its first error. *)
Fixpoint drain_engine {S R} `{StorageEngine S R} (fuel : nat) (rd : R) :
    io S ProxyError.t (list byte) :=
  match fuel with
  | O => mret []
  | Datatypes.S fuel' =>
      o ← se_next rd;
      match o with
      | None => mret []
      | Some (b, rd') => rest ← drain_engine fuel' rd'; mret (b ++ rest)
      end
  end.

Section Drain.
Context {S R : Type} {engine : StorageEngine S R} {content : text -> list byte}
  {InUse : text -> Prop} {spec : EngineSpec engine content InUse}.

(** A stream that is run to its end hands out exactly the requested bytes:
    every chunk has at least one byte, so that [total] steps and one are
    enough. *)
Lemma drain_engine_correct fuel k start total done rd s r s' :
  InUse k -> es_inv s -> es_reading s k start total done rd ->
  total - done < Z.of_nat fuel -> drain_engine fuel rd s = (r, s') ->
  es_inv s' /\ es_ext s s'
  /\ forall out, r = Ok out -> out = slice content k (start + done) (total - done).
Proof.
  intros HU. revert rd done s r s'; induction fuel as [|fuel IH]; intros rd done s r s' Hi Hr Hf E.
  { apply es_reading_bounds in Hr. lia. }
  simpl in E. destruct (se_next rd s) as [o s1] eqn:En.
  pose proof (es_next _ _ _ _ _ _ _ _ HU Hi Hr En) as (I1 & X1 & Hn).
  destruct o as [[[b rd']|]|e].
  - destruct Hn as (Hb & Eb & Hr'). rewrite (io_bind_Ok _ _ _ _ _ En) in E.
    assert (Hl : (0 < length b)%nat) by (destruct b; [done|simpl; lia]).
    pose proof (es_reading_bounds _ _ _ _ _ _ Hr) as (? & ? & ?).
    pose proof (es_reading_bounds _ _ _ _ _ _ Hr') as (? & ? & ?).
    apply io_bind_inv in E as [(rest & s2 & E1 & E2)|(e & E1 & ->)].
    + destruct (IH _ _ _ _ _ I1 Hr' ltac:(lia) E1) as (I2 & X2 & Hout).
      injection E2 as <- <-. split_and!; [done|by etrans|]. intros out [= <-].
      rewrite (Hout rest eq_refl), Eb at 1.
      replace (total - done)
        with (Z.of_nat (length b) + (total - (done + Z.of_nat (length b)))) by lia.
      rewrite slice_app by lia. f_equal. f_equal; lia.
    + destruct (IH _ _ _ _ _ I1 Hr' ltac:(lia) E1) as (I2 & X2 & _).
      split_and!; [done|by etrans|done].
  - rewrite (io_bind_Ok _ _ _ _ _ En) in E. injection E as <- <-. subst done.
    split_and!; try done. intros out [= <-]. by rewrite Z.sub_diag.
  - rewrite (io_bind_Err _ _ _ _ _ En) in E. by injection E as <- <-.
Qed.
End Drain.
