(* ===== verification/Disk.v ===== *)
(** * The disk engine ([storage/disk.rs]): operations

    The state is the file system and the in-memory index of parsed metadata.
    Each method of [DiskStorage] is one definition that performs the file
    system calls of the code in their order; the read stream, which goes on after
    the method has returned, is a separate step ([read_next]) on the handle the
    read opened.  Here a method is one step.  For the writing methods of a key this
    is what its locks make of them; the reading ones hold no lock, and [DiskTasks]
    has all methods again with their await points. *)

From Stdlib Require Import Strings.Byte Strings.String.
From S2P Require Import Prelude Bytes Error External Digest Range RangeTable FileSystem Storage.

Definition WRITE_LOCK_SHARDS : Z := 64.
Definition WRITE_BUFFER_BYTES : Z := 256 * 1024.
Definition MAX_INDEXED_KEYS : Z := 4096.

(** [serde_json] on [RangeMetadata]. *)
Class MetadataJson : Type := {
  json_to_vec : RangeMetadata -> result text (list byte);
  json_from_slice : list byte -> option RangeMetadata;
}.

Record DiskStorage : Type := mk_DiskStorage {
  disk_fs : fs;
  metadata_index : gmap text RangeMetadata;
}.

Definition set_fs (s : fs) (d : DiskStorage) : DiskStorage := mk_DiskStorage s (metadata_index d).
Definition set_index f (d : DiskStorage) : DiskStorage := mk_DiskStorage (disk_fs d) (f (metadata_index d)).

Abbreviation D := (io DiskStorage ProxyError.t).

(** A file system call whose error is examined, and one whose error is
    propagated with [?]. *)
Definition fs_call {A} (m : FS A) : io DiskStorage ioerr A := fun d =>
  let '(r, s) := m (disk_fs d) in (r, set_fs s d).
Definition io_q {A} (m : FS A) : D A := fun d =>
  let '(r, s) := m (disk_fs d) in
  (map_err (fun e => ProxyError.from_io (io_text e)) r, set_fs s d).
(** [.ok()]. *)
Definition io_ok {A} (m : FS A) : D (option A) := fun d =>
  let '(r, s) := m (disk_fs d) in
  (Ok (match r with Ok a => Some a | Err _ => None end), set_fs s d).

(** The state of a read stream: the handle, the start offset, and the four
    components of the unfold state. *)
Record Reader : Type := mk_Reader {
  rd_ino : nat;
  rd_start : Z;
  rd_chunk : Z;
  rd_read : Z;
  rd_total : Z;
}.

(** tokio's [BufWriter] over a handle: the position of the next byte that is
    sent to the file, and the bytes not sent yet. *)
Record Writer : Type := mk_Writer {
  w_ino : nat;
  w_pos : Z;
  w_buf : list byte;
}.

Section Engine.
Context `{Sha256} `{MetadataJson} `{!HashOrder text RangeMetadata}.
Context (config : StorageConfig).

Definition shard_of (k : text) : Z := sha256_first_byte k mod WRITE_LOCK_SHARDS.

Definition get_file_path (k : text) : path :=
  let hash := sha256_hex k in
  root_path config ++ [take 2 hash; take 2 (drop 2 hash); hash].

Definition get_metadata_path (k : text) : path :=
  with_extension (get_file_path k) (str "ranges.json").

Definition data_file_size (k : text) : D (option Z) := io_ok (fs_stat (get_file_path k)).

Definition load_metadata (k : text) : D (option RangeMetadata) :=
  data ← io_ok (fs_read (get_metadata_path k));
  match data ≫= json_from_slice with
  | None => mret None
  | Some metadata =>
      file_size ← data_file_size k;
      mret (if metadata_is_valid metadata k file_size then Some metadata else None)
  end.

Definition index_insert (k : text) (metadata : RangeMetadata) : D unit :=
  modify (set_index (fun index =>
    let index :=
      if (MAX_INDEXED_KEYS <=? Z.of_nat (size index)) && bool_decide (index !! k = None)
      then match keys_order index with
           | victim :: _ => base.delete victim index
           | [] => index
           end
      else index in
    <[k := metadata]> index)).

Definition with_metadata {T} (k : text) (view : RangeMetadata -> T) : D T :=
  d ← get;
  match metadata_index d !! k with
  | Some metadata => mret (view metadata)
  | None =>
      loaded ← load_metadata k;
      match loaded with
      | None => mret (view metadata_default)
      | Some metadata => _ ← index_insert k metadata; mret (view metadata)
      end
  end.

Definition ensure_dir_exists (p : path) : D unit := io_q (fs_create_dir_all (parent p)).

Definition write_metadata (k : text) (metadata : RangeMetadata) : D unit :=
  let p := get_metadata_path k in
  _ ← ensure_dir_exists p;
  let temporary := with_extension p (str "ranges.json.tmp") in
  bytes ← lift (map_err ProxyError.from_serde_json (json_to_vec metadata));
  written ← attempt (io_q (fs_write temporary bytes));
  match written with
  | Err error => _ ← io_ok (fs_remove temporary); throw error
  | Ok _ =>
      renamed ← attempt (io_q (fs_rename temporary p));
      match renamed with
      | Err error => _ ← io_ok (fs_remove temporary); throw error
      | Ok _ => mret tt
      end
  end.

(** The record is stamped with its key and the current version. *)
Definition stamp (k : text) (m : RangeMetadata) : RangeMetadata :=
  mk_RangeMetadata RANGE_METADATA_VERSION (completed m) (Some k) (total_size m) (content_type m).

(** [edit] is the closure: the new record, and whether it changed. *)
Definition update_metadata (k : text) (edit : RangeMetadata -> RangeMetadata * bool) : D unit :=
  d ← get;
  metadata ← match metadata_index d !! k with
             | Some cached => mret cached
             | None => loaded ← load_metadata k; mret (default metadata_default loaded)
             end;
  let '(metadata, changed) := edit metadata in
  if changed then
    let metadata := stamp k metadata in
    _ ← write_metadata k metadata;
    index_insert k metadata
  else mret tt.

Definition set_completed (c : list (Z * Z)) (m : RangeMetadata) : RangeMetadata :=
  mk_RangeMetadata (version m) c (key m) (total_size m) (content_type m).

Definition record_completed_range (k : text) (start end_ : Z) : D unit :=
  update_metadata k (fun m => (set_completed (merge_range (completed m) start end_) m, true)).

(** [BufWriter::write_all]: a chunk that does not fit sends the buffer
    first; a chunk as large as the buffer is sent directly. *)
Definition flush_buf (w : Writer) : D Writer :=
  match w_buf w with
  | [] => mret w
  | b =>
      _ ← io_q (fs_pwrite (w_ino w) (Z.to_nat (w_pos w)) b);
      mret (mk_Writer (w_ino w) (w_pos w + Z.of_nat (length b)) [])
  end.
Definition write_all (w : Writer) (chunk : list byte) : D Writer :=
  w ← (if WRITE_BUFFER_BYTES <? Z.of_nat (length (w_buf w) + length chunk)
       then flush_buf w else mret w);
  if WRITE_BUFFER_BYTES <=? Z.of_nat (length chunk)
  then flush_buf (mk_Writer (w_ino w) (w_pos w) chunk)
  else mret (mk_Writer (w_ino w) (w_pos w) (w_buf w ++ chunk)).

(** The copying loop: the bytes written, the writer (unless [write_all]
    failed), the reason of an early stop and whether the prefix may be
    recorded. *)
Record LoopEnd : Type := mk_LoopEnd {
  le_written : Z;
  le_writer : Writer;
  le_failure : option ProxyError.t;
  le_recordable : bool;
}.

Fixpoint write_loop (s : stream) (max_length : option Z) (written : Z) (w : Writer) :
    D LoopEnd :=
  match s with
  | [] => mret (mk_LoopEnd written w None true)
  | Err error :: _ => mret (mk_LoopEnd written w (Some error) true)
  | Ok chunk :: s' =>
      match checked_add written (Z.of_nat (length chunk)) with
      | None =>
          mret (mk_LoopEnd written w (Some (ProxyError.Storage (str "写入字节数溢出"))) false)
      | Some next_written =>
          if match max_length with Some maximum => maximum <? next_written | None => false end
          then mret (mk_LoopEnd written w
                       (Some (ProxyError.Storage (str "上游响应体超过请求的缓存范围"))) true)
          else
            r ← attempt (write_all w chunk);
            match r with
            | Err error => mret (mk_LoopEnd written w (Some error) false)
            | Ok w' => write_loop s' max_length next_written w'
            end
      end
  end.

(** Flush, sync and record the accepted prefix; the result is
    [sync_failure]. *)
Definition persist_prefix (k : text) (start : Z) (le : LoopEnd) : D (option ProxyError.t) :=
  if (0 <? le_written le) && le_recordable le then
    flushed ← attempt (flush_buf (le_writer le));
    synced ← match flushed with
             | Ok _ => attempt (io_q fs_sync)
             | Err error => mret (Err error)
             end;
    match synced with
    | Err error => mret (Some error)
    | Ok _ =>
        end_ ← lift (ok_or (checked_add start (le_written le - 1))
                       (ProxyError.Storage (str "写入范围溢出")));
        _ ← record_completed_range k start end_;
        mret None
    end
  else mret None.

Definition write (k : text) (s : stream) (range : Z * Z) : D Z :=
  max_length ← (if range.2 =? OPEN_ENDED then mret None
                else n ← lift (range_length range.1 range.2); mret (Some n));
  let file_path := get_file_path k in
  _ ← ensure_dir_exists file_path;
  ino ← io_q (fs_open_create file_path);
  _ ← io_q (fs_seek range.1);
  le ← write_loop s max_length 0 (mk_Writer ino range.1 []);
  sync_failure ← persist_prefix k range.1 le;
  match le_failure le, sync_failure with
  | Some error, _ | None, Some error => throw error
  | None, None => mret (le_written le)
  end.

Definition get_size (k : text) : D (option Z) := data_file_size k.

Definition check_range (k : text) (range : Z * Z) : D bool :=
  requested_end ←
    (if range.2 =? OPEN_ENDED then
       known_total ← with_metadata k total_size;
       match known_total with
       | Some total => mret (checked_sub total 1)
       | None =>
           size ← data_file_size k;
           mret (size ≫= fun size => checked_sub size 1)
       end
     else mret (Some range.2));
  match requested_end with
  | None => mret false
  | Some requested_end =>
      covered ← with_metadata k (fun m => covers (completed m) range.1 requested_end);
      if covered : bool then
        size ← data_file_size k;
        mret (match size with Some _ => true | None => false end)
      else mret false
  end.

Definition read (k : text) (range : Z * Z) : D Reader :=
  let file_path := get_file_path k in
  cached ← check_range k range;
  if negb cached then throw (ProxyError.Storage (str "请求范围尚未完整缓存"))
  else
    ino ← io_q (fs_open file_path);
    file_size ← io_q (fs_fstat ino);
    if file_size <=? range.1 then throw (ProxyError.Storage (str "请求范围超出文件大小"))
    else
      let last_byte := file_size - 1 in
      let end_ := if range.2 =? OPEN_ENDED then last_byte else Z.min range.2 last_byte in
      total_bytes ← lift (range_length range.1 end_);
      _ ← io_q (fs_seek range.1);
      mret (mk_Reader ino range.1 (chunk_size config) 0 total_bytes).

(** One step of the read stream. *)
Definition read_next (r : Reader) : D (option (list byte * Reader)) :=
  if rd_total r <=? rd_read r then mret None
  else
    let remaining := rd_total r - rd_read r in
    let to_read := Z.min (rd_chunk r) remaining in
    buffer ← io_q (fs_pread_short (rd_ino r) (Z.to_nat (rd_start r + rd_read r))
                     (Z.to_nat to_read));
    match buffer with
    | [] =>
        throw (ProxyError.Storage (str "缓存文件意外截断: 已读 " ++ format_u64 (rd_read r)
                 ++ str "/" ++ format_u64 (rd_total r) ++ str " 字节"))
    | _ =>
        mret (Some (buffer, mk_Reader (rd_ino r) (rd_start r) (rd_chunk r)
                              (rd_read r + Z.of_nat (length buffer)) (rd_total r)))
    end.

Definition meta_edit (meta : UpstreamMeta) (m : RangeMetadata) : RangeMetadata * bool :=
  let '(m, changed) :=
    match um_total_size meta with
    | Some total =>
        if (0 <? total) && negb (bool_decide (total_size m = Some total))
        then (mk_RangeMetadata (version m) (completed m) (key m) (Some total) (content_type m), true)
        else (m, false)
    | None => (m, false)
    end in
  match um_content_type meta with
  | Some ct =>
      if negb (bool_decide (content_type m = Some ct))
      then (mk_RangeMetadata (version m) (completed m) (key m) (total_size m) (Some ct), true)
      else (m, changed)
  | None => (m, changed)
  end.

Definition record_upstream_meta (k : text) (meta : UpstreamMeta) : D unit :=
  if is_empty meta then mret tt else update_metadata k (meta_edit meta).

Definition upstream_meta (k : text) : D UpstreamMeta :=
  with_metadata k (fun m => mk_UpstreamMeta (total_size m) (content_type m)).

(** [remove_file], an absent file being no error. *)
Definition remove_if_present (p : path) : D unit := fun d =>
  let '(r, s) := fs_remove p (disk_fs d) in
  (match r with
   | Ok _ => Ok tt
   | Err error => if is_not_found error then Ok tt else Err (ProxyError.from_io (io_text error))
   end, set_fs s d).

Definition delete (k : text) : D unit :=
  _ ← modify (set_index (base.delete k));
  _ ← remove_if_present (get_file_path k);
  remove_if_present (get_metadata_path k).

Definition remove_cache_pair (metadata_path : path) : D unit :=
  let data_path := with_extension (with_extension metadata_path []) [] in
  _ ← io_ok (fs_remove metadata_path);
  _ ← io_ok (fs_remove data_path);
  mret tt.

(** The body of the innermost loop of [enumerate]: one file. *)
Definition enumerate_file (dir : path) (name : text) (entries : list (text * Z)) :
    D (list (text * Z)) :=
  let p := dir ++ [name] in
  if negb (utf8_valid name) then mret entries
  else if ends_with (str ".ranges.json.tmp") name then
    _ ← io_ok (fs_remove p); mret entries
  else if negb (ends_with (str ".ranges.json") name) then mret entries
  else
    data ← io_ok (fs_read p);
    match data ≫= json_from_slice with
    | None => _ ← remove_cache_pair p; mret entries
    | Some metadata =>
    match key metadata with
    | None => _ ← remove_cache_pair p; mret entries
    | Some k =>
      let data_path := get_file_path k in
      file_size ← io_ok (fs_stat data_path);
      let valid_path := bool_decide (p = get_metadata_path k) in
      match file_size with
      | Some size =>
          if valid_path && metadata_is_valid metadata k (Some size)
          then mret (entries ++ [(k, size)])
          else
            _ ← remove_cache_pair p;
            if valid_path then _ ← io_ok (fs_remove data_path); mret entries else mret entries
      | None =>
          _ ← remove_cache_pair p;
          if valid_path then _ ← io_ok (fs_remove data_path); mret entries else mret entries
      end
    end end.

(** [while let Some(entry) = dir.next_entry().await?]. *)
Fixpoint for_entries {A} (body : text -> bool -> A -> D A) (l : list (text * bool)) (a : A) : D A :=
  _ ← io_q fs_touch;
  match l with
  | [] => mret a
  | (name, is_dir) :: l' => a ← body name is_dir a; for_entries body l' a
  end.

(** Enter a subdirectory; one that cannot be inspected is skipped. *)
Definition in_subdir {A} (p : path) (is_dir : bool) (body : list (text * bool) -> A -> D A)
    (a : A) : D A :=
  file_type ← io_ok fs_touch;
  if negb (match file_type with Some _ => is_dir | None => false end) then mret a
  else
    listing ← io_ok (fs_read_dir p);
    match listing with
    | None => mret a
    | Some l => body l a
    end.

Definition enumerate `{DirOrder} : D (list (text * Z)) := fun d =>
  let root := root_path config in
  let '(r, s) := fs_read_dir root (disk_fs d) in
  let d := set_fs s d in
  match r with
  | Err error =>
      (if is_not_found error then Ok [] else Err (ProxyError.from_io (io_text error)), d)
  | Ok level1 =>
      for_entries (fun first is_dir entries =>
        in_subdir (root ++ [first]) is_dir (fun level2 entries =>
          for_entries (fun second is_dir entries =>
            in_subdir (root ++ [first; second]) is_dir (fun files entries =>
              for_entries (fun name _ entries =>
                enumerate_file (root ++ [first; second]) name entries)
                (dir_order files) entries) entries)
            (dir_order level2) entries) entries)
        (dir_order level1) [] d
  end.

#[global] Instance disk_engine `{DirOrder} : StorageEngine DiskStorage Reader := {
  se_write := write;
  se_read := read;
  se_next := read_next;
  se_get_size := get_size;
  se_check_range := check_range;
  se_delete := delete;
  se_record_upstream_meta := record_upstream_meta;
  se_upstream_meta := upstream_meta;
  se_enumerate := enumerate;
}.
End Engine.
