(* ===== verification/DiskTasks.v ===== *)
(** * The disk engine ([storage/disk.rs]) at its await points

    [Disk] has every method of the engine as one function on its state.  Methods
    of different tasks interleave: a task can be suspended wherever the code
    awaits, that is at every file system call and every access to the index.
    The writing methods hold a lock of their key meanwhile, the reading ones none.
    Here each method is a program whose steps are the stretches between two awaits
    ([prog]), with the locks it takes; run by itself it is the function of [Disk]
    ([tasks_run_alone]).  [World] is the engine with its tasks and [world_step] one
    step of any of them.  The read guard of the index, which [update_metadata] keeps
    while it loads a record, is left out: it only excludes steps of others. *)

From Stdlib Require Import Strings.Byte Strings.String.
From S2P Require Import Prelude Bytes Error External Digest Range RangeTable FileSystem Storage Disk.

(** ** Programs with await points *)

(** The two tables of locks, by shard. *)
Inductive lock : Type := WriteLock (shard : Z) | MetadataLock (shard : Z).

#[export] Instance lock_eq_dec : EqDecision lock.
Proof. solve_decision. Defined.

(** What is left of a task: a result; a step on the shared state and the rest;
    waiting for a lock; giving one back. *)
#[warnings="-register-all"]
Inductive prog (A : Type) : Type :=
| Return (r : Result A)
| Await (f : DiskStorage -> prog A * DiskStorage)
| Acquire (l : lock) (p : prog A)
| Release (l : lock) (p : prog A).
Arguments Return {A} r.
Arguments Await {A} f.
Arguments Acquire {A} l p.
Arguments Release {A} l p.

(** Induction over what is left, whatever state a step meets. *)
Section Induction.
Context {A : Type} (P : prog A -> Prop).
Context (HReturn : forall r, P (Return r)) (HAwait : forall f, (forall d, P (f d).1) -> P (Await f)).
Context (HAcquire : forall l p, P p -> P (Acquire l p)) (HRelease : forall l p, P p -> P (Release l p)).

Fixpoint prog_induction (p : prog A) : P p :=
  match p with
  | Return r => HReturn r
  | Await f => HAwait f (fun d => match f d as q return P q.1 with (p', _) => prog_induction p' end)
  | Acquire l p' => HAcquire l p' (prog_induction p')
  | Release l p' => HRelease l p' (prog_induction p')
  end.
End Induction.

(** One call that is awaited. *)
Definition call {A} (m : D A) : prog A :=
  Await (fun d => let '(r, d') := m d in (Return r, d')).

Section Combinators.
Context {A B : Type}.

Fixpoint then_ (p : prog A) (k : Result A -> prog B) : prog B :=
  match p with
  | Return r => k r
  | Await f => Await (fun d => let '(p', d') := f d in (then_ p' k, d'))
  | Acquire l p' => Acquire l (then_ p' k)
  | Release l p' => Release l (then_ p' k)
  end.
End Combinators.

#[export] Instance prog_ret : MRet prog := fun _ a => Return (Ok a).
#[export] Instance prog_bind : MBind prog :=
  fun _ _ k p => then_ p (fun r => match r with Ok a => k a | Err e => Return (Err e) end).

(** [match p.await]. *)
Definition attempt_task {A} (p : prog A) : prog (Result A) := then_ p (fun r => Return (Ok r)).

(** [let _guard = lock.await; p]: the guard is dropped however [p] ends. *)
Definition locked {A} (l : lock) (p : prog A) : prog A :=
  Acquire l (then_ p (fun r => Release l (Return r))).

(** A program run with no other task in between. *)
Fixpoint run {A} (p : prog A) : D A := fun d =>
  match p with
  | Return r => (r, d)
  | Await f => let '(p', d') := f d in run p' d'
  | Acquire _ p' | Release _ p' => run p' d
  end.

(** ** The methods *)

Section Methods.
Context `{Sha256} `{MetadataJson} `{!HashOrder text RangeMetadata}.
Context (config : StorageConfig).

Definition write_lock_for (k : text) : lock := WriteLock (shard_of k).
Definition metadata_lock_for (k : text) : lock := MetadataLock (shard_of k).

Definition data_file_size_task (k : text) : prog (option Z) := call (data_file_size config k).

Definition load_metadata_task (k : text) : prog (option RangeMetadata) :=
  data ← call (io_ok (fs_read (get_metadata_path config k)));
  match data ≫= json_from_slice with
  | None => mret None
  | Some metadata =>
      file_size ← data_file_size_task k;
      mret (if metadata_is_valid metadata k file_size then Some metadata else None)
  end.

Definition with_metadata_task {T} (k : text) (view : RangeMetadata -> T) : prog T :=
  d ← call get;
  match metadata_index d !! k with
  | Some metadata => mret (view metadata)
  | None =>
      loaded ← load_metadata_task k;
      match loaded with
      | None => mret (view metadata_default)
      | Some metadata => _ ← call (index_insert k metadata); mret (view metadata)
      end
  end.

Definition write_metadata_task (k : text) (metadata : RangeMetadata) : prog unit :=
  let p := get_metadata_path config k in
  _ ← call (ensure_dir_exists p);
  let temporary := with_extension p (str "ranges.json.tmp") in
  bytes ← Return (map_err ProxyError.from_serde_json (json_to_vec metadata));
  written ← attempt_task (call (io_q (fs_write temporary bytes)));
  match written with
  | Err error => _ ← call (io_ok (fs_remove temporary)); Return (Err error)
  | Ok _ =>
      renamed ← attempt_task (call (io_q (fs_rename temporary p)));
      match renamed with
      | Err error => _ ← call (io_ok (fs_remove temporary)); Return (Err error)
      | Ok _ => mret tt
      end
  end.

Definition update_metadata_task (k : text) (edit : RangeMetadata -> RangeMetadata * bool) :
    prog unit :=
  locked (metadata_lock_for k) (
    d ← call get;
    metadata ← match metadata_index d !! k with
               | Some cached => mret cached
               | None => loaded ← load_metadata_task k; mret (default metadata_default loaded)
               end;
    let '(metadata, changed) := edit metadata in
    if changed : bool then
      let metadata := stamp k metadata in
      _ ← write_metadata_task k metadata;
      call (index_insert k metadata)
    else mret tt).

Definition record_completed_range_task (k : text) (start end_ : Z) : prog unit :=
  update_metadata_task k (fun m => (set_completed (merge_range (completed m) start end_) m, true)).

Definition flush_buf_task (w : Writer) : prog Writer :=
  match w_buf w with
  | [] => mret w
  | b =>
      _ ← call (io_q (fs_pwrite (w_ino w) (Z.to_nat (w_pos w)) b));
      mret (mk_Writer (w_ino w) (w_pos w + Z.of_nat (length b)) [])
  end.

Definition write_all_task (w : Writer) (chunk : list byte) : prog Writer :=
  w ← (if WRITE_BUFFER_BYTES <? Z.of_nat (length (w_buf w) + length chunk)
       then flush_buf_task w else mret w);
  if WRITE_BUFFER_BYTES <=? Z.of_nat (length chunk)
  then flush_buf_task (mk_Writer (w_ino w) (w_pos w) chunk)
  else mret (mk_Writer (w_ino w) (w_pos w) (w_buf w ++ chunk)).

(** The next chunk of the stream is awaited too. *)
Fixpoint write_loop_task (s : stream) (max_length : option Z) (written : Z) (w : Writer) :
    prog LoopEnd :=
  _ ← call (mret tt);
  match s with
  | [] => mret (mk_LoopEnd written w None true)
  | Err error :: _ => mret (mk_LoopEnd written w (Some error) true)
  | Ok chunk :: s' =>
      match checked_add written (Z.of_nat (length chunk)) with
      | None =>
          mret (mk_LoopEnd written w (Some (ProxyError.Storage (str "写入字节数溢出"))) false)
      | Some next_written =>
          if match max_length with Some maximum => maximum <? next_written | None => false end
          then mret (mk_LoopEnd written w
                       (Some (ProxyError.Storage (str "上游响应体超过请求的缓存范围"))) true)
          else
            r ← attempt_task (write_all_task w chunk);
            match r with
            | Err error => mret (mk_LoopEnd written w (Some error) false)
            | Ok w' => write_loop_task s' max_length next_written w'
            end
      end
  end.

Definition persist_prefix_task (k : text) (start : Z) (le : LoopEnd) : prog (option ProxyError.t) :=
  if (0 <? le_written le) && le_recordable le then
    flushed ← attempt_task (flush_buf_task (le_writer le));
    synced ← match flushed with
             | Ok _ => attempt_task (call (io_q fs_sync))
             | Err error => mret (Err error)
             end;
    match synced with
    | Err error => mret (Some error)
    | Ok _ =>
        end_ ← Return (ok_or (checked_add start (le_written le - 1))
                         (ProxyError.Storage (str "写入范围溢出")));
        _ ← record_completed_range_task k start end_;
        mret None
    end
  else mret None.

Definition write_task (k : text) (s : stream) (range : Z * Z) : prog Z :=
  max_length ← (if range.2 =? OPEN_ENDED then mret None
                else n ← Return (range_length range.1 range.2); mret (Some n));
  let file_path := get_file_path config k in
  _ ← call (ensure_dir_exists file_path);
  locked (write_lock_for k) (
    ino ← call (io_q (fs_open_create file_path));
    _ ← call (io_q (fs_seek range.1));
    le ← write_loop_task s max_length 0 (mk_Writer ino range.1 []);
    sync_failure ← persist_prefix_task k range.1 le;
    match le_failure le, sync_failure with
    | Some error, _ | None, Some error => Return (Err error)
    | None, None => mret (le_written le)
    end).

Definition check_range_task (k : text) (range : Z * Z) : prog bool :=
  requested_end ←
    (if range.2 =? OPEN_ENDED then
       known_total ← with_metadata_task k total_size;
       match known_total with
       | Some total => mret (checked_sub total 1)
       | None =>
           size ← data_file_size_task k;
           mret (size ≫= fun size => checked_sub size 1)
       end
     else mret (Some range.2));
  match requested_end with
  | None => mret false
  | Some requested_end =>
      covered ← with_metadata_task k (fun m => covers (completed m) range.1 requested_end);
      if covered : bool then
        size ← data_file_size_task k;
        mret (match size with Some _ => true | None => false end)
      else mret false
  end.

Definition read_task (k : text) (range : Z * Z) : prog Reader :=
  let file_path := get_file_path config k in
  cached ← check_range_task k range;
  if negb cached then Return (Err (ProxyError.Storage (str "请求范围尚未完整缓存")))
  else
    ino ← call (io_q (fs_open file_path));
    file_size ← call (io_q (fs_fstat ino));
    if file_size <=? range.1
    then Return (Err (ProxyError.Storage (str "请求范围超出文件大小")))
    else
      let last_byte := file_size - 1 in
      let end_ := if range.2 =? OPEN_ENDED then last_byte else Z.min range.2 last_byte in
      total_bytes ← Return (range_length range.1 end_);
      _ ← call (io_q (fs_seek range.1));
      mret (mk_Reader ino range.1 (chunk_size config) 0 total_bytes).

Definition record_upstream_meta_task (k : text) (meta : UpstreamMeta) : prog unit :=
  if is_empty meta then mret tt else update_metadata_task k (meta_edit meta).

Definition upstream_meta_task (k : text) : prog UpstreamMeta :=
  with_metadata_task k (fun m => mk_UpstreamMeta (total_size m) (content_type m)).

Definition delete_task (k : text) : prog unit :=
  locked (write_lock_for k) (locked (metadata_lock_for k) (
    _ ← call (modify (set_index (base.delete k)));
    _ ← call (remove_if_present (get_file_path config k));
    call (remove_if_present (get_metadata_path config k)))).

Definition remove_cache_pair_task (metadata_path : path) : prog unit :=
  let data_path := with_extension (with_extension metadata_path []) [] in
  _ ← call (io_ok (fs_remove metadata_path));
  _ ← call (io_ok (fs_remove data_path));
  mret tt.

Definition enumerate_file_task (dir : path) (name : text) (entries : list (text * Z)) :
    prog (list (text * Z)) :=
  let p := dir ++ [name] in
  if negb (utf8_valid name) then mret entries
  else if ends_with (str ".ranges.json.tmp") name then
    _ ← call (io_ok (fs_remove p)); mret entries
  else if negb (ends_with (str ".ranges.json") name) then mret entries
  else
    data ← call (io_ok (fs_read p));
    match data ≫= json_from_slice with
    | None => _ ← remove_cache_pair_task p; mret entries
    | Some metadata =>
    match key metadata with
    | None => _ ← remove_cache_pair_task p; mret entries
    | Some k =>
      let data_path := get_file_path config k in
      file_size ← call (io_ok (fs_stat data_path));
      let valid_path := bool_decide (p = get_metadata_path config k) in
      match file_size with
      | Some size =>
          if valid_path && metadata_is_valid metadata k (Some size)
          then mret (entries ++ [(k, size)])
          else
            _ ← remove_cache_pair_task p;
            if valid_path then _ ← call (io_ok (fs_remove data_path)); mret entries
            else mret entries
      | None =>
          _ ← remove_cache_pair_task p;
          if valid_path then _ ← call (io_ok (fs_remove data_path)); mret entries
          else mret entries
      end
    end end.

Fixpoint for_entries_task {A} (body : text -> bool -> A -> prog A) (l : list (text * bool)) (a : A) :
    prog A :=
  _ ← call (io_q fs_touch);
  match l with
  | [] => mret a
  | (name, is_dir) :: l' => a ← body name is_dir a; for_entries_task body l' a
  end.

Definition in_subdir_task {A} (p : path) (is_dir : bool)
    (body : list (text * bool) -> A -> prog A) (a : A) : prog A :=
  file_type ← call (io_ok fs_touch);
  if negb (match file_type with Some _ => is_dir | None => false end) then mret a
  else
    listing ← call (io_ok (fs_read_dir p));
    match listing with
    | None => mret a
    | Some l => body l a
    end.

(** The first listing: a directory that is not there is no error. *)
Definition open_root (d : DiskStorage) : Result (option (list (text * bool))) * DiskStorage :=
  let '(r, s) := fs_read_dir (root_path config) (disk_fs d) in
  (match r with
   | Ok l => Ok (Some l)
   | Err error => if is_not_found error then Ok None else Err (ProxyError.from_io (io_text error))
   end, set_fs s d).

Definition enumerate_task (order : DirOrder) : prog (list (text * Z)) :=
  let root := root_path config in
  listing ← call open_root;
  match listing with
  | None => mret []
  | Some level1 =>
      for_entries_task (fun first is_dir entries =>
        in_subdir_task (root ++ [first]) is_dir (fun level2 entries =>
          for_entries_task (fun second is_dir entries =>
            in_subdir_task (root ++ [first; second]) is_dir (fun files entries =>
              for_entries_task (fun name _ entries =>
                enumerate_file_task (root ++ [first; second]) name entries)
                (order files) entries) entries)
            (order level2) entries) entries)
        (order level1) []
  end.

(** ** Tasks *)

(** A method and its arguments; the order in which directories are listed is up to
    the file system. *)
Inductive op : Type :=
| OpWrite (k : text) (s : stream) (range : Z * Z)
| OpRead (k : text) (range : Z * Z)
| OpCheckRange (k : text) (range : Z * Z)
| OpRecordMeta (k : text) (meta : UpstreamMeta)
| OpUpstreamMeta (k : text)
| OpGetSize (k : text)
| OpDelete (k : text)
| OpEnumerate (order : DirOrder).

Inductive outcome : Type :=
| Wrote (n : Z)
| Opened (rd : Reader)
| Checked (b : bool)
| Recorded
| Meta (m : UpstreamMeta)
| Size (n : option Z)
| Deleted
| Listed (entries : list (text * Z)).

(** The key of a method; the enumeration has none. *)
Definition op_key (o : op) : text :=
  match o with
  | OpEnumerate _ => []
  | OpWrite k _ _ | OpRead k _ | OpCheckRange k _ | OpRecordMeta k _ | OpUpstreamMeta k
  | OpGetSize k | OpDelete k => k
  end.

Definition body (o : op) : prog outcome :=
  match o with
  | OpWrite k s range => n ← write_task k s range; mret (Wrote n)
  | OpRead k range => rd ← read_task k range; mret (Opened rd)
  | OpCheckRange k range => b ← check_range_task k range; mret (Checked b)
  | OpRecordMeta k meta => _ ← record_upstream_meta_task k meta; mret Recorded
  | OpUpstreamMeta k => m ← upstream_meta_task k; mret (Meta m)
  | OpGetSize k => n ← data_file_size_task k; mret (Size n)
  | OpDelete k => _ ← delete_task k; mret Deleted
  | OpEnumerate order => l ← enumerate_task order; mret (Listed l)
  end.

Record Task : Type := mk_Task {
  t_op : op;
  t_rest : prog outcome;
  t_locks : list lock;
}.

Record World : Type := mk_World {
  engine : DiskStorage;
  tasks : gmap nat Task;
}.

Definition free (l : lock) (w : World) : Prop :=
  forall i t, tasks w !! i = Some t -> l ∉ t_locks t.

(** A method that takes no lock. *)
Definition lock_free (o : op) : bool :=
  match o with
  | OpRead _ _ | OpCheckRange _ _ | OpUpstreamMeta _ | OpGetSize _ | OpEnumerate _ => true
  | _ => false
  end.

(** One step: a call of a method; a step of a task up to its next await; a lock
    given to or back by a task; a task that is over, or whose future was dropped
    (its guards with it); a client that asks for the next chunk of a stream; a crash, after which the process starts with an empty
    index and meets other failures. *)
Inductive world_step : World -> World -> Prop :=
| ws_spawn w i o :
    tasks w !! i = None ->
    world_step w (mk_World (engine w) (<[i := mk_Task o (body o) []]> (tasks w)))
| ws_await w i o f p' d' locks :
    tasks w !! i = Some (mk_Task o (Await f) locks) -> f (engine w) = (p', d') ->
    world_step w (mk_World d' (<[i := mk_Task o p' locks]> (tasks w)))
| ws_acquire w i o l p locks :
    tasks w !! i = Some (mk_Task o (Acquire l p) locks) -> free l w ->
    world_step w (mk_World (engine w) (<[i := mk_Task o p (l :: locks)]> (tasks w)))
| ws_release w i o l p locks :
    tasks w !! i = Some (mk_Task o (Release l p) locks) ->
    world_step w (mk_World (engine w)
                    (<[i := mk_Task o p (list_difference locks [l])]> (tasks w)))
| ws_drop w i t :
    tasks w !! i = Some t -> world_step w (mk_World (engine w) (base.delete i (tasks w)))
| ws_next w rd r d' :
    read_next rd (engine w) = (r, d') -> world_step w (mk_World d' (tasks w))
| ws_crash w script :
    world_step w (mk_World (mk_DiskStorage (set_faults (fun _ => script) (disk_fs (engine w))) ∅) ∅).
End Methods.

(** ** A program run by itself *)

Lemma run_then {A B} (p : prog A) (k : Result A -> prog B) d :
  run (then_ p k) d = let '(r, d') := run p d in run (k r) d'.
Proof.
  revert d. induction p as [r|f IH|l p IH|l p IH] using prog_induction; intros d; simpl; [done| |done|done].
  destruct (f d) as [p' d'] eqn:E. specialize (IH d). rewrite E in IH. apply IH.
Qed.

Lemma run_bind {A B} (p : prog A) (k : A -> prog B) d :
  run (p ≫= k) d = (run p ≫= fun a => run (k a)) d.
Proof.
  unfold mbind, prog_bind, io_bind. rewrite run_then. by destruct (run p d) as [[a|e] d'].
Qed.

Lemma run_call {A} (m : D A) d : run (call m) d = m d.
Proof. simpl. by destruct (m d). Qed.

Lemma run_attempt {A} (p : prog A) d : run (attempt_task p) d = attempt (run p) d.
Proof. unfold attempt_task, attempt. rewrite run_then. by destruct (run p d). Qed.

Lemma run_locked {A} l (p : prog A) d : run (locked l p) d = run p d.
Proof. simpl. rewrite run_then. by destruct (run p d). Qed.

(** Equal computations up to the state they are applied to. *)
Lemma bind_ext {A B} (m m' : D A) (k k' : A -> D B) d :
  m d = m' d -> (forall a d', k a d' = k' a d') -> (m ≫= k) d = (m' ≫= k') d.
Proof. unfold mbind, io_bind. intros -> Hk. destruct (m' d) as [[a|e] d']; [apply Hk|done]. Qed.

Lemma attempt_ext {A} (m m' : D A) d : m d = m' d -> attempt m d = attempt m' d.
Proof. unfold attempt. by intros ->. Qed.

(** Unfold one step of a run, on both sides. *)
Ltac run_same :=
  repeat first
    [ done
    | rewrite run_bind; apply bind_ext; [|intros ? ?]
    | rewrite run_call
    | rewrite run_attempt; apply attempt_ext
    | rewrite run_locked
    | match goal with
      | |- run (match ?x with _ => _ end) _ = _ => destruct x eqn:?
      | |- run (if ?x then _ else _) _ = _ => destruct x eqn:?
      end ].

Section Alone.
Context `{Sha256} `{MetadataJson} `{!HashOrder text RangeMetadata}.
Context (config : StorageConfig).

Lemma load_metadata_alone k d : run (load_metadata_task config k) d = load_metadata config k d.
Proof. unfold load_metadata_task, load_metadata, data_file_size_task. run_same. Qed.

Lemma with_metadata_alone {T} k (view : RangeMetadata -> T) d :
  run (with_metadata_task config k view) d = with_metadata config k view d.
Proof.
  unfold with_metadata_task, with_metadata. run_same. apply load_metadata_alone.
Qed.

Lemma update_metadata_alone k edit d :
  run (update_metadata_task config k edit) d = update_metadata config k edit d.
Proof.
  unfold update_metadata_task, update_metadata, write_metadata_task, write_metadata. run_same.
  apply load_metadata_alone.
Qed.

Lemma flush_buf_alone w d : run (flush_buf_task w) d = flush_buf w d.
Proof. unfold flush_buf_task, flush_buf. run_same. Qed.

Lemma write_all_alone w chunk d : run (write_all_task w chunk) d = write_all w chunk d.
Proof. unfold write_all_task, write_all. run_same; apply flush_buf_alone. Qed.

Lemma write_loop_alone s max_length written w d :
  run (write_loop_task s max_length written w) d = write_loop s max_length written w d.
Proof.
  revert written w d. induction s as [|[chunk|e] s IH]; intros written w d; simpl; try done.
  run_same. apply write_all_alone.
Qed.

Lemma persist_prefix_alone k start le d :
  run (persist_prefix_task config k start le) d = persist_prefix config k start le d.
Proof.
  unfold persist_prefix_task, persist_prefix, record_completed_range_task, record_completed_range.
  run_same; [apply flush_buf_alone|apply update_metadata_alone].
Qed.

Lemma write_alone k s range d : run (write_task config k s range) d = write config k s range d.
Proof.
  unfold write_task, write. run_same; [apply write_loop_alone|apply persist_prefix_alone].
Qed.

Lemma check_range_alone k range d :
  run (check_range_task config k range) d = check_range config k range d.
Proof.
  unfold check_range_task, check_range, data_file_size_task.
  run_same; apply with_metadata_alone.
Qed.

Lemma read_alone k range d : run (read_task config k range) d = read config k range d.
Proof. unfold read_task, read. run_same. apply check_range_alone. Qed.

Lemma record_upstream_meta_alone k meta d :
  run (record_upstream_meta_task config k meta) d = record_upstream_meta config k meta d.
Proof.
  unfold record_upstream_meta_task, record_upstream_meta. run_same. apply update_metadata_alone.
Qed.

Lemma delete_alone k d : run (delete_task config k) d = delete config k d.
Proof. unfold delete_task, delete. run_same. Qed.

Lemma remove_cache_pair_alone p d : run (remove_cache_pair_task p) d = remove_cache_pair p d.
Proof. unfold remove_cache_pair_task, remove_cache_pair. run_same. Qed.

Lemma enumerate_file_alone dir name entries d :
  run (enumerate_file_task config dir name entries) d = enumerate_file config dir name entries d.
Proof.
  unfold enumerate_file_task, enumerate_file. run_same; apply remove_cache_pair_alone.
Qed.

Lemma for_entries_alone {A} (f : text -> bool -> A -> prog A) (g : text -> bool -> A -> D A) l a d :
  (forall name is_dir a d, run (f name is_dir a) d = g name is_dir a d) ->
  run (for_entries_task f l a) d = for_entries g l a d.
Proof.
  intros Hf. revert a d. induction l as [|[name is_dir] l IH]; intros a d;
    cbn [for_entries_task for_entries]; run_same; first [apply Hf | apply IH].
Qed.

Lemma in_subdir_alone {A} p is_dir (f : list (text * bool) -> A -> prog A)
    (g : list (text * bool) -> A -> D A) a d :
  (forall l a d, run (f l a) d = g l a d) ->
  run (in_subdir_task p is_dir f a) d = in_subdir p is_dir g a d.
Proof. intros Hf. unfold in_subdir_task, in_subdir. run_same. Qed.

Lemma enumerate_alone order d : run (enumerate_task config order) d = @enumerate _ _ config order d.
Proof.
  unfold enumerate_task, enumerate. rewrite run_bind. unfold mbind, io_bind. rewrite run_call.
  unfold open_root. destruct (fs_read_dir _ _) as [[l|e] s]; [|by destruct (is_not_found e)].
  apply for_entries_alone. intros. apply in_subdir_alone. intros.
  apply for_entries_alone. intros. apply in_subdir_alone. intros.
  apply for_entries_alone. intros. apply enumerate_file_alone.
Qed.

(** Every method, run with no other task in between, is the function of [Disk]. *)
Theorem tasks_run_alone o d :
  run (body config o) d =
  match o with
  | OpWrite k s range => (n ← write config k s range; mret (Wrote n)) d
  | OpRead k range => (rd ← read config k range; mret (Opened rd)) d
  | OpCheckRange k range => (b ← check_range config k range; mret (Checked b)) d
  | OpRecordMeta k meta => (_ ← record_upstream_meta config k meta; mret Recorded) d
  | OpUpstreamMeta k => (m ← upstream_meta config k; mret (Meta m)) d
  | OpGetSize k => (n ← get_size config k; mret (Size n)) d
  | OpDelete k => (_ ← delete config k; mret Deleted) d
  | OpEnumerate order => (l ← @enumerate _ _ config order; mret (Listed l)) d
  end.
Proof.
  destruct o as [k s range|k range|k range|k meta|k|k|k|order]; cbn [body]; rewrite run_bind;
    (apply bind_ext; [|by intros]).
  - apply write_alone.
  - apply read_alone.
  - apply check_range_alone.
  - apply record_upstream_meta_alone.
  - apply with_metadata_alone.
  - apply run_call.
  - apply delete_alone.
  - apply enumerate_alone.
Qed.
End Alone.
