(* ===== verification/DiskInvariant.v ===== *)
(** * The disk engine: invariant

    The cache is compared with the content of each upstream resource.  The
    invariant says that the ranges the index and the metadata files record
    for a key are in normal form and that the data file holds, at their
    offsets, the bytes of the resource.  This file defines it and shows how
    the file system calls the engine makes preserve it. *)

From Stdlib Require Import Strings.Byte Strings.String.
From S2P Require Import Prelude Bytes Error External Digest Range RangeTable FileSystem Storage Disk.

(** What the engine relies on of [serde_json]: a record that was serialized
    is read back as it was, and what is read has fields of the declared
    types. *)
Class MetadataJsonLaws `{MetadataJson} : Prop := {
  json_round_trip m b :
    metadata_typed m -> json_to_vec m = Ok b -> json_from_slice b = Some m;
  json_typed b m : json_from_slice b = Some m -> metadata_typed m;
}.

(** ** Paths *)

Lemma parent_snoc p n : parent (p ++ [n]) = p.
Proof. apply removelast_last. Qed.
Lemma file_name_snoc p n : file_name (p ++ [n]) = n.
Proof. apply last_last. Qed.
Lemma with_extension_snoc p n e : with_extension (p ++ [n]) e = p ++ [name_with_extension n e].
Proof. unfold with_extension. by rewrite parent_snoc, file_name_snoc. Qed.

Lemma file_stem_no_dot n : x2e ∉ n -> file_stem n = n.
Proof.
  intros Hn. unfold file_stem. destruct (split_once x2e (reverse n)) as [[l r]|] eqn:E; [|done].
  apply split_once_Some in E as [E _]. exfalso. apply Hn.
  rewrite <- elem_of_reverse, E. apply elem_of_app. right. apply list_elem_of_here.
Qed.

Lemma file_stem_dot n e : n <> [] -> x2e ∉ e -> file_stem (n ++ x2e :: e) = n.
Proof.
  intros Hn He. unfold file_stem.
  replace (split_once x2e (reverse (n ++ x2e :: e))) with (Some (reverse e, reverse n)).
  - rewrite decide_False; [apply reverse_involutive|].
    intros E. apply Hn. by rewrite <- (reverse_involutive n), E.
  - symmetry. apply split_once_Some. rewrite elem_of_reverse. split; [|done].
    rewrite reverse_app, reverse_cons, <- app_assoc. done.
Qed.

Section Paths.
Context `{Sha256} (config : StorageConfig).

Abbreviation dp := (get_file_path config).
Abbreviation mp := (get_metadata_path config).
Definition temporary_path (k : text) : path :=
  with_extension (get_metadata_path config k) (str "ranges.json.tmp").
Abbreviation tp := temporary_path.

Definition shard_dir (k : text) : path :=
  let hash := sha256_hex k in root_path config ++ [take 2 hash; take 2 (drop 2 hash)].

Lemma dp_eq k : dp k = shard_dir k ++ [sha256_hex k].
Proof. unfold get_file_path, shard_dir. by rewrite <- app_assoc. Qed.

Lemma mp_eq k : mp k = shard_dir k ++ [sha256_hex k ++ str ".ranges.json"].
Proof.
  unfold get_metadata_path. rewrite dp_eq, with_extension_snoc.
  unfold name_with_extension. simpl. by rewrite file_stem_no_dot by apply sha256_hex_no_dot.
Qed.

Lemma tp_eq k : sha256_hex k <> [] ->
  tp k = shard_dir k ++ [sha256_hex k ++ str ".ranges.ranges.json.tmp"].
Proof.
  intros Hne. unfold temporary_path. rewrite mp_eq, with_extension_snoc.
  unfold name_with_extension. cbn [str].
  replace (sha256_hex k ++ str ".ranges.json")
    with ((sha256_hex k ++ str ".ranges") ++ x2e :: str "json")
    by (rewrite <- app_assoc; done).
  rewrite file_stem_dot; [by rewrite <- app_assoc| |].
  - destruct (sha256_hex k); done.
  - apply (bool_decide_unpack _). vm_compute. exact I.
Qed.
End Paths.

Section Invariant.
Context {sha : Sha256} {shaL : Sha256Laws} {js : MetadataJson} {jsL : MetadataJsonLaws}.
Context {ord : HashOrder text RangeMetadata}.
Context (config : StorageConfig).
(** The bytes of the upstream resource a key stands for. *)
Context (content : text -> list byte).
(** The keys in use: no two of them have the same digest. *)
Context (InUse : text -> Prop).

Abbreviation dp := (get_file_path config).
Abbreviation mp := (get_metadata_path config).
Abbreviation tp := (temporary_path config).
Abbreviation honest_at := (honest_at content).

Definition no_collision : Prop :=
  forall k1 k2, InUse k1 -> InUse k2 -> sha256 k1 = sha256 k2 -> k1 = k2.
(** The resources fit a file. *)
Definition content_fits : Prop :=
  forall k, Z.of_nat (length (content k)) <= i64_max.

Lemma sha256_hex_nonempty k : sha256_hex k <> [].
Proof. pose proof (sha256_hex_length k) as Hl. destruct (sha256_hex k); done. Qed.

(** The first dot separates the digest from the suffix. *)
Lemma hex_suffix_inj k1 k2 e1 e2 :
  (e1 = [] \/ exists t, e1 = x2e :: t) -> (e2 = [] \/ exists t, e2 = x2e :: t) ->
  sha256_hex k1 ++ e1 = sha256_hex k2 ++ e2 -> sha256_hex k1 = sha256_hex k2 /\ e1 = e2.
Proof.
  intros H1 H2 E. revert E. pose proof (sha256_hex_no_dot k1) as N1.
  pose proof (sha256_hex_no_dot k2) as N2. revert N1 N2.
  generalize (sha256_hex k1), (sha256_hex k2). intros a1.
  induction a1 as [|b a1 IH]; intros [|b' a2] N1 N2 E; simpl in *; try done.
  - destruct H1 as [->|[t ->]]; [done|]. injection E as <- _. by destruct N2; left.
  - destruct H2 as [->|[t ->]]; [done|]. injection E as -> _. by destruct N1; left.
  - injection E as -> E. apply not_elem_of_cons in N1 as [_ N1].
    apply not_elem_of_cons in N2 as [_ N2]. by destruct (IH a2 N1 N2 E) as [-> ->].
Qed.

Lemma snoc_inj {A} (p q : list A) x y : p ++ [x] = q ++ [y] -> p = q /\ x = y.
Proof. apply app_inj_tail. Qed.

Lemma dp_inj k1 k2 : no_collision -> InUse k1 -> InUse k2 -> dp k1 = dp k2 -> k1 = k2.
Proof.
  intros Hc H1 H2. rewrite !dp_eq. intros [_ E]%snoc_inj.
  apply Hc; [done..|]. by apply sha256_hex_inj.
Qed.

Lemma mp_inj k1 k2 : no_collision -> InUse k1 -> InUse k2 -> mp k1 = mp k2 -> k1 = k2.
Proof.
  intros Hc H1 H2. rewrite !mp_eq. intros [_ E]%snoc_inj.
  apply hex_suffix_inj in E as [E _]; [|right; eexists; reflexivity..].
  apply Hc; [done..|]. by apply sha256_hex_inj.
Qed.

Lemma dp_ne_mp k1 k2 : dp k1 <> mp k2.
Proof.
  rewrite dp_eq, mp_eq. intros [_ E]%snoc_inj. rewrite <- (app_nil_r (sha256_hex k1)) in E.
  apply hex_suffix_inj in E as [_ E]; [done|by left|right; eexists; reflexivity].
Qed.

Lemma dp_ne_tp k1 k2 : dp k1 <> tp k2.
Proof.
  rewrite dp_eq, tp_eq by apply sha256_hex_nonempty.
  intros [_ E]%snoc_inj. rewrite <- (app_nil_r (sha256_hex k1)) in E.
  apply hex_suffix_inj in E as [_ E]; [done|by left|right; eexists; reflexivity].
Qed.

Lemma mp_ne_tp k1 k2 : mp k1 <> tp k2.
Proof.
  rewrite mp_eq, tp_eq by apply sha256_hex_nonempty. intros [_ E]%snoc_inj.
  apply hex_suffix_inj in E as [_ E]; [done|right; eexists; reflexivity..].
Qed.

(** ** The invariant *)

(** The data file holds the resource's bytes at every offset of [r]. *)
Definition good_at (s : fs) (k : text) (i : nat) (r : Z * Z) : Prop :=
  exists c, inodes s !! i = Some c
    /\ forall o, r.1 <= o <= r.2 ->
         is_Some (content k !! Z.to_nat o) /\ c !! Z.to_nat o = content k !! Z.to_nat o.
Definition range_good (s : fs) (k : text) (r : Z * Z) : Prop :=
  exists i, names s !! dp k = Some i /\ good_at s k i r.

(** What a reader of the record may rely on. *)
Definition view_good (s : fs) (k : text) (m : RangeMetadata) : Prop :=
  normal (completed m) /\ Forall (range_good s k) (completed m)
  /\ forall t, total_size m = Some t -> t = Z.of_nat (length (content k)).
Definition meta_good (s : fs) (k : text) (m : RangeMetadata) : Prop :=
  view_good s k m /\ key m = Some k /\ 0 <= version m <= RANGE_METADATA_VERSION.

Record fs_inv (s : fs) : Prop := {
  inv_alloc p i : names s !! p = Some i -> (i < next_ino s)%nat /\ is_Some (inodes s !! i);
  inv_links p q i : names s !! p = Some i -> names s !! q = Some i -> p = q;
  inv_meta k i b m : InUse k -> names s !! mp k = Some i -> inodes s !! i = Some b ->
    json_from_slice b = Some m -> key m = Some k -> version m <= RANGE_METADATA_VERSION ->
    view_good s k m;
  inv_size k i c : InUse k -> names s !! dp k = Some i -> inodes s !! i = Some c ->
    (length c <= length (content k))%nat;
}.

Record disk_inv (d : DiskStorage) : Prop := {
  inv_fs : fs_inv (disk_fs d);
  inv_index k m : InUse k -> metadata_index d !! k = Some m -> meta_good (disk_fs d) k m;
}.

(** An inode that is, or was, the data file of [k] and nothing else. *)
Definition owned (s : fs) (k : text) (i : nat) : Prop :=
  (i < next_ino s)%nat /\ forall p, names s !! p = Some i -> p = dp k.

(** What no later step takes away: ownership, and correct bytes. *)
Definition evolves (s s' : fs) : Prop :=
  forall k i, InUse k -> owned s k i ->
    owned s' k i /\ forall r, good_at s k i r -> good_at s' k i r.
(** Data files stay linked. *)
Definition linked (s s' : fs) : Prop :=
  forall k i, InUse k -> names s !! dp k = Some i -> names s' !! dp k = Some i.
Definition keeps (s s' : fs) : Prop := evolves s s' /\ linked s s'.

#[export] Instance evolves_preorder : PreOrder evolves.
Proof.
  split.
  - intros s k i _ Ho. done.
  - intros s1 s2 s3 H12 H23 k i Hk Ho.
    destruct (H12 k i Hk Ho) as [Ho2 Hg2]. destruct (H23 k i Hk Ho2) as [Ho3 Hg3]. auto.
Qed.
#[export] Instance keeps_preorder : PreOrder keeps.
Proof.
  split.
  - intros s. split; [reflexivity|]. by intros k i.
  - intros s1 s2 s3 [E12 L12] [E23 L23]. split; [by etrans|]. intros k i Hk Hn. auto.
Qed.

Lemma linked_owned s k i : fs_inv s -> names s !! dp k = Some i -> owned s k i.
Proof.
  intros Hi Hn. split; [by apply (inv_alloc s Hi (dp k))|].
  intros p Hp. by apply (inv_links s Hi p (dp k) i).
Qed.

Lemma range_good_mono s s' k r :
  InUse k -> fs_inv s -> keeps s s' -> range_good s k r -> range_good s' k r.
Proof.
  intros Hk Hi [He Hl] (i & Hn & Hg). exists i. split; [auto|].
  by apply (He k i Hk (linked_owned s k i Hi Hn)).
Qed.

Lemma view_good_mono s s' k m :
  InUse k -> fs_inv s -> keeps s s' -> view_good s k m -> view_good s' k m.
Proof.
  intros Hk Hi Hs (Hn & Hf & Ht). split_and!; [done| |done].
  eapply Forall_impl; [exact Hf|]. intros r. by apply range_good_mono.
Qed.

Lemma meta_good_mono s s' k m :
  InUse k -> fs_inv s -> keeps s s' -> meta_good s k m -> meta_good s' k m.
Proof. intros Hk Hi Hs [Hv Hm]. split; [by eapply view_good_mono|done]. Qed.

Lemma view_good_default s k : view_good s k metadata_default.
Proof. split_and!; [apply normal_nil|constructor|done]. Qed.

(** A step that touches no data file. *)
Definition quiet (s s' : fs) : Prop :=
  (forall k, InUse k -> names s' !! dp k = names s !! dp k)
  /\ forall k i, InUse k -> owned s k i -> owned s' k i /\ inodes s' !! i = inodes s !! i.

Lemma quiet_keeps s s' : quiet s s' -> keeps s s'.
Proof.
  intros [Hn Hq]. split.
  - intros k i Hk Ho. destruct (Hq k i Hk Ho) as [? E]. split; [done|].
    intros r (c & Hc & Hr). exists c. by rewrite E.
  - intros k i Hk Hi. by rewrite Hn.
Qed.
(** ** File system steps *)

(** Steps that change neither names nor inodes. *)
Definition same_files (s s' : fs) : Prop :=
  names s' = names s /\ inodes s' = inodes s /\ next_ino s' = next_ino s.

Lemma same_quiet s s' : same_files s s' -> quiet s s'.
Proof.
  intros (Hn & Hi & Hx). split; [by rewrite Hn|]. intros k i _. unfold owned.
  by rewrite Hn, Hi, Hx.
Qed.

Lemma same_inv s s' : same_files s s' -> fs_inv s -> fs_inv s'.
Proof.
  intros (Hn & Hi & Hx) [A L M Z].
  split; unfold view_good, range_good, good_at in *; rewrite ?Hn, ?Hi, ?Hx; done.
Qed.

Lemma same_pop s : same_files s (pop s).
Proof. done. Qed.

(** A step that touches no data file keeps what is known of one. *)
Lemma quiet_view s s' k m :
  InUse k -> quiet s s' -> fs_inv s -> view_good s k m -> view_good s' k m.
Proof. intros Hk Hq Hi. apply view_good_mono; [done|done|by apply quiet_keeps]. Qed.

Lemma alloc_owned s p c k i :
  fs_inv s -> owned s k i -> owned (alloc p c s) k i /\ inodes (alloc p c s) !! i = inodes s !! i.
Proof.
  intros Hi [Hlt Ho]. simpl. split.
  - split; simpl; [lia|]. intros q. rewrite lookup_insert_Some.
    intros [[_ Hq]|[_ Hq]]; [lia|auto].
  - rewrite lookup_insert_ne; [done|lia].
Qed.

Lemma alloc_inv_links s p c :
  fs_inv s ->
  (forall q i, names (alloc p c s) !! q = Some i ->
     (i < next_ino (alloc p c s))%nat /\ is_Some (inodes (alloc p c s) !! i))
  /\ (forall q q' i, names (alloc p c s) !! q = Some i ->
        names (alloc p c s) !! q' = Some i -> q = q').
Proof.
  intros Hi. simpl. split.
  - intros q i. rewrite lookup_insert_Some. intros [[_ <-]|[_ Hq]].
    + rewrite lookup_insert_eq. split; [lia|done].
    + destruct (inv_alloc s Hi q i Hq). rewrite lookup_insert_ne by lia. split; [lia|done].
  - intros q q' i. rewrite !lookup_insert_Some.
    intros [[<- <-]|[_ Hq]] [[<- Hx]|[_ Hq']]; try done.
    + apply (inv_alloc s Hi) in Hq' as [? _]. lia.
    + apply (inv_alloc s Hi) in Hq as [? _]. lia.
    + by apply (inv_links s Hi q q' i).
Qed.

(** Creating the data file of [k]. *)
Lemma create_data_step s k :
  fs_inv s -> names s !! dp k = None ->
  fs_inv (alloc (dp k) [] s) /\ keeps s (alloc (dp k) [] s).
Proof.
  intros Hi Hn.
  assert (Hk : keeps s (alloc (dp k) [] s)).
  { split.
    - intros k' i _ Ho. destruct (alloc_owned s (dp k) [] k' i Hi Ho) as [? E].
      split; [done|]. intros r (c & Hc & Hr). exists c. by rewrite E.
    - intros k' i _ Hl. simpl. rewrite lookup_insert_ne; [done|]. congruence. }
  split; [|done]. destruct (alloc_inv_links s (dp k) [] Hi) as [A L]. split; [done|done| |].
  - intros k' i b m HU Hm Hb Hj Hkey Hv. simpl in Hm, Hb.
    rewrite lookup_insert_ne in Hm by apply dp_ne_mp.
    pose proof (inv_alloc s Hi _ _ Hm) as [Hlt _].
    rewrite lookup_insert_ne in Hb by lia.
    eapply view_good_mono; [done|exact Hi|exact Hk|]. by eapply (inv_meta s Hi).
  - intros k' i c HU. simpl. rewrite lookup_insert_Some. intros [[_ <-]|[_ Hl]].
    + rewrite lookup_insert_eq. intros [= <-]. simpl. lia.
    + pose proof (inv_alloc s Hi _ _ Hl) as [Hlt _]. rewrite lookup_insert_ne by lia.
      by apply (inv_size s Hi).
Qed.

Lemma honest_at_take k pos b n : honest_at k pos b -> honest_at k pos (take n b).
Proof. intros Hh j x Hx%lookup_take_Some. apply Hh, Hx. Qed.

Lemma honest_at_app k pos b1 b2 :
  honest_at k pos (b1 ++ b2) <-> honest_at k pos b1 /\ honest_at k (pos + length b1) b2.
Proof.
  split.
  - intros Hh. split.
    + intros j x Hx. apply Hh. by apply lookup_app_l_Some.
    + intros j x Hx. rewrite <- Nat.add_assoc. apply Hh.
      rewrite lookup_app_r by lia. by replace (_ - _)%nat with j by lia.
  - intros [H1 H2] j x [Hx|[Hl Hx]]%lookup_app_Some; [auto|].
    specialize (H2 _ _ Hx). by replace (pos + j)%nat with (pos + length b1 + (j - length b1))%nat by lia.
Qed.

Lemma honest_at_length k pos b :
  honest_at k pos b -> b <> [] -> (pos + length b <= length (content k))%nat.
Proof.
  intros Hh Hb. destruct (lookup_lt_is_Some_2 b (length b - 1)) as [x Hx].
  { destruct b; [done|simpl; lia]. }
  specialize (Hh _ _ Hx). apply lookup_lt_Some in Hh. destruct b; [done|simpl in *; lia].
Qed.

(** Writing such bytes into the data file of [k]. *)
Lemma write_data_step s k i pos b :
  no_collision -> InUse k -> fs_inv s -> names s !! dp k = Some i -> honest_at k pos b ->
  let s' := set_inodes (alter (fun c => overwrite c pos b) i) s in
  fs_inv s' /\ keeps s s' /\
  (b <> [] -> good_at s' k i (Z.of_nat pos, Z.of_nat (pos + length b) - 1)).
Proof.
  intros Hc HU Hi Hn Hh. cbv zeta.
  destruct (inv_alloc s Hi _ _ Hn) as [Hlt [c Hci]].
  assert (Hnew : inodes (set_inodes (alter (fun c => overwrite c pos b) i) s) !! i
                 = Some (overwrite c pos b)).
  { simpl. by rewrite lookup_alter_eq, Hci. }
  assert (Hold : forall j, j <> i ->
            inodes (set_inodes (alter (fun c => overwrite c pos b) i) s) !! j = inodes s !! j).
  { intros j Hj. simpl. by rewrite lookup_alter_ne. }
  assert (Hin : forall o, (pos <= o < pos + length b)%nat ->
            is_Some (content k !! o) /\ overwrite c pos b !! o = content k !! o).
  { intros o Ho. rewrite overwrite_lookup_in by done.
    destruct (lookup_lt_is_Some_2 b (o - pos)) as [x Hx]; [lia|].
    specialize (Hh _ _ Hx). replace (pos + (o - pos))%nat with o in Hh by lia.
    rewrite Hx, Hh. eauto. }
  assert (Hk : keeps s (set_inodes (alter (fun c => overwrite c pos b) i) s)).
  { split; [|by intros ? ?]. intros k' j HU' [Hlt' Ho]. split; [done|].
    intros r (c' & Hc' & Hr). destruct (decide (j = i)) as [->|Hj].
    - exists (overwrite c pos b). split; [done|]. simplify_eq.
      assert (k' = k) as -> by (apply (dp_inj k' k Hc HU' HU); symmetry; by apply Ho).
      intros o Ho'. destruct (Hr o Ho') as [[x Hx] E]. split; [eauto|].
      destruct (decide (pos <= Z.to_nat o < pos + length b)%nat) as [Hb|Hb];
        [by apply Hin|]. rewrite Hx. apply overwrite_lookup_out; [done|congruence].
    - exists c'. by rewrite Hold. }
  split_and!; [|done|].
  - split.
    + intros p j Hp. destruct (inv_alloc s Hi p j Hp) as [? [x Hx]]. split; [done|].
      destruct (decide (j = i)) as [->|]; [by rewrite Hnew|rewrite Hold by done; eauto].
    + apply (inv_links s Hi).
    + intros k' j bm m HU' Hm Hb Hj Hkey Hv.
      assert (j <> i). { intros ->. by eapply (dp_ne_mp k k'), (inv_links s Hi). }
      rewrite Hold in Hb by done.
      eapply view_good_mono; [done|exact Hi|exact Hk|]. by eapply (inv_meta s Hi).
    + intros k' j c' HU' Hl. destruct (decide (j = i)) as [->|].
      * rewrite Hnew. intros [= <-].
        assert (k' = k) as -> by (apply (dp_inj k' k Hc HU' HU), (inv_links s Hi _ _ i); done).
        pose proof (inv_size s Hi k i c HU Hn Hci).
        destruct b as [|x b]; [done|]. rewrite length_overwrite by done.
        pose proof (honest_at_length k pos (x :: b) Hh). lia || (apply Nat.max_lub; auto).
      * rewrite Hold by done. by apply (inv_size s Hi).
  - intros Hb. exists (overwrite c pos b). split; [done|]. simpl. intros o Ho. apply Hin. lia.
Qed.
(** Writing a file that is no data file and no metadata file. *)
Lemma put_other_step s p c :
  fs_inv s -> (forall k, InUse k -> p <> dp k) -> (forall k, InUse k -> p <> mp k) ->
  fs_inv (put_file p c s) /\ quiet s (put_file p c s).
Proof.
  intros Hi Hd Hm. unfold put_file. destruct (names s !! p) as [j|] eqn:Ep.
  - assert (Hq : quiet s (set_inodes <[j := c]> s)).
    { split; [done|]. intros k i Hk [Hlt Ho]. split; [done|]. simpl.
      rewrite lookup_insert_ne; [done|]. intros <-. by apply (Hd k Hk), Ho. }
    split; [|done]. split.
    + intros q i Hq'. destruct (inv_alloc s Hi q i Hq'). split; [done|]. simpl.
      rewrite lookup_insert_is_Some. destruct (decide (j = i)); auto.
    + apply (inv_links s Hi).
    + intros k i b m HU Hmk Hb. simpl in Hb. rewrite lookup_insert_ne in Hb.
      * intros. eapply quiet_view; [done|exact Hq|exact Hi|]. by eapply (inv_meta s Hi).
      * intros <-. by apply (Hm k HU), (inv_links s Hi p (mp k) j).
    + intros k i c' HU Hdk Hc. simpl in Hc. rewrite lookup_insert_ne in Hc.
      * by eapply (inv_size s Hi).
      * intros <-. by apply (Hd k HU), (inv_links s Hi p (dp k) j).
  - assert (Hq : quiet s (alloc p c s)).
    { split.
      - intros k Hk. simpl. rewrite lookup_insert_ne; [done|]. by apply Hd.
      - intros k i Hk. by apply alloc_owned. }
    destruct (alloc_inv_links s p c Hi) as [A L]. split; [|done]. split; [done|done| |].
    + intros k i b m HU Hmk Hb. simpl in Hmk, Hb. rewrite lookup_insert_ne in Hmk by by apply Hm.
      pose proof (inv_alloc s Hi _ _ Hmk) as [Hlt _]. rewrite lookup_insert_ne in Hb by lia.
      intros. eapply quiet_view; [done|exact Hq|exact Hi|]. by eapply (inv_meta s Hi).
    + intros k i c' HU Hdk Hc. simpl in Hdk, Hc. rewrite lookup_insert_ne in Hdk by by apply Hd.
      pose proof (inv_alloc s Hi _ _ Hdk) as [Hlt _]. rewrite lookup_insert_ne in Hc by lia.
      by eapply (inv_size s Hi).
Qed.

Lemma put_temporary_step s k c :
  fs_inv s -> fs_inv (put_file (tp k) c s) /\ quiet s (put_file (tp k) c s).
Proof.
  intros Hi. apply put_other_step; [done|..]; intros k' _.
  - apply not_eq_sym, dp_ne_tp.
  - apply not_eq_sym, mp_ne_tp.
Qed.

Lemma put_file_content s p c i :
  names (put_file p c s) !! p = Some i -> inodes (put_file p c s) !! i = Some c.
Proof.
  unfold put_file. destruct (names s !! p) as [j|] eqn:E; simpl.
  - rewrite E. intros [= <-]. apply lookup_insert_eq.
  - rewrite lookup_insert_eq. intros [= <-]. apply lookup_insert_eq.
Qed.

Lemma put_file_name s p c : is_Some (names (put_file p c s) !! p).
Proof.
  unfold put_file. destruct (names s !! p) as [j|] eqn:E; simpl; [by rewrite E|].
  by rewrite lookup_insert_eq.
Qed.

(** Publishing the temporary file as the metadata of [k]. *)
Lemma publish_step s k j b :
  no_collision -> InUse k -> fs_inv s -> names s !! tp k = Some j -> inodes s !! j = Some b ->
  (forall m, json_from_slice b = Some m -> key m = Some k -> view_good s k m) ->
  let s' := set_names (fun n => <[mp k := j]> (base.delete (tp k) n)) s in
  fs_inv s' /\ quiet s s'.
Proof.
  intros Hc HU Hi Ht Hb Hg. cbv zeta.
  assert (Hq : quiet s (set_names (fun n => <[mp k := j]> (base.delete (tp k) n)) s)).
  { split.
    - intros k' Hk. simpl. rewrite lookup_insert_ne by apply not_eq_sym, dp_ne_mp.
      by rewrite lookup_delete_ne by apply not_eq_sym, dp_ne_tp.
    - intros k' i Hk [Hlt Ho]. split; [|done]. split; [done|]. intros p. simpl.
      rewrite lookup_insert_Some, lookup_delete_Some.
      intros [[<- <-]|[_ [_ Hp]]]; [|auto]. by destruct (dp_ne_tp k' k); symmetry; apply Ho. }
  split; [|done]. split.
  - intros p i. simpl. rewrite lookup_insert_Some, lookup_delete_Some.
    intros [[<- <-]|[_ [_ Hp]]]; by eapply (inv_alloc s Hi).
  - intros p q i. simpl. rewrite !lookup_insert_Some, !lookup_delete_Some.
    intros [[<- <-]|[? [Hpt Hp]]] [[<- Hx]|[? [Hqt Hq']]]; try done.
    + by destruct Hqt; apply (inv_links s Hi _ _ j).
    + subst i. by destruct Hpt; apply (inv_links s Hi _ _ j).
    + by apply (inv_links s Hi p q i).
  - intros k' i bm m HU' Hm Hbm Hj Hkey Hv. simpl in Hm, Hbm.
    eapply quiet_view; [done|exact Hq|exact Hi|].
    apply lookup_insert_Some in Hm as [[Emp <-]|[_ [_ Hm]%lookup_delete_Some]].
    + apply mp_inj in Emp as <-; [|done..]. simplify_eq. by apply Hg.
    + by eapply (inv_meta s Hi).
  - intros k' i c HU' Hd Hci. simpl in Hd, Hci.
    rewrite lookup_insert_ne in Hd by apply not_eq_sym, dp_ne_mp.
    rewrite lookup_delete_ne in Hd by apply not_eq_sym, dp_ne_tp.
    by eapply (inv_size s Hi).
Qed.

(** Removing a name. *)
Lemma remove_owned s p k i : owned s k i -> owned (set_names (base.delete p) s) k i.
Proof. intros [Hlt Ho]. split; [done|]. simpl. intros q [_ Hq]%lookup_delete_Some. auto. Qed.

Lemma remove_evolves s p : evolves s (set_names (base.delete p) s).
Proof. intros k i _ Ho. split; [by apply remove_owned|done]. Qed.

Lemma remove_other_step s p :
  fs_inv s -> (forall k, InUse k -> p <> dp k) ->
  fs_inv (set_names (base.delete p) s) /\ quiet s (set_names (base.delete p) s).
Proof.
  intros Hi Hd.
  assert (Hq : quiet s (set_names (base.delete p) s)).
  { split.
    - intros k Hk. simpl. rewrite lookup_delete_ne; [done|]. by apply Hd.
    - intros k i _ Ho. split; [by apply remove_owned|done]. }
  split; [|done]. split.
  - intros q i. simpl. intros [_ Hl]%lookup_delete_Some. by eapply (inv_alloc s Hi).
  - intros q q' i. simpl. intros [_ ?]%lookup_delete_Some [_ ?]%lookup_delete_Some.
    by apply (inv_links s Hi q q' i).
  - intros k i b m HU. simpl. intros [_ Hm]%lookup_delete_Some Hb Hj Hkey Hv.
    eapply quiet_view; [done|exact Hq|exact Hi|]. by eapply (inv_meta s Hi).
  - intros k i c HU. simpl. intros [_ Hl]%lookup_delete_Some. by eapply (inv_size s Hi).
Qed.

(** Removing the data file of [k] when no metadata file of [k] is left. *)
Lemma remove_pair_step s k :
  no_collision -> InUse k -> fs_inv s ->
  fs_inv (set_names (fun n => base.delete (mp k) (base.delete (dp k) n)) s).
Proof.
  intros Hc HU Hi. split.
  - intros q i. simpl. intros [_ [_ Hl]%lookup_delete_Some]%lookup_delete_Some.
    by eapply (inv_alloc s Hi).
  - intros q q' i. simpl.
    intros [_ [_ ?]%lookup_delete_Some]%lookup_delete_Some
           [_ [_ ?]%lookup_delete_Some]%lookup_delete_Some.
    by apply (inv_links s Hi q q' i).
  - intros k' i b m HU'. simpl.
    intros [Hne [_ Hm]%lookup_delete_Some]%lookup_delete_Some Hb Hj Hkey Hv.
    destruct (inv_meta s Hi k' i b m HU' Hm Hb Hj Hkey Hv) as (Hn & Hf & Ht).
    split_and!; [done| |done]. eapply Forall_impl; [exact Hf|].
    intros r (i' & Hd & Hg). exists i'. split; [|done]. simpl.
    rewrite lookup_delete_ne by apply not_eq_sym, dp_ne_mp.
    rewrite lookup_delete_ne; [done|]. intros E. apply Hne.
    by rewrite (dp_inj k k' Hc HU HU' E).
  - intros k' i c HU'. simpl. intros [_ [_ Hl]%lookup_delete_Some]%lookup_delete_Some.
    by eapply (inv_size s Hi).
Qed.
End Invariant.
