(* ===== verification/DiskMetadata.v ===== *)
(** * The disk engine: metadata operations

    How loading, indexing, publishing and editing the metadata of a key
    behave on a cache that satisfies the invariant, for every fault script. *)

From Stdlib Require Import Strings.Byte Strings.String.
From S2P Require Import Prelude Bytes Error External Digest Range RangeTable FileSystem Storage Disk DiskInvariant.

(** A call that changes no file. *)
Definition readonly {A} (m : FS A) : Prop := forall s, same_files s (m s).2.

Lemma readonly_syscall {A} (body : fs -> result ioerr A) :
  readonly (syscall (fun s => (body s, s))).
Proof. intros s. unfold syscall. by destruct (next_fault s). Qed.

Lemma readonly_stat p : readonly (fs_stat p).
Proof. intros s. unfold fs_stat, syscall. repeat case_match; done. Qed.
Lemma readonly_read p : readonly (fs_read p).
Proof. intros s. unfold fs_read, syscall. repeat case_match; done. Qed.
Lemma readonly_open p : readonly (fs_open p).
Proof. intros s. unfold fs_open, syscall. repeat case_match; done. Qed.
Lemma readonly_fstat i : readonly (fs_fstat i).
Proof. intros s. unfold fs_fstat, syscall. repeat case_match; done. Qed.
Lemma readonly_seek n : readonly (fs_seek n).
Proof. intros s. unfold fs_seek, syscall. repeat case_match; done. Qed.
Lemma readonly_sync : readonly fs_sync.
Proof. intros s. unfold fs_sync, syscall. repeat case_match; done. Qed.
Lemma readonly_touch : readonly fs_touch.
Proof. intros s. unfold fs_touch, syscall. repeat case_match; done. Qed.
Lemma readonly_read_dir p : readonly (fs_read_dir p).
Proof. intros s. unfold fs_read_dir, syscall. repeat case_match; done. Qed.
Lemma readonly_mkdir p : readonly (fs_create_dir_all p).
Proof. intros s. unfold fs_create_dir_all, syscall. repeat case_match; done. Qed.
Lemma readonly_pread i pos n : readonly (fs_pread_short i pos n).
Proof. intros s. unfold fs_pread_short, fs_pread, syscall. repeat case_match; done. Qed.

#[export] Hint Resolve readonly_stat readonly_read readonly_open readonly_fstat readonly_seek
  readonly_sync readonly_touch readonly_read_dir readonly_mkdir readonly_pread : proxy.

(** Two states with the same files and index. *)
Definition same_disk (d d' : DiskStorage) : Prop :=
  same_files (disk_fs d) (disk_fs d') /\ metadata_index d' = metadata_index d.

#[export] Instance same_disk_preorder : PreOrder same_disk.
Proof.
  split.
  - done.
  - intros d1 d2 d3 [(A1 & B1 & C1) D1] [(A2 & B2 & C2) D2].
    unfold same_disk, same_files. rewrite A2, B2, C2, D2. done.
Qed.

Lemma io_ok_run {A} (m : FS A) d r d' :
  io_ok m d = (r, d') ->
  exists ro s, m (disk_fs d) = (ro, s) /\ d' = set_fs s d
    /\ r = Ok (match ro with Ok a => Some a | Err _ => None end).
Proof. unfold io_ok. destruct (m (disk_fs d)) as [ro s]. intros [= <- <-]. eauto 6. Qed.

Lemma io_q_run {A} (m : FS A) d r d' :
  io_q m d = (r, d') ->
  exists ro s, m (disk_fs d) = (ro, s) /\ d' = set_fs s d
    /\ r = map_err (fun e => ProxyError.from_io (io_text e)) ro.
Proof. unfold io_q. destruct (m (disk_fs d)) as [ro s]. intros [= <- <-]. eauto 6. Qed.

Lemma readonly_set_fs {A} (m : FS A) d ro s :
  readonly m -> m (disk_fs d) = (ro, s) -> same_disk d (set_fs s d).
Proof. intros Hr E. specialize (Hr (disk_fs d)). by rewrite E in Hr. Qed.

Lemma readonly_io_ok {A} (m : FS A) d r d' : readonly m -> io_ok m d = (r, d') -> same_disk d d'.
Proof. intros Hr (ro & s & E & -> & _)%io_ok_run. by eapply readonly_set_fs. Qed.

Lemma readonly_io_q {A} (m : FS A) d r d' : readonly m -> io_q m d = (r, d') -> same_disk d d'.
Proof. intros Hr (ro & s & E & -> & _)%io_q_run. by eapply readonly_set_fs. Qed.

(** What a successful [stat], [read] or [open] tells. *)
Lemma fs_stat_Ok p s n s' :
  fs_stat p s = (Ok n, s') ->
  exists i c, names s !! p = Some i /\ inodes s !! i = Some c /\ n = Z.of_nat (length c).
Proof.
  unfold fs_stat, syscall. destruct (next_fault s); simpl; try done;
    destruct (names s !! p) as [i|]; simpl; try done;
    destruct (inodes s !! i) as [c|] eqn:Ec; try done; intros [= <- _]; eauto.
Qed.

Lemma fs_read_Ok p s b s' :
  fs_read p s = (Ok b, s') -> exists i, names s !! p = Some i /\ inodes s !! i = Some b.
Proof.
  unfold fs_read, syscall. destruct (next_fault s); simpl; try done;
    destruct (names s !! p) as [i|]; simpl; try done;
    destruct (inodes s !! i) as [c|] eqn:Ec; try done; intros [= <- _]; eauto.
Qed.

Section Metadata.
Context {sha : Sha256} {shaL : Sha256Laws} {js : MetadataJson} {jsL : MetadataJsonLaws}.
Context {ord : HashOrder text RangeMetadata}.
Context (config : StorageConfig) (content : text -> list byte) (InUse : text -> Prop).
Context (Hcoll : no_collision InUse) (Hfit : content_fits content).

Abbreviation dp := (get_file_path config).
Abbreviation mp := (get_metadata_path config).
Abbreviation tp := (temporary_path config).
Abbreviation fs_inv := (fs_inv config content InUse).
Abbreviation disk_inv := (disk_inv config content InUse).
Abbreviation view_good := (view_good config content).
Abbreviation meta_good := (meta_good config content).
Abbreviation keeps := (keeps config content InUse).
Abbreviation quiet := (quiet config InUse).

Lemma pop_inv s : fs_inv s -> fs_inv (pop s).
Proof. intros Hi. eapply same_inv; [|exact Hi]. done. Qed.

Lemma same_disk_inv d d' : same_disk d d' -> disk_inv d -> disk_inv d'.
Proof.
  intros [Hs Hx] [Hf Hi]. split; [by eapply same_inv|]. intros k m HU Hk.
  rewrite Hx in Hk. eapply meta_good_mono; [done|exact Hf| |by apply Hi].
  by apply quiet_keeps, same_quiet.
Qed.

Lemma same_disk_keeps d d' : same_disk d d' -> keeps (disk_fs d) (disk_fs d').
Proof. intros [Hs _]. by apply quiet_keeps, same_quiet. Qed.

(** The index stays right when files change but data is kept. *)
Lemma index_keeps d s :
  disk_inv d -> fs_inv s -> keeps (disk_fs d) s -> disk_inv (set_fs s d).
Proof.
  intros [Hf Hi] Hs Hk. split; [done|]. intros k m HU Hm. simpl in *.
  eapply meta_good_mono; [done|exact Hf|exact Hk|by apply Hi].
Qed.

Lemma meta_good_typed s k m : meta_good s k m -> metadata_typed m.
Proof.
  intros ((Hn & _ & Ht) & _ & Hv). split_and!; [lia| |].
  - destruct Hn as [Hok _]. eapply Forall_impl; [exact Hok|].
    intros r [? ?]. unfold u64_pair, is_u64. lia.
  - intros t ->%Ht. specialize (Hfit k). unfold is_u64. lia.
Qed.

Lemma data_file_size_run k d r d' :
  data_file_size config k d = (r, d') ->
  same_disk d d' /\ exists o, r = Ok o /\
    forall n, o = Some n ->
      exists i c, names (disk_fs d') !! dp k = Some i /\ inodes (disk_fs d') !! i = Some c
        /\ n = Z.of_nat (length c).
Proof.
  intros E. unfold data_file_size in E. pose proof (readonly_io_ok _ _ _ _ (readonly_stat _) E) as Hs.
  split; [done|]. apply io_ok_run in E as (ro & s & E & -> & ->). eexists. split; [done|].
  destruct ro as [n|]; [|done]. intros ? [= <-]. apply fs_stat_Ok in E.
  destruct Hs as [(Hn & Hi & _) _]. simpl in *. by rewrite Hn, Hi.
Qed.

Lemma load_metadata_run k d r d' :
  InUse k -> disk_inv d -> load_metadata config k d = (r, d') ->
  same_disk d d' /\ exists o, r = Ok o /\
    forall m, o = Some m -> meta_good (disk_fs d') k m.
Proof.
  intros HU Hd E. unfold load_metadata in E. run_bind E as data d1 E1.
  2:{ apply io_ok_run in E1 as (? & ? & _ & _ & [=]). }
  pose proof (readonly_io_ok _ _ _ _ (readonly_read _) E1) as Hs1.
  apply io_ok_run in E1 as (ro & s & Er & -> & [= ->]).
  destruct ro as [b|]; simpl in E.
  2:{ injection E as <- <-. split; [done|]. exists None. done. }
  destruct (json_from_slice b) as [m|] eqn:Ej; simpl in E.
  2:{ injection E as <- <-. split; [done|]. exists None. done. }
  run_bind E as size d2 E2; apply data_file_size_run in E2 as (Hs2 & o & [= <-] & Hsz).
  injection E as <- <-. assert (Hs : same_disk d d2) by (by etrans).
  split; [done|]. destruct (metadata_is_valid m k size) eqn:Ev; [|by exists None].
  exists (Some m). split; [done|]. intros ? [= <-].
  apply fs_read_Ok in Er as (i & Hi & Hb).
  assert (Hv : version m <= RANGE_METADATA_VERSION /\ key m = Some k).
  { apply metadata_is_valid_spec in Ev; [|by eapply json_typed|].
    - tauto.
    - intros n ->. destruct (Hsz n eq_refl) as (j & c & Hj & Hc & ->).
      pose proof (inv_size _ _ _ _ (inv_fs _ _ _ _ (same_disk_inv _ _ Hs Hd)) k j c HU Hj Hc).
      specialize (Hfit k). unfold is_u64. lia. }
  destruct Hv as [Hv Hk].
  eapply meta_good_mono; [done|apply (inv_fs _ _ _ _ Hd)|by apply same_disk_keeps|].
  split; [|split; [done|]].
  - by eapply (inv_meta _ _ _ _ (inv_fs _ _ _ _ Hd)).
  - apply json_typed in Ej as [? _]. lia.
Qed.

Lemma index_insert_run k m d r d' :
  disk_inv d -> meta_good (disk_fs d) k m -> index_insert k m d = (r, d') ->
  r = Ok tt /\ disk_fs d' = disk_fs d /\ disk_inv d' /\ metadata_index d' !! k = Some m.
Proof.
  intros [Hf Hi] Hm [= <- <-]. split_and!; [done|done| |].
  - split; [done|]. intros k' m' HU. simpl.
    rewrite lookup_insert_Some. intros [[<- <-]|[_ Hl]]; [done|].
    apply Hi; [done|]. destruct (_ && _); [|done].
    destruct (keys_order _); [done|]. by apply lookup_delete_Some in Hl as [_ ?].
  - simpl. by rewrite lookup_insert_eq.
Qed.

(** The record a lookup works on. *)
Lemma with_metadata_run {T} k (view : RangeMetadata -> T) d r d' :
  InUse k -> disk_inv d -> with_metadata config k view d = (r, d') ->
  disk_inv d' /\ same_files (disk_fs d) (disk_fs d')
  /\ exists m, r = Ok (view m) /\ view_good (disk_fs d') k m
       /\ (forall m0, metadata_index d !! k = Some m0 -> m = m0 /\ d' = d).
Proof.
  intros HU Hd E. unfold with_metadata in E. run_bind E as d0 d1 E1; [|done].
  injection E1 as <- <-. destruct (metadata_index d !! k) as [m|] eqn:Em.
  { injection E as <- <-. split_and!; [done|done|]. exists m. split_and!; [done| |naive_solver].
    by apply (inv_index _ _ _ _ Hd). }
  run_bind E as lo d1 E1; apply load_metadata_run in E1 as (Hs & o & [= <-] & Hg); try done.
  pose proof (same_disk_inv _ _ Hs Hd) as Hd1.
  destruct lo as [m|].
  - specialize (Hg m eq_refl). run_bind E as u d2 E2;
      apply index_insert_run in E2 as (Hu & Hf & Hd2 & _); try done.
    injection E as <- <-. split_and!; [done|rewrite Hf; apply Hs|].
    exists m. rewrite Hf. split_and!; [done|apply Hg|done].
  - injection E as <- <-. split_and!; [done|apply Hs|].
    exists metadata_default. split_and!; [done|apply view_good_default|done].
Qed.
(** The metadata file of [k] holds the record [m]. *)
Definition persisted (s : fs) (k : text) (m : RangeMetadata) : Prop :=
  exists i b, names s !! mp k = Some i /\ inodes s !! i = Some b /\ json_from_slice b = Some m.

(** A step on files other than data files, the index untouched. *)
Definition meta_step (d d' : DiskStorage) : Prop :=
  disk_inv d' /\ quiet (disk_fs d) (disk_fs d') /\ metadata_index d' = metadata_index d.

Lemma quiet_trans s1 s2 s3 : quiet s1 s2 -> quiet s2 s3 -> quiet s1 s3.
Proof.
  intros [N1 Q1] [N2 Q2]. split.
  - intros k HU. by rewrite N2, N1.
  - intros k i HU Ho. destruct (Q1 k i HU Ho) as [Ho2 E1].
    destruct (Q2 k i HU Ho2) as [Ho3 E2]. by rewrite E2, E1.
Qed.

Lemma meta_step_trans d1 d2 d3 : meta_step d1 d2 -> meta_step d2 d3 -> meta_step d1 d3.
Proof.
  intros (_ & Q1 & X1) (I2 & Q2 & X2). split_and!; [done| |by rewrite X2].
  by eapply quiet_trans.
Qed.

Lemma meta_step_intro d s :
  disk_inv d -> fs_inv s -> quiet (disk_fs d) s -> meta_step d (set_fs s d).
Proof.
  intros Hd Hs Hq. split_and!; [|done|done]. apply index_keeps; [done|done|].
  by apply quiet_keeps.
Qed.

Lemma meta_step_same d d' : disk_inv d -> same_disk d d' -> meta_step d d'.
Proof.
  intros Hd Hs. split_and!; [by eapply same_disk_inv| |by apply Hs].
  by apply same_quiet, Hs.
Qed.

Lemma meta_good_quiet d d' k m :
  InUse k -> disk_inv d -> meta_step d d' -> meta_good (disk_fs d) k m ->
  meta_good (disk_fs d') k m.
Proof.
  intros HU Hd (_ & Hq & _). eapply meta_good_mono; [exact HU|apply (inv_fs _ _ _ _ Hd)|].
  by apply quiet_keeps.
Qed.

Lemma remove_temporary_run k d r d' :
  disk_inv d -> io_ok (fs_remove (tp k)) d = (r, d') ->
  meta_step d d' /\ exists o, r = Ok o.
Proof.
  intros Hd (ro & s & E & -> & ->)%io_ok_run. split; [|eauto].
  unfold fs_remove, syscall in E. pose proof (inv_fs _ _ _ _ Hd) as Hf.
  assert (Hp : meta_step d (set_fs (pop (disk_fs d)) d))
    by (apply meta_step_same; [done|split; done]).
  assert (Hx : meta_step d (set_fs (set_names (base.delete (tp k)) (pop (disk_fs d))) d)).
  { destruct (remove_other_step config content InUse (pop (disk_fs d)) (tp k)) as [I Q].
    - by apply pop_inv.
    - intros k' _. apply not_eq_sym, dp_ne_tp.
    - apply meta_step_intro; [done|done|]. exact Q. }
  destruct (next_fault (disk_fs d)); [destruct (names _ !! tp k)..|]; by simplify_eq.
Qed.

Lemma write_temporary_run k b d r d' :
  disk_inv d -> io_q (fs_write (tp k) b) d = (r, d') ->
  meta_step d d'
  /\ (r = Ok tt -> exists j, names (disk_fs d') !! tp k = Some j
                    /\ inodes (disk_fs d') !! j = Some b).
Proof.
  intros Hd (ro & s & E & -> & ->)%io_q_run.
  pose proof (inv_fs _ _ _ _ Hd) as Hf.
  assert (Hpop : fs_inv (pop (disk_fs d))) by (by apply pop_inv).
  assert (Hp : meta_step d (set_fs (pop (disk_fs d)) d))
    by (apply meta_step_same; [done|split; done]).
  assert (Hx : forall c, meta_step d (set_fs (put_file (tp k) c (pop (disk_fs d))) d)).
  { intros c. destruct (put_temporary_step config content InUse (pop (disk_fs d)) k c Hpop) as [I Q].
    apply meta_step_intro; [done|done|exact Q]. }
  assert (Hok : exists j, names (put_file (tp k) b (pop (disk_fs d))) !! tp k = Some j
                  /\ inodes (put_file (tp k) b (pop (disk_fs d))) !! j = Some b).
  { destruct (put_file_name (pop (disk_fs d)) (tp k) b) as [j Hj].
    exists j. split; [done|by apply put_file_content]. }
  unfold fs_write in E.
  destruct (next_fault (disk_fs d)) as [| |msg [|n]]; simpl in E;
    try case_decide; simplify_eq; (split; [done|]); simpl; done.
Qed.

Lemma publish_run k b d r d' :
  InUse k -> disk_inv d ->
  (exists j, names (disk_fs d) !! tp k = Some j /\ inodes (disk_fs d) !! j = Some b) ->
  (forall m, json_from_slice b = Some m -> key m = Some k -> view_good (disk_fs d) k m) ->
  io_q (fs_rename (tp k) (mp k)) d = (r, d') ->
  meta_step d d' /\ (r = Ok tt -> forall m, json_from_slice b = Some m -> persisted (disk_fs d') k m).
Proof.
  intros HU Hd (j & Hj & Hb) Hg (ro & s & E & -> & ->)%io_q_run.
  assert (Hp : meta_step d (set_fs (pop (disk_fs d)) d))
    by (apply meta_step_same; [done|split; done]).
  destruct (publish_step config content InUse (pop (disk_fs d)) k j b) as [I Q]; try done.
  { apply pop_inv, (inv_fs _ _ _ _ Hd). }
  unfold fs_rename, syscall in E.
  assert (Hx := meta_step_intro d _ Hd I Q).
  assert (Hok : forall m, json_from_slice b = Some m ->
    persisted (set_names (fun n => <[mp k := j]> (base.delete (tp k) n)) (pop (disk_fs d))) k m).
  { intros m Em. exists j, b. simpl. by rewrite lookup_insert_eq. }
  destruct (next_fault (disk_fs d)); simpl in E; rewrite ?Hj in E; simplify_eq;
    (split; [done|]); simpl; done.
Qed.

Lemma write_metadata_run k m d r d' :
  InUse k -> disk_inv d -> meta_good (disk_fs d) k m ->
  write_metadata config k m d = (r, d') ->
  meta_step d d' /\ (r = Ok tt -> persisted (disk_fs d') k m).
Proof.
  intros HU Hd Hm E. unfold write_metadata in E. fold (temporary_path config k) in E.
  run_bind E as u d1 E1.
  2:{ subst r. apply readonly_io_q in E1; [|auto with proxy]. by split; [apply meta_step_same|]. }
  apply readonly_io_q in E1; [|auto with proxy].
  pose proof (meta_step_same _ _ Hd E1) as S1. pose proof (proj1 S1) as Hd1.
  pose proof (meta_good_quiet _ _ _ _ HU Hd S1 Hm) as Hm1.
  run_bind E as b d1' Ej; [|by injection Ej as _ ->; subst r].
  injection Ej as Ej <-. apply map_err_Ok in Ej.
  assert (Hrt : json_from_slice b = Some m)
    by (eapply json_round_trip; [by eapply meta_good_typed|done]).
  run_bind E as w d2 E2; [|unfold attempt in E2; by destruct (io_q _ _)].
  unfold attempt in E2. destruct (io_q (fs_write (tp k) b) d1) as [rw dw] eqn:Ew.
  injection E2 as <- <-. apply write_temporary_run in Ew as [S2 Hw]; [|done].
  pose proof (meta_step_trans _ _ _ S1 S2) as S12. pose proof (proj1 S2) as Hd2.
  destruct rw as [[]|e].
  2:{ run_bind E as o d3 E3; apply remove_temporary_run in E3 as [S3 [o' Ho]]; try done.
      injection E as <- <-. split; [by eapply meta_step_trans|done]. }
  pose proof (meta_good_quiet _ _ _ _ HU Hd1 S2 Hm1) as Hm2.
  run_bind E as rr d3 E3; [|unfold attempt in E3; by destruct (io_q _ _)].
  unfold attempt in E3. destruct (io_q (fs_rename _ _) dw) as [rn dn] eqn:Er.
  injection E3 as <- <-.
  apply (publish_run k b) in Er as [S3 Hp]; [|done|done|by apply Hw|].
  2:{ intros m' Em' _. rewrite Hrt in Em'. injection Em' as <-. apply Hm2. }
  pose proof (meta_step_trans _ _ _ S12 S3) as S123.
  destruct rn as [[]|e].
  - injection E as <- <-. split; [done|]. intros _. by apply Hp.
  - pose proof (proj1 S3) as Hd3.
    run_bind E as o d4 E4; apply remove_temporary_run in E4 as [S4 [o' Ho]]; try done.
    injection E as <- <-. split; [by eapply meta_step_trans|done].
Qed.
Lemma stamp_good s k m : view_good s k m -> meta_good s k (stamp k m).
Proof. intros Hv. split; [done|]. unfold RANGE_METADATA_VERSION. simpl. split; [done|]. unfold RANGE_METADATA_VERSION. lia. Qed.

(** An edit that keeps the record right.  On success the edited record is
    both in the index and on disk. *)
Lemma update_metadata_run k edit d r d' :
  InUse k -> disk_inv d ->
  (forall m, view_good (disk_fs d) k m -> view_good (disk_fs d) k (edit m).1) ->
  update_metadata config k edit d = (r, d') ->
  disk_inv d' /\ quiet (disk_fs d) (disk_fs d')
  /\ (r = Ok tt -> exists m0, view_good (disk_fs d) k m0
       /\ (forall m1, metadata_index d !! k = Some m1 -> m0 = m1)
       /\ ((edit m0).2 = true ->
            metadata_index d' !! k = Some (stamp k (edit m0).1)
            /\ persisted (disk_fs d') k (stamp k (edit m0).1))).
Proof.
  intros HU Hd He E. unfold update_metadata in E. run_bind E as d0 d1 E1; [|done].
  injection E1 as <- <-. run_bind E as m0 d1 E1.
  2:{ destruct (metadata_index d !! k); [done|].
      run_bind E1 as lo d2 E2; [done|]. by apply load_metadata_run in E2 as (_ & o & [=] & _). }
  assert (H1 : same_disk d d1 /\ view_good (disk_fs d) k m0
               /\ forall m1, metadata_index d !! k = Some m1 -> m0 = m1).
  { destruct (metadata_index d !! k) as [m|] eqn:Em.
    - injection E1 as <- <-. split_and!; [done| |naive_solver].
      by apply (inv_index _ _ _ _ Hd).
    - run_bind E1 as lo d2 E2; [|done].
      apply load_metadata_run in E2 as (Hs & o & [= <-] & Hg); [|done|done].
      injection E1 as <- <-. split_and!; [done| |done].
      destruct lo as [m|]; [|apply view_good_default]. simpl.
      destruct (Hg m eq_refl) as [Hv _].
      eapply view_good_mono; [exact HU|apply (inv_fs _ _ _ _ (same_disk_inv _ _ Hs Hd))| |exact Hv].
      destruct Hs as [(Hn & Hi & Hx) _]. apply quiet_keeps, same_quiet.
      split_and!; symmetry; done. }
  destruct H1 as (Hs & Hv0 & Hc). pose proof (meta_step_same _ _ Hd Hs) as S1.
  destruct (edit m0) as [m1 ch] eqn:Ee.
  assert (Hv1 : view_good (disk_fs d) k m1) by (specialize (He m0 Hv0); by rewrite Ee in He).
  destruct ch.
  2:{ injection E as <- <-. split_and!; [apply S1|apply S1|]. intros _. exists m0.
      split_and!; [done|done|]. by rewrite Ee. }
  assert (Hg1 : meta_good (disk_fs d1) k (stamp k m1)).
  { eapply meta_good_quiet; [done|exact Hd|exact S1|]. by apply stamp_good. }
  run_bind E as u d2 E2.
  2:{ subst r. apply write_metadata_run in E2 as [S2 _]; [|done|apply S1|done].
      destruct (meta_step_trans _ _ _ S1 S2) as (? & ? & ?). done. }
  apply write_metadata_run in E2 as [S2 Hp]; [|done|apply S1|done].
  assert (Hg2 : meta_good (disk_fs d2) k (stamp k m1))
    by (eapply meta_good_quiet; [done|apply S1|exact S2|done]).
  apply index_insert_run in E as (-> & Hf & Hd3 & Hk); [|apply S2|done].
  destruct (meta_step_trans _ _ _ S1 S2) as (_ & Hq & _).
  split_and!; [done|by rewrite Hf|]. intros _. exists m0. split_and!; [done|done|].
  intros _. rewrite Ee. simpl. rewrite Hf. destruct u. auto.
Qed.

(** Adding a range whose bytes are in the file keeps a record right. *)
Lemma merge_edit_good s k start end_ :
  0 <= start <= end_ -> end_ <= u64_max -> range_good config content s k (start, end_) ->
  forall m, view_good s k m ->
    view_good s k (set_completed (merge_range (completed m) start end_) m, true).1.
Proof.
  intros Hse He Hr m (Hn & Hf & Ht). simpl.
  destruct (merge_range_spec (completed m) start end_ Hn Hse He) as [Hn' Hden].
  split_and!; [done| |done]. simpl. apply Forall_forall. intros x Hx.
  destruct Hr as (i & Hi & c & Hc & Hg). exists i. split; [done|]. exists c. split; [done|].
  intros o Ho.
  assert (Hor : has_offset (completed m) o \/ start <= o <= end_).
  { apply Hden, Exists_exists. by exists x. }
  destruct Hor as [Hold|Hnew]; [|by apply Hg].
  apply Exists_exists in Hold as (y & Hy & Hoy). rewrite Forall_forall in Hf.
  destruct (Hf y Hy) as (i' & Hi' & c' & Hc' & Hg'). simplify_eq. by apply Hg'.
Qed.

Lemma record_completed_range_run k start end_ d r d' :
  InUse k -> disk_inv d -> 0 <= start <= end_ -> end_ <= u64_max ->
  range_good config content (disk_fs d) k (start, end_) ->
  record_completed_range config k start end_ d = (r, d') ->
  disk_inv d' /\ quiet (disk_fs d) (disk_fs d')
  /\ (r = Ok tt -> exists m0 m, view_good (disk_fs d) k m0
       /\ (forall m1, metadata_index d !! k = Some m1 -> m0 = m1)
       /\ metadata_index d' !! k = Some m /\ persisted (disk_fs d') k m
       /\ total_size m = total_size m0
       /\ forall o, has_offset (completed m) o
                    <-> has_offset (completed m0) o \/ start <= o <= end_).
Proof.
  intros HU Hd Hse He Hr E. unfold record_completed_range in E.
  apply update_metadata_run in E as (Hd' & Hq & Hok); [|done|done|].
  - split_and!; [done|done|]. intros ->. destruct (Hok eq_refl) as (m0 & Hv & Hc & Hx).
    destruct (Hx eq_refl) as [Hi Hp]. exists m0. eexists. split_and!; [done|done|exact Hi|done|done|].
    simpl. by apply merge_range_spec; [apply Hv|..].
  - by apply merge_edit_good.
Qed.

Lemma record_upstream_meta_run k meta d r d' :
  InUse k -> disk_inv d ->
  (forall t, um_total_size meta = Some t -> t = Z.of_nat (length (content k))) ->
  record_upstream_meta config k meta d = (r, d') ->
  disk_inv d' /\ quiet (disk_fs d) (disk_fs d').
Proof.
  intros HU Hd Ht E. unfold record_upstream_meta in E.
  destruct (is_empty meta); [by injection E as _ <-|].
  apply update_metadata_run in E as (Hd' & Hq & _); [done|done|done|].
  intros m (Hn & Hf & Htm). unfold meta_edit.
  destruct (um_total_size meta) as [t|], (um_content_type meta) as [ct|];
    simpl; repeat case_match; simplify_eq; split_and!; try done;
    simpl; intros ? [= <-]; by apply Ht.
Qed.
End Metadata.
