(* ===== verification/DiskWrite.v ===== *)
(** * The disk engine: writing and reading

    A write of bytes of the resource preserves the invariant whatever calls
    fail, and records exactly the prefix that reached the disk; a read hands
    out exactly the bytes of the resource, also while other operations run. *)

From Stdlib Require Import Strings.Byte Strings.String.
From S2P Require Import Prelude Bytes Error External Digest Range RangeTable FileSystem Storage Disk DiskInvariant DiskMetadata.

Section Write.
Context {sha : Sha256} {shaL : Sha256Laws} {js : MetadataJson} {jsL : MetadataJsonLaws}.
Context {ord : HashOrder text RangeMetadata}.
Context (config : StorageConfig) (content : text -> list byte) (InUse : text -> Prop).
Context (Hcoll : no_collision InUse) (Hfit : content_fits content).

Abbreviation dp := (get_file_path config).
Abbreviation mp := (get_metadata_path config).
Abbreviation fs_inv := (fs_inv config content InUse).
Abbreviation disk_inv := (disk_inv config content InUse).
Abbreviation view_good := (view_good config content).
Abbreviation keeps := (keeps config content InUse).
Abbreviation good_at := (good_at content).
Abbreviation honest_at := (honest_at content).

(** A step that keeps the data and leaves the index alone. *)
Definition data_step (d d' : DiskStorage) : Prop :=
  disk_inv d' /\ keeps (disk_fs d) (disk_fs d') /\ metadata_index d' = metadata_index d.

Lemma data_step_refl d : disk_inv d -> data_step d d.
Proof. intros Hd. split_and!; [done|reflexivity|done]. Qed.

Lemma data_step_trans d1 d2 d3 : data_step d1 d2 -> data_step d2 d3 -> data_step d1 d3.
Proof.
  intros (_ & K1 & X1) (I2 & K2 & X2). split_and!; [done|by etrans|by rewrite X2].
Qed.

Lemma data_step_same d d' : disk_inv d -> same_disk d d' -> data_step d d'.
Proof.
  intros Hd Hs. split_and!; [by eapply same_disk_inv|by apply same_disk_keeps|apply Hs].
Qed.

(** ** The buffered writer *)

(** Bytes [start..pos) are in the file, the buffer follows, and file and
    buffer together hold [n] bytes. *)
Definition writer_ok (d : DiskStorage) (k : text) (start n : Z) (w : Writer) : Prop :=
  names (disk_fs d) !! dp k = Some (w_ino w)
  /\ 0 <= start <= w_pos w
  /\ w_pos w + Z.of_nat (length (w_buf w)) = start + n
  /\ good_at (disk_fs d) k (w_ino w) (start, w_pos w - 1)
  /\ honest_at k (Z.to_nat (w_pos w)) (w_buf w).

Lemma good_at_join s k i a b c :
  good_at s k i (a, b - 1) -> good_at s k i (b, c) -> good_at s k i (a, c).
Proof.
  intros (c1 & H1 & G1) (c2 & H2 & G2). simplify_eq. exists c1. split; [done|].
  simpl in *. intros o Ho. destruct (decide (o < b)); [apply G1|apply G2]; lia.
Qed.

Lemma pwrite_run k i pos b d r d' :
  InUse k -> disk_inv d -> names (disk_fs d) !! dp k = Some i -> honest_at k pos b ->
  io_q (fs_pwrite i pos b) d = (r, d') ->
  data_step d d' /\ names (disk_fs d') = names (disk_fs d)
  /\ (r = Ok tt -> b <> [] -> good_at (disk_fs d') k i (Z.of_nat pos, Z.of_nat (pos + length b) - 1)).
Proof.
  intros HU Hd Hn Hh (ro & s & E & -> & ->)%io_q_run.
  pose proof (pop_inv config content InUse _ (inv_fs _ _ _ _ Hd)) as Hp.
  unfold fs_pwrite in E.
  assert (Hw : forall b', honest_at k pos b' ->
    let s' := set_inodes (alter (fun c => overwrite c pos b') i) (pop (disk_fs d)) in
    data_step d (set_fs s' d)
    /\ (b' <> [] -> good_at s' k i (Z.of_nat pos, Z.of_nat (pos + length b') - 1))).
  { intros b' Hb'. cbv zeta.
    destruct (write_data_step config content InUse (pop (disk_fs d)) k i pos b') as (I & K & G);
      try done. split; [|done]. split_and!; [|exact K|done].
    apply index_keeps; [done|done|exact K]. }
  destruct (next_fault (disk_fs d)) as [| |msg n]; simplify_eq; simpl.
  - destruct (Hw b Hh). split_and!; auto.
  - destruct (Hw b Hh). split_and!; auto.
  - destruct (Hw (take n b) (honest_at_take content k pos b n Hh)). split_and!; done.
Qed.

Lemma flush_buf_run k start n w d r d' :
  InUse k -> disk_inv d -> writer_ok d k start n w -> flush_buf w d = (r, d') ->
  data_step d d' /\ names (disk_fs d') = names (disk_fs d)
  /\ (forall w', r = Ok w' -> writer_ok d' k start n w' /\ w_buf w' = []).
Proof.
  intros HU Hd (Hn & Hs & Hp & Hg & Hh) E. unfold flush_buf in E.
  destruct (w_buf w) as [|x b] eqn:Eb.
  { injection E as <- <-. split_and!; [by apply data_step_refl|done|].
    intros w' [= <-]. unfold writer_ok. rewrite Eb. done. }
  run_bind E as u d1 E1.
  - apply (pwrite_run k) in E1 as (S & N & G); [|done..].
    injection E as <- <-. split_and!; [done|done|]. intros w' [= <-].
    destruct u. specialize (G eq_refl ltac:(done)).
    unfold writer_ok. simpl w_ino; simpl w_pos; simpl w_buf. rewrite N.
    split; [|done]. split_and!; [done|simpl in *; lia|simpl in *; lia|simpl in *; lia| |].
    + destruct S as (_ & [Hev _] & _).
      destruct (Hev k (w_ino w) HU) as [_ Hg'].
      { by apply (linked_owned config content InUse), Hn; apply (inv_fs _ _ _ _ Hd). }
      eapply good_at_join; [by apply Hg'|].
      by rewrite Nat2Z.inj_add, Z2Nat.id in G by lia.
    + intros j y Hy. by rewrite lookup_nil in Hy.
  - apply (pwrite_run k) in E1 as (S & N & _); [|done..]. subst r.
    split_and!; [done|done|]. by intros w'.
Qed.

Lemma writer_ok_names d d' k start n w :
  disk_inv d -> InUse k -> data_step d d' -> names (disk_fs d') = names (disk_fs d) ->
  writer_ok d k start n w -> writer_ok d' k start n w.
Proof.
  intros Hd HU (_ & [Hev _] & _) N (Hn & Hs & Hp & Hg & Hh).
  unfold writer_ok. rewrite N. split_and!; try done; try lia.
  apply (Hev k (w_ino w) HU); [|done].
  by apply (linked_owned config content InUse), Hn; apply (inv_fs _ _ _ _ Hd).
Qed.

Lemma write_all_run k start n w chunk d r d' :
  InUse k -> disk_inv d -> writer_ok d k start n w ->
  honest_at k (Z.to_nat (start + n)) chunk -> write_all w chunk d = (r, d') ->
  data_step d d' /\ names (disk_fs d') = names (disk_fs d)
  /\ (forall w', r = Ok w' -> writer_ok d' k start (n + Z.of_nat (length chunk)) w').
Proof.
  intros HU Hd Hw Hh E. unfold write_all in E. run_bind E as w1 d1 E1.
  2:{ subst r. destruct (_ <? _); [|done].
      apply (flush_buf_run k start n) in E1 as (? & ? & _); done. }
  assert (H1 : data_step d d1 /\ names (disk_fs d1) = names (disk_fs d)
               /\ writer_ok d1 k start n w1
               /\ (WRITE_BUFFER_BYTES <= Z.of_nat (length chunk) -> w_buf w1 = [])).
  { destruct (Z.ltb_spec WRITE_BUFFER_BYTES (Z.of_nat (length (w_buf w) + length chunk))).
    - apply (flush_buf_run k start n) in E1 as (S & N & Hx); [|done..].
      destruct (Hx w1 eq_refl). split_and!; done.
    - injection E1 as <- <-. split_and!; [by apply data_step_refl|done|done|].
      intros Hc. destruct (w_buf w); [done|]. simpl in *. lia. }
  destruct H1 as (S1 & N1 & Hw1 & Hempty). pose proof (proj1 S1) as Hd1.
  destruct Hw1 as (Hn & Hs & Hp & Hg & Hb).
  destruct (Z.leb_spec WRITE_BUFFER_BYTES (Z.of_nat (length chunk))) as [Hc|Hc].
  - specialize (Hempty Hc). rewrite Hempty in Hp. simpl in Hp.
    apply (flush_buf_run k start (n + Z.of_nat (length chunk))) in E as (S & N & Hx); [|done|done|].
    + split_and!; [by eapply data_step_trans|by rewrite N|]. intros w' ->. by apply Hx.
    + unfold writer_ok. simpl. split_and!; [done|lia|lia|lia|done|].
      by replace (w_pos w1) with (start + n) by lia.
  - injection E as <- <-. split_and!; [done|done|]. intros w' [= <-].
    unfold writer_ok. simpl. rewrite length_app. split_and!; [done|lia|lia|lia|done|].
    apply honest_at_app. split; [done|].
    by replace (Z.to_nat (w_pos w1) + length (w_buf w1))%nat with (Z.to_nat (start + n)) by lia.
Qed.

(** ** The copying loop *)

(** How many bytes of the stream the loop accepts: whole chunks, up to the
    first error or the first chunk that exceeds the range. *)
Fixpoint accepted (s : stream) (max_length : option Z) (written : Z) : Z :=
  match s with
  | Ok chunk :: s' =>
      let next := written + Z.of_nat (length chunk) in
      if match max_length with Some maximum => maximum <? next | None => false end
      then written else accepted s' max_length next
  | _ => written
  end.

Lemma accepted_ge s ml n : n <= accepted s ml n.
Proof.
  revert n; induction s as [|[chunk|e] s IH]; intros n; simpl; try lia.
  specialize (IH (n + Z.of_nat (length chunk))). repeat case_match; lia.
Qed.

Lemma write_loop_run k start s ml n w d r d' :
  InUse k -> disk_inv d -> writer_ok d k start n w -> 0 <= n ->
  honest_at k (Z.to_nat (start + n)) (stream_bytes s) ->
  write_loop s ml n w d = (r, d') ->
  data_step d d' /\ names (disk_fs d') = names (disk_fs d)
  /\ exists le, r = Ok le
     /\ (le_recordable le = true ->
         writer_ok d' k start (le_written le) (le_writer le)
         /\ le_written le = accepted s ml n)
     /\ (le_failure le = None -> le_recordable le = true
         /\ stream_error s = None
         /\ le_written le = n + Z.of_nat (length (stream_bytes s))).
Proof.
  revert n w d; induction s as [|[chunk|e] s IH]; intros n w d HU Hd Hw H0 Hh E; simpl in *.
  - injection E as <- <-. split_and!; [by apply data_step_refl|done|].
    eexists. split; [done|]. simpl. split; [done|]. intros _. split_and!; [done|done|lia].
  - apply honest_at_app in Hh as [Hh1 Hh2].
    destruct (checked_add n (Z.of_nat (length chunk))) as [next|] eqn:Ec.
    2:{ injection E as <- <-. split_and!; [by apply data_step_refl|done|].
        eexists. split; [done|]. done. }
    apply checked_add_Some in Ec as [-> Hmax].
    destruct (match ml with Some maximum => _ | None => false end) eqn:Em.
    { injection E as <- <-. split_and!; [by apply data_step_refl|done|].
      eexists. split; [done|]. done. }
    run_bind E as ra d1 E1; [|unfold attempt in E1; by destruct (write_all _ _ _)].
    unfold attempt in E1. destruct (write_all w chunk d) as [rw dw] eqn:Ew.
    injection E1 as <- <-.
    apply (write_all_run k start n) in Ew as (S & N & Hx); [|done..].
    destruct rw as [w'|e].
    + apply IH in E; [|done|apply S|by apply Hx|lia|].
      2:{ by replace (Z.to_nat (start + (n + Z.of_nat (length chunk))))
            with (Z.to_nat (start + n) + length chunk)%nat by (destruct Hw as (_ & ? & _); lia). }
      destruct E as (S2 & N2 & le & -> & Hrec & Hfail).
      split_and!; [by eapply data_step_trans|by rewrite N2|].
      exists le. split; [done|]. split; [done|]. intros Hf.
      destruct (Hfail Hf) as (? & ? & ->). rewrite length_app. split_and!; [done|done|lia].
    + injection E as <- <-. split_and!; [done|done|]. eexists. split; [done|]. done.
  - injection E as <- <-. split_and!; [by apply data_step_refl|done|].
    eexists. split; [done|]. simpl. done.
Qed.
(** Opening the data file for writing. *)
Lemma open_create_run k d r d' :
  disk_inv d -> io_q (fs_open_create (dp k)) d = (r, d') ->
  data_step d d' /\ (forall i, r = Ok i -> names (disk_fs d') !! dp k = Some i).
Proof.
  intros Hd (ro & s & E & -> & ->)%io_q_run.
  pose proof (pop_inv config content InUse _ (inv_fs _ _ _ _ Hd)) as Hp.
  assert (Hsame : data_step d (set_fs (pop (disk_fs d)) d))
    by (apply data_step_same; [done|split; done]).
  unfold fs_open_create, syscall in E.
  assert (Hnew : names (disk_fs d) !! dp k = None ->
                 data_step d (set_fs (alloc (dp k) [] (pop (disk_fs d))) d)).
  { intros Hn. destruct (create_data_step config content InUse (pop (disk_fs d)) k) as [I K];
      [done|done|]. split_and!; [|exact K|done]. apply index_keeps; [done|done|exact K]. }
  destruct (names (disk_fs d) !! dp k) as [i|] eqn:Ei;
    destruct (next_fault (disk_fs d)); simpl in E; rewrite ?Ei in E;
    repeat case_decide; simplify_eq; (split; [auto|]); simpl; intros j [= <-];
    rewrite ?Ei; try done; by rewrite lookup_insert_eq.
Qed.

(** What a stored range means afterwards: it is in the index, on disk, and
    its bytes are those of the resource. *)
Definition recorded (d : DiskStorage) (k : text) (start end_ : Z) : Prop :=
  exists m, metadata_index d !! k = Some m /\ persisted config (disk_fs d) k m
    /\ forall o, start <= o <= end_ -> has_offset (completed m) o.

Lemma writer_range_good d k start n w :
  writer_ok d k start n w -> w_buf w = [] ->
  range_good config content (disk_fs d) k (start, start + n - 1).
Proof.
  intros (Hn & Hs & Hp & Hg & _) Hb. rewrite Hb in Hp. simpl in Hp.
  exists (w_ino w). split; [done|]. by replace (start + n - 1) with (w_pos w - 1) by lia.
Qed.

Lemma persist_prefix_run k start le d r d' :
  InUse k -> disk_inv d -> 0 <= start ->
  (le_recordable le = true -> writer_ok d k start (le_written le) (le_writer le)) ->
  persist_prefix config k start le d = (r, d') ->
  disk_inv d' /\ keeps (disk_fs d) (disk_fs d')
  /\ (r = Ok None -> 0 < le_written le -> le_recordable le = true ->
      recorded d' k start (start + le_written le - 1)).
Proof.
  intros HU Hd Hs0 Hw E. unfold persist_prefix in E.
  destruct (Z.ltb_spec 0 (le_written le)); simpl in E.
  2:{ injection E as <- <-. split_and!; [done|reflexivity|lia]. }
  destruct (le_recordable le); [specialize (Hw eq_refl)|];
    [|by injection E as <- <-; split_and!; [done|reflexivity|]].
  run_bind E as fl d1 E1; [|unfold attempt in E1; by destruct (flush_buf _ _)].
  unfold attempt in E1. destruct (flush_buf (le_writer le) d) as [rf df] eqn:Ef.
  injection E1 as <- <-.
  apply (flush_buf_run k start (le_written le)) in Ef as (S1 & N1 & Hf); [|done..].
  run_bind E as sy d2 E2.
  2:{ destruct rf; [|done]. unfold attempt in E2. by destruct (io_q fs_sync df). }
  assert (S2 : data_step df d2 /\ names (disk_fs d2) = names (disk_fs df)
               /\ (is_ok sy = true -> is_ok rf = true)).
  { destruct rf as [w|e].
    - unfold attempt in E2. destruct (io_q fs_sync df) as [rs ds] eqn:Es.
      injection E2 as <- <-. apply readonly_io_q in Es; [|auto with proxy].
      split_and!; [by apply data_step_same; [apply S1|]|by apply Es|done].
    - injection E2 as <- <-. split_and!; [apply data_step_refl, S1|done|done]. }
  destruct S2 as (S2 & N2 & Hok). pose proof (data_step_trans _ _ _ S1 S2) as (I2 & K2 & _).
  destruct sy as [[]|e]; [|by injection E as <- <-; split_and!].
  destruct rf as [w|e]; [|by specialize (Hok eq_refl)]. destruct (Hf w eq_refl) as [Hwo Hbuf].
  assert (Hr : range_good config content (disk_fs d2) k (start, start + le_written le - 1)).
  { eapply writer_range_good; [|exact Hbuf].
    by eapply writer_ok_names; [apply S1|done|exact S2|done|]. }
  run_bind E as end_ d3 E3.
  2:{ injection E3 as _ <-. subst r. by split_and!. }
  injection E3 as E3 <-. apply ok_or_Ok, checked_add_Some in E3 as [-> Hmax].
  replace (start + (le_written le - 1)) with (start + le_written le - 1) in * by lia.
  run_bind E as u d4 E4;
    (apply record_completed_range_run with (content := content) (InUse := InUse) in E4
      as (I4 & Q4 & Hrec); [|done|done|done|done|lia|lia|done]).
  - injection E as <- <-. split_and!; [done|etrans; [exact K2|by apply quiet_keeps]|].
    intros _ _ _. destruct u.
    destruct (Hrec eq_refl) as (m0 & m & _ & _ & Hi & Hp & _ & Ho).
    exists m. split_and!; [done|done|]. intros o Hoo. apply Ho. by right.
  - subst r. split_and!; [done|etrans; [exact K2|by apply quiet_keeps]|done].
Qed.

Lemma writer_ok_start d k i start :
  disk_inv d -> names (disk_fs d) !! dp k = Some i -> 0 <= start ->
  writer_ok d k start 0 (mk_Writer i start []).
Proof.
  intros Hd Hn Hs. destruct (inv_alloc _ _ _ _ (inv_fs _ _ _ _ Hd) _ _ Hn) as [_ [c Hc]].
  unfold writer_ok. simpl. split_and!; [done|lia|lia|lia| |].
  - exists c. split; [done|]. simpl. lia.
  - intros j x Hx. by rewrite lookup_nil in Hx.
Qed.

Lemma write_run k s range d r d' :
  InUse k -> disk_inv d -> 0 <= range.1 ->
  honest_at k (Z.to_nat range.1) (stream_bytes s) ->
  write config k s range d = (r, d') ->
  disk_inv d' /\ keeps (disk_fs d) (disk_fs d')
  /\ forall n, r = Ok n -> stream_error s = None
       /\ n = Z.of_nat (length (stream_bytes s))
       /\ (0 < n -> recorded d' k range.1 (range.1 + n - 1)).
Proof.
  intros HU Hd Hs Hh E. unfold write in E.
  run_bind E as ml d0 E0.
  2:{ subst r. assert (d' = d) as ->.
      { destruct (_ =? _); [done|]. run_bind E0 as n d1 E1; [done|]. by injection E1 as _ ->. }
      by split_and!. }
  assert (d0 = d) as ->.
  { destruct (_ =? _); [by injection E0|]. run_bind E0 as n d1 E1; [|done].
    injection E1 as _ <-. by injection E0. }
  clear E0. unfold ensure_dir_exists in E.
  run_bind E as u1 d1 E1; (apply readonly_io_q in E1; [|auto with proxy]);
    pose proof (data_step_same _ _ Hd E1) as S1.
  2:{ subst r. destruct S1 as (? & ? & _). by split_and!. }
  run_bind E as i d2 E2; apply open_create_run in E2 as [S2 Hn]; try apply S1;
    pose proof (data_step_trans _ _ _ S1 S2) as S12.
  2:{ subst r. destruct S12 as (? & ? & _). by split_and!. }
  specialize (Hn i eq_refl).
  run_bind E as u3 d3 E3; (apply readonly_io_q in E3; [|auto with proxy]);
    pose proof (data_step_same _ _ (proj1 S2) E3) as S3;
    pose proof (data_step_trans _ _ _ S12 S3) as S13.
  2:{ subst r. destruct S13 as (? & ? & _). by split_and!. }
  assert (Hw : writer_ok d3 k range.1 0 (mk_Writer i range.1 [])).
  { apply writer_ok_start; [apply S13| |done]. by destruct E3 as [(-> & _ & _) _]. }
  run_bind E as le d4 E4; (apply (write_loop_run k range.1) in E4
      as (S4 & N4 & le' & Hle & Hrec & Hfail);
      [|done|apply S13|done|done|by rewrite Z.add_0_r]); [|done].
  injection Hle as <-.
  pose proof (data_step_trans _ _ _ S13 S4) as (I4 & K4 & _).
  run_bind E as sf d5 E5; apply (persist_prefix_run k) in E5 as (I5 & K5 & Hrd);
    [ |done|done|done|by intros; apply Hrec|subst r|done|done|done|by intros; apply Hrec].
  2:{ split_and!; [done|by etrans|done]. }
  assert (K : keeps (disk_fs d) (disk_fs d5)) by (by etrans).
  destruct (le_failure le) as [e|] eqn:Ef; [by injection E as <- <-; split_and!|].
  destruct sf as [e|]; [by injection E as <- <-; split_and!|].
  injection E as <- <-. split_and!; [done|done|]. intros n [= <-].
  destruct (Hfail eq_refl) as (Hr & He & Hlen). split_and!; [done|lia|].
  intros Hlt. by apply Hrd.
Qed.
(** ** Reading *)

Lemma covers_good d k m start e :
  view_good (disk_fs d) k m -> covers (completed m) start e = true ->
  range_good config content (disk_fs d) k (start, e).
Proof.
  intros (_ & Hf & _) (c & Hc & Hb)%existsb_exists.
  apply andb_true_iff in Hb as [?%Z.leb_le ?%Z.leb_le].
  rewrite Forall_forall in Hf. destruct (Hf c) as (i & Hi & x & Hx & Hg).
  { by apply list_elem_of_In. }
  exists i. split; [done|]. exists x. split; [done|]. simpl in *. intros o Ho. apply Hg. lia.
Qed.

(** The last offset a lookup of [range] stands for. *)
Definition resolved_end (d : DiskStorage) (k : text) (range : Z * Z) (e : Z) : Prop :=
  (range.2 <> OPEN_ENDED -> e = range.2)
  /\ (range.2 = OPEN_ENDED ->
      e = Z.of_nat (length (content k)) - 1
      \/ exists i c, names (disk_fs d) !! dp k = Some i /\ inodes (disk_fs d) !! i = Some c
           /\ e = Z.of_nat (length c) - 1).

Lemma resolved_end_same d d' k range e :
  same_files (disk_fs d) (disk_fs d') -> resolved_end d k range e -> resolved_end d' k range e.
Proof. intros (Hn & Hi & _). unfold resolved_end. by rewrite Hn, Hi. Qed.

Lemma range_good_same s s' k rg :
  same_files s s' -> range_good config content s k rg -> range_good config content s' k rg.
Proof. intros (Hn & Hi & _). unfold range_good, DiskInvariant.good_at. by rewrite Hn, Hi. Qed.

Lemma same_files_trans s1 s2 s3 : same_files s1 s2 -> same_files s2 s3 -> same_files s1 s3.
Proof. intros (A & B & C) (A' & B' & C'). unfold same_files. rewrite A', B', C'. done. Qed.

Lemma check_range_run k range d r d' :
  InUse k -> disk_inv d -> check_range config k range d = (r, d') ->
  disk_inv d' /\ same_files (disk_fs d) (disk_fs d')
  /\ exists b, r = Ok b /\
     (b = true -> exists e, resolved_end d' k range e
                  /\ range_good config content (disk_fs d') k (range.1, e)).
Proof.
  intros HU Hd E. unfold check_range in E.
  run_bind E as re d1 E1.
  2:{ exfalso. destruct (_ =? _); [|done]. run_bind E1 as t d2 E2.
      - destruct t; [done|]. run_bind E1 as sz d3 E3; [done|].
        by apply data_file_size_run in E3 as (_ & o & [=] & _).
      - by eapply with_metadata_run in E2 as (_ & _ & m & [=] & _). }
  assert (H1 : disk_inv d1 /\ same_files (disk_fs d) (disk_fs d1)
               /\ forall e, re = Some e -> resolved_end d1 k range e).
  { destruct (Z.eqb_spec range.2 OPEN_ENDED) as [Ho|Ho].
    2:{ injection E1 as <- <-. split_and!; [done|done|]. by intros e [= <-]. }
    run_bind E1 as t d2 E2; [|by eapply with_metadata_run in E2 as (_ & _ & m & [=] & _)].
    eapply with_metadata_run in E2 as (I2 & F2 & m & [= ->] & Hv & _); [|done..].
    destruct (total_size m) as [t|] eqn:Et.
    - injection E1 as <- <-. split_and!; [done|done|]. intros e [-> _]%checked_sub_Some.
      split; [done|]. intros _. left. destruct Hv as (_ & _ & Ht). by rewrite (Ht t Et).
    - run_bind E1 as sz d3 E3; apply data_file_size_run in E3 as (S3 & o & [= <-] & Hsz).
      injection E1 as <- <-. split_and!; [by eapply same_disk_inv|
        eapply same_files_trans; [exact F2|apply S3]|].
      destruct sz as [n|]; [|done]. simpl. intros e [-> _]%checked_sub_Some.
      destruct (Hsz n eq_refl) as (i & c & Hi & Hc & ->).
      split; [done|]. intros _. right. eauto. }
  destruct H1 as (I1 & F1 & Hre). destruct re as [e|].
  2:{ injection E as <- <-. split_and!; [done|done|]. by exists false. }
  specialize (Hre e eq_refl).
  run_bind E as cov d2 E2; (eapply with_metadata_run in E2 as (I2 & F2 & m & Hcov & Hv & _); [|done..]).
  2: done. injection Hcov as ->.
  destruct (covers (completed m) range.1 e) eqn:Ec.
  2:{ injection E as <- <-. split_and!; [done|by eapply same_files_trans|]. by exists false. }
  run_bind E as sz d3 E3; apply data_file_size_run in E3 as (S3 & o & [= <-] & Hsz).
  injection E as <- <-. split_and!; [by eapply same_disk_inv|
    eapply same_files_trans; [exact F1|eapply same_files_trans; [exact F2|apply S3]]|].
  eexists. split; [done|]. intros _. exists e. split.
  - eapply resolved_end_same; [|exact Hre]. eapply same_files_trans; [exact F2|apply S3].
  - eapply range_good_same; [apply S3|]. by eapply covers_good.
Qed.

(** A read stream in progress: its handle is (or was) the data file of the
    key, whose bytes in the requested interval are those of the resource. *)
Definition reader_ok (s : fs) (k : text) (rd : Reader) : Prop :=
  owned config s k (rd_ino rd)
  /\ good_at s k (rd_ino rd) (rd_start rd, rd_start rd + rd_total rd - 1)
  /\ 0 <= rd_start rd /\ 0 <= rd_read rd <= rd_total rd.

Lemma reader_ok_evolves s s' k rd :
  InUse k -> evolves config content InUse s s' -> reader_ok s k rd -> reader_ok s' k rd.
Proof.
  intros HU He (Ho & Hg & ? & ?). destruct (He k (rd_ino rd) HU Ho) as [Ho' Hg'].
  split_and!; [done|by apply Hg'|lia..].
Qed.

Lemma good_at_end s k i c a e :
  good_at s k i (a, e) -> inodes s !! i = Some c -> 0 <= a <= e ->
  e < Z.of_nat (length c) /\ e < Z.of_nat (length (content k)).
Proof.
  intros (c' & Hc' & Hg) Hc Ha. simplify_eq. destruct (Hg e) as [[x Hx] E]; [simpl; lia|].
  rewrite Hx in E. apply lookup_lt_Some in E, Hx. lia.
Qed.

(** Opening a linked file gives its inode; its size is the length of its content. *)
Lemma open_linked p i d ino d' :
  names (disk_fs d) !! p = Some i -> io_q (fs_open p) d = (Ok ino, d') -> ino = i.
Proof.
  intros Hi E. apply io_q_run in E as (ro & s & Eo & -> & Er). destruct ro; [|done].
  injection Er as <-. unfold fs_open, syscall in Eo.
  destruct (next_fault _); simpl in Eo; rewrite ?Hi in Eo; by simplify_eq.
Qed.

Lemma fstat_length i d n d' :
  io_q (fs_fstat i) d = (Ok n, d') ->
  exists c, inodes (disk_fs d) !! i = Some c /\ n = Z.of_nat (length c).
Proof.
  intros E. apply io_q_run in E as (ro & s & Eo & -> & Er). destruct ro as [m|]; [|done].
  injection Er as <-. unfold fs_fstat, syscall in Eo.
  destruct (next_fault _); simpl in Eo; try done;
    destruct (inodes (disk_fs d) !! i) as [c|]; simplify_eq; eauto.
Qed.

(** The end that [read] computes from the size of the file is the end of the
    range that was found to be cached. *)
Lemma read_end d k range i c e :
  InUse k -> disk_inv d -> 0 <= range.1 ->
  names (disk_fs d) !! dp k = Some i -> inodes (disk_fs d) !! i = Some c ->
  good_at (disk_fs d) k i (range.1, e) -> resolved_end d k range e ->
  let end_ := if range.2 =? OPEN_ENDED then Z.of_nat (length c) - 1
              else Z.min range.2 (Z.of_nat (length c) - 1) in
  range.1 <= end_ -> end_ = e.
Proof.
  intros HU Hd H0 Hi Hc Hg [Hcl Hop] end_ Hle. unfold end_ in *.
  pose proof (inv_size _ _ _ _ (inv_fs _ _ _ _ Hd) k i c HU Hi Hc) as Hsize.
  destruct (Z.eqb_spec range.2 OPEN_ENDED) as [Ho|Ho].
  - destruct (Hop Ho) as [->|(i' & c' & Hi' & Hc' & ->)]; [|congruence].
    destruct (decide (range.1 <= Z.of_nat (length (content k)) - 1)); [|lia].
    destruct (good_at_end _ _ _ _ _ _ Hg Hc); lia.
  - rewrite (Hcl Ho) in *. destruct (decide (range.1 <= range.2)); [|lia].
    destruct (good_at_end _ _ _ _ _ _ Hg Hc); lia.
Qed.

Lemma range_length_Ok a e n : range_length a e = Ok n -> n = e - a + 1 /\ a <= e.
Proof.
  unfold range_length. intros E. apply ok_or_Ok in E.
  destruct (checked_sub e a) as [sp|] eqn:Es; [|done]. simpl in E.
  apply checked_sub_Some in Es as [-> ?]. apply checked_add_Some in E as [-> _]. lia.
Qed.

Lemma read_run k range d r d' :
  InUse k -> disk_inv d -> 0 <= range.1 -> read config k range d = (r, d') ->
  disk_inv d' /\ same_files (disk_fs d) (disk_fs d')
  /\ forall rd, r = Ok rd ->
       reader_ok (disk_fs d') k rd
       /\ rd_start rd = range.1 /\ rd_read rd = 0 /\ rd_chunk rd = chunk_size config
       /\ 0 < rd_total rd
       /\ resolved_end d' k range (range.1 + rd_total rd - 1).
Proof.
  intros HU Hd H0 E. unfold read in E.
  run_bind E as cached d1 E1; (eapply check_range_run in E1 as (I1 & F1 & b & Hb & Hgood); [|done..]).
  2: done. injection Hb as <-. destruct cached; simpl in E.
  2:{ injection E as <- <-. split_and!; done. }
  destruct (Hgood eq_refl) as (e & Hre & i & Hi & Hg).
  assert (Hkeep : forall d2, same_disk d1 d2 ->
            disk_inv d2 /\ same_files (disk_fs d) (disk_fs d2)).
  { intros d2 S2. split; [by eapply same_disk_inv|]. eapply same_files_trans; [exact F1|apply S2]. }
  run_bind E as ino d2 E2; pose proof (readonly_io_q _ _ _ _ (readonly_open _) E2) as S2.
  2:{ subst r. destruct (Hkeep d' S2). by split_and!. }
  apply (open_linked _ _ _ _ _ Hi) in E2 as ->.
  run_bind E as fsz d3 E3; pose proof (readonly_io_q _ _ _ _ (readonly_fstat _) E3) as S3;
    pose proof (transitivity S2 S3) as S13; destruct (Hkeep _ S13) as [I3 F3].
  2:{ subst r. by split_and!. }
  apply fstat_length in E3 as (c & Hc & ->).
  destruct S2 as [(_ & Hino & _) _]. rewrite Hino in Hc. clear Hino.
  destruct (Z.leb_spec (Z.of_nat (length c)) range.1).
  { injection E as <- <-. by split_and!. }
  pose proof (read_end d1 k range i c e HU I1 H0 Hi Hc Hg Hre) as Hend. cbv zeta in Hend.
  set (end_ := if range.2 =? OPEN_ENDED then _ else _) in E, Hend.
  run_bind E as tot d4 E4; injection E4 as E4 <-.
  2:{ subst r. by split_and!. }
  apply range_length_Ok in E4 as [-> Hle]. specialize (Hend Hle).
  run_bind E as u d5 E5; pose proof (readonly_io_q _ _ _ _ (readonly_seek _) E5) as S5;
    pose proof (transitivity S13 S5) as S15; destruct (Hkeep _ S15) as [I5 F5].
  2:{ subst r. by split_and!. }
  injection E as <- <-. split_and!; [done|done|].
  intros rd [= <-]. simpl. replace (range.1 + (end_ - range.1 + 1) - 1) with e by lia.
  destruct S15 as [F15 _]. split_and!; try done; try lia.
  - split_and!; simpl; try lia.
    + apply (linked_owned config content InUse); [apply (inv_fs _ _ _ _ I5)|].
      by destruct F15 as (-> & _ & _).
    + replace (range.1 + (end_ - range.1 + 1) - 1) with e by lia.
      destruct Hg as (x & Hx & Hgx). exists x. split; [|done].
      by destruct F15 as (_ & -> & _).
  - by apply (resolved_end_same d1).
Qed.
End Write.
