(* ===== verification/DiskCalm.v ===== *)
(** * The disk engine when no call fails

    Without I/O failures every operation of the engine does its work: the
    metadata of a key can be updated and found again, also after a restart,
    and a write records every byte it accepted, whether the upstream stream
    completes or breaks off. *)

From Stdlib Require Import Strings.Byte Strings.String.
From S2P Require Import Prelude Bytes Error External Digest Range RangeTable FileSystem Storage Disk DiskInvariant DiskMetadata DiskWrite.

(** No call fails; reads may still be short. *)
Definition not_bad (f : fault) : bool := match f with Bad _ _ => false | _ => true end.
Definition calm_fs (s : fs) : Prop := forallb not_bad (faults s) = true.
Definition calm (d : DiskStorage) : Prop := calm_fs (disk_fs d).

Lemma calm_next s : calm_fs s -> not_bad (next_fault s) = true.
Proof. unfold calm_fs, next_fault. destruct (faults s); simpl; [done|]. by destruct (not_bad f). Qed.

Lemma calm_pop s : calm_fs s -> calm_fs (pop s).
Proof. unfold calm_fs, pop. simpl. destruct (faults s); simpl; [done|]. by destruct (not_bad f). Qed.
#[export] Hint Resolve calm_pop : proxy.

Lemma syscall_calm {A} (body : FS A) s : calm_fs s -> syscall body s = body (pop s).
Proof. intros Hc%calm_next. unfold syscall. by destruct (next_fault s). Qed.

(** A computation that succeeds and leaves the file system calm. *)
Definition succeeds {A} (m : D A) (d : DiskStorage) (a : A) (d' : DiskStorage) : Prop :=
  m d = (Ok a, d') /\ calm d'.

Lemma io_q_calm {A} (m : FS A) d a s :
  m (disk_fs d) = (Ok a, s) -> calm_fs s -> succeeds (io_q m) d a (set_fs s d).
Proof. intros E Hc. split; [|done]. unfold io_q. by rewrite E. Qed.

Lemma io_ok_calm {A} (m : FS A) d r s :
  m (disk_fs d) = (r, s) -> calm_fs s ->
  succeeds (io_ok m) d (match r with Ok a => Some a | Err _ => None end) (set_fs s d).
Proof. intros E Hc. split; [|done]. unfold io_ok. by rewrite E. Qed.

Lemma ancestors_self p : p ∈ ancestors p.
Proof.
  unfold ancestors. apply elem_of_list_to_set, list_elem_of_In, in_map_iff.
  exists (length p). rewrite firstn_all. split; [done|]. apply in_seq. lia.
Qed.

Lemma read_next_calm rd d r d' : calm d -> read_next rd d = (r, d') -> calm d'.
Proof.
  intros Hc E. unfold read_next in E. destruct (_ <=? _); [by injection E as _ <-|].
  assert (Hx : forall r1 d1, io_q (fs_pread_short (rd_ino rd) (Z.to_nat (rd_start rd + rd_read rd))
      (Z.to_nat (Z.min (rd_chunk rd) (rd_total rd - rd_read rd)))) d = (r1, d1) -> calm d1).
  { intros r1 d1 (ro & s & Ep & -> & _)%io_q_run.
    unfold fs_pread_short, fs_pread, syscall in Ep. unfold calm. simpl.
    assert (s = pop (disk_fs d)) as -> by (repeat case_match; by simplify_eq).
    by apply calm_pop. }
  run_bind E as b d1 E1; apply Hx in E1; [|done]. destruct b; by injection E as _ <-.
Qed.

Section Calm.
Context {sha : Sha256} {shaL : Sha256Laws} {js : MetadataJson} {jsL : MetadataJsonLaws}.
Context {ord : HashOrder text RangeMetadata}.
Context (config : StorageConfig) (content : text -> list byte) (InUse : text -> Prop).
Context (Hcoll : no_collision InUse) (Hfit : content_fits content).
(** Serializing a record does not fail. *)
Context (Hjson : forall m, metadata_typed m -> exists b, json_to_vec m = Ok b).

Abbreviation dp := (get_file_path config).
Abbreviation mp := (get_metadata_path config).
Abbreviation tp := (temporary_path config).
Abbreviation disk_inv := (disk_inv config content InUse).
Abbreviation view_good := (view_good config content).
Abbreviation meta_good := (meta_good config content).
Abbreviation honest_at := (honest_at content).

Lemma parent_mp k : parent (mp k) = shard_dir config k.
Proof. by rewrite mp_eq, parent_snoc. Qed.
Lemma parent_tp k : parent (tp k) = shard_dir config k.
Proof. by rewrite tp_eq by apply sha256_hex_nonempty; rewrite parent_snoc. Qed.
Lemma parent_dp k : parent (dp k) = shard_dir config k.
Proof. by rewrite dp_eq, parent_snoc. Qed.

Lemma ensure_dir_calm p d :
  calm d -> exists d', succeeds (ensure_dir_exists p) d tt d' /\ same_disk d d'
    /\ parent p ∈ dirs (disk_fs d').
Proof.
  intros Hc. exists (set_fs (set_dirs (union (ancestors (parent p))) (pop (disk_fs d))) d).
  split; [|split].
  - apply io_q_calm; [unfold fs_create_dir_all; by rewrite syscall_calm|by apply (calm_pop (disk_fs d))].
  - by split.
  - simpl. apply elem_of_union_l, ancestors_self.
Qed.

Lemma data_file_size_calm k d i c :
  calm d -> names (disk_fs d) !! dp k = Some i -> inodes (disk_fs d) !! i = Some c ->
  exists d', succeeds (data_file_size config k) d (Some (Z.of_nat (length c))) d' /\ same_disk d d'.
Proof.
  intros Hc Hi Hci. eexists. split.
  - unfold data_file_size.
    apply (io_ok_calm (fs_stat (dp k)) d (Ok (Z.of_nat (length c))) (pop (disk_fs d)));
      [|by apply calm_pop]. unfold fs_stat. rewrite syscall_calm by done.
    change (names (pop (disk_fs d))) with (names (disk_fs d)). rewrite Hi. simpl.
    by rewrite Hci.
  - by split.
Qed.

Lemma load_metadata_calm k d m :
  InUse k -> disk_inv d -> calm d -> persisted config (disk_fs d) k m ->
  meta_good (disk_fs d) k m -> (exists i, names (disk_fs d) !! dp k = Some i) ->
  exists d', succeeds (load_metadata config k) d (Some m) d' /\ same_disk d d'.
Proof.
  intros HU Hd Hc (j & b & Hj & Hb & Hjs) Hm [i Hi].
  destruct (inv_alloc _ _ _ _ (inv_fs _ _ _ _ Hd) _ _ Hi) as [_ [c Hci]].
  pose proof (io_ok_calm (fs_read (mp k)) d (Ok b) (pop (disk_fs d))) as [E1 C1].
  { unfold fs_read. rewrite syscall_calm by done.
    change (names (pop (disk_fs d))) with (names (disk_fs d)). rewrite Hj. simpl. by rewrite Hb. }
  { by apply calm_pop. }
  destruct (data_file_size_calm k (set_fs (pop (disk_fs d)) d) i c C1 Hi Hci) as (d2 & [E2 C2] & S2).
  exists d2. split; [split; [|done]|].
  - unfold load_metadata. rewrite (io_bind_Ok _ _ _ _ _ E1). simpl. rewrite Hjs.
    rewrite (io_bind_Ok _ _ _ _ _ E2).
    assert (Hv : metadata_is_valid m k (Some (Z.of_nat (length c))) = true).
    { destruct Hm as ((Hn & Hf & Ht) & Hk & Hv).
      apply metadata_is_valid_spec; [by eapply json_typed| |].
      - intros size [= <-].
        pose proof (inv_size _ _ _ _ (inv_fs _ _ _ _ Hd) k i c HU Hi Hci).
        specialize (Hfit k). unfold is_u64. lia.
      - split_and!; [lia|done| |done|].
        + intros t ->%Ht.
          pose proof (inv_size _ _ _ _ (inv_fs _ _ _ _ Hd) k i c HU Hi Hci). lia.
        + destruct Hn as [Hok _]. rewrite Forall_forall in *. intros r Hr.
          destruct (Hf r Hr) as (i' & Hi' & Hg). simplify_eq. destruct (Hok r Hr) as [? _].
          destruct r as [a e]. simpl in *.
          by destruct (good_at_end _ _ _ _ _ _ _ Hg Hci ltac:(lia)). }
    by rewrite Hv.
  - etrans; [|exact S2]. by split.
Qed.

Lemma write_metadata_calm k m d :
  InUse k -> disk_inv d -> calm d -> meta_good (disk_fs d) k m ->
  exists d', succeeds (write_metadata config k m) d tt d'.
Proof.
  intros HU Hd Hc Hm.
  destruct (ensure_dir_calm (mp k) d Hc) as (d1 & [E1 C1] & S1 & Hp1).
  destruct (Hjson m (meta_good_typed config content Hfit _ _ _ Hm)) as [b Hb].
  destruct (io_q_calm (fs_write (tp k) b) d1 tt (put_file (tp k) b (pop (disk_fs d1)))) as [E2 C2].
  { unfold fs_write. pose proof (calm_next _ C1) as Hn.
    rewrite decide_True by (by rewrite parent_tp, <- parent_mp).
    by destruct (next_fault (disk_fs d1)). }
  { apply calm_pop in C1. unfold calm_fs, put_file in *.
    by destruct (names (pop (disk_fs d1)) !! tp k). }
  set (s2 := put_file (tp k) b (pop (disk_fs d1))) in *.
  destruct (put_file_name (pop (disk_fs d1)) (tp k) b) as [j Hj]. fold s2 in Hj.
  destruct (io_q_calm (fs_rename (tp k) (mp k)) (set_fs s2 d1) tt
              (set_names (fun n => <[mp k := j]> (base.delete (tp k) n)) (pop s2))) as [E3 C3].
  { unfold fs_rename. rewrite syscall_calm by done. simpl. by rewrite Hj. }
  { by apply (calm_pop s2). }
  eexists. split; [|exact C3].
  unfold write_metadata. rewrite (io_bind_Ok _ _ _ _ _ E1).
  fold (temporary_path config k).
  rewrite (io_bind_Ok _ _ d1 b d1) by (unfold lift; by rewrite Hb).
  rewrite (io_bind_Ok _ _ d1 (Ok tt) (set_fs s2 d1)) by (unfold attempt; by rewrite E2).
  by rewrite (io_bind_Ok _ _ _ (Ok tt) _) by (unfold attempt; by rewrite E3).
Qed.

Lemma index_insert_calm k m d : calm d -> exists d', succeeds (index_insert k m) d tt d'.
Proof. intros Hc. eexists. split; [reflexivity|exact Hc]. Qed.

(** [load_metadata] never fails, and keeps the calm. *)
Lemma load_metadata_total k d :
  calm d -> exists o d', succeeds (load_metadata config k) d o d'.
Proof.
  intros Hc. unfold load_metadata.
  assert (Hr : exists r, fs_read (mp k) (disk_fs d) = (r, pop (disk_fs d))).
  { unfold fs_read. rewrite syscall_calm by done. destruct (_ ≫= _); eauto. }
  destruct Hr as [r Er].
  destruct (io_ok_calm (fs_read (mp k)) d r _ Er) as [E1 C1]; [by apply calm_pop|].
  unfold succeeds. rewrite (io_bind_Ok _ _ _ _ _ E1).
  destruct (_ ≫= json_from_slice) as [m|]; [|eauto].
  assert (Hs : exists q, fs_stat (dp k) (pop (disk_fs d)) = (q, pop (pop (disk_fs d)))).
  { unfold fs_stat. rewrite syscall_calm by done. destruct (_ ≫= _); eauto. }
  destruct Hs as [q Eq].
  destruct (io_ok_calm (fs_stat (dp k)) (set_fs (pop (disk_fs d)) d) q _ Eq) as [E2 C2];
    [by apply calm_pop|].
  unfold data_file_size. rewrite (io_bind_Ok _ _ _ _ _ E2). eauto.
Qed.

Lemma update_metadata_calm k edit d :
  InUse k -> disk_inv d -> calm d ->
  (forall m, view_good (disk_fs d) k m -> view_good (disk_fs d) k (edit m).1) ->
  exists d', succeeds (update_metadata config k edit) d tt d'.
Proof.
  intros HU Hd Hc He. unfold update_metadata, succeeds.
  rewrite (io_bind_Ok get _ d d d) by done.
  assert (H1 : exists m0 d1, succeeds (match metadata_index d !! k with
             | Some cached => mret cached
             | None => loaded ← load_metadata config k; mret (default metadata_default loaded)
             end) d m0 d1 /\ same_disk d d1 /\ view_good (disk_fs d) k m0).
  { destruct (metadata_index d !! k) as [m|] eqn:Em.
    - exists m, d. split_and!; [done|done|]. by apply (inv_index _ _ _ _ Hd).
    - destruct (load_metadata_total k d Hc) as (o & d1 & E1 & C1).
      exists (default metadata_default o), d1. split; [split; [|done]|].
      { by rewrite (io_bind_Ok _ _ _ _ _ E1). }
      pose proof (load_metadata_run config content InUse Hfit k d _ d1 HU Hd E1)
        as (Hs & o' & [= <-] & Hg). split; [done|].
      destruct o as [m|]; [|apply view_good_default]. simpl.
      destruct (Hg m eq_refl) as [Hv _]. destruct Hs as [(Hn & Hi & _) _].
      unfold DiskInvariant.view_good, range_good, good_at in *. by rewrite Hn, Hi in Hv. }
  destruct H1 as (m0 & d1 & [E1 C1] & S1 & Hv0). rewrite (io_bind_Ok _ _ _ _ _ E1).
  specialize (He m0 Hv0). destruct (edit m0) as [m1 ch]. simpl in He.
  destruct ch; [|by exists d1].
  assert (Hg : meta_good (disk_fs d1) k (stamp k m1)).
  { apply stamp_good. destruct S1 as [(Hn & Hi & _) _].
    unfold DiskInvariant.view_good, range_good, good_at in *. by rewrite Hn, Hi. }
  destruct (write_metadata_calm k (stamp k m1) d1) as (d2 & E2 & C2); [done| |done|done|].
  { by eapply same_disk_inv. }
  rewrite (io_bind_Ok _ _ _ _ _ E2). apply index_insert_calm. exact C2.
Qed.
(** ** Writing *)

Lemma flush_buf_calm w d : calm d -> exists w' d', succeeds (flush_buf w) d w' d'.
Proof.
  intros Hc. unfold flush_buf, succeeds. destruct (w_buf w) as [|x b]; [eauto|].
  assert (E : exists s, fs_pwrite (w_ino w) (Z.to_nat (w_pos w)) (x :: b) (disk_fs d) = (Ok tt, s)
                /\ calm_fs s).
  { unfold fs_pwrite. pose proof (calm_next _ Hc). pose proof (calm_pop _ Hc).
    destruct (next_fault (disk_fs d)); [eauto|eauto|done]. }
  destruct E as (s & E & Cs). destruct (io_q_calm _ d tt s E Cs) as [E1 C1].
  rewrite (io_bind_Ok _ _ _ _ _ E1). eauto.
Qed.

Lemma write_all_calm w chunk d : calm d -> exists w' d', succeeds (write_all w chunk) d w' d'.
Proof.
  intros Hc. unfold write_all, succeeds.
  assert (H1 : exists w1 d1, succeeds (if WRITE_BUFFER_BYTES <? Z.of_nat (length (w_buf w) + length chunk)
                                       then flush_buf w else mret w) d w1 d1).
  { destruct (_ <? _); [by apply flush_buf_calm|]. by exists w, d. }
  destruct H1 as (w1 & d1 & E1 & C1). rewrite (io_bind_Ok _ _ _ _ _ E1).
  destruct (_ <=? _); [by apply flush_buf_calm|]. by eexists _, d1.
Qed.

(** Why the copying loop stops early. *)
Fixpoint loop_failure (s : stream) (ml : option Z) (n : Z) : option ProxyError.t :=
  match s with
  | [] => None
  | Err e :: _ => Some e
  | Ok chunk :: s' =>
      let next := n + Z.of_nat (length chunk) in
      if match ml with Some maximum => maximum <? next | None => false end
      then Some (ProxyError.Storage (str "上游响应体超过请求的缓存范围"))
      else loop_failure s' ml next
  end.

Lemma write_loop_calm s ml n w d :
  calm d -> 0 <= n -> n + Z.of_nat (length (stream_bytes s)) <= u64_max ->
  exists le d', succeeds (write_loop s ml n w) d le d'
    /\ le_recordable le = true /\ le_failure le = loop_failure s ml n
    /\ le_written le = accepted s ml n.
Proof.
  revert n w d. induction s as [|[chunk|e] s IH]; intros n w d Hc H0 Hn; simpl.
  - eexists _, d. split; [by split|done].
  - simpl in Hn. rewrite length_app in Hn.
    destruct (checked_add n (Z.of_nat (length chunk))) as [next|] eqn:Ec.
    2:{ apply checked_add_None in Ec. lia. }
    apply checked_add_Some in Ec as [-> _].
    destruct (match ml with Some maximum => _ | None => false end).
    { eexists _, d. split; [by split|done]. }
    destruct (write_all_calm w chunk d Hc) as (w' & d1 & E1 & C1).
    destruct (IH (n + Z.of_nat (length chunk)) w' d1) as (le & d2 & [E2 C2] & Hle); [done|lia|lia|].
    exists le, d2. split; [|done]. split; [|done].
    by rewrite (io_bind_Ok _ _ d (Ok w') d1) by (unfold attempt; by rewrite E1).
  - eexists _, d. split; [by split|done].
Qed.

Lemma accepted_le s ml n : accepted s ml n <= n + Z.of_nat (length (stream_bytes s)).
Proof.
  revert n; induction s as [|[chunk|e] s IH]; intros n; simpl; try lia.
  rewrite length_app. specialize (IH (n + Z.of_nat (length chunk))). repeat case_match; lia.
Qed.

Lemma persist_prefix_calm k start le d :
  InUse k -> disk_inv d -> calm d -> 0 <= start -> le_recordable le = true ->
  writer_ok config content d k start (le_written le) (le_writer le) ->
  start + le_written le <= u64_max ->
  exists d', succeeds (persist_prefix config k start le) d None d'.
Proof.
  intros HU Hd Hc Hs Hr Hw Hmax. unfold persist_prefix, succeeds. rewrite Hr.
  destruct (Z.ltb_spec 0 (le_written le)); simpl; [|by exists d].
  destruct (flush_buf_calm (le_writer le) d Hc) as (w' & d1 & E1 & C1).
  pose proof (flush_buf_run config content InUse Hcoll k start (le_written le) _ d _ d1 HU Hd Hw E1)
    as (S1 & N1 & Hf). destruct (Hf w' eq_refl) as [Hw' Hb].
  rewrite (io_bind_Ok _ _ d (Ok w') d1) by (unfold attempt; by rewrite E1).
  destruct (io_q_calm fs_sync d1 tt (pop (disk_fs d1))) as [E2 C2];
    [unfold fs_sync; by rewrite syscall_calm|by apply calm_pop|].
  rewrite (io_bind_Ok _ _ d1 (Ok tt) (set_fs (pop (disk_fs d1)) d1)) by (unfold attempt; by rewrite E2).
  rewrite (io_bind_Ok _ _ _ (start + (le_written le - 1)) (set_fs (pop (disk_fs d1)) d1)).
  2:{ unfold lift, checked_add. destruct (Z.leb_spec (start + (le_written le - 1)) u64_max); [done|lia]. }
  assert (S2 : same_disk d1 (set_fs (pop (disk_fs d1)) d1)) by by split.
  assert (I2 : disk_inv (set_fs (pop (disk_fs d1)) d1)) by (eapply same_disk_inv; [exact S2|apply S1]).
  destruct (update_metadata_calm k (fun m => (set_completed (merge_range (completed m) start
      (start + (le_written le - 1))) m, true)) (set_fs (pop (disk_fs d1)) d1)) as (d3 & E3 & C3);
    [done|done|done| |].
  - apply (merge_edit_good config content); [lia|lia|].
    replace (start + (le_written le - 1)) with (start + le_written le - 1) by lia.
    eapply range_good_same; [apply S2|]. by eapply writer_range_good.
  - exists d3. split; [|done]. unfold record_completed_range.
    by rewrite (io_bind_Ok _ _ _ _ _ E3).
Qed.
Lemma open_create_calm k d :
  calm d -> parent (dp k) ∈ dirs (disk_fs d) ->
  exists i d', succeeds (io_q (fs_open_create (dp k))) d i d'.
Proof.
  intros Hc Hp.
  assert (E : exists i s, fs_open_create (dp k) (disk_fs d) = (Ok i, s) /\ calm_fs s).
  { unfold fs_open_create. rewrite syscall_calm by done. pose proof (calm_pop _ Hc).
    destruct (names (pop (disk_fs d)) !! dp k); [eauto|].
    rewrite decide_True by done. eexists _, _. split; [reflexivity|done]. }
  destruct E as (i & s & E & Cs). exists i, (set_fs s d). by apply io_q_calm.
Qed.

(** The length bound a write derives from its range. *)
Definition write_bound (range : Z * Z) : option Z :=
  if range.2 =? OPEN_ENDED then None else Some (range.2 - range.1 + 1).

Lemma honest_bound k start b :
  honest_at k (Z.to_nat start) b -> 0 <= start <= i64_max ->
  start + Z.of_nat (length b) <= u64_max.
Proof.
  intros Hh Hs. destruct (decide (b = [])) as [->|Hb]; [simpl; lia|].
  pose proof (honest_at_length content k _ b Hh Hb). specialize (Hfit k). lia.
Qed.

(** Without failing calls a write returns what the stream dictates, and
    every accepted byte is recorded, also when it returns an error. *)
Lemma write_bound_run range (d : DiskStorage) :
  0 <= range.1 -> (range.2 = OPEN_ENDED \/ range.1 <= range.2 < u64_max) ->
  ((if range.2 =? OPEN_ENDED then mret None
    else n ← lift (range_length range.1 range.2); mret (Some n)) : D (option Z)) d
  = (Ok (write_bound range), d).
Proof.
  intros H0 Hr. unfold write_bound. destruct (Z.eqb_spec range.2 OPEN_ENDED); [done|].
  rewrite (io_bind_Ok _ _ d (range.2 - range.1 + 1) d); [done|].
  unfold lift, range_length, checked_sub, checked_add, OPEN_ENDED in *.
  destruct (Z.leb_spec range.1 range.2); [|lia]. simpl.
  destruct (Z.leb_spec (range.2 - range.1 + 1) u64_max); [done|lia].
Qed.

Lemma write_calm k s range d :
  InUse k -> disk_inv d -> calm d -> 0 <= range.1 <= i64_max ->
  (range.2 = OPEN_ENDED \/ range.1 <= range.2 < u64_max) ->
  honest_at k (Z.to_nat range.1) (stream_bytes s) ->
  exists d', write config k s range d
      = (match loop_failure s (write_bound range) 0 with
         | Some e => Err e
         | None => Ok (accepted s (write_bound range) 0)
         end, d')
    /\ calm d'
    /\ (0 < accepted s (write_bound range) 0 ->
        recorded config d' k range.1 (range.1 + accepted s (write_bound range) 0 - 1)).
Proof.
  intros HU Hd Hc Hs Hr Hh. unfold write.
  rewrite (io_bind_Ok _ _ _ _ _ (write_bound_run range d (proj1 Hs) Hr)).
  destruct (ensure_dir_calm (dp k) d Hc) as (d1 & [E1 C1] & S1 & Hp).
  rewrite (io_bind_Ok _ _ _ _ _ E1). pose proof (data_step_same config content InUse _ _ Hd S1) as T1.
  destruct (open_create_calm k d1 C1 Hp) as (i & d2 & E2 & C2).
  rewrite (io_bind_Ok _ _ _ _ _ E2).
  pose proof (open_create_run config content InUse k d1 _ d2 (proj1 T1) E2) as [T2 Hn].
  specialize (Hn i eq_refl).
  destruct (io_q_calm (fs_seek range.1) d2 tt (pop (disk_fs d2))) as [E3 C3].
  { unfold fs_seek. rewrite syscall_calm by done.
    destruct (Z.ltb_spec i64_max range.1); [lia|done]. }
  { by apply calm_pop. }
  rewrite (io_bind_Ok _ _ _ _ _ E3). set (d3 := set_fs (pop (disk_fs d2)) d2) in *.
  assert (I3 : disk_inv d3)
    by (apply (same_disk_inv config content InUse d2); [by split|apply T2]).
  assert (Hw : writer_ok config content d3 k range.1 0 (mk_Writer i range.1 [])).
  { apply (writer_ok_start config content InUse); [done|exact Hn|lia]. }
  pose proof (honest_bound k range.1 _ Hh Hs) as Hmax.
  destruct (write_loop_calm s (write_bound range) 0 (mk_Writer i range.1 []) d3 C3)
    as (le & d4 & [E4 C4] & Hrec & Hfail & Hwr); [lia|lia|].
  rewrite (io_bind_Ok _ _ _ _ _ E4).
  pose proof (write_loop_run config content InUse Hcoll k range.1 _ _ _ _ d3 _ d4 HU I3 Hw
                ltac:(lia) ltac:(by rewrite Z.add_0_r) E4) as (T4 & N4 & le' & [= <-] & Hrw & _).
  destruct (Hrw Hrec) as [Hw4 _].
  pose proof (accepted_le s (write_bound range) 0). pose proof (accepted_ge s (write_bound range) 0).
  destruct (persist_prefix_calm k range.1 le d4 HU (proj1 T4) C4) as (d5 & E5 & C5);
    [lia|done|done|lia|].
  rewrite (io_bind_Ok _ _ _ _ _ E5). rewrite Hfail, Hwr. exists d5.
  split_and!; [by destruct (loop_failure _ _ _)|done|]. intros Hpos.
  pose proof (persist_prefix_run config content InUse Hcoll Hfit k range.1 le d4 _ d5 HU (proj1 T4)
                ltac:(lia) (fun _ => Hw4) E5) as (_ & _ & Hx).
  rewrite Hwr in Hx. by apply Hx.
Qed.
(** ** Looking up and reading *)

(** The record of [k] is [m]: in the index, or on disk for a fresh start. *)
Definition knows (d : DiskStorage) (k : text) (m : RangeMetadata) : Prop :=
  meta_good (disk_fs d) k m
  /\ (metadata_index d !! k = Some m
      \/ (metadata_index d !! k = None /\ persisted config (disk_fs d) k m)).

Lemma with_metadata_calm {T} k (view : RangeMetadata -> T) d m i :
  InUse k -> disk_inv d -> calm d -> knows d k m -> names (disk_fs d) !! dp k = Some i ->
  exists d', succeeds (with_metadata config k view) d (view m) d'
    /\ disk_inv d' /\ same_files (disk_fs d) (disk_fs d') /\ metadata_index d' !! k = Some m.
Proof.
  intros HU Hd Hc [Hm Hk] Hi. unfold with_metadata, succeeds.
  rewrite (io_bind_Ok get _ d d d) by done.
  destruct Hk as [Hk|[Hk Hp]]; rewrite Hk; [exists d; by split_and!|].
  destruct (load_metadata_calm k d m HU Hd Hc Hp Hm ltac:(eauto)) as (d1 & [E1 C1] & S1).
  rewrite (io_bind_Ok _ _ _ _ _ E1).
  assert (Hm1 : meta_good (disk_fs d1) k m).
  { eapply meta_good_mono; [exact HU|apply (inv_fs _ _ _ _ Hd)|by apply same_disk_keeps|done]. }
  destruct (index_insert_calm k m d1 C1) as (d2 & E2 & C2).
  pose proof (index_insert_run config content InUse k m d1 _ d2
                (same_disk_inv config content InUse _ _ S1 Hd) Hm1 E2) as (_ & Hf & I2 & Hx).
  rewrite (io_bind_Ok _ _ _ _ _ E2). exists d2. split_and!; try done; rewrite Hf; apply S1.
Qed.

Lemma check_range_calm k d m i c a b :
  InUse k -> disk_inv d -> calm d -> knows d k m ->
  names (disk_fs d) !! dp k = Some i -> inodes (disk_fs d) !! i = Some c ->
  a <= b -> b < u64_max -> (forall o, a <= o <= b -> has_offset (completed m) o) ->
  exists d', succeeds (check_range config k (a, b)) d true d'
    /\ disk_inv d' /\ same_files (disk_fs d) (disk_fs d').
Proof.
  intros HU Hd Hc Hk Hi Hci Hab Hb Hall. unfold check_range, succeeds. simpl.
  destruct (Z.eqb_spec b OPEN_ENDED); [unfold OPEN_ENDED in *; lia|].
  rewrite (io_bind_Ok (mret (Some b)) _ d (Some b) d) by done.
  destruct (with_metadata_calm k (fun m => covers (completed m) a b) d m i HU Hd Hc Hk Hi)
    as (d1 & [E1 C1] & I1 & F1 & _).
  rewrite (io_bind_Ok _ _ _ _ _ E1).
  rewrite (proj2 (covers_spec (completed m) a b (proj1 (proj1 (proj1 Hk))) Hab)) by done.
  destruct F1 as (Hn & Hin & Hx).
  destruct (data_file_size_calm k d1 i c C1) as (d2 & [E2 C2] & S2); [by rewrite Hn|by rewrite Hin|].
  rewrite (io_bind_Ok _ _ _ _ _ E2). exists d2. split_and!; try done.
  - by eapply same_disk_inv.
  - eapply same_files_trans; [|apply S2]. done.
Qed.

(** A lookup of a stored range succeeds, and so does opening the stream. *)
Lemma read_calm k d m i c a b :
  InUse k -> disk_inv d -> calm d -> knows d k m ->
  names (disk_fs d) !! dp k = Some i -> inodes (disk_fs d) !! i = Some c ->
  0 <= a <= b -> b < u64_max -> (forall o, a <= o <= b -> has_offset (completed m) o) ->
  exists rd d', succeeds (read config k (a, b)) d rd d' /\ rd_total rd = b - a + 1.
Proof.
  intros HU Hd Hc Hk Hi Hci Hab Hb Hall.
  destruct (check_range_calm k d m i c a b HU Hd Hc Hk Hi Hci ltac:(lia) Hb Hall)
    as (d1 & [E1 C1] & I1 & F1).
  unfold read, succeeds. rewrite (io_bind_Ok _ _ _ _ _ E1). simpl.
  assert (Hgb : b < Z.of_nat (length c) /\ b < Z.of_nat (length (content k))).
  { assert (Hcov : covers (completed m) a b = true)
      by (apply covers_spec; [apply Hk|lia|done]).
    destruct (covers_good config content d k m a b (proj1 (proj1 Hk)) Hcov) as (i' & Hi' & Hg).
    simplify_eq. by eapply good_at_end; [exact Hg|exact Hci|lia]. }
  destruct F1 as (Hn & Hin & _). specialize (Hfit k).
  destruct (io_q_calm (fs_open (dp k)) d1 i (pop (disk_fs d1))) as [E2 C2]; [|by apply calm_pop|].
  { unfold fs_open. rewrite syscall_calm by done. simpl. by rewrite Hn, Hi. }
  rewrite (io_bind_Ok _ _ _ _ _ E2). set (d2 := set_fs (pop (disk_fs d1)) d1) in *.
  destruct (io_q_calm (fs_fstat i) d2 (Z.of_nat (length c)) (pop (disk_fs d2))) as [E3 C3];
    [|by apply (calm_pop (disk_fs d2))|].
  { unfold fs_fstat. rewrite syscall_calm by done. simpl. by rewrite Hin, Hci. }
  rewrite (io_bind_Ok _ _ _ _ _ E3). set (d3 := set_fs (pop (disk_fs d2)) d2) in *.
  destruct (Z.leb_spec (Z.of_nat (length c)) a); [lia|].
  destruct (Z.eqb_spec b OPEN_ENDED); [unfold OPEN_ENDED in *; lia|].
  rewrite (Z.min_l b) by lia.
  rewrite (io_bind_Ok _ _ d3 (b - a + 1) d3).
  2:{ unfold lift, range_length, checked_sub, checked_add.
      destruct (Z.leb_spec a b); [|lia]. simpl.
      destruct (Z.leb_spec (b - a + 1) u64_max); [done|lia]. }
  destruct (io_q_calm (fs_seek a) d3 tt (pop (disk_fs d3))) as [E4 C4];
    [|by apply (calm_pop (disk_fs d3))|].
  { unfold fs_seek. rewrite syscall_calm by done. destruct (Z.ltb_spec i64_max a); [lia|done]. }
  rewrite (io_bind_Ok _ _ _ _ _ E4). eexists _, _. split; [split; [reflexivity|exact C4]|done].
Qed.
End Calm.
