(* ===== verification/DiskTheorems.v ===== *)
(** * The disk engine: theorems

    Runs of the engine as sequences of steps, the invariant on every
    reachable state, what a read stream delivers while other operations run,
    removal, persistence across a restart, and the abstract specification: a
    reachable cache never hands out a byte that is not the resource's. *)

From Stdlib Require Import Strings.Byte Strings.String.
From S2P Require Import Prelude Bytes Error External Digest Range RangeTable FileSystem Storage Disk DiskInvariant DiskMetadata DiskWrite DiskCalm.

Section Runs.
Context {sha : Sha256} {shaL : Sha256Laws} {js : MetadataJson} {jsL : MetadataJsonLaws}.
Context {ord : HashOrder text RangeMetadata}.
Context (config : StorageConfig) (content : text -> list byte) (InUse : text -> Prop).
Context (Hcoll : no_collision InUse) (Hfit : content_fits content).

Abbreviation dp := (get_file_path config).
Abbreviation mp := (get_metadata_path config).
Abbreviation disk_inv := (disk_inv config content InUse).
Abbreviation evolves := (evolves config content InUse).
Abbreviation reader_ok := (reader_ok config content).
Abbreviation slice := (slice content).

Lemma good_slice s k i c a n :
  good_at content s k i (a, a + n - 1) -> inodes s !! i = Some c -> 0 <= a -> 0 <= n ->
  take (Z.to_nat n) (drop (Z.to_nat a) c) = slice k a n.
Proof.
  intros (c' & Hc' & Hg) Hc Ha Hn. simplify_eq. unfold slice. apply list_eq. intros j.
  destruct (decide (j < Z.to_nat n)%nat) as [Hj|Hj].
  - rewrite !lookup_take_lt, !lookup_drop by lia.
    destruct (Hg (a + Z.of_nat j)) as [_ E]; [simpl; lia|].
    by replace (Z.to_nat (a + Z.of_nat j)) with (Z.to_nat a + j)%nat in E by lia.
  - rewrite !lookup_take_ge by lia. done.
Qed.

Lemma slice_length s k i a n :
  good_at content s k i (a, a + n - 1) -> 0 <= a -> 0 <= n ->
  length (slice k a n) = Z.to_nat n.
Proof.
  intros (c & Hc & Hg) Ha Hn. unfold slice. rewrite length_take, length_drop.
  destruct (decide (n = 0)) as [->|]; [simpl; lia|].
  destruct (Hg (a + n - 1)) as [[x Hx] _]; [simpl; lia|].
  apply lookup_lt_Some in Hx. lia.
Qed.

(** One step of a read stream: it ends exactly when everything was handed
    out, a chunk is the next piece of the resource, and only a failing
    read call makes it fail. *)
Lemma read_next_run k rd d r d' :
  reader_ok (disk_fs d) k rd -> 0 < rd_chunk rd -> read_next rd d = (r, d') ->
  same_disk d d'
  /\ match r with
     | Ok None => rd_read rd = rd_total rd /\ d' = d
     | Ok (Some (b, rd')) =>
         b <> [] /\ b = slice k (rd_start rd + rd_read rd) (Z.of_nat (length b))
         /\ reader_ok (disk_fs d') k rd'
         /\ rd_start rd' = rd_start rd /\ rd_total rd' = rd_total rd
         /\ rd_chunk rd' = rd_chunk rd
         /\ rd_read rd' = rd_read rd + Z.of_nat (length b)
     | Err _ => exists msg n, next_fault (disk_fs d) = Bad msg n
     end.
Proof.
  intros (Ho & Hg & Hs & Hr) Hc E. unfold read_next in E.
  destruct (Z.leb_spec (rd_total rd) (rd_read rd)).
  { injection E as <- <-. split; [done|]. split; [lia|done]. }
  set (to_read := Z.min (rd_chunk rd) (rd_total rd - rd_read rd)) in E.
  run_bind E as b d1 E1; pose proof (readonly_io_q _ _ _ _ (readonly_pread _ _ _) E1) as S1;
    apply io_q_run in E1 as (ro & s & Ep & -> & Hro).
  2:{ subst r. split; [done|]. destruct ro as [|e]; [done|].
      unfold fs_pread_short, fs_pread, syscall in Ep.
      destruct (next_fault (disk_fs d)) eqn:Ef; rewrite ?Ef in Ep; simplify_eq; eauto. }
  destruct ro as [b'|]; [|done]. injection Hro as <-.
  destruct Hg as (c & Hci & Hgc).
  assert (Hb : exists n, 0 < n <= to_read
            /\ b = take (Z.to_nat n) (drop (Z.to_nat (rd_start rd + rd_read rd)) c)).
  { unfold fs_pread_short, fs_pread, syscall in Ep.
    destruct (next_fault (disk_fs d)) as [|q|] eqn:Ef; rewrite ?Ef in Ep; simpl in Ep;
      rewrite ?Hci in Ep; simplify_eq; simpl.
    - exists to_read. split; [unfold to_read; lia|done].
    - exists (Z.min to_read (Z.of_nat (S q))). split; [unfold to_read; lia|].
      f_equal. unfold to_read. lia. }
  destruct Hb as (n & Hn & Hbn).
  assert (Hgn : good_at content (disk_fs d) k (rd_ino rd)
            (rd_start rd + rd_read rd, rd_start rd + rd_read rd + n - 1)).
  { exists c. split; [done|]. simpl in *. intros o Ho'. apply Hgc. unfold to_read in Hn. lia. }
  rewrite (good_slice _ _ _ _ _ _ Hgn Hci) in Hbn by lia.
  pose proof (slice_length _ _ _ _ _ Hgn) as Hlen. rewrite <- Hbn in Hlen.
  destruct b as [|x b]; [simpl in Hlen; lia|].
  injection E as <- <-. split; [done|]. split; [done|].
  assert (Hzl : Z.of_nat (length (x :: b)) = n) by lia. rewrite Hzl.
  split; [done|]. split; [|split_and!; try done; simpl in *; lia].
  unfold DiskWrite.reader_ok. simpl. split_and!; try (unfold to_read in Hn; simpl in Hzl; lia).
  - destruct S1 as [(Hnn & _ & Hx) _]. simpl in *. destruct Ho as [? Ho].
    split; rewrite ?Hnn, ?Hx; done.
  - destruct S1 as [(_ & Hii & _) _]. exists c. simpl in *. by rewrite Hii.
Qed.

Lemma remove_if_present_run p d r d' :
  remove_if_present p d = (r, d') ->
  (d' = set_fs (pop (disk_fs d)) d /\ (r = Ok tt -> names (disk_fs d) !! p = None))
  \/ (d' = set_fs (set_names (base.delete p) (pop (disk_fs d))) d /\ r = Ok tt).
Proof.
  unfold remove_if_present, fs_remove, syscall. intros E.
  destruct (next_fault (disk_fs d)); simpl in E;
    try (destruct (names (disk_fs d) !! p) eqn:En); simpl in E; simplify_eq;
    first [by right | by left].
Qed.

(** Removal.  A removal that reports success leaves no trace of the key; it
    never disturbs the handles of running reads. *)
(** Removing the record of [k] from the index, and both its files. *)
Lemma remove_pair_inv k d :
  InUse k -> disk_inv d ->
  let s := set_names (base.delete (mp k))
             (pop (set_names (base.delete (dp k)) (pop (disk_fs d)))) in
  disk_inv (set_fs s (set_index (base.delete k) d)) /\ evolves (disk_fs d) s.
Proof.
  intros HU Hd s. split; [split|].
  - eapply same_inv; [|apply (remove_pair_step config content InUse (disk_fs d) k Hcoll HU),
                         (inv_fs _ _ _ _ Hd)]. done.
  - intros k' m HU' Hk'. simpl in Hk'. apply lookup_delete_Some in Hk' as [Hne Hk'].
    destruct (inv_index _ _ _ _ Hd k' m HU' Hk') as [(Hn & Hf & Ht) Hm].
    split; [|done]. split_and!; [done| |done]. eapply Forall_impl; [exact Hf|].
    intros rg (i & Hi & Hg). exists i. split; [|exact Hg]. simpl.
    rewrite lookup_delete_ne by apply not_eq_sym, dp_ne_mp.
    rewrite lookup_delete_ne; [done|]. intros Eq. apply Hne.
    by apply (dp_inj config InUse).
  - intros k' i _ Ho. split; [|done]. by apply remove_owned, remove_owned.
Qed.

(** The metadata file alone may go at any time. *)
Lemma remove_metadata_inv k d :
  disk_inv d ->
  disk_inv (set_fs (set_names (base.delete (mp k)) (pop (pop (disk_fs d)))) d).
Proof.
  intros Hd. destruct (remove_other_step config content InUse (pop (pop (disk_fs d))) (mp k)) as [I Q].
  - apply pop_inv, pop_inv, (inv_fs _ _ _ _ Hd).
  - intros k' _. apply not_eq_sym, dp_ne_mp.
  - apply (index_keeps config content InUse d); [done|exact I|]. by apply quiet_keeps.
Qed.

Lemma delete_run k d r d' :
  InUse k -> disk_inv d -> delete config k d = (r, d') ->
  evolves (disk_fs d) (disk_fs d')
  /\ (r = Ok tt -> disk_inv d' /\ names (disk_fs d') !! dp k = None
      /\ names (disk_fs d') !! mp k = None /\ metadata_index d' !! k = None)
  /\ (is_Some (names (disk_fs d') !! dp k) \/ names (disk_fs d') !! mp k = None ->
      disk_inv d').
Proof.
  intros HU Hd E. unfold delete in E. run_bind E as u d1 E1; [|done]. injection E1 as _ <-.
  set (d1 := set_index (base.delete k) d) in E.
  assert (I1 : disk_inv d1).
  { destruct Hd as [Hf Hi]. split; [done|]. intros k' m HU' Hk'. apply Hi; [done|].
    simpl in Hk'. by apply lookup_delete_Some in Hk' as [_ ?]. }
  assert (X1 : metadata_index d1 !! k = None) by apply lookup_delete_eq.
  pose proof (remove_pair_inv k d HU Hd) as Hpair. cbv zeta in Hpair. fold d1 in Hpair.
  run_bind E as u1 d2 E2.
  - apply remove_if_present_run in E2 as [[-> Hno]|[-> _]];
    apply remove_if_present_run in E as [[-> Hno']|[-> Hr]].
    + (* neither removed *)
      split_and!; [by intros ? ? ? ?| |].
      * intros ->. destruct u1. split_and!; [by eapply (same_disk_inv config); [|exact I1]| | |done].
        -- by apply Hno.
        -- by apply Hno'.
      * intros _. by eapply (same_disk_inv config); [|exact I1].
    + (* metadata removed, no data file *)
      destruct u1. specialize (Hno eq_refl).
      pose proof (remove_metadata_inv k d1 I1) as I2. cbn [disk_fs set_index d1] in I2.
      split_and!; [intros k' i _ Ho; split; [by apply remove_owned|done]| |done].
      intros _. split_and!; [done| |by apply lookup_delete_eq|done]. simpl.
      rewrite lookup_delete_ne by apply not_eq_sym, dp_ne_mp. done.
    + (* data removed, metadata not *)
      split_and!; [intros k' i _ Ho; split; [by apply remove_owned|done]| |].
      * intros ->. specialize (Hno' eq_refl). simpl in Hno'.
        rewrite lookup_delete_ne in Hno' by apply dp_ne_mp.
        destruct Hpair as [I _].
        split_and!; [|by apply lookup_delete_eq|by simpl; rewrite lookup_delete_ne by apply dp_ne_mp|done].
        eapply (same_disk_inv config content InUse); [|exact I]. split; [|done]. split_and!; try done.
        simpl. symmetry. apply delete_id. by rewrite lookup_delete_ne by apply dp_ne_mp.
      * intros [[i Hi]|Hm]; simpl in *; [by rewrite lookup_delete_eq in Hi|].
        destruct Hpair as [I _].
        eapply (same_disk_inv config content InUse); [|exact I]. split; [|done]. split_and!; try done.
        simpl. symmetry. by apply delete_id.
    + destruct Hpair as [I Ev]. split_and!; [exact Ev| |done].
      intros _. split_and!; [exact I| |by apply lookup_delete_eq|done].
      simpl. rewrite lookup_delete_ne by apply not_eq_sym, dp_ne_mp. apply lookup_delete_eq.
  - subst r. apply remove_if_present_run in E2 as [[-> _]|[_ [=]]].
    split_and!; [by intros ? ? ? ?|done|]. intros _. by eapply (same_disk_inv config); [|exact I1].
Qed.
(** ** Steps of the engine *)

(** One operation, with any outcome.  Written bytes and reported lengths
    are those of the resource; a removal is not cut off between its two
    files; a restart (or crash) loses the index and brings a new fault
    script. *)
Inductive engine_step : DiskStorage -> DiskStorage -> Prop :=
| es_write k s range r d d' :
    InUse k -> 0 <= range.1 -> honest_at content k (Z.to_nat range.1) (stream_bytes s) ->
    write config k s range d = (r, d') -> engine_step d d'
| es_read k range r d d' :
    InUse k -> 0 <= range.1 -> read config k range d = (r, d') -> engine_step d d'
| es_next rd r d d' : read_next rd d = (r, d') -> engine_step d d'
| es_get_size k r d d' : get_size config k d = (r, d') -> engine_step d d'
| es_check k range r d d' :
    InUse k -> check_range config k range d = (r, d') -> engine_step d d'
| es_record_meta k meta r d d' :
    InUse k -> (forall t, um_total_size meta = Some t -> t = Z.of_nat (length (content k))) ->
    record_upstream_meta config k meta d = (r, d') -> engine_step d d'
| es_upstream_meta k r d d' :
    InUse k -> upstream_meta config k d = (r, d') -> engine_step d d'
| es_delete k r d d' :
    InUse k -> delete config k d = (r, d') ->
    is_Some (names (disk_fs d') !! dp k) \/ names (disk_fs d') !! mp k = None ->
    engine_step d d'
| es_restart d script :
    engine_step d (mk_DiskStorage (set_faults (fun _ => script) (disk_fs d)) ∅).

Inductive engine_steps : DiskStorage -> DiskStorage -> Prop :=
| ess_refl d : engine_steps d d
| ess_step d1 d2 d3 : engine_steps d1 d2 -> engine_step d2 d3 -> engine_steps d1 d3.

(** An empty cache directory. *)
Definition empty_disk (ds : gset path) (script : list fault) : DiskStorage :=
  mk_DiskStorage (mk_fs ∅ ∅ 0 ds script) ∅.
Definition reachable (d : DiskStorage) : Prop :=
  exists ds script, engine_steps (empty_disk ds script) d.

Lemma read_next_same rd r d d' : read_next rd d = (r, d') -> same_disk d d'.
Proof.
  intros E. unfold read_next in E. destruct (_ <=? _); [by injection E as _ <-|].
  run_bind E as b d1 E1; (apply readonly_io_q in E1; [|auto with proxy]); [|done].
  destruct b; by injection E as _ <-.
Qed.

Lemma same_evolves s s' : same_files s s' -> evolves s s'.
Proof. intros Hs. by apply quiet_keeps, same_quiet. Qed.

Lemma engine_step_inv d d' :
  engine_step d d' -> disk_inv d -> disk_inv d' /\ evolves (disk_fs d) (disk_fs d').
Proof.
  destruct 1 as [k s range r d d' HU H0 Hh E|k range r d d' HU H0 E|rd r d d' E|k r d d' E
                |k range r d d' HU E|k meta r d d' HU Ht E|k r d d' HU E|k r d d' HU E Hx
                |d script]; intros Hd.
  - eapply write_run in E as (? & [? _] & _); done.
  - eapply read_run in E as (? & ? & _); try done. split; [done|by apply same_evolves].
  - apply read_next_same in E as Hs. split; [by eapply same_disk_inv|apply same_evolves, Hs].
  - apply data_file_size_run in E as [Hs _]. split; [by eapply same_disk_inv|apply same_evolves, Hs].
  - eapply check_range_run in E as (? & ? & _); try done. split; [done|by apply same_evolves].
  - eapply record_upstream_meta_run in E as [? ?]; try done. split; [done|by apply quiet_keeps].
  - eapply with_metadata_run in E as (? & ? & _); try done. split; [done|by apply same_evolves].
  - eapply delete_run in E as (? & _ & ?); try done. split; auto.
  - split; [|by apply same_evolves]. split.
    + by eapply same_inv; [|apply (inv_fs _ _ _ _ Hd)].
    + intros k m _. simpl. by rewrite lookup_empty.
Qed.

Lemma engine_steps_inv d d' :
  engine_steps d d' -> disk_inv d -> disk_inv d' /\ evolves (disk_fs d) (disk_fs d').
Proof.
  induction 1 as [d|d1 d2 d3 _ IH Hs]; intros Hd; [split; [done|reflexivity]|].
  destruct (IH Hd) as [I2 E2]. destruct (engine_step_inv _ _ Hs I2) as [I3 E3].
  split; [done|by etrans].
Qed.

Lemma empty_disk_inv ds script : disk_inv (empty_disk ds script).
Proof.
  split.
  - split; simpl; intros *; try (by rewrite lookup_empty); by intros ?; rewrite lookup_empty.
  - intros k m _. simpl. by rewrite lookup_empty.
Qed.

Lemma reachable_inv d : reachable d -> disk_inv d.
Proof. intros (ds & script & Hs). by apply (engine_steps_inv _ _ Hs), empty_disk_inv. Qed.

(** ** A read stream among other operations *)

(** The stream [rd] is driven while any engine steps happen between its
    own: [stream_run d rd out d' rd'] collects what it has yielded. *)
Inductive stream_run : DiskStorage -> Reader -> list byte -> DiskStorage -> Reader -> Prop :=
| sr_start d rd : stream_run d rd [] d rd
| sr_other d rd out d1 rd1 d2 :
    stream_run d rd out d1 rd1 -> engine_step d1 d2 -> stream_run d rd out d2 rd1
| sr_chunk d rd out d1 rd1 b rd2 d2 :
    stream_run d rd out d1 rd1 -> read_next rd1 d1 = (Ok (Some (b, rd2)), d2) ->
    stream_run d rd (out ++ b) d2 rd2.

Lemma stream_run_inv k d rd out d' rd' :
  stream_run d rd out d' rd' ->
  InUse k -> disk_inv d -> reader_ok (disk_fs d) k rd -> 0 < rd_chunk rd -> rd_read rd = 0 ->
  disk_inv d' /\ reader_ok (disk_fs d') k rd'
  /\ rd_start rd' = rd_start rd /\ rd_total rd' = rd_total rd /\ rd_chunk rd' = rd_chunk rd
  /\ out = slice k (rd_start rd) (rd_read rd').
Proof.
  induction 1 as [d rd|d rd out d1 rd1 d2 _ IH Hs|d rd out d1 rd1 b rd2 d2 _ IH E];
    intros HU Hd Hr Hc H0.
  - split_and!; try done. rewrite H0. done.
  - destruct (IH HU Hd Hr Hc H0) as (I1 & R1 & ? & ? & ? & ->).
    destruct (engine_step_inv _ _ Hs I1) as [I2 Ev].
    split_and!; try done. by eapply reader_ok_evolves.
  - destruct (IH HU Hd Hr Hc H0) as (I1 & R1 & Est & Etot & Ech & ->).
    apply (read_next_run k) in E as [Hs (Hne & Hb & R2 & Est2 & Etot2 & Ech2 & Erd2)]; [|done|lia].
    pose proof R1 as (_ & _ & Hs0 & Hrd).
    split_and!; [by eapply same_disk_inv|done|lia|lia|lia|].
    rewrite Erd2, slice_app by lia. f_equal. rewrite <- Est. exact Hb.
Qed.

(** What a stream that has yielded [out] does next. *)
Lemma stream_delivers k rd d out :
  reader_ok (disk_fs d) k rd -> 0 < rd_chunk rd -> out = slice k (rd_start rd) (rd_read rd) ->
  out = slice k (rd_start rd) (Z.of_nat (length out))
  /\ match (read_next rd d).1 with
     | Ok None => out = slice k (rd_start rd) (rd_total rd) /\ Z.of_nat (length out) = rd_total rd
     | Ok (Some (b, _)) => b <> [] /\ (length out + length b <= Z.to_nat (rd_total rd))%nat
     | Err _ => exists msg n, next_fault (disk_fs d) = Bad msg n
     end.
Proof.
  intros R Hc Eout.
  assert (Hlen : Z.of_nat (length out) = rd_read rd).
  { destruct R as (_ & (c & Hci & Hg) & Hs0 & Hr2). rewrite Eout.
    erewrite (slice_length (disk_fs d) k (rd_ino rd)); [lia| |lia|lia].
    exists c. split; [done|]. simpl in *. intros o Ho. apply Hg. lia. }
  split; [by rewrite Hlen|]. destruct (read_next rd d) as [r d'] eqn:En.
  apply (read_next_run k) in En as [_ Hres]; [|done|done]. simpl.
  destruct r as [[[b rd']|]|e]; [| |done].
  - destruct Hres as (Hb & _ & (_ & _ & _ & ?) & _ & ? & _ & ?). split; [done|lia].
  - destruct Hres as [Heq _]. split; [by rewrite Eout, Heq|lia].
Qed.

(** Run a stream to its end. *)
Fixpoint drain (fuel : nat) (rd : Reader) : D (list byte) :=
  match fuel with
  | O => mret []
  | S fuel' =>
      o ← read_next rd;
      match o with
      | None => mret []
      | Some (b, rd') => rest ← drain fuel' rd'; mret (b ++ rest)
      end
  end.

(** Every chunk has at least one byte: [total] steps and one are enough. *)
Lemma drain_calm k fuel rd d :
  reader_ok (disk_fs d) k rd -> 0 < rd_chunk rd -> calm d ->
  rd_total rd - rd_read rd < Z.of_nat fuel ->
  exists d', drain fuel rd d
    = (Ok (slice k (rd_start rd + rd_read rd) (rd_total rd - rd_read rd)), d').
Proof.
  revert rd d; induction fuel as [|fuel IH]; intros rd d Hr Hc Hcalm Hf.
  { destruct Hr as (_ & _ & _ & ?). lia. }
  simpl. destruct (read_next rd d) as [r d1] eqn:E.
  pose proof (read_next_calm rd d r d1 Hcalm E) as C1.
  apply (read_next_run k) in E as E'; [|done|done]. destruct E' as [Hs Hres].
  destruct r as [[[b rd']|]|e].
  - destruct Hres as (Hne & Hb & R' & E1 & E2 & E3 & E4).
    rewrite (io_bind_Ok _ _ _ _ _ E).
    assert (Hpos : (0 < length b)%nat) by (destruct b; [done|simpl; lia]).
    destruct (IH rd' d1 R') as [d2 E5]; [lia|done|lia|].
    rewrite (io_bind_Ok _ _ _ _ _ E5). exists d2. unfold mret, io_ret. repeat f_equal.
    destruct Hr as (_ & _ & Hs0 & Hrd), R' as (_ & _ & _ & Hrd').
    rewrite E1, E2, E4.
    replace (rd_total rd - rd_read rd)
      with (Z.of_nat (length b) + (rd_total rd - (rd_read rd + Z.of_nat (length b)))) by lia.
    rewrite (slice_app content k (rd_start rd + rd_read rd)) by lia.
    rewrite <- Hb. f_equal. f_equal; lia.
  - destruct Hres as [Heq ->]. rewrite (io_bind_Ok _ _ _ _ _ E). exists d.
    rewrite Heq, Z.sub_diag. done.
  - exfalso. destruct Hres as (msg & n & Hbad). apply calm_next in Hcalm. by rewrite Hbad in Hcalm.
Qed.
(** ** Stored ranges can be read back *)

(** The same files with a new fault script and an empty index. *)
Definition restart (script : list fault) (d : DiskStorage) : DiskStorage :=
  mk_DiskStorage (set_faults (fun _ => script) (disk_fs d)) ∅.

Lemma recorded_knows d k x y :
  InUse k -> disk_inv d -> recorded config d k x y -> x <= y ->
  exists m i c, meta_good config content (disk_fs d) k m /\ metadata_index d !! k = Some m
    /\ persisted config (disk_fs d) k m
    /\ names (disk_fs d) !! dp k = Some i /\ inodes (disk_fs d) !! i = Some c
    /\ (forall o, x <= o <= y -> has_offset (completed m) o)
    /\ y < Z.of_nat (length (content k)).
Proof.
  intros HU Hd (m & Hi & Hp & Ho) Hxy. pose proof (inv_index _ _ _ _ Hd k m HU Hi) as Hm.
  assert (Hy : has_offset (completed m) y) by (apply Ho; lia).
  apply Exists_exists in Hy as (r & Hr & Hyr). destruct Hm as [(Hn & Hf & Ht) Hm'].
  rewrite Forall_forall in Hf. destruct (Hf r Hr) as (i & Hdi & c & Hc & Hg).
  exists m, i, c. split_and!; try done.
  - split; [|done]. split_and!; [done|by apply Forall_forall|done].
  - destruct (Hg y Hyr) as [[z Hz] _]. apply lookup_lt_Some in Hz. lia.
Qed.

Lemma read_back (Hjson : forall m, metadata_typed m -> exists b, json_to_vec m = Ok b)
    d d' k x y a b :
  InUse k -> disk_inv d -> recorded config d k x y ->
  d' = d \/ (exists script, d' = restart script d) -> calm d' ->
  0 <= x <= a -> a <= b <= y -> 0 < chunk_size config ->
  exists rd d1 d2, read config k (a, b) d' = (Ok rd, d1)
    /\ drain (S (Z.to_nat (b - a + 1))) rd d1 = (Ok (slice k a (b - a + 1)), d2).
Proof.
  intros HU Hd Hrec Hd' Hc Hxa Hab Hch.
  destruct (recorded_knows d k x y HU Hd Hrec ltac:(lia))
    as (m & i & c & Hm & Hidx & Hp & Hi & Hci & Ho & Hy). specialize (Hfit k) as Hk.
  assert (Hd2 : disk_inv d' /\ knows config content d' k m
            /\ names (disk_fs d') !! dp k = Some i /\ inodes (disk_fs d') !! i = Some c).
  { destruct Hd' as [->|[script ->]].
    - split_and!; try done. split; [done|by left].
    - split_and!; try done.
      + apply (engine_step_inv d); [apply es_restart|done].
      + split; [done|]. right. split; [apply lookup_empty|done]. }
  destruct Hd2 as (I' & K' & Hi' & Hci').
  destruct (read_calm config content InUse Hfit k d' m i c a b HU I' Hc K' Hi' Hci')
    as (rd & d1 & [E1 C1] & Ht); [lia|lia|intros; apply Ho; lia|].
  pose proof (read_run config content InUse Hfit k (a, b) d' _ d1 HU I' ltac:(simpl; lia) E1)
    as (I1 & _ & Hrd). destruct (Hrd rd eq_refl) as (R & Hst & H0 & Hck & _).
  destruct (drain_calm k (S (Z.to_nat (b - a + 1))) rd d1) as [d2 E2];
    [done|lia|done|lia|]. rewrite Hst, H0, Ht in E2. simpl in E2.
  rewrite Z.add_0_r, Z.sub_0_r in E2. eauto 6.
Qed.

Lemma honest_slice k start b a n :
  honest_at content k (Z.to_nat start) b -> 0 <= start <= a -> 0 <= n ->
  a - start + n <= Z.of_nat (length b) ->
  slice k a n = take (Z.to_nat n) (drop (Z.to_nat (a - start)) b).
Proof.
  intros Hh Hs Hn Hl. unfold slice. apply list_eq. intros j.
  destruct (decide (j < Z.to_nat n)%nat) as [Hj|Hj]; [|by rewrite !lookup_take_ge by lia].
  rewrite !lookup_take_lt, !lookup_drop by lia.
  destruct (lookup_lt_is_Some_2 b (Z.to_nat (a - start) + j)) as [x Hx]; [lia|].
  rewrite Hx. specialize (Hh _ _ Hx).
  by replace (Z.to_nat start + (Z.to_nat (a - start) + j))%nat
    with (Z.to_nat a + j)%nat in Hh by lia.
Qed.

(** What the invariant says of a record, in the index or on disk. *)
Lemma disk_inv_record d k m :
  disk_inv d -> InUse k ->
  metadata_index d !! k = Some m
  \/ (persisted config (disk_fs d) k m /\ key m = Some k /\ version m <= RANGE_METADATA_VERSION) ->
  normal (completed m)
  /\ (forall t, total_size m = Some t -> t = Z.of_nat (length (content k)))
  /\ forall o, has_offset (completed m) o ->
       exists i c x, names (disk_fs d) !! dp k = Some i /\ inodes (disk_fs d) !! i = Some c
         /\ c !! Z.to_nat o = Some x /\ content k !! Z.to_nat o = Some x.
Proof.
  intros Hd HU Hm.
  assert (Hv : view_good config content (disk_fs d) k m).
  { destruct Hm as [Hm|((i & b & Hi & Hb & Hj) & Hk & Hv)].
    - by apply (inv_index _ _ _ _ Hd).
    - by eapply (inv_meta _ _ _ _ (inv_fs _ _ _ _ Hd)). }
  destruct Hv as (Hn & Hg & Ht). split_and!; [done|done|]. intros o Ho.
  apply Exists_exists in Ho as (r & Hr' & Hor). rewrite Forall_forall in Hg.
  destruct (Hg r Hr') as (i & Hi & c & Hci & Hgc). destruct (Hgc o Hor) as [[x Hx] E].
  exists i, c, x. split_and!; try done. by rewrite E.
Qed.
End Runs.

(** ** A concrete instance for the witnesses

    A digest that is the padded key, a serialization by the generic binary
    encoding of records, and a cache of one resource of 16 bytes. *)

Module DiskDemo.
Definition demo_sha : Sha256 := fun s => take 32 (s ++ replicate 32 x00).
Lemma demo_sha_laws : @Sha256Laws demo_sha.
Proof.
  constructor. intros s. unfold sha256, demo_sha.
  rewrite length_take, length_app, length_replicate. lia.
Qed.

Definition to_tuple (m : RangeMetadata) :=
  (version m, completed m, key m, total_size m, content_type m).
Definition of_tuple (t : Z * list (Z * Z) * option text * option Z * option text) :=
  let '(v, c, k, ts, ct) := t in mk_RangeMetadata v c k ts ct.

Fixpoint bits (p : positive) : list byte :=
  match p with xH => [] | xO p => x00 :: bits p | xI p => x01 :: bits p end.
Fixpoint unbits (l : list byte) : positive :=
  match l with
  | [] => xH
  | b :: l => if decide (b = x00) then xO (unbits l) else xI (unbits l)
  end.
Lemma unbits_bits p : unbits (bits p) = p.
Proof. induction p; simpl; by rewrite ?IHp. Qed.

Definition typed_u64 (z : Z) : bool := bool_decide (is_u64 z).
Definition typedb (m : RangeMetadata) : bool :=
  (0 <=? version m)
  && forallb (fun r => typed_u64 r.1 && typed_u64 r.2) (completed m)
  && match total_size m with Some t => typed_u64 t | None => true end.

Lemma typedb_spec m : typedb m = true <-> metadata_typed m.
Proof.
  unfold typedb, metadata_typed, u64_pair, typed_u64.
  rewrite !andb_true_iff, Z.leb_le, forallb_forall, Forall_forall. split.
  - intros ((? & H1) & H2). split_and!; [done| |].
    + intros r Hr%list_elem_of_In. specialize (H1 r Hr).
      rewrite andb_true_iff, !bool_decide_eq_true in H1. done.
    + intros t Ht. rewrite Ht in H2. by apply bool_decide_eq_true in H2.
  - intros (? & H1 & H2). split_and!; [done| |].
    + intros r Hr%list_elem_of_In. rewrite andb_true_iff, !bool_decide_eq_true. by apply H1.
    + destruct (total_size m); [|done]. apply bool_decide_eq_true. by apply H2.
Qed.

Definition demo_json : MetadataJson := {|
  json_to_vec m := Ok (bits (encode (to_tuple m)));
  json_from_slice b :=
    t ← decode (unbits b); if typedb (of_tuple t) then Some (of_tuple t) else None;
|}.
Lemma demo_json_laws : @MetadataJsonLaws demo_json.
Proof.
  constructor.
  - intros m b Hm [= <-]. cbn [json_from_slice demo_json].
    rewrite unbits_bits, decode_encode. cbn [mbind option_bind].
    assert (E : of_tuple (to_tuple m) = m) by (by destruct m).
    rewrite E. by rewrite (proj2 (typedb_spec m) Hm).
  - intros b m. simpl. destruct (decode (unbits b)) as [t|]; simpl; [|done].
    destruct (typedb (of_tuple t)) eqn:E; [|done]. intros [= <-]. by apply typedb_spec.
Qed.

Definition demo_ord : HashOrder text RangeMetadata := sorted_order text RangeMetadata.
Definition demo_config : StorageConfig := mk_StorageConfig [str "cache"] 4.
Definition K : text := str "a".
Definition demo_content (k : text) : list byte :=
  if decide (k = K) then str "0123456789abcdef" else [].
Definition demo_use (k : text) : Prop := k = K.

Lemma demo_no_collision : @no_collision demo_sha demo_use.
Proof. by intros k1 k2 -> ->. Qed.
Lemma demo_fits : content_fits demo_content.
Proof. intros k. unfold demo_content. case_decide; simpl; lia. Qed.
Lemma demo_json_total m : metadata_typed m -> exists b, @json_to_vec demo_json m = Ok b.
Proof. intros _. eexists. reflexivity. Qed.

Definition d0 : DiskStorage := empty_disk ∅ [].
Definition w (s : stream) (range : Z * Z) (d : DiskStorage) :=
  @write demo_sha demo_json demo_ord demo_config K s range d.
Definition s1 : stream := [Ok (str "0123"); Ok (str "4567")].

Lemma demo_honest : honest_at demo_content K (Z.to_nat 0) (stream_bytes s1).
Proof.
  intros j x Hx. simpl in Hx. unfold demo_content. rewrite decide_True by done. simpl.
  do 8 (destruct j as [|j]; [exact Hx|]). done.
Qed.
Lemma demo_inv : @disk_inv demo_sha demo_json demo_config demo_content demo_use d0.
Proof. apply (@empty_disk_inv demo_sha demo_json). Qed.
End DiskDemo.

Module DiskStorageTheorems.
Import DiskDemo.

(** In every state the engine can reach from an empty cache directory,
    by any interleaving of operations with any outcomes, failing calls,
    crashes and restarts (bytes written and lengths reported being those of
    the upstream resource), each record of a key, in the index or in its
    metadata file, lists ranges in normal form at whose offsets the data
    file holds exactly the bytes of the resource. *)
Theorem reachable_cache_sound
    {sha : Sha256} {shaL : Sha256Laws} {js : MetadataJson} {jsL : MetadataJsonLaws}
    {ord : HashOrder text RangeMetadata}
    (config : StorageConfig) (content : text -> list byte) (InUse : text -> Prop)
    (d : DiskStorage) (k : text) (m : RangeMetadata) :
  no_collision InUse -> content_fits content -> reachable config content InUse d -> InUse k ->
  metadata_index d !! k = Some m
  \/ (persisted config (disk_fs d) k m /\ key m = Some k /\ version m <= RANGE_METADATA_VERSION) ->
  normal (completed m)
  /\ (forall t, total_size m = Some t -> t = Z.of_nat (length (content k)))
  /\ forall o, has_offset (completed m) o ->
       exists i c x, names (disk_fs d) !! get_file_path config k = Some i
         /\ inodes (disk_fs d) !! i = Some c
         /\ c !! Z.to_nat o = Some x /\ content k !! Z.to_nat o = Some x.
Proof.
  intros Hc Hf Hr HU Hm. by eapply disk_inv_record; [apply reachable_inv| |].
Qed.

Definition d1 : DiskStorage := (w s1 (0, 7) d0).2.
Lemma d1_write : w s1 (0, 7) d0 = (Ok 8, d1).
Proof. unfold d1. apply run_result. vm_compute. reflexivity. Qed.
Lemma d1_reachable : @reachable demo_sha demo_json demo_ord demo_config demo_content demo_use d1.
Proof.
  exists ∅, []. eapply ess_step; [apply ess_refl|].
  eapply (es_write _ _ _ K s1 (0, 7)); [done|simpl; lia|apply demo_honest|].
  apply (surjective_pairing (w s1 (0, 7) d0)).
Qed.

Lemma reachable_cache_sound_witness :
  exists m, metadata_index d1 !! K = Some m /\ normal (completed m)
    /\ completed m = [(0, 7)].
Proof.
  eexists. split; [vm_compute; reflexivity|]. split; [|reflexivity].
  eapply (@reachable_cache_sound demo_sha demo_sha_laws demo_json demo_json_laws demo_ord
           demo_config demo_content demo_use d1 K);
    [apply demo_no_collision|apply demo_fits|apply d1_reachable|reflexivity|].
  left. vm_compute. reflexivity.
Defined.

(** A read that is granted delivers exactly the bytes of the resource in
    the requested interval: whatever other operations, evictions of the same
    key and restarts included, run between its steps, what the stream has
    yielded is a prefix of that interval, it ends only after the whole
    interval, and only a failing read call can make it fail. *)
Theorem read_stream_correct
    {sha : Sha256} {shaL : Sha256Laws} {js : MetadataJson} {jsL : MetadataJsonLaws}
    {ord : HashOrder text RangeMetadata}
    (config : StorageConfig) (content : text -> list byte) (InUse : text -> Prop)
    (d d1 d2 : DiskStorage) (k : text) (range : Z * Z) (rd rd2 : Reader) (out : list byte) :
  no_collision InUse -> content_fits content -> reachable config content InUse d -> InUse k ->
  0 < chunk_size config -> 0 <= range.1 ->
  read config k range d = (Ok rd, d1) ->
  stream_run config content InUse d1 rd out d2 rd2 ->
  out = slice content k range.1 (Z.of_nat (length out))
  /\ (range.2 <> OPEN_ENDED -> rd_total rd = range.2 - range.1 + 1)
  /\ match (read_next rd2 d2).1 with
     | Ok None => out = slice content k range.1 (rd_total rd)
                  /\ Z.of_nat (length out) = rd_total rd
     | Ok (Some (b, _)) => b <> [] /\ (length out + length b <= Z.to_nat (rd_total rd))%nat
     | Err _ => exists msg n, next_fault (disk_fs d2) = Bad msg n
     end.
Proof.
  intros Hc Hf Hr HU Hch H0 E Hs. pose proof (reachable_inv _ _ _ Hc Hf _ Hr) as Hd.
  eapply read_run in E as (I1 & _ & Hrd); [|done..].
  destruct (Hrd rd eq_refl) as (R1 & Hst & Hz & Hck & Hpos & Hre).
  eapply (stream_run_inv config content InUse Hc Hf k) in Hs as (I2 & R2 & Est & Etot & Eck & Eout);
    [|done|done|done|lia|done].
  destruct (stream_delivers config content k rd2 d2 out) as [Hlen Hnext];
    [done|lia|by rewrite Eout, Est|].
  rewrite Etot, Est, Hst in *. split_and!; [done| |done].
  intros Hne. destruct Hre as [Hcl _]. specialize (Hcl Hne). lia.
Qed.

Definition rd_demo : Reader := mk_Reader 0 2 4 0 4.
Definition d2 : DiskStorage := (@read demo_sha demo_json demo_ord demo_config K (2, 5) d1).2.
Definition d3 : DiskStorage := (read_next rd_demo d2).2.

Lemma d1_read : @read demo_sha demo_json demo_ord demo_config K (2, 5) d1 = (Ok rd_demo, d2).
Proof. unfold d2. apply run_result. vm_compute. reflexivity. Qed.
Lemma d2_next : read_next rd_demo d2 = (Ok (Some (str "2345", mk_Reader 0 2 4 4 4)), d3).
Proof. unfold d3. apply run_result. vm_compute. reflexivity. Qed.

Lemma read_stream_correct_witness :
  @read demo_sha demo_json demo_ord demo_config K (2, 5) d1 = (Ok rd_demo, d2)
  /\ read_next rd_demo d2 = (Ok (Some (str "2345", mk_Reader 0 2 4 4 4)), d3)
  /\ [] ++ str "2345" = slice demo_content K 2 4.
Proof.
  split; [exact d1_read|]. split; [exact d2_next|].
  apply (@read_stream_correct demo_sha demo_sha_laws demo_json demo_json_laws demo_ord
            demo_config demo_content demo_use d1 d2 d3 K (2, 5) rd_demo (mk_Reader 0 2 4 4 4)
            ([] ++ str "2345") demo_no_collision demo_fits d1_reachable eq_refl
            ltac:(simpl; lia) ltac:(simpl; lia) d1_read).
  exact (sr_chunk demo_config demo_content demo_use d2 rd_demo [] d2 rd_demo _ _ _
           (sr_start _ _ _ _ _) d2_next).
Defined.

(** C4: what a successful write stored is read back: it reports the number
    of bytes of the stream, and while no call fails every sub-interval of
    them can be read, the stream then delivering exactly the bytes that were
    written. *)
Theorem write_read_round_trip
    {sha : Sha256} {shaL : Sha256Laws} {js : MetadataJson} {jsL : MetadataJsonLaws}
    {ord : HashOrder text RangeMetadata}
    (config : StorageConfig) (content : text -> list byte) (InUse : text -> Prop)
    (d d1 : DiskStorage) (k : text) (s : stream) (range : Z * Z) (n a b : Z) :
  no_collision InUse -> content_fits content ->
  (forall m, metadata_typed m -> exists b, json_to_vec m = Ok b) ->
  reachable config content InUse d -> InUse k -> 0 < chunk_size config -> 0 <= range.1 ->
  honest_at content k (Z.to_nat range.1) (stream_bytes s) ->
  write config k s range d = (Ok n, d1) -> calm d1 ->
  range.1 <= a <= b -> b < range.1 + n ->
  n = Z.of_nat (length (stream_bytes s))
  /\ exists rd d2 d3, read config k (a, b) d1 = (Ok rd, d2)
     /\ drain (S (Z.to_nat (b - a + 1))) rd d2
        = (Ok (take (Z.to_nat (b - a + 1)) (drop (Z.to_nat (a - range.1)) (stream_bytes s))), d3).
Proof.
  intros Hc Hf Hj Hr HU Hch H0 Hh E Hcalm Ha Hb.
  pose proof (reachable_inv _ _ _ Hc Hf _ Hr) as Hd.
  eapply write_run in E as (I1 & _ & Hok); [|done..].
  destruct (Hok n eq_refl) as (_ & Hn & Hrec). split; [done|]. specialize (Hrec ltac:(lia)).
  destruct (read_back config content InUse Hc Hf Hj d1 d1 k range.1 (range.1 + n - 1) a b)
    as (rd & d2 & d3 & E1 & E2); [done|done|done|by left|done|lia|lia|done|].
  exists rd, d2, d3. split; [done|]. rewrite E2.
  by rewrite (honest_slice content k range.1 (stream_bytes s)) by (done || lia).
Qed.

Lemma write_read_round_trip_witness :
  exists rd d2 d3, @read demo_sha demo_json demo_ord demo_config K (2, 5) d1 = (Ok rd, d2)
    /\ drain 5 rd d2 = (Ok (str "2345"), d3).
Proof.
  destruct (@write_read_round_trip demo_sha demo_sha_laws demo_json demo_json_laws demo_ord
      demo_config demo_content demo_use d0 d1 K s1 (0, 7) 8 2 5) as [_ H];
    [apply demo_no_collision|apply demo_fits|apply demo_json_total|exists ∅, []; apply ess_refl
    |reflexivity|simpl; lia|simpl; lia|apply demo_honest|exact d1_write
    |vm_compute; reflexivity|simpl; lia|simpl; lia|].
  exact H.
Defined.



(** C27: when no I/O call fails, a write accepts whole chunks up to the end
    of the stream, its first error or the first chunk that exceeds the
    range; it returns the byte count, the stream's error or the overrun
    error accordingly, and in each case every accepted byte is recorded as
    cached, in the index and on disk, so that the next request can resume
    after it. *)
Theorem write_records_accepted_prefix
    {sha : Sha256} {shaL : Sha256Laws} {js : MetadataJson} {jsL : MetadataJsonLaws}
    {ord : HashOrder text RangeMetadata}
    (config : StorageConfig) (content : text -> list byte) (InUse : text -> Prop)
    (d : DiskStorage) (k : text) (s : stream) (range : Z * Z) :
  no_collision InUse -> content_fits content ->
  (forall m, metadata_typed m -> exists b, json_to_vec m = Ok b) ->
  reachable config content InUse d -> InUse k -> calm d ->
  0 <= range.1 <= i64_max -> range.2 = OPEN_ENDED \/ range.1 <= range.2 < u64_max ->
  honest_at content k (Z.to_nat range.1) (stream_bytes s) ->
  let n := accepted s (write_bound range) 0 in
  exists d', write config k s range d
      = (match loop_failure s (write_bound range) 0 with Some e => Err e | None => Ok n end, d')
    /\ 0 <= n <= Z.of_nat (length (stream_bytes s))
    /\ (0 < n -> recorded config d' k range.1 (range.1 + n - 1)).
Proof.
  intros Hc Hf Hj Hr HU Hcalm H0 Hb Hh. cbv zeta.
  pose proof (reachable_inv _ _ _ Hc Hf _ Hr) as Hd.
  destruct (write_calm config content InUse Hc Hf Hj k s range d) as (d' & E & _ & Hrec); try done.
  exists d'. split_and!; [done|apply accepted_ge| |done].
  pose proof (accepted_le s (write_bound range) 0). lia.
Qed.

Definition s_broken : stream := [Ok (str "0123"); Err (ProxyError.Network (str "reset"))].

Lemma write_records_accepted_prefix_witness :
  exists d', w s_broken (0, 7) d0 = (Err (ProxyError.Network (str "reset")), d')
    /\ @recorded demo_sha demo_json demo_config d' K 0 3.
Proof.
  destruct (@write_records_accepted_prefix demo_sha demo_sha_laws demo_json demo_json_laws demo_ord
      demo_config demo_content demo_use d0 K s_broken (0, 7)) as (d' & E & _ & Hr);
    [apply demo_no_collision|apply demo_fits|apply demo_json_total|exists ∅, []; apply ess_refl
    |reflexivity|reflexivity|simpl; lia|right; simpl; lia| |].
  - intros j x Hx. simpl in Hx. unfold demo_content. rewrite decide_True by reflexivity. simpl.
    do 4 (destruct j as [|j]; [exact Hx|]). discriminate Hx.
  - exists d'. split; [exact E|]. apply Hr. vm_compute. reflexivity.
Defined.

(** A removal that reports success leaves nothing behind: afterwards
    the key has no file, no range of it is reported as cached and no
    upstream metadata is returned, whatever calls fail. *)
Theorem delete_then_miss
    {sha : Sha256} {shaL : Sha256Laws} {js : MetadataJson} {jsL : MetadataJsonLaws}
    {ord : HashOrder text RangeMetadata}
    (config : StorageConfig) (content : text -> list byte) (InUse : text -> Prop)
    (d d1 : DiskStorage) (k : text) (range : Z * Z) :
  no_collision InUse -> content_fits content -> reachable config content InUse d -> InUse k ->
  delete config k d = (Ok tt, d1) ->
  reachable config content InUse d1
  /\ names (disk_fs d1) !! get_file_path config k = None
  /\ (check_range config k range d1).1 = Ok false
  /\ (upstream_meta config k d1).1 = Ok upstream_meta_default.
Proof.
  intros Hc Hf Hr HU E. pose proof (reachable_inv _ _ _ Hc Hf _ Hr) as Hd.
  assert (Hstep := E). eapply delete_run in E as (_ & Hok & _); [|done..].
  destruct (Hok eq_refl) as (I1 & Hdp & Hmp & Hidx).
  assert (Hload : forall d2, same_disk d1 d2 -> exists d3,
            load_metadata config k d2 = (Ok None, d3) /\ same_disk d2 d3).
  { intros d2 [(Hn & _ & _) _]. unfold load_metadata.
    destruct (io_ok (fs_read (get_metadata_path config k)) d2) as [r d3] eqn:Er.
    pose proof (readonly_io_ok _ _ _ _ (readonly_read _) Er) as Hs.
    apply io_ok_run in Er as (ro & s & Ef & -> & ->). destruct ro as [b|].
    - apply fs_read_Ok in Ef as (i & Hi & _). congruence.
    - unfold mbind, io_bind. simpl. unfold io_ok. rewrite Ef. eauto. }
  assert (Hwith : forall T (view : RangeMetadata -> T) d2, same_disk d1 d2 -> exists d3,
            with_metadata config k view d2 = (Ok (view metadata_default), d3) /\ same_disk d2 d3).
  { intros T view d2 Hs. destruct (Hload d2 Hs) as (d3 & E3 & S3). exists d3.
    unfold with_metadata. rewrite (io_bind_Ok get _ d2 d2 d2) by done.
    destruct Hs as [_ Hx]. rewrite Hx, Hidx. by rewrite (io_bind_Ok _ _ _ _ _ E3). }
  split_and!.
  - destruct Hr as (ds & script & Hr). exists ds, script.
    eapply ess_step; [exact Hr|]. eapply es_delete; [exact HU|exact Hstep|by right].
  - done.
  - unfold check_range. destruct (range.2 =? OPEN_ENDED) eqn:Eo.
    + destruct (Hwith _ total_size d1 ltac:(reflexivity)) as (d2 & E2 & S2).
      destruct (data_file_size config k d2) as [r3 d3] eqn:E3.
      pose proof (data_file_size_run config k d2 r3 d3 E3) as (S3 & o & -> & Hsz).
      assert (o = None) as ->.
      { destruct o as [n|]; [|done]. destruct (Hsz n eq_refl) as (i & c & Hi & _).
        destruct S2 as [(Hn2 & _) _], S3 as [(Hn3 & _) _]. congruence. }
      rewrite (io_bind_Ok _ _ d1 None d3); [done|].
      rewrite (io_bind_Ok _ _ _ _ _ E2). simpl. by rewrite (io_bind_Ok _ _ _ _ _ E3).
    + rewrite (io_bind_Ok (mret _) _ d1 (Some range.2) d1) by done.
      destruct (Hwith _ (fun m => covers (completed m) range.1 range.2) d1 ltac:(reflexivity))
        as (d2 & E2 & _).
      by rewrite (io_bind_Ok _ _ _ _ _ E2).
  - unfold upstream_meta.
    destruct (Hwith _ (fun m => mk_UpstreamMeta (total_size m) (content_type m)) d1
                ltac:(reflexivity)) as (d2 & E2 & _). by rewrite E2.
Qed.

Lemma delete_then_miss_witness :
  (@check_range demo_sha demo_json demo_ord demo_config K (0, 3)
     (@delete demo_sha demo_config K d1).2).1 = Ok false.
Proof.
  apply (@delete_then_miss demo_sha demo_sha_laws demo_json demo_json_laws demo_ord
      demo_config demo_content demo_use d1);
    [apply demo_no_collision|apply demo_fits|apply d1_reachable|reflexivity
    |apply run_result; vm_compute; reflexivity].
Defined.

(** The entry of [d1], removed while the second removal call fails, and a
    write to the resource's tail afterwards. *)
Definition half_removed : Result unit * DiskStorage :=
  @delete demo_sha demo_config K
    (mk_DiskStorage (set_faults (fun _ => [Good; Bad (str "EIO") 0]) (disk_fs d1))
       (metadata_index d1)).
Definition refilled : Result Z * DiskStorage :=
  w [Ok (str "cdef")] (12, 15) half_removed.2.

(** A removal that is cut off after the data file (the removal of the
    metadata file fails) leaves a record without data; a later write at
    another offset re-creates the data file with a hole, and the engine then
    reports the old range as cached and serves zero bytes for it. *)
Theorem half_removed_entry_serves_zeros :
  is_ok half_removed.1 = false
  /\ refilled.1 = Ok 4
  /\ (@check_range demo_sha demo_json demo_ord demo_config K (0, 3) refilled.2).1 = Ok true
  /\ ((rd ← @read demo_sha demo_json demo_ord demo_config K (0, 3); drain 5 rd) refilled.2).1
     = Ok (replicate 4 x00)
  /\ take 4 (demo_content K) = str "0123".
Proof.
  split; [vm_compute; reflexivity|]. split; [vm_compute; reflexivity|].
  split; [vm_compute; reflexivity|]. split; vm_compute; reflexivity.
Qed.
End DiskStorageTheorems.
