(* ===== verification/DiskRaces.v ===== *)
(** * The disk engine: interleaved methods

    Soundness of the cache when the methods of the engine interleave at their
    await points ([DiskTasks]), by rely and guarantee: what each task may assume of
    the steps of the others, given the locks it holds, and what its own steps
    promise.  The reading methods hold no lock, and what they rely on is that no
    removal of their key runs beside them.  Every method is shown to keep to its
    part; [DiskInterleaved] puts the tasks together. *)

From Stdlib Require Import Strings.Byte Strings.String.
From S2P Require Import Prelude Bytes Error External Digest Range RangeTable FileSystem Storage Disk DiskTasks DiskInvariant DiskMetadata DiskWrite DiskCalm DiskTheorems.

(** ** What steps on one key leave alone *)

Section Races.
Context {sha : Sha256} {shaL : Sha256Laws} {js : MetadataJson} {jsL : MetadataJsonLaws}.
Context {ord : HashOrder text RangeMetadata}.
Context (config : StorageConfig) (content : text -> list byte) (InUse : text -> Prop).
Context (Hcoll : no_collision InUse) (Hfit : content_fits content).

Abbreviation dp := (get_file_path config).
Abbreviation mp := (get_metadata_path config).
Abbreviation tp := (temporary_path config).
Abbreviation wl := (write_lock_for).
Abbreviation ml := (metadata_lock_for).

Lemma tp_inj k1 k2 : InUse k1 -> InUse k2 -> tp k1 = tp k2 -> k1 = k2.
Proof.
  intros H1 H2. rewrite !tp_eq by apply sha256_hex_nonempty. intros [_ E]%snoc_inj.
  apply hex_suffix_inj in E as [E _]; [|right; eexists; reflexivity..].
  apply Hcoll; [done..|]. by apply sha256_hex_inj.
Qed.

(** The three files of a key. *)
Definition files (k : text) : list path := [dp k; mp k; tp k].

Lemma files_disjoint k1 k2 p :
  InUse k1 -> InUse k2 -> k1 <> k2 -> p ∈ files k1 -> p ∉ files k2.
Proof.
  intros H1 H2 Hne. unfold files. rewrite !elem_of_cons, elem_of_nil.
  intros [->|[->|[->|[]]]] [E|[E|[E|[]]]].
  - by apply Hne, (dp_inj config InUse).
  - by eapply dp_ne_mp.
  - by eapply dp_ne_tp.
  - by eapply dp_ne_mp.
  - by apply Hne, (mp_inj config InUse).
  - by eapply mp_ne_tp.
  - by eapply dp_ne_tp.
  - by eapply mp_ne_tp.
  - by apply Hne, tp_inj.
Qed.

(** A file that is the same before and after. *)
Definition same_at (s s' : fs) (p : path) : Prop :=
  names s' !! p = names s !! p /\ forall i, names s !! p = Some i -> inodes s' !! i = inodes s !! i.
(** What was, or is, a data file of [k] stays one, with its good bytes. *)
Definition evolves_at (k : text) (s s' : fs) : Prop :=
  forall i, owned config s k i ->
    owned config s' k i /\ forall r, good_at content s k i r -> good_at content s' k i r.
Definition linked_at (k : text) (s s' : fs) : Prop :=
  forall i, names s !! dp k = Some i -> names s' !! dp k = Some i.
(** An index entry may be evicted. *)
Definition index_at (k : text) (d d' : DiskStorage) : Prop :=
  metadata_index d' !! k = metadata_index d !! k \/ metadata_index d' !! k = None.

Lemma same_at_trans s1 s2 s3 p : same_at s1 s2 p -> same_at s2 s3 p -> same_at s1 s3 p.
Proof.
  intros [N1 I1] [N2 I2]. split; [by rewrite N2|]. intros i Hi.
  rewrite I2 by (by rewrite N1). auto.
Qed.
Lemma evolves_at_trans k s1 s2 s3 : evolves_at k s1 s2 -> evolves_at k s2 s3 -> evolves_at k s1 s3.
Proof. intros H1 H2 i [Ho Hg]%H1. destruct (H2 i Ho). auto. Qed.

(** Steps that change no file but those of [k]: other names and the content of
    other files stay, and no file moves from another key to this one. *)
Record confined (k : text) (s s' : fs) : Prop := {
  cf_names p : p ∉ files k -> names s' !! p = names s !! p;
  cf_inodes i : (i < next_ino s)%nat -> (forall p, p ∈ files k -> names s !! p <> Some i) ->
    inodes s' !! i = inodes s !! i;
  cf_next : (next_ino s <= next_ino s')%nat;
  cf_links p i : p ∈ files k -> names s' !! p = Some i ->
    (next_ino s <= i)%nat \/ exists q, q ∈ files k /\ names s !! q = Some i;
}.

Lemma confined_same k s s' : same_files s s' -> confined k s s'.
Proof. intros (Hn & Hi & Hx). split; rewrite ?Hn, ?Hi, ?Hx; eauto. Qed.

Lemma confined_pop k s s' : confined k (pop s) s' -> confined k s s'.
Proof. intros [A B C E]. by split. Qed.

(** The primitive changes of the files of a key. *)
Section Primitives.
Context (k : text) (s : fs).
Context (Halloc : forall p i, names s !! p = Some i -> (i < next_ino s)%nat).
Context (Hlinks : forall p q i, names s !! p = Some i -> names s !! q = Some i -> p = q).

Lemma confined_alloc p c : p ∈ files k -> confined k s (alloc p c s).
Proof.
  intros Hp. split; simpl.
  - intros q Hq. apply lookup_insert_ne. by intros ->.
  - intros i Hi _. apply lookup_insert_ne. lia.
  - lia.
  - intros q i Hq. rewrite lookup_insert_Some. intros [[_ <-]|[_ Hi]]; eauto.
Qed.

Lemma confined_content p i f :
  p ∈ files k -> names s !! p = Some i -> confined k s (set_inodes (alter f i) s).
Proof.
  intros Hp Hi. split; simpl; [done| |done|eauto].
  intros j _ Hj. apply lookup_alter_ne. intros ->. by apply (Hj p).
Qed.

Lemma confined_put p c : p ∈ files k -> confined k s (put_file p c s).
Proof.
  intros Hp. unfold put_file. destruct (names s !! p) as [i|] eqn:Ei; [|by apply confined_alloc].
  split; simpl; [done| |done|eauto].
  intros j _ Hj. apply lookup_insert_ne. intros ->. by apply (Hj p).
Qed.

Lemma confined_remove p : p ∈ files k -> confined k s (set_names (base.delete p) s).
Proof.
  intros Hp. split; simpl; [|done|done|].
  - intros q Hq. apply lookup_delete_ne. by intros ->.
  - intros q i Hq [_ Hi]%lookup_delete_Some. eauto.
Qed.

Lemma confined_rename p q i :
  p ∈ files k -> q ∈ files k -> names s !! p = Some i ->
  confined k s (set_names (fun n => <[q := i]> (base.delete p n)) s).
Proof.
  intros Hp Hq Hi. split; simpl; [|done|done|].
  - intros x Hx. rewrite lookup_insert_ne, lookup_delete_ne; [done|by intros ->..].
  - intros x j Hx. rewrite lookup_insert_Some, lookup_delete_Some.
    intros [[_ <-]|[_ [_ Hj]]]; eauto.
Qed.
End Primitives.

Lemma same_files_at s s' p : same_files s s' -> same_at s s' p.
Proof. intros (Hn & Hi & _). unfold same_at. by rewrite Hn, Hi. Qed.

Lemma same_evolves_at k s s' : same_files s s' -> evolves_at k s s'.
Proof.
  intros (Hn & Hi & Hx) i [Hlt Ho]. unfold owned, good_at. by rewrite Hn, Hi, Hx.
Qed.

Section Foreign.
Context (k k' : text) (s s' : fs).
Context (Hk : InUse k) (Hk' : InUse k') (Hne : k <> k').
Context (Halloc : forall p i, names s !! p = Some i -> (i < next_ino s)%nat).
Context (Hlinks : forall p q i, names s !! p = Some i -> names s !! q = Some i -> p = q).
Context (Hc : confined k s s').

Lemma foreign_same_at p : p ∈ files k' -> same_at s s' p.
Proof.
  intros Hp. split.
  - apply (cf_names _ _ _ Hc). eapply files_disjoint, Hp; [done..|by apply not_eq_sym].
  - intros i Hi. apply (cf_inodes _ _ _ Hc); [by eapply Halloc|].
    intros q Hq Hqi. rewrite (Hlinks _ _ _ Hqi Hi) in Hq.
    eapply (files_disjoint k k'); eauto.
Qed.

Lemma foreign_evolves : evolves_at k' s s'.
Proof.
  intros i [Hlt Ho].
  assert (Hfar : forall p, p ∈ files k -> names s !! p <> Some i).
  { intros p Hp Hi. apply Ho in Hi as ->. eapply (files_disjoint k k'); eauto. by left. }
  split.
  - split; [pose proof (cf_next _ _ _ Hc); lia|]. intros p Hp.
    destruct (decide (p ∈ files k)) as [Hf|Hf].
    + destruct (cf_links _ _ _ Hc p i Hf Hp) as [?|(q & Hq & Hqi)]; [lia|]. by destruct (Hfar q Hq).
    + apply Ho. by rewrite <- (cf_names _ _ _ Hc p Hf).
  - intros r (c & Hci & Hg). exists c. by rewrite (cf_inodes _ _ _ Hc i Hlt Hfar).
Qed.
End Foreign.

(** ** Rely and guarantee *)

Inductive kind : Type := Reading | Writing | Deleting.
#[export] Instance kind_eq_dec : EqDecision kind.
Proof. solve_decision. Defined.
Definition kind_of (o : op) : kind :=
  match o with
  | OpDelete _ => Deleting
  | _ => if lock_free o then Reading else Writing
  end.

(** A task of kind [c] on the key [k]. *)
Section Discipline.
Context (c : kind) (k : text).

Definition guarded (L : list lock) : Prop := wl k ∈ L \/ ml k ∈ L.
Definition critical (L : list lock) : Prop := c = Deleting /\ wl k ∈ L /\ ml k ∈ L.

(** What it may assume of the steps of the others while it holds [L]. *)
Record rely (L : list lock) (d d' : DiskStorage) : Prop := {
  rely_evolves : evolves_at k (disk_fs d) (disk_fs d');
  rely_linked : c = Reading \/ guarded L -> linked_at k (disk_fs d) (disk_fs d');
  rely_temporary : ml k ∈ L -> same_at (disk_fs d) (disk_fs d') (tp k);
  rely_frozen : critical L ->
    same_at (disk_fs d) (disk_fs d') (dp k) /\ same_at (disk_fs d) (disk_fs d') (mp k)
    /\ index_at k d d';
}.

(** What its own steps promise. *)
Record guarantee (L : list lock) (d d' : DiskStorage) : Prop := {
  gu_confined : confined k (disk_fs d) (disk_fs d');
  gu_index k' : k' <> k -> index_at k' d d';
  gu_evolves : evolves_at k (disk_fs d) (disk_fs d');
  gu_linked : linked_at k (disk_fs d) (disk_fs d') \/ critical L;
  gu_temporary : ml k ∈ L \/ same_at (disk_fs d) (disk_fs d') (tp k);
  gu_frozen : c = Reading \/ guarded L
    \/ (same_at (disk_fs d) (disk_fs d') (dp k) /\ same_at (disk_fs d) (disk_fs d') (mp k)
        /\ index_at k d d');
}.

#[export] Instance rely_preorder L : PreOrder (rely L).
Proof.
  split.
  - intros d. split; [by intros i|by intros _ i|done|]. intros _. split_and!; [done|done|by left].
  - intros d1 d2 d3 [E1 L1 T1 F1] [E2 L2 T2 F2]. split.
    + by eapply evolves_at_trans.
    + intros Hs i Hi. apply L2, L1; done.
    + intros Hm. eapply same_at_trans; auto.
    + intros Hc. destruct (F1 Hc) as (A1 & B1 & C1), (F2 Hc) as (A2 & B2 & C2).
      split_and!; [by eapply same_at_trans..|]. unfold index_at in *. intuition congruence.
Qed.

Lemma guarantee_same L d d' : same_disk d d' -> guarantee L d d'.
Proof.
  intros [Hs Hx]. split.
  - by apply confined_same.
  - intros k' _. left. by rewrite Hx.
  - by apply same_evolves_at.
  - left. intros i Hi. by destruct Hs as (-> & _).
  - right. by apply same_files_at.
  - right. right. split_and!; [by apply same_files_at..|]. left. by rewrite Hx.
Qed.
End Discipline.

(** Two tasks get on: on different keys always; on one key when their locks are
    distinct and a removal is not beside a reader. *)
Definition compatible (c1 c2 : kind) (k1 k2 : text) (L1 L2 : list lock) : Prop :=
  k1 = k2 -> (forall l, l ∈ L1 -> l ∉ L2)
    /\ ~ (c1 = Deleting /\ c2 = Reading) /\ ~ (c1 = Reading /\ c2 = Deleting).

Lemma guarantee_rely c1 c2 k1 k2 L1 L2 d d' :
  InUse k1 -> InUse k2 -> compatible c1 c2 k1 k2 L1 L2 ->
  (forall p i, names (disk_fs d) !! p = Some i -> (i < next_ino (disk_fs d))%nat) ->
  (forall p q i, names (disk_fs d) !! p = Some i -> names (disk_fs d) !! q = Some i -> p = q) ->
  guarantee c1 k1 L1 d d' -> rely c2 k2 L2 d d'.
Proof.
  intros H1 H2 Hcomp Ha Hl [Gc Gx Ge Gl Gt Gf]. destruct (decide (k1 = k2)) as [<-|Hne].
  - destruct (Hcomp eq_refl) as (HL & Hn1 & Hn2).
    assert (Hx : forall l, l ∈ L2 -> l ∉ L1) by (intros l Hl2 Hl1; by apply (HL l)).
    split; [done| | |].
    + intros Hs. destruct Gl as [?|(-> & Hw & Hm)]; [done|].
      destruct Hs as [->|[Hg|Hg]]; [by destruct Hn1|by destruct (Hx _ Hg)..].
    + intros Hm. destruct Gt as [Hm1|?]; [|done]. by destruct (Hx _ Hm).
    + intros (-> & Hw & Hm). destruct Gf as [->|[[Hg|Hg]|?]]; [by destruct Hn2
        |by destruct (Hx _ Hw)|by destruct (Hx _ Hm)|done].
  - assert (Hs : forall p, p ∈ files k2 -> same_at (disk_fs d) (disk_fs d') p)
      by (intros p Hp; eapply (foreign_same_at k1 k2); eauto).
    assert (dp k2 ∈ files k2 /\ mp k2 ∈ files k2 /\ tp k2 ∈ files k2) as (Hd & Hm & Ht)
      by (unfold files; set_solver).
    split.
    + eapply (foreign_evolves k1 k2); eauto.
    + intros _ i Hi. by destruct (Hs _ Hd) as [-> _].
    + auto.
    + intros _. split_and!; auto.
Qed.

(** The invariant, except for the keys that are being removed. *)
Definition inv (X : text -> Prop) (d : DiskStorage) : Prop :=
  disk_inv config content (fun k => InUse k /\ ~ X k) d.

Lemma inv_alloc_lt X d : inv X d ->
  forall p i, names (disk_fs d) !! p = Some i -> (i < next_ino (disk_fs d))%nat.
Proof. intros [Hf _] p i Hi. by apply (inv_alloc _ _ _ _ Hf p i). Qed.

Lemma no_collision_weaken (X : text -> Prop) : no_collision (fun k => InUse k /\ ~ X k).
Proof. intros k1 k2 [? _] [? _]. by apply Hcoll. Qed.

(** The part of the invariant about one key. *)
Definition good_key (k : text) (d : DiskStorage) : Prop :=
  (forall i b m, names (disk_fs d) !! mp k = Some i -> inodes (disk_fs d) !! i = Some b ->
     json_from_slice b = Some m -> key m = Some k -> version m <= RANGE_METADATA_VERSION ->
     view_good config content (disk_fs d) k m)
  /\ (forall i b, names (disk_fs d) !! dp k = Some i -> inodes (disk_fs d) !! i = Some b ->
       (length b <= length (content k))%nat)
  /\ (forall m, metadata_index d !! k = Some m -> meta_good config content (disk_fs d) k m).

Lemma inv_good_key X k d : inv X d -> InUse k -> ~ X k -> good_key k d.
Proof.
  intros [[A B C E] Hi] HU HX. split_and!.
  - intros i b m. by apply C.
  - intros i b. by apply E.
  - intros m. by apply Hi.
Qed.

Lemma inv_restore X Y k d :
  inv X d -> good_key k d -> (forall k', X k' -> Y k' \/ k' = k) -> inv Y d.
Proof.
  intros [[A B C E] Hi] (G1 & G2 & G3) HXY.
  assert (HX : forall k', k' <> k -> ~ Y k' -> ~ X k') by (intros k' Hne HY [?|?]%HXY; done).
  split; [split|].
  - done.
  - done.
  - intros k' i b m [HU HY]. destruct (decide (k' = k)) as [->|]; [apply G1|by apply C; auto].
  - intros k' i b [HU HY]. destruct (decide (k' = k)) as [->|]; [apply G2|by apply E; auto].
  - intros k' m [HU HY]. destruct (decide (k' = k)) as [->|]; [apply G3|by apply Hi; auto].
Qed.

Lemma inv_weaken X Y d : inv X d -> (forall k, X k -> Y k) -> inv Y d.
Proof.
  intros [[A B C E] Hi] HXY. split; [split|]; try done.
  - intros k' i b m [HU HY]. apply C. split; [done|]. by intros ?%HXY.
  - intros k' i b [HU HY]. apply E. split; [done|]. by intros ?%HXY.
  - intros k' m [HU HY]. apply Hi. split; [done|]. by intros ?%HXY.
Qed.

(** ** Tasks that keep the invariant *)

(** A removal that has not stopped between its two files. *)
Definition whole (k : text) (d : DiskStorage) : Prop :=
  is_Some (names (disk_fs d) !! dp k) \/ names (disk_fs d) !! mp k = None.

Section Safe.
Context (c : kind) (k : text) {A : Type}.

(** The task among the keys [X] that are being removed. *)
Definition placed (L : list lock) (X : text -> Prop) : Prop :=
  (c = Reading \/ guarded k L -> c <> Deleting -> ~ X k) /\ (critical c k L -> X k).

(** From [d] on, with the locks [L]: whatever the others do in their discipline,
    every step keeps the invariant and the guarantee, and the result is in [Q]. *)
Fixpoint safe (L : list lock) (p : prog A) (Q : list lock -> Result A -> DiskStorage -> Prop)
    (d : DiskStorage) : Prop :=
  match p with
  | Return r => forall d1, rely c k L d d1 -> Q L r d1
  | Await f => forall d1 X, rely c k L d d1 -> inv X d1 -> placed L X ->
      match f d1 with (p', d2) => inv X d2 /\ guarantee c k L d1 d2 /\ safe L p' Q d2 end
  | Acquire l p' => (l = wl k \/ l = ml k) /\ (l ∉ L) /\
      forall d1 X, rely c k L d d1 -> inv X d1 -> ~ X k -> safe (l :: L) p' Q d1
  | Release l p' => l ∈ L /\ forall d1 X, rely c k L d d1 -> inv X d1 ->
      (critical c k L -> whole k d1 -> good_key k d1) /\ safe (list_difference L [l]) p' Q d1
  end.

Lemma safe_rely L p Q d d1 : safe L p Q d -> rely c k L d d1 -> safe L p Q d1.
Proof.
  destruct p; simpl.
  - intros H R d2 R2. apply H. by etrans.
  - intros H R d2 X R2. apply H. by etrans.
  - intros (Hl & Hn & H) R. split_and!; [done|done|]. intros d2 X R2. apply H. by etrans.
  - intros (Hl & H) R. split; [done|]. intros d2 X R2. apply H. by etrans.
Qed.

Lemma safe_mono L p (Q Q' : list lock -> Result A -> DiskStorage -> Prop) d :
  (forall L r d, Q L r d -> Q' L r d) -> safe L p Q d -> safe L p Q' d.
Proof.
  intros HQ. revert L d.
  induction p as [r|f IH|l p IH|l p IH] using prog_induction; intros L d; simpl.
  - intros H d1 R. by apply HQ, H.
  - intros H d1 X R I HX. specialize (IH d1). specialize (H d1 X R I HX).
    destruct (f d1) as [p' d2]. destruct H as (? & ? & ?). split_and!; [done|done|by apply IH].
  - intros (Hl & Hn & H). split_and!; [done|done|]. intros d1 X R I HX. by eapply IH, H.
  - intros (Hl & H). split; [done|]. intros d1 X R I. destruct (H d1 X R I). split; [done|by apply IH].
Qed.

Lemma safe_call L (m : D A) Q d :
  (forall d1 X, rely c k L d d1 -> inv X d1 -> placed L X ->
     forall r d2, m d1 = (r, d2) ->
       inv X d2 /\ guarantee c k L d1 d2 /\ forall d3, rely c k L d2 d3 -> Q L r d3) ->
  safe L (call m) Q d.
Proof.
  intros H d1 X R I HX. destruct (m d1) as [r d2] eqn:E. by apply (H d1 X R I HX).
Qed.
End Safe.

Lemma safe_then {A B} c k L (p : prog A) (f : Result A -> prog B) Q d :
  safe c k L p (fun L' r d' => safe c k L' (f r) Q d') d -> safe c k L (then_ p f) Q d.
Proof.
  revert L d. induction p as [r|g IH|l p IH|l p IH] using prog_induction; intros L d; simpl.
  - intros H. by apply H.
  - intros H d1 X R I HX. specialize (IH d1). specialize (H d1 X R I HX).
    destruct (g d1) as [p' d2]. destruct H as (? & ? & ?). split_and!; [done|done|by apply IH].
  - intros (Hl & Hn & H). split_and!; [done|done|]. intros d1 X R I HX. by eapply IH, H.
  - intros (Hl & H). split; [done|]. intros d1 X R I. destruct (H d1 X R I). split; [done|by apply IH].
Qed.

#[local] Arguments safe : simpl never.

Lemma task_safe_bind {A B} c k L (p : prog A) (f : A -> prog B) Q d :
  safe c k L p (fun L' r d' => safe c k L' (match r with Ok a => f a | Err e => Return (Err e) end) Q d') d ->
  safe c k L (p ≫= f) Q d.
Proof. apply safe_then. Qed.

Lemma safe_attempt {A} c k L (p : prog A) Q d :
  safe c k L p (fun L' r d' => forall d1, rely c k L' d' d1 -> Q L' (Ok r) d1) d ->
  safe c k L (attempt_task p) Q d.
Proof. intros H. apply safe_then. eapply safe_mono; [|exact H]. by intros L' r d'. Qed.

Lemma safe_return {A} c k L (r : Result A) (Q : list lock -> Result A -> DiskStorage -> Prop) d :
  (forall d1, rely c k L d d1 -> Q L r d1) -> safe c k L (Return r) Q d.
Proof. done. Qed.

(** A call that changes nothing. *)
Lemma safe_readonly {A} c k L (m : D A) Q d :
  (forall d1 r d2, m d1 = (r, d2) -> same_disk d1 d2) ->
  (forall d1 X, rely c k L d d1 -> inv X d1 -> placed c k L X ->
     forall r d2, m d1 = (r, d2) -> same_disk d1 d2 ->
     forall d3, rely c k L d2 d3 -> Q L r d3) ->
  safe c k L (call m) Q d.
Proof.
  intros Hs H. apply safe_call. intros d1 X R I HX r d2 E. pose proof (Hs _ _ _ E) as Hsd.
  split_and!; [by eapply same_disk_inv|by apply guarantee_same|]. by eapply H.
Qed.

Lemma same_disk_rely c k L d d' : same_disk d d' -> rely c k L d d'.
Proof.
  intros [Hs Hx]. split.
  - by apply same_evolves_at.
  - intros _ i Hi. by destruct Hs as (-> & _).
  - intros _. by apply same_files_at.
  - intros _. split_and!; [by apply same_files_at..|]. left. by rewrite Hx.
Qed.

Lemma get_same d (r : Result DiskStorage) d' : get d = (r, d') -> same_disk d d' /\ r = Ok d.
Proof. intros [= <- <-]. done. Qed.

(** Follow the states of a task from one step to the next. *)
Ltac rely_chain :=
  solve [repeat first [eassumption | reflexivity
                      | etrans; [first [eassumption | apply same_disk_rely; eassumption]|]]].

(** ** Reading the record of a key *)

Section OneKey.
Context (k : text) (HU : InUse k).

(** What a task knows of a record: its ranges are in the data file, which is
    linked and nobody else's. *)
Definition held (m : RangeMetadata) (s : fs) : Prop :=
  normal (completed m)
  /\ Forall (fun r => exists i, names s !! dp k = Some i /\ owned config s k i /\ good_at content s k i r)
       (completed m)
  /\ forall t, total_size m = Some t -> t = Z.of_nat (length (content k)).
Definition stamped (m : RangeMetadata) : Prop :=
  key m = Some k /\ 0 <= version m <= RANGE_METADATA_VERSION.

Lemma held_view m s : held m s -> view_good config content s k m.
Proof.
  intros (Hn & Hf & Ht). split_and!; [done| |done]. eapply Forall_impl; [exact Hf|].
  intros r (i & Hi & _ & Hg). by exists i.
Qed.

Lemma view_held X m d : inv X d -> view_good config content (disk_fs d) k m -> held m (disk_fs d).
Proof.
  intros [Hf _] (Hn & Hg & Ht). split_and!; [done| |done]. eapply Forall_impl; [exact Hg|].
  intros r (i & Hi & Hr). exists i. split_and!; [done| |done]. by eapply linked_owned.
Qed.

Lemma held_default s : held metadata_default s.
Proof. split_and!; [apply normal_nil|constructor|done]. Qed.

Lemma held_step m s s' : evolves_at k s s' -> linked_at k s s' -> held m s -> held m s'.
Proof.
  intros He Hl (Hn & Hf & Ht). split_and!; [done| |done]. eapply Forall_impl; [exact Hf|].
  intros r (i & Hi & Ho & Hg). destruct (He i Ho) as [Ho' Hg']. exists i. split_and!; auto.
Qed.

Lemma held_guarantee c L m d d' :
  c <> Deleting -> guarantee c k L d d' -> held m (disk_fs d) -> held m (disk_fs d').
Proof. intros Hc [_ _ Ge [Gl|[? _]] _ _]; [by apply held_step|done]. Qed.

(** The data file holds the bytes of the interval. *)
Definition covered (a e : Z) (s : fs) : Prop :=
  exists i, names s !! dp k = Some i /\ owned config s k i /\ good_at content s k i (a, e).

Lemma covered_step a e s s' : evolves_at k s s' -> linked_at k s s' -> covered a e s -> covered a e s'.
Proof. intros He Hl (i & Hi & Ho & Hg). destruct (He i Ho). exists i. auto. Qed.

(** A fact about the files that steps of others leave true. *)
Definition kept (P : fs -> Prop) : Prop :=
  forall s s', evolves_at k s s' -> linked_at k s s' -> P s -> P s'.

Section Shielded.
Context (c : kind) (L : list lock) (Hs : c = Reading \/ guarded k L) (Hc : c <> Deleting).

Lemma held_rely m d d' : rely c k L d d' -> held m (disk_fs d) -> held m (disk_fs d').
Proof. intros [Re Rl _ _]. by apply held_step, Rl. Qed.

Lemma covered_rely a e d d' : rely c k L d d' -> covered a e (disk_fs d) -> covered a e (disk_fs d').
Proof. intros [Re Rl _ _]. by apply covered_step, Rl. Qed.

Lemma kept_rely P d d' : kept P -> rely c k L d d' -> P (disk_fs d) -> P (disk_fs d').
Proof. intros HP [Re Rl _ _]. by apply HP, Rl. Qed.

Lemma data_file_size_safe d :
  safe c k L (data_file_size_task config k) (fun L' r d' => L' = L /\ exists o, r = Ok o) d.
Proof.
  apply safe_readonly; [intros d1 r d2 E; by apply data_file_size_run in E as [? _]|].
  intros d1 X _ _ _ r d2 E _ d3 _. apply data_file_size_run in E as (_ & o & -> & _). eauto.
Qed.

Lemma load_metadata_safe P d :
  kept P -> P (disk_fs d) ->
  safe c k L (load_metadata_task config k)
    (fun L' r d' => L' = L /\ P (disk_fs d') /\ exists o, r = Ok o /\
       forall m, o = Some m -> held m (disk_fs d') /\ stamped m) d.
Proof.
  intros HP Hd. apply task_safe_bind, safe_readonly; [intros d1 r d2; apply readonly_io_ok, readonly_read|].
  intros d1 X R I HX r d2 E Hsd d3 R3. apply io_ok_run in E as (ro & s & Er & -> & ->).
  assert (HP3 : P (disk_fs d3)) by (apply (kept_rely P d); [done|rely_chain|done]).
  destruct ro as [b|]; simpl.
  2:{ apply safe_return. intros d4 R4. split_and!; [done|by eapply kept_rely|]. by exists None. }
  destruct (json_from_slice b) as [m|] eqn:Ej; simpl.
  2:{ apply safe_return. intros d4 R4. split_and!; [done|by eapply kept_rely|]. by exists None. }
  assert (Hm : key m = Some k -> version m <= RANGE_METADATA_VERSION -> held m (disk_fs d3)).
  { intros Hk Hv. apply fs_read_Ok in Er as (i & Hi & Hb).
    eapply held_rely; [exact (transitivity (same_disk_rely _ _ _ _ _ Hsd) R3)|].
    eapply view_held; [exact I|]. by eapply (inv_meta _ _ _ _ (inv_fs _ _ _ _ I) k); [split; [|by apply HX]|..]. }
  apply task_safe_bind, safe_readonly; [intros d4 r d5 E; by apply data_file_size_run in E as [? _]|].
  intros d4 X4 R4 _ _ r d5 E5 Hsd5 d6 R6. apply data_file_size_run in E5 as (_ & o & -> & _).
  apply safe_return. intros d7 R7.
  split_and!; [done|apply (kept_rely P d3); [done|rely_chain|done]|].
  eexists. split; [done|]. intros m'.
  destruct (metadata_is_valid m k o) eqn:Ev; [|done]. intros [= <-].
  unfold metadata_is_valid in Ev. destruct (_ || _) eqn:Eg; [done|].
  apply orb_false_iff in Eg as [Hv Hk]. apply Z.ltb_ge in Hv.
  apply negb_false_iff, bool_decide_eq_true in Hk. split.
  - eapply held_rely; [|by apply Hm]. rely_chain.
  - split; [done|]. apply json_typed in Ej as [? _]. lia.
Qed.

(** What keeping an entry of the index needs and promises. *)
Lemma index_insert_safe m d :
  held m (disk_fs d) -> stamped m ->
  safe c k L (call (index_insert k m)) (fun L' r d' => L' = L /\ r = Ok tt /\ held m (disk_fs d')) d.
Proof.
  intros Hm Hst. apply safe_call. intros d1 X R I HX r d2 E.
  pose proof E as E'. apply (index_insert_run config content _ _ _ _ _ _ I) in E as (-> & Hf & I2 & _).
  2:{ split; [apply held_view; by eapply held_rely|done]. }
  assert (Hsf : same_files (disk_fs d1) (disk_fs d2)) by (by rewrite Hf).
  split_and!; [done| |].
  - split.
    + by apply confined_same.
    + intros k' Hne. injection E' as <-. unfold index_at. simpl. rewrite lookup_insert_ne by done.
      destruct (_ && _); [|by left]. destruct (keys_order _) as [|v l]; [by left|].
      destruct (decide (v = k')) as [->|];
        [right; apply lookup_delete_eq|left; by apply lookup_delete_ne].
    + by apply same_evolves_at.
    + left. intros i. by rewrite Hf.
    + right. by apply same_files_at.
    + destruct Hs; auto.
  - intros d3 R3. split_and!; [done|done|]. eapply held_rely; [exact R3|]. rewrite Hf.
    by eapply held_rely.
Qed.

Lemma with_metadata_safe {T} (view : RangeMetadata -> T) d :
  safe c k L (with_metadata_task config k view)
    (fun L' r d' => L' = L /\ exists m, r = Ok (view m) /\ held m (disk_fs d')) d.
Proof.
  apply task_safe_bind, safe_readonly; [by intros d1 r d2 [? _]%get_same|].
  intros d1 X R I HX r d2 [_ ->]%get_same Hsd d3 R3.
  destruct (metadata_index d1 !! k) as [m|] eqn:Em.
  - apply safe_return. intros d4 R4. split; [done|]. exists m. split; [done|].
    eapply held_rely; [exact (transitivity (same_disk_rely _ _ _ _ _ Hsd) (transitivity R3 R4))|].
    eapply view_held; [exact I|]. by apply (inv_index _ _ _ _ I k m); [split; [|by apply HX]|].
  - apply task_safe_bind. eapply safe_mono; [|by apply (load_metadata_safe (fun _ => True))].
    intros L' r d4 (-> & _ & o & -> & Hm). destruct o as [m|].
    + destruct (Hm m eq_refl) as [Hh Hst]. apply task_safe_bind.
      eapply safe_mono; [|by apply index_insert_safe]. intros L' r d5 (-> & -> & Hh5).
      apply safe_return. intros d6 R6. split; [done|]. exists m. split; [done|]. by eapply held_rely.
    + apply safe_return. intros d5 R5. split; [done|]. exists metadata_default.
      split; [done|apply held_default].
Qed.

(** ** The reading methods *)

Lemma held_covered m s a e : covers (completed m) a e = true -> held m s -> covered a e s.
Proof.
  intros Hc' (_ & Hf & _). unfold covers in Hc'. apply existsb_exists in Hc' as (r & Hr & Hb).
  apply list_elem_of_In in Hr. rewrite Forall_forall in Hf.
  destruct (Hf r Hr) as (i & Hi & Ho & x & Hx & Hg). exists i. split_and!; [done|done|].
  exists x. split; [done|]. simpl. intros o Hoo. apply Hg.
  apply andb_true_iff in Hb as [?%Z.leb_le ?%Z.leb_le]. lia.
Qed.

Lemma check_range_safe range d :
  safe c k L (check_range_task config k range)
    (fun L' r d' => L' = L /\ exists b, r = Ok b /\
       (b = true -> range.2 <> OPEN_ENDED -> covered range.1 range.2 (disk_fs d'))) d.
Proof.
  apply task_safe_bind.
  apply (safe_mono _ _ _ _ (fun L' r _ => L' = L /\ exists e, r = Ok e /\
           (range.2 <> OPEN_ENDED -> e = Some range.2))).
  - intros L' r d1 (-> & e & -> & He). destruct e as [e|].
    2:{ apply safe_return. intros d2 _. split; [done|]. by exists false. }
    apply task_safe_bind. eapply safe_mono; [|apply with_metadata_safe].
    intros L' r d2 (-> & m & -> & Hm). destruct (covers (completed m) range.1 e) eqn:Ec.
    2:{ apply safe_return. intros d3 _. split; [done|]. by exists false. }
    apply task_safe_bind, safe_readonly;
      [intros d3 r d4 E; by apply data_file_size_run in E as [? _]|].
    intros d3 X R3 _ _ r d4 E4 Hsd d5 R5. apply data_file_size_run in E4 as (_ & o & -> & _).
    apply safe_return. intros d6 R6. split; [done|]. eexists. split; [done|]. intros _ Hne.
    specialize (He Hne). injection He as ->.
    eapply covered_rely; [|by eapply held_covered]. rely_chain.
  - destruct (Z.eqb_spec range.2 OPEN_ENDED) as [Ho|Ho].
    2:{ apply safe_return. intros d1 _. split; [done|]. eauto. }
    apply task_safe_bind. eapply safe_mono; [|apply with_metadata_safe].
    intros L' r d1 (-> & m & -> & _). destruct (total_size m).
    { apply safe_return. intros d2 _. split; [done|]. eexists. by split. }
    apply task_safe_bind. eapply safe_mono; [|apply data_file_size_safe].
    intros L' r d2 (-> & o & ->). apply safe_return. intros d3 _. split; [done|].
    eexists. by split.
Qed.

(** A handle of the data file keeps its bytes, linked or not. *)
Definition handle (i : nat) (a e : Z) (s : fs) : Prop :=
  owned config s k i /\ good_at content s k i (a, e).

Lemma handle_rely i a e d d' : rely c k L d d' -> handle i a e (disk_fs d) -> handle i a e (disk_fs d').
Proof. intros [Re _ _ _] [Ho Hg]. destruct (Re i Ho). split; auto. Qed.

(** Opening a file whose interval is covered. *)
Lemma open_covered_safe a e d :
  0 <= a -> covered a e (disk_fs d) ->
  safe c k L (
    ino ← call (io_q (fs_open (dp k)));
    file_size ← call (io_q (fs_fstat ino));
    if file_size <=? a then Return (Err (ProxyError.Storage (str "请求范围超出文件大小")))
    else
      total_bytes ← Return (range_length a (Z.min e (file_size - 1)));
      _ ← call (io_q (fs_seek a));
      mret (mk_Reader ino a (chunk_size config) 0 total_bytes))
    (fun L' r d' => L' = L /\ forall rd, r = Ok rd ->
       reader_ok config content (disk_fs d') k rd
       /\ rd_start rd = a /\ rd_read rd = 0 /\ rd_chunk rd = chunk_size config
       /\ rd_total rd = e - a + 1) d.
Proof.
  intros Ha Hcov. apply task_safe_bind, safe_readonly; [intros d1 r d2; apply readonly_io_q, readonly_open|].
  intros d1 X R1 _ _ r d2 E2 S2 d3 R3.
  destruct r as [ino|e2]; [|apply safe_return; intros ? _; by split].
  pose proof (covered_rely _ _ _ _ R1 Hcov) as (i & Hi & Ho & Hg).
  apply (open_linked _ _ _ _ _ Hi) in E2 as ->.
  assert (H1 : handle i a e (disk_fs d1)) by done.
  apply task_safe_bind, safe_readonly; [intros d4 r d5; apply readonly_io_q, readonly_fstat|].
  intros d4 X4 R4 _ _ r d5 E5 S5 d6 R6.
  destruct r as [n|e2]; [|apply safe_return; intros ? _; by split].
  assert (H4 : handle i a e (disk_fs d4)) by (apply (handle_rely i a e d1); [rely_chain|done]).
  apply fstat_length in E5 as (x & Hx & ->).
  destruct (Z.leb_spec (Z.of_nat (length x)) a); [apply safe_return; intros ? _; by split|].
  apply task_safe_bind, safe_return. intros d7 R7.
  destruct (range_length a _) as [n|e2] eqn:En; [|apply safe_return; intros ? _; by split].
  apply range_length_Ok in En as [-> Hle].
  assert (Hend : Z.min e (Z.of_nat (length x) - 1) = e).
  { destruct (good_at_end content _ _ _ _ _ _ (proj2 H4) Hx); lia. }
  rewrite Hend in *.
  apply task_safe_bind, safe_readonly; [intros d8 r d9; apply readonly_io_q, readonly_seek|].
  intros d8 X8 R8 _ _ r d9 E9 S9 d10 R10.
  destruct r as [u|e2]; [|apply safe_return; intros ? _; by split].
  apply safe_return. intros d11 R11. split; [done|]. intros rd [= <-]. simpl.
  assert (H11 : handle i a e (disk_fs d11)) by (apply (handle_rely i a e d1); [rely_chain|done]).
  split_and!; [|done..]. split_and!; simpl; [apply H11| |lia..].
  replace (a + (e - a + 1) - 1) with e by lia. apply H11.
Qed.

Lemma read_safe range d :
  0 <= range.1 -> range.2 <> OPEN_ENDED ->
  safe c k L (read_task config k range)
    (fun L' r d' => L' = L /\ forall rd, r = Ok rd ->
       reader_ok config content (disk_fs d') k rd
       /\ rd_start rd = range.1 /\ rd_read rd = 0 /\ rd_chunk rd = chunk_size config
       /\ rd_total rd = range.2 - range.1 + 1) d.
Proof.
  intros H0 Hne. apply task_safe_bind. eapply safe_mono; [|apply check_range_safe].
  intros L' r d1 (-> & b & -> & Hb). destruct b; simpl.
  2:{ apply safe_return. intros d2 _. by split. }
  apply Z.eqb_neq in Hne as Hneb. rewrite Hneb. apply open_covered_safe; auto.
Qed.
End Shielded.

(** ** Publishing a record *)

Lemma view_held_linked m s :
  (forall i, names s !! dp k = Some i -> owned config s k i) ->
  view_good config content s k m -> held m s.
Proof.
  intros Ho (Hn & Hf & Ht). split_and!; [done| |done]. eapply Forall_impl; [exact Hf|].
  intros r (i & Hi & Hr). eauto.
Qed.

Lemma dp_file : dp k ∈ files k.
Proof. by left. Qed.

Lemma tp_file : tp k ∈ files k.
Proof. unfold files. set_solver. Qed.
Lemma mp_file : mp k ∈ files k.
Proof. unfold files. set_solver. Qed.

Lemma writing_ne : Writing <> Deleting.
Proof. done. Qed.

Lemma remove_confined p d ro s :
  p ∈ files k -> fs_remove p (disk_fs d) = (ro, s) -> confined k (disk_fs d) s.
Proof.
  intros Hp E. unfold fs_remove, syscall in E.
  assert (H0 : confined k (disk_fs d) (pop (disk_fs d))) by (by apply confined_same).
  pose proof (confined_pop _ _ _ (confined_remove k (pop (disk_fs d)) p Hp)) as Hr.
  destruct (next_fault _); simpl in E; repeat case_match; by injection E as _ <-.
Qed.

Section Publishing.
Context (L : list lock) (HM : ml k ∈ L).

Lemma shielded_metadata : Writing = Reading \/ guarded k L.
Proof. right. by right. Qed.

(** A step on metadata files under the lock of the key. *)
Lemma metadata_guarantee X d d' :
  ~ X k -> meta_step config content (fun k => InUse k /\ ~ X k) d d' ->
  confined k (disk_fs d) (disk_fs d') -> inv X d' /\ guarantee Writing k L d d'.
Proof.
  intros HX (I & Q & Hx) Hc. split; [done|]. pose proof (quiet_keeps config content _ _ _ Q) as [Ke Kl].
  split; [done|intros k' _; left; by rewrite Hx|intros i; by apply Ke|left; intros i; by apply Kl|by left|].
  right. left. by right.
Qed.

(** A record that was known before a step of the task itself is known after it. *)
Lemma held_own m d d1 d2 d3 :
  held m (disk_fs d) -> rely Writing k L d d1 -> guarantee Writing k L d1 d2 ->
  rely Writing k L d2 d3 -> held m (disk_fs d3).
Proof.
  intros Hm R G R3. apply (held_rely _ _ shielded_metadata _ _ _ R3).
  apply (held_guarantee _ _ _ _ _ writing_ne G). by apply (held_rely _ _ shielded_metadata _ _ _ R).
Qed.

Lemma write_temporary_confined b d r d' :
  io_q (fs_write (tp k) b) d = (r, d') -> confined k (disk_fs d) (disk_fs d').
Proof.
  intros (ro & s & E & -> & _)%io_q_run. simpl.
  assert (Hp : forall x, confined k (disk_fs d) (put_file (tp k) x (pop (disk_fs d))))
    by (intros x; apply confined_pop, confined_put, tp_file).
  assert (H0 : confined k (disk_fs d) (pop (disk_fs d))) by (by apply confined_same).
  unfold fs_write in E.
  destruct (next_fault _) as [| |? [|n]]; try case_decide; by injection E as _ <-.
Qed.

Lemma publish_confined d r d' :
  io_q (fs_rename (tp k) (mp k)) d = (r, d') -> confined k (disk_fs d) (disk_fs d').
Proof.
  intros (ro & s & E & -> & _)%io_q_run. simpl. unfold fs_rename, syscall in E.
  assert (H0 : confined k (disk_fs d) (pop (disk_fs d))) by (by apply confined_same).
  pose proof (confined_rename k (pop (disk_fs d)) (tp k) (mp k)) as Hr.
  destruct (next_fault _); simpl in E; repeat case_match; injection E as _ <-; try done;
    apply confined_pop, Hr; done || apply tp_file || apply mp_file.
Qed.

Lemma remove_temporary_safe (m : RangeMetadata) d :
  held m (disk_fs d) ->
  safe Writing k L (call (io_ok (fs_remove (tp k))))
    (fun L' r d' => L' = L /\ held m (disk_fs d')) d.
Proof.
  intros Hm. apply safe_call. intros d1 X R I HX r d2 E.
  pose proof E as (ro & s & Er & -> & _)%io_ok_run.
  apply (remove_temporary_run config content (fun k => InUse k /\ ~ X k)) in E as [S _]; [|done].
  destruct (metadata_guarantee X d1 (set_fs s d1)) as [I2 G]; [by apply (proj1 HX shielded_metadata)|done| |].
  { apply (remove_confined _ _ _ _ tp_file Er). }
  split_and!; [done|done|]. intros d3 R3. split; [done|].
  by eapply held_own.
Qed.

(** The record is written beside the old one and takes its place; the temporary
    file is ours while we hold the lock. *)
Definition temporary (b : list byte) (s : fs) : Prop :=
  exists j, names s !! tp k = Some j /\ inodes s !! j = Some b.

Lemma temporary_rely b d d' : rely Writing k L d d' -> temporary b (disk_fs d) -> temporary b (disk_fs d').
Proof.
  intros [_ _ Rt _] (j & Hj & Hb). destruct (Rt HM) as [Hn Hi]. exists j.
  by rewrite Hn, (Hi j Hj).
Qed.

Lemma write_temporary_safe m b d :
  held m (disk_fs d) ->
  safe Writing k L (call (io_q (fs_write (tp k) b)))
    (fun L' r d' => L' = L /\ held m (disk_fs d') /\ (r = Ok tt -> temporary b (disk_fs d'))) d.
Proof.
  intros Hm. apply safe_call. intros d1 X R I HX r d2 E.
  pose proof (write_temporary_confined _ _ _ _ E) as Hc.
  apply (write_temporary_run config content (fun k => InUse k /\ ~ X k)) in E as [S Ht]; [|done].
  destruct (metadata_guarantee X d1 d2) as [I2 G]; [by apply (proj1 HX shielded_metadata)|done|done|].
  split_and!; [done|done|]. intros d3 R3. split_and!; [done|by eapply held_own|].
  intros Hr. eapply temporary_rely; [exact R3|]. by apply Ht.
Qed.

Lemma publish_safe m b d :
  held m (disk_fs d) -> json_from_slice b = Some m -> temporary b (disk_fs d) ->
  safe Writing k L (call (io_q (fs_rename (tp k) (mp k))))
    (fun L' r d' => L' = L /\ held m (disk_fs d')) d.
Proof.
  intros Hm Hj Ht. apply safe_call. intros d1 X R I HX r d2 E.
  pose proof (publish_confined _ _ _ E) as Hc.
  pose proof (proj1 HX shielded_metadata writing_ne) as HXk.
  apply (publish_run config content (fun k => InUse k /\ ~ X k) (no_collision_weaken X) k b) in E as [S _];
    [|done|done|by eapply temporary_rely|].
  2:{ intros m' Em' _. rewrite Hj in Em'. injection Em' as <-. apply held_view.
      by apply (held_rely _ _ shielded_metadata _ _ _ R). }
  destruct (metadata_guarantee X d1 d2) as [I2 G]; [done|done|done|].
  split_and!; [done|done|]. intros d3 R3. split; [done|]. by eapply held_own.
Qed.

Lemma return_held {A} m (r : Result A) d :
  held m (disk_fs d) -> safe Writing k L (Return r) (fun L' _ d' => L' = L /\ held m (disk_fs d')) d.
Proof. intros Hm d1 R. split; [done|]. by apply (held_rely _ _ shielded_metadata _ _ _ R). Qed.

Lemma discard_safe {A} m (e : ProxyError.t) d :
  held m (disk_fs d) ->
  safe Writing k L (_ ← call (io_ok (fs_remove (tp k))); Return (Err e : Result A))
    (fun L' _ d' => L' = L /\ held m (disk_fs d')) d.
Proof.
  intros Hm. apply task_safe_bind. eapply safe_mono; [|by apply remove_temporary_safe].
  intros L' r d1 [-> Hm1]. destruct r; by apply return_held.
Qed.

Lemma write_metadata_safe m d :
  held m (disk_fs d) -> stamped m ->
  safe Writing k L (write_metadata_task config k m)
    (fun L' _ d' => L' = L /\ held m (disk_fs d')) d.
Proof.
  intros Hm Hst. unfold write_metadata_task. fold (temporary_path config k).
  apply task_safe_bind, safe_readonly; [intros d1 r d2; apply readonly_io_q, readonly_mkdir|].
  intros d1 X R1 I1 _ r d2 E S d3 R3.
  assert (Hm3 : held m (disk_fs d3))
    by (apply (held_rely _ _ shielded_metadata m d); [rely_chain|done]).
  destruct r as [u|e]; [|by apply return_held].
  apply task_safe_bind, safe_return. intros d4 R4.
  assert (Hm4 : held m (disk_fs d4)) by (by apply (held_rely _ _ shielded_metadata _ _ _ R4)).
  destruct (json_to_vec m) as [b|e] eqn:Ej; cbn [map_err]; [|by apply return_held].
  assert (Hb : json_from_slice b = Some m).
  { eapply json_round_trip; [|exact Ej]. eapply (meta_good_typed config content Hfit (disk_fs d4) k).
    split; [by apply held_view|done]. }
  apply task_safe_bind, safe_attempt. eapply safe_mono; [|by apply write_temporary_safe].
  intros L' r d5 (-> & Hm5 & Ht) d6 R6.
  assert (Hm6 : held m (disk_fs d6)) by (by apply (held_rely _ _ shielded_metadata _ _ _ R6)).
  destruct r as [[]|e]; [|by apply discard_safe].
  apply task_safe_bind, safe_attempt. eapply safe_mono; [|apply (publish_safe m b); try done].
  2:{ eapply temporary_rely; [exact R6|by apply Ht]. }
  intros L' r d7 [-> Hm7] d8 R8.
  assert (Hm8 : held m (disk_fs d8)) by (by apply (held_rely _ _ shielded_metadata _ _ _ R8)).
  destruct r as [[]|e]; [by apply return_held|by apply discard_safe].
Qed.
End Publishing.

(** ** Editing the record under its lock *)

Lemma difference_none (l : lock) L : l ∉ L -> list_difference L [l] = L.
Proof.
  induction L as [|x L IH]; [done|]. intros [Hx Hl]%not_elem_of_cons. simpl.
  destruct (decide_rel elem_of x [l]) as [->%list_elem_of_singleton|_]; [done|]. f_equal. auto.
Qed.

Lemma difference_head (l : lock) L : l ∉ L -> list_difference (l :: L) [l] = L.
Proof.
  intros Hl. simpl. destruct (decide_rel elem_of l [l]) as [_|Hn]; [by apply difference_none|].
  by rewrite list_elem_of_singleton in Hn.
Qed.

Lemma safe_locked {A} l L (p : prog A) d :
  l = wl k \/ l = ml k -> l ∉ L ->
  (forall d1 X, rely Writing k L d d1 -> inv X d1 -> ~ X k ->
     safe Writing k (l :: L) p (fun L' _ _ => L' = l :: L) d1) ->
  safe Writing k L (locked l p) (fun L' _ _ => L' = L) d.
Proof.
  intros Hl Hn Hp. split_and!; [done|done|]. intros d1 X R I HX. apply safe_then.
  eapply safe_mono; [|by eapply Hp]. intros L' r d2 ->. split; [by left|].
  intros d3 X3 R3 I3. split; [by intros [? _]|]. rewrite difference_head by done. by intros d4 _.
Qed.

(** An edit that keeps records right while [P] holds, which others keep. *)
Definition edit_ok (P : fs -> Prop) (edit : RangeMetadata -> RangeMetadata * bool) : Prop :=
  forall s m, P s -> held m s -> held (edit m).1 s.

Lemma update_metadata_safe P edit L d :
  edit_ok P edit -> kept P -> P (disk_fs d) -> L = [] \/ L = [wl k] -> (L = [] -> forall s, P s) ->
  safe Writing k L (update_metadata_task config k edit) (fun L' _ _ => L' = L) d.
Proof.
  intros He HP Hd HL Hfree.
  assert (Hn : ml k ∉ L) by (destruct HL as [->| ->]; rewrite ?list_elem_of_singleton; [apply not_elem_of_nil|done]).
  apply safe_locked; [by right|done|]. intros d1 X R I HX.
  assert (HP1 : P (disk_fs d1)).
  { destruct HL as [->| ->]; [by apply Hfree|]. destruct R as [Re Rl _ _].
    apply (HP (disk_fs d)); [done| |done]. apply Rl. right. left. by left. }
  set (L' := ml k :: L). assert (HM : ml k ∈ L') by (by left).
  pose proof (shielded_metadata L' HM) as Hsh.
  assert (HPr : forall d d', rely Writing k L' d d' -> P (disk_fs d) -> P (disk_fs d'))
    by (intros ? ? [Re Rl _ _]; apply HP; auto).
  apply task_safe_bind, safe_readonly; [by intros d2 r d3 [? _]%get_same|].
  intros d2 X2 R2 I2 HX2 r d3 [_ ->]%get_same S3 d4 R4.
  apply task_safe_bind.
  apply (safe_mono _ _ _ _ (fun L1 r d' => L1 = L' /\ exists m, r = Ok m /\ held m (disk_fs d') /\ P (disk_fs d'))).
  - intros L1 r d5 (-> & m & -> & Hm & HP5). destruct (edit m) as [m' ch] eqn:Ee.
    destruct ch; [|by apply safe_return].
    assert (Hm' : held (stamp k m') (disk_fs d5))
      by (specialize (He _ _ HP5 Hm); by rewrite Ee in He).
    assert (Hst : stamped (stamp k m')) by (by split).
    apply task_safe_bind. eapply safe_mono; [|by apply write_metadata_safe].
    intros L1 r d6 [-> Hm6]. destruct r; [|by apply safe_return].
    eapply safe_mono; [|by apply index_insert_safe]. by intros L1 r' d7 [-> _].
  - destruct (metadata_index d2 !! k) as [m|] eqn:Em.
    + apply safe_return. intros d5 R5. split; [done|]. exists m. split_and!; [done| |].
      * apply (held_rely _ _ Hsh m d2); [rely_chain|]. eapply view_held; [exact I2|].
        apply (inv_index _ _ _ _ I2 k m); [split; [done|by apply (proj1 HX2 Hsh)]|done].
      * apply (HPr d1); [rely_chain|done].
    + apply task_safe_bind.
      eapply safe_mono; [|apply (load_metadata_safe _ _ Hsh writing_ne P); [done|apply (HPr d1); [rely_chain|done]]].
      intros L1 r d5 (-> & HP5 & o & -> & Ho). apply safe_return. intros d6 R6.
      split; [done|]. eexists. split_and!; [done| |by eapply HPr].
      apply (held_rely _ _ Hsh _ d5); [done|]. destruct o as [m|]; [by apply Ho|apply held_default].
Qed.

(** ** Writing data under the write lock *)

Abbreviation W := [wl k].

Lemma shielded_write : Writing = Reading \/ guarded k W.
Proof. right. left. by left. Qed.

Lemma metadata_lock_not_write : ml k ∉ W.
Proof. by rewrite list_elem_of_singleton. Qed.

Lemma data_guarantee X d d' :
  ~ X k -> data_step config content (fun k => InUse k /\ ~ X k) d d' ->
  confined k (disk_fs d) (disk_fs d') -> same_at (disk_fs d) (disk_fs d') (tp k) ->
  inv X d' /\ guarantee Writing k W d d'.
Proof.
  intros HX (I & [Ke Kl] & Hx) Hc Ht. split; [done|].
  split; [done|intros k' _; left; by rewrite Hx|intros i; by apply Ke|left; intros i; by apply Kl|by right|].
  right. left. left. by left.
Qed.

Lemma pwrite_confined X i pos b d r d' :
  inv X d -> names (disk_fs d) !! dp k = Some i -> io_q (fs_pwrite i pos b) d = (r, d') ->
  confined k (disk_fs d) (disk_fs d') /\ same_at (disk_fs d) (disk_fs d') (tp k).
Proof.
  intros [Hf _] Hi (ro & s & E & -> & _)%io_q_run. simpl.
  assert (Hb : forall b', let s' := set_inodes (alter (fun c => overwrite c pos b') i) (pop (disk_fs d)) in
    confined k (disk_fs d) s' /\ same_at (disk_fs d) s' (tp k)).
  { intros b'. split.
    - apply confined_pop. by apply (confined_content _ _ (dp k)); [apply dp_file|].
    - split; [done|]. simpl. intros j Hj. apply lookup_alter_ne. intros ->.
      by apply (dp_ne_tp config k k), (inv_links _ _ _ _ Hf _ _ j). }
  unfold fs_pwrite in E. destruct (next_fault _); injection E as _ <-; apply Hb.
Qed.

Lemma open_create_confined X d r d' :
  inv X d -> io_q (fs_open_create (dp k)) d = (r, d') ->
  confined k (disk_fs d) (disk_fs d') /\ same_at (disk_fs d) (disk_fs d') (tp k).
Proof.
  intros [Hf _] (ro & s & E & -> & _)%io_q_run. simpl.
  assert (H0 : confined k (disk_fs d) (pop (disk_fs d)) /\ same_at (disk_fs d) (pop (disk_fs d)) (tp k))
    by (split; [by apply confined_same|done]).
  assert (H1 : confined k (disk_fs d) (alloc (dp k) [] (pop (disk_fs d)))
               /\ same_at (disk_fs d) (alloc (dp k) [] (pop (disk_fs d))) (tp k)).
  { split; [apply confined_pop, confined_alloc, dp_file|]. split; simpl.
    - apply lookup_insert_ne, dp_ne_tp.
    - intros j Hj. apply lookup_insert_ne. apply (inv_alloc _ _ _ _ Hf) in Hj as [? _]. lia. }
  unfold fs_open_create, syscall in E.
  destruct (next_fault _); simpl in E; repeat case_match; by injection E as _ <-.
Qed.

(** A writer whose file is linked and ours. *)
Definition writer_held (start n : Z) (w : Writer) (d : DiskStorage) : Prop :=
  writer_ok config content d k start n w /\ owned config (disk_fs d) k (w_ino w).

Lemma writer_held_step start n w d d' :
  evolves_at k (disk_fs d) (disk_fs d') -> linked_at k (disk_fs d) (disk_fs d') ->
  writer_held start n w d -> writer_held start n w d'.
Proof.
  intros He Hl [(Hn & Hs & Hp & Hg & Hh) Ho]. destruct (He _ Ho) as [Ho' Hg'].
  split; [|done]. split_and!; auto; lia.
Qed.

Lemma writer_held_rely start n w d d' :
  rely Writing k W d d' -> writer_held start n w d -> writer_held start n w d'.
Proof. intros [Re Rl _ _]. apply writer_held_step; [done|]. apply Rl, shielded_write. Qed.

Lemma flush_buf_safe start n w d :
  writer_held start n w d ->
  safe Writing k W (flush_buf_task w)
    (fun L' r d' => L' = W /\ forall w', r = Ok w' -> writer_held start n w' d' /\ w_buf w' = []) d.
Proof.
  intros Hw. destruct (w_buf w) as [|x b] eqn:Eb.
  { unfold flush_buf_task. rewrite Eb. apply safe_return. intros d1 R. split; [done|].
    intros w' [= <-]. split; [by eapply writer_held_rely|done]. }
  unfold flush_buf_task. rewrite Eb. apply task_safe_bind, safe_call. intros d1 X R I HX r d2 E.
  pose proof (proj1 HX shielded_write writing_ne) as HXk.
  pose proof (writer_held_rely _ _ _ _ _ R Hw) as [Hw1 Ho1].
  assert (Hi : names (disk_fs d1) !! dp k = Some (w_ino w)) by apply Hw1.
  destruct (pwrite_confined X _ _ _ _ _ _ I Hi E) as [Hc Ht].
  set (rf := match r with Ok _ => Ok (mk_Writer (w_ino w) (w_pos w + Z.of_nat (length (x :: b))) [])
             | Err e => Err e end : Result Writer).
  assert (Ef : flush_buf w d1 = (rf, d2)).
  { unfold flush_buf. rewrite Eb. unfold mbind, io_bind. rewrite E. by destruct r. }
  apply (flush_buf_run config content (fun k => InUse k /\ ~ X k) (no_collision_weaken X) k start n)
    in Ef as (Sd & Hn & Hok); [|done|done|done].
  destruct (data_guarantee X d1 d2) as [I2 G]; [done..|].
  split_and!; [done|done|]. intros d3 R3. unfold rf in Hok. destruct r as [u|e]; apply safe_return; intros d4 R4.
  - split; [done|]. intros w' [= <-]. destruct (Hok _ eq_refl) as [Hw2 Hb2]. split; [|done].
    eapply writer_held_rely; [exact (transitivity R3 R4)|]. split; [done|]. simpl.
    by apply (gu_evolves _ _ _ _ _ G).
  - by split.
Qed.

Lemma write_all_safe start n w chunk d :
  writer_held start n w d -> honest_at content k (Z.to_nat (start + n)) chunk ->
  safe Writing k W (write_all_task w chunk)
    (fun L' r d' => L' = W /\
       forall w', r = Ok w' -> writer_held start (n + Z.of_nat (length chunk)) w' d') d.
Proof.
  intros Hw Hh. apply task_safe_bind.
  apply (safe_mono _ _ _ _ (fun L' r d' => L' = W /\ forall w', r = Ok w' -> writer_held start n w' d'
           /\ (WRITE_BUFFER_BYTES <= Z.of_nat (length chunk) -> w_buf w' = []))).
  - intros L' r d1 [-> Hr]. destruct r as [w1|e]; [|by apply safe_return].
    destruct (Hr w1 eq_refl) as [[(Hn & Hs & Hp & Hg & Hb) Ho] Hempty].
    destruct (Z.leb_spec WRITE_BUFFER_BYTES (Z.of_nat (length chunk))) as [Hc|Hc].
    + specialize (Hempty Hc). rewrite Hempty in Hp. simpl in Hp.
      eapply safe_mono; [|apply (flush_buf_safe start (n + Z.of_nat (length chunk)))].
      * intros L' r d2 [-> Hr2]. split; [done|]. intros w' ->. by apply Hr2.
      * split; [|done]. unfold writer_ok. simpl. split_and!; [done|lia|lia|lia|done|].
        by replace (w_pos w1) with (start + n) by lia.
    + apply safe_return. intros d2 R2. split; [done|]. intros w' [= <-].
      eapply writer_held_rely; [exact R2|]. split; [|done]. unfold writer_ok. simpl.
      rewrite length_app. split_and!; [done|lia|lia|lia|done|].
      apply honest_at_app. split; [done|].
      by replace (Z.to_nat (w_pos w1) + length (w_buf w1))%nat with (Z.to_nat (start + n)) by lia.
  - destruct (Z.ltb_spec WRITE_BUFFER_BYTES (Z.of_nat (length (w_buf w) + length chunk))).
    + eapply safe_mono; [|by apply (flush_buf_safe start n)].
      intros L' r d1 [-> Hr]. split; [done|]. intros w' ->. by destruct (Hr w' eq_refl).
    + apply safe_return. intros d1 R1. split; [done|]. intros w' [= <-].
      split; [by eapply writer_held_rely|]. intros Hc. destruct (w_buf w); [done|]. simpl in *. lia.
Qed.

(** What is left of the copying loop when it is over. *)
Definition loop_end (start : Z) (r : Result LoopEnd) (d : DiskStorage) : Prop :=
  exists le, r = Ok le
    /\ (le_recordable le = true -> writer_held start (le_written le) (le_writer le) d).

Lemma loop_end_return start le d :
  (le_recordable le = true -> writer_held start (le_written le) (le_writer le) d) ->
  safe Writing k W (Return (Ok le)) (fun L' r d' => L' = W /\ loop_end start r d') d.
Proof.
  intros Hle d1 R. split; [done|]. exists le. split; [done|]. intros Hr.
  eapply writer_held_rely; [exact R|auto].
Qed.

Lemma write_loop_safe start s max_length n w d :
  writer_held start n w d -> 0 <= n ->
  honest_at content k (Z.to_nat (start + n)) (stream_bytes s) ->
  safe Writing k W (write_loop_task s max_length n w)
    (fun L' r d' => L' = W /\ loop_end start r d') d.
Proof.
  revert n w d. induction s as [|[chunk|e] s IH]; intros n w d Hw H0 Hh;
    cbn [write_loop_task stream_bytes] in *;
    apply task_safe_bind, safe_readonly; try (by intros ? ? ? [= <- <-]);
    intros d1 X R1 _ _ r d2 [= <- <-] _ d3 R3; cbv beta iota;
    assert (Hw3 : writer_held start n w d3) by (eapply writer_held_rely; [exact (transitivity R1 R3)|done]).
  - by apply loop_end_return.
  - apply honest_at_app in Hh as [Hh1 Hh2].
    destruct (checked_add n (Z.of_nat (length chunk))) as [next|] eqn:Ec; [|by apply loop_end_return].
    apply checked_add_Some in Ec as [-> Hmax].
    destruct (match max_length with Some _ => _ | None => _ end); [by apply loop_end_return|].
    apply task_safe_bind, safe_attempt. eapply safe_mono; [|by apply write_all_safe].
    intros L' r d4 [-> Hr] d5 R5. destruct r as [w'|e]; [|by apply loop_end_return].
    apply IH; [eapply writer_held_rely; [exact R5|auto]|lia|].
    replace (Z.to_nat (start + (n + Z.of_nat (length chunk))))
      with (Z.to_nat (start + n) + length chunk)%nat by (destruct Hw as [(_ & ? & _) _]; lia). done.
  - by apply loop_end_return.
Qed.

Lemma covered_kept a e : kept (covered a e).
Proof. intros s s'. apply covered_step. Qed.

Lemma merge_edit_ok start end_ :
  0 <= start <= end_ -> end_ <= u64_max ->
  edit_ok (covered start end_)
    (fun m => (set_completed (merge_range (completed m) start end_) m, true)).
Proof.
  intros Hse He s m (i & Hi & Ho & Hg) Hm. apply view_held_linked.
  - intros j Hj. by simplify_eq.
  - apply merge_edit_good; [done|done|by exists i|by apply held_view].
Qed.

Lemma persist_prefix_safe start le d :
  0 <= start -> (le_recordable le = true -> writer_held start (le_written le) (le_writer le) d) ->
  safe Writing k W (persist_prefix_task config k start le) (fun L' _ _ => L' = W) d.
Proof.
  intros H0 Hle. unfold persist_prefix_task.
  destruct (Z.ltb_spec 0 (le_written le)); cbn [andb]; [|by apply safe_return].
  destruct (le_recordable le) eqn:Er; [|by apply safe_return]. specialize (Hle eq_refl).
  apply task_safe_bind, safe_attempt. eapply safe_mono; [|by apply flush_buf_safe].
  intros L' r d1 [-> Hr] d2 R2. destruct r as [w|e]; 
    [|apply task_safe_bind, safe_return; intros d3 _; by apply safe_return].
  destruct (Hr w eq_refl) as [Hw Hb]. pose proof (writer_held_rely _ _ _ _ _ R2 Hw) as [Hw2 Ho2].
  assert (Hcov : covered start (start + le_written le - 1) (disk_fs d2)).
  { destruct (writer_range_good _ _ _ _ _ _ _ Hw2 Hb) as (i & Hi & Hg).
    destruct Hw2 as [Hi' _]. rewrite Hi' in Hi. injection Hi as <-. by exists (w_ino w). }
  apply task_safe_bind, safe_attempt, safe_readonly; [intros d3 r d4; apply readonly_io_q, readonly_sync|].
  intros d3 X R3 _ _ r d4 E4 S4 d5 R5 d6 R6. destruct r as [u|e]; [|by apply safe_return].
  apply task_safe_bind, safe_return. intros d7 R7.
  destruct (checked_add start (le_written le - 1)) as [end_|] eqn:Ec; cbn [ok_or]; [|by apply safe_return].
  apply checked_add_Some in Ec as [-> Hmax].
  apply task_safe_bind. eapply safe_mono.
  2:{ apply (update_metadata_safe (covered start (start + (le_written le - 1)))); [|apply covered_kept| |by right|done].
      - apply merge_edit_ok; lia.
      - replace (start + (le_written le - 1)) with (start + le_written le - 1) by lia.
        apply (covered_rely _ _ shielded_write _ _ d2); [rely_chain|done]. }
  intros L' r d8 ->. by destruct r; apply safe_return.
Qed.

Lemma write_safe s range d :
  0 <= range.1 -> honest_at content k (Z.to_nat range.1) (stream_bytes s) ->
  safe Writing k [] (write_task config k s range) (fun L' _ _ => L' = []) d.
Proof.
  intros H0 Hh. apply task_safe_bind.
  apply (safe_mono _ _ _ _ (fun L' _ _ => L' = [])).
  2:{ destruct (_ =? _); [by apply safe_return|]. apply task_safe_bind, safe_return. intros d1 _.
      by destruct (range_length _ _); apply safe_return. }
  intros L' r d1 ->. destruct r as [max_length|e]; [|by apply safe_return].
  apply task_safe_bind, safe_readonly; [intros d2 r d3; apply readonly_io_q, readonly_mkdir|].
  intros d2 X R2 _ _ r d3 _ _ d4 R4. destruct r as [u|e]; [|by apply safe_return].
  apply safe_locked; [by left|apply not_elem_of_nil|]. intros d5 X5 R5 I5 HX5.
  apply task_safe_bind, safe_call. intros d6 X6 R6 I6 HX6 r d7 E7.
  pose proof (proj1 HX6 shielded_write writing_ne) as HXk.
  destruct (open_create_confined X6 _ _ _ I6 E7) as [Hc Ht].
  apply (open_create_run config content (fun k => InUse k /\ ~ X6 k)) in E7 as [Sd Hi]; [|done].
  destruct (data_guarantee X6 d6 d7) as [I7 G]; [done..|].
  split_and!; [done|done|]. intros d8 R8. destruct r as [ino|e]; [|by apply safe_return].
  assert (Hw : writer_held range.1 0 (mk_Writer ino range.1 []) d8).
  { eapply writer_held_rely; [exact R8|]. specialize (Hi ino eq_refl).
    pose proof (linked_owned _ _ _ _ _ _ (inv_fs _ _ _ _ I7) Hi) as Ho.
    split; [|done]. unfold writer_ok. simpl. split_and!; [done|lia|lia|lia| |].
    - destruct (inv_alloc _ _ _ _ (inv_fs _ _ _ _ I7) _ _ Hi) as [_ [x Hx]].
      exists x. split; [done|]. simpl. lia.
    - intros j y Hy. by rewrite lookup_nil in Hy. }
  apply task_safe_bind, safe_readonly; [intros d9 r d10; apply readonly_io_q, readonly_seek|].
  intros d9 X9 R9 _ _ r d10 _ S10 d11 R11. destruct r as [v|e]; [|by apply safe_return].
  apply task_safe_bind. eapply safe_mono; [|apply write_loop_safe; [|done|]].
  - intros L' r d12 (-> & le & -> & Hle). apply task_safe_bind.
    eapply safe_mono; [|by apply persist_prefix_safe]. intros L' r d13 ->.
    destruct r as [sf|e]; [|by apply safe_return].
    by destruct (le_failure le), sf; apply safe_return.
  - apply (writer_held_rely _ _ _ d8); [rely_chain|done].
  - by rewrite Z.add_0_r.
Qed.

Lemma record_upstream_meta_safe meta d :
  (forall t, um_total_size meta = Some t -> t = Z.of_nat (length (content k))) ->
  safe Writing k [] (record_upstream_meta_task config k meta) (fun L' _ _ => L' = []) d.
Proof.
  intros Ht. unfold record_upstream_meta_task. destruct (is_empty meta); [by apply safe_return|].
  apply (update_metadata_safe (fun _ => True)); [|by intros ? ?|done|by left|done].
  intros s m _ (Hn & Hf & Htm). unfold meta_edit.
  destruct (um_total_size meta) as [t|], (um_content_type meta) as [ct|];
    simpl; repeat case_match; simplify_eq; split_and!; try done;
    simpl; intros ? [= <-]; by apply Ht.
Qed.

(** ** Removing a key under both locks *)

Abbreviation MW := [ml k; wl k].

Lemma critical_both : critical Deleting k MW.
Proof. split_and!; [done|by right; left|by left]. Qed.

Lemma good_key_same d d' :
  same_at (disk_fs d) (disk_fs d') (dp k) -> same_at (disk_fs d) (disk_fs d') (mp k) ->
  index_at k d d' -> good_key k d -> good_key k d'.
Proof.
  intros [Nd Id] [Nm Im] Hx (G1 & G2 & G3).
  assert (Hv : forall m, view_good config content (disk_fs d) k m -> view_good config content (disk_fs d') k m).
  { intros m (Hn & Hf & Ht). split_and!; [done| |done]. eapply Forall_impl; [exact Hf|].
    intros r (i & Hi & x & Hxi & Hg). exists i. rewrite Nd. split; [done|]. exists x.
    by rewrite (Id i Hi). }
  split_and!.
  - intros i b m. rewrite Nm. intros Hi. rewrite (Im i Hi). intros. apply Hv. by eapply G1.
  - intros i b. rewrite Nd. intros Hi. rewrite (Id i Hi). by apply G2.
  - intros m Hm. destruct Hx as [E|E]; rewrite E in Hm; [|done].
    destruct (G3 m Hm) as [Hvm Hst]. split; [by apply Hv|done].
Qed.

Lemma good_key_rely d d' : rely Deleting k MW d d' -> good_key k d -> good_key k d'.
Proof. intros [_ _ _ F]. destruct (F critical_both) as (? & ? & ?). by apply good_key_same. Qed.

(** Nothing is left of the key but perhaps its metadata file. *)
Definition emptied (d : DiskStorage) : Prop :=
  names (disk_fs d) !! dp k = None /\ metadata_index d !! k = None.

Lemma emptied_rely d d' : rely Deleting k MW d d' -> emptied d -> emptied d'.
Proof.
  intros [_ _ _ F] [Hn Hx]. destruct (F critical_both) as ([Nd _] & _ & Hi).
  split; [by rewrite Nd|]. destruct Hi; congruence.
Qed.

Lemma emptied_good d : emptied d -> whole k d -> good_key k d.
Proof.
  intros [Hn Hx] [[i Hi]|Hm]; [by rewrite Hn in Hi|]. split_and!.
  - intros i b m. by rewrite Hm.
  - intros i b. by rewrite Hn.
  - intros m. by rewrite Hx.
Qed.

(** One of the two removals. *)
Lemma remove_critical p X d r d' :
  p = dp k \/ p = mp k -> X k -> inv X d -> remove_if_present p d = (r, d') ->
  inv X d' /\ guarantee Deleting k MW d d' /\ metadata_index d' = metadata_index d
  /\ (same_files (disk_fs d) (disk_fs d')
      \/ (r = Ok tt /\ names (disk_fs d') = base.delete p (names (disk_fs d))))
  /\ (r = Ok tt -> names (disk_fs d') !! p = None).
Proof.
  intros Hp HX I E. apply remove_if_present_run in E as [[-> Hno]|[-> ->]].
  { assert (Hs : same_disk d (set_fs (pop (disk_fs d)) d)) by done.
    split_and!; [by eapply same_disk_inv|by apply guarantee_same|done|by left|done]. }
  set (s := set_names _ _).
  assert (Hf : p ∈ files k) by (destruct Hp as [->| ->]; [apply dp_file|apply mp_file]).
  assert (Ht : same_at (disk_fs d) s (tp k)).
  { split; [|done]. apply lookup_delete_ne. destruct Hp as [->| ->]; [apply dp_ne_tp|apply mp_ne_tp]. }
  split_and!; [| |done|by right|intros _; apply lookup_delete_eq].
  - destruct (remove_other_step config content (fun k => InUse k /\ ~ X k) (pop (disk_fs d)) p) as [If Q].
    + apply pop_inv, I.
    + intros k' [HU' HX'] ->. destruct Hp as [E|E]; [|by apply dp_ne_mp in E].
      apply (dp_inj config InUse) in E as ->; done.
    + by apply (meta_step_intro config content _ d s I If).
  - split; [apply confined_pop, confined_remove, Hf|by left| |right; apply critical_both|by right|].
    + intros i Ho. split; [by apply remove_owned|done].
    + right. left. left. by right; left.
Qed.

Lemma unindex_critical X d :
  inv X d -> inv X (set_index (base.delete k) d)
  /\ guarantee Deleting k MW d (set_index (base.delete k) d).
Proof.
  intros I. split.
  - destruct I as [If Ix]. split; [done|]. intros k' m HU'. simpl.
    intros [_ Hm]%lookup_delete_Some. by apply Ix.
  - assert (Hs : same_files (disk_fs d) (disk_fs (set_index (base.delete k) d))) by done.
    split; [by apply confined_same| |by apply same_evolves_at|left; by intros i|right; by apply same_files_at|].
    + intros k' Hne. left. simpl. rewrite lookup_delete_ne; [done|congruence].
    + right. left. left. by right; left.
Qed.

(** A removal that is cut short has either touched no file or emptied the key. *)
Definition removing (d : DiskStorage) : Prop := good_key k d \/ emptied d.

Lemma removing_rely d d' : rely Deleting k MW d d' -> removing d -> removing d'.
Proof. intros R [H|H]; [left; by eapply good_key_rely|right; by eapply emptied_rely]. Qed.

Lemma delete_body_safe d :
  good_key k d ->
  safe Deleting k MW
    (_ ← call (modify (set_index (base.delete k)));
     _ ← call (remove_if_present (dp k)); call (remove_if_present (mp k)))
    (fun L' _ d' => L' = MW /\ removing d') d.
Proof.
  intros Hg. apply task_safe_bind, safe_call. intros d1 X1 R1 I1 _ r d2 [= <- <-].
  destruct (unindex_critical X1 d1 I1) as [I2 G2]. split_and!; [done|done|]. intros d3 R3.
  pose proof (good_key_rely _ _ R1 Hg) as Hg1.
  assert (Hg3 : good_key k d3 /\ metadata_index d3 !! k = None).
  { assert (Hx : metadata_index (set_index (base.delete k) d1) !! k = None) by apply lookup_delete_eq.
    split.
    - eapply good_key_rely; [exact R3|]. eapply good_key_same; [| | |exact Hg1]; [done|done|by right].
    - destruct (rely_frozen _ _ _ _ _ R3 critical_both) as (_ & _ & Hi). destruct Hi; congruence. }
  apply task_safe_bind, safe_call. intros d4 X4 R4 I4 HX4 r d5 E5.
  pose proof (good_key_rely _ _ R4 (proj1 Hg3)) as Hg4.
  assert (Hx4 : metadata_index d4 !! k = None).
  { destruct (rely_frozen _ _ _ _ _ R4 critical_both) as (_ & _ & Hi). destruct Hi; destruct Hg3; congruence. }
  apply (remove_critical _ X4) in E5 as (I5 & G5 & Hx5 & Hs5 & Hn5); [|by left|by apply HX4, critical_both|done].
  split_and!; [done|done|]. intros d6 R6. destruct r as [[]|e].
  - assert (He6 : emptied d6).
    { eapply emptied_rely; [exact R6|]. split; [by apply Hn5|by rewrite Hx5]. }
    apply safe_call. intros d7 X7 R7 I7 HX7 r d8 E8. pose proof (emptied_rely _ _ R7 He6) as [Hd7 Hx7].
    apply (remove_critical _ X7) in E8 as (I8 & G8 & Hx8 & Hs8 & _); [|by right|by apply HX7, critical_both|done].
    split_and!; [done|done|]. intros d9 R9. split; [done|]. right.
    eapply emptied_rely; [exact R9|]. split; [|by rewrite Hx8].
    destruct Hs8 as [(-> & _)|[_ ->]]; [done|].
    by rewrite lookup_delete_ne by apply not_eq_sym, dp_ne_mp.
  - apply safe_return. intros d7 R7. split; [done|]. left.
    eapply good_key_rely; [exact (transitivity R6 R7)|].
    destruct Hs5 as [Hs5|[[=] _]]. eapply good_key_same; [| | |exact Hg4]; [by apply same_files_at..|].
    left. by rewrite Hx5.
Qed.

Lemma delete_safe d :
  safe Deleting k [] (delete_task config k) (fun L' _ _ => L' = []) d.
Proof.
  split_and!; [by left|apply not_elem_of_nil|]. intros d1 X1 _ _ _. apply safe_then.
  split_and!; [by right|apply metadata_lock_not_write|]. intros d2 X2 _ I2 HX2.
  pose proof (inv_good_key _ _ _ I2 HU HX2) as Hg2. apply safe_then.
  eapply safe_mono; [|by apply delete_body_safe]. intros L' r d3 [-> H3].
  split; [by left|]. intros d4 X4 R4 _. split.
  { intros _. destruct (removing_rely _ _ R4 H3) as [?|?]; [done|by apply emptied_good]. }
  rewrite difference_head by apply metadata_lock_not_write. apply safe_return. intros d5 _.
  split; [by left|]. intros d6 X6 _ _. split.
  { intros (_ & _ & Hm). by apply metadata_lock_not_write in Hm. }
  rewrite difference_head by apply not_elem_of_nil. by apply safe_return.
Qed.
End OneKey.
End Races.
