(* ===== verification/DiskInterleaved.v ===== *)
(** * The disk engine: all tasks together

    Any number of tasks on one engine ([DiskTasks]).  The invariant of the engine
    holds in every world that can be reached, the keys that are just being removed
    left out, and what a granted read delivers are the bytes of the resource: by
    the rely and guarantee conditions of [DiskRaces], which fit together because of
    the locks.  The last theorem is a race of a reader with a removal. *)

From Stdlib Require Import Strings.Byte Strings.String.
From S2P Require Import Prelude Bytes Error External Digest Range RangeTable FileSystem Storage Disk DiskTasks DiskInvariant DiskMetadata DiskWrite DiskCalm DiskTheorems DiskRaces.

Section Interleaved.
Context {sha : Sha256} {shaL : Sha256Laws} {js : MetadataJson} {jsL : MetadataJsonLaws}.
Context {ord : HashOrder text RangeMetadata}.
Context (config : StorageConfig) (content : text -> list byte) (InUse : text -> Prop).
Context (Hcoll : no_collision InUse) (Hfit : content_fits content).

Abbreviation dp := (get_file_path config).
Abbreviation mp := (get_metadata_path config).
Abbreviation inv := (inv config content InUse).
#[local] Arguments DiskRaces.safe : simpl never.
Abbreviation safe := (DiskRaces.safe config content InUse).
Abbreviation rely := (rely config content).
Abbreviation guarantee := (guarantee config content).
Abbreviation whole := (whole config).
Abbreviation covered := (covered config content).

(** What callers see to: written bytes and reported lengths are those of the
    resource, and reads are of intervals that have been resolved.  The enumeration
    at the start of the program is over. *)
Definition admissible (o : op) : Prop :=
  InUse (op_key o) /\
  match o with
  | OpWrite k s range => 0 <= range.1 /\ honest_at content k (Z.to_nat range.1) (stream_bytes s)
  | OpRead _ range => 0 <= range.1 /\ range.2 <> OPEN_ENDED
  | OpRecordMeta k meta =>
      forall t, um_total_size meta = Some t -> t = Z.of_nat (length (content k))
  | OpEnumerate _ => False
  | _ => True
  end.

(** No removal of a key beside a reader of it. *)
Definition apart (o o' : op) : Prop :=
  op_key o = op_key o' ->
  ~ (kind_of o = Deleting /\ kind_of o' = Reading) /\ ~ (kind_of o = Reading /\ kind_of o' = Deleting).

(** A task removes [k]: it holds both locks. *)
Definition removes (k : text) (t : Task) : Prop :=
  t_op t = OpDelete k /\ critical Deleting k (t_locks t).

(** A step in which only admissible methods are called, apart from each other,
    and no removal is left (dropped, or given up for an error) between its two
    files. *)
Definition tame_step (w w' : World) : Prop :=
  world_step config w w'
  /\ (forall i t, tasks w !! i = None -> tasks w' !! i = Some t ->
        admissible (t_op t) /\ forall j t', tasks w !! j = Some t' -> apart (t_op t) (t_op t'))
  /\ (forall i t k, tasks w !! i = Some t -> removes k t ->
        exists t', tasks w' !! i = Some t' /\ (removes k t' \/ whole k (engine w'))).

Definition tame_steps : World -> World -> Prop := rtc tame_step.
Definition start (ds : gset path) (script : list fault) : World := mk_World (empty_disk ds script) ∅.

Definition post (o : op) (r : Result outcome) (d : DiskStorage) : Prop :=
  match o with
  | OpRead k range => forall rd, r = Ok (Opened rd) ->
      reader_ok config content (disk_fs d) k rd
      /\ rd_start rd = range.1 /\ rd_read rd = 0 /\ rd_chunk rd = chunk_size config
      /\ rd_total rd = range.2 - range.1 + 1
  | OpCheckRange k range => r = Ok (Checked true) -> range.2 <> OPEN_ENDED ->
      covered k range.1 range.2 (disk_fs d)
  | _ => True
  end.

Lemma safe_outcome {A} c k (p : prog A) (f : A -> outcome) (Q : Result A -> DiskStorage -> Prop)
    (Q' : list lock -> Result outcome -> DiskStorage -> Prop) d :
  safe c k [] p (fun L' r d' => L' = [] /\ Q r d') d ->
  (forall d' a, Q (Ok a) d' -> forall d1, rely c k [] d' d1 -> Q' [] (Ok (f a)) d1) ->
  (forall d1 e, Q' [] (Err e) d1) ->
  safe c k [] (a ← p; mret (f a)) Q' d.
Proof.
  intros Hp Hok Herr. apply task_safe_bind. eapply safe_mono; [|exact Hp].
  intros L' r d1 [-> Hr]. destruct r as [a|e]; apply safe_return; eauto.
Qed.

Lemma body_safe o d :
  admissible o -> safe (kind_of o) (op_key o) [] (body config o) (fun _ r d' => post o r d') d.
Proof.
  assert (HR : forall L k, Reading = Reading \/ guarded k L) by (intros; by left).
  intros [HU Ha]. destruct o as [k s range|k range|k range|k meta|k|k|k|order]; simpl in *; [..|done].
  - apply (safe_outcome _ _ _ _ (fun _ _ => True)); [|done|done].
    eapply safe_mono; [|apply write_safe; naive_solver]. naive_solver.
  - eapply safe_outcome; [apply read_safe; naive_solver| |done].
    intros d' rd Hr d1 R rd' [= <-]. destruct (Hr rd eq_refl) as [(Ho & Hg & ? & ?) Hx].
    split; [|done]. destruct (rely_evolves _ _ _ _ _ _ _ R _ Ho) as [Ho' Hg']. split_and!; auto; lia.
  - eapply safe_outcome; [apply check_range_safe; naive_solver| |done].
    intros d' b (b' & [= ->] & Hb) d1 R [= ->] Hne. eapply covered_rely; [|exact R|auto]. by left.
  - apply (safe_outcome _ _ _ _ (fun _ _ => True)); [|done|done].
    eapply safe_mono; [|by apply record_upstream_meta_safe]. naive_solver.
  - apply (safe_outcome _ _ _ _ (fun _ _ => True)); [|done|done].
    eapply safe_mono; [|apply with_metadata_safe; naive_solver]. naive_solver.
  - apply (safe_outcome _ _ _ _ (fun _ _ => True)); [|done|done].
    eapply safe_mono; [|apply data_file_size_safe]. naive_solver.
  - apply (safe_outcome _ _ _ _ (fun _ _ => True)); [|done|done].
    eapply safe_mono; [|by apply delete_safe]. naive_solver.
Qed.

(** ** The invariant of the world *)

(** The keys that are being removed. *)
Definition removed (w : World) (k : text) : Prop :=
  exists i t, tasks w !! i = Some t /\ removes k t.

Record world_inv (w : World) : Prop := {
  wi_inv : inv (removed w) (engine w);
  wi_task i t : tasks w !! i = Some t ->
    InUse (op_key (t_op t))
    /\ safe (kind_of (t_op t)) (op_key (t_op t)) (t_locks t) (t_rest t)
         (fun _ r d => post (t_op t) r d) (engine w);
  wi_locks i j t t' l : i <> j -> tasks w !! i = Some t -> tasks w !! j = Some t' ->
    l ∈ t_locks t -> l ∉ t_locks t';
  wi_apart i j t t' : i <> j -> tasks w !! i = Some t -> tasks w !! j = Some t' ->
    apart (t_op t) (t_op t');
}.

Lemma kind_deleting o : kind_of o = Deleting -> o = OpDelete (op_key o).
Proof. by destruct o. Qed.

Lemma wi_compatible w i j t t' :
  world_inv w -> i <> j -> tasks w !! i = Some t -> tasks w !! j = Some t' ->
  compatible (kind_of (t_op t)) (kind_of (t_op t')) (op_key (t_op t)) (op_key (t_op t'))
    (t_locks t) (t_locks t').
Proof.
  intros I Hij Hi Hj Ek. split; [intros l; by apply (wi_locks w I i j)|].
  by apply (wi_apart w I i j).
Qed.

Lemma wi_placed w i t :
  world_inv w -> tasks w !! i = Some t ->
  placed (kind_of (t_op t)) (op_key (t_op t)) (t_locks t) (removed w).
Proof.
  intros I Hi. split.
  - intros Hs Hc (j & t' & Hj & Ho & Hcr). destruct (decide (i = j)) as [->|Hij].
    + simplify_eq. by rewrite Ho in Hc.
    + destruct (wi_compatible w i j t t' I Hij Hi Hj) as (HL & _ & Hn); [by rewrite Ho|].
      rewrite Ho in Hn. destruct Hs as [Hr|[Hg|Hg]]; [by apply Hn|by apply (HL _ Hg), Hcr..].
  - intros Hcr. destruct Hcr as (Hk & Hw & Hm). exists i, t. split; [done|].
    split; [by apply kind_deleting|done].
Qed.

(** A step of one task is one the others rely on. *)
Lemma wi_others w i t j t' d' :
  world_inv w -> tasks w !! i = Some t -> i <> j -> tasks w !! j = Some t' ->
  guarantee (kind_of (t_op t)) (op_key (t_op t)) (t_locks t) (engine w) d' ->
  rely (kind_of (t_op t')) (op_key (t_op t')) (t_locks t') (engine w) d'.
Proof.
  intros I Hi Hij Hj G. pose proof (wi_inv w I) as [Hf _].
  eapply guarantee_rely; try exact G; try done.
  - by apply (wi_task w I i).
  - by apply (wi_task w I j).
  - by eapply wi_compatible.
  - intros p x Hp. by apply (inv_alloc _ _ _ _ Hf p x).
  - apply (inv_links _ _ _ _ Hf).
Qed.

Lemma removed_insert w d i t t' k :
  tasks w !! i = Some t -> (removes k t' <-> removes k t) ->
  removed (mk_World d (<[i := t']> (tasks w))) k <-> removed w k.
Proof.
  intros Hi Hr. split; intros (j & x & Hj & Hx); simpl in *.
  - apply lookup_insert_Some in Hj as [[<- <-]|[? ?]]; [exists i, t; naive_solver|by exists j, x].
  - destruct (decide (i = j)) as [<-|Hne].
    + exists i, t'. simpl. rewrite lookup_insert_eq. simplify_eq. naive_solver.
    + exists j, x. simpl. by rewrite lookup_insert_ne.
Qed.

(** Replace the state and one task. *)
Lemma world_inv_update w i t t' d' :
  world_inv w -> tasks w !! i = Some t -> t_op t' = t_op t ->
  inv (removed (mk_World d' (<[i := t']> (tasks w)))) d' ->
  safe (kind_of (t_op t)) (op_key (t_op t)) (t_locks t') (t_rest t')
    (fun _ r d => post (t_op t) r d) d' ->
  (forall l, l ∈ t_locks t' -> l ∈ t_locks t \/ free l w) ->
  (forall j t2, i <> j -> tasks w !! j = Some t2 ->
     rely (kind_of (t_op t2)) (op_key (t_op t2)) (t_locks t2) (engine w) d') ->
  world_inv (mk_World d' (<[i := t']> (tasks w))).
Proof.
  intros I Hi Ho Hinv Hs HL Hr. split; [done| | |]; simpl.
  - intros j t2. rewrite lookup_insert_Some. intros [[<- <-]|[Hne Hj]].
    + rewrite Ho. split; [by apply (wi_task w I i)|done].
    + destruct (wi_task w I j t2 Hj). split; [done|]. eapply safe_rely; eauto.
  - intros a b ta tb l Hab. rewrite !lookup_insert_Some.
    intros [[<- <-]|[Ha Hta]] [[<- <-]|[Hb Htb]] Hl; try done.
    + destruct (HL l Hl) as [Hl'|Hf]; [by eapply (wi_locks w I i b)|by eapply Hf].
    + intros Hl'. destruct (HL l Hl') as [Hl2|Hf]; [|by eapply Hf].
      by apply (wi_locks w I a i ta t l).
    + by eapply (wi_locks w I a b).
  - intros a b ta tb Hab. rewrite !lookup_insert_Some.
    intros [[<- <-]|[Ha Hta]] [[<- <-]|[Hb Htb]]; try done; rewrite ?Ho.
    + by apply (wi_apart w I i b).
    + by apply (wi_apart w I a i).
    + by apply (wi_apart w I a b).
Qed.

(** ** Every step keeps it *)

Lemma await_inv w i o f p' d' L :
  world_inv w -> tasks w !! i = Some (mk_Task o (Await f) L) -> f (engine w) = (p', d') ->
  world_inv (mk_World d' (<[i := mk_Task o p' L]> (tasks w)))
  /\ forall k, InUse k -> evolves_at config content k (disk_fs (engine w)) (disk_fs d').
Proof.
  intros I Hi E. destruct (wi_task w I i _ Hi) as [HU Hs]. simpl in *.
  specialize (Hs (engine w) (removed w) ltac:(reflexivity) (wi_inv w I) (wi_placed w i _ I Hi)).
  rewrite E in Hs. destruct Hs as (I2 & G & Hs). split.
  - eapply world_inv_update; [done|exact Hi|done| |done|by left|].
    + eapply inv_weaken; [exact I2|]. intros k Hk. by eapply removed_insert.
    + intros j t2 Hij Hj. by eapply (wi_others w i _ j t2 d' I Hi).
  - intros k HUk. destruct (decide (k = op_key o)) as [->|Hne]; [apply (gu_evolves _ _ _ _ _ _ _ G)|].
    eapply (foreign_evolves config content InUse Hcoll (op_key o) k); try done.
    apply (gu_confined _ _ _ _ _ _ _ G).
Qed.

Lemma acquire_inv w i o l p L :
  world_inv w -> tasks w !! i = Some (mk_Task o (Acquire l p) L) -> free l w ->
  world_inv (mk_World (engine w) (<[i := mk_Task o p (l :: L)]> (tasks w))).
Proof.
  intros I Hi Hf. destruct (wi_task w I i _ Hi) as [HU Hs]. simpl in *.
  destruct Hs as (Hl & Hn & Hs).
  assert (HX : ~ removed w (op_key o)).
  { intros (j & t & Hj & _ & _ & Hw & Hm). apply (Hf j t Hj). by destruct Hl as [->| ->]. }
  specialize (Hs (engine w) (removed w) ltac:(reflexivity) (wi_inv w I) HX).
  eapply world_inv_update; [done|exact Hi|done| |done| |done]; simpl.
  - eapply inv_weaken; [apply (wi_inv w I)|]. intros k (j & t & Hj & Ht).
    assert (Hij : i <> j).
    { intros <-. rewrite Hi in Hj. injection Hj as <-. destruct Ht as [Ho [_ Hcr]]. simpl in *.
      subst o. apply HX. exists i, (mk_Task (OpDelete k) (Acquire l p) L). by split. }
    exists j, t. split; [|done]. simpl. by rewrite lookup_insert_ne.
  - intros l' [->|Hl']%elem_of_cons; [by right|by left].
Qed.

Lemma release_inv w i o l p L :
  world_inv w -> tasks w !! i = Some (mk_Task o (Release l p) L) ->
  let w' := mk_World (engine w) (<[i := mk_Task o p (list_difference L [l])]> (tasks w)) in
  (forall k, removes k (mk_Task o (Release l p) L) ->
     removes k (mk_Task o p (list_difference L [l])) \/ whole k (engine w)) ->
  world_inv w'.
Proof.
  intros I Hi w' Hrem. destruct (wi_task w I i _ Hi) as [HU Hs]. simpl in *.
  destruct Hs as [Hl Hs]. destruct (Hs (engine w) (removed w) ltac:(reflexivity) (wi_inv w I)) as [Hg Hs'].
  assert (Hothers : forall k, removed w k ->
    removed w' k \/ removes k (mk_Task o (Release l p) L)).
  { intros k (j & t & Hj & Ht). destruct (decide (i = j)) as [<-|Hij].
    - right. rewrite Hi in Hj. by injection Hj as <-.
    - left. exists j, t. split; [|done]. simpl. by rewrite lookup_insert_ne. }
  eapply world_inv_update; [done|exact Hi|done| |done| |done]; simpl.
  2:{ intros l' [Hl' _]%list_elem_of_difference. by left. }
  fold w'. destruct (decide (kind_of o = Deleting)) as [Hk|Hk].
  2:{ eapply inv_weaken; [apply (wi_inv w I)|]. intros k [?|[Ho _]]%Hothers; [done|].
      simpl in *. by subst o. }
  apply kind_deleting in Hk as Ho. set (k := op_key o) in *.
  destruct (decide (write_lock_for k ∈ L /\ metadata_lock_for k ∈ L)) as [HL|HL].
  2:{ eapply inv_weaken; [apply (wi_inv w I)|]. intros k' [?|[Ho' [_ ?]]]%Hothers; [done|].
      simpl in *. rewrite Ho in Ho'. injection Ho' as <-. done. }
  assert (Hr : removes k (mk_Task o (Release l p) L)) by (split; [done|by split]).
  destruct (Hrem k Hr) as [Hr'|Hw].
  - eapply inv_weaken; [apply (wi_inv w I)|]. intros k' [?|[Ho' _]]%Hothers; [done|].
    simpl in *. rewrite Ho in Ho'. injection Ho' as <-. exists i, (mk_Task o p (list_difference L [l])).
    split; [simpl; by rewrite lookup_insert_eq|done].
  - eapply (inv_restore _ _ _ (removed w)); [apply (wi_inv w I)|apply Hg; [by split|exact Hw]|].
    intros k' [?|[Ho' _]]%Hothers; [by left|]. right. simpl in *. rewrite Ho in Ho'. by injection Ho' as <-.
Qed.

Lemma spawn_inv w i o :
  world_inv w -> tasks w !! i = None -> admissible o ->
  (forall j t, tasks w !! j = Some t -> apart o (t_op t)) ->
  world_inv (mk_World (engine w) (<[i := mk_Task o (body config o) []]> (tasks w))).
Proof.
  intros I Hi Ha Hap. split; simpl.
  - eapply inv_weaken; [apply (wi_inv w I)|]. intros k (j & t & Hj & Ht). exists j, t.
    split; [|done]. simpl. rewrite lookup_insert_ne; congruence.
  - intros j t. rewrite lookup_insert_Some. intros [[<- <-]|[_ Hj]]; [|by apply (wi_task w I j)].
    simpl. split; [apply Ha|by apply body_safe].
  - intros a b ta tb l Hab. rewrite !lookup_insert_Some.
    intros [[<- <-]|[_ Hta]] [[<- <-]|[_ Htb]]; simpl.
    + done.
    + by intros ?%not_elem_of_nil.
    + intros _. apply not_elem_of_nil.
    + by apply (wi_locks w I a b).
  - intros a b ta tb Hab. rewrite !lookup_insert_Some.
    intros [[<- <-]|[_ Hta]] [[<- <-]|[_ Htb]]; simpl; [done|by eapply Hap| |by apply (wi_apart w I a b)].
    intros E. destruct (Hap a ta Hta (eq_sym E)). naive_solver.
Qed.

(** Fewer tasks, and a state that looks the same to those that are left. *)
Lemma fewer_inv w w' :
  world_inv w -> tasks w' ⊆ tasks w -> (forall k, removed w k -> removed w' k) ->
  inv (removed w') (engine w') ->
  (forall i t, tasks w' !! i = Some t ->
     rely (kind_of (t_op t)) (op_key (t_op t)) (t_locks t) (engine w) (engine w')) ->
  world_inv w'.
Proof.
  intros I Hsub Hrem Hinv Hr.
  assert (Hl : forall i t, tasks w' !! i = Some t -> tasks w !! i = Some t)
    by (intros i t Ht; by eapply lookup_weaken).
  split; [done| | |].
  - intros i t Hi. destruct (wi_task w I i t (Hl _ _ Hi)). split; [done|]. eapply safe_rely; eauto.
  - intros a b ta tb l Hab ?%Hl ?%Hl. by apply (wi_locks w I a b).
  - intros a b ta tb Hab ?%Hl ?%Hl. by apply (wi_apart w I a b).
Qed.

Lemma tame_step_inv w w' :
  tame_step w w' -> world_inv w ->
  world_inv w' /\ forall k, InUse k -> evolves_at config content k (disk_fs (engine w)) (disk_fs (engine w')).
Proof.
  intros (Hs & Hnew & Hrem) I.
  assert (Hrefl : forall k, InUse k -> evolves_at config content k (disk_fs (engine w)) (disk_fs (engine w)))
    by (intros k _; by apply same_evolves_at).
  destruct Hs as [w i o Hi|w i o f p' d' L Hi E|w i o l p L Hi Hf|w i o l p L Hi|w i t Hi|w rd r d' E|w script].
  - split; [|done]. destruct (Hnew i (mk_Task o (body config o) []) Hi) as [Ha Hap];
      [simpl; by rewrite lookup_insert_eq|]. by apply spawn_inv.
  - by eapply await_inv.
  - split; [|done]. by apply acquire_inv.
  - split; [|done]. apply (release_inv w i); [done..|]. intros k Hr.
    destruct (Hrem i _ k Hi Hr) as (t' & Ht' & H). simpl in Ht'. rewrite lookup_insert_eq in Ht'.
    by injection Ht' as <-.
  - split; [|done]. assert (Hk : forall k, removed w k -> removed (mk_World (engine w) (base.delete i (tasks w))) k).
    { intros k (j & x & Hj & Hx). exists j, x. split; [|done]. simpl. rewrite lookup_delete_ne; [done|].
      intros <-. destruct (Hrem i x k Hj Hx) as (t' & Ht' & _). simpl in Ht'. by rewrite lookup_delete_eq in Ht'. }
    apply (fewer_inv w); [done|apply delete_subseteq|done| |].
    + eapply inv_weaken; [apply (wi_inv w I)|done].
    + by intros j x _.
  - apply read_next_same in E as Hsd. split.
    + apply (fewer_inv w); [done|done|done| |].
      * eapply same_disk_inv; [exact Hsd|apply (wi_inv w I)].
      * intros j x _. by apply same_disk_rely.
    + intros k _. apply same_evolves_at, Hsd.
  - assert (Hno : forall k, ~ removed w k).
    { intros k (j & x & Hj & Hx). destruct (Hrem j x k Hj Hx) as (t' & Ht' & _). simpl in Ht'.
      by rewrite lookup_empty in Ht'. }
    split; [|intros k _; by apply same_evolves_at].
    apply (fewer_inv w); [done|apply map_empty_subseteq|by intros k ?%Hno| |].
    + edestruct (inv_weaken config content InUse (removed w)) as [Hf _];
        [apply (wi_inv w I)|by intros k ?%Hno|]. split.
      * eapply same_inv; [|exact Hf]. done.
      * intros k m _. simpl. by rewrite lookup_empty.
    + intros j x. simpl. by rewrite lookup_empty.
Qed.

Lemma tame_steps_inv w w' : tame_steps w w' -> world_inv w -> world_inv w'.
Proof. induction 1 as [w|w w1 w2 Hs _ IH]; [done|]. intros I. by apply IH, (tame_step_inv w). Qed.

Lemma start_inv ds script : world_inv (start ds script).
Proof.
  split; [|by intros i t; simpl; rewrite lookup_empty..].
  apply empty_disk_inv.
Qed.

Definition reachable_world (w : World) : Prop := exists ds script, tame_steps (start ds script) w.

Lemma reachable_world_inv w : reachable_world w -> world_inv w.
Proof. intros (ds & script & Hs). eapply tame_steps_inv; [exact Hs|apply start_inv]. Qed.

(** ** A stream among the tasks *)

(** The stream [rd] is driven while the tasks run: what it has yielded. *)
Inductive stream_among : World -> Reader -> list byte -> World -> Reader -> Prop :=
| sa_start w rd : stream_among w rd [] w rd
| sa_other w rd out w1 rd1 w2 :
    stream_among w rd out w1 rd1 -> tame_step w1 w2 -> stream_among w rd out w2 rd1
| sa_chunk w rd out w1 rd1 b rd2 d2 :
    stream_among w rd out w1 rd1 -> read_next rd1 (engine w1) = (Ok (Some (b, rd2)), d2) ->
    stream_among w rd (out ++ b) (mk_World d2 (tasks w1)) rd2.

Lemma next_tame w rd r d' :
  read_next rd (engine w) = (r, d') -> tame_step w (mk_World d' (tasks w)).
Proof.
  intros E. split_and!; simpl.
  - by eapply ws_next.
  - intros i t Hn Hs. by rewrite Hn in Hs.
  - intros i t k Hi Hr. exists t. auto.
Qed.

Lemma reader_ok_evolves_at k s s' rd :
  evolves_at config content k s s' -> reader_ok config content s k rd -> reader_ok config content s' k rd.
Proof. intros He (Ho & Hg & ?). destruct (He _ Ho). split_and!; auto; tauto. Qed.

Lemma stream_among_inv k w rd out w' rd' :
  stream_among w rd out w' rd' ->
  InUse k -> world_inv w -> reader_ok config content (disk_fs (engine w)) k rd ->
  0 < rd_chunk rd -> rd_read rd = 0 ->
  world_inv w' /\ reader_ok config content (disk_fs (engine w')) k rd'
  /\ rd_start rd' = rd_start rd /\ rd_total rd' = rd_total rd /\ rd_chunk rd' = rd_chunk rd
  /\ out = slice content k (rd_start rd) (rd_read rd').
Proof.
  induction 1 as [w rd|w rd out w1 rd1 w2 _ IH Hs|w rd out w1 rd1 b rd2 d2 _ IH E];
    intros HU I Hr Hc H0.
  - split_and!; try done. by rewrite H0.
  - destruct (IH HU I Hr Hc H0) as (I1 & R1 & ? & ? & ? & ->).
    destruct (tame_step_inv _ _ Hs I1) as [I2 Ev]. split_and!; try done.
    by eapply reader_ok_evolves_at; [apply Ev|].
  - destruct (IH HU I Hr Hc H0) as (I1 & R1 & Est & Etot & Ech & ->).
    destruct (tame_step_inv _ _ (next_tame _ _ _ _ E) I1) as [I2 _].
    apply (read_next_run config content k) in E as [_ (Hne & Hb & R2 & Est2 & Etot2 & Ech2 & Erd2)];
      [|done|lia].
    pose proof R1 as (_ & _ & Hs0 & Hrd). split_and!; [done|done|lia|lia|lia|].
    rewrite Erd2, slice_app by lia. f_equal. rewrite <- Est. exact Hb.
Qed.
End Interleaved.

(** ** Runs that can be evaluated *)

Section Play.
Context {sha : Sha256} {js : MetadataJson} {ord : HashOrder text RangeMetadata}.
Context (config : StorageConfig).

(** The next step of a task; one that is over goes. *)
Definition advance (i : nat) (w : World) : option World :=
  match tasks w !! i with
  | None => None
  | Some (mk_Task o p L) =>
      match p with
      | Return _ => Some (mk_World (engine w) (base.delete i (tasks w)))
      | Await f =>
          let '(p', d') := f (engine w) in
          Some (mk_World d' (<[i := mk_Task o p' L]> (tasks w)))
      | Acquire l p' =>
          if decide (map_Forall (fun _ t => l ∉ t_locks t) (tasks w))
          then Some (mk_World (engine w) (<[i := mk_Task o p' (l :: L)]> (tasks w)))
          else None
      | Release l p' =>
          Some (mk_World (engine w) (<[i := mk_Task o p' (list_difference L [l])]> (tasks w)))
      end
  end.

Inductive event : Type := Start (i : nat) (o : op) | Go (i n : nat).

Fixpoint go (i n : nat) (w : World) : option World :=
  match n with O => Some w | S n' => advance i w ≫= go i n' end.

Definition play1 (e : event) (w : World) : option World :=
  match e with
  | Start i o =>
      match tasks w !! i with
      | Some _ => None
      | None => Some (mk_World (engine w) (<[i := mk_Task o (body config o) []]> (tasks w)))
      end
  | Go i n => go i n w
  end.
Fixpoint play (es : list event) (w : World) : option World :=
  match es with [] => Some w | e :: es' => play1 e w ≫= play es' end.

Lemma advance_step i w w' : advance i w = Some w' -> world_step config w w'.
Proof.
  unfold advance. destruct (tasks w !! i) as [[o p L]|] eqn:Hi; [|done].
  destruct p as [r|f|l p|l p].
  - intros [= <-]. by eapply ws_drop.
  - destruct (f (engine w)) as [p' d'] eqn:E. intros [= <-]. by eapply ws_await.
  - case_decide as Hf; [|done]. intros [= <-]. by eapply ws_acquire; [|intros j t; apply Hf].
  - intros [= <-]. by eapply ws_release.
Qed.

Lemma go_steps i n w w' : go i n w = Some w' -> rtc (world_step config) w w'.
Proof.
  revert w. induction n as [|n IH]; intros w; simpl; [by intros [= <-]|].
  intros (w1 & E & Hg)%bind_Some. eapply rtc_l; [by eapply advance_step|by apply IH].
Qed.

Lemma play_steps es w w' : play es w = Some w' -> rtc (world_step config) w w'.
Proof.
  revert w. induction es as [|e es IH]; intros w; simpl; [by intros [= <-]|].
  intros (w1 & E & Hp)%bind_Some. etrans; [|by apply IH]. destruct e as [i o|i n]; simpl in E.
  - destruct (tasks w !! i) eqn:Hi; [done|]. injection E as <-. apply rtc_once. by apply ws_spawn.
  - by eapply go_steps.
Qed.
End Play.

(** ** Runs without removals are tame *)

Section Tame.
Context {sha : Sha256} {js : MetadataJson} {ord : HashOrder text RangeMetadata}.
Context (config : StorageConfig) (content : text -> list byte) (InUse : text -> Prop).

Definition no_removal (w : World) : Prop :=
  forall i t, tasks w !! i = Some t -> kind_of (t_op t) <> Deleting.

Lemma advance_tame i w w' :
  no_removal w -> advance i w = Some w' -> tame_step config content InUse w w' /\ no_removal w'.
Proof.
  intros Hn E.
  assert (Hold : forall j t, tasks w' !! j = Some t ->
                 exists t0, tasks w !! j = Some t0 /\ t_op t = t_op t0).
  { intros j t Hj. unfold advance in E. destruct (tasks w !! i) as [[o p L]|] eqn:Hi; [|done].
    destruct p as [r|f|l p|l p];
      [|destruct (f (engine w))|case_decide; [|done]|]; injection E as <-; simpl in Hj;
      [by apply lookup_delete_Some in Hj as [_ ?]; exists t|..];
      apply lookup_insert_Some in Hj as [[<- <-]|[_ ?]]; eauto. }
  split; [split_and!|].
  - by eapply advance_step.
  - intros j t Hj Ht. apply Hold in Ht as (t0 & Ht0 & _). by rewrite Hj in Ht0.
  - intros j t k Hj [Ho _]. destruct (Hn j t Hj). by rewrite Ho.
  - intros j t (t0 & Ht0 & Ho)%Hold. rewrite Ho. by eapply Hn.
Qed.

Lemma go_tame i n w w' :
  no_removal w -> go i n w = Some w' -> tame_steps config content InUse w w' /\ no_removal w'.
Proof.
  revert w. induction n as [|n IH]; intros w Hn; simpl; [by intros [= <-]|].
  intros (w1 & E & Hg)%bind_Some. destruct (advance_tame i w w1 Hn E) as [H1 Hn1].
  destruct (IH w1 Hn1 Hg). split; [by eapply rtc_l|done].
Qed.

Lemma play_tame es w w' :
  (forall i o, Start i o ∈ es -> admissible content InUse o /\ kind_of o <> Deleting) ->
  no_removal w -> play config es w = Some w' ->
  tame_steps config content InUse w w' /\ no_removal w'.
Proof.
  revert w. induction es as [|e es IH]; intros w Ha Hn; simpl; [by intros [= <-]|].
  intros (w1 & E & Hp)%bind_Some.
  assert (H1 : tame_steps config content InUse w w1 /\ no_removal w1).
  { destruct e as [i o|i n]; simpl in E; [|by eapply go_tame].
    destruct (Ha i o) as [Hadm Hk]; [by left|].
    destruct (tasks w !! i) eqn:Hi; [done|]. injection E as <-. split.
    - apply rtc_once. split_and!; [by apply ws_spawn| |].
      + intros j t Hj. simpl. rewrite lookup_insert_Some. intros [[_ <-]|[_ Ht]]; [|by rewrite Hj in Ht].
        split; [done|]. intros j' t' Hj' _. simpl. split; [by intros [? _]|intros [_ ?]; by eapply Hn].
      + intros j t k Hj [Ho _]. destruct (Hn j t Hj). by rewrite Ho.
    - intros j t. simpl. rewrite lookup_insert_Some. intros [[_ <-]|[_ Ht]]; [done|by eapply Hn]. }
  destruct H1 as [Hs1 Hn1]. destruct (IH w1) as [Hs2 Hn2]; [|done|done|].
  - intros i o Ho. apply (Ha i o). by right.
  - split; [by etrans|done].
Qed.
End Tame.

Module InterleavedDemo.
Import DiskDemo.

(** A write, with a reader of the metadata between its steps, and a read after it. *)
Definition w0 : World := start ∅ [].
Definition es1 : list event :=
  [Start 1 (OpWrite K s1 (0, 7)); Start 2 (OpUpstreamMeta K); Go 1 4; Go 2 1; Go 1 15; Go 2 1;
   Start 3 (OpRead K (2, 5)); Go 3 5].
Definition played (es : list event) (w : World) : World :=
  default w (@play demo_sha demo_json demo_ord demo_config es w).
Definition w1 : World := played es1 w0.

Lemma played_Some es w :
  (if @play demo_sha demo_json demo_ord demo_config es w is Some _ then true else false) = true ->
  @play demo_sha demo_json demo_ord demo_config es w = Some (played es w).
Proof. unfold played. by destruct (play _ es w). Qed.

Lemma es1_played : @play demo_sha demo_json demo_ord demo_config es1 w0 = Some w1.
Proof. apply played_Some. vm_compute. reflexivity. Qed.

Lemma w1_reachable :
  @reachable_world demo_sha demo_json demo_ord demo_config demo_content demo_use w1.
Proof.
  exists ∅, []. eapply (@play_tame demo_sha demo_json demo_ord demo_config _ _ es1 w0).
  - intros i o. unfold es1. rewrite !elem_of_cons, elem_of_nil.
    intros [E|[E|[E|[E|[E|[E|[E|[E|[]]]]]]]]]; simplify_eq; split; try done.
    split; [done|]. simpl. split; [lia|apply demo_honest].
  - intros i t. simpl. by rewrite lookup_empty.
  - apply es1_played.
Qed.

Lemma w1_no_removal i t : tasks w1 !! i = Some t -> kind_of (t_op t) <> Deleting.
Proof.
  assert (Hf : map_Forall (fun _ t => kind_of (t_op t) <> Deleting) (tasks w1))
    by (apply (bool_decide_unpack _); vm_compute; exact I).
  apply Hf.
Qed.
End InterleavedDemo.

Module InterleavedClaims.
Import DiskDemo InterleavedDemo.




Definition rd1 : Reader := mk_Reader 0 2 4 0 4.
Lemma w1_opened : tasks w1 !! 3%nat = Some (mk_Task (OpRead K (2, 5)) (Return (Ok (Opened rd1))) []).
Proof. vm_compute. reflexivity. Qed.

Definition w2 : World := mk_World (read_next rd1 (engine w1)).2 (tasks w1).
Lemma w1_next : read_next rd1 (engine w1) = (Ok (Some (str "2345", mk_Reader 0 2 4 4 4)), engine w2).
Proof. unfold w2. cbn [engine]. apply run_result. vm_compute. reflexivity. Qed.


(** ** Readers beside other tasks *)

(** After a restart: the data file and its record, an empty index. *)
Definition cold : World := mk_World (restart [] DiskStorageTheorems.d1) ∅.

(** A reader has loaded the record; the key is removed; the reader puts the record
    into the index; another part is written. *)
Definition removal_race : list event :=
  [Start 1 (OpCheckRange K (0, 3)); Go 1 3; Start 2 (OpDelete K); Go 2 8; Go 1 3;
   Start 3 (OpWrite K [Ok (str "cdef")] (12, 15)); Go 3 17].
Definition after_removal : World := played removal_race cold.

(** C13: a reader beside a removal makes the cache serve bytes that were never
    fetched, with no failing call at all.  The reader loads the record of a key from
    its file; the key is removed, both files and the entry of the index; the reader
    then enters the record it has loaded into the index.  A later write of another
    part creates the data file anew, with a hole, and publishes the stale record;
    from then on the hole counts as cached, and zeros are served for the bytes of
    the resource.  All methods called are admissible, and each runs to its end. *)
Theorem removal_beside_reader_serves_zeros :
  (forall i o, Start i o ∈ removal_race -> admissible demo_content demo_use o)
  /\ rtc (@world_step demo_sha demo_json demo_ord demo_config) cold after_removal
  /\ tasks after_removal = ∅ /\ faults (disk_fs (engine after_removal)) = []
  /\ (@check_range demo_sha demo_json demo_ord demo_config K (0, 3) (engine after_removal)).1 = Ok true
  /\ ((rd ← @read demo_sha demo_json demo_ord demo_config K (0, 3); drain 5 rd)
        (engine after_removal)).1 = Ok (replicate 4 x00)
  /\ take 4 (demo_content K) = str "0123".
Proof.
  split; [|split; [|split; [|split; [|split; [|split]]]]]; [| |vm_compute; reflexivity..].
  - intros i o. unfold removal_race. rewrite !elem_of_cons, elem_of_nil.
    intros [E|[E|[E|[E|[E|[E|[E|[]]]]]]]]; simplify_eq; split; try done.
    split; [simpl; lia|]. intros j x Hx. simpl in Hx. unfold demo_content.
    rewrite decide_True by done. do 4 (destruct j as [|j]; [exact Hx|]). done.
  - apply (@play_steps demo_sha demo_json demo_ord demo_config removal_race), played_Some.
    vm_compute. reflexivity.
Qed.

(** A reader has loaded the record; another part is written and recorded; the
    reader puts its older record into the index. *)
Definition record_race : list event :=
  [Start 1 (OpCheckRange K (0, 3)); Go 1 3;
   Start 3 (OpWrite K [Ok (str "cdef")] (12, 15)); Go 3 19; Go 1 3].
Definition after_record : World := played record_race cold.

(** A write that has reported success is not found, and stays lost once the next
    record is published over the file that still has it. *)
Theorem reader_undoes_record :
  rtc (@world_step demo_sha demo_json demo_ord demo_config) cold after_record
  /\ (@check_range demo_sha demo_json demo_ord demo_config K (12, 15) (engine after_record)).1 = Ok false
  /\ (@check_range demo_sha demo_json demo_ord demo_config K (12, 15)
        (restart [] (engine after_record))).1 = Ok true
  /\ (@check_range demo_sha demo_json demo_ord demo_config K (12, 15)
        (restart [] (DiskDemo.w [Ok (str "8")] (8, 8) (engine after_record)).2)).1 = Ok false.
Proof.
  split; [|split; [|split]]; [|vm_compute; reflexivity..].
  apply (@play_steps demo_sha demo_json demo_ord demo_config record_race), played_Some.
  vm_compute. reflexivity.
Qed.

(** The length of a resource has been recorded, none of its bytes yet: a metadata
    file without a data file, as before every first write. *)
Definition announced : World :=
  mk_World (@record_upstream_meta demo_sha demo_json demo_ord demo_config K
              (mk_UpstreamMeta (Some 16) None) d0).2 ∅.

(** The enumeration has found no data file and removes the metadata file; a write
    creates the data file; the enumeration removes that too; the write goes on, and
    another part is written later. *)
Definition warm_up_race : list event :=
  [Start 1 (OpEnumerate (fun l => l)); Go 1 11; Start 2 (OpWrite K s1 (0, 7)); Go 2 3; Go 1 6; Go 2 15;
   Start 3 (OpWrite K [Ok (str "cdef")] (12, 15)); Go 3 17].
Definition after_warm_up : World := played warm_up_race announced.

(** The enumeration at the start of the program has the same effect beside the
    first write of a key: the written bytes go to a file without a name, and are
    recorded nevertheless. *)
Theorem warm_up_beside_write_serves_zeros :
  rtc (@world_step demo_sha demo_json demo_ord demo_config) announced after_warm_up
  /\ tasks after_warm_up = ∅ /\ faults (disk_fs (engine after_warm_up)) = []
  /\ (@check_range demo_sha demo_json demo_ord demo_config K (0, 3) (engine after_warm_up)).1 = Ok true
  /\ ((rd ← @read demo_sha demo_json demo_ord demo_config K (0, 3); drain 5 rd)
        (engine after_warm_up)).1 = Ok (replicate 4 x00).
Proof.
  split; [|split; [|split; [|split]]]; [|vm_compute; reflexivity..].
  apply (@play_steps demo_sha demo_json demo_ord demo_config warm_up_race), played_Some.
  vm_compute. reflexivity.
Qed.
End InterleavedClaims.
