(* ===== verification/Manager.v ===== *)
(** * The storage manager ([storage/manager.rs])

    The manager wraps an engine with bookkeeping (one entry per key with the
    disk space it takes and the time of its last access, and their total) and
    runs two background tasks: the warm-up that reads the entries of the last
    run back, and the periodic cleanup that evicts in LRU order.

    [SystemTime] is a number of milliseconds since the epoch; [now] is an
    argument of the operations that read the clock.  The tables are guarded by
    locks that each operation holds for one critical section: the critical
    sections are the definitions below, and [manager_step] interleaves them. *)

From S2P Require Import Prelude Bytes Error External Range Storage FileSystem.

Definition MUTATION_LOCK_SHARDS : Z := 64.

(** [DefaultHasher]: which of the 64 locks a key is guarded by. *)
Class DefaultHasher : Type := hash_text : text -> Z.
Definition mutation_shard `{DefaultHasher} (k : text) : Z := hash_text k mod MUTATION_LOCK_SHARDS.

Record StorageManagerConfig : Type := mk_StorageManagerConfig {
  max_cache_size : Z;
  max_file_count : Z;
  cleanup_interval : Z;
  external_cache_dirs : list path;
}.

Definition config_default : StorageManagerConfig :=
  mk_StorageManagerConfig (1024 * 1024 * 1024) 1000 60000 [].

Record CacheEntry : Type := mk_CacheEntry {
  ce_key : text;
  disk_usage : Z;
  last_access : Z;
}.
#[export] Instance CacheEntry_eq_dec : EqDecision CacheEntry.
Proof. solve_decision. Defined.

Definition UNIX_EPOCH : Z := 0.

Record StorageManager (S : Type) : Type := mk_StorageManager {
  sm_engine : S;
  cache_entries : gmap text CacheEntry;
  total_size : Z;
}.
Arguments mk_StorageManager {S}.
Arguments sm_engine {S}.
Arguments cache_entries {S}.
Arguments total_size {S}.

(** [entry_list.sort_by_key(|entry| entry.last_access)]: the standard
    library's sort is stable. *)
Fixpoint insert_by_access (e : CacheEntry) (l : list CacheEntry) : list CacheEntry :=
  match l with
  | [] => [e]
  | x :: l' =>
      if last_access e <? last_access x then e :: l else x :: insert_by_access e l'
  end.
Definition sort_by_access (l : list CacheEntry) : list CacheEntry :=
  foldl (fun acc e => insert_by_access e acc) [] l.

Section Manager.
Context {S R : Type} `{StorageEngine S R}.

Abbreviation M := (io (StorageManager S) ProxyError.t).

Definition new (engine : S) : StorageManager S := mk_StorageManager engine ∅ 0.

Definition on_engine {A} (m : io S ProxyError.t A) : M A := fun sm =>
  let '(r, s) := m (sm_engine sm) in
  (r, mk_StorageManager s (cache_entries sm) (total_size sm)).

(** The critical section of [write] after the engine has stored the body. *)
Definition book_write (k : text) (start bytes_written now : Z) (sm : StorageManager S) :
    StorageManager S :=
  let end_pos := saturating_add start bytes_written in
  match cache_entries sm !! k with
  | Some entry =>
      if disk_usage entry <? end_pos then
        mk_StorageManager (sm_engine sm)
          (<[k := mk_CacheEntry (ce_key entry) end_pos now]> (cache_entries sm))
          (saturating_add (saturating_sub (total_size sm) (disk_usage entry)) end_pos)
      else
        mk_StorageManager (sm_engine sm)
          (<[k := mk_CacheEntry (ce_key entry) (disk_usage entry) now]> (cache_entries sm))
          (total_size sm)
  | None =>
      mk_StorageManager (sm_engine sm)
        (<[k := mk_CacheEntry k end_pos now]> (cache_entries sm))
        (saturating_add (total_size sm) end_pos)
  end.

Definition write (k : text) (s : stream) (range : Z * Z) (now : Z) : M Z :=
  bytes_written ← on_engine (se_write k s range);
  _ ← modify (book_write k range.1 bytes_written now);
  mret bytes_written.

(** The critical section of [read] before the engine is asked. *)
Definition touch (k : text) (now : Z) (sm : StorageManager S) : StorageManager S :=
  match cache_entries sm !! k with
  | Some entry =>
      mk_StorageManager (sm_engine sm)
        (<[k := mk_CacheEntry (ce_key entry) (disk_usage entry) now]> (cache_entries sm))
        (total_size sm)
  | None => sm
  end.

Definition read (k : text) (range : Z * Z) (now : Z) : M R :=
  _ ← modify (touch k now); on_engine (se_read k range).

Definition get_size (k : text) : M (option Z) := fun sm =>
  match cache_entries sm !! k with
  | Some entry => (Ok (Some (disk_usage entry)), sm)
  | None => on_engine (se_get_size k) sm
  end.

Definition check_range (k : text) (range : Z * Z) : M bool := on_engine (se_check_range k range).
Definition record_upstream_meta (k : text) (meta : UpstreamMeta) : M unit :=
  on_engine (se_record_upstream_meta k meta).
Definition upstream_meta (k : text) : M UpstreamMeta := on_engine (se_upstream_meta k).

(** ** The warm-up task *)

Definition warm_up_entry (acc : gmap text CacheEntry * Z) (e : text * Z) :
    gmap text CacheEntry * Z :=
  let '(table, recovered) := acc in
  let '(k, size) := e in
  match table !! k with
  | Some _ => (table, recovered)
  | None =>
      (<[k := mk_CacheEntry k size UNIX_EPOCH]> table, saturating_add recovered size)
  end.

(** The critical section that merges the enumerated entries. *)
Definition book_warm_up (entries : list (text * Z)) (sm : StorageManager S) : StorageManager S :=
  match entries with
  | [] => sm
  | _ =>
      let '(table, recovered) := foldl warm_up_entry (cache_entries sm, 0) entries in
      mk_StorageManager (sm_engine sm) table (saturating_add (total_size sm) recovered)
  end.

Definition start_index_warm_up : M unit := fun sm =>
  match on_engine se_enumerate sm with
  | (Ok entries, sm') => (Ok tt, book_warm_up entries sm')
  | (Err _, sm') => (Ok tt, sm')
  end.

(** ** The cleanup task *)

Context {ord : HashOrder text CacheEntry}.

(** [entries.values().cloned()]. *)
Definition values (m : gmap text CacheEntry) : list CacheEntry :=
  omap (fun k => m !! k) (keys_order m).

(** The loop that picks the victims. *)
Fixpoint pick (config : StorageManagerConfig) (current_total current_count : Z)
    (l : list CacheEntry) : list CacheEntry :=
  match l with
  | [] => []
  | entry :: l' =>
      if (current_total <=? max_cache_size config) && (current_count <=? max_file_count config)
      then []
      else entry :: pick config (saturating_sub current_total (disk_usage entry))
                         (current_count - 1) l'
  end.

(** Phase one, under the read locks; [continue] selects nobody. *)
Definition choose_victims (config : StorageManagerConfig) (external_size : Z)
    (sm : StorageManager S) : list CacheEntry :=
  let entries := cache_entries sm in
  let len := Z.of_nat (size entries) in
  let combined_total := saturating_add (total_size sm) external_size in
  if ((max_cache_size config <? external_size) && (len <=? max_file_count config))
     || ((combined_total <=? max_cache_size config) && (len <=? max_file_count config))
  then []
  else pick config combined_total len (sort_by_access (values entries)).

(** Phase two, one victim, under its mutation lock and the write locks. *)
Definition evict (entry : CacheEntry) (sm : StorageManager S) : StorageManager S :=
  let unchanged :=
    match cache_entries sm !! ce_key entry with
    | Some current => last_access current =? last_access entry
    | None => false
    end in
  if negb unchanged then sm
  else
    match on_engine (se_delete (ce_key entry)) sm with
    | (Ok _, sm') =>
        match cache_entries sm' !! ce_key entry with
        | Some removed =>
            mk_StorageManager (sm_engine sm') (base.delete (ce_key entry) (cache_entries sm'))
              (saturating_sub (total_size sm') (disk_usage removed))
        | None => sm'
        end
    | (Err _, sm') => sm'
    end.

(** One round of the cleanup loop that nothing interrupts. *)
Definition cleanup_round (config : StorageManagerConfig) (external_size : Z)
    (sm : StorageManager S) : StorageManager S :=
  foldl (fun sm e => evict e sm) sm (choose_victims config external_size sm).
End Manager.

(** ** The size of the caches owned by others *)

Section ExternalSize.
Context `{DirOrder}.

(** One directory: its subdirectories are pushed, its files are counted.  An
    entry whose type or length cannot be read is skipped, an error of the
    listing itself ends it. *)
Fixpoint external_entries (dir : path) (l : list (text * bool)) (acc : Z * list path) :
    io fs ioerr (Z * list path) := fun s =>
  match fs_touch s with
  | (Err _, s1) => (Ok acc, s1)
  | (Ok _, s1) =>
  match l with
  | [] => (Ok acc, s1)
  | (name, is_dir) :: l' =>
      match fs_touch s1 with
      | (Err _, s2) => external_entries dir l' acc s2
      | (Ok _, s2) =>
          let p := dir ++ [name] in
          if is_dir then external_entries dir l' (acc.1, p :: acc.2) s2
          else match fs_stat p s2 with
               | (Ok n, s3) => external_entries dir l' (saturating_add acc.1 n, acc.2) s3
               | (Err _, s3) => external_entries dir l' acc s3
               end
      end
  end end.

(** [pending] is used as a stack; [fuel] bounds the directories visited. *)
Fixpoint external_walk (fuel : nat) (pending : list path) (total : Z) (s : fs) : Z * fs :=
  match fuel, pending with
  | O, _ | _, [] => (total, s)
  | Datatypes.S fuel', dir :: pending' =>
      match fs_read_dir dir s with
      | (Err _, s1) => external_walk fuel' pending' total s1
      | (Ok l, s1) =>
          match external_entries dir (dir_order l) (total, pending') s1 with
          | (Ok (total', pending''), s2) => external_walk fuel' pending'' total' s2
          | (Err _, s2) => (total, s2)
          end
      end
  end.

Definition external_cache_size (fuel : nat) (directories : list path) (s : fs) : Z * fs :=
  external_walk fuel (reverse directories) 0 s.
End ExternalSize.
