(* ===== verification/ManagerTheorems.v ===== *)
(** * The storage manager: theorems

    The bookkeeping under every interleaving of the manager's critical
    sections, what a cleanup round removes, and what the warm-up recovers. *)

From Stdlib Require Import Strings.Byte.
From S2P Require Import Prelude Bytes Error External Range Storage FileSystem Manager.

(** The space the entries of a table take. *)
Definition usage (m : gmap text CacheEntry) : Z :=
  map_fold (fun _ e acc => disk_usage e + acc) 0 m.

Lemma usage_insert m k e : m !! k = None -> usage (<[k := e]> m) = disk_usage e + usage m.
Proof. intros Hk. unfold usage. rewrite map_fold_insert_L; [done|intros; lia|done]. Qed.

Lemma usage_delete m k e : m !! k = Some e -> usage m = disk_usage e + usage (base.delete k m).
Proof.
  intros Hk. rewrite <- (insert_delete_id m k e Hk) at 1. apply usage_insert, lookup_delete_eq.
Qed.

Lemma usage_replace m k e e' :
  m !! k = Some e -> usage (<[k := e']> m) = usage m - disk_usage e + disk_usage e'.
Proof.
  intros Hk. rewrite (usage_delete m k e Hk).
  rewrite (usage_delete (<[k := e']> m) k e') by apply lookup_insert_eq.
  rewrite delete_insert_eq. lia.
Qed.

Lemma usage_nonneg m :
  (forall k e, m !! k = Some e -> 0 <= disk_usage e) -> 0 <= usage m.
Proof.
  induction m as [|k e m Hk IH] using map_ind; intros Hm; [done|].
  rewrite usage_insert by done. assert (0 <= disk_usage e) by (by eapply Hm, lookup_insert_eq).
  assert (0 <= usage m); [|lia]. apply IH. intros k' e' Hk'. apply (Hm k').
  rewrite lookup_insert_ne; [done|]. congruence.
Qed.

Lemma usage_lookup_le m k e :
  (forall k e, m !! k = Some e -> 0 <= disk_usage e) -> m !! k = Some e ->
  disk_usage e <= usage m.
Proof.
  intros Hm Hk. rewrite (usage_delete m k e Hk).
  assert (0 <= usage (base.delete k m)); [|lia]. apply usage_nonneg.
  intros k' e' [_ Hk']%lookup_delete_Some. by eapply Hm.
Qed.

Section Books.
Context {S R : Type} {engine : StorageEngine S R} {ord : HashOrder text CacheEntry}.

(** The table is keyed by its entries, the total never exceeds their sum. *)
Record books_ok (sm : StorageManager S) : Prop := {
  bk_entry k e : cache_entries sm !! k = Some e -> ce_key e = k /\ 0 <= disk_usage e;
  bk_total : 0 <= total_size sm <= usage (cache_entries sm);
}.
Definition exact (sm : StorageManager S) : Prop := total_size sm = usage (cache_entries sm).
Definition fits (sm : StorageManager S) : Prop := usage (cache_entries sm) <= u64_max.

Lemma bk_usage sm : books_ok sm ->
  forall k e, cache_entries sm !! k = Some e -> 0 <= disk_usage e <= usage (cache_entries sm).
Proof.
  intros [He _] k e Hk. split; [by eapply He|].
  eapply usage_lookup_le; [|done]. intros k' e' Hk'. by eapply He.
Qed.

Lemma books_insert (sm : StorageManager S) (s : S) (k : text) (e : CacheEntry) (t : Z) :
  books_ok sm -> ce_key e = k -> 0 <= disk_usage e ->
  0 <= t <= usage (<[k := e]> (cache_entries sm)) ->
  books_ok (mk_StorageManager s (<[k := e]> (cache_entries sm)) t).
Proof.
  intros [He _] Hk Hu Ht. split; [|done]. intros k' e'. simpl.
  rewrite lookup_insert_Some. intros [[<- <-]|[_ ?]]; [done|by apply He].
Qed.

Lemma book_write_ok k start n now sm :
  0 <= start -> 0 <= n -> books_ok sm ->
  let sm' := book_write k start n now sm in
  books_ok sm' /\ (exact sm -> fits sm' -> exact sm').
Proof.
  intros Hs Hn Hb. cbv zeta. pose proof (bk_total _ Hb) as Ht.
  assert (Hp : 0 <= saturating_add start n) by (unfold saturating_add; lia).
  unfold book_write, exact, fits.
  destruct (cache_entries sm !! k) as [e|] eqn:Ek.
  - pose proof (bk_entry _ Hb k e Ek) as [Hk _]. pose proof (bk_usage _ Hb k e Ek) as Hu.
    destruct (Z.ltb_spec (disk_usage e) (saturating_add start n)).
    + split.
      * apply books_insert; try done. rewrite (usage_replace _ _ e) by done. simpl.
        unfold saturating_sub, saturating_add in *. lia.
      * cbn [total_size cache_entries]. rewrite (usage_replace _ _ e) by done. simpl.
        unfold saturating_sub, saturating_add in *. lia.
    + split; [apply books_insert; try done; simpl; [lia|]|cbn [total_size cache_entries]];
        rewrite (usage_replace _ _ e) by done; simpl; lia.
  - split; [apply books_insert; try done|cbn [total_size cache_entries]];
      rewrite usage_insert by done; simpl; unfold saturating_add in *; lia.
Qed.

Lemma touch_ok k now sm :
  books_ok sm -> books_ok (touch k now sm) /\ (exact sm -> exact (touch k now sm)).
Proof.
  intros Hb. unfold touch. destruct (cache_entries sm !! k) as [e|] eqn:Ek; [|done].
  pose proof (bk_entry _ Hb k e Ek) as [Hk ?]. pose proof (bk_total _ Hb).
  split; [apply books_insert; try done|unfold exact; cbn [total_size cache_entries]];
    rewrite (usage_replace _ _ e) by done; simpl; lia.
Qed.

Lemma remove_ok (sm : StorageManager S) s k e :
  books_ok sm -> cache_entries sm !! k = Some e ->
  let sm' := mk_StorageManager s (base.delete k (cache_entries sm))
               (saturating_sub (total_size sm) (disk_usage e)) in
  books_ok sm' /\ (exact sm -> exact sm').
Proof.
  intros Hb Ek. pose proof (bk_total _ Hb). pose proof (bk_usage _ Hb k e Ek).
  unfold exact. pose proof (usage_delete _ _ _ Ek). split; [|simpl; unfold saturating_sub; lia].
  split; simpl; [|unfold saturating_sub; lia].
  intros k' e' [_ Hk']%lookup_delete_Some. by apply (bk_entry _ Hb).
Qed.

(** The bookkeeping does not look at the engine's state. *)
Lemma books_engine (sm : StorageManager S) s :
  books_ok sm -> books_ok (mk_StorageManager s (cache_entries sm) (total_size sm)).
Proof. by intros [? ?]. Qed.

Lemma evict_cases e sm :
  evict e sm = sm
  \/ exists r s cur, cache_entries sm !! ce_key e = Some cur /\ last_access cur = last_access e
     /\ se_delete (ce_key e) (sm_engine sm) = (r, s)
     /\ evict e sm = match r with
          | Ok _ => mk_StorageManager s (base.delete (ce_key e) (cache_entries sm))
                      (saturating_sub (total_size sm) (disk_usage cur))
          | Err _ => mk_StorageManager s (cache_entries sm) (total_size sm)
          end.
Proof.
  unfold evict. destruct (cache_entries sm !! ce_key e) as [cur|] eqn:Ek; [|by left].
  destruct (Z.eqb_spec (last_access cur) (last_access e)); [|by left]. right. simpl.
  unfold on_engine. destruct (se_delete (ce_key e) (sm_engine sm)) as [r s] eqn:Ed.
  exists r, s, cur. destruct r; simpl; by rewrite ?Ek.
Qed.

Lemma evict_ok e sm : books_ok sm -> books_ok (evict e sm) /\ (exact sm -> exact (evict e sm)).
Proof.
  intros Hb. destruct (evict_cases e sm) as [->|(r & s & cur & Ek & _ & _ & ->)]; [done|].
  destruct r; [by apply remove_ok|]. split; [by apply books_engine|done].
Qed.

(** The size the first occurrence of a key is listed with. *)
Definition listed (l : list (text * Z)) (k : text) : option Z :=
  snd <$> List.find (fun e => bool_decide (e.1 = k)) l.

Lemma warm_up_lookup l table rec k :
  (foldl warm_up_entry (table, rec) l).1 !! k
  = match table !! k with
    | Some e => Some e
    | None => (fun size => mk_CacheEntry k size UNIX_EPOCH) <$> listed l k
    end.
Proof.
  revert table rec; induction l as [|[k' n] l IH]; intros table rec; simpl.
  { unfold listed. simpl. by destruct (table !! k). }
  unfold listed. simpl. destruct (table !! k') as [e'|] eqn:Ek'; rewrite IH.
  - destruct (table !! k) eqn:Ek; [done|]. case_bool_decide; [congruence|done].
  - destruct (decide (k = k')) as [->|Hne].
    + rewrite lookup_insert_eq, Ek'. by rewrite bool_decide_eq_true_2.
    + rewrite lookup_insert_ne by done. destruct (table !! k); [done|].
      by rewrite bool_decide_eq_false_2 by congruence.
Qed.

Lemma warm_up_fold l table rec table' rec' :
  foldl warm_up_entry (table, rec) l = (table', rec') ->
  Forall (fun e => 0 <= e.2) l -> 0 <= rec ->
  usage table <= usage table' /\ 0 <= rec' <= rec + (usage table' - usage table)
  /\ (rec + (usage table' - usage table) <= u64_max ->
      rec' = rec + (usage table' - usage table)).
Proof.
  revert table rec; induction l as [|[k n] l IH]; intros table rec E Hl Hr; simpl in E.
  { injection E as <- <-. lia. }
  apply Forall_cons in Hl as [Hn Hl]. simpl in Hn.
  destruct (table !! k) as [e|] eqn:Ek; [by apply IH|].
  destruct (IH _ _ E Hl) as (H1 & H2 & H3); [unfold saturating_add; lia|].
  rewrite usage_insert in H1, H2, H3 by done. cbn [disk_usage] in H1, H2, H3.
  unfold saturating_add in *. lia.
Qed.

Lemma book_warm_up_ok l sm :
  Forall (fun e => 0 <= e.2) l -> books_ok sm ->
  let sm' := book_warm_up l sm in
  books_ok sm' /\ (exact sm -> fits sm' -> exact sm').
Proof.
  intros Hl Hb. cbv zeta. unfold book_warm_up. destruct l as [|x l]; [done|].
  pose proof (fun k => warm_up_lookup (x :: l) (cache_entries sm) 0 k) as Hk.
  revert Hl Hk. generalize (x :: l) as l'. clear x l. intros l Hl Hk.
  destruct (foldl warm_up_entry (cache_entries sm, 0) l) as [t rec] eqn:E.
  destruct (warm_up_fold _ _ _ _ _ E Hl ltac:(lia)) as (H1 & H2 & H3).
  pose proof (bk_total _ Hb) as Ht. unfold exact, fits. simpl in *. split.
  - split; simpl; [|unfold saturating_add; lia].
    intros k e He. rewrite Hk in He. destruct (cache_entries sm !! k) as [e'|] eqn:Ek.
    + injection He as <-. by apply (bk_entry _ Hb).
    + apply fmap_Some in He as (n & Hn & ->). simpl. split; [done|].
      apply fmap_Some in Hn as ([k' n'] & Hf & ->). apply List.find_some in Hf as [Hin _].
      rewrite Forall_forall in Hl. apply (Hl (k', n')). by apply list_elem_of_In.
  - unfold saturating_add. lia.
Qed.
End Books.

(** ** Interleavings *)

Section Interleaving.
Context {S R : Type} {engine : StorageEngine S R} {ord : HashOrder text CacheEntry}.
Context {hasher : DefaultHasher} (config : StorageManagerConfig).

(** The manager with the writes that are between the engine and their
    bookkeeping, each holding the mutation lock of its key, and the victims a
    cleanup round has selected and not handled yet. *)
Record MState : Type := mk_MState {
  ms : StorageManager S;
  booking : list (text * Z * Z);
  victims : list CacheEntry;
}.

Definition lock_free (k : text) (x : MState) : Prop :=
  mutation_shard k ∉ (fun b => mutation_shard b.1.1) <$> booking x.

(** One critical section of a write, a read, the warm-up or the cleanup.  Any
    other use of the engine may change its state at any time. *)
Inductive manager_step : MState -> MState -> Prop :=
| ms_engine x s :
    manager_step x (mk_MState (mk_StorageManager s (cache_entries (ms x)) (total_size (ms x)))
                      (booking x) (victims x))
| ms_write x k st range n s :
    lock_free k x -> 0 <= range.1 -> 0 <= n ->
    se_write k st range (sm_engine (ms x)) = (Ok n, s) ->
    manager_step x (mk_MState (mk_StorageManager s (cache_entries (ms x)) (total_size (ms x)))
                      (booking x ++ [(k, range.1, n)]) (victims x))
| ms_book x b1 k start n now b2 :
    booking x = b1 ++ (k, start, n) :: b2 ->
    manager_step x (mk_MState (book_write k start n now (ms x)) (b1 ++ b2) (victims x))
| ms_touch x k now :
    manager_step x (mk_MState (touch k now (ms x)) (booking x) (victims x))
| ms_warm_up x l :
    Forall (fun e => 0 <= e.2) l ->
    manager_step x (mk_MState (book_warm_up l (ms x)) (booking x) (victims x))
| ms_select x external_size :
    victims x = [] ->
    manager_step x (mk_MState (ms x) (booking x) (choose_victims config external_size (ms x)))
| ms_evict x e vs :
    victims x = e :: vs -> lock_free (ce_key e) x ->
    manager_step x (mk_MState (evict e (ms x)) (booking x) vs).

(** Runs whose states all satisfy [P]. *)
Inductive manager_run (P : MState -> Prop) : MState -> MState -> Prop :=
| mr_start x : P x -> manager_run P x x
| mr_step x y z : manager_run P x y -> manager_step y z -> P z -> manager_run P x z.

Definition start (s : S) : MState := mk_MState (new s) [] [].

Definition booking_ok (x : MState) : Prop :=
  NoDup ((fun b => mutation_shard b.1.1) <$> booking x)
  /\ Forall (fun b : text * Z * Z => 0 <= b.1.2 /\ 0 <= b.2) (booking x).

Lemma manager_step_ok x y :
  manager_step x y -> books_ok (ms x) -> booking_ok x ->
  books_ok (ms y) /\ booking_ok y /\ (exact (ms x) -> fits (ms y) -> exact (ms y)).
Proof.
  intros Hs Hb [Hnd Hpos]. unfold booking_ok.
  destruct Hs as [x s|x k st range n s Hf Hr Hn E|x b1 k st n now b2 E|x k now|x l Hl|x ext E|x e vs E Hf];
    cbn [ms booking victims] in *.
  - split_and!; try done. by apply books_engine.
  - split_and!; try done; [by apply books_engine| |].
    + rewrite fmap_app, NoDup_app. split_and!; [done| |apply NoDup_singleton].
      intros h Hh Hh'%list_elem_of_singleton. subst h. by apply Hf.
    + apply Forall_app. split; [done|]. by repeat constructor.
  - rewrite E in Hnd, Hpos.
    apply Forall_app in Hpos as [Hp1 [[? ?] Hp2]%Forall_cons]. simpl in *.
    destruct (book_write_ok k st n now (ms x)) as [? ?]; [done..|]. split_and!; try done.
    + rewrite fmap_app in Hnd |- *. rewrite fmap_cons in Hnd. rewrite <- Permutation_middle in Hnd. by apply NoDup_cons in Hnd as [_ ?].
    + by apply Forall_app.
  - destruct (touch_ok k now (ms x) Hb). split_and!; auto.
  - destruct (book_warm_up_ok l (ms x) Hl Hb). by split_and!.
  - by split_and!.
  - destruct (evict_ok e (ms x) Hb). split_and!; auto.
Qed.
End Interleaving.

(** ** A cleanup round *)

Definition sum_usage (l : list CacheEntry) : Z := foldr (fun e acc => disk_usage e + acc) 0 l.

Lemma sum_usage_app l1 l2 : sum_usage (l1 ++ l2) = sum_usage l1 + sum_usage l2.
Proof. induction l1; simpl; lia. Qed.

Lemma insert_by_access_perm e l : insert_by_access e l ≡ₚ e :: l.
Proof.
  induction l as [|x l IH]; simpl; [done|]. case_match; [done|]. rewrite IH. constructor.
Qed.

Lemma sort_by_access_perm_acc l acc :
  foldl (fun acc e => insert_by_access e acc) acc l ≡ₚ l ++ acc.
Proof.
  revert acc; induction l as [|e l IH]; intros acc; simpl; [done|].
  rewrite IH, insert_by_access_perm. by rewrite Permutation_middle.
Qed.
Lemma sort_by_access_perm l : sort_by_access l ≡ₚ l.
Proof. unfold sort_by_access. rewrite sort_by_access_perm_acc. by rewrite app_nil_r. Qed.

Definition older (x y : CacheEntry) : Prop := last_access x <= last_access y.

Lemma insert_by_access_sorted e l :
  StronglySorted older l -> StronglySorted older (insert_by_access e l).
Proof.
  induction 1 as [|x l Hl IH Hx]; simpl; [by repeat constructor|].
  destruct (Z.ltb_spec (last_access e) (last_access x)).
  - constructor; [by constructor|]. constructor; [unfold older; lia|].
    eapply Forall_impl; [exact Hx|]. unfold older. intros; simpl in *; lia.
  - constructor; [done|]. rewrite insert_by_access_perm. constructor; [done|done].
Qed.
Lemma sort_by_access_sorted l : StronglySorted older (sort_by_access l).
Proof.
  unfold sort_by_access. assert (H : StronglySorted older []) by constructor.
  revert H. generalize (@nil CacheEntry) as acc.
  induction l as [|e l IH]; intros acc H; simpl; [done|]. by apply IH, insert_by_access_sorted.
Qed.

#[export] Instance sum_usage_perm : Proper ((≡ₚ) ==> (=)) sum_usage.
Proof. induction 1; simpl; lia. Qed.

Lemma sum_usage_nonneg l : Forall (fun e => 0 <= disk_usage e) l -> 0 <= sum_usage l.
Proof. induction 1; simpl; lia. Qed.

(** The victims are a prefix; it is as short as the budget allows. *)
Lemma pick_spec config t n l :
  Forall (fun e => 0 <= disk_usage e) l -> sum_usage l <= t ->
  let p := pick config t n l in
  let over v := max_cache_size config < t - sum_usage v
                \/ max_file_count config < n - Z.of_nat (length v) in
  exists rest, l = p ++ rest
    /\ (rest = [] \/ ~ over p)
    /\ forall v1 e v2, p = v1 ++ e :: v2 -> over v1.
Proof.
  revert t n; induction l as [|e l IH]; intros t n Hl Ht; cbn [pick].
  { exists []. split_and!; [done|by left|]. intros v1 e v2 E. by destruct v1. }
  apply Forall_cons in Hl as [He Hl]. cbn [sum_usage foldr] in Ht. fold (sum_usage l) in Ht.
  pose proof (sum_usage_nonneg l Hl) as Hn.
  destruct (Z.leb_spec t (max_cache_size config)) as [Hm|Hm];
    destruct (Z.leb_spec n (max_file_count config)) as [Hc|Hc]; cbn [andb].
  { exists (e :: l). split_and!; [done|right; simpl; lia|]. intros v1 ? v2 E. by destruct v1. }
  all: destruct (IH (saturating_sub t (disk_usage e)) (n - 1)) as (rest & El & Hr & Hmin);
    [done|unfold saturating_sub; lia|]; exists rest; cbv zeta in Hr, Hmin.
  all: assert (Et : saturating_sub t (disk_usage e) = t - disk_usage e)
         by (unfold saturating_sub; lia); rewrite Et in *.
  all: split_and!; [by rewrite El at 1| |].
  all: try (destruct Hr as [?|Hr]; [by left|right]; cbn [sum_usage foldr length];
            fold (sum_usage (pick config (t - disk_usage e) (n - 1) l)); lia).
  all: intros v1 x v2 E; destruct v1 as [|y v1];
    [cbn [sum_usage foldr length]; lia|injection E as <- E];
    specialize (Hmin v1 x v2 E); cbn [sum_usage foldr length]; fold (sum_usage v1); lia.
Qed.

Section Round.
Context {S R : Type} {engine : StorageEngine S R} {ord : HashOrder text CacheEntry}
  {ordL : HashOrderLaws text CacheEntry}.
(** States of the engine in which removals succeed. *)
Context (good : S -> Prop).
Context (Hgood : forall k s, good s -> exists s', se_delete k s = (Ok tt, s') /\ good s').

Lemma values_perm (m : gmap text CacheEntry) : values m ≡ₚ (map_to_list m).*2.
Proof.
  unfold values. rewrite keys_order_perm.
  assert (Hl : forall p, p ∈ map_to_list m -> m !! p.1 = Some p.2).
  { intros [k e] Hp%elem_of_map_to_list. done. }
  revert Hl. induction (map_to_list m) as [|[k e] l IH]; intros Hl; [done|].
  pose proof (Hl (k, e) ltac:(by constructor)) as Hk. simpl in Hk |- *. rewrite Hk.
  constructor. apply IH.
  intros p Hp. apply Hl. by constructor.
Qed.

Lemma usage_values m : usage m = sum_usage (values m).
Proof.
  rewrite values_perm. unfold usage. rewrite map_fold_foldr.
  induction (map_to_list m) as [|[k e] l IH]; simpl; [done|]. by rewrite IH.
Qed.

Lemma size_values m : size m = length (values m).
Proof. by rewrite values_perm, length_fmap, length_map_to_list. Qed.

Lemma values_books (sm : StorageManager S) :
  books_ok sm ->
  NoDup (ce_key <$> values (cache_entries sm))
  /\ (forall e, e ∈ values (cache_entries sm) <-> cache_entries sm !! ce_key e = Some e)
  /\ Forall (fun e => 0 <= disk_usage e) (values (cache_entries sm)).
Proof.
  intros Hb. set (m := cache_entries sm).
  assert (Hel : forall e, e ∈ values m <-> m !! ce_key e = Some e).
  { intros e. rewrite values_perm, list_elem_of_fmap. split.
    - intros ([k e'] & -> & Hk%elem_of_map_to_list). simpl.
      by destruct (bk_entry _ Hb k e' Hk) as [-> _].
    - intros He. exists (ce_key e, e). split; [done|]. by apply elem_of_map_to_list. }
  split_and!; [|done|].
  - rewrite values_perm.
    assert (E : ce_key <$> (map_to_list m).*2 = (map_to_list m).*1).
    { assert (Hl : forall p, p ∈ map_to_list m -> ce_key p.2 = p.1).
      { intros [k e] Hp%elem_of_map_to_list. by apply (bk_entry _ Hb). }
      revert Hl. induction (map_to_list m) as [|[k e] l IH]; intros Hl; [done|]. simpl.
      f_equal; [apply (Hl (k, e)); constructor|]. apply IH. intros p Hp. apply Hl. by constructor. }
    rewrite E. apply NoDup_fst_map_to_list.
  - rewrite Forall_forall. intros e He%Hel. by apply (bk_entry _ Hb (ce_key e)).
Qed.

Lemma evict_good e (sm : StorageManager S) :
  good (sm_engine sm) -> cache_entries sm !! ce_key e = Some e ->
  exists s, good s /\ evict e sm
    = mk_StorageManager s (base.delete (ce_key e) (cache_entries sm))
        (saturating_sub (total_size sm) (disk_usage e)).
Proof.
  intros Hg Hk. destruct (Hgood (ce_key e) _ Hg) as (s & Ed & Hs). exists s. split; [done|].
  unfold evict, on_engine. rewrite Hk, Z.eqb_refl, Ed. simpl. by rewrite Hk.
Qed.

Lemma evict_all vs (sm : StorageManager S) :
  good (sm_engine sm) -> books_ok sm -> exact sm -> NoDup (ce_key <$> vs) ->
  (forall e, e ∈ vs -> cache_entries sm !! ce_key e = Some e) ->
  let sm' := foldl (fun sm e => evict e sm) sm vs in
  books_ok sm' /\ exact sm'
  /\ (forall k, cache_entries sm' !! k
        = if decide (k ∈ ce_key <$> vs) then None else cache_entries sm !! k)
  /\ usage (cache_entries sm') = usage (cache_entries sm) - sum_usage vs
  /\ Z.of_nat (size (cache_entries sm'))
     = Z.of_nat (size (cache_entries sm)) - Z.of_nat (length vs).
Proof.
  revert sm; induction vs as [|e vs IH]; intros sm Hg Hb He Hnd Hin; cbn [foldl].
  { split_and!; [done|done| |simpl; lia|simpl; lia].
    intros k. by rewrite decide_False by apply not_elem_of_nil. }
  rewrite fmap_cons in *. apply NoDup_cons in Hnd as [Hne Hnd].
  pose proof (Hin e ltac:(by constructor)) as Hk.
  destruct (evict_good e sm Hg Hk) as (s & Hs & E).
  destruct (remove_ok sm s _ _ Hb Hk) as [Hb1 He1]. rewrite <- E in Hb1, He1.
  destruct (IH (evict e sm)) as (Hb2 & He2 & Hl & Hu & Hz); [by rewrite E|done|auto|done| |].
  { intros e' He'. rewrite E. cbn [cache_entries]. rewrite lookup_delete_ne.
    - apply Hin. by constructor.
    - intros Heq. apply Hne. rewrite Heq. by apply list_elem_of_fmap_2. }
  split_and!; [done|done| | |].
  - intros k. rewrite Hl, E. cbn [cache_entries]. destruct (decide (k = ce_key e)) as [->|Hk'].
    + rewrite lookup_delete_eq. rewrite (decide_True (P := ce_key e ∈ ce_key e :: _)) by constructor.
      by case_decide.
    + rewrite lookup_delete_ne by done. do 2 case_decide; try done; exfalso; set_solver.
  - rewrite Hu, E. cbn [cache_entries]. rewrite (usage_delete _ _ _ Hk). simpl. lia.
  - rewrite Hz, E. cbn [cache_entries]. rewrite map_size_delete, Hk. simpl.
    assert (0 < size (cache_entries sm))%nat; [|lia].
    apply Nat.neq_0_lt_0. intros H0%map_size_empty_inv. by rewrite H0 in Hk.
Qed.

(** Evicting the first part [p] of a listing of the table: what is left is the
    rest of the listing. *)
Lemma evict_listed p rest (sm : StorageManager S) :
  good (sm_engine sm) -> books_ok sm -> exact sm -> p ++ rest ≡ₚ values (cache_entries sm) ->
  let sm' := foldl (fun sm e => evict e sm) sm p in
  exact sm'
  /\ (forall k e, cache_entries sm' !! k = Some e <-> cache_entries sm !! k = Some e /\ (e ∉ p))
  /\ (forall k e, cache_entries sm' !! k = Some e -> e ∈ rest)
  /\ usage (cache_entries sm') = usage (cache_entries sm) - sum_usage p
  /\ Z.of_nat (size (cache_entries sm'))
     = Z.of_nat (size (cache_entries sm)) - Z.of_nat (length p).
Proof.
  intros Hg Hb He Hp sm'. destruct (values_books sm Hb) as (Hnd & Hel & _).
  assert (Hin : forall e, e ∈ p ++ rest <-> cache_entries sm !! ce_key e = Some e)
    by (intros e; rewrite Hp; apply Hel).
  rewrite <- Hp, fmap_app, NoDup_app in Hnd. destruct Hnd as (Hnp & _ & _).
  destruct (evict_all p sm Hg Hb He Hnp) as (Hb' & He' & Hlk & Hu & Hz).
  { intros e Hep. apply Hin, elem_of_app. by left. }
  fold sm' in Hlk, Hu, Hz, He'.
  assert (Hmem : forall k e, cache_entries sm' !! k = Some e <->
            cache_entries sm !! k = Some e /\ (e ∉ p)).
  { intros k e. rewrite Hlk. case_decide as Hd; split.
    - done.
    - intros [Hk Hep]. apply list_elem_of_fmap in Hd as (e' & -> & Hp').
      assert (cache_entries sm !! ce_key e' = Some e') by (apply Hin, elem_of_app; by left).
      by simplify_eq.
    - intros Hk. split; [done|]. destruct (bk_entry _ Hb k e Hk) as [<- _].
      intros Hep. by apply Hd, list_elem_of_fmap_2.
    - by intros [? _]. }
  split_and!; try done. intros k e [Hk Hep]%Hmem. destruct (bk_entry _ Hb k e Hk) as [Ek _].
  subst k. by apply Hin, elem_of_app in Hk as [?|?].
Qed.
End Round.

(** ** A concrete instance for the witnesses: an engine that stores nothing *)

Module ManagerDemo.
Definition null_engine : StorageEngine unit unit := {|
  se_write k s range u := (Ok (Z.of_nat (length (stream_bytes s))), u);
  se_read k range u := (Ok tt, u);
  se_next rd u := (Ok None, u);
  se_get_size k u := (Ok None, u);
  se_check_range k range u := (Ok false, u);
  se_delete k u := (Ok tt, u);
  se_record_upstream_meta k m u := (Ok tt, u);
  se_upstream_meta k u := (Ok upstream_meta_default, u);
  se_enumerate u := (Ok [([x61], 5); ([x62], 7); ([x61], 9)], u);
|}.
Definition demo_hasher : DefaultHasher := fun k => Z.of_nat (length k).
Definition demo_ord : HashOrder text CacheEntry := sorted_order text CacheEntry.
Definition demo_ordL : @HashOrderLaws text CacheEntry _ _ demo_ord := sorted_order_laws text CacheEntry.
Definition A : text := [x61].
Definition B : text := [x62].
Definition demo_config : StorageManagerConfig := mk_StorageManagerConfig 10 3 60000 [].
(** Two entries, the first one older. *)
Definition demo_sm : StorageManager unit :=
  mk_StorageManager tt {[A := mk_CacheEntry A 8 1; B := mk_CacheEntry B 6 2]} 14.
Lemma demo_sm_ok : books_ok demo_sm.
Proof.
  split; [|vm_compute; split; discriminate]. intros k e. cbn [cache_entries demo_sm].
  rewrite lookup_insert_Some, lookup_singleton_Some.
  intros [[<- <-]|[_ [<- <-]]]; simpl; split; (done || lia).
Qed.
End ManagerDemo.

Module ManagerClaims.
Import ManagerDemo.

(** C40: the bookkeeping survives every interleaving of writes, reads, the
    warm-up and cleanup rounds, whatever the engine does: the table is keyed by
    its entries, at most one write per lock shard is between the engine and its
    bookkeeping, the recorded total never exceeds the sum of the entries, and
    it is exactly that sum as long as the sum fits in 64 bits. *)
Theorem bookkeeping_sound {S R : Type} {engine : StorageEngine S R}
    {ord : HashOrder text CacheEntry} {hasher : DefaultHasher} (config : StorageManagerConfig)
    (s : S) (P : MState -> Prop) (x : MState) :
  manager_run config P (start s) x ->
  (forall k e, cache_entries (ms x) !! k = Some e -> ce_key e = k)
  /\ NoDup ((fun b => mutation_shard b.1.1) <$> booking x)
  /\ 0 <= total_size (ms x) <= usage (cache_entries (ms x))
  /\ ((forall y, P y -> fits (ms y)) -> total_size (ms x) = usage (cache_entries (ms x))).
Proof.
  intros Hr.
  assert (H : books_ok (ms x) /\ booking_ok x
              /\ ((forall y, P y -> fits (ms y)) -> exact (ms x))).
  { remember (start s) as x0 eqn:E0.
    induction Hr as [x0 HP|x0 y z Hr IH Hs HP]; [subst x0|].
    - split_and!; [|split; constructor|done]. split; [|done]. intros k e. simpl.
      by rewrite lookup_empty.
    - destruct (IH E0) as (Hb & Hk & He).
      destruct (manager_step_ok config y z Hs Hb Hk) as (? & ? & Hx). split_and!; [done|done|].
      intros Hf. apply Hx; [by apply He|by apply Hf]. }
  destruct H as (Hb & [Hk _] & He). split_and!; try done; try apply (bk_total _ Hb).
  intros k e Hke. by apply (bk_entry _ Hb).
Qed.

Definition demo_x : MState := mk_MState (new tt) [(A, 0, 5)] [].
Lemma bookkeeping_sound_witness :
  let sm := book_write A 0 5 1 (new tt) in
  0 <= total_size sm <= usage (cache_entries sm) /\ total_size sm = 5.
Proof.
  cbv zeta. split; [|reflexivity].
  apply (@bookkeeping_sound unit unit null_engine demo_ord demo_hasher demo_config tt
           (fun _ => True) (mk_MState (book_write A 0 5 1 (new tt)) [] [])).
  eapply mr_step; [eapply mr_step; [by apply mr_start| |exact I]| |exact I].
  - eapply (ms_write demo_config (start tt) A [Ok [x61; x61; x61; x61; x61]] (0, 9) 5 tt);
      [apply not_elem_of_nil|simpl; lia|lia|reflexivity].
  - exact (ms_book demo_config demo_x [] A 0 5 1 [] eq_refl).
Defined.

(** C20: a cleanup round that nothing interrupts and whose removals succeed
    removes exactly its victims and keeps the books exact; the victims are the
    least recently used entries, no fewer could be removed, and afterwards
    either both budgets hold, or nothing is left, or the round did nothing
    because the external caches alone exceed the budget. *)
Theorem cleanup_round_correct {S R : Type} {engine : StorageEngine S R}
    {ord : HashOrder text CacheEntry} {ordL : HashOrderLaws text CacheEntry}
    (good : S -> Prop) (config : StorageManagerConfig) (external : Z) (sm : StorageManager S) :
  (forall k s, good s -> exists s', se_delete k s = (Ok tt, s') /\ good s') ->
  good (sm_engine sm) -> books_ok sm -> exact sm -> 0 <= external ->
  total_size sm + external <= u64_max ->
  let vs := choose_victims config external sm in
  let sm' := cleanup_round config external sm in
  let over total count := max_cache_size config < total + external
                          \/ max_file_count config < count in
  (forall k e, cache_entries sm' !! k = Some e <-> cache_entries sm !! k = Some e /\ (e ∉ vs))
  /\ exact sm'
  /\ (forall v k e, v ∈ vs -> cache_entries sm' !! k = Some e -> last_access v <= last_access e)
  /\ (forall v1 e v2, vs = v1 ++ e :: v2 ->
        over (usage (cache_entries sm) - sum_usage v1)
             (Z.of_nat (size (cache_entries sm)) - Z.of_nat (length v1)))
  /\ (~ over (usage (cache_entries sm')) (Z.of_nat (size (cache_entries sm')))
      \/ cache_entries sm' = ∅
      \/ (sm' = sm /\ max_cache_size config < external)).
Proof.
  intros Hgood Hg Hb He Hx Hfit vs sm' over.
  destruct (values_books sm Hb) as (Hnd & Hel & Hpos).
  set (l := sort_by_access (values (cache_entries sm))).
  assert (Hperm : l ≡ₚ values (cache_entries sm)) by apply sort_by_access_perm.
  unfold vs, sm', cleanup_round, choose_victims in *. clear vs sm'.
  assert (Ec : saturating_add (total_size sm) external = total_size sm + external)
    by (unfold saturating_add; lia). rewrite Ec.
  match goal with |- context [if ?b then _ else _] => destruct b eqn:Eb end.
  { simpl. split_and!; [|done|by intros ? ? ? ?%not_elem_of_nil| |].
    - intros k e. split; [|by intros [? _]]. intros ?. split; [done|apply not_elem_of_nil].
    - intros v1 e v2 E. by destruct v1.
    - apply orb_true_iff in Eb as [[E1 E2]%andb_true_iff|[E1 E2]%andb_true_iff].
      + right; right. split; [done|lia].
      + left. unfold over, exact in *. lia. }
  destruct (pick_spec config (total_size sm + external) (Z.of_nat (size (cache_entries sm))) l)
    as (rest & El & Hrest & Hmin).
  { by rewrite Hperm. }
  { rewrite Hperm, <- usage_values, <- He. lia. }
  cbv zeta in Hrest, Hmin. fold l in Hrest, Hmin |- *. set (p := pick _ _ _ l) in *. clearbody p.
  destruct (evict_listed good Hgood p rest sm Hg Hb He) as (He' & Hmem & Hr & Hu & Hz);
    [by rewrite <- El|].
  set (sm' := foldl _ sm p) in *. split_and!; [done|done| | |].
  - intros v k e Hv Hk. pose proof (sort_by_access_sorted (values (cache_entries sm))) as Hs.
    fold l in Hs. rewrite El in Hs. eapply (StronglySorted_app_1_elem_of older p rest); eauto.
  - intros v1 e v2 E. destruct (Hmin v1 e v2 E); unfold over, exact in *; lia.
  - destruct Hrest as [->|Hw].
    + right; left. apply map_eq. intros k. rewrite lookup_empty.
      destruct (cache_entries sm' !! k) as [e|] eqn:Ek; [|done].
      by apply Hr, not_elem_of_nil in Ek.
    + left. unfold over, exact in *. rewrite Hu, Hz. lia.
Qed.

Lemma cleanup_round_correct_witness :
  cache_entries (@cleanup_round unit unit null_engine demo_ord demo_config 2 demo_sm) !! A = None
  /\ exact (@cleanup_round unit unit null_engine demo_ord demo_config 2 demo_sm).
Proof.
  split; [vm_compute; reflexivity|].
  apply (@cleanup_round_correct unit unit null_engine demo_ord demo_ordL (fun _ => True));
    [by intros k []; exists tt|exact I|apply demo_sm_ok|vm_compute; reflexivity|lia|simpl; lia].
Defined.

(** The warm-up gives every key the engine enumerates an entry of the
    enumerated size that is older than any access, leaves the keys already in
    the table alone, and keeps the total exact; a failing enumeration changes
    no book. *)
Theorem warm_up_correct {S R : Type} {engine : StorageEngine S R} (sm : StorageManager S) :
  books_ok sm -> exact sm ->
  let sm' := (start_index_warm_up sm).2 in
  match se_enumerate (sm_engine sm) with
  | (Ok l, s) =>
      Forall (fun e => 0 <= e.2) l -> fits sm' ->
      exact sm' /\ sm_engine sm' = s
      /\ forall k, cache_entries sm' !! k
           = match cache_entries sm !! k with
             | Some e => Some e
             | None => (fun size => mk_CacheEntry k size UNIX_EPOCH) <$> listed l k
             end
  | (Err _, s) => sm' = mk_StorageManager s (cache_entries sm) (total_size sm)
  end.
Proof.
  intros Hb He. cbv zeta. unfold start_index_warm_up, on_engine.
  destruct (se_enumerate (sm_engine sm)) as [[l|e] s]; cbn [snd]; [|done]. intros Hl Hf.
  set (sm1 := mk_StorageManager s (cache_entries sm) (total_size sm)) in *.
  destruct (book_warm_up_ok l sm1 Hl (books_engine sm s Hb)) as [_ Hx]. split; [by apply Hx|].
  unfold book_warm_up in *. destruct l as [|x l]; [split; [done|]|].
  { intros k. simpl. by destruct (cache_entries sm !! k). }
  pose proof (fun k => warm_up_lookup (x :: l) (cache_entries sm1) 0 k) as Hk.
  destruct (foldl warm_up_entry (cache_entries sm1, 0) (x :: l)) as [t rec].
  split; [done|]. exact Hk.
Qed.

Lemma warm_up_correct_witness :
  cache_entries (@start_index_warm_up unit unit null_engine demo_sm).2 !! A = Some (mk_CacheEntry A 8 1)
  /\ cache_entries (@start_index_warm_up unit unit null_engine (new tt)).2 !! A
     = Some (mk_CacheEntry A 5 0)
  /\ exact (@start_index_warm_up unit unit null_engine (new tt)).2.
Proof.
  split; [vm_compute; reflexivity|]. split; [vm_compute; reflexivity|].
  refine (proj1 (@warm_up_correct unit unit null_engine (new tt) _ _ _ _)).
  - split; [intros k e; simpl; by rewrite lookup_empty|vm_compute; split; discriminate].
  - reflexivity.
  - repeat constructor; simpl; lia.
  - vm_compute. discriminate.
Defined.

(** When the external caches alone exceed the byte budget and the table
    holds one entry more than allowed, a round does not stop at the file limit:
    it removes every entry. *)
Theorem external_overflow_evicts_all {S R : Type} {engine : StorageEngine S R}
    {ord : HashOrder text CacheEntry} {ordL : HashOrderLaws text CacheEntry}
    (good : S -> Prop) (config : StorageManagerConfig) (external : Z) (sm : StorageManager S) :
  (forall k s, good s -> exists s', se_delete k s = (Ok tt, s') /\ good s') ->
  good (sm_engine sm) -> books_ok sm -> exact sm ->
  total_size sm + external <= u64_max -> 0 <= max_cache_size config < external ->
  Z.of_nat (size (cache_entries sm)) = max_file_count config + 1 ->
  cache_entries (cleanup_round config external sm) = ∅.
Proof.
  intros Hgood Hg Hb He Hfit Hx Hn.
  destruct (values_books sm Hb) as (Hnd & Hel & Hpos).
  set (l := sort_by_access (values (cache_entries sm))).
  assert (Hperm : l ≡ₚ values (cache_entries sm)) by apply sort_by_access_perm.
  pose proof (bk_total _ Hb) as Ht.
  unfold cleanup_round, choose_victims. fold l.
  assert (Ec : saturating_add (total_size sm) external = total_size sm + external)
    by (unfold saturating_add; lia). rewrite Ec.
  rewrite (proj2 (Z.leb_gt (Z.of_nat (size (cache_entries sm))) (max_file_count config))) by lia.
  rewrite !andb_false_r. cbn [orb].
  destruct (pick_spec config (total_size sm + external) (Z.of_nat (size (cache_entries sm))) l)
    as (rest & El & Hrest & _).
  { by rewrite Hperm. }
  { rewrite Hperm, <- usage_values, <- He. lia. }
  cbv zeta in Hrest. set (p := pick _ _ _ l) in *. clearbody p.
  assert (rest = []) as ->.
  { destruct Hrest as [?|Hw]; [done|]. exfalso. apply Hw. left.
    assert (sum_usage p <= usage (cache_entries sm)); [|unfold exact in He; lia].
    rewrite usage_values, <- Hperm, El, sum_usage_app.
    assert (0 <= sum_usage rest); [|lia]. apply sum_usage_nonneg.
    rewrite <- Hperm, El, Forall_app in Hpos. apply Hpos. }
  rewrite app_nil_r in El. subst p.
  destruct (evict_all good Hgood l sm Hg Hb He) as (_ & _ & Hlk & _).
  { by rewrite Hperm. }
  { intros e Hl. apply Hel. by rewrite <- Hperm. }
  apply map_eq. intros k. rewrite lookup_empty, Hlk. case_decide as Hd; [done|].
  destruct (cache_entries sm !! k) as [e|] eqn:Ek; [|done]. exfalso. apply Hd.
  destruct (bk_entry _ Hb k e Ek) as [<- _]. apply list_elem_of_fmap_2. rewrite Hperm. by apply Hel.
Qed.

Lemma external_overflow_evicts_all_witness :
  cache_entries (@cleanup_round unit unit null_engine demo_ord
                   (mk_StorageManagerConfig 100 1 60000 []) 101 demo_sm) = ∅.
Proof.
  apply (@external_overflow_evicts_all unit unit null_engine demo_ord demo_ordL (fun _ => True));
    [by intros k []; exists tt|exact I|apply demo_sm_ok|vm_compute; reflexivity|simpl; lia
    |simpl; lia|vm_compute; reflexivity].
Defined.
End ManagerClaims.
