(* ===== verification/SingleFlight.v ===== *)
(** * Coalescing of identical upstream fetches ([handlers/single_flight.rs])

    Requests for the same key and interval elect one leader; the others wait
    on a [tokio::sync::watch] channel until the leader's guard is dropped.

    A channel has the value it was last sent and a count of its receivers: a
    [send] without receivers fails and leaves the value alone, a subscription
    made before a [send] sees it.  Dropping a guard happens in two steps (the
    removal under the lock, then the broadcast) between which other tasks may
    run. *)

From S2P Require Import Prelude Bytes.

(** [FOLLOWER_WAIT_LIMIT] in milliseconds. *)
Definition FOLLOWER_WAIT_LIMIT : Z := 30000.

Definition Key : Type := text * Z * Z.

(** A watch channel. *)
Record channel : Type := mk_channel { ch_value : bool; ch_receivers : nat }.

(** How far the destructor of a guard has come. *)
Inductive phase : Type := Held | Unregistered.
#[export] Instance phase_eq_dec : EqDecision phase.
Proof. solve_decision. Defined.

Record LeaderGuard : Type := mk_LeaderGuard {
  g_registry : bool;
  g_key : Key;
  g_done : option nat;
  g_phase : phase;
}.

(** The registry ([in_flight] and whether its mutex is poisoned), the channels
    (a channel is named by a number), the guards that are not dropped yet and
    the followers that hold a receiver. *)
Record SingleFlight : Type := mk_SingleFlight {
  poisoned : bool;
  in_flight : gmap Key nat;
  channels : gmap nat channel;
  guards : gmap nat LeaderGuard;
  followers : gmap nat nat;
  next : nat;
}.

Definition new : SingleFlight := mk_SingleFlight false ∅ ∅ ∅ ∅ 0.

(** The result names the guard or the follower that was created. *)
Inductive Join : Type := Leader (g : nat) | Follower (f : nat).

Definition subscribe (ch : channel) : channel := mk_channel (ch_value ch) (S (ch_receivers ch)).
Definition send_true (ch : channel) : channel :=
  if (ch_receivers ch =? 0)%nat then ch else mk_channel true (ch_receivers ch).
Definition unsubscribe (ch : channel) : channel := mk_channel (ch_value ch) (pred (ch_receivers ch)).

Definition join (k : Key) (sf : SingleFlight) : Join * SingleFlight :=
  let n := next sf in
  if poisoned sf then
    (Leader n,
     mk_SingleFlight true (in_flight sf) (channels sf)
       (<[n := mk_LeaderGuard false k None Held]> (guards sf)) (followers sf) (S n))
  else
    match in_flight sf !! k with
    | Some c =>
        (Follower n,
         mk_SingleFlight false (in_flight sf) (alter subscribe c (channels sf)) (guards sf)
           (<[n := c]> (followers sf)) (S n))
    | None =>
        (Leader n,
         mk_SingleFlight false (<[k := n]> (in_flight sf)) (<[n := mk_channel false 0]> (channels sf))
           (<[n := mk_LeaderGuard true k (Some n) Held]> (guards sf)) (followers sf) (S n))
    end.

(** [Drop for LeaderGuard], first step: leave the table. *)
Definition drop_unregister (g : nat) (sf : SingleFlight) : SingleFlight :=
  match guards sf !! g with
  | Some guard =>
      mk_SingleFlight (poisoned sf)
        (if g_registry guard && negb (poisoned sf)
         then base.delete (g_key guard) (in_flight sf) else in_flight sf)
        (channels sf)
        (<[g := mk_LeaderGuard (g_registry guard) (g_key guard) (g_done guard) Unregistered]>
           (guards sf))
        (followers sf) (next sf)
  | None => sf
  end.

(** Second step: broadcast; the guard is gone afterwards. *)
Definition drop_broadcast (g : nat) (sf : SingleFlight) : SingleFlight :=
  match guards sf !! g with
  | Some guard =>
      mk_SingleFlight (poisoned sf) (in_flight sf)
        (match g_done guard with
         | Some c => alter send_true c (channels sf)
         | None => channels sf
         end)
        (base.delete g (guards sf)) (followers sf) (next sf)
  | None => sf
  end.

Definition drop (g : nat) (sf : SingleFlight) : SingleFlight :=
  drop_broadcast g (drop_unregister g sf).

(** [Follower::wait]: the current value first, then the notification, unless
    the limit passes before it comes. *)
Definition wait (current : bool) (notified : bool) : bool := if current then true else notified.

(** The end of a wait gives the receiver back. *)
Definition leave (f : nat) (sf : SingleFlight) : SingleFlight :=
  match followers sf !! f with
  | Some c =>
      mk_SingleFlight (poisoned sf) (in_flight sf) (alter unsubscribe c (channels sf)) (guards sf)
        (base.delete f (followers sf)) (next sf)
  | None => sf
  end.

(** Whether a wait on the channel [c] ends without the limit: the leader has
    broadcast, or no sender is left. *)
Definition value_of (sf : SingleFlight) (c : nat) : bool :=
  match channels sf !! c with Some ch => ch_value ch | None => false end.

Inductive sf_step : SingleFlight -> SingleFlight -> Prop :=
| sf_join k sf : sf_step sf (join k sf).2
| sf_unregister g guard sf :
    guards sf !! g = Some guard -> g_phase guard = Held -> sf_step sf (drop_unregister g sf)
| sf_broadcast g guard sf :
    guards sf !! g = Some guard -> g_phase guard = Unregistered -> sf_step sf (drop_broadcast g sf)
| sf_leave f sf : sf_step sf (leave f sf)
| sf_poison sf :
    sf_step sf (mk_SingleFlight true (in_flight sf) (channels sf) (guards sf) (followers sf) (next sf)).

Inductive sf_reachable : SingleFlight -> Prop :=
| sfr_new : sf_reachable new
| sfr_step sf sf' : sf_reachable sf -> sf_step sf sf' -> sf_reachable sf'.

(** ** The invariant *)

Definition waiting (fs : gmap nat nat) (c : nat) : nat :=
  size (base.filter (fun p => p.2 = c) fs).

Lemma waiting_insert fs f c c' :
  fs !! f = None ->
  waiting (<[f := c]> fs) c' = if decide (c = c') then S (waiting fs c') else waiting fs c'.
Proof.
  intros Hf. unfold waiting. case_decide as Hc.
  - rewrite map_filter_insert_True by done. rewrite map_size_insert_None; [done|].
    apply map_lookup_filter_None. by left.
  - rewrite map_filter_insert_False by done. by rewrite delete_id.
Qed.

Lemma waiting_delete fs f c c' :
  fs !! f = Some c ->
  waiting (base.delete f fs) c' = if decide (c = c') then pred (waiting fs c') else waiting fs c'.
Proof.
  intros Hf. unfold waiting. rewrite map_filter_delete. case_decide as Hc.
  - rewrite map_size_delete_Some; [done|]. exists c. by apply map_lookup_filter_Some.
  - rewrite delete_id; [done|]. apply map_lookup_filter_None. right. intros c0 ? ?. simpl in *. congruence.
Qed.

Lemma waiting_pos fs f c : fs !! f = Some c -> (0 < waiting fs c)%nat.
Proof.
  intros Hf. unfold waiting. apply Nat.neq_0_lt_0. intros H%map_size_empty_inv.
  assert (E : base.filter (fun p => p.2 = c) fs !! f = Some c) by (by apply map_lookup_filter_Some).
  by rewrite H in E.
Qed.

Record sf_inv (sf : SingleFlight) : Prop := {
  si_fresh : (forall g, is_Some (guards sf !! g) -> (g < next sf)%nat)
             /\ (forall f, is_Some (followers sf !! f) -> (f < next sf)%nat)
             /\ (forall c, is_Some (channels sf !! c) -> (c < next sf)%nat);
  si_guard g guard : guards sf !! g = Some guard ->
    g_done guard = (if g_registry guard then Some g else None)
    /\ (g_registry guard = true -> is_Some (channels sf !! g));
  si_table k c : poisoned sf = false ->
    in_flight sf !! k = Some c
    <-> exists guard, guards sf !! c = Some guard /\ g_key guard = k
        /\ g_registry guard = true /\ g_phase guard = Held;
  si_receivers c ch : channels sf !! c = Some ch -> ch_receivers ch = waiting (followers sf) c;
  si_follower f c : followers sf !! f = Some c ->
    is_Some (channels sf !! c)
    /\ (value_of sf c = true \/ exists guard, guards sf !! c = Some guard /\ g_registry guard = true);
  si_value c guard : value_of sf c = true -> guards sf !! c = Some guard -> False;
}.

Lemma sf_inv_new : sf_inv new.
Proof.
  split; simpl.
  - split_and!; intros ?; rewrite lookup_empty; by intros [? [=]].
  - intros *. by rewrite lookup_empty.
  - intros k c _. rewrite lookup_empty. split; [done|]. intros (g & E & _). by rewrite lookup_empty in E.
  - intros *. by rewrite lookup_empty.
  - intros *. by rewrite lookup_empty.
  - intros c guard _. by rewrite lookup_empty.
Qed.

Lemma sf_inv_poison sf :
  sf_inv sf ->
  sf_inv (mk_SingleFlight true (in_flight sf) (channels sf) (guards sf) (followers sf) (next sf)).
Proof. intros [? ? ? ? ? ?]. by split. Qed.

(** A channel that changes without losing a broadcast keeps the invariant. *)
Lemma value_alter (chs : gmap nat channel) (h : channel -> channel) (c c' : nat) (b : bool) :
  (forall ch, ch_value (h ch) = b || ch_value ch) ->
  match alter h c chs !! c' with Some ch => ch_value ch | None => false end
  = match chs !! c' with
    | Some ch => (if decide (c = c') then b else false) || ch_value ch
    | None => false
    end.
Proof.
  intros Hh. destruct (decide (c = c')) as [<-|Hne].
  - rewrite lookup_alter_eq. destruct (chs !! c); simpl; [apply Hh|done].
  - by rewrite lookup_alter_ne.
Qed.

(** What is not yet in use at the next number. *)
Lemma sf_inv_next sf :
  sf_inv sf ->
  guards sf !! next sf = None /\ channels sf !! next sf = None
  /\ followers sf !! next sf = None /\ (forall f, followers sf !! f <> Some (next sf)).
Proof.
  intros [(Fg & Ff & Fc) _ _ _ Hw _].
  assert (Nc : channels sf !! next sf = None)
    by (apply eq_None_not_Some; intros H; specialize (Fc _ H); lia).
  split_and!; [|done| |].
  - apply eq_None_not_Some. intros H. specialize (Fg _ H). lia.
  - apply eq_None_not_Some. intros H. specialize (Ff _ H). lia.
  - intros f Hf. destruct (Hw f _ Hf) as [[ch Hch] _]. congruence.
Qed.

Lemma sf_inv_join_poisoned k sf :
  sf_inv sf -> poisoned sf = true -> sf_inv (join k sf).2.
Proof.
  intros Hi Ep. destruct (sf_inv_next sf Hi) as (Ng & Nc & Nf & Nw).
  pose proof Hi as [(Fg & Ff & Fc) Hg Ht Hr Hw Hv]. unfold join. rewrite Ep.
  split; cbn -[lookup insert]; unfold value_of in *; cbn -[lookup insert] in *.
  - split_and!; intros x Hx; [|apply Nat.lt_lt_succ_r; auto..].
    rewrite lookup_insert_is_Some in Hx. destruct Hx as [<-|[_ Hx]]; [lia|specialize (Fg _ Hx); lia].
  - intros g guard. rewrite lookup_insert_Some. intros [[<- <-]|[_ ?]]; [done|by apply Hg].
  - done.
  - done.
  - intros f c Hf. destruct (Hw f c Hf) as [? [?|(gd & ? & ?)]]; [auto|].
    split; [done|]. right. exists gd. rewrite lookup_insert_ne; [done|congruence].
  - intros c guard Hc. rewrite lookup_insert_Some. intros [[<- <-]|[_ ?]]; [|by eapply Hv].
    by rewrite Nc in Hc.
Qed.

Lemma sf_inv_join_follower k c sf :
  sf_inv sf -> poisoned sf = false -> in_flight sf !! k = Some c -> sf_inv (join k sf).2.
Proof.
  intros Hi Ep Ek. destruct (sf_inv_next sf Hi) as (Ng & Nc & Nf & Nw).
  pose proof Hi as [(Fg & Ff & Fc) Hg Ht Hr Hw Hv]. unfold join. rewrite Ep, Ek.
  apply (Ht k c Ep) in Ek as (gd & Hgd & Hk & Hreg & Hph).
  destruct (Hg c gd Hgd) as [_ Hch]. specialize (Hch Hreg).
  assert (Hval : forall c', value_of (mk_SingleFlight false (in_flight sf)
              (alter subscribe c (channels sf)) (guards sf) (<[next sf := c]> (followers sf))
              (S (next sf))) c' = value_of sf c').
  { intros c'. unfold value_of. simpl. rewrite (value_alter _ _ _ _ false) by done.
    destruct (channels sf !! c'); [by case_decide|done]. }
  split; cbn -[lookup insert alter value_of].
  - split_and!; intros x Hx; [apply Nat.lt_lt_succ_r; auto| |].
    + rewrite lookup_insert_is_Some in Hx. destruct Hx as [<-|[_ Hx]]; [lia|specialize (Ff _ Hx); lia].
    + rewrite lookup_alter_is_Some in Hx. specialize (Fc _ Hx). lia.
  - intros g guard Hgg. destruct (Hg g guard Hgg). split; [done|]. by rewrite lookup_alter_is_Some.
  - intros k' c' _. by apply Ht.
  - intros c' ch Hc'. rewrite waiting_insert by done.
    destruct (decide (c = c')) as [<-|Hne].
    + rewrite lookup_alter_eq in Hc'. apply fmap_Some in Hc' as (ch0 & Hch0 & ->). simpl.
      f_equal. by apply Hr.
    + rewrite lookup_alter_ne in Hc' by done. by apply Hr.
  - intros f c'. rewrite lookup_alter_is_Some, Hval, lookup_insert_Some.
    intros [[<- <-]|[_ Hf]]; [|by apply (Hw f)]. split; [done|]. right. by exists gd.
  - intros c' guard. rewrite Hval. apply Hv.
Qed.

Lemma sf_inv_join_leader k sf :
  sf_inv sf -> poisoned sf = false -> in_flight sf !! k = None -> sf_inv (join k sf).2.
Proof.
  intros Hi Ep Ek. destruct (sf_inv_next sf Hi) as (Ng & Nc & Nf & Nw).
  pose proof Hi as [(Fg & Ff & Fc) Hg Ht Hr Hw Hv]. unfold join. rewrite Ep, Ek.
  split; cbn -[lookup insert]; unfold value_of in *; cbn -[lookup insert] in *.
  - split_and!; intros x Hx; [| |];
      try (rewrite lookup_insert_is_Some in Hx; destruct Hx as [<-|[_ Hx]]; [lia|]);
      [specialize (Fg _ Hx)|specialize (Ff _ Hx)|specialize (Fc _ Hx)]; lia.
  - intros g guard. rewrite lookup_insert_Some. intros [[<- <-]|[Hne Hgg]].
    + split; [done|]. intros _. rewrite lookup_insert_eq. eauto.
    + destruct (Hg g guard Hgg) as [? Hs]. split; [done|]. intros Hreg.
      rewrite lookup_insert_is_Some. right. auto.
  - intros k' c' _. rewrite lookup_insert_Some. split.
    + intros [[<- <-]|[Hne Hk']].
      * eexists. by rewrite lookup_insert_eq.
      * apply (Ht k' c' Ep) in Hk' as (gd & Hgd & ?). exists gd.
         rewrite lookup_insert_ne; [done|]. intros <-. congruence.
    + intros (gd & Hgd & Hk & Hreg & Hph). apply lookup_insert_Some in Hgd as [[<- <-]|[Hne Hgd]].
      * left. by simpl in Hk.
      * right. assert (Hin : in_flight sf !! k' = Some c') by (apply Ht; eauto).
         split; [congruence|done].
  - intros c ch. rewrite lookup_insert_Some. intros [[<- <-]|[_ ?]]; [|by apply Hr]. simpl.
    symmetry. unfold waiting. rewrite map_size_empty_iff. apply map_empty. intros f.
    apply map_lookup_filter_None. right. intros c Hc Heq. simpl in Heq. subst c. by eapply Nw.
  - intros f c Hf. assert (Hne : next sf <> c) by (intros <-; by eapply Nw).
    rewrite !lookup_insert_ne by done. by apply (Hw f).
  - intros c guard. destruct (decide (next sf = c)) as [<-|Hne].
    + by rewrite lookup_insert_eq.
    + rewrite !lookup_insert_ne by done. apply Hv.
Qed.

Lemma sf_inv_join k sf : sf_inv sf -> sf_inv (join k sf).2.
Proof.
  intros Hi. destruct (poisoned sf) eqn:Ep; [by apply sf_inv_join_poisoned|].
  destruct (in_flight sf !! k) eqn:Ek; [by eapply sf_inv_join_follower|by apply sf_inv_join_leader].
Qed.

Lemma sf_inv_unregister g gd sf :
  guards sf !! g = Some gd -> g_phase gd = Held -> sf_inv sf -> sf_inv (drop_unregister g sf).
Proof.
  intros Eg Eph Hi. unfold drop_unregister. rewrite Eg.
  pose proof Hi as [(Fg & Ff & Fc) Hg Ht Hr Hw Hv]. destruct (Hg g gd Eg) as [Hd Hc].
  split; cbn -[lookup insert value_of]; unfold value_of in *; cbn -[lookup insert] in *.
  - split_and!; try done. intros x. rewrite lookup_insert_is_Some. intros [<-|[_ ?]]; eauto.
  - intros g' guard. rewrite lookup_insert_Some. intros [[<- <-]|[_ ?]]; [done|by apply Hg].
  - intros k c Hp. rewrite Hp. simpl. rewrite andb_true_r. split.
    + intros Hk. destruct (g_registry gd) eqn:Er.
      * apply lookup_delete_Some in Hk as [Hne Hk]. apply (Ht k c Hp) in Hk as (gd' & Hgd' & ?).
        exists gd'. rewrite lookup_insert_ne; [done|]. intros <-. destruct H. simplify_eq.
      * apply (Ht k c Hp) in Hk as (gd' & Hgd' & Hk & Hreg & ?). exists gd'.
        rewrite lookup_insert_ne; [done|]. intros <-. congruence.
    + intros (gd' & Hgd' & Hk & Hreg & Hph). apply lookup_insert_Some in Hgd' as [[<- <-]|[Hne Hgd']].
      { by simpl in Hph. }
      assert (Hin : in_flight sf !! k = Some c) by (apply Ht; eauto).
      destruct (g_registry gd) eqn:Er; [|done]. apply lookup_delete_Some. split; [|done].
      intros <-. assert (in_flight sf !! g_key gd = Some g) by (apply Ht; eauto). congruence.
  - done.
  - intros f c Hf. destruct (Hw f c Hf) as [? [?|(gd' & Hgd' & ?)]]; [auto|]. split; [done|]. right.
    destruct (decide (g = c)) as [<-|Hne].
    + eexists. rewrite lookup_insert_eq. split; [done|]. simpl. congruence.
    + exists gd'. by rewrite lookup_insert_ne.
  - intros c guard Hval. rewrite lookup_insert_Some. intros [[<- <-]|[_ ?]]; eauto.
Qed.

(** Sending through the channel [g] when the guard is registered: no channel
    comes or goes, the receivers stay, and the value is set if there are any. *)
Lemma broadcast_channels (registered : bool) g (chs : gmap nat channel) c ch :
  (if registered then alter send_true g chs else chs) !! c = Some ch ->
  exists ch0, chs !! c = Some ch0 /\ ch_receivers ch = ch_receivers ch0
    /\ ch_value ch = (if decide (c = g /\ registered = true /\ ch_receivers ch0 <> 0%nat)
                      then true else ch_value ch0).
Proof.
  destruct registered; [destruct (decide (g = c)) as [<-|Hne]|].
  - rewrite lookup_alter_eq. intros (ch0 & E0 & ->)%fmap_Some. exists ch0. split; [done|].
    unfold send_true. destruct (Nat.eqb_spec (ch_receivers ch0) 0); simpl;
      (split; [done|]); case_decide; naive_solver.
  - rewrite lookup_alter_ne by done. intros E. exists ch. split_and!; try done.
    case_decide; naive_solver.
  - intros E. exists ch. split_and!; try done. case_decide; naive_solver.
Qed.

Lemma sf_inv_broadcast g gd sf :
  guards sf !! g = Some gd -> g_phase gd = Unregistered -> sf_inv sf -> sf_inv (drop_broadcast g sf).
Proof.
  intros Eg Eph Hi. unfold drop_broadcast. rewrite Eg.
  pose proof Hi as [(Fg & Ff & Fc) Hg Ht Hr Hw Hv]. destruct (Hg g gd Eg) as [Hd Hc]. rewrite Hd.
  set (chs := match _ with Some c => _ | None => _ end).
  assert (Hsome : forall c, is_Some (chs !! c) <-> is_Some (channels sf !! c)).
  { intros c. unfold chs. destruct (g_registry gd); [by rewrite lookup_alter_is_Some|done]. }
  assert (Hrc : forall c ch, chs !! c = Some ch -> exists ch0, channels sf !! c = Some ch0
            /\ ch_receivers ch = ch_receivers ch0
            /\ ch_value ch = (if decide (c = g /\ g_registry gd = true /\ ch_receivers ch0 <> 0%nat)
                              then true else ch_value ch0)).
  { intros c ch Hc0. apply broadcast_channels. rewrite <- Hc0. unfold chs.
    by destruct (g_registry gd). }
  assert (Hval : forall c, value_of sf c = true ->
            match chs !! c with Some ch => ch_value ch | None => false end = true).
  { intros c. unfold value_of. destruct (channels sf !! c) as [ch0|] eqn:E0; [|done]. intros Hv0.
    destruct (proj2 (Hsome c) ltac:(eauto)) as [ch Ech]. rewrite Ech.
    destruct (Hrc c ch Ech) as (ch1 & E1 & _ & ->).
    assert (ch1 = ch0) as -> by congruence. by destruct (decide _). }
  split; cbn -[lookup insert]; unfold value_of in *; cbn -[lookup insert] in *.
  - split_and!; [|done|intros c Hx; by apply Fc, Hsome].
    intros x [gx [_ Hx]%lookup_delete_Some]. eauto.
  - intros g' guard [_ Hgg]%lookup_delete_Some. destruct (Hg g' guard Hgg) as [? Hs].
    split; [done|]. intros ?. by apply Hsome, Hs.
  - intros k c Hp. rewrite (Ht k c Hp). split; intros (gd' & Hgd' & Hk & Hreg & Hph).
    + exists gd'. rewrite lookup_delete_ne; [done|]. intros <-. congruence.
    + apply lookup_delete_Some in Hgd' as [_ ?]. eauto.
  - intros c ch Ech. destruct (Hrc c ch Ech) as (ch0 & E0 & -> & _). by apply Hr.
  - intros f c Hf. destruct (Hw f c Hf) as [Hs Hor]. split; [by apply Hsome|].
    destruct Hor as [Hx|(gd' & Hgd' & Hreg)]; [left; by apply Hval|].
    destruct (decide (g = c)) as [<-|Hne]; [left|right; exists gd'; by rewrite lookup_delete_ne].
    simplify_eq. destruct (proj2 (Hsome g) Hs) as [ch Ech]. rewrite Ech.
    destruct (Hrc g ch Ech) as (ch0 & E0 & _ & ->). rewrite decide_True; [done|].
    split_and!; [done|done|]. rewrite (Hr g ch0 E0). pose proof (waiting_pos _ _ _ Hf). lia.
  - intros c guard Hx [Hne Hgg]%lookup_delete_Some.
    destruct (chs !! c) as [ch|] eqn:Ech; [|done].
    destruct (Hrc c ch Ech) as (ch0 & E0 & _ & Ev). rewrite Ev in Hx.
    rewrite decide_False in Hx by naive_solver. apply (Hv c guard); [by rewrite E0|done].
Qed.

Lemma sf_inv_leave f sf : sf_inv sf -> sf_inv (leave f sf).
Proof.
  intros Hi. unfold leave. destruct (followers sf !! f) as [c|] eqn:Ef; [|done].
  pose proof Hi as [(Fg & Ff & Fc) Hg Ht Hr Hw Hv].
  assert (Hval : forall c', match alter unsubscribe c (channels sf) !! c' with
                            | Some ch => ch_value ch | None => false end = value_of sf c').
  { intros c'. rewrite (value_alter _ _ _ _ false) by done. unfold value_of.
    destruct (channels sf !! c'); [by case_decide|done]. }
  split; cbn -[lookup insert alter]; unfold value_of; cbn -[lookup insert alter].
  - split_and!; [done| |].
    + intros x [cx [_ Hx]%lookup_delete_Some]. eauto.
    + intros x. rewrite lookup_alter_is_Some. auto.
  - intros g guard Hgg. destruct (Hg g guard Hgg). split; [done|]. by rewrite lookup_alter_is_Some.
  - done.
  - intros c' ch Hc'. rewrite (waiting_delete _ _ c) by done.
    destruct (decide (c = c')) as [<-|Hne].
    + rewrite lookup_alter_eq in Hc'. apply fmap_Some in Hc' as (ch0 & Hch0 & ->). simpl.
      f_equal. by apply Hr.
    + rewrite lookup_alter_ne in Hc' by done. by apply Hr.
  - intros f' c' [_ Hf]%lookup_delete_Some. rewrite lookup_alter_is_Some, Hval. by apply (Hw f').
  - intros c' guard. rewrite Hval. apply Hv.
Qed.

Lemma sf_reachable_inv sf : sf_reachable sf -> sf_inv sf.
Proof.
  induction 1 as [|sf sf' _ IH Hs]; [apply sf_inv_new|].
  destruct Hs as [k sf|g gd sf Hg Hp|g gd sf Hg Hp|f sf|sf].
  - by apply sf_inv_join.
  - by eapply sf_inv_unregister.
  - by eapply sf_inv_broadcast.
  - by apply sf_inv_leave.
  - by apply sf_inv_poison.
Qed.

Module SingleFlightTheorems.

(** C16: in every state reachable by any interleaving of joins, guard
    destructions (in their two steps), ended waits and a poisoned mutex: while
    the mutex is sound at most one registered leader holds a given key and
    interval; every follower that still waits either has its leader alive or
    already has the broadcast in its channel, so that no wake-up is lost; and a
    request that joins never becomes the follower of a leader that has
    broadcast. *)
Theorem no_lost_wakeup (sf : SingleFlight) :
  sf_reachable sf ->
  (forall g1 g2 a b, poisoned sf = false ->
     guards sf !! g1 = Some a -> guards sf !! g2 = Some b ->
     g_phase a = Held -> g_phase b = Held -> g_registry a = true -> g_registry b = true ->
     g_key a = g_key b -> g1 = g2)
  /\ (forall f c, followers sf !! f = Some c ->
        value_of sf c = true \/ exists guard, guards sf !! c = Some guard /\ g_done guard = Some c)
  /\ (forall k f c, (join k sf).1 = Follower f -> followers (join k sf).2 !! f = Some c ->
        value_of sf c = false
        /\ exists guard, guards sf !! c = Some guard /\ g_key guard = k /\ g_phase guard = Held).
Proof.
  intros Hr%sf_reachable_inv. split_and!.
  - intros g1 g2 a b Hp Ha Hb P1 P2 R1 R2 Hk.
    assert (in_flight sf !! g_key a = Some g1) by (apply (si_table _ Hr); eauto).
    assert (in_flight sf !! g_key b = Some g2) by (apply (si_table _ Hr); eauto). congruence.
  - intros f c Hf. destruct (si_follower _ Hr f c Hf) as [_ [?|(gd & Hgd & Hreg)]]; [by left|right].
    exists gd. split; [done|]. destruct (si_guard _ Hr c gd Hgd) as [-> _]. by rewrite Hreg.
  - intros k f c. unfold join. destruct (poisoned sf) eqn:Ep; [done|].
    destruct (in_flight sf !! k) as [c'|] eqn:Ek; [|done]. simpl. intros [= <-].
    rewrite lookup_insert_eq. intros [= <-].
    apply (si_table _ Hr) in Ek as (gd & Hgd & Hk & Hreg & Hph); [|done].
    split; [|by exists gd]. destruct (value_of sf c') eqn:Ev; [|done].
    by destruct (si_value _ Hr _ _ Ev Hgd).
Qed.

Definition K : Key := ([], 0, 9).
Definition two : SingleFlight := (join K (join K new).2).2.

Lemma no_lost_wakeup_witness :
  followers two !! 1%nat = Some 0%nat
  /\ (value_of two 0 = true
      \/ exists guard, guards two !! 0%nat = Some guard /\ g_done guard = Some 0%nat).
Proof.
  split; [vm_compute; reflexivity|].
  apply (no_lost_wakeup two) with (f := 1%nat); [|vm_compute; reflexivity].
  repeat (eapply sfr_step; [|apply sf_join]). apply sfr_new.
Defined.

(** When the guard of a leader has been destroyed, every follower that
    waits for it is released at once, the limit playing no part, and with a
    sound mutex the next request for the same interval becomes a leader
    instead of waiting again. *)
Theorem drop_releases_followers (sf : SingleFlight) (g : nat) (guard : LeaderGuard) :
  sf_reachable sf -> guards sf !! g = Some guard -> g_phase guard = Held ->
  let sf' := drop g sf in
  (forall f notified, followers sf' !! f = Some g -> wait (value_of sf' g) notified = true)
  /\ (poisoned sf = false -> g_registry guard = true ->
      exists g', (join (g_key guard) sf').1 = Leader g').
Proof.
  intros Hr Hg Hp. cbv zeta. unfold drop.
  pose proof (sf_reachable_inv _ Hr) as Hi.
  pose proof (sf_inv_unregister g guard sf Hg Hp Hi) as H1.
  set (sf1 := drop_unregister g sf) in *.
  assert (Hg1 : guards sf1 !! g
            = Some (mk_LeaderGuard (g_registry guard) (g_key guard) (g_done guard) Unregistered)).
  { unfold sf1, drop_unregister. rewrite Hg. simpl. apply lookup_insert_eq. }
  pose proof (sf_inv_broadcast g _ sf1 Hg1 eq_refl H1) as H2.
  set (sf2 := drop_broadcast g sf1) in *.
  assert (Hg2 : guards sf2 !! g = None).
  { unfold sf2, drop_broadcast. rewrite Hg1. simpl. apply lookup_delete_eq. }
  split.
  - intros f notified Hf. destruct (si_follower _ H2 f g Hf) as [_ [->|(gd & Hgd & _)]]; [done|].
    congruence.
  - intros Hs Hreg. exists (next sf2). unfold join.
    assert (Hs2 : poisoned sf2 = false).
    { unfold sf2, drop_broadcast. rewrite Hg1. simpl. unfold sf1, drop_unregister. by rewrite Hg. }
    rewrite Hs2. replace (in_flight sf2 !! g_key guard) with (@None nat); [done|].
    unfold sf2, drop_broadcast. rewrite Hg1. simpl. unfold sf1, drop_unregister. rewrite Hg. simpl.
    rewrite Hs, Hreg. simpl. symmetry. apply lookup_delete_eq.
Qed.

Lemma drop_releases_followers_witness :
  wait (value_of (drop 0 two) 0) false = true /\ (join K (drop 0 two)).1 = Leader 2.
Proof.
  split; [|vm_compute; reflexivity].
  apply (drop_releases_followers two 0 (mk_LeaderGuard true K (Some 0%nat) Held)) with (f := 1%nat);
    [|vm_compute; reflexivity|reflexivity|vm_compute; reflexivity].
  repeat (eapply sfr_step; [|apply sf_join]). apply sfr_new.
Defined.
End SingleFlightTheorems.
