(* ===== verification/NetSource.v ===== *)
(** * The upstream source ([data_source/net_source.rs])

    A download validates the URL, sends a range request with up to three
    attempts, checks the status, the length and the [Content-Range] of the
    answer, and hands out a body that resumes where it broke off.

    The HTTP client is external: what each request is answered with is read
    from a script, every request that is sent and every back-off pause is
    logged. *)

From Stdlib Require Import Strings.Byte Strings.String.
From S2P Require Import Prelude Bytes Error External Headers Range NetworkPolicy Storage.

(** Times in milliseconds. *)
Definition HEADER_TIMEOUT : Z := 30000.
Definition CONNECT_TIMEOUT : Z := 10000.
Definition MAX_ATTEMPTS : Z := 3.
Definition RETRY_BACKOFF : Z := 200.

Definition CONTENT_LENGTH : text := str "content-length".
Definition CONTENT_RANGE : text := str "content-range".
Definition CONTENT_TYPE : text := str "content-type".

(** What the HTTP client makes of one request: no response head within the
    limit, an error, or a response whose body frames arrive one by one. *)
Record HttpResponse : Type := mk_HttpResponse {
  hr_status : Z;
  hr_headers : HeaderMap;
  hr_frames : list (result text (list byte));
}.
Inductive answer : Type :=
| Timeout
| Failed (error : text)
| Answered (response : HttpResponse).

Record NetResponse (B : Type) : Type := mk_NetResponse {
  status : Z;
  nr_headers : HeaderMap;
  body : B;
}.
Arguments mk_NetResponse {B}.
Arguments status {B}.
Arguments nr_headers {B}.
Arguments body {B}.

(** The shared admission cache, the script of the client, the clock readings
    to come, the requests (URL and [Range]) sent and the pauses made. *)
Record Net : Type := mk_Net {
  policy : NetworkPolicy;
  answers : list answer;
  clock : list Z;
  sent : list (text * text);
  slept : list Z;
}.

Definition v1_data_stream (frames : list (result text (list byte))) : stream :=
  map (fun chunk => map_err
         (fun error => ProxyError.Network (str "读取上游响应失败: " ++ error)) chunk) frames.

(** [1u32.checked_shl(attempt - 1).unwrap_or(u32::MAX)], and the pause. *)
Definition backoff_factor (attempt : Z) : Z :=
  if attempt - 1 <? 32 then Z.land (Z.shiftl 1 (attempt - 1)) (2 ^ 32 - 1) else 2 ^ 32 - 1.
Definition backoff (attempt : Z) : Z := RETRY_BACKOFF * backoff_factor attempt.

(** [HeaderValue::try_from]. *)
Definition header_value_ok (v : text) : bool :=
  forallb (fun b => ((32 <=? b2z b) && negb (b2z b =? 127)) || (b2z b =? 9)) v.

Definition advance_bytes_read (bytes_read chunk_length range_start range_end : Z) : Result Z :=
  next ← ok_or (checked_add bytes_read chunk_length)
           (ProxyError.Network (str "上游响应体累计长度溢出"));
  if range_end =? OPEN_ENDED then Ok next
  else
    expected ← ok_or (checked_sub range_end range_start ≫= fun span => checked_add span 1)
                 (ProxyError.InvalidRange (str "上游请求范围无效"));
    if expected <? next then
      Err (ProxyError.Network (str "上游响应体超过请求的 Range 范围"))
    else Ok next.

Section Source.
Context `{UrlParser} `{UriParser} `{HeaderText} {ord : HashOrder text Z}.
(** The answer of the name service. *)
Context (lookup : text -> Z -> option (list SocketAddr)).

Abbreviation N := (io Net ProxyError.t).

Definition verify_content_range (hs : HeaderMap) (expected_start expected_end content_length : Z) :
    Result unit :=
  value ← ok_or (hget CONTENT_RANGE hs)
            (ProxyError.Network (str "206 响应缺少 Content-Range"));
  value ← (if visible_text value then Ok value
           else Err (ProxyError.Request (str "Invalid content range header")));
  '(range, total) ← ok_or (strip_prefix (str "bytes ") (trim value) ≫= split_once x2f)
                      (ProxyError.Network (str "无法解析 Content-Range: " ++ value));
  '(actual_start, actual_end) ←
    ok_or ('(s, e) ← split_once x2d range; s ← parse_u64 s; e ← parse_u64 e; Some (s, e))
      (ProxyError.Network (str "无法解析 Content-Range: " ++ value));
  if negb (actual_start =? expected_start) then
    Err (ProxyError.Network (str "上游返回的范围起点 " ++ format_u64 actual_start
                             ++ str " 与请求的 " ++ format_u64 expected_start ++ str " 不一致"))
  else if actual_end <? actual_start then
    Err (ProxyError.Network (str "Content-Range 结束位置早于起点"))
  else if negb (expected_end =? u64_max) && (expected_end <? actual_end) then
    Err (ProxyError.Network (str "上游返回的范围终点 " ++ format_u64 actual_end
                             ++ str " 超过请求的 " ++ format_u64 expected_end))
  else
    actual_length ← ok_or (checked_sub actual_end actual_start ≫= fun span => checked_add span 1)
                      (ProxyError.Network (str "Content-Range 长度溢出"));
    if negb (actual_length =? content_length) then
      Err (ProxyError.Network (str "Content-Range 长度 " ++ format_u64 actual_length
             ++ str " 与 Content-Length " ++ format_u64 content_length ++ str " 不一致"))
    else if bool_decide (total = str "*") then Ok tt
    else
      total ← ok_or (parse_u64 total) (ProxyError.Network (str "Content-Range 总长度无效"));
      if (total =? 0) || (total <=? actual_end) then
        Err (ProxyError.Network (str "Content-Range 超出声明的资源总长度"))
      else Ok tt.

Definition is_success (s : Z) : bool := (200 <=? s) && (s <? 300).

(** The checks of [try_download] on a response head. *)
Definition check_head (range : text) (start end_ : Z) (resp : HttpResponse) : Result Z :=
  let s := hr_status resp in
  if s =? 416 then Err (ProxyError.InvalidRange (str "上游拒绝范围请求: " ++ range))
  else if (s =? 401) || (s =? 403) then Err (ProxyError.UpstreamAuthorizationExpired None)
  else if negb (is_success s) then
    Err (ProxyError.Request (str "Invalid response status: " ++ status_text s))
  else if negb (s =? 206) && ((0 <? start) || negb (end_ =? OPEN_ENDED)) then
    Err (ProxyError.Network
           (str "上游忽略了 Range 请求（状态 " ++ status_text s
            ++ str "），要求 206 但收到其他状态码（range: " ++ format_u64 start ++ str "-"
            ++ format_u64 end_ ++ str "）"))
  else
    content_length ←
      match hget CONTENT_LENGTH (hr_headers resp) with
      | Some len =>
          len ← (if visible_text len then Ok len
                 else Err (ProxyError.Request (str "Invalid content length header")));
          ok_or (parse_u64 len) (ProxyError.Request (str "Invalid content length value"))
      | None => Err (ProxyError.Request (str "Missing content length header"))
      end;
    _ ← (if s =? 206 then verify_content_range (hr_headers resp) start end_ content_length
         else Ok tt);
    Ok content_length.

(** One exchange: the request is logged, the next answer of the script is
    taken (none left: the client never answers). *)
Definition exchange (url range : text) : N HttpResponse := fun n =>
  let n' a := mk_Net (policy n) a (clock n) (sent n ++ [(url, range)]) (slept n) in
  match answers n with
  | Answered resp :: a => (Ok resp, n' a)
  | Failed error :: a => (Err (ProxyError.Network (str "上游请求失败: " ++ error)), n' a)
  | Timeout :: a => (Err (ProxyError.Network (str "等待上游响应头超时")), n' a)
  | [] => (Err (ProxyError.Network (str "等待上游响应头超时")), n' [])
  end.

Definition try_download (url range : text) (start end_ : Z) : N (NetResponse stream * Z) :=
  if negb (bool_decide (is_Some (uri_parse url))) || negb (header_value_ok range) then
    throw (ProxyError.Request (str "无法构造上游请求"))
  else
    resp ← exchange url range;
    content_length ← lift (check_head range start end_ resp);
    mret (mk_NetResponse (hr_status resp) (hr_headers resp) (v1_data_stream (hr_frames resp)),
          content_length).

Definition sleep (ms : Z) : N unit :=
  modify (fun n => mk_Net (policy n) (answers n) (clock n) (sent n) (slept n ++ [ms])).

(** ** The body that resumes *)

Record RetryBody : Type := mk_RetryBody {
  rb_body : stream;
  rb_read : Z;
  rb_attempt : Z;
  rb_url : text;
  rb_start : Z;
  rb_end : Z;
}.

Definition wrap_with_retry (initial_body : stream) (url : text) (range_start range_end : Z) :
    RetryBody :=
  mk_RetryBody initial_body 0 1 url range_start range_end.

Definition set_body (b : RetryBody) (s : stream) (bytes_read attempt : Z) : RetryBody :=
  mk_RetryBody s bytes_read attempt (rb_url b) (rb_start b) (rb_end b).

(** One poll of the [unfold]: an item and the next state, or the end.  Each
    turn of its loop uses up one attempt: [MAX_ATTEMPTS] turns are enough. *)
Fixpoint poll (fuel : nat) (b : RetryBody) (n : Net) :
    option (Result (list byte) * RetryBody) * Net :=
  match rb_body b with
  | Ok chunk :: rest =>
      match advance_bytes_read (rb_read b) (Z.of_nat (length chunk)) (rb_start b) (rb_end b) with
      | Ok bytes_read => (Some (Ok chunk, set_body b rest bytes_read (rb_attempt b)), n)
      | Err error => (Some (Err error, set_body b [] (rb_read b) MAX_ATTEMPTS), n)
      end
  | Err error :: rest =>
      if MAX_ATTEMPTS <=? rb_attempt b then
        (Some (Err (ProxyError.Network (str "流式读取失败: " ++ ProxyError.display error)),
               set_body b rest (rb_read b) (rb_attempt b)), n)
      else
        let attempt := rb_attempt b + 1 in
        match checked_add (rb_start b) (rb_read b) with
        | None =>
            (Some (Err (ProxyError.Network (str "续传位置超出可表示范围")),
                   set_body b [] (rb_read b) MAX_ATTEMPTS), n)
        | Some resume_start =>
            let '(_, n) := sleep (backoff attempt) n in
            match try_download (rb_url b) (format_range resume_start (rb_end b))
                    resume_start (rb_end b) n with
            | (Ok (resp, _), n') =>
                match fuel with
                | O => (None, n')
                | S fuel' => poll fuel' (set_body b (body resp) (rb_read b) attempt) n'
                end
            | (Err retry_error, n') =>
                (Some (Err retry_error, set_body b rest (rb_read b) attempt), n')
            end
        end
  | [] => (None, n)
  end.
Definition body_next (b : RetryBody) : Net -> option (Result (list byte) * RetryBody) * Net :=
  poll (Z.to_nat MAX_ATTEMPTS) b.

(** What a consumer that stops at the first error sees of the body; [fuel]
    bounds the number of items. *)
Fixpoint collect (fuel : nat) (b : RetryBody) (n : Net) : stream * Net :=
  match fuel with
  | O => ([], n)
  | S fuel' =>
      match body_next b n with
      | (None, n') => ([], n')
      | (Some (Err e, _), n') => ([Err e], n')
      | (Some (Ok c, b'), n') => let '(l, n'') := collect fuel' b' n' in (Ok c :: l, n'')
      end
  end.

(** Every item uses up a frame of the current response or of a later one. *)
Definition frames_of (a : answer) : nat :=
  match a with Answered r => length (hr_frames r) | _ => 0 end.
Definition frames_left (b : RetryBody) (n : Net) : nat :=
  length (rb_body b) + sum_list_with frames_of (answers n).
Definition collect_all (b : RetryBody) (n : Net) : stream * Net :=
  collect (S (frames_left b n)) b n.

(** ** The download *)

Definition validate_url (url : text) : N unit := fun n =>
  let now := List.hd 0 (clock n) in
  let now' := List.hd now (List.tl (clock n)) in
  let '(r, p) := validate (policy n) url lookup now now' in
  (r, mk_Net p (answers n) (List.tl (List.tl (clock n))) (sent n) (slept n)).

(** The loop over the attempts [attempt .. MAX_ATTEMPTS]. *)
Fixpoint attempts (left : nat) (attempt : Z) (url range : text) (start end_ : Z)
    (last_error : option ProxyError.t) : N (NetResponse RetryBody * Z) :=
  match left with
  | O => throw (match last_error with
                | Some e => e
                | None => ProxyError.Request (str "Max retries reached")
                end)
  | S left' =>
      r ← Prelude.attempt (try_download url range start end_);
      match r with
      | Ok (resp, content_length) =>
          mret (mk_NetResponse (status resp) (nr_headers resp)
                  (wrap_with_retry (body resp) url start end_), content_length)
      | Err (ProxyError.InvalidRange m) => throw (ProxyError.InvalidRange m)
      | Err (ProxyError.UpstreamAuthorizationExpired i) =>
          throw (ProxyError.UpstreamAuthorizationExpired i)
      | Err error =>
          _ ← (if attempt <? MAX_ATTEMPTS then sleep (backoff attempt) else mret tt);
          attempts left' (attempt + 1) url range start end_ (Some error)
      end
  end.

Definition download_stream (url range : text) : N (NetResponse RetryBody * Z) :=
  _ ← validate_url url;
  '(start, end_) ← lift (parse_range range);
  attempts (Z.to_nat MAX_ATTEMPTS) 1 url range start end_ None.
End Source.
