(* ===== verification/NetTheorems.v ===== *)
(** * The upstream source: theorems

    Which [Content-Range] is accepted, how many requests a download sends, and
    what a resumed body delivers when the upstream tells the truth about what
    it sends. *)

From Stdlib Require Import Strings.Byte Strings.String.
From S2P Require Import Prelude Bytes Error External Headers Range NetworkPolicy Storage NetSource.

(** ** The accepted [Content-Range] *)

(** The header reads [bytes s-e/t]. *)
Inductive content_range `{HeaderText} (hs : HeaderMap) : Z -> Z -> text -> Prop :=
| content_range_intro v a b s e t :
    hget CONTENT_RANGE hs = Some v -> visible_text v = true ->
    trim v = str "bytes " ++ (a ++ x2d :: b) ++ x2f :: t ->
    (x2f ∉ a ++ x2d :: b) -> (x2d ∉ a) ->
    parse_u64 a = Some s -> parse_u64 b = Some e ->
    content_range hs s e t.

Lemma checked_length a b n :
  0 <= a -> is_u64 b ->
  (checked_sub b a ≫= fun span => checked_add span 1) = Some n
  <-> a <= b /\ n = b - a + 1 /\ n <= u64_max.
Proof.
  intros Ha [? ?]. unfold checked_sub, checked_add. bool_to_prop; simpl;
    bool_to_prop; split; try done; try lia.
  - intros [= <-]. lia.
  - intros (_ & -> & _). done.
Qed.

Lemma verify_content_range_iff `{HeaderText} hs es ee cl :
  verify_content_range hs es ee cl = Ok tt
  <-> exists e t, content_range hs es e t
      /\ es <= e /\ (ee <> u64_max -> e <= ee) /\ cl = e - es + 1 /\ cl <= u64_max
      /\ (t = str "*" \/ exists n, parse_u64 t = Some n /\ e < n).
Proof.
  unfold verify_content_range. split.
  - intros (v & Hv & E)%bind_Ok_inv. apply ok_or_Ok in Hv.
    apply bind_Ok_inv in E as (v' & Hvis & E). destruct (visible_text v) eqn:Evis; [|done].
    injection Hvis as <-. apply bind_Ok_inv in E as ([range t] & Hsp & E).
    apply ok_or_Ok in Hsp. apply bind_Some in Hsp as (rest & Hpre & Hsp).
    apply strip_prefix_Some in Hpre. apply split_once_Some in Hsp as [-> Hno].
    apply bind_Ok_inv in E as ([s e] & Hse & E). apply ok_or_Ok in Hse.
    apply bind_Some in Hse as ([a b] & Hsp & Hse). apply split_once_Some in Hsp as [-> Hno'].
    apply bind_Some in Hse as (s' & Hs & Hse). apply bind_Some in Hse as (e' & He & [= -> ->]).
    pose proof (parse_u64_range _ _ Hs) as Us. pose proof (parse_u64_range _ _ He) as Ue.
    destruct (Z.eqb_spec s es) as [->|]; simpl in E; [|done].
    destruct (Z.ltb_spec e es); [done|].
    destruct (negb (ee =? u64_max) && (ee <? e)) eqn:Ebd; [done|].
    apply bind_Ok_inv in E as (n & Hn & E). apply ok_or_Ok in Hn.
    apply checked_length in Hn as (_ & -> & Hn); [|destruct Us; lia|done].
    destruct (Z.eqb_spec (e - es + 1) cl) as [<-|]; simpl in E; [|done].
    exists e, t. split_and!; [by econstructor|done| |done|done|].
    + intros Hne. apply andb_false_iff in Ebd as [Eb|Eb]; [|lia].
      apply negb_false_iff, Z.eqb_eq in Eb. done.
    + case_bool_decide; [by left|right]. apply bind_Ok_inv in E as (n & Hn' & E).
      apply ok_or_Ok in Hn'. exists n. split; [done|].
      destruct (Z.eqb_spec n 0); [done|]. simpl in E. destruct (Z.leb_spec n e); [done|lia].
  - intros (e & t & Hc & Hle & Hee & -> & Hmax & Ht). destruct Hc as [v a b s e t Hv Hvis Htr Hno Hno' Hs He].
    pose proof (parse_u64_range _ _ Hs) as Us. pose proof (parse_u64_range _ _ He) as Ue.
    rewrite Hv. cbn [ok_or mbind result_bind]. rewrite Hvis. cbn [ok_or mbind result_bind].
    rewrite Htr, strip_prefix_app. cbn [mbind option_bind].
    rewrite (proj2 (split_once_Some x2f _ (a ++ x2d :: b) t)) by done.
    cbn [ok_or mbind result_bind].
    rewrite (proj2 (split_once_Some x2d _ a b)) by done. cbn [mbind option_bind].
    rewrite Hs, He. cbn [ok_or mbind result_bind option_bind].
    rewrite Z.eqb_refl. simpl. rewrite (proj2 (Z.ltb_ge e s)) by done.
    assert (Hb : negb (ee =? u64_max) && (ee <? e) = false).
    { destruct (Z.eqb_spec ee u64_max); [done|]. simpl. apply Z.ltb_ge. auto. }
    rewrite Hb. rewrite (proj2 (checked_length s e (e - s + 1) ltac:(destruct Us; lia) Ue)) by done.
    simpl. rewrite Z.eqb_refl. simpl. case_bool_decide; [done|].
    destruct Ht as [?|(n & Hn & Hen)]; [done|]. rewrite Hn. simpl.
    destruct (Z.eqb_spec n 0) as [->|]; [destruct Us; lia|]. simpl.
    by rewrite (proj2 (Z.leb_gt n e)) by done.
Qed.

(** ** A truthful upstream *)

Section Honest.
Context `{HeaderText} (content : text -> list byte) (k : text).

(** The offset a response says its body starts at. *)
Definition starts_at (r : HttpResponse) (s : Z) : Prop :=
  if decide (hr_status r = 206) then exists e t, content_range (hr_headers r) s e t else s = 0.

(** The text after the last slash of [Content-Range], or all of it, is the
    number [n]. *)
Definition declares_total (hs : HeaderMap) (n : Z) : Prop :=
  exists v t, hget CONTENT_RANGE hs = Some v /\ (v = t \/ exists pre, v = pre ++ x2f :: t)
    /\ (x2f ∉ t) /\ parse_u64 (trim t) = Some n.

(** What the response says of the resource of [k] is true: its body, up to the
    point where it breaks, is the part of the resource it announces, and the
    lengths it declares are right. *)
Record honest_response (r : HttpResponse) : Prop := {
  hn_bytes s : 0 <= s -> starts_at r s ->
    honest_at content k (Z.to_nat s) (stream_bytes (v1_data_stream (hr_frames r)));
  hn_total n : declares_total (hr_headers r) n -> n = Z.of_nat (length (content k));
  hn_length v n : hr_status r <> 206 -> hget CONTENT_LENGTH (hr_headers r) = Some v ->
    parse_u64 v = Some n -> n = Z.of_nat (length (content k));
}.
Definition honest_answer (a : answer) : Prop :=
  match a with Answered r => honest_response r | _ => True end.

Lemma check_head_Ok range st en r cl :
  0 <= st -> check_head range st en r = Ok cl ->
  starts_at r st
  /\ (exists v, hget CONTENT_LENGTH (hr_headers r) = Some v /\ parse_u64 v = Some cl)
  /\ (hr_status r = 206 -> exists e t, content_range (hr_headers r) st e t /\ st <= e
        /\ (en <> OPEN_ENDED -> e <= en) /\ cl = e - st + 1)
  /\ (hr_status r <> 206 -> is_success (hr_status r) = true /\ st = 0 /\ en = OPEN_ENDED).
Proof.
  intros Hst E. unfold check_head in E.
  destruct (Z.eqb_spec (hr_status r) 416) as [|_]; [done|].
  destruct ((hr_status r =? 401) || (hr_status r =? 403)); [done|].
  destruct (is_success (hr_status r)) eqn:Es; [|done]. simpl in E.
  destruct (negb (hr_status r =? 206) && ((0 <? st) || negb (en =? OPEN_ENDED))) eqn:Eg; [done|].
  apply bind_Ok_inv in E as (n & Hn & E).
  assert (Hcl : exists v, hget CONTENT_LENGTH (hr_headers r) = Some v /\ parse_u64 v = Some n).
  { destruct (hget CONTENT_LENGTH (hr_headers r)) as [v|]; [|done].
    apply bind_Ok_inv in Hn as (v' & Hv' & Hn). destruct (visible_text v); [|done].
    injection Hv' as <-. apply ok_or_Ok in Hn. eauto. }
  apply bind_Ok_inv in E as ([] & Hv & [= <-]). unfold starts_at.
  destruct (Z.eqb_spec (hr_status r) 206) as [E6|N6].
  - apply verify_content_range_iff in Hv as (e & t & Hc & ? & He & -> & _).
    rewrite decide_True by done. split_and!; [eauto|done| |done].
    intros _. exists e, t. split_and!; try done.
  - rewrite decide_False by done. simpl in Eg. apply orb_false_iff in Eg as [E0 Ee].
    apply negb_false_iff, Z.eqb_eq in Ee. split_and!; [lia|done|done|].
    intros _. split_and!; [done|lia|done].
Qed.
End Honest.

(** ** Requests *)

Section Requests.
#[local] Set Default Proof Using "Type".
Context `{UrlParser} `{UriParser} `{HeaderText} {ord : HashOrder text Z}.
Context (lookup : text -> Z -> option (list SocketAddr)).
Context (content : text -> list byte) (k : text).

(** [n'] follows [n] by [m] exchanges for [url] and [range]. *)
Definition exchanged (url range : text) (m : nat) (n n' : Net) : Prop :=
  sent n' = sent n ++ replicate m (url, range) /\ answers n' = drop m (answers n)
  /\ policy n' = policy n /\ clock n' = clock n.

Lemma exchanged_refl url range n : exchanged url range 0 n n.
Proof. unfold exchanged. by rewrite app_nil_r. Qed.

Lemma exchanged_trans url range m1 m2 n1 n2 n3 :
  exchanged url range m1 n1 n2 -> exchanged url range m2 n2 n3 ->
  exchanged url range (m1 + m2) n1 n3.
Proof.
  intros (S1 & A1 & P1 & C1) (S2 & A2 & P2 & C2). unfold exchanged.
  rewrite S2, S1, A2, A1, replicate_add, app_assoc, drop_drop. split_and!; congruence.
Qed.

Lemma exchanged_honest url range m n n' :
  exchanged url range m n n' -> Forall (honest_answer content k) (answers n) ->
  Forall (honest_answer content k) (answers n').
Proof. intros (_ & -> & _). apply Forall_drop. Qed.

Lemma sleep_exchanged url range ms n : exchanged url range 0 n (sleep ms n).2.
Proof. unfold exchanged. simpl. by rewrite app_nil_r. Qed.

Lemma try_download_run url range st en n r n' :
  try_download url range st en n = (r, n') ->
  exists m, (m <= 1)%nat /\ exchanged url range m n n' /\ slept n' = slept n
  /\ forall resp cl, r = Ok (resp, cl) -> m = 1%nat
       /\ exists hr rest, answers n = Answered hr :: rest /\ check_head range st en hr = Ok cl
          /\ resp = mk_NetResponse (hr_status hr) (hr_headers hr) (v1_data_stream (hr_frames hr)).
Proof.
  unfold try_download. destruct (_ || _).
  { intros [= <- <-]. exists 0%nat. split_and!; [lia|apply exchanged_refl|done|done]. }
  intros E. exists 1%nat. split; [done|].
  assert (Hx : exists r0 n0, exchange url range n = (r0, n0) /\ exchanged url range 1 n n0
            /\ slept n0 = slept n
            /\ forall hr, r0 = Ok hr -> exists rest, answers n = Answered hr :: rest).
  { unfold exchange, exchanged. destruct (answers n) as [|[|msg|hr] rest]; do 2 eexists;
      (split; [done|]); simpl; rewrite ?drop_0; split_and!; try done.
    intros hr' [= <-]. by exists rest. }
  destruct Hx as (r0 & n0 & Ex & Hex & Hs & Ha). destruct r0 as [hr|e].
  - rewrite (io_bind_Ok _ _ _ _ _ Ex) in E. unfold mbind, io_bind, lift in E.
    destruct (check_head range st en hr) as [cl|e] eqn:Ec; injection E as <- <-; split_and!; try done.
    intros resp cl' [= <- <-]. split; [done|]. destruct (Ha hr eq_refl) as [rest ?]. eauto.
  - rewrite (io_bind_Err _ _ _ _ _ Ex) in E. injection E as <- <-. by split_and!.
Qed.

(** ** The resuming body *)

(** The body starts where the part already delivered ends. *)
Record rb_ok (b : RetryBody) : Prop := {
  rb_start_ok : 0 <= rb_start b;
  rb_read_ok : 0 <= rb_read b;
  rb_attempt_ok : 1 <= rb_attempt b <= MAX_ATTEMPTS;
  rb_honest : honest_at content k (Z.to_nat (rb_start b + rb_read b)) (stream_bytes (rb_body b));
}.

Lemma advance_Ok r len st en r' :
  0 <= st -> 0 <= en <= OPEN_ENDED ->
  advance_bytes_read r len st en = Ok r' ->
  r' = r + len /\ (en <> OPEN_ENDED -> r' <= en - st + 1).
Proof.
  intros Hst Hen E. unfold advance_bytes_read in E. apply bind_Ok_inv in E as (nx & Hnx & E).
  apply ok_or_Ok in Hnx. unfold checked_add in Hnx. destruct (_ <=? _); [|done].
  injection Hnx as <-. destruct (Z.eqb_spec en OPEN_ENDED); [by injection E as <-|].
  apply bind_Ok_inv in E as (ex & Hex & E). apply ok_or_Ok in Hex.
  apply checked_length in Hex as (_ & -> & _); [|done|done].
  destruct (Z.ltb_spec (en - st + 1) (r + len)); [done|]. injection E as <-. split; [done|lia].
Qed.

(** A chunk that arrives and fits the range. *)
Lemma frame_ok b chunk rest br :
  rb_ok b -> 0 <= rb_end b <= OPEN_ENDED -> rb_body b = Ok chunk :: rest ->
  advance_bytes_read (rb_read b) (Z.of_nat (length chunk)) (rb_start b) (rb_end b) = Ok br ->
  let b' := set_body b rest br (rb_attempt b) in
  rb_ok b' /\ br = rb_read b + Z.of_nat (length chunk)
  /\ honest_at content k (Z.to_nat (rb_start b + rb_read b)) chunk
  /\ (rb_end b <> OPEN_ENDED -> br <= rb_end b - rb_start b + 1).
Proof.
  intros [Hs Hr Ha Hh] Hend Ebody Hadv b'. rewrite Ebody in Hh. cbn [stream_bytes] in Hh.
  apply advance_Ok in Hadv as [-> Hle]; [|done|done].
  split_and!; [|done| |done].
  - split; cbn; try done; [lia|]. intros j x Hx.
    specialize (Hh (length chunk + j)%nat x). rewrite lookup_app_r in Hh by lia.
    rewrite Nat.add_sub' in Hh. specialize (Hh Hx). rewrite <- Hh. f_equal. lia.
  - intros j x Hx. apply Hh. by apply lookup_app_l_Some.
Qed.

Lemma poll_run fuel b n o n' :
  poll fuel b n = (o, n') -> rb_ok b -> 0 <= rb_end b <= OPEN_ENDED ->
  Forall (honest_answer content k) (answers n) -> MAX_ATTEMPTS - rb_attempt b <= Z.of_nat fuel ->
  exists m, exchanged (rb_url b) (format_range (rb_start b + rb_read b) (rb_end b)) m n n'
    /\ Z.of_nat m <= MAX_ATTEMPTS - rb_attempt b
    /\ match o with
       | Some (Ok c, b') =>
           rb_ok b' /\ rb_url b' = rb_url b /\ rb_start b' = rb_start b /\ rb_end b' = rb_end b
           /\ rb_attempt b' = rb_attempt b + Z.of_nat m
           /\ rb_read b' = rb_read b + Z.of_nat (length c)
           /\ honest_at content k (Z.to_nat (rb_start b + rb_read b)) c
           /\ (rb_end b <> OPEN_ENDED -> rb_read b' <= rb_end b - rb_start b + 1)
           /\ (frames_left b' n' < frames_left b n)%nat
       | _ => True
       end.
Proof.
  revert b n; induction fuel as [|fuel IH]; intros b n E Hb Hend Hn Hf;
    pose proof Hb as [Hs Hr Ha Hh]; cbn [poll] in E.
  all: destruct (rb_body b) as [|[chunk|error] rest] eqn:Ebody;
    [injection E as <- <-; exists 0%nat; split_and!; [apply exchanged_refl|lia|done]| |].
  1,3: pose proof (fun br => frame_ok b chunk rest br Hb Hend Ebody) as Hdirect; cbv zeta in Hdirect.
  1,2: destruct (advance_bytes_read _ _ _ _) as [br|e];
    [destruct (Hdirect br eq_refl) as (Q1 & -> & Q3 & Q4)|];
    injection E as <- <-; exists 0%nat; split_and!; try done; try apply exchanged_refl; try lia;
    cbn; try lia; unfold frames_left; cbn; rewrite Ebody; simpl; lia.
  all: destruct (Z.leb_spec MAX_ATTEMPTS (rb_attempt b)) as [Hmax|Hmax];
    [injection E as <- <-; exists 0%nat; split_and!; [apply exchanged_refl|lia|done]|].
  { lia. }
  unfold checked_add in E. destruct (Z.leb_spec (rb_start b + rb_read b) u64_max) as [Hu|Hu].
  2:{ injection E as <- <-; exists 0%nat; split_and!; [apply exchanged_refl|lia|done]. }
  set (range := format_range (rb_start b + rb_read b) (rb_end b)) in *.
  destruct (sleep (backoff (rb_attempt b + 1)) n) as [u n1] eqn:Esl.
  pose proof (sleep_exchanged (rb_url b) range (backoff (rb_attempt b + 1)) n) as X1.
  rewrite Esl in X1. cbn [snd] in X1.
  destruct (try_download (rb_url b) range (rb_start b + rb_read b) (rb_end b) n1) as [r n2] eqn:Etd.
  apply try_download_run in Etd as (m & Hm & X2 & _ & Hok).
  pose proof (exchanged_trans _ _ _ _ _ _ _ X1 X2) as X. cbn in X.
  destruct r as [[resp cl]|e].
  2:{ injection E as <- <-. exists m. split_and!; [done|lia|done]. }
  destruct (Hok resp cl eq_refl) as (-> & hr & rst & Hans & Hhead & ->).
  assert (Hans0 : answers n = Answered hr :: rst).
  { destruct X1 as (_ & A1 & _). by rewrite <- Hans, A1, drop_0. }
  rewrite Hans0 in Hn. apply Forall_cons in Hn as [Hhr Hrst].
  apply check_head_Ok in Hhead as [Hst _]; [|lia].
  set (b1 := set_body b _ _ _) in E.
  assert (Hb1 : rb_ok b1).
  { split; cbn; [done|done|lia|]. apply (hn_bytes _ _ _ Hhr); [lia|done]. }
  assert (Hans2 : answers n2 = rst).
  { destruct X as (_ & A & _). by rewrite A, Hans0. }
  destruct (IH b1 n2 E Hb1) as (m' & X3 & Hm' & Hres); [done|by rewrite Hans2|unfold b1; cbn [rb_attempt set_body]; lia|].
  unfold b1 in X3, Hm', Hres. cbn [rb_attempt rb_url rb_start rb_read rb_end set_body] in X3, Hm', Hres. exists (S m'). split_and!; [exact (exchanged_trans _ _ _ _ _ _ _ X X3)|lia|].
  destruct o as [[[c|e] b']|]; [|done|done].
  destruct Hres as (? & ? & ? & ? & Hat & ? & ? & ? & Hfr). split_and!; try done; try lia.
  eapply Nat.lt_le_trans; [exact Hfr|]. unfold frames_left. rewrite Hans0, Hans2, Ebody.
  cbn [rb_body set_body body sum_list_with frames_of length].
  unfold v1_data_stream. rewrite length_map. apply Nat.le_add_l.
Qed.

(** What has been delivered so far determines the resume requests. *)
Lemma collect_run fuel b n items n' :
  collect fuel b n = (items, n') -> rb_ok b -> 0 <= rb_end b <= OPEN_ENDED ->
  Forall (honest_answer content k) (answers n) -> (frames_left b n < fuel)%nat ->
  honest_at content k (Z.to_nat (rb_start b + rb_read b)) (stream_bytes items)
  /\ (rb_end b <> OPEN_ENDED -> rb_read b <= rb_end b - rb_start b + 1 ->
      rb_read b + Z.of_nat (length (stream_bytes items)) <= rb_end b - rb_start b + 1)
  /\ (exists reqs, sent n' = sent n ++ reqs
        /\ Z.of_nat (length reqs) <= MAX_ATTEMPTS - rb_attempt b
        /\ Forall (fun q => exists d, 0 <= d <= Z.of_nat (length (stream_bytes items))
             /\ q = (rb_url b, format_range (rb_start b + rb_read b + d) (rb_end b))) reqs)
  /\ policy n' = policy n /\ clock n' = clock n
  /\ (exists j, answers n' = drop j (answers n))
  /\ forall more, collect (fuel + more) b n = (items, n').
Proof.
  revert b n items; induction fuel as [|fuel IH]; intros b n items E Hb Hend Hn Hf; [lia|].
  cbn [collect] in E. unfold body_next in E.
  destruct (poll (Z.to_nat MAX_ATTEMPTS) b n) as [o n1] eqn:Ep.
  pose proof Hb as [Hs0 Hr0 Ha0 Hh0].
  destruct (poll_run _ _ _ _ _ Ep Hb Hend Hn) as (m & X & Hm & Ho).
  { unfold MAX_ATTEMPTS in *. lia. }
  pose proof X as (Xs & Xa & Xp & Xc).
  assert (Hreq : forall l : list byte, exists reqs, sent n1 = sent n ++ reqs
            /\ Z.of_nat (length reqs) <= MAX_ATTEMPTS - rb_attempt b
            /\ Forall (fun q => exists d, 0 <= d <= Z.of_nat (length l)
                 /\ q = (rb_url b, format_range (rb_start b + rb_read b + d) (rb_end b))) reqs).
  { intros l. exists (replicate m (rb_url b, format_range (rb_start b + rb_read b) (rb_end b))).
    rewrite length_replicate. split_and!; [done|done|]. apply Forall_replicate. exists 0.
    split; [lia|]. by rewrite Z.add_0_r. }
  destruct o as [[[c|e] b']|].
  - destruct (collect fuel b' n1) as [l n2] eqn:Ec. injection E as <- <-.
    destruct Ho as (Hb' & Eu & Es & Ee & Ea & Er & Hc & Hle & Hfr).
    destruct (IH b' n1 l Ec Hb') as (I1 & I2 & (reqs & I3 & I4 & I5) & I6 & I7 & (j & I8) & I9);
      [by rewrite Ee|by eapply exchanged_honest|lia|].
    cbn [stream_bytes]. rewrite length_app. split_and!.
    + rewrite Es, Er in I1. intros i x Hx. apply lookup_app_Some in Hx as [Hx|[Hl Hx]]; [by apply Hc|].
      rewrite <- (I1 _ _ Hx). f_equal. lia.
    + intros Hne Hb0. rewrite Ee, Es in I2. specialize (I2 Hne (Hle Hne)). lia.
    + destruct (Hreq (c ++ stream_bytes l)) as (r1 & R1 & R2 & R3).
      exists (replicate m (rb_url b, format_range (rb_start b + rb_read b) (rb_end b)) ++ reqs).
      rewrite I3, Xs, app_assoc, length_app, length_replicate. split_and!; [done|lia|].
      apply Forall_app. split.
      * apply Forall_replicate. exists 0. split; [lia|]. by rewrite Z.add_0_r.
      * eapply Forall_impl; [exact I5|]. intros q (d & Hd & ->).
        exists (Z.of_nat (length c) + d). split; [lia|]. rewrite Eu, Es, Ee, Er. do 2 f_equal. lia.
    + congruence.
    + congruence.
    + exists (m + j)%nat. by rewrite I8, Xa, drop_drop.
    + intros more. cbn [Nat.add collect]. unfold body_next. rewrite Ep, I9. done.
  - injection E as <- <-. split_and!; try done; [by simpl; lia|eauto|].
    intros more. cbn [Nat.add collect]. unfold body_next. by rewrite Ep.
  - injection E as <- <-. split_and!; try done; [by simpl; lia|eauto|].
    intros more. cbn [Nat.add collect]. unfold body_next. by rewrite Ep.
Qed.

(** ** The attempts *)

Lemma attempts_run left at_ url range st en last n r n' :
  attempts left at_ url range st en last n = (r, n') ->
  exists m, (m <= left)%nat /\ exchanged url range m n n'
    /\ forall resp cl, r = Ok (resp, cl) -> (1 <= m)%nat
       /\ exists hr, Answered hr ∈ answers n /\ check_head range st en hr = Ok cl
          /\ resp = mk_NetResponse (hr_status hr) (hr_headers hr)
                      (wrap_with_retry (v1_data_stream (hr_frames hr)) url st en).
Proof.
  revert at_ last n; induction left as [|left IH]; intros at_ last n E; cbn [attempts] in E.
  { injection E as <- <-. exists 0%nat. split_and!; [lia|apply exchanged_refl|done]. }
  unfold attempt, mbind at 1, io_bind at 1 in E.
  destruct (try_download url range st en n) as [r1 n1] eqn:Et.
  apply try_download_run in Et as (m1 & Hm1 & X1 & _ & Hok).
  assert (Hdone : forall e, (Err e, n1) = (r, n') -> exists m, (m <= S left)%nat
            /\ exchanged url range m n n'
            /\ forall resp cl, r = Ok (resp, cl) -> (1 <= m)%nat
               /\ exists hr, Answered hr ∈ answers n /\ check_head range st en hr = Ok cl
                  /\ resp = mk_NetResponse (hr_status hr) (hr_headers hr)
                              (wrap_with_retry (v1_data_stream (hr_frames hr)) url st en)).
  { intros e [= <- <-]. exists m1. split_and!; [lia|done|done]. }
  assert (Hgo : forall e, (_ ← (if at_ <? MAX_ATTEMPTS then sleep (backoff at_) else mret tt);
            attempts left (at_ + 1) url range st en (Some e)) n1 = (r, n') ->
          exists m, (m <= S left)%nat /\ exchanged url range m n n'
            /\ forall resp cl, r = Ok (resp, cl) -> (1 <= m)%nat
               /\ exists hr, Answered hr ∈ answers n /\ check_head range st en hr = Ok cl
                  /\ resp = mk_NetResponse (hr_status hr) (hr_headers hr)
                              (wrap_with_retry (v1_data_stream (hr_frames hr)) url st en)).
  { intros e E'. assert (Hs : exists n2, (if at_ <? MAX_ATTEMPTS then sleep (backoff at_) else mret tt) n1
              = (Ok tt, n2) /\ exchanged url range 0 n1 n2).
    { destruct (_ <? _); eexists; (split; [reflexivity|]);
        [apply sleep_exchanged|apply exchanged_refl]. }
    destruct Hs as (n2 & Es & X2). rewrite (io_bind_Ok _ _ _ _ _ Es) in E'.
    destruct (IH _ _ _ E') as (m3 & Hm3 & X3 & Hok3).
    pose proof (exchanged_trans _ _ _ _ _ _ _ (exchanged_trans _ _ _ _ _ _ _ X1 X2) X3) as X.
    exists (m1 + 0 + m3)%nat. split_and!; [lia|done|].
    intros resp cl ->. destruct (Hok3 resp cl eq_refl) as (? & hr & Hin & ?). split; [lia|].
    exists hr. split; [|done]. destruct X1 as (_ & A1 & _), X2 as (_ & A2 & _).
    rewrite A2, A1, drop_0 in Hin. apply (subseteq_drop m1), Hin. }
  destruct r1 as [[resp cl]|e].
  - destruct (Hok resp cl eq_refl) as (-> & hr & rest & Ha & Hc & ->).
    unfold mret, io_ret in E. simplify_eq.
    exists 1%nat. split_and!; [lia|done|]. intros resp' cl' [= <- <-]. split; [lia|].
    exists hr. split_and!; try done. rewrite Ha. constructor.
  - destruct e; try (by eapply Hgo); by eapply (Hdone _ E).
Qed.

Lemma download_stream_run url range n r n' :
  download_stream lookup url range n = (r, n') ->
  exists m, (Z.of_nat m <= MAX_ATTEMPTS)
    /\ sent n' = sent n ++ replicate m (url, range) /\ answers n' = drop m (answers n)
    /\ ((0 < m)%nat -> (validate (policy n) url lookup (List.hd 0 (clock n))
            (List.hd (List.hd 0 (clock n)) (List.tl (clock n)))).1 = Ok tt)
    /\ forall resp cl, r = Ok (resp, cl) -> (1 <= m)%nat
       /\ exists st en hr, parse_range range = Ok (st, en) /\ Answered hr ∈ answers n
          /\ check_head range st en hr = Ok cl
          /\ resp = mk_NetResponse (hr_status hr) (hr_headers hr)
                      (wrap_with_retry (v1_data_stream (hr_frames hr)) url st en).
Proof.
  intros E. unfold download_stream in E. run_bind E as u n1 E1.
  2:{ subst r. unfold validate_url in E1. destruct (validate _ _ _ _ _) as [rv p].
      injection E1 as -> <-. exists 0%nat. simpl. rewrite app_nil_r. split_and!; try done; lia. }
  assert (Hv : sent n1 = sent n /\ answers n1 = answers n
            /\ (validate (policy n) url lookup (List.hd 0 (clock n))
                (List.hd (List.hd 0 (clock n)) (List.tl (clock n)))).1 = Ok tt).
  { unfold validate_url in E1. destruct (validate _ _ _ _ _) as [rv p].
    injection E1 as -> <-. simpl. by destruct u. }
  destruct Hv as (Hs & Ha & Hv). unfold mbind at 1, io_bind at 1, lift at 1 in E.
  destruct (parse_range range) as [[st en]|e] eqn:Ep.
  2:{ injection E as <- <-. exists 0%nat. simpl. rewrite app_nil_r. split_and!; try done; lia. }
  apply attempts_run in E as (m & Hm & (Xs & Xa & _) & Hok). exists m.
  rewrite Xs, Xa, Hs, Ha. unfold MAX_ATTEMPTS in *. split_and!; try done; [lia|].
  intros resp cl ->. destruct (Hok resp cl eq_refl) as (? & hr & Hin & Hc & ->). split; [done|].
  exists st, en, hr. rewrite Ha in Hin. done.
Qed.
End Requests.

(** ** Reading concrete headers *)

Lemma content_range_fun `{HeaderText} hs s e t s' e' t' :
  content_range hs s e t -> content_range hs s' e' t' -> s = s' /\ e = e' /\ t = t'.
Proof.
  intros [v a b s0 e0 t0 Hv _ Htr Hno Hno' Hs He] [v' a' b' s0' e0' t0' Hv' _ Htr' Hno2 Hno2' Hs' He'].
  assert (v' = v) as -> by congruence. rewrite Htr in Htr'. apply app_inv_head in Htr'.
  assert (E1 : split_once x2f ((a ++ x2d :: b) ++ x2f :: t0) = Some (a ++ x2d :: b, t0))
    by (by apply split_once_Some).
  assert (E2 : split_once x2f ((a' ++ x2d :: b') ++ x2f :: t0') = Some (a' ++ x2d :: b', t0'))
    by (by apply split_once_Some).
  rewrite Htr', E2 in E1. injection E1 as Hab ->.
  assert (E3 : split_once x2d (a ++ x2d :: b) = Some (a, b)) by (by apply split_once_Some).
  assert (E4 : split_once x2d (a' ++ x2d :: b') = Some (a', b')) by (by apply split_once_Some).
  rewrite <- Hab, E4 in E3. injection E3 as -> ->. split_and!; congruence.
Qed.

(** [rsplit(c).next()]. *)
Lemma last_split c pre t : (c ∉ t) -> List.last (split c (pre ++ c :: t)) [] = t.
Proof.
  intros Ht. induction pre as [|b pre IH]; simpl.
  - rewrite decide_True by done. rewrite (split_no_sep c t Ht). done.
  - case_decide.
    + destruct (split c (pre ++ c :: t)) eqn:E; [|done].
      exfalso. clear -E. destruct pre; simpl in E; case_decide; try done; by destruct (split c _).
    + destruct (split c (pre ++ c :: t)) as [|p ps] eqn:E; [|].
      * exfalso. clear -E. destruct pre; simpl in E; case_decide; try done; by destruct (split c _).
      * destruct ps as [|q ps]; [|done]. exfalso.
        assert (Hj := split_join c (pre ++ c :: t)). rewrite E in Hj. simpl in Hj.
        rewrite app_nil_r in Hj. apply app_inv_tail in Hj. subst p.
        pose proof (split_pieces c (pre ++ c :: t)) as Hp. rewrite E in Hp.
        apply Forall_cons in Hp as [Hp _]. apply Hp. apply elem_of_app. right. constructor.
Qed.

Lemma declares_total_parse hs n :
  declares_total hs n -> exists v, hget CONTENT_RANGE hs = Some v
    /\ parse_u64 (trim (List.last (split x2f v) [])) = Some n.
Proof.
  intros (v & t & Hv & [->|[pre ->]] & Ht & Hn); eexists; (split; [done|]).
  - by rewrite (split_no_sep x2f t Ht).
  - by rewrite last_split.
Qed.

Lemma honest_at_iff content k pos b :
  honest_at content k pos b <-> b = take (length b) (drop pos (content k)).
Proof.
  split.
  - intros Hh. apply list_eq. intros j. destruct (decide (j < length b)%nat) as [Hj|Hj].
    + rewrite lookup_take_lt, lookup_drop by done.
      destruct (lookup_lt_is_Some_2 b j Hj) as [x Hx]. by rewrite Hx, (Hh j x Hx).
    + rewrite lookup_take_ge by lia. apply lookup_ge_None. lia.
  - intros E j x Hx. pose proof (lookup_lt_Some _ _ _ Hx). rewrite E in Hx.
    by rewrite lookup_take_lt, lookup_drop in Hx by done.
Qed.

Lemma parse_range_bounds range st en :
  parse_range range = Ok (st, en) -> 0 <= st <= en /\ en <= u64_max.
Proof.
  intros E. unfold parse_range in E. apply bind_Ok_inv in E as (spec & Hs & E).
  apply parse_range_spec_syntax, range_syntax_ok in Hs. destruct spec; [|done].
  by injection E as <- <-.
Qed.

Module NetDemo.
Definition demo_uri : UriParser := fun s => Some (mk_Uri s s).
Definition demo_visible : HeaderText :=
  {| visible_text _ := true; status_text := format_u64 |}.
Definition demo_ord : HashOrder text Z := sorted_order text Z.
Definition url : text := str "http://cdn.example/v.mp4".
Definition K : text := str "k".
Definition resource (k : text) : list byte := if decide (k = K) then str "01234567" else [].

Definition partial (cr cl : text) (frames : list (result text (list byte))) : HttpResponse :=
  mk_HttpResponse 206 [(CONTENT_RANGE, cr); (CONTENT_LENGTH, cl)] frames.
(** The connection breaks after four bytes, then the rest is served. *)
Definition r1 := partial (str "bytes 0-7/8") (str "8") [Ok (str "0123"); Err (str "reset")].
Definition r2 := partial (str "bytes 4-7/8") (str "4") [Ok (str "4567")].
Definition net0 : Net :=
  mk_Net (allow_hosts [str "cdn.example"]) [Timeout; Answered r1; Answered r2] [0; 5] [] [].

Lemma partial_honest {vis : HeaderText} content k cr cl frames s e t :
  content_range [(CONTENT_RANGE, cr); (CONTENT_LENGTH, cl)] s e t ->
  parse_u64 (trim (List.last (split x2f cr) [])) = Some (Z.of_nat (length (content k))) ->
  stream_bytes (v1_data_stream frames)
  = take (length (stream_bytes (v1_data_stream frames))) (drop (Z.to_nat s) (content k)) ->
  honest_response content k (partial cr cl frames).
Proof.
  intros Hc Ht Hb. split.
  - intros s' _ Hs'. unfold starts_at in Hs'. simpl in Hs'. destruct Hs' as (e' & t' & Hc').
    destruct (content_range_fun _ _ _ _ _ _ _ Hc Hc') as [<- _]. by apply honest_at_iff.
  - intros n (v & Hv & Hn)%declares_total_parse. simpl in Hv. injection Hv as <-. congruence.
  - intros v n H6. by simpl in H6.
Qed.

Lemma net0_honest : Forall (@honest_answer demo_visible resource K) (answers net0).
Proof.
  apply Forall_cons; split; [exact I|]. apply Forall_cons; split; [|apply Forall_singleton].
  - apply (partial_honest _ _ _ _ _ 0 7 (str "8"));
      [|vm_compute; reflexivity|vm_compute; reflexivity].
    apply (content_range_intro _ (str "bytes 0-7/8") (str "0") (str "7")); try reflexivity;
      refine (bool_decide_unpack _ _); vm_compute; exact I.
  - apply (partial_honest _ _ _ _ _ 4 7 (str "8"));
      [|vm_compute; reflexivity|vm_compute; reflexivity].
    apply (content_range_intro _ (str "bytes 4-7/8") (str "4") (str "7")); try reflexivity;
      refine (bool_decide_unpack _ _); vm_compute; exact I.
Qed.
End NetDemo.

Module NetClaims.
Import NetDemo.

(** The [Content-Range] of a partial response is accepted exactly when it
    reads [bytes s-e/t] with [s] the requested start, [s <= e], [e] within the
    requested end, [e - s + 1] the declared [Content-Length] and [t] an
    asterisk or a total beyond [e]. *)
Theorem verify_content_range_correct `{HeaderText} (hs : HeaderMap) (es ee cl : Z) :
  verify_content_range hs es ee cl = Ok tt
  <-> exists e t, content_range hs es e t
      /\ es <= e /\ (ee <> u64_max -> e <= ee) /\ cl = e - es + 1 /\ cl <= u64_max
      /\ (t = str "*" \/ exists n, parse_u64 t = Some n /\ e < n).
Proof. apply verify_content_range_iff. Qed.


Definition range8 : text := str "bytes=0-7".
Definition run1 := @download_stream demo_parser demo_uri demo_visible demo_ord demo_dns url range8 net0.
Definition resp1 : NetResponse RetryBody :=
  mk_NetResponse 206 (hr_headers r1) (wrap_with_retry (v1_data_stream (hr_frames r1)) url 0 7).
Definition run2 := @collect_all demo_uri demo_visible (body resp1) run1.2.
Lemma run1_result : run1 = (Ok (resp1, 8), run1.2).
Proof. apply run_result. vm_compute. reflexivity. Qed.
Lemma run2_result : run2 = ([Ok (str "0123"); Ok (str "4567")], run2.2).
Proof. apply run_result. vm_compute. reflexivity. Qed.

End NetClaims.
