(* ===== verification/Response.v ===== *)
(** * Responses ([handlers/response.rs], [http_types.rs])

    A response is a status, a header map and a body; what a body is belongs
    to the pipeline that produces it, so that the builder is generic in it. *)

From Stdlib Require Import Strings.Byte Strings.String.
From S2P Require Import Prelude Bytes Error External Headers Range NetSource.

Definition CACHE_CONTROL : text := str "cache-control".
Definition ACCEPT_RANGES : text := str "accept-ranges".
Definition ETAG : text := str "etag".
Definition LAST_MODIFIED : text := str "last-modified".

Definition ALLOWED_UPSTREAM_HEADERS : list text :=
  [CONTENT_TYPE; CACHE_CONTROL; ACCEPT_RANGES; ETAG; LAST_MODIFIED].

Definition allowed (name : text) : bool := bool_decide (name ∈ ALLOWED_UPSTREAM_HEADERS).

Record Response (B : Type) : Type := mk_Response {
  resp_status : Z;
  resp_headers : HeaderMap;
  resp_body : B;
}.
Arguments mk_Response {B}.
Arguments resp_status {B}.
Arguments resp_headers {B}.
Arguments resp_body {B}.

Definition content_range_text (start end_ total_size : Z) : text :=
  if 0 <? total_size then
    str "bytes " ++ format_u64 start ++ str "-" ++ format_u64 end_ ++ str "/" ++ format_u64 total_size
  else str "bytes " ++ format_u64 start ++ str "-" ++ format_u64 end_ ++ str "/*".

Definition build_partial_content_response {B} (stream : B) (headers : HeaderMap)
    (start end_ total_size : Z) : Result (Response B) :=
  if end_ =? OPEN_ENDED then
    Err (ProxyError.InvalidRange (str "响应范围未收敛：end 仍为开区间哨兵值"))
  else
    length ← range_length start end_;
    let content_range := content_range_text start end_ total_size in
    let forwarded := base.filter (fun kv : text * text => allowed kv.1 = true)
                       (headers : list (text * text)) in
    if negb (header_value_ok content_range) then
      Err (ProxyError.Request (str "无法构建 Content-Range"))
    else
      Ok (mk_Response 206
            (hinsert CONTENT_LENGTH (format_u64 length)
               (hinsert CONTENT_RANGE content_range forwarded)) stream).

(** ** What the builder guarantees *)

Lemma hget_elem name v h : hget name h = Some v -> (name, v) ∈ h.
Proof.
  induction h as [|[k u] h IH]; simpl; [done|]. case_decide as Hk.
  - intros [= ->]. subst. constructor.
  - intros Hv. constructor. auto.
Qed.

Lemma hinsert_elem name v h kv : kv ∈ hinsert name v h -> kv = (name, v) \/ kv ∈ h.
Proof.
  unfold hinsert, hremove. rewrite elem_of_app, list_elem_of_filter, list_elem_of_singleton. tauto.
Qed.

Lemma hget_filter (P : text -> bool) name h :
  P name = true -> hget name (base.filter (fun kv : text * text => P kv.1 = true) (h : list (text * text)))
  = hget name h.
Proof.
  intros HP. induction h as [|[k v] h IH]; [done|]. rewrite filter_cons. simpl.
  case_decide as Hk; simpl; [by case_decide|].
  rewrite decide_False; [done|]. intros ->. congruence.
Qed.

Lemma header_value_ok_app a b : header_value_ok (a ++ b) = header_value_ok a && header_value_ok b.
Proof. unfold header_value_ok. apply forallb_app. Qed.

Lemma header_value_ok_digits s : forallb is_digit s = true -> header_value_ok s = true.
Proof.
  unfold header_value_ok. rewrite !forallb_forall. intros Hs b Hb. specialize (Hs b Hb).
  unfold is_digit in Hs. bool_to_prop; simpl in *; try done; try lia.
Qed.

Lemma content_range_text_ok s e t : 0 <= s -> 0 <= e -> header_value_ok (content_range_text s e t) = true.
Proof.
  intros Hs He. unfold content_range_text. destruct (Z.ltb_spec 0 t); rewrite !header_value_ok_app;
    rewrite !(header_value_ok_digits (format_u64 _)) by (apply format_u64_digits; lia); done.
Qed.

Lemma build_partial_Ok {B} (body : B) h s e t r :
  0 <= s -> is_u64 e ->
  build_partial_content_response body h s e t = Ok r <->
  e <> OPEN_ENDED /\ s <= e
  /\ r = mk_Response 206
       (hinsert CONTENT_LENGTH (format_u64 (e - s + 1))
          (hinsert CONTENT_RANGE (content_range_text s e t)
             (base.filter (fun kv : text * text => allowed kv.1 = true) (h : list (text * text))))) body.
Proof.
  intros Hs [He1 He2]. unfold build_partial_content_response, OPEN_ENDED, range_length, checked_sub,
    checked_add in *.
  destruct (Z.eqb_spec e u64_max) as [|Hne]; [split; [done|intros (? & _); done]|].
  destruct (Z.leb_spec s e); [|split; [done|intros (_ & ? & _); lia]].
  cbn [mbind option_bind]. destruct (Z.leb_spec (e - s + 1) u64_max); [|lia].
  cbn [ok_or mbind result_bind]. rewrite content_range_text_ok by lia. cbn [negb].
  split; [intros [= <-]; done|intros (_ & _ & ->); done].
Qed.

Module ResponseTheorems.

(** A partial response is built exactly for a converged, ordered range;
    it has status 206, a [Content-Length] that is the number of bytes of the
    range, a [Content-Range] that names it, the upstream's values of the
    allowed headers, and no other header of the upstream. *)
Theorem partial_response_correct {B} (stream : B) (headers : HeaderMap) (start end_ total : Z) :
  0 <= start -> is_u64 end_ ->
  match build_partial_content_response stream headers start end_ total with
  | Ok r =>
      (end_ <> OPEN_ENDED /\ start <= end_)
      /\ resp_status r = 206 /\ resp_body r = stream
      /\ hget CONTENT_LENGTH (resp_headers r) = Some (format_u64 (end_ - start + 1))
      /\ hget CONTENT_RANGE (resp_headers r) = Some (content_range_text start end_ total)
      /\ (forall name, name ∈ ALLOWED_UPSTREAM_HEADERS ->
            hget name (resp_headers r) = hget name headers)
      /\ (forall name v, (name, v) ∈ resp_headers r ->
            name ∈ CONTENT_LENGTH :: CONTENT_RANGE :: ALLOWED_UPSTREAM_HEADERS)
  | Err e => (end_ = OPEN_ENDED \/ end_ < start) /\ exists msg, e = ProxyError.InvalidRange msg
  end.
Proof.
  intros Hs He.
  destruct (build_partial_content_response stream headers start end_ total) as [r|e] eqn:E.
  - apply build_partial_Ok in E as (Hne & Hle & ->); [|done|done].
    split_and!; try done; cbn [resp_headers].
    + by rewrite hget_hinsert_eq.
    + rewrite hget_hinsert_ne by done. by rewrite hget_hinsert_eq.
    + intros name Hn. assert (name <> CONTENT_LENGTH /\ name <> CONTENT_RANGE) as [N1 N2].
      { split; intros ->; by apply (bool_decide_eq_true_2 _) in Hn. }
      rewrite !hget_hinsert_ne by done. apply hget_filter. by apply bool_decide_eq_true.
    + intros name v Hin. apply hinsert_elem in Hin as [[= -> ->]|Hin]; [constructor|].
      apply hinsert_elem in Hin as [[= -> ->]|Hin]; [constructor; constructor|].
      apply list_elem_of_filter in Hin as [Hal%bool_decide_eq_true _]. by do 2 constructor.
  - unfold build_partial_content_response in E. destruct (Z.eqb_spec end_ OPEN_ENDED).
    { injection E as <-. eauto. }
    destruct He as [He1 He2].
    unfold range_length, checked_sub, checked_add in E. destruct (Z.leb_spec start end_).
    + cbn [mbind option_bind] in E. unfold OPEN_ENDED in *.
      destruct (Z.leb_spec (end_ - start + 1) u64_max); [|lia].
      cbn [ok_or mbind result_bind] in E. by rewrite content_range_text_ok in E by lia.
    + cbn in E. injection E as <-. eauto.
Qed.

Definition demo_headers : HeaderMap :=
  [(str "set-cookie", str "a=1"); (CONTENT_TYPE, str "video/mp4"); (ETAG, str "x")].

Lemma partial_response_correct_witness :
  match build_partial_content_response tt demo_headers 5 9 100 with
  | Ok r => hget CONTENT_LENGTH (resp_headers r) = Some (str "5")
            /\ hget CONTENT_TYPE (resp_headers r) = Some (str "video/mp4")
            /\ hget (str "set-cookie") (resp_headers r) = None
  | Err _ => False
  end.
Proof.
  pose proof (partial_response_correct tt demo_headers 5 9 100 ltac:(lia) ltac:(split; lia)) as H.
  destruct (build_partial_content_response tt demo_headers 5 9 100) as [r|e] eqn:E.
  - destruct H as (_ & _ & _ & H1 & _ & H2 & _). split; [exact H1|]. split.
    + rewrite (H2 CONTENT_TYPE); [reflexivity|]. refine (bool_decide_unpack _ _). vm_compute. exact I.
    + vm_compute in E. injection E as <-. vm_compute. reflexivity.
  - vm_compute in E. discriminate E.
Defined.
End ResponseTheorems.
