(* ===== verification/NetworkHandler.v ===== *)
(** * Fetching from the upstream ([handlers/network.rs]) *)

From Stdlib Require Import Strings.Byte Strings.String.
From S2P Require Import Prelude Bytes Error External Headers Range NetworkPolicy Storage NetSource NetTheorems Response.

(** The fields of [FetchedUpstream]. *)
Record FetchedUpstream : Type := mk_FetchedUpstream {
  fu_headers : HeaderMap;
  fu_content_length : Z;
  fu_meta : UpstreamMeta;
  fu_body : RetryBody;
}.

(** The stream of [into_parts]: every error becomes a network error. *)
Definition into_stream (items : stream) : stream :=
  map (fun i => map_err (fun e => ProxyError.Network (ProxyError.display e)) i) items.

Section Fetch.
Context `{UrlParser} `{UriParser} `{HeaderText} {ord : HashOrder text Z}.
Context (lookup : text -> Z -> option (list SocketAddr)).

Definition total_size_from_content_range (hs : HeaderMap) : Z :=
  default 0 (value ← hget CONTENT_RANGE hs;
             if visible_text value then parse_u64 (trim (List.last (split x2f value) [])) else None).

Definition extract_headers (hs : HeaderMap) : HeaderMap :=
  base.filter (fun kv : text * text => allowed kv.1 = true) (hs : list (text * text)).

(** The metadata [fetch] derives from an accepted response. *)
Definition fetched_meta (status : Z) (hs : HeaderMap) (content_length : Z) : UpstreamMeta :=
  let total_size :=
    match total_size_from_content_range hs with
    | 0 => if status =? 200 then content_length else 0
    | from_content_range => from_content_range
    end in
  mk_UpstreamMeta (if 0 <? total_size then Some total_size else None)
    (v ← hget CONTENT_TYPE (extract_headers hs); if visible_text v then Some v else None).

Definition fetch (url range : text) : io Net ProxyError.t FetchedUpstream :=
  '(resp, content_length) ← download_stream lookup url range;
  mret (mk_FetchedUpstream (extract_headers (nr_headers resp)) content_length
          (fetched_meta (status resp) (nr_headers resp) content_length) (body resp)).

(** The total that is read is the declared one. *)
Lemma total_size_declared hs n :
  n <> 0 -> total_size_from_content_range hs = n -> declares_total hs n.
Proof.
  intros Hn E. unfold total_size_from_content_range in E.
  destruct (hget CONTENT_RANGE hs) as [v|] eqn:Hv; simpl in E; [|done].
  destruct (visible_text v); [|done]. simpl in E.
  destruct (parse_u64 (trim (List.last (split x2f v) []))) as [m|] eqn:Ep; simpl in E; [|done].
  subst m. assert (Hex : exists t, (v = t \/ exists pre, v = pre ++ x2f :: t) /\ (x2f ∉ t)).
  { clear. induction v as [|b v (t & Hv & Ht)].
    - exists []. split; [by left|apply not_elem_of_nil].
    - destruct Hv as [->|[pre ->]].
      + destruct (decide (b = x2f)) as [->|Hb]; [exists t; split; [right; by exists []|done]|].
        exists (b :: t). split; [by left|]. by apply not_elem_of_cons.
      + exists t. split; [right; by exists (b :: pre)|done]. }
  destruct Hex as (t & Hvt & Ht). exists v, t. split_and!; try done.
  destruct Hvt as [->|[pre ->]]; [by rewrite (split_no_sep x2f t Ht) in Ep|by rewrite last_split in Ep].
Qed.
End Fetch.

Section Honest.
Context `{UrlParser} `{UriParser} `{HeaderText} {ord : HashOrder text Z}.
Context (lookup : text -> Z -> option (list SocketAddr)).
Context (content : text -> list byte) (k : text).
#[local] Set Default Proof Using "Type".

(** What a successful fetch hands to the pipeline when the upstream tells the
    truth. *)
Lemma fetch_run url range n r n' :
  fetch lookup url range n = (r, n') -> Forall (honest_answer content k) (answers n) ->
  Forall (honest_answer content k) (answers n')
  /\ forall f, r = Ok f -> exists st en, parse_range range = Ok (st, en)
       /\ rb_start (fu_body f) = st /\ rb_end (fu_body f) = en /\ rb_read (fu_body f) = 0
       /\ rb_ok content k (fu_body f)
       /\ (forall t, um_total_size (fu_meta f) = Some t -> t = Z.of_nat (length (content k)))
       /\ (forall kv, kv ∈ fu_headers f -> allowed kv.1 = true)
       /\ is_u64 (fu_content_length f).
Proof.
  intros E Hn. unfold fetch in E. run_bind E as rc n1 E1.
  2:{ subst r. apply download_stream_run in E1 as (m & _ & _ & Ha & _). split; [|done].
      rewrite Ha. by apply Forall_drop. }
  apply download_stream_run in E1 as (m & _ & _ & Ha & _ & Hok).
  destruct rc as [resp cl]. injection E as <- <-. split; [rewrite Ha; by apply Forall_drop|].
  intros f [= <-]. destruct (Hok resp cl eq_refl) as (_ & st & en & hr & Hp & Hin & Hh & ->).
  pose proof (parse_range_bounds _ _ _ Hp) as Hb. exists st, en.
  assert (Hhr : honest_response content k hr) by (rewrite Forall_forall in Hn; apply (Hn _ Hin)).
  destruct (check_head_Ok range st en hr cl ltac:(lia) Hh) as (Hst & (v & Hv & Hcl) & _).
  cbn [fu_body fu_meta fu_headers fu_content_length body status nr_headers wrap_with_retry
       rb_start rb_end rb_read]. split_and!; try done.
  - split; cbn; [lia|lia|unfold MAX_ATTEMPTS; lia|]. rewrite Z.add_0_r.
    apply (hn_bytes _ _ _ Hhr); [lia|done].
  - intros t Ht. unfold fetched_meta in Ht. cbn [um_total_size] in Ht.
    destruct (total_size_from_content_range (hr_headers hr)) as [|p|p] eqn:Et; [| |done].
    + destruct (Z.eqb_spec (hr_status hr) 200); [|done].
      destruct (Z.ltb_spec 0 cl); [|done]. injection Ht as <-.
      eapply (hn_length _ _ _ Hhr); [lia|done|done].
    + injection Ht as <-. by apply (hn_total _ _ _ Hhr), total_size_declared.
  - intros kv Hkv. by apply list_elem_of_filter in Hkv as [? _].
  - by apply parse_u64_range in Hcl.
Qed.
End Honest.
