(* ===== verification/Tee.v ===== *)
(** * Forking the upstream body ([handlers/tee.rs])

    The upstream body is forwarded to the client and to the cache writer, each
    behind a bounded channel.  What a channel answers to a send depends on the
    other side: it is read from a script, one for each side. *)

From S2P Require Import Prelude Bytes Error Storage.

Definition FORWARD_CHANNEL_CAPACITY : Z := 32.
Definition CLEANUP_THRESHOLD : nat := 64.
(** Milliseconds. *)
Definition CACHE_BACKPRESSURE_GRACE : Z := 1000.

(** ** Background tasks *)

(** A task and whether it has finished; [next] names the next task. *)
Record BackgroundTasks : Type := mk_BackgroundTasks {
  handles : list nat;
  running : gset nat;
  next_task : nat;
}.
Definition tasks_new : BackgroundTasks := mk_BackgroundTasks [] ∅ 0.

Definition spawn (t : BackgroundTasks) : nat * BackgroundTasks :=
  let kept :=
    if (CLEANUP_THRESHOLD <=? length (handles t))%nat
    then base.filter (fun h => h ∈ running t) (handles t) else handles t in
  (next_task t,
   mk_BackgroundTasks (kept ++ [next_task t]) ({[next_task t]} ∪ running t) (S (next_task t))).

(** A task comes to its end by itself. *)
Definition finish (h : nat) (t : BackgroundTasks) : BackgroundTasks :=
  mk_BackgroundTasks (handles t) (running t ∖ {[h]}) (next_task t).

Definition abort_all (t : BackgroundTasks) : BackgroundTasks :=
  mk_BackgroundTasks [] (running t ∖ list_to_set (handles t)) (next_task t).

Inductive tasks_step : BackgroundTasks -> BackgroundTasks -> Prop :=
| ts_spawn t : tasks_step t (spawn t).2
| ts_finish h t : tasks_step t (finish h t)
| ts_abort t : tasks_step t (abort_all t).
Inductive tasks_reachable : BackgroundTasks -> Prop :=
| tr_new : tasks_reachable tasks_new
| tr_step t t' : tasks_reachable t -> tasks_step t t' -> tasks_reachable t'.

(** ** Forwarding *)

(** What the cache channel does with an item: a free slot at once, closed, or
    full, and then what happens within the grace period. *)
Inductive grace : Type := Sent | ClosedMeanwhile | GraceExpired.
Inductive cache_send : Type := TrySent | TryClosed | TryFull (g : grace).

Definition send_to_cache (o : cache_send) : bool :=
  match o with
  | TrySent => true
  | TryClosed => false
  | TryFull Sent => true
  | TryFull ClosedMeanwhile => false
  | TryFull GraceExpired => false
  end.

(** [client] answers whether the client's channel took an item, [cache] what
    the cache's channel did; a script that has run out means the other side
    keeps up.  The result is what each side received. *)
Fixpoint forward_loop (upstream : stream) (client : list bool) (cache : list cache_send)
    (client_open cache_open : bool) : stream * stream :=
  match upstream with
  | [] => ([], [])
  | Ok chunk :: rest =>
      let client_sent := client_open && List.hd true client in
      let client_open' := client_sent in
      let client' := if client_open then List.tl client else client in
      let cache_sent := cache_open && send_to_cache (List.hd TrySent cache) in
      let cache' := if cache_open then List.tl cache else cache in
      let '(c, w) :=
        if negb client_open' && negb cache_sent then ([], [])
        else forward_loop rest client' cache' client_open' cache_sent in
      (if client_sent then Ok chunk :: c else c, if cache_sent then Ok chunk :: w else w)
  | Err error :: _ =>
      (if client_open && List.hd true client then [Err error] else [],
       if cache_open && send_to_cache (List.hd TrySent cache) then [Err error] else [])
  end.

Definition forward_upstream (upstream : stream) (client : list bool) (cache : list cache_send) :
    stream * stream :=
  forward_loop upstream client cache true true.

(** ** What each side receives *)

(** A body up to its first error, which is included. *)
Fixpoint until_error (s : stream) : stream :=
  match s with
  | [] => []
  | Ok c :: s' => Ok c :: until_error s'
  | Err e :: _ => [Err e]
  end.

(** A body cut after the items the script accepts. *)
Fixpoint cut (s : stream) (accepted : list bool) : stream :=
  match s with
  | [] => []
  | i :: s' => if List.hd true accepted then i :: cut s' (List.tl accepted) else []
  end.

Lemma forward_closed up client cache : forward_loop up client cache false false = ([], []).
Proof. by destruct up as [|[c|e] up]. Qed.

Lemma forward_client up client cache cache_open :
  (forward_loop up client cache true cache_open).1 = cut (until_error up) client.
Proof.
  revert client cache cache_open; induction up as [|[c|e] up IH]; intros client cache cache_open;
    [done| |]; cbn [forward_loop until_error cut andb].
  - destruct (List.hd true client); cbn [andb negb].
    + specialize (IH (List.tl client) (if cache_open then List.tl cache else cache)
        (cache_open && send_to_cache (List.hd TrySent cache))).
      destruct (forward_loop _ _ _ _ _) as [x y] eqn:E. simpl in *. by rewrite IH.
    + destruct (cache_open && _) eqn:Ec; cbn [negb]; [|done].
      assert (Hcl : forall up c w, (forward_loop up c w false true).1 = []).
      { clear. intros up. induction up as [|[c|e] up IH]; intros cl w; [done| |done].
        cbn [forward_loop andb negb]. destruct (send_to_cache _); cbn [negb]; [|done].
        specialize (IH cl (List.tl w)). by destruct (forward_loop _ _ _ _ _). }
      specialize (Hcl up (List.tl client) (if cache_open then List.tl cache else cache)).
      by destruct (forward_loop _ _ _ _ _).
  - by destruct (List.hd true client).
Qed.

Lemma forward_cache up client cache client_open :
  (forward_loop up client cache client_open true).2
  = cut (until_error up) (map send_to_cache cache).
Proof.
  revert client cache client_open; induction up as [|[c|e] up IH]; intros client cache client_open;
    [done| |]; cbn [forward_loop until_error cut andb].
  - assert (Hhd : List.hd true (map send_to_cache cache) = send_to_cache (List.hd TrySent cache))
      by (by destruct cache). rewrite Hhd.
    assert (Htl : List.tl (map send_to_cache cache) = map send_to_cache (List.tl cache))
      by (by destruct cache). rewrite Htl.
    destruct (send_to_cache (List.hd TrySent cache)); cbn [andb negb].
    + rewrite andb_false_r.
      specialize (IH (if client_open then List.tl client else client) (List.tl cache)
        (client_open && List.hd true client)).
      destruct (forward_loop _ _ _ _ _) as [x y] eqn:E. simpl in *. by rewrite IH.
    + rewrite andb_true_r. destruct (negb _) eqn:En; [done|].
      assert (Hcl : forall up c w b, (forward_loop up c w b false).2 = []).
      { clear. intros up. induction up as [|[c|e] up IH]; intros cl w b; [done| |done].
        cbn [forward_loop andb negb]. rewrite andb_true_r. destruct (negb _); [done|].
        specialize (IH (if b then List.tl cl else cl) w (b && List.hd true cl)).
        by destruct (forward_loop _ _ _ _ _). }
      specialize (Hcl up (if client_open then List.tl client else client) (List.tl cache)
        (client_open && List.hd true client)).
      by destruct (forward_loop _ _ _ _ _).
  - destruct cache as [|o cache]; [done|]. simpl. by destruct (send_to_cache o).
Qed.

Lemma until_error_bytes s : stream_bytes (until_error s) = stream_bytes s.
Proof. induction s as [|[c|e] s IH]; simpl; [done| |done]. by rewrite IH. Qed.

Lemma cut_prefix s acc : stream_bytes (cut s acc) `prefix_of` stream_bytes s.
Proof.
  revert acc; induction s as [|[c|e] s IH]; intros acc; simpl; [done| |].
  - destruct (List.hd true acc); simpl; [by apply prefix_app|apply prefix_nil].
  - by destruct (List.hd true acc).
Qed.

Lemma cut_all s acc : (forall b, b ∈ acc -> b = true) -> cut s acc = s.
Proof.
  revert acc; induction s as [|i s IH]; intros acc Ha; simpl; [done|].
  destruct acc as [|b acc]; simpl; [f_equal; apply IH; intros b Hb; by apply not_elem_of_nil in Hb|].
  rewrite (Ha b) by constructor. f_equal. apply IH. intros b' Hb'. apply Ha. by constructor.
Qed.

Module TeeTheorems.

(** The two sides of the fork are independent: what the client receives is
    the upstream body up to its first error, cut only where the client itself
    stops, whatever the cache side does; what the cache receives is the same
    body cut only where the cache side gives up, whatever the client does. *)
Theorem fork_independent (upstream : stream) (client : list bool) (cache : list cache_send) :
  let '(to_client, to_cache) := forward_upstream upstream client cache in
  to_client = cut (until_error upstream) client
  /\ to_cache = cut (until_error upstream) (map send_to_cache cache)
  /\ stream_bytes to_cache `prefix_of` stream_bytes upstream
  /\ ((forall b, b ∈ client -> b = true) -> to_client = until_error upstream)
  /\ ((forall b, b ∈ cache -> send_to_cache b = true) -> to_cache = until_error upstream).
Proof.
  unfold forward_upstream.
  pose proof (forward_client upstream client cache true) as H1.
  pose proof (forward_cache upstream client cache true) as H2.
  destruct (forward_loop upstream client cache true true) as [tc tw]. simpl in *. subst.
  split_and!; [done|done| | |].
  - rewrite <- (until_error_bytes upstream). apply cut_prefix.
  - apply cut_all.
  - intros Hc. apply cut_all. intros b (o & -> & Ho)%list_elem_of_fmap. by apply Hc.
Qed.

(** Every task that is still running is among the handles kept for
    shutdown, so that after [abort_all] none is. *)
Theorem abort_all_stops_everything (t : BackgroundTasks) :
  tasks_reachable t ->
  (forall h, h ∈ running t -> h ∈ handles t) /\ running (abort_all t) = ∅.
Proof.
  intros Hr.
  assert (Hin : forall h, h ∈ running t -> h ∈ handles t /\ (h < next_task t)%nat).
  { induction Hr as [|t t' _ IH Hs]; [set_solver|]. destruct Hs as [t|h t|t];
      unfold spawn, finish, abort_all; cbn [snd running handles next_task].
    - intros h. rewrite elem_of_union, elem_of_singleton, elem_of_app, list_elem_of_singleton.
      intros [->|Hh]; [split; [by right|lia]|]. destruct (IH h Hh). split; [left|lia].
      destruct (CLEANUP_THRESHOLD <=? length (handles t))%nat; [|done]. by apply list_elem_of_filter.
    - intros h' [Hh' _]%elem_of_difference. auto.
    - intros h' [Hh' Hn]%elem_of_difference. exfalso. apply Hn, elem_of_list_to_set. by apply IH. }
  split; [intros h Hh; by apply Hin|]. apply set_eq. intros h. simpl.
  rewrite elem_of_difference, elem_of_list_to_set. split; [|set_solver].
  intros [Hh Hn]. by destruct (Hn (proj1 (Hin h Hh))).
Qed.

Lemma abort_all_stops_everything_witness :
  running (spawn (spawn tasks_new).2).2 = {[0%nat; 1%nat]}
  /\ running (abort_all (spawn (spawn tasks_new).2).2) = ∅.
Proof.
  split; [vm_compute; reflexivity|].
  apply (abort_all_stops_everything (spawn (spawn tasks_new).2).2).
  repeat (eapply tr_step; [|apply ts_spawn]). apply tr_new.
Defined.
End TeeTheorems.
