(* ===== verification/Pipeline.v ===== *)
(** * The shared state of the request pipeline

    The storage manager and the table of running fetches are shared with all
    other requests and background tasks; the pipeline runs between their
    steps.  [w_env] is what they do: at every point where the code awaits, the
    next of these actions is applied to the shared state.  The clock readings
    and the expirations of time-outs to come are scripts as well.

    Also here: the cache handler ([handlers/cache.rs]), a thin layer over the
    manager, and the fork of an upstream body into a response and a background
    write. *)

From Stdlib Require Import Strings.String.
From S2P Require Import Prelude Bytes Error External Headers Range NetworkPolicy Storage Manager SingleFlight NetSource NetworkHandler Tee.

(** What [tee_to_cache] hands to its background tasks: the upstream body, the
    key and interval to write, and the leader's guard, if any. *)
Record Job : Type := mk_Job {
  j_body : RetryBody;
  j_key : text;
  j_range : Z * Z;
  j_guard : option nat;
}.

Section Pipeline.
Context {S R : Type}.

Definition Shared : Type := StorageManager S * SingleFlight.

Record World : Type := mk_World {
  w_shared : Shared;
  w_net : Net;
  w_env : list (Shared -> Shared);
  w_now : list Z;
  w_timeouts : list bool;
  w_jobs : list Job;
}.

(** The body of a response: nothing, bytes, a read stream of the cache, the
    client side of a fork, or a read stream followed by the client side of a
    fork, each limited to a number of bytes. *)
Inductive Body : Type :=
| EmptyBody
| FullBody (b : list byte)
| CacheBody (rd : R)
| ForwardBody (job : nat)
| MixedBody (rd : R) (cache_size : Z) (job : nat) (network_size : Z).

Abbreviation W := (io World ProxyError.t).

(** The others take a step. *)
Definition interfere (w : World) : World :=
  mk_World (match w_env w with f :: _ => f (w_shared w) | [] => w_shared w end) (w_net w)
    (List.tl (w_env w)) (w_now w) (w_timeouts w) (w_jobs w).

Definition set_shared (s : Shared) (w : World) : World :=
  mk_World s (w_net w) (w_env w) (w_now w) (w_timeouts w) (w_jobs w).
Definition set_net (n : Net) (w : World) : World :=
  mk_World (w_shared w) n (w_env w) (w_now w) (w_timeouts w) (w_jobs w).

(** A call on the storage manager. *)
Definition on_storage {A} (m : io (StorageManager S) ProxyError.t A) : W A := fun w =>
  let w := interfere w in
  let '(r, sm) := m (w_shared w).1 in (r, set_shared (sm, (w_shared w).2) w).

Definition on_net {A} (m : io Net ProxyError.t A) : W A := fun w =>
  let w := interfere w in
  let '(r, n) := m (w_net w) in (r, set_net n w).

Definition read_clock : W Z := fun w =>
  (Ok (List.hd 0 (w_now w)),
   mk_World (w_shared w) (w_net w) (w_env w) (List.tl (w_now w)) (w_timeouts w) (w_jobs w)).

Definition expired : W bool := fun w =>
  (Ok (List.hd false (w_timeouts w)),
   mk_World (w_shared w) (w_net w) (w_env w) (w_now w) (List.tl (w_timeouts w)) (w_jobs w)).

(** ** The cache handler *)

Context `{StorageEngine S R}.

Definition cache_check_range (k : text) (range : Z * Z) : W bool :=
  on_storage (Manager.check_range k range).
Definition cache_get_size (k : text) : W (option Z) := on_storage (Manager.get_size k).
Definition cache_read (k : text) (range : Z * Z) : W R :=
  now ← read_clock; on_storage (Manager.read k range now).
Definition cache_record_upstream_meta (k : text) (meta : UpstreamMeta) : W unit :=
  on_storage (Manager.record_upstream_meta k meta).
Definition cache_upstream_meta (k : text) : W UpstreamMeta := on_storage (Manager.upstream_meta k).
Definition write_stream (k : text) (range : Z * Z) (s : stream) : W unit :=
  now ← read_clock; _ ← on_storage (Manager.write k s range now); mret tt.

(** ** The fork *)

(** [tee_to_cache]: the two background tasks are registered; the response
    refers to them by number. *)
Definition tee_to_cache (upstream : RetryBody) (k : text) (range : Z * Z) (guard : option nat) :
    W nat := fun w =>
  (Ok (length (w_jobs w)),
   mk_World (w_shared w) (w_net w) (w_env w) (w_now w) (w_timeouts w)
     (w_jobs w ++ [mk_Job upstream k range guard])).

Definition drop_guard (guard : option nat) (w : World) : World :=
  match guard with
  | Some g => set_shared ((w_shared w).1, SingleFlight.drop g (w_shared w).2) w
  | None => w
  end.

Context `{UriParser} `{HeaderText}.

(** The background tasks of a fork, run to their end: the body is pulled from
    the upstream, both sides receive what their scripts let through, the cache
    side is written, and only then the guard is dropped.  The result is what
    the client received. *)
Definition run_job (job : Job) (client : list bool) (cache : list cache_send) (w : World) :
    stream * World :=
  let w := interfere w in
  let '(items, n) := collect_all (j_body job) (w_net w) in
  let '(to_client, to_cache) := forward_upstream (into_stream items) client cache in
  let '(_, w) := write_stream (j_key job) (j_range job) to_cache (set_net n w) in
  (to_client, drop_guard (j_guard job) w).

(** A read stream of the cache, polled to its end or its first error. *)
Fixpoint drain_items (fuel : nat) (rd : R) (w : World) : stream * World :=
  match fuel with
  | O => ([], w)
  | Datatypes.S fuel' =>
      match on_storage (on_engine (se_next rd)) w with
      | (Ok None, w') => ([], w')
      | (Ok (Some (b, rd')), w') => let '(l, w'') := drain_items fuel' rd' w' in (Ok b :: l, w'')
      | (Err e, w') => ([Err e], w')
      end
  end.
End Pipeline.
Arguments World : clear implicits.
Arguments Body : clear implicits.
Arguments Shared : clear implicits.
