(* ===== verification/MixedSource.v ===== *)
(** * Joining a cached prefix and a fetched rest ([handlers/mixed_source.rs]) *)

From Stdlib Require Import Strings.Byte Strings.String.
From S2P Require Import Prelude Bytes Error External Headers Range NetworkPolicy Storage Manager SingleFlight NetSource Response NetworkHandler Tee Pipeline.

(** Milliseconds. *)
Definition NETWORK_TIMEOUT : Z := 30000.

(** [usize] of a 64-bit target. *)
Definition usize_max : Z := u64_max.
Definition to_usize (z : Z) (msg : text) : Result Z :=
  if z <=? usize_max then Ok z else Err (ProxyError.InvalidRange msg).

(** The stream of [take_bytes], as the items it yields. *)
Fixpoint take_bytes (limit taken : Z) (s : stream) : stream :=
  if limit <=? taken then []
  else match s with
       | Ok [] :: s' => Ok [] :: take_bytes limit taken s'
       | Ok chunk :: s' =>
           let remaining := saturating_sub limit taken in
           let chunk_size := Z.min (Z.of_nat (length chunk)) remaining in
           Ok (take (Z.to_nat chunk_size) chunk)
             :: take_bytes limit (saturating_add taken chunk_size) s'
       | Err e :: _ => [Err e]
       | [] =>
           [Err (ProxyError.Network (str "流提前结束：期望 " ++ format_u64 limit
                   ++ str " 字节,实际 " ++ format_u64 taken ++ str " 字节"))]
       end.

Definition create_mixed_stream (cached network : stream) (cache_size network_size : Z) : stream :=
  take_bytes cache_size 0 cached ++ take_bytes network_size 0 network.

Section Mixed.
Context {S R : Type} `{StorageEngine S R}.
Context `{UrlParser} `{UriParser} `{HeaderText} {ord : HashOrder text Z}.
Context (lookup : text -> Z -> option (list SocketAddr)).

Abbreviation W := (io (World S) ProxyError.t).

(** The time-out covers the response head only. *)
Definition fetch_with_timeout (url range : text) : W FetchedUpstream :=
  t ← expired;
  r ← attempt (on_net (fetch lookup url range));
  if (t : bool) then throw (ProxyError.Network (str "网络请求超时"))
  else match r with
       | Ok fetched => mret fetched
       | Err error => throw error
       end.

Definition handle (url k : text) (start end_ cached_end : Z) : W (Response (Body R)) :=
  if end_ =? OPEN_ENDED then
    throw (ProxyError.InvalidRange (str "混合源范围未收敛：end 仍为开区间哨兵值"))
  else if (end_ <? start) || (cached_end <=? start) || (end_ <? cached_end) then
    throw (ProxyError.InvalidRange (str "无效的请求范围"))
  else
    cache_size ← lift (to_usize (cached_end - start) (str "缓存段长度超出可表示范围"));
    let range := str "bytes=" ++ format_u64 cached_end ++ str "-" ++ format_u64 end_ in
    fetched ← fetch_with_timeout url range;
    let end_ := clamp_end_to_upstream_length cached_end end_ (fu_content_length fetched) in
    network_size ← lift (n ← range_length cached_end end_;
                         to_usize n (str "网络段长度超出可表示范围"));
    _ ← lift (ok_or (checked_add cache_size network_size)
                (ProxyError.InvalidRange (str "请求范围长度超出可表示范围")));
    let total_file_size := default 0 (um_total_size (fu_meta fetched)) in
    rd ← cache_read k (start, cached_end - 1);
    job ← tee_to_cache (fu_body fetched) k (cached_end, end_) None;
    lift (build_partial_content_response (MixedBody rd cache_size job network_size)
            (fu_headers fetched) start end_ total_file_size).
End Mixed.

(** ** The joined stream *)

Definition error_free (s : stream) : bool := forallb is_ok s.

(** The bytes an arbitrary stream carries, errors skipped. *)
Lemma take_bytes_ended limit taken s : limit <= taken -> take_bytes limit taken s = [].
Proof. intros Hle. destruct s; simpl; by rewrite (proj2 (Z.leb_le limit taken)). Qed.

Lemma take_bytes_spec limit taken s :
  0 <= taken -> limit <= u64_max ->
  stream_bytes (take_bytes limit taken s)
  = take (Z.to_nat (limit - taken)) (stream_bytes s)
  /\ (error_free (take_bytes limit taken s) = true
      <-> limit - taken <= Z.of_nat (length (stream_bytes s))).
Proof.
  intros H0 Hmax. revert taken H0; induction s as [|[c|e] s IH]; intros taken H0.
  - destruct (Z.leb_spec limit taken) as [Hle|Hlt].
    + rewrite take_bytes_ended by done. cbn [stream_bytes]. rewrite take_nil. split; [done|].
      simpl. split; [lia|done].
    + simpl. rewrite (proj2 (Z.leb_gt limit taken)) by done. simpl. rewrite take_nil.
      split; [done|]. split; [done|lia].
  - destruct (Z.leb_spec limit taken) as [Hle|Hlt].
    + rewrite take_bytes_ended by done. replace (Z.to_nat (limit - taken)) with 0%nat by lia.
      split; [done|]. simpl. split; [lia|done].
    + destruct c as [|b c].
      * simpl. rewrite (proj2 (Z.leb_gt limit taken)) by done. simpl. by apply IH.
      * cbn [take_bytes]. rewrite (proj2 (Z.leb_gt limit taken)) by done.
        set (chunk := b :: c). set (n := Z.min (Z.of_nat (length chunk)) (saturating_sub limit taken)).
        assert (Hn : n = Z.min (Z.of_nat (length chunk)) (limit - taken))
          by (unfold n, saturating_sub; lia).
        assert (Hs : saturating_add taken n = taken + n) by (unfold saturating_add; lia).
        rewrite Hs. cbn [stream_bytes error_free forallb is_ok andb].
        destruct (IH (taken + n) ltac:(lia)) as [I1 I2]. rewrite I1. fold (error_free (take_bytes limit (taken + n) s)).
        rewrite I2, length_app. split; [|lia].
        destruct (Z.le_gt_cases (Z.of_nat (length chunk)) (limit - taken)).
        -- rewrite (take_ge chunk) by lia. rewrite take_app_ge by lia. f_equal. f_equal. lia.
        -- rewrite take_app_le by lia. replace (Z.to_nat (limit - (taken + n))) with 0%nat by lia.
           rewrite take_0, app_nil_r. f_equal. lia.
  - destruct (Z.leb_spec limit taken) as [Hle|Hlt].
    + rewrite take_bytes_ended by done. replace (Z.to_nat (limit - taken)) with 0%nat by lia.
      split; [done|]. simpl. split; [lia|done].
    + simpl. rewrite (proj2 (Z.leb_gt limit taken)) by done. simpl. rewrite take_nil.
      split; [done|]. split; [done|lia].
Qed.

Lemma stream_bytes_app s1 s2 :
  error_free s1 = true -> stream_bytes (s1 ++ s2) = stream_bytes s1 ++ stream_bytes s2.
Proof.
  unfold error_free. induction s1 as [|[c|e] s1 IH]; simpl; [done| |done].
  intros He. by rewrite IH, app_assoc.
Qed.

Lemma stream_bytes_app_error s1 s2 :
  error_free s1 = false -> stream_bytes (s1 ++ s2) = stream_bytes s1.
Proof.
  unfold error_free. induction s1 as [|[c|e] s1 IH]; simpl; [done| |done].
  intros He. by rewrite IH.
Qed.

Module MixedTheorems.

(** C26: the joined stream of a cached and a fetched part delivers exactly the
    first [cache_size] bytes of the one followed by the first [network_size]
    bytes of the other, surplus bytes cut off; it is free of errors exactly
    when both parts are long enough, and otherwise what precedes its first
    error is a prefix of those bytes. *)
Theorem mixed_stream_correct (cached network : stream) (cache_size network_size : Z) :
  0 <= cache_size <= u64_max -> 0 <= network_size <= u64_max ->
  let out := create_mixed_stream cached network cache_size network_size in
  let whole := take (Z.to_nat cache_size) (stream_bytes cached)
               ++ take (Z.to_nat network_size) (stream_bytes network) in
  (error_free out = true
   <-> cache_size <= Z.of_nat (length (stream_bytes cached))
       /\ network_size <= Z.of_nat (length (stream_bytes network)))
  /\ (error_free out = true ->
      stream_bytes out = whole /\ Z.of_nat (length whole) = cache_size + network_size)
  /\ stream_bytes out `prefix_of` whole.
Proof.
  intros Hc Hn. cbv zeta. unfold create_mixed_stream.
  destruct (take_bytes_spec cache_size 0 cached ltac:(lia) ltac:(lia)) as [C1 C2].
  destruct (take_bytes_spec network_size 0 network ltac:(lia) ltac:(lia)) as [N1 N2].
  rewrite Z.sub_0_r in *.
  assert (He : error_free (take_bytes cache_size 0 cached ++ take_bytes network_size 0 network)
            = error_free (take_bytes cache_size 0 cached)
              && error_free (take_bytes network_size 0 network))
    by (unfold error_free; apply forallb_app).
  rewrite He, andb_true_iff, C2, N2. split_and!; [done| |].
  - intros [Hl1 Hl2]. rewrite stream_bytes_app by (by apply C2). rewrite C1, N1. split; [done|].
    rewrite length_app, !length_take. lia.
  - destruct (error_free (take_bytes cache_size 0 cached)) eqn:E.
    + rewrite stream_bytes_app by done. by rewrite C1, N1.
    + rewrite stream_bytes_app_error by done. rewrite C1. by apply prefix_app_r.
Qed.

Lemma mixed_stream_correct_witness :
  stream_bytes (create_mixed_stream [Ok (str "01"); Ok (str "23")] [Ok []; Ok (str "4567")] 3 2)
  = str "01245".
Proof.
  destruct (mixed_stream_correct [Ok (str "01"); Ok (str "23")] [Ok []; Ok (str "4567")] 3 2)
    as (_ & H & _); [lia|lia|]. exact (proj1 (H eq_refl)).
Defined.
End MixedTheorems.
