(* ===== verification/DataSourceManager.v ===== *)
(** * The data source manager ([data_source_manager.rs])

    One request: serve it from the cache, from the cache and the network, or
    from the network, where identical fetches are coalesced. *)

From Stdlib Require Import Strings.Byte Strings.String.
From S2P Require Import Prelude Bytes Error External Headers Range NetworkPolicy DataRequest Storage Manager SingleFlight NetSource Response NetworkHandler Tee Pipeline MixedSource.

(** [value.parse::<HeaderValue>()]. *)
Definition headers_from_meta (meta : UpstreamMeta) : HeaderMap :=
  match um_content_type meta with
  | Some value => if header_value_ok value then hinsert CONTENT_TYPE value [] else []
  | None => []
  end.

Inductive MixedPlan : Type :=
| NoCache
| WholeRangeCached
| Stitch (cached_end : Z).

Definition plan_mixed (start end_ cached_size : Z) : MixedPlan :=
  if cached_size <=? start then NoCache
  else if end_ <? cached_size then WholeRangeCached
  else Stitch cached_size.

Section Manager.
Context {S R : Type} `{StorageEngine S R}.
Context `{UrlParser} `{UriParser} `{HeaderText} {ord : HashOrder text Z}.
Context (lookup : text -> Z -> option (list SocketAddr)).

Abbreviation W := (io (World S) ProxyError.t).

Definition probe_upstream_meta (url k : text) : W UpstreamMeta :=
  fetched ← on_net (fetch lookup url (str "bytes=0-0"));
  let meta := fu_meta fetched in
  _ ← cache_record_upstream_meta k meta;
  mret meta.

Definition try_serve_from_cache (k : text) (meta : UpstreamMeta) (start requested_end : Z) :
    W (option (Response (Body R))) :=
  match um_total_size meta with
  | None => mret None
  | Some total_size =>
      '(start, end_) ← lift (resolve_range start requested_end (Some total_size));
      cached ← cache_check_range k (start, end_);
      if negb cached then mret None
      else
        rd ← cache_read k (start, end_);
        r ← lift (build_partial_content_response (CacheBody rd) (headers_from_meta meta)
                    start end_ total_size);
        mret (Some r)
  end.

Definition try_serve_mixed (url k : text) (meta : UpstreamMeta) (start requested_end : Z) :
    W (option (Response (Body R))) :=
  match um_total_size meta with
  | None => mret None
  | Some total_size =>
      '(start, end_) ← lift (resolve_range start requested_end (Some total_size));
      size ← cache_get_size k;
      let cached_size := default 0 size in
      match plan_mixed start end_ cached_size with
      | NoCache => mret None
      | WholeRangeCached => try_serve_from_cache k meta start requested_end
      | Stitch cached_end =>
          cached ← cache_check_range k (start, cached_end - 1);
          if negb cached then mret None
          else
            r ← handle lookup url k start end_ cached_end;
            mret (Some r)
      end
  end.

(** A guard that leaves scope on an error path is dropped there. *)
Definition with_guard {A} (guard : option nat) (m : W A) : W A := fun w =>
  match m w with
  | (Ok a, w') => (Ok a, w')
  | (Err e, w') => (Err e, drop_guard guard w')
  end.

Definition fetch_from_network (url k range : text) (start requested_end : Z) (guard : option nat) :
    W (Response (Body R)) :=
  '(fetched, start, end_) ← with_guard guard (
    fetched ← on_net (fetch lookup url range);
    '(start, end_) ← lift (resolve_range start requested_end (um_total_size (fu_meta fetched)));
    mret (fetched, start, end_));
  let upstream_length := fu_content_length fetched in
  let meta := fu_meta fetched in
  let end_ := clamp_end_to_upstream_length start end_ upstream_length in
  let total_size := default 0 (um_total_size meta) in
  _ ← attempt (cache_record_upstream_meta k meta);
  job ← tee_to_cache (fu_body fetched) k (start, end_) guard;
  lift (build_partial_content_response (ForwardBody job) (fu_headers fetched) start end_ total_size).

(** The wait of a follower gives way to the others; whether it was notified
    or timed out only changes what is logged. *)
Definition follower_wait (f : nat) : W unit := fun w =>
  let w := interfere w in
  (Ok tt, set_shared ((w_shared w).1, leave f (w_shared w).2) w).

Definition serve_as_follower (f : nat) (url k range : text) (start requested_end : Z) :
    W (Response (Body R)) :=
  _ ← follower_wait f;
  meta ← cache_upstream_meta k;
  r ← try_serve_from_cache k meta start requested_end;
  match r with
  | Some response => mret response
  | None =>
      r ← try_serve_mixed url k meta start requested_end;
      match r with
      | Some response => mret response
      | None => fetch_from_network url k range start requested_end None
      end
  end.

Definition join_flight (k : text) (start requested_end : Z) : W Join := fun w =>
  let '(j, sf) := SingleFlight.join (k, start, requested_end) (w_shared w).2 in
  (Ok j, set_shared ((w_shared w).1, sf) w).

Definition process_request (req : DataRequest) : W (Response (Body R)) :=
  let url := DataRequest.url req in
  let k := cache_key req in
  spec ← lift (parse_range_spec (DataRequest.range req));
  meta ← cache_upstream_meta k;
  meta ← (match spec with
          | Suffix _ =>
              if bool_decide (um_total_size meta = None) then probe_upstream_meta url k else mret meta
          | Offset _ _ => mret meta
          end);
  '(start, requested_end) ← lift (endpoints spec (um_total_size meta));
  let range := format_range start requested_end in
  r ← try_serve_from_cache k meta start requested_end;
  match r with
  | Some response => mret response
  | None =>
      r ← try_serve_mixed url k meta start requested_end;
      match r with
      | Some response => mret response
      | None =>
          j ← join_flight k start requested_end;
          match j with
          | Leader g =>
              fetch_from_network url k range start requested_end (Some g)
          | Follower f => serve_as_follower f url k range start requested_end
          end
      end
  end.

Definition process_head (req : DataRequest) : W (Response (Body R)) :=
  let k := cache_key req in
  meta ← cache_upstream_meta k;
  meta ← (if bool_decide (um_total_size meta = None)
          then probe_upstream_meta (DataRequest.url req) k else mret meta);
  total ← lift (ok_or (um_total_size meta) (ProxyError.InvalidRange (str "上游未提供资源总长度")));
  '(status, content_length, content_range) ←
    lift (if client_sent_range req then
            spec ← parse_range_spec (DataRequest.range req);
            '(start, end_) ← endpoints spec (Some total);
            '(start, end_) ← resolve_range start end_ (Some total);
            length ← range_length start end_;
            Ok (206, length, Some (str "bytes " ++ format_u64 start ++ str "-" ++ format_u64 end_
                                   ++ str "/" ++ format_u64 total))
          else Ok (200, total, None));
  let hs := [(ACCEPT_RANGES, str "bytes"); (CONTENT_LENGTH, format_u64 content_length)] in
  hs ← lift (match um_content_type meta with
             | Some ct => if header_value_ok ct then Ok (happend CONTENT_TYPE ct hs)
                          else Err (ProxyError.Request (str "failed to parse header value"))
             | None => Ok hs
             end);
  let hs := match content_range with Some cr => happend CONTENT_RANGE cr hs | None => hs end in
  mret (mk_Response status hs EmptyBody).

(** ** Serving the body *)

(** The client reads a response to its end; [client] and [cache] are the
    scripts of the two sides of a fork, [fuel] bounds the chunks read from the
    cache. *)
Definition deliver (fuel : nat) (b : Body R) (client : list bool) (cache : list cache_send)
    (w : World S) : stream * World S :=
  match b with
  | EmptyBody => ([], w)
  | FullBody bs => ([Ok bs], w)
  | CacheBody rd => drain_items fuel rd w
  | ForwardBody job =>
      match w_jobs w !! job with
      | Some j => run_job j client cache w
      | None => ([], w)
      end
  | MixedBody rd cache_size job network_size =>
      let '(cached, w) := drain_items fuel rd w in
      match w_jobs w !! job with
      | Some j =>
          let '(network, w) := run_job j client cache w in
          (create_mixed_stream cached network cache_size network_size, w)
      | None => (take_bytes cache_size 0 cached, w)
      end
  end.
End Manager.
