(* ===== verification/PipelineTheorems.v ===== *)
(** * The request pipeline: theorems

    End to end: whatever path a request takes (cache, joined, network, leader
    or follower), whatever the other tasks do at its await points and whatever
    the network answers, the response describes an interval of the resource and
    its body delivers bytes of exactly that interval; and the cache stays sound.

    The proofs are against the storage contract ([Storage]). *)

From Stdlib Require Import Strings.Byte Strings.String.
From S2P Require Import Prelude Bytes Error External Headers Range NetworkPolicy DataRequest Storage Manager SingleFlight NetSource NetTheorems Response NetworkHandler Tee Pipeline MixedSource DataSourceManager.

Section Pipeline.
Context {S R : Type} {engine : StorageEngine S R}.
Context `{UrlParser} `{UriParser} `{HeaderText} {ord : HashOrder text Z}.
Context (lookup : text -> Z -> option (list SocketAddr)).
Context (content : text -> list byte) (InUse : text -> Prop).
Context {spec : EngineSpec engine content InUse}.
Context (k : text) (HU : InUse k).
#[local] Set Default Proof Using "Type*".

Abbreviation eng w := (sm_engine (w_shared w).1).

(** What the other tasks may do to the shared state. *)
Definition env_ok (f : Shared S -> Shared S) : Prop :=
  forall sh, es_inv (sm_engine sh.1) ->
    es_inv (sm_engine (f sh).1) /\ es_ext (sm_engine sh.1) (sm_engine (f sh).1).

(** A fork whose body starts where its interval does. *)
Definition job_ok (j : Job) : Prop :=
  j_key j = k /\ rb_ok content k (j_body j) /\ 0 <= rb_end (j_body j) <= OPEN_ENDED
  /\ rb_read (j_body j) = 0 /\ rb_start (j_body j) = (j_range j).1.

Record world_ok (w : World S) : Prop := {
  wo_engine : es_inv (eng w);
  wo_env : Forall env_ok (w_env w);
  wo_net : Forall (honest_answer content k) (answers (w_net w));
  wo_jobs : Forall job_ok (w_jobs w);
}.

Definition world_ext (w w' : World S) : Prop :=
  es_ext (eng w) (eng w') /\ w_jobs w `prefix_of` w_jobs w'.
#[export] Instance world_ext_preorder : PreOrder world_ext.
Proof.
  split.
  - intros w. split; [reflexivity|done].
  - intros w1 w2 w3 [E1 P1] [E2 P2]. split; by etrans.
Qed.

(** ** Triples *)

Definition triple {A} (P : World S -> Prop) (m : io (World S) ProxyError.t A)
    (Q : A -> World S -> Prop) : Prop :=
  forall w r w', world_ok w -> P w -> m w = (r, w') ->
    world_ok w' /\ world_ext w w' /\ forall a, r = Ok a -> Q a w'.

Lemma triple_bind {A B} P (m : io (World S) ProxyError.t A) Q (f : A -> io (World S) ProxyError.t B) Q' :
  triple P m Q -> (forall a, triple (Q a) (f a) Q') -> triple P (m ≫= f) Q'.
Proof.
  intros Hm Hf w r w' Hw HP E. apply io_bind_inv in E as [(a & w1 & E1 & E2)|(e & E1 & ->)].
  - destruct (Hm _ _ _ Hw HP E1) as (W1 & X1 & HQ).
    destruct (Hf a _ _ _ W1 (HQ a eq_refl) E2) as (W2 & X2 & HQ'). split_and!; [done|by etrans|done].
  - destruct (Hm _ _ _ Hw HP E1) as (W1 & X1 & _). by split_and!.
Qed.

Lemma triple_ret {A} (P : World S -> Prop) (a : A) : triple P (mret a) (fun a' w => a' = a /\ P w).
Proof. intros w r w' Hw HP [= <- <-]. split_and!; [done|reflexivity|]. by intros ? [= <-]. Qed.

Lemma triple_lift {A} (P : World S -> Prop) (r : Result A) :
  triple P (lift r) (fun a w => r = Ok a /\ P w).
Proof. intros w r' w' Hw HP [= <- <-]. split_and!; [done|reflexivity|]. done. Qed.

Lemma triple_throw {A} (P : World S -> Prop) e Q : triple P (@throw (World S) ProxyError.t A e) Q.
Proof. intros w r w' Hw HP [= <- <-]. split_and!; [done|reflexivity|done]. Qed.

Lemma triple_post {A} P (m : io (World S) ProxyError.t A) (Q Q' : A -> World S -> Prop) :
  triple P m Q -> (forall a w, Q a w -> Q' a w) -> triple P m Q'.
Proof. intros Hm HQ w r w' Hw HP E. destruct (Hm _ _ _ Hw HP E) as (? & ? & ?). split_and!; auto. Qed.

Lemma triple_pre {A} (P P' : World S -> Prop) (m : io (World S) ProxyError.t A) Q :
  (forall w, P' w -> P w) -> triple P m Q -> triple P' m Q.
Proof. intros HP Hm w r w' Hw HP' E. by apply (Hm w r w' Hw (HP _ HP')). Qed.

(** A fact that survives what others do can be carried along. *)
Definition stable (F : World S -> Prop) : Prop := forall w w', world_ext w w' -> F w -> F w'.
Lemma triple_frame {A} F P (m : io (World S) ProxyError.t A) Q :
  stable F -> triple P m Q -> triple (fun w => P w /\ F w) m (fun a w => Q a w /\ F w).
Proof.
  intros HF Hm w r w' Hw [HP HFw] E. destruct (Hm _ _ _ Hw HP E) as (? & Hx & ?).
  split_and!; try done. intros a Ha. split; [auto|by eapply HF].
Qed.

Lemma triple_attempt {A} P (m : io (World S) ProxyError.t A) Q :
  triple P m Q -> triple P (attempt m) (fun r w => forall a, r = Ok a -> Q a w).
Proof.
  intros Hm w r w' Hw HP E. unfold attempt in E. destruct (m w) as [r1 w1] eqn:E1.
  injection E as <- <-. destruct (Hm _ _ _ Hw HP E1) as (? & ? & HQ). split_and!; try done.
  intros r [= <-]. done.
Qed.

Lemma triple_prop {A} (p : Prop) P (m : io (World S) ProxyError.t A) Q :
  (p -> triple P m Q) -> triple (fun w => p /\ P w) m Q.
Proof. intros Hm w r w' Hw [Hp HP] E. by apply (Hm Hp w r w' Hw HP E). Qed.

Definition any (w : World S) : Prop := True.

(** ** Primitive steps *)

Lemma interfere_ok w : world_ok w -> world_ok (interfere w) /\ world_ext w (interfere w).
Proof.
  intros [He Hv Hn Hj]. unfold interfere. destruct (w_env w) as [|f env] eqn:Ee; simpl.
  - split; [by split|split; [reflexivity|done]].
  - apply Forall_cons in Hv as [Hf Hv]. destruct (Hf _ He) as [H1' H2'].
    split; [by split|by split].
Qed.

Lemma triple_storage {A} (m : io (StorageManager S) ProxyError.t A) (Q : A -> S -> Prop) :
  (forall sm r sm', es_inv (sm_engine sm) -> m sm = (r, sm') ->
     es_inv (sm_engine sm') /\ es_ext (sm_engine sm) (sm_engine sm')
     /\ forall a, r = Ok a -> Q a (sm_engine sm')) ->
  triple any (on_storage m) (fun a w => Q a (eng w)).
Proof.
  intros Hm w r w' Hw _ E. unfold on_storage in E.
  destruct (interfere_ok w Hw) as [[I1 I2 I3 I4] X1].
  destruct (m (w_shared (interfere w)).1) as [r1 sm] eqn:E1. injection E as <- <-.
  destruct (Hm _ _ _ I1 E1) as (J1 & J2 & J3). split_and!.
  - by split.
  - etrans; [exact X1|]. by split.
  - done.
Qed.

Lemma triple_net {A} (m : io Net ProxyError.t A) (Q : A -> Prop) :
  (forall n r n', Forall (honest_answer content k) (answers n) -> m n = (r, n') ->
     Forall (honest_answer content k) (answers n') /\ forall a, r = Ok a -> Q a) ->
  triple any (on_net m) (fun a w => Q a).
Proof.
  intros Hm w r w' Hw _ E. unfold on_net in E.
  destruct (interfere_ok w Hw) as [[I1 I2 I3 I4] X1].
  destruct (m (w_net (interfere w))) as [r1 n1] eqn:E1. injection E as <- <-.
  destruct (Hm _ _ _ I3 E1) as (J1 & J2). split_and!; [by split|exact X1|done].
Qed.

Lemma triple_clock P : stable P -> triple P (@read_clock S) (fun _ w => P w).
Proof.
  intros HP w r w' [? ? ? ?] HPw [= <- <-]. split_and!; [by split|split; [reflexivity|done]|].
  intros _ _. eapply HP; [|exact HPw]. split; [reflexivity|done].
Qed.

Lemma triple_expired P : stable P -> triple P (@expired S) (fun _ w => P w).
Proof.
  intros HP w r w' [? ? ? ?] HPw [= <- <-]. split_and!; [by split|split; [reflexivity|done]|].
  intros _ _. eapply HP; [|exact HPw]. split; [reflexivity|done].
Qed.

Lemma on_engine_run {A} (m : io S ProxyError.t A) (sm : StorageManager S) r sm' :
  on_engine m sm = (r, sm') -> m (sm_engine sm) = (r, sm_engine sm').
Proof. unfold on_engine. destruct (m (sm_engine sm)) as [r1 s]. by intros [= <- <-]. Qed.

(** ** The cache handler *)

Lemma triple_upstream_meta :
  triple any (cache_upstream_meta k)
    (fun m w => forall t, um_total_size m = Some t -> t = Z.of_nat (length (content k))).
Proof.
  eapply triple_post; [apply (triple_storage _
    (fun m _ => forall t, um_total_size m = Some t -> t = Z.of_nat (length (content k))))|done].
  intros sm r sm' Hi E%on_engine_run.
  destruct (es_upstream_meta k _ _ _ HU Hi E) as (? & ? & Hm). split_and!; eauto.
Qed.

Lemma triple_record_meta m :
  (forall t, um_total_size m = Some t -> t = Z.of_nat (length (content k))) ->
  triple any (cache_record_upstream_meta k m) (fun _ w => True).
Proof.
  intros Hm. apply (triple_storage _ (fun _ _ => True)). intros sm r sm' Hi E%on_engine_run.
  by destruct (es_record_upstream_meta k m _ _ _ HU Hi Hm E).
Qed.

Lemma triple_check_range range : triple any (cache_check_range k range) (fun _ _ => True).
Proof.
  apply (triple_storage _ (fun _ _ => True)). intros sm r sm' Hi E%on_engine_run.
  by destruct (es_check_range k range _ _ _ HU Hi E).
Qed.

Lemma triple_get_size : triple any (cache_get_size k) (fun _ _ => True).
Proof.
  apply (triple_storage _ (fun _ _ => True)). intros sm r sm' Hi E. unfold Manager.get_size in E.
  destruct (cache_entries sm !! k); [injection E as <- <-; split_and!; [done|reflexivity|done]|].
  apply on_engine_run in E. by destruct (es_get_size k _ _ _ HU Hi E).
Qed.

Lemma touch_engine (k' : text) now (sm : StorageManager S) : sm_engine (touch k' now sm) = sm_engine sm.
Proof. unfold touch. by destruct (cache_entries sm !! k'). Qed.

Lemma triple_read start end_ :
  0 <= start -> end_ <> OPEN_ENDED ->
  triple any (cache_read k (start, end_))
    (fun rd w => es_reading (eng w) k start (end_ - start + 1) 0 rd /\ start <= end_).
Proof.
  intros Hs He. unfold cache_read. eapply triple_bind; [by apply triple_clock|]. intros now.
  apply (triple_storage _ (fun rd s => es_reading s k start (end_ - start + 1) 0 rd /\ start <= end_)).
  intros sm r sm' Hi E. unfold Manager.read in E. rewrite (io_bind_Ok _ _ _ tt (touch k now sm)) in E by done.
  apply on_engine_run in E. rewrite touch_engine in E.
  destruct (es_read k (start, end_) _ _ _ HU Hi Hs E) as (? & ? & Hr). split_and!; try done.
  intros rd ->. destruct (Hr rd eq_refl) as (total & Hrd & Hpos & Ht). simpl in *.
  rewrite (Ht He) in *. split; [done|lia].
Qed.

Lemma book_write_engine (k' : text) st n now (sm : StorageManager S) :
  sm_engine (book_write k' st n now sm) = sm_engine sm.
Proof. unfold book_write. destruct (cache_entries sm !! k'); [by case_match|done]. Qed.

Lemma triple_write_stream range s :
  0 <= range.1 -> honest_at content k (Z.to_nat range.1) (stream_bytes s) ->
  triple any (write_stream k range s) (fun _ _ => True).
Proof.
  intros Hr Hh. unfold write_stream. eapply triple_bind; [by apply triple_clock|]. intros now.
  eapply triple_bind; [apply (triple_storage _ (fun _ _ => True))|intros n; eapply triple_post;
    [apply (triple_ret any)|done]].
  intros sm r sm' Hi E. unfold Manager.write in E.
  apply io_bind_inv in E as [(n & sm1 & E1 & E)|(e & E1 & ->)]; apply on_engine_run in E1;
    destruct (es_write k s range _ _ _ HU Hi Hr Hh E1) as (? & ? & _); [|done].
  injection E as <- <-. rewrite book_write_engine. done.
Qed.

(** ** Fetching *)

Definition fetched_ok (st en : Z) (f : FetchedUpstream) : Prop :=
  rb_start (fu_body f) = st /\ rb_end (fu_body f) = en /\ rb_read (fu_body f) = 0
  /\ rb_ok content k (fu_body f)
  /\ (forall t, um_total_size (fu_meta f) = Some t -> t = Z.of_nat (length (content k)))
  /\ is_u64 (fu_content_length f).

Lemma triple_fetch url range st en :
  parse_range range = Ok (st, en) ->
  triple any (on_net (fetch lookup url range)) (fun f w => fetched_ok st en f).
Proof.
  intros Hp. apply (triple_net _ (fetched_ok st en)). intros n r n' Hn E.
  destruct (fetch_run lookup content k url range n r n' E Hn) as [? Hok]. split; [done|].
  intros f ->. destruct (Hok f eq_refl) as (st' & en' & Hp' & ? & ? & ? & ? & ? & _ & ?).
  rewrite Hp in Hp'. injection Hp' as <- <-. by split_and!.
Qed.

Lemma triple_tee b range guard :
  job_ok (mk_Job b k range guard) ->
  triple any (@tee_to_cache S b k range guard)
    (fun j w => w_jobs w !! j = Some (mk_Job b k range guard)).
Proof.
  intros Hj w r w' [? ? ? Hw] _ [= <- <-]. split_and!.
  - split; simpl; try done. apply Forall_app. split; [done|]. by apply Forall_singleton.
  - split; simpl; [reflexivity|]. by apply prefix_app_r.
  - intros j [= <-]. simpl. apply list_lookup_middle. done.
Qed.
(** ** Responses *)

(** The response announces [start .. end_] of a resource of [total] bytes. *)
Definition describes (r : Response (Body R)) (start end_ total : Z) : Prop :=
  resp_status r = 206
  /\ hget CONTENT_LENGTH (resp_headers r) = Some (format_u64 (end_ - start + 1))
  /\ hget CONTENT_RANGE (resp_headers r) = Some (content_range_text start end_ total).

(** The body is set up to deliver that interval. *)
Definition body_ok (b : Body R) (start end_ requested_end : Z) (w : World S) : Prop :=
  match b with
  | EmptyBody | FullBody _ => False
  | CacheBody rd => es_reading (eng w) k start (end_ - start + 1) 0 rd
  | ForwardBody j => exists job, w_jobs w !! j = Some job /\ (j_range job).1 = start
                       /\ rb_end (j_body job) = requested_end
  | MixedBody rd cs j ns =>
      exists job, es_reading (eng w) k start cs 0 rd /\ w_jobs w !! j = Some job
        /\ (j_range job).1 = start + cs /\ 0 < cs /\ 0 < ns /\ cs + ns = end_ - start + 1
        /\ cs + ns <= u64_max
  end.

Definition served (start requested_end : Z) (r : Response (Body R)) (w : World S) : Prop :=
  exists end_ total, start <= end_ <= requested_end /\ end_ < u64_max
    /\ (total = 0 \/ total = Z.of_nat (length (content k)))
    /\ describes r start end_ total /\ body_ok (resp_body r) start end_ requested_end w.

Lemma prefix_lookup {A} (l l' : list A) i x : l `prefix_of` l' -> l !! i = Some x -> l' !! i = Some x.
Proof. intros [m ->] Hx. by apply lookup_app_l_Some. Qed.

Lemma reading_stable start total done rd :
  stable (fun w => es_reading (eng w) k start total done rd).
Proof. intros w w' [Hx _]. by apply es_reading_ext. Qed.
Lemma job_stable j job : stable (fun w => w_jobs w !! j = Some job).
Proof. intros w w' [_ Hx]. by apply prefix_lookup. Qed.

Lemma build_describes b h s e t r :
  0 <= s -> is_u64 e ->
  build_partial_content_response b h s e t = Ok r ->
  describes r s e t /\ resp_body r = b /\ e < u64_max /\ s <= e.
Proof.
  intros Hs He E. apply build_partial_Ok in E as (Hne & Hle & ->); [|done|done].
  unfold describes. cbn [resp_status resp_headers resp_body].
  rewrite hget_hinsert_eq, hget_hinsert_ne by done. rewrite hget_hinsert_eq.
  unfold OPEN_ENDED, is_u64 in *. split_and!; try done; lia.
Qed.

Definition truthful (m : UpstreamMeta) : Prop :=
  forall t, um_total_size m = Some t -> t = Z.of_nat (length (content k)).

Lemma clamp_bounds start end_ cl :
  0 <= start <= end_ -> end_ <= u64_max -> 0 <= cl ->
  start <= clamp_end_to_upstream_length start end_ cl <= end_.
Proof.
  intros Hs He Hc. unfold clamp_end_to_upstream_length, saturating_add.
  destruct cl; [lia| |lia]. pose proof (Pos2Z.is_pos p). lia.
Qed.

Context (Hfit : Z.of_nat (length (content k)) <= i64_max).

Lemma triple_from_cache m start requested_end :
  truthful m -> 0 <= start <= requested_end -> requested_end <= u64_max ->
  triple any (try_serve_from_cache k m start requested_end)
    (fun o w => forall r, o = Some r -> served start requested_end r w).
Proof using All.
  intros Hm Hs He. unfold try_serve_from_cache.
  destruct (um_total_size m) as [t|] eqn:Et.
  2:{ eapply triple_post; [apply triple_ret|]. intros o w [-> _] r [=]. }
  pose proof (Hm t Et) as Ht.
  eapply triple_bind; [apply (triple_lift any)|]. intros [s e]. apply triple_prop. intros Hr.
  apply resolve_range_Ok in Hr as (-> & Hle & Hlt); [|done].
  eapply triple_bind; [apply triple_check_range|]. intros cached.
  apply (triple_pre any); [done|].
  destruct cached; cbn [negb].
  2:{ eapply triple_post; [apply triple_ret|]. intros o w [-> _] r [=]. }
  unfold OPEN_ENDED in *.
  eapply triple_bind; [apply (triple_read start e); unfold OPEN_ENDED; lia|]. intros rd.
  eapply triple_bind; [apply triple_lift|]. intros r.
  eapply triple_post; [apply triple_ret|].
  intros o w [-> [Hb [Hrd _]]] r' [= <-]. apply build_describes in Hb as (Hd & Hbody & ? & ?);
    [|lia|split; lia].
  exists e, t. split_and!; try done; try lia. rewrite Hbody. exact Hrd.
Qed.

Lemma triple_fetch_timeout url range st en :
  parse_range range = Ok (st, en) ->
  triple any (fetch_with_timeout lookup url range) (fun f w => fetched_ok st en f).
Proof.
  intros Hp. unfold fetch_with_timeout. eapply triple_bind; [by apply triple_expired|]. intros t.
  eapply triple_bind; [by eapply triple_attempt, triple_fetch|]. intros r.
  destruct t; [apply triple_throw|]. destruct r as [f|e]; [|apply triple_throw].
  eapply triple_post; [apply triple_ret|]. intros f' w [-> Hf]. by apply Hf.
Qed.

Lemma triple_handle url start end_ cached_end requested_end :
  0 <= start < cached_end -> cached_end <= end_ -> end_ < u64_max -> end_ <= requested_end ->
  triple any (handle lookup url k start end_ cached_end) (served start requested_end).
Proof using All.
  intros Hs Hc He Hre. unfold handle. unfold OPEN_ENDED at 1.
  rewrite (proj2 (Z.eqb_neq end_ u64_max)) by lia.
  rewrite (proj2 (Z.ltb_ge end_ start)), (proj2 (Z.leb_gt cached_end start)),
    (proj2 (Z.ltb_ge end_ cached_end)) by lia. cbn [orb].
  eapply triple_bind; [apply (triple_lift any)|]. intros cs. apply triple_prop. intros Hcs.
  unfold to_usize in Hcs. destruct (_ <=? _); [|done]. injection Hcs as <-.
  set (range := str "bytes=" ++ _).
  assert (Hp : parse_range range = Ok (cached_end, end_)).
  { rewrite <- (parse_range_format cached_end end_) by lia. unfold range, format_range, OPEN_ENDED.
    by rewrite (proj2 (Z.eqb_neq end_ u64_max)) by lia. }
  eapply triple_bind; [by apply triple_fetch_timeout|]. intros f.
  apply (triple_pre (fun w => fetched_ok cached_end end_ f /\ any w)); [done|].
  apply triple_prop. intros (F1 & F2 & F3 & F4 & F5 & F6).
  set (e' := clamp_end_to_upstream_length _ _ _).
  assert (Hcl : cached_end <= e' <= end_) by (apply clamp_bounds; unfold is_u64 in *; lia).
  eapply triple_bind; [apply (triple_lift any)|]. intros ns. apply triple_prop. intros Hns.
  assert (ns = e' - cached_end + 1) as ->.
  { apply bind_Ok_inv in Hns as (n & Hn & Hu). unfold range_length in Hn. apply ok_or_Ok in Hn.
    apply checked_length in Hn as (_ & -> & _); [|lia|split; lia].
    unfold to_usize in Hu. destruct (_ <=? _); [|done]. by injection Hu as <-. }
  eapply triple_bind; [apply (triple_lift any)|]. intros total. apply triple_prop. intros Ht.
  assert (Hsum : cached_end - start + (e' - cached_end + 1) <= u64_max).
  { apply ok_or_Ok in Ht. unfold checked_add in Ht.
    destruct (Z.leb_spec (cached_end - start + (e' - cached_end + 1)) u64_max); [done|done]. }
  unfold OPEN_ENDED in *.
  eapply triple_bind; [apply (triple_read start (cached_end - 1)); unfold OPEN_ENDED; lia|]. intros rd.
  eapply triple_bind.
  { eapply triple_pre; [|apply (triple_frame (fun w =>
      es_reading (eng w) k start (cached_end - 1 - start + 1) 0 rd) any);
      [apply reading_stable|apply triple_tee; split_and!; simpl; try done; unfold OPEN_ENDED; lia]].
    by intros w [Hrd _]. }
  intros j. eapply triple_pre; [|eapply triple_post; [apply (triple_lift
     (fun w => w_jobs w !! j = Some (mk_Job (fu_body f) k (cached_end, e') None)
        /\ es_reading (eng w) k start (cached_end - 1 - start + 1) 0 rd))|]]; [intros w Hw; exact Hw|].
  intros r w [Hb [Hj Hrd]]. apply build_describes in Hb as (Hd & Hbody & ? & ?); [|lia|split; lia].
  exists e', (default 0 (um_total_size (fu_meta f))). split_and!; try done; try lia.
  - destruct (um_total_size (fu_meta f)) as [t|] eqn:Em; [right; by apply F5|by left].
  - rewrite Hbody. simpl. exists (mk_Job (fu_body f) k (cached_end, e') None).
    cbn [j_range fst]. split_and!; try done; try lia.
    by replace (cached_end - start) with (cached_end - 1 - start + 1) by lia.
Qed.


Lemma triple_mixed url m start requested_end :
  truthful m -> 0 <= start <= requested_end -> requested_end <= u64_max ->
  triple any (try_serve_mixed lookup url k m start requested_end)
    (fun o w => forall r, o = Some r -> served start requested_end r w).
Proof using All.
  intros Hm Hs He. unfold try_serve_mixed.
  destruct (um_total_size m) as [t|] eqn:Et.
  2:{ eapply triple_post; [apply triple_ret|]. intros o w [-> _] r [=]. }
  pose proof (Hm t Et) as Ht.
  eapply triple_bind; [apply (triple_lift any)|]. intros [s e]. apply triple_prop. intros Hr.
  apply resolve_range_Ok in Hr as (-> & Hle & Hlt); [|done].
  eapply triple_bind; [apply triple_get_size|]. intros size. apply (triple_pre any); [done|].
  unfold plan_mixed. destruct (Z.leb_spec (default 0 size) start).
  { eapply triple_post; [apply triple_ret|]. intros o w [-> _] r [=]. }
  destruct (Z.ltb_spec e (default 0 size)); [by apply triple_from_cache|].
  eapply triple_bind; [apply triple_check_range|]. intros cached. apply (triple_pre any); [done|].
  destruct cached; cbn [negb].
  2:{ eapply triple_post; [apply triple_ret|]. intros o w [-> _] r [=]. }
  eapply triple_bind; [apply (triple_handle url start e (default 0 size) requested_end); lia|].
  intros r. eapply triple_post; [apply triple_ret|]. by intros o w [-> Hsv] r' [= <-].
Qed.

Lemma drop_guard_ok g w : world_ok w -> world_ok (drop_guard g w) /\ world_ext w (drop_guard g w).
Proof using All.
  intros [? ? ? ?]. destruct g; simpl; split; (done || (split; try done; reflexivity)).
Qed.

Lemma triple_guard {A} g P (m : io (World S) ProxyError.t A) Q :
  triple P m Q -> triple P (with_guard g m) Q.
Proof using All.
  intros Hm w r w' Hw HP E. unfold with_guard in E. destruct (m w) as [r1 w1] eqn:E1.
  destruct (Hm _ _ _ Hw HP E1) as (W1 & X1 & HQ). destruct r1 as [a|e]; injection E as <- <-; [done|].
  destruct (drop_guard_ok g w1 W1) as [W2 X2]. split_and!; [done|by etrans|done].
Qed.

Lemma triple_network url start requested_end guard :
  0 <= start <= requested_end -> requested_end <= u64_max ->
  triple any (fetch_from_network lookup url k (format_range start requested_end) start
                requested_end guard) (served start requested_end).
Proof using All.
  intros Hs He. unfold fetch_from_network.
  eapply triple_bind with (Q := fun p w => fetched_ok start requested_end p.1.1
      /\ resolve_range start requested_end (um_total_size (fu_meta p.1.1)) = Ok (p.1.2, p.2)).
  { apply triple_guard. eapply triple_bind; [by apply triple_fetch, parse_range_format|]. intros f.
    eapply triple_bind; [apply triple_lift|]. intros [s e].
    eapply triple_post; [apply triple_ret|]. by intros p w [-> [Hr Hf]]. }
  intros [[f s] e].
  apply (triple_pre (fun w => (fetched_ok start requested_end f
     /\ resolve_range start requested_end (um_total_size (fu_meta f)) = Ok (s, e)) /\ any w));
    [done|]. apply triple_prop. intros [(F1 & F2 & F3 & F4 & F5 & F6) Hr].
  pose proof Hr as Hr'. apply resolve_range_Ok in Hr as (-> & Hle & Hlt); [|done].
  set (e' := clamp_end_to_upstream_length _ _ _).
  assert (Hcl : start <= e' <= e) by (apply clamp_bounds; unfold is_u64 in *; lia).
  assert (Hmax : e < u64_max).
  { unfold OPEN_ENDED in Hlt. destruct (um_total_size (fu_meta f)) as [t|] eqn:Em; [|lia].
    specialize (F5 t eq_refl). lia. }
  eapply triple_bind; [by apply triple_attempt, triple_record_meta|]. intros u.
  apply (triple_pre any); [done|].
  eapply triple_bind; [apply triple_tee; split_and!; simpl; try done; unfold OPEN_ENDED; lia|].
  intros j. eapply triple_post; [apply triple_lift|]. intros r w [Hb Hj].
  apply build_describes in Hb as (Hd & Hbody & ? & ?); [|lia|split; lia].
  exists e', (default 0 (um_total_size (fu_meta f))). split_and!; try done; try lia.
  - destruct (um_total_size (fu_meta f)) as [t|] eqn:Em; [right; by apply F5|by left].
  - rewrite Hbody. simpl. by eexists.
Qed.

Lemma triple_probe url : triple any (probe_upstream_meta lookup url k) (fun m w => truthful m).
Proof using All.
  unfold probe_upstream_meta.
  eapply triple_bind; [apply (triple_fetch url _ 0 0); vm_compute; reflexivity|]. intros f.
  apply (triple_pre (fun w => fetched_ok 0 0 f /\ any w)); [done|]. apply triple_prop.
  intros (F1 & F2 & F3 & F4 & F5 & F6).
  eapply triple_bind; [by apply triple_record_meta|]. intros u.
  eapply triple_post; [apply triple_ret|]. by intros m w [-> _].
Qed.

Lemma triple_follower f url start requested_end :
  0 <= start <= requested_end -> requested_end <= u64_max ->
  triple any (serve_as_follower lookup f url k (format_range start requested_end) start requested_end)
    (served start requested_end).
Proof using All.
  intros Hs He. unfold serve_as_follower. eapply triple_bind with (Q := fun _ _ => True).
  { intros w r w' Hw _ E. destruct (interfere_ok w Hw) as [[? ? ? ?] X]. injection E as <- <-.
    split_and!; [by split| |done]. etrans; [exact X|]. split; simpl; [reflexivity|done]. }
  intros u. apply (triple_pre any); [done|].
  eapply triple_bind; [apply triple_upstream_meta|]. intros m.
  apply (triple_pre (fun w => truthful m /\ any w)); [done|]. apply triple_prop. intros Hm.
  eapply triple_bind; [by apply triple_from_cache|]. intros [r|].
  { eapply triple_post; [apply triple_ret|]. intros r' w [-> Hr]. by apply Hr. }
  apply (triple_pre any); [done|]. eapply triple_bind; [by apply triple_mixed|]. intros [r|].
  { eapply triple_post; [apply triple_ret|]. intros r' w [-> Hr]. by apply Hr. }
  apply (triple_pre any); [done|]. by apply triple_network.
Qed.

(** The interval a request asks for. *)
Definition asked (range : text) (start requested_end : Z) : Prop :=
  parse_range_spec range = Ok (Offset start requested_end)
  \/ exists n, parse_range_spec range = Ok (Suffix n)
       /\ start = Z.max 0 (Z.of_nat (length (content k)) - n)
       /\ requested_end = Z.of_nat (length (content k)) - 1.

Lemma triple_process req :
  cache_key req = k ->
  triple any (process_request lookup req)
    (fun r w => exists start requested_end, asked (DataRequest.range req) start requested_end
       /\ 0 <= start /\ served start requested_end r w).
Proof using All.
  intros Hk. unfold process_request. rewrite Hk.
  eapply triple_bind; [apply (triple_lift any)|]. intros sp. apply triple_prop. intros Hsp.
  pose proof (range_syntax_ok _ _ (proj1 (parse_range_spec_syntax _ _) Hsp)) as Hok.
  eapply triple_bind; [apply triple_upstream_meta|]. intros m0.
  apply (triple_pre (fun w => truthful m0 /\ any w)); [done|]. apply triple_prop. intros Hm0.
  eapply triple_bind with (Q := fun m w => truthful m).
  { destruct sp as [s e|n]; [eapply triple_post; [apply triple_ret|]; by intros m w [-> _]|].
    case_bool_decide; [apply triple_probe|]. eapply triple_post; [apply triple_ret|]. by intros m w [-> _]. }
  intros m. apply (triple_pre (fun w => truthful m /\ any w)); [done|]. apply triple_prop. intros Hm.
  eapply triple_bind; [apply (triple_lift any)|]. intros [start re]. apply triple_prop. intros Hep.
  assert (Hb : 0 <= start <= re /\ re <= u64_max /\ asked (DataRequest.range req) start re).
  { destruct sp as [s e|n]; simpl in Hep, Hok.
    - injection Hep as <- <-. split_and!; try lia. by left.
    - destruct (um_total_size m) as [t|] eqn:Et; [|done]. pose proof (Hm t Et) as Ht.
      destruct t as [|t|t]; [done| |lia]. injection Hep as <- <-. unfold saturating_sub.
      split_and!; try lia. right. exists n. split_and!; [done|lia|lia]. }
  destruct Hb as (Hb1 & Hb2 & Hask).
  assert (Hdone : forall r w, served start re r w ->
    exists s e, asked (DataRequest.range req) s e /\ 0 <= s /\ served s e r w).
  { intros r w Hsv. exists start, re. split_and!; try done; lia. }
  eapply triple_bind; [by apply triple_from_cache|]. intros [r|].
  { eapply triple_post; [apply triple_ret|]. intros r' w [-> Hr]. auto. }
  apply (triple_pre any); [done|]. eapply triple_bind; [by apply triple_mixed|]. intros [r|].
  { eapply triple_post; [apply triple_ret|]. intros r' w [-> Hr]. auto. }
  apply (triple_pre any); [done|]. eapply triple_bind with (Q := fun _ _ => True).
  { intros w r w' [? ? ? ?] _ E. unfold join_flight in E.
    destruct (SingleFlight.join _ _) as [j sf]. injection E as <- <-.
    split_and!; [by split|split; simpl; [reflexivity|done]|done]. }
  intros [g|f]; (eapply triple_post; [|exact Hdone]).
  - by apply triple_network.
  - by apply triple_follower.
Qed.

(** ** Bodies *)

Lemma honest_prefix pos b b' :
  b' `prefix_of` b -> honest_at content k pos b -> honest_at content k pos b'.
Proof using All. intros Hp Hh j x Hx. by eapply Hh, prefix_lookup. Qed.

Lemma honest_app pos b1 b2 :
  honest_at content k pos b1 -> honest_at content k (pos + length b1) b2 ->
  honest_at content k pos (b1 ++ b2).
Proof using All.
  intros H1' H2' j x Hx. apply lookup_app_Some in Hx as [Hx|[Hl Hx]]; [by apply H1'|].
  rewrite <- (H2' _ _ Hx). f_equal. lia.
Qed.

Lemma slice_honest start n : 0 <= n -> honest_at content k (Z.to_nat start) (slice content k start n).
Proof using All.
  intros Hn j x Hx. unfold slice in Hx. apply lookup_take_Some in Hx as [Hx _].
  by rewrite lookup_drop in Hx.
Qed.

Lemma drain_items_run fuel rd start total done w items w' :
  drain_items fuel rd w = (items, w') -> world_ok w ->
  es_reading (eng w) k start total done rd -> total - done < Z.of_nat fuel ->
  world_ok w' /\ world_ext w w'
  /\ honest_at content k (Z.to_nat (start + done)) (stream_bytes items)
  /\ Z.of_nat (length (stream_bytes items)) <= total - done
  /\ (error_free items = true -> Z.of_nat (length (stream_bytes items)) = total - done).
Proof using All.
  revert rd done w items; induction fuel as [|fuel IH]; intros rd done w items E Hw Hr Hf.
  { apply es_reading_bounds in Hr. lia. }
  pose proof (es_reading_bounds _ _ _ _ _ _ Hr) as (B1 & B2 & B3).
  cbn [drain_items] in E.
  destruct (on_storage (on_engine (se_next rd)) w) as [o w1] eqn:Eo.
  destruct (interfere_ok w Hw) as [W0 X0].
  assert (Hr0 : es_reading (eng (interfere w)) k start total done rd) by (by eapply reading_stable).
  unfold on_storage in Eo.
  destruct (on_engine (se_next rd) (w_shared (interfere w)).1) as [o' sm] eqn:En.
  injection Eo as <- <-. apply on_engine_run in En.
  destruct (es_next k start total done rd _ _ _ HU (wo_engine _ W0) Hr0 En) as (I1 & X1 & Hres).
  set (w1 := set_shared _ (interfere w)) in *.
  assert (W1 : world_ok w1) by (destruct W0; by split).
  assert (X01 : world_ext w w1) by (etrans; [exact X0|by split]).
  destruct o' as [[[b rd']|]|e].
  - destruct Hres as (Hb & Eb & Hr1).
    destruct (drain_items fuel rd' w1) as [l w2] eqn:Ed. injection E as <- <-.
    assert (Hlb : (0 < length b)%nat) by (destruct b; [done|simpl; lia]).
    destruct (IH rd' (done + Z.of_nat (length b)) w1 l Ed W1 Hr1 ltac:(lia))
      as (W2 & X2 & Hh & Hl & He).
    cbn [stream_bytes]. rewrite length_app. split_and!; [done|by etrans| |lia|].
    + apply honest_app.
      * rewrite Eb. apply slice_honest. lia.
      * replace (Z.to_nat (start + done) + length b)%nat
          with (Z.to_nat (start + (done + Z.of_nat (length b)))) by lia. done.
    + intros Hef. specialize (He Hef). lia.
  - injection E as <- <-. subst done. split_and!; try done; simpl; lia.
  - injection E as <- <-. split_and!; try done; simpl; lia.
Qed.

Lemma into_stream_bytes s : stream_bytes (into_stream s) = stream_bytes s.
Proof using All. induction s as [|[c|e] s IH]; simpl; [done| |done]. by rewrite IH. Qed.

Lemma run_job_run j client cache w items w' :
  run_job j client cache w = (items, w') -> world_ok w -> job_ok j ->
  world_ok w' /\ world_ext w w'
  /\ honest_at content k (Z.to_nat (j_range j).1) (stream_bytes items)
  /\ (rb_end (j_body j) <> OPEN_ENDED -> (j_range j).1 <= rb_end (j_body j) ->
      Z.of_nat (length (stream_bytes items)) <= rb_end (j_body j) - (j_range j).1 + 1).
Proof using All.
  intros E Hw (Hk & Hrb & Hend & Hread & Hst). unfold run_job in E.
  destruct (interfere_ok w Hw) as [W0 X0].
  destruct (collect_all (j_body j) (w_net (interfere w))) as [up n] eqn:Ec.
  unfold collect_all in Ec.
  apply (collect_run content k) in Ec as (C1 & C2 & _ & _ & _ & [m C8] & _);
    [|done|done|apply W0|lia].
  pose proof (forward_client (into_stream up) client cache true) as F1.
  pose proof (forward_cache (into_stream up) client cache true) as F2.
  unfold forward_upstream in E.
  destruct (forward_loop (into_stream up) client cache true true) as [tc tw]. simpl in F1, F2. subst tc tw.
  rewrite Hread, Z.add_0_r, Hst in C1.
  assert (Hpre : forall acc, stream_bytes (cut (until_error (into_stream up)) acc)
            `prefix_of` stream_bytes up).
  { intros acc. rewrite <- (into_stream_bytes up), <- (until_error_bytes (into_stream up)). apply cut_prefix. }
  pose proof (rb_start_ok _ _ _ Hrb) as Hs0.
  assert (W1 : world_ok (set_net n (interfere w))).
  { destruct W0 as [? ? Hn ?]. split; simpl; try done. rewrite C8. by apply Forall_drop. }
  destruct (write_stream _ _ _ _) as [r w2] eqn:Ew. injection E as <- <-. rewrite Hk in Ew.
  destruct (triple_write_stream (j_range j) (cut (until_error (into_stream up)) (map send_to_cache cache))
    ltac:(lia) (honest_prefix _ _ _ (Hpre _) C1) _ _ _ W1 I Ew) as (W2 & X2 & _).
  destruct (drop_guard_ok (j_guard j) w2 W2) as [W3 X3]. split_and!.
  - done.
  - etrans; [exact X0|]. etrans; [|exact X3]. etrans; [|exact X2]. split; simpl; [reflexivity|done].
  - eapply honest_prefix; [apply Hpre|exact C1].
  - intros Hne Hle. specialize (C2 Hne). rewrite Hread, Hst in C2. specialize (C2 ltac:(lia)).
    pose proof (prefix_length _ _ (Hpre client)). lia.
Qed.

Lemma deliver_run fuel b client cache start end_ requested_end w items w' :
  deliver fuel b client cache w = (items, w') -> world_ok w ->
  0 <= start <= end_ -> end_ <= requested_end -> body_ok b start end_ requested_end w ->
  end_ - start + 1 < Z.of_nat fuel ->
  world_ok w' /\ honest_at content k (Z.to_nat start) (stream_bytes items)
  /\ ((forall j, b <> ForwardBody j) ->
      Z.of_nat (length (stream_bytes items)) <= end_ - start + 1
      /\ (error_free items = true -> Z.of_nat (length (stream_bytes items)) = end_ - start + 1))
  /\ (requested_end <> OPEN_ENDED ->
      Z.of_nat (length (stream_bytes items)) <= requested_end - start + 1).
Proof using All.
  intros E Hw Hs Hre Hb Hf. destruct b as [|bs|rd|j|rd cs j ns]; [done|done| | |]; simpl in E, Hb.
  - destruct (drain_items_run _ _ _ _ _ _ _ _ E Hw Hb) as (? & _ & Hh & Hl & He); [lia|].
    rewrite Z.add_0_r, Z.sub_0_r in *. split_and!; try done. lia.
  - destruct Hb as (job & Hj & Hst & Hend). rewrite Hj in E.
    assert (Hjob : job_ok job).
    { pose proof (wo_jobs _ Hw) as HF. rewrite Forall_forall in HF. apply HF. by eapply list_elem_of_lookup_2. }
    destruct (run_job_run _ _ _ _ _ _ E Hw Hjob) as (? & _ & Hh & Hl). rewrite Hst, Hend in *.
    split_and!; try done; [intros Hx; by destruct (Hx j)|]. intros Hne. apply Hl; [done|lia].
  - destruct Hb as (job & Hrd & Hj & Hst & Hcs & Hns & Hsum & Hmax).
    destruct (drain_items fuel rd w) as [cached w1] eqn:Ed.
    destruct (drain_items_run _ _ _ _ _ _ _ _ Ed Hw Hrd) as (W1 & X1 & Hh & Hl & He); [lia|].
    rewrite (job_stable j job _ _ X1 Hj) in E.
    destruct (run_job job client cache w1) as [network w2] eqn:Er. injection E as <- <-.
    assert (Hjob : job_ok job).
    { pose proof (wo_jobs _ Hw) as HF. rewrite Forall_forall in HF. apply HF. by eapply list_elem_of_lookup_2. }
    destruct (run_job_run _ _ _ _ _ _ Er W1 Hjob) as (W2 & X2 & Hh2 & Hl2).
    rewrite Hst in *. rewrite Z.add_0_r, Z.sub_0_r in *. unfold create_mixed_stream.
    destruct (take_bytes_spec cs 0 cached ltac:(lia) ltac:(lia)) as [T1 T2].
    destruct (take_bytes_spec ns 0 network ltac:(lia) ltac:(lia)) as [N1 N2].
    rewrite Z.sub_0_r in *.
    assert (Hefe : error_free (take_bytes cs 0 cached ++ take_bytes ns 0 network)
              = error_free (take_bytes cs 0 cached) && error_free (take_bytes ns 0 network))
      by (unfold error_free; apply forallb_app). rewrite Hefe.
    assert (Hc1 : honest_at content k (Z.to_nat start) (stream_bytes (take_bytes cs 0 cached))).
    { rewrite T1. eapply honest_prefix; [apply prefix_take|done]. }
    destruct (error_free (take_bytes cs 0 cached)) eqn:Ec; cbn [andb].
    + rewrite stream_bytes_app by done. pose proof (proj1 T2 eq_refl) as Hlen.
      assert (HL : length (stream_bytes (take_bytes cs 0 cached)) = Z.to_nat cs)
        by (rewrite T1, length_take; lia).
      assert (HN : Z.of_nat (length (stream_bytes (take_bytes ns 0 network))) <= ns)
        by (rewrite N1, length_take; lia).
      rewrite length_app, HL. split_and!; [done| | |lia].
      * apply honest_app; [done|]. rewrite HL, N1.
        replace (Z.to_nat start + Z.to_nat cs)%nat with (Z.to_nat (start + cs)) by lia.
        eapply honest_prefix; [apply prefix_take|done].
      * intros _. split; [lia|]. intros En. pose proof (proj1 N2 En). rewrite N1, length_take. lia.
    + rewrite stream_bytes_app_error by done.
      assert (HL : Z.of_nat (length (stream_bytes (take_bytes cs 0 cached))) <= cs)
        by (rewrite T1, length_take; lia).
      split_and!; [done|done| |lia]. intros _. split; [lia|done].
Qed.
End Pipeline.
