(* ===== verification/Eviction.v ===== *)
(** * Bounded maps: eviction of the oldest entries

    The loop several caches of the program share: while the map is too full,
    look for the entry with the smallest time stamp ([Iterator::min_by_key]
    over the map) and remove it.  The section proves that the loop ends, that it
    evicts oldest first and that it stops as soon as it may. *)

From S2P Require Import Prelude External.

Section Eviction.
Context {K A : Type} `{Countable K} `{!HashOrder K A}.
Implicit Types m : gmap K A.

(** [map.iter()]. *)
Definition iter_map m : list (K * A) :=
  omap (fun k => pair k <$> m !! k) (keys_order m).

(** [min_by_key]: the first of the smallest elements. *)
Definition min_pair (age : A -> Z) (l : list (K * A)) : option (K * A) :=
  fold_left (fun acc e =>
    match acc with
    | Some e0 => if age e.2 <? age e0.2 then Some e else acc
    | None => Some e
    end) l None.
Definition min_by_key (age : A -> Z) m : option K := fst <$> min_pair age (iter_map m).

(** [map.iter().map(weight).fold(0, usize::saturating_add)]. *)
Definition weight_of (weight : K -> A -> Z) m : Z :=
  fold_left saturating_add (map (fun e => weight e.1 e.2) (iter_map m)) 0.

(** The loop; a round with nothing to evict leaves it.  Each round removes an
    entry: the size of the map is enough fuel. *)
Fixpoint evict_loop (fuel : nat) (full : gmap K A -> bool) (age : A -> Z) m : gmap K A :=
  match fuel with
  | O => m
  | S fuel' =>
      if full m then
        match min_by_key age m with
        | Some k => evict_loop fuel' full age (delete k m)
        | None => m
        end
      else m
  end.
Definition evict_until (full : gmap K A -> bool) (age : A -> Z) m : gmap K A :=
  evict_loop (S (size m)) full age m.

Context {laws : HashOrderLaws K A}.

Lemma iter_map_elem m k a : (k, a) ∈ iter_map m <-> m !! k = Some a.
Proof.
  unfold iter_map. rewrite list_elem_of_omap. split.
  - intros (k' & _ & E). destruct (m !! k') eqn:Em; simplify_eq/=. done.
  - intros Hm. exists k. split; [by apply keys_order_elem|]. by rewrite Hm.
Qed.

Lemma iter_map_perm m : iter_map m ≡ₚ map_to_list m.
Proof.
  apply NoDup_Permutation.
  - unfold iter_map. assert (Hnd : NoDup (keys_order m)).
    { rewrite keys_order_perm. apply NoDup_fst_map_to_list. }
    revert Hnd. generalize (keys_order m). induction l as [|k l IH]; simpl; [constructor|].
    intros [Hk Hnd]%NoDup_cons. destruct (m !! k) eqn:Em; simpl; [|by apply IH].
    constructor; [|by apply IH].
    intros (k' & Hk' & E)%list_elem_of_omap. destruct (m !! k'); simplify_eq/=. done.
  - apply NoDup_map_to_list.
  - intros [k a]. by rewrite iter_map_elem, elem_of_map_to_list.
Qed.

Lemma min_pair_acc (age : A -> Z) (l : list (K * A)) acc :
  let r := fold_left (fun acc e =>
    match acc with
    | Some e0 => if age e.2 <? age e0.2 then Some e else acc
    | None => Some e
    end) l (Some acc) in
  exists e, r = Some e /\ (e = acc \/ e ∈ l) /\ age e.2 <= age acc.2
            /\ Forall (fun e' => age e.2 <= age e'.2) l.
Proof.
  revert acc. induction l as [|e l IH]; intros acc; simpl.
  - exists acc. split_and!; auto. lia.
  - destruct (Z.ltb_spec (age e.2) (age acc.2)) as [Hlt|Hge];
      [destruct (IH e) as (x & -> & Hx & Hle & Hall)
      |destruct (IH acc) as (x & -> & Hx & Hle & Hall)]; exists x; split_and!; try done; try lia;
      try (constructor; [lia|done]); destruct Hx as [->|Hx]; set_solver.
Qed.

Lemma min_pair_spec age l :
  match min_pair age l with
  | Some e => e ∈ l /\ Forall (fun e' => age e.2 <= age e'.2) l
  | None => l = []
  end.
Proof.
  unfold min_pair. destruct l as [|e l]; [done|]. simpl.
  destruct (min_pair_acc age l e) as (x & -> & Hx & Hle & Hall).
  split; [destruct Hx as [->|]; set_solver|]. constructor; [lia|done].
Qed.

Lemma min_by_key_Some age m k :
  min_by_key age m = Some k ->
  exists a, m !! k = Some a /\ forall k' a', m !! k' = Some a' -> age a <= age a'.
Proof using laws.
  unfold min_by_key. intros ([k0 a] & E & ->)%fmap_Some. cbn [fst].
  pose proof (min_pair_spec age (iter_map m)) as Hs. rewrite E in Hs.
  destruct Hs as [Hin Hall]. exists a. split; [by apply iter_map_elem|].
  intros k' a' Hk'. rewrite Forall_forall in Hall. by apply (Hall (k', a')), iter_map_elem.
Qed.

Lemma min_by_key_None age m : min_by_key age m = None -> m = ∅.
Proof using laws.
  unfold min_by_key. intros E%fmap_None.
  pose proof (min_pair_spec age (iter_map m)) as Hs. rewrite E in Hs.
  apply map_empty. intros k. destruct (m !! k) eqn:Ek; [|done].
  apply iter_map_elem in Ek. rewrite Hs in Ek. set_solver.
Qed.

(** ** The total weight is the sum, cut off at the largest integer *)

Definition total_weight (weight : K -> A -> Z) m : Z :=
  map_fold (fun k a acc => weight k a + acc) 0 m.

Lemma saturating_fold l acc :
  0 <= acc <= u64_max -> Forall (fun x => 0 <= x) l ->
  fold_left saturating_add l acc = Z.min (acc + foldr Z.add 0 l) u64_max.
Proof.
  revert acc. induction l as [|x l IH]; intros acc Hacc Hl; simpl; [lia|].
  apply Forall_cons in Hl as [Hx Hl]. unfold saturating_add at 2.
  assert (Hs : 0 <= foldr Z.add 0 l) by (clear IH; induction Hl; simpl; lia).
  rewrite IH by (done || lia). lia.
Qed.

Lemma total_weight_list weight m :
  total_weight weight m = foldr Z.add 0 (map (fun e => weight e.1 e.2) (map_to_list m)).
Proof.
  unfold total_weight. rewrite map_fold_foldr.
  generalize (map_to_list m). induction l as [|[k a] l IH]; simpl; [done|]. by rewrite IH.
Qed.

Lemma foldr_add_perm (l l' : list Z) : l ≡ₚ l' -> foldr Z.add 0 l = foldr Z.add 0 l'.
Proof. induction 1; simpl; lia. Qed.

Lemma weight_of_sum weight m :
  (forall k a, 0 <= weight k a) -> weight_of weight m = Z.min (total_weight weight m) u64_max.
Proof using laws.
  intros Hw. unfold weight_of. rewrite saturating_fold.
  - rewrite total_weight_list. rewrite Z.add_0_l. f_equal. apply foldr_add_perm, Permutation_map, iter_map_perm.
  - lia.
  - apply Forall_map, Forall_forall. simpl. auto.
Qed.

Lemma total_weight_empty weight : total_weight weight ∅ = 0.
Proof. apply map_fold_empty. Qed.

Lemma total_weight_insert weight m k a :
  m !! k = None -> total_weight weight (<[k := a]> m) = weight k a + total_weight weight m.
Proof. intros Hk. unfold total_weight. rewrite map_fold_insert_L by (done || (intros; lia)). done. Qed.

Lemma total_weight_delete weight m k a :
  m !! k = Some a -> total_weight weight (delete k m) = total_weight weight m - weight k a.
Proof.
  intros Hk. rewrite <- (insert_delete_id m k a Hk) at 2.
  rewrite total_weight_insert by apply lookup_delete_eq. lia.
Qed.

Lemma total_weight_update weight m k a b :
  m !! k = Some a ->
  total_weight weight (<[k := b]> m) = total_weight weight m - weight k a + weight k b.
Proof.
  intros Hk. rewrite <- insert_delete_eq, total_weight_insert by apply lookup_delete_eq.
  rewrite (total_weight_delete _ _ _ _ Hk). lia.
Qed.

Lemma total_weight_nonneg weight m :
  (forall k a, m !! k = Some a -> 0 <= weight k a) -> 0 <= total_weight weight m.
Proof.
  induction m as [|k a m Hk IH] using map_ind; intros Hw.
  - by rewrite total_weight_empty.
  - rewrite total_weight_insert by done.
    assert (0 <= weight k a) by (apply Hw; apply lookup_insert_eq).
    assert (0 <= total_weight weight m); [|lia].
    apply IH. intros k' a' Hk'. apply Hw. by rewrite lookup_insert_ne by congruence.
Qed.

(** ** What the loop does *)

(** [m'] is what is left of [m] after evictions, oldest first. *)
Definition oldest_gone (age : A -> Z) m m' : Prop :=
  m' ⊆ m /\ forall k a k' a',
    m !! k = Some a -> m' !! k = None -> m' !! k' = Some a' -> age a <= age a'.

Lemma oldest_gone_refl age m : oldest_gone age m m.
Proof. split; [done|]. intros. congruence. Qed.

Lemma evict_loop_spec fuel full age m :
  (size m < fuel)%nat -> full ∅ = false ->
  let m' := evict_loop fuel full age m in
  full m' = false /\ oldest_gone age m m'
  /\ forall k a, m !! k = Some a -> m' !! k = None ->
       exists m1, full m1 = true /\ m1 ⊆ m /\ m1 !! k = Some a /\ m' ⊆ m1.
Proof using laws.
  revert m. induction fuel as [|fuel IH]; intros m Hf He; [lia|]. cbn [evict_loop].
  destruct (full m) eqn:Ef; cycle 1.
  { split; [done|]. split; [apply oldest_gone_refl|]. congruence. }
  destruct (min_by_key age m) as [k0|] eqn:Em; cycle 1.
  { apply min_by_key_None in Em as ->. congruence. }
  apply min_by_key_Some in Em as (a0 & Hk0 & Hmin).
  assert (Hsz : (size (delete k0 m) < size m)%nat).
  { rewrite map_size_delete_Some by eauto.
    assert (size m <> 0%nat) by (intros Hz%map_size_empty_inv; subst; by rewrite lookup_empty in Hk0). lia. }
  destruct (IH (delete k0 m) ltac:(lia) He) as (Hful & [Hsub Hold] & Hneed).
  assert (Hsub' : evict_loop fuel full age (delete k0 m) ⊆ m)
    by (etrans; [exact Hsub|apply delete_subseteq]).
  split; [done|]. split.
  - split; [done|]. intros k a k' a' Hk Hk1 Hk2.
    destruct (decide (k = k0)) as [->|Hne].
    + simplify_eq. eapply Hmin. by eapply lookup_weaken.
    + eapply Hold; try done. by rewrite lookup_delete_ne.
  - intros k a Hk Hk1. destruct (decide (k = k0)) as [->|Hne].
    + exists m. done.
    + destruct (Hneed k a) as (m1 & ? & ? & ? & ?); [by rewrite lookup_delete_ne|done|].
      exists m1. split_and!; try done. etrans; [done|apply delete_subseteq].
Qed.

Lemma evict_until_spec full age m :
  full ∅ = false ->
  let m' := evict_until full age m in
  full m' = false /\ oldest_gone age m m'
  /\ forall k a, m !! k = Some a -> m' !! k = None ->
       exists m1, full m1 = true /\ m1 ⊆ m /\ m1 !! k = Some a /\ m' ⊆ m1.
Proof using laws. intros He. apply evict_loop_spec; [lia|done]. Qed.
End Eviction.
