(* ===== verification/Playlist.v ===== *)
(** * Rewriting of HLS playlists ([hls/mod.rs], the text functions)

    [rewrite_m3u8] turns every reference of a playlist into a path of the
    proxy; [absolutize] resolves a reference against the directory of the
    playlist.  The [url] crate is the class [UrlOps]. *)

From Stdlib Require Import Strings.Byte Strings.String.
From S2P Require Import Prelude Bytes Error External Percent DataRequest.

(** ** More of the [url] crate: joining, the segments of a path *)

Class UrlOps : Type := {
  url_parse_error : text -> text;                  (* [ParseError], displayed *)
  url_join : Url.t -> text -> option Url.t;        (* [Url::join] *)
  url_path_segments : Url.t -> option (list text); (* [Url::path_segments] *)
  url_pop_segment : Url.t -> option Url.t;         (* [path_segments_mut()?.pop()] *)
}.

(** ** String functions *)

(** [str::trim_start_matches] and [str::trim_end_matches] for one byte. *)
Fixpoint trim_start_byte (c : byte) (s : text) : text :=
  match s with
  | b :: s' => if decide (b = c) then trim_start_byte c s' else s
  | [] => []
  end.
Definition trim_end_byte (c : byte) (s : text) : text := reverse (trim_start_byte c (reverse s)).

(** [str::lines]: a line that ends in a newline also loses one carriage
    return; there is no line after the last newline. *)
Fixpoint lines_of (pieces : list text) : list text :=
  match pieces with
  | [] => []
  | [last] => if decide (last = []) then [] else [last]
  | p :: ps => from_option id p (strip_suffix [x0d] p) :: lines_of ps
  end.
Definition lines (s : text) : list text := lines_of (split x0a s).

(** [str::find] for a whitespace character or a quote. *)
Fixpoint find_end (s : text) : option nat :=
  match s with
  | [] => None
  | b :: s' =>
      if bool_decide (is_Some (strip_any whitespace s)) || bool_decide (b ∈ [x22; x27])
      then Some O else S <$> find_end s'
  end.

(** ** References *)

Record Base : Type := mk_Base { trimmed : text; parsed : option Url.t }.

Definition is_absolute_http (reference : text) : bool :=
  starts_with (str "http://") reference || starts_with (str "https://") reference.

Definition NEEDLE : text := str "URI=" ++ [x22].

Definition push_proxied (output absolute_url proxy_prefix : text) : text :=
  output ++ proxy_prefix ++ str "/" ++ encode_component absolute_url.

Section Rewrite.
Context `{UrlParser} `{UrlOps}.

Definition base_new (base_url : text) : Base :=
  let trimmed := trim_end_byte x2f base_url in
  mk_Base trimmed (url_parse (trimmed ++ str "/")).

Definition absolutize (reference : text) (base : Base) : text :=
  let reference := trim reference in
  let reference :=
    match strip_prefix PROXY_PREFIX reference with
    | Some inner => match decode_component inner with Ok t => t | Err _ => inner end
    | None => reference
    end in
  if is_absolute_http reference then reference
  else
    match (url ← parsed base; url_join url reference) with
    | Some joined => Url.as_str joined
    | None => trimmed base ++ str "/" ++ trim_start_byte x2f reference
    end.

(** The loop over the attributes of a tag: each round goes past one quoted
    value, so the length of the line is enough fuel. *)
Fixpoint push_rewritten_tag (fuel : nat) (output rest : text) (base : Base)
    (proxy_prefix : text) : text :=
  match fuel with
  | O => output ++ rest
  | S fuel' =>
      match find NEEDLE rest with
      | None => output ++ rest
      | Some found =>
          let value_start := (found + length NEEDLE)%nat in
          match find [x22] (drop value_start rest) with
          | None => output ++ rest
          | Some value_length =>
              let value := take value_length (drop value_start rest) in
              let output := output ++ take value_start rest in
              let output := if decide (value = []) then output
                            else push_proxied output (absolutize value base) proxy_prefix in
              push_rewritten_tag fuel' (output ++ [x22])
                (drop (value_start + value_length + 1) rest) base proxy_prefix
          end
      end
  end.

Definition rewrite_line (base : Base) (prefix result line : text) : text :=
  if starts_with (str "#") line
  then push_rewritten_tag (length line) result line base prefix ++ [x0a]
  else if decide (line = []) then result
  else push_proxied result (absolutize line base) prefix ++ [x0a].

Definition rewrite_m3u8 (content base_url proxy_prefix : text) : text :=
  let base := base_new base_url in
  let prefix := trim_end_byte x2f proxy_prefix in
  fold_left (rewrite_line base prefix) (lines content) [].

(** [DefaultHlsHandler::get_base_url]. *)
Definition get_base_url (url : text) : Result text :=
  base ← ok_or (url_parse url) (ProxyError.Parse (str "无法解析URL: " ++ url_parse_error url));
  base ← match url_path_segments base with
         | Some (_ :: _) =>
             ok_or (url_pop_segment base) (ProxyError.Parse (str "无法修改URL路径"))
         | _ => Ok base
         end;
  Ok (Url.as_str base).
End Rewrite.
