(* ===== verification/HlsManager.v ===== *)
(** * The HLS manager ([hls/mod.rs])

    Parsed playlists and rewritten playlist texts, each kept in a bounded map
    that evicts its oldest entries.  The parser of the [m3u8_rs] crate is the
    class [M3u8Parser]; the sizes the compiler gives to the structures are
    the class [Layout].  Times are in milliseconds, except the time stamp of a
    playlist, which is in nanoseconds as in the code. *)

From Stdlib Require Import Strings.Byte Strings.String.
From S2P Require Import Prelude Bytes Error External Digest FileSystem Eviction.

(** ** The [m3u8_rs] crate *)

Record MediaSegment : Type := mk_MediaSegment { ms_uri : text; ms_duration : Z }.
Record Variant : Type := mk_Variant {
  v_uri : text;
  v_bandwidth : Z;
  v_resolution : option (Z * Z);
}.
Inductive Playlist : Type :=
| MasterPlaylist (variants : list Variant)
| MediaPlaylist (target_duration media_sequence : Z) (end_list : bool)
    (segments : list MediaSegment).

(** The error is given by the text it displays. *)
Class M3u8Parser : Type := parse_playlist : text -> result text Playlist.

(** ** The data of the manager

    A 32-bit float read from a playlist ([duration]) is kept by its bits; the
    target duration is a whole number (see [f32_of_u64]). *)

Record Segment : Type := mk_Segment {
  seg_url : text;
  seg_duration : Z;
  seg_sequence : Z;
  seg_size : option Z;
  seg_cached : bool;
}.
Record VariantStream : Type := mk_VariantStream {
  vs_url : text;
  vs_bandwidth : Z;
  vs_resolution : option text;
}.
Record PlaylistInfo : Type := mk_PlaylistInfo {
  pi_url : text;
  target_duration : Z;
  media_sequence : Z;
  is_endlist : bool;
  segments : list Segment;
  variants : list VariantStream;
  updated_at_unix_nanos : Z;
}.

(** [std::mem::size_of], which the language leaves to the compiler. *)
Class Layout : Type := {
  size_of_segment : Z;
  size_of_variant : Z;
  size_of_info : Z;
  size_of_nonneg : 0 <= size_of_segment /\ 0 <= size_of_variant /\ 0 <= size_of_info;
}.

Definition MAX_CACHED_PLAYLISTS : Z := 512.
Definition MAX_PLAYLIST_ITEMS : Z := 20000.
Definition MAX_PLAYLIST_CACHE_BYTES : Z := 32 * 1024 * 1024.
Definition MAX_CACHED_PLAYLIST_BODIES : Z := 128.
Definition MAX_PLAYLIST_BODY_CACHE_BYTES : Z := 8 * 1024 * 1024.

Record CachedPlaylistBody : Type := mk_CachedPlaylistBody {
  pb_content : text;
  expires_at : Z;
  inserted_at : Z;
}.

Record HlsManager : Type := mk_HlsManager {
  hls_cache_dir : path;
  playlists : gmap text PlaylistInfo;
  playlist_bodies : gmap text CachedPlaylistBody;
}.
Definition hls_new (cache_dir : path) : HlsManager := mk_HlsManager cache_dir ∅ ∅.
Definition set_playlists (f : gmap text PlaylistInfo -> gmap text PlaylistInfo) (m : HlsManager) :
    HlsManager :=
  mk_HlsManager (hls_cache_dir m) (f (playlists m)) (playlist_bodies m).
Definition set_bodies (f : gmap text CachedPlaylistBody -> gmap text CachedPlaylistBody)
    (m : HlsManager) : HlsManager :=
  mk_HlsManager (hls_cache_dir m) (playlists m) (f (playlist_bodies m)).

(** [n as f32] for a 64-bit integer: the nearest integer with 24 significant
    bits, ties to even.  The result is a whole number again. *)
Definition f32_of_u64 (n : Z) : Z :=
  let e := Z.log2 n - 23 in
  if e <=? 0 then n
  else
    let q := n / 2 ^ e in
    let r := n mod 2 ^ e in
    let half := 2 ^ (e - 1) in
    (q + (if (half <? r) || ((r =? half) && Z.odd q) then 1 else 0)) * 2 ^ e.

(** In milliseconds. [clamp(1.0, 10.0)] of half a whole number has no
    rounding. *)
Definition playlist_refresh_ttl (info : PlaylistInfo) : Z :=
  if is_endlist info then 5 * 60 * 1000
  else if negb (bool_decide (variants info = [])) then 30 * 1000
  else Z.min (Z.max (500 * target_duration info) 1000) 10000.

(** [slice::binary_search_by_key] of the standard library: [size] halves,
    rounded up, in each round, so the length is enough fuel. *)
Fixpoint bisect (fuel : nat) (key : nat -> Z) (target : Z) (base size : nat) : nat :=
  match fuel with
  | O => base
  | S fuel' =>
      if (size <=? 1)%nat then base
      else
        let half := (size / 2)%nat in
        let mid := (base + half)%nat in
        bisect fuel' key target (if target <? key mid then base else mid) (size - half)
  end.
Definition binary_search_by_key {A} (key : A -> Z) (target : Z) (l : list A) : option nat :=
  match l with
  | [] => None
  | x :: _ =>
      let k i := key (default x (l !! i)) in
      let base := bisect (length l) k target 0 (length l) in
      if k base =? target then Some base else None
  end.

Section Manager.
Context `{M3u8Parser} `{Layout} `{Sha256}
  `{!HashOrder text PlaylistInfo} `{!HashOrder text CachedPlaylistBody}.
Local Abbreviation M := (io HlsManager ProxyError.t).

Definition tlen (s : text) : Z := Z.of_nat (length s).

Definition playlist_size (key : text) (info : PlaylistInfo) : Z :=
  let segment_bytes :=
    fold_left (fun total s =>
      saturating_add (saturating_add total size_of_segment) (tlen (seg_url s)))
      (segments info) 0 in
  let variant_bytes :=
    fold_left (fun total v =>
      saturating_add
        (saturating_add (saturating_add total size_of_variant) (tlen (vs_url v)))
        (from_option tlen 0 (vs_resolution v)))
      (variants info) 0 in
  saturating_add
    (saturating_add
      (saturating_add (saturating_add (tlen key) size_of_info) (tlen (pi_url info)))
      segment_bytes)
    variant_bytes.

Definition cached_playlist_bytes (m : gmap text PlaylistInfo) : Z := weight_of playlist_size m.

Definition body_size (key : text) (entry : CachedPlaylistBody) : Z :=
  saturating_add (tlen key) (tlen (pb_content entry)).
Definition cached_playlist_body_bytes (m : gmap text CachedPlaylistBody) : Z :=
  weight_of body_size m.

Definition playlists_full (new_bytes : Z) (m : gmap text PlaylistInfo) : bool :=
  (MAX_CACHED_PLAYLISTS <=? Z.of_nat (size m))
  || (MAX_PLAYLIST_CACHE_BYTES <? saturating_add (cached_playlist_bytes m) new_bytes).

Definition cache_playlist (url : text) (info : PlaylistInfo) : M unit :=
  let new_bytes := playlist_size url info in
  if MAX_PLAYLIST_CACHE_BYTES <? new_bytes then mret tt
  else
    modify (set_playlists (fun m =>
      <[url := info]>
        (evict_until (playlists_full new_bytes) updated_at_unix_nanos (base.delete url m)))).

Definition process_m3u8 (url content : text) (now : Z) : M PlaylistInfo :=
  playlist ← lift (map_err ProxyError.Parse (parse_playlist content));
  match playlist with
  | MasterPlaylist vs =>
      if MAX_PLAYLIST_ITEMS <? Z.of_nat (length vs) then
        throw (ProxyError.Parse (str "HLS variant count exceeds limit "
                                 ++ format_u64 MAX_PLAYLIST_ITEMS))
      else
        let variants :=
          map (fun v => mk_VariantStream (v_uri v) (v_bandwidth v)
                 ((fun r => format_u64 r.1 ++ str "x" ++ format_u64 r.2) <$> v_resolution v)) vs in
        let info := mk_PlaylistInfo url 0 0 false [] variants now in
        _ ← cache_playlist url info;
        mret info
  | MediaPlaylist target media_sequence end_list ss =>
      if MAX_PLAYLIST_ITEMS <? Z.of_nat (length ss) then
        throw (ProxyError.Parse (str "HLS segment count exceeds limit "
                                 ++ format_u64 MAX_PLAYLIST_ITEMS))
      else
        let segments :=
          imap (fun i s => mk_Segment (ms_uri s) (ms_duration s)
                  (saturating_add media_sequence (Z.of_nat i)) None false) ss in
        let info := mk_PlaylistInfo url (f32_of_u64 target) media_sequence end_list segments []
                      now in
        _ ← cache_playlist url info;
        mret info
  end.

Definition get_playlist (url : text) (m : HlsManager) : option PlaylistInfo := playlists m !! url.

Definition cached_playlist_body (url : text) (now : Z) : M (option text) := fun m =>
  match playlist_bodies m !! url with
  | Some entry =>
      if now <? expires_at entry then (Ok (Some (pb_content entry)), m)
      else (Ok None, set_bodies (base.delete url) m)
  | None => (Ok None, set_bodies (base.delete url) m)
  end.

Definition bodies_full (entry_bytes : Z) (m : gmap text CachedPlaylistBody) : bool :=
  (MAX_CACHED_PLAYLIST_BODIES <=? Z.of_nat (size m))
  || (MAX_PLAYLIST_BODY_CACHE_BYTES
      <? saturating_add (cached_playlist_body_bytes m) entry_bytes).

Definition cache_playlist_body (url content : text) (ttl now : Z) : M unit :=
  let entry_bytes := saturating_add (tlen url) (tlen content) in
  if MAX_PLAYLIST_BODY_CACHE_BYTES <? entry_bytes then mret tt
  else
    modify (set_bodies (fun m =>
      <[url := mk_CachedPlaylistBody content (now + ttl) now]>
        (evict_until (bodies_full entry_bytes) inserted_at (base.delete url m)))).

Definition mark_cached (size : Z) (s : Segment) : Segment :=
  mk_Segment (seg_url s) (seg_duration s) (seg_sequence s) (Some size) true.

Definition update_segment_cache (url : text) (sequence size : Z) : M unit :=
  modify (set_playlists (alter (fun playlist =>
    match binary_search_by_key seg_sequence sequence (segments playlist) with
    | Some index =>
        mk_PlaylistInfo (pi_url playlist) (target_duration playlist) (media_sequence playlist)
          (is_endlist playlist) (alter (mark_cached size) index (segments playlist))
          (variants playlist) (updated_at_unix_nanos playlist)
    | None => playlist
    end) url)).

Definition get_segment_cache_path (url : text) (sequence : Z) (m : HlsManager) : path :=
  hls_cache_dir m ++ [sha256_hex url ++ str "_seg_" ++ format_u64 sequence ++ str ".ts"].
End Manager.
