(* ===== verification/HlsManagerTheorems.v ===== *)
(** * The HLS manager: bounds, eviction and segment lookup *)

From Stdlib Require Import Strings.Byte Strings.String Sorting.Sorted.
From S2P Require Import Prelude Bytes Error External Digest FileSystem Eviction HlsManager.

(** ** The halving search finds the element with the key, if there is one *)

Section Bisect.
Context {A : Type} (key : A -> Z).

Definition increasing (l : list A) : Prop :=
  forall i j x y, (i < j)%nat -> l !! i = Some x -> l !! j = Some y -> key x < key y.

Lemma bisect_bounds fuel k target base size :
  (1 <= size)%nat ->
  (base <= bisect fuel k target base size < base + size)%nat.
Proof.
  revert base size. induction fuel as [|fuel IH]; intros base size Hs; cbn [bisect]; [lia|].
  destruct (Nat.leb_spec size 1) as [H1|H1]; [lia|].
  pose proof (Nat.div_lt size 2 ltac:(lia) ltac:(lia)).
  pose proof (Nat.div_le_lower_bound size 2 1 ltac:(lia) ltac:(lia)).
  destruct (target <? k (base + size / 2)%nat);
    [specialize (IH base (size - size / 2)%nat ltac:(lia))
    |specialize (IH (base + size / 2)%nat (size - size / 2)%nat ltac:(lia))]; lia.
Qed.

(** On increasing keys the search keeps the position of the target. *)
Lemma bisect_finds fuel k target base size i :
  (size <= fuel)%nat ->
  (forall a b, (base <= a)%nat -> (a < b)%nat -> (b < base + size)%nat -> k a < k b) ->
  (base <= i < base + size)%nat -> k i = target ->
  bisect fuel k target base size = i.
Proof.
  revert base size. induction fuel as [|fuel IH]; intros base size Hf Hk Hi Ht; cbn [bisect]; [lia|].
  destruct (Nat.leb_spec size 1) as [H1|H1]; [lia|].
  pose proof (Nat.div_lt size 2 ltac:(lia) ltac:(lia)).
  pose proof (Nat.div_le_lower_bound size 2 1 ltac:(lia) ltac:(lia)).
  set (half := (size / 2)%nat) in *.
  destruct (Z.ltb_spec target (k (base + half)%nat)) as [Hlt|Hge].
  - assert (i < base + half)%nat.
    { destruct (Nat.lt_ge_cases i (base + half)) as [|Hc]; [done|].
      destruct (decide (i = base + half)%nat) as [->|Hne]; [lia|].
      pose proof (Hk (base + half)%nat i ltac:(lia) ltac:(lia) ltac:(lia)). lia. }
    assert (half <= size - half)%nat.
    { unfold half. pose proof (Nat.Div0.mul_div_le size 2). lia. }
    apply IH; try lia. intros a b ???. apply Hk; lia.
  - assert (base + half <= i)%nat.
    { destruct (Nat.lt_ge_cases i (base + half)) as [Hc|]; [|done].
      pose proof (Hk i (base + half)%nat ltac:(lia) ltac:(lia) ltac:(lia)). lia. }
    apply IH; try lia. intros a b ???. apply Hk; lia.
Qed.

Lemma binary_search_Some target l i :
  increasing l ->
  binary_search_by_key key target l = Some i
  <-> exists x, l !! i = Some x /\ key x = target.
Proof.
  intros Hl. unfold binary_search_by_key. destruct l as [|d l']; [split; [done|by intros (?&?&?)]|].
  set (l := d :: l') in *. set (k := fun i => key (default d (l !! i))).
  assert (Hlen : (1 <= length l)%nat) by (unfold l; simpl; lia).
  pose proof (bisect_bounds (length l) k target 0 (length l) Hlen) as Hb.
  set (b := bisect (length l) k target 0 (length l)) in *.
  assert (Hk : forall j x, l !! j = Some x -> k j = key x) by (intros j x E; unfold k; by rewrite E).
  destruct (lookup_lt_is_Some_2 l b ltac:(lia)) as [xb Exb].
  fold k. split.
  - change (key (default d (l !! b))) with (k b).
    destruct (Z.eqb_spec (k b) target) as [E|E]; [|done]. intros [= <-].
    exists xb. split; [done|]. by rewrite <- (Hk _ _ Exb).
  - intros (x & Ex & Ekx). assert (Hi : (i < length l)%nat) by (apply lookup_lt_Some in Ex; done).
    assert (Ebi : b = i).
    { apply bisect_finds; try lia.
      - intros a c _ Hac Hc. destruct (lookup_lt_is_Some_2 l a ltac:(lia)) as [xa Ea].
        destruct (lookup_lt_is_Some_2 l c ltac:(lia)) as [xc Ec].
        rewrite (Hk _ _ Ea), (Hk _ _ Ec). exact (Hl _ _ _ _ Hac Ea Ec).
      - by rewrite (Hk _ _ Ex). }
    change (key (default d (l !! b))) with (k b). rewrite Ebi, (Hk _ _ Ex), Ekx.
    by rewrite Z.eqb_refl.
Qed.

Lemma increasing_unique l i j x y :
  increasing l -> l !! i = Some x -> l !! j = Some y -> key x = key y -> i = j.
Proof.
  intros Hl Hi Hj E. destruct (Nat.lt_trichotomy i j) as [Hc|[Hc|Hc]]; [|done|];
    [pose proof (Hl i j x y Hc Hi Hj)|pose proof (Hl j i y x Hc Hj Hi)]; lia.
Qed.

(** Editing the element found is editing every element with that key. *)
Lemma binary_search_alter (f : A -> A) target l :
  increasing l ->
  from_option (fun i => alter f i l) l (binary_search_by_key key target l)
  = map (fun x => if key x =? target then f x else x) l.
Proof.
  intros Hl. apply list_eq. intros j. rewrite list_lookup_fmap.
  destruct (binary_search_by_key key target l) as [i|] eqn:E; simpl.
  - apply binary_search_Some in E as (x & Ex & Ek); [|done].
    destruct (decide (i = j)) as [->|Hne].
    + rewrite list_lookup_alter_eq, Ex. simpl. by rewrite Ek, Z.eqb_refl.
    + rewrite list_lookup_alter_ne by done. destruct (l !! j) as [y|] eqn:Ej; [|done]. simpl.
      destruct (Z.eqb_spec (key y) target) as [Ey|]; [|done].
      exfalso. apply Hne. eapply increasing_unique; try done. lia.
  - destruct (l !! j) as [y|] eqn:Ej; [|done]. simpl.
    destruct (Z.eqb_spec (key y) target) as [Ey|]; [|done].
    exfalso. assert (Hs : binary_search_by_key key target l = Some j)
      by (apply binary_search_Some; eauto). congruence.
Qed.
End Bisect.

Section Bounds.
Context {PM : M3u8Parser} {PL : Layout}
  `{!HashOrder text PlaylistInfo} `{!HashOrder text CachedPlaylistBody}
  `{!HashOrderLaws text PlaylistInfo} `{!HashOrderLaws text CachedPlaylistBody}.

Lemma saturating_add_nonneg a b : 0 <= a -> 0 <= b -> 0 <= saturating_add a b.
Proof. unfold saturating_add. lia. Qed.

Lemma fold_nonneg {A} (f : Z -> A -> Z) l acc :
  (forall t x, 0 <= t -> 0 <= f t x) -> 0 <= acc -> 0 <= fold_left f l acc.
Proof. intros Hf. revert acc. induction l as [|x l IH]; simpl; auto. Qed.

Lemma tlen_nonneg s : 0 <= tlen s.
Proof. unfold tlen. lia. Qed.
Hint Resolve saturating_add_nonneg tlen_nonneg : core.

Lemma playlist_size_nonneg k info : 0 <= playlist_size k info.
Proof.
  unfold playlist_size. destruct size_of_nonneg as (?&?&?).
  assert (forall o, 0 <= from_option tlen 0 o) by (intros [?|]; simpl; auto; lia).
  apply saturating_add_nonneg; [apply saturating_add_nonneg; auto|];
    apply fold_nonneg; auto 6 with lia.
Qed.

Lemma body_size_nonneg k e : 0 <= body_size k e.
Proof. unfold body_size. auto. Qed.

(** Each cache is within its count and byte limits. *)
Record hls_ok (m : HlsManager) : Prop := {
  ok_playlists : Z.of_nat (size (playlists m)) <= MAX_CACHED_PLAYLISTS;
  ok_playlist_bytes : total_weight playlist_size (playlists m) <= MAX_PLAYLIST_CACHE_BYTES;
  ok_bodies : Z.of_nat (size (playlist_bodies m)) <= MAX_CACHED_PLAYLIST_BODIES;
  ok_body_bytes : total_weight body_size (playlist_bodies m) <= MAX_PLAYLIST_BODY_CACHE_BYTES;
}.

(** One insertion after the eviction loop, for either cache. *)
Lemma insert_after_eviction {A} `{!HashOrder text A} `{!HashOrderLaws text A}
    (weight : text -> A -> Z) (age : A -> Z) (limit bytes : Z) (k : text) (a : A) m :
  (forall k a, 0 <= weight k a) -> 0 < limit -> weight k a <= bytes < u64_max ->
  let full m := (limit <=? Z.of_nat (size m))
                || (bytes <? saturating_add (weight_of weight m) (weight k a)) in
  let kept := evict_until full age (delete k m) in
  Z.of_nat (size (<[k := a]> kept)) <= limit
  /\ total_weight weight (<[k := a]> kept) <= bytes
  /\ oldest_gone age (delete k m) kept
  /\ forall k' a', delete k m !! k' = Some a' -> kept !! k' = None ->
       exists m1, full m1 = true /\ m1 ⊆ delete k m /\ m1 !! k' = Some a' /\ kept ⊆ m1.
Proof.
  intros Hw Hl Hb full kept.
  assert (Hempty : full ∅ = false).
  { unfold full. rewrite map_size_empty, weight_of_sum, total_weight_empty by done.
    unfold saturating_add. specialize (Hw k a).
    apply orb_false_iff. rewrite Z.leb_gt, Z.ltb_ge. lia. }
  destruct (evict_until_spec full age (delete k m) Hempty) as (Hf & Hold & Hneed).
  fold kept in Hf, Hold, Hneed.
  assert (Hk : kept !! k = None).
  { destruct (kept !! k) eqn:E; [|done]. eapply lookup_weaken in E; [|apply Hold].
    by rewrite lookup_delete_eq in E. }
  rewrite map_size_insert_None by done. rewrite total_weight_insert by done.
  unfold full in Hf. apply orb_false_iff in Hf as [H1 H2].
  rewrite Z.leb_gt in H1. rewrite Z.ltb_ge in H2.
  rewrite weight_of_sum in H2 by done. unfold saturating_add in H2.
  specialize (Hw k a). split; [lia|]. split; [lia|]. done.
Qed.

Lemma cache_playlist_run url info m :
  cache_playlist url info m
  = (Ok tt, if MAX_PLAYLIST_CACHE_BYTES <? playlist_size url info then m
            else set_playlists (fun m =>
              <[url := info]> (evict_until (playlists_full (playlist_size url info))
                                 updated_at_unix_nanos (base.delete url m))) m).
Proof. unfold cache_playlist. by destruct (_ <? _). Qed.

Lemma cache_playlist_ok url info m : hls_ok m -> hls_ok (cache_playlist url info m).2.
Proof.
  intros [H1 H2 H3 H4]. rewrite cache_playlist_run. simpl.
  destruct (Z.ltb_spec MAX_PLAYLIST_CACHE_BYTES (playlist_size url info)) as [Hb|Hb]; [done|].
  destruct (insert_after_eviction playlist_size updated_at_unix_nanos MAX_CACHED_PLAYLISTS
    MAX_PLAYLIST_CACHE_BYTES url info (playlists m) playlist_size_nonneg ltac:(done)
    ltac:(unfold MAX_PLAYLIST_CACHE_BYTES in *; lia)) as (? & ? & _).
  by split.
Qed.

Lemma cache_body_ok url content ttl now m :
  hls_ok m -> hls_ok (cache_playlist_body url content ttl now m).2.
Proof.
  intros [H1 H2 H3 H4]. unfold cache_playlist_body.
  destruct (Z.ltb_spec MAX_PLAYLIST_BODY_CACHE_BYTES (saturating_add (tlen url) (tlen content)))
    as [Hb|Hb]; [done|].
  destruct (insert_after_eviction body_size inserted_at MAX_CACHED_PLAYLIST_BODIES
    MAX_PLAYLIST_BODY_CACHE_BYTES url (mk_CachedPlaylistBody content (now + ttl) now)
    (playlist_bodies m) body_size_nonneg ltac:(done)
    ltac:(unfold MAX_PLAYLIST_BODY_CACHE_BYTES, body_size in *; simpl in *; lia)) as (? & ? & _).
  by split.
Qed.

Lemma process_m3u8_run url content now m r m' :
  process_m3u8 url content now m = (r, m') ->
  m' = m \/ exists info, m' = (cache_playlist url info m).2 /\ r = Ok info.
Proof.
  unfold process_m3u8. intros E.
  destruct (map_err _ _) as [pl|e] eqn:Ep; [|injection E as _ <-; by left].
  cbv [mbind io_bind lift] in E. destruct pl as [vs|target ms el ss].
  all: destruct (_ <? _); [injection E as _ <-; by left|].
  all: match type of E with context [cache_playlist ?u ?i] => set (info := i) in E end.
  all: rewrite cache_playlist_run in E; injection E as <- <-; right; exists info;
    by rewrite cache_playlist_run.
Qed.

Lemma total_weight_delete_le {A} (weight : text -> A -> Z) (k : text) (m : gmap text A) :
  (forall k a, 0 <= weight k a) ->
  total_weight weight (delete k m) <= total_weight weight m.
Proof.
  intros Hw. destruct (m !! k) as [a|] eqn:E; cycle 1.
  { rewrite delete_id by done. lia. }
  rewrite <- (insert_delete_id m k a E) at 2. rewrite total_weight_insert by apply lookup_delete_eq.
  specialize (Hw k a). lia.
Qed.

Lemma size_delete_le {A} (k : text) (m : gmap text A) : (size (delete k m) <= size m)%nat.
Proof. apply map_subseteq_size, delete_subseteq. Qed.

Lemma cached_body_ok url now m : hls_ok m -> hls_ok (cached_playlist_body url now m).2.
Proof.
  intros Hm. unfold cached_playlist_body.
  assert (Hd : hls_ok (set_bodies (base.delete url) m)).
  { destruct Hm as [H1 H2 H3 H4]. split; simpl; try done.
    - pose proof (size_delete_le url (playlist_bodies m)). lia.
    - pose proof (total_weight_delete_le body_size url (playlist_bodies m) body_size_nonneg). lia. }
  destruct (_ !! _); [destruct (_ <? _)|]; done.
Qed.

(** Marking a segment changes no size. *)
Lemma segments_bytes_mark i sz l acc :
  fold_left (fun total s =>
    saturating_add (saturating_add total size_of_segment) (tlen (seg_url s)))
    (alter (mark_cached sz) i l) acc
  = fold_left (fun total s =>
    saturating_add (saturating_add total size_of_segment) (tlen (seg_url s))) l acc.
Proof.
  revert i acc. induction l as [|s l IH]; intros [|i] acc; simpl; try done. apply IH.
Qed.

Lemma total_weight_alter {A} (weight : text -> A -> Z) (f : A -> A) (k : text) (m : gmap text A) :
  (forall a, weight k (f a) = weight k a) ->
  total_weight weight (alter f k m) = total_weight weight m.
Proof.
  intros Hf. destruct (m !! k) as [a|] eqn:E; cycle 1.
  { rewrite alter_id; [done|]. congruence. }
  rewrite <- (insert_delete_id m k a E). rewrite alter_insert_eq.
  rewrite !total_weight_insert by apply lookup_delete_eq. by rewrite Hf.
Qed.

Lemma update_segment_ok url sequence sz m :
  hls_ok m -> hls_ok (update_segment_cache url sequence sz m).2.
Proof.
  intros [H1 H2 H3 H4]. unfold update_segment_cache, modify. simpl.
  split; simpl; try done.
  - rewrite <- !size_dom in *. by rewrite dom_alter_L.
  - rewrite total_weight_alter; [done|]. intros a.
    destruct (binary_search_by_key _ _ _); [|done].
    unfold playlist_size. simpl. by rewrite segments_bytes_mark.
Qed.

(** The operations of the manager that change its state. *)
Inductive hls_op : Type :=
| OpProcess (url content : text) (now : Z)
| OpBody (url content : text) (ttl now : Z)
| OpLookup (url : text) (now : Z)
| OpUpdate (url : text) (sequence size : Z).

Definition run_hls (op : hls_op) (m : HlsManager) : HlsManager :=
  match op with
  | OpProcess url content now => (process_m3u8 url content now m).2
  | OpBody url content ttl now => (cache_playlist_body url content ttl now m).2
  | OpLookup url now => (cached_playlist_body url now m).2
  | OpUpdate url sequence size => (update_segment_cache url sequence size m).2
  end.

Lemma run_hls_ok op m : hls_ok m -> hls_ok (run_hls op m).
Proof.
  intros Hm. destruct op as [url content now|url content ttl now|url now|url s z]; simpl.
  - destruct (process_m3u8 url content now m) as [r m'] eqn:E. simpl.
    apply process_m3u8_run in E as [->|(info & -> & _)]; [done|]. by apply cache_playlist_ok.
  - by apply cache_body_ok.
  - by apply cached_body_ok.
  - by apply update_segment_ok.
Qed.

Lemma run_hls_all ops m : hls_ok m -> hls_ok (fold_left (fun m op => run_hls op m) ops m).
Proof. revert m. induction ops as [|op ops IH]; intros m Hm; simpl; [done|]. by apply IH, run_hls_ok. Qed.

Lemma hls_new_ok dir : hls_ok (hls_new dir).
Proof.
  split; simpl; rewrite ?map_size_empty, ?total_weight_empty; vm_compute; discriminate.
Qed.

(** What the parser of a media playlist numbers in order. *)
Lemma imap_lookup_inv {A B} (f : nat -> A -> B) l i y :
  imap f l !! i = Some y -> exists x, l !! i = Some x /\ y = f i x.
Proof. rewrite list_lookup_imap. intros (x & Hx & ->)%fmap_Some. eauto. Qed.

Lemma numbered_increasing base ss :
  base + Z.of_nat (length ss) <= u64_max + 1 ->
  increasing seg_sequence
    (imap (fun i s => mk_Segment (ms_uri s) (ms_duration s)
             (saturating_add base (Z.of_nat i)) None false) ss).
Proof.
  intros Hb i j x y Hij (sx & Hx & ->)%imap_lookup_inv (sy & Hy & ->)%imap_lookup_inv. simpl.
  apply lookup_lt_Some in Hx, Hy. unfold saturating_add. lia.
Qed.
End Bounds.

Module HlsDemo.
Definition demo_layout : Layout.
Proof. refine (Build_Layout 64 56 120 _). lia. Defined.
Definition info_order : HashOrder text PlaylistInfo := sorted_order text PlaylistInfo.
Definition info_laws : @HashOrderLaws text PlaylistInfo _ _ info_order := sorted_order_laws _ _.
Definition body_order : HashOrder text CachedPlaylistBody := sorted_order text CachedPlaylistBody.
Definition body_laws : @HashOrderLaws text CachedPlaylistBody _ _ body_order :=
  sorted_order_laws _ _.

(** A parser that knows one media playlist of three segments. *)
Definition media : Playlist :=
  MediaPlaylist 6 100 false
    [mk_MediaSegment (str "a.ts") 0; mk_MediaSegment (str "b.ts") 0; mk_MediaSegment (str "c.ts") 0].
Definition demo_m3u8 : M3u8Parser := fun s =>
  if starts_with (str "#EXTM3U") s then Ok media else Err (str "not a playlist").
Definition URL : text := str "http://h/live.m3u8".
Definition m0 : HlsManager := hls_new [str "cache"].
Definition run_live := @process_m3u8 demo_m3u8 demo_layout info_order URL (str "#EXTM3U") 7 m0.
End HlsDemo.

Module HlsManagerClaims.
Import HlsDemo.

(** Whatever sequence of playlists is parsed, stored, looked up and
    updated, the playlist cache never holds more than 512 entries or 32 MiB and
    the cache of rewritten texts never more than 128 entries or 8 MiB, the
    sizes being the exact sums, not the saturated ones the code computes. *)
Theorem playlist_caches_bounded {PM : M3u8Parser} {PL : Layout}
    {OI : HashOrder text PlaylistInfo} {OB : HashOrder text CachedPlaylistBody}
    {LI : HashOrderLaws text PlaylistInfo} {LB : HashOrderLaws text CachedPlaylistBody}
    (dir : path) (ops : list hls_op) :
  let m := fold_left (fun m op => run_hls op m) ops (hls_new dir) in
  Z.of_nat (size (playlists m)) <= MAX_CACHED_PLAYLISTS
  /\ total_weight playlist_size (playlists m) <= MAX_PLAYLIST_CACHE_BYTES
  /\ Z.of_nat (size (playlist_bodies m)) <= MAX_CACHED_PLAYLIST_BODIES
  /\ total_weight body_size (playlist_bodies m) <= MAX_PLAYLIST_BODY_CACHE_BYTES.
Proof. intros m. by destruct (run_hls_all ops _ (hls_new_ok dir)). Qed.

Lemma playlist_caches_bounded_witness :
  let m := fold_left (fun m op => @run_hls demo_m3u8 demo_layout info_order body_order op m)
             [OpProcess URL (str "#EXTM3U") 1; OpBody URL (str "text") 1000 1] (hls_new []) in
  size (playlists m) = 1%nat /\ Z.of_nat (size (playlists m)) <= MAX_CACHED_PLAYLISTS.
Proof.
  intros m. split; [vm_compute; reflexivity|].
  exact (proj1 (@playlist_caches_bounded demo_m3u8 demo_layout info_order body_order info_laws
    body_laws [] [OpProcess URL (str "#EXTM3U") 1; OpBody URL (str "text") 1000 1])).
Defined.

(** Storing a playlist that fits the budget ends, keeps it, keeps nothing
    that was not there before, evicts older playlists before newer ones, and
    evicts one only at a moment when the map with it was over a limit. *)
Theorem playlist_cache_evicts_oldest {PL : Layout}
    {OI : HashOrder text PlaylistInfo} {LI : HashOrderLaws text PlaylistInfo}
    (url : text) (info : PlaylistInfo) (m : HlsManager) :
  playlist_size url info <= MAX_PLAYLIST_CACHE_BYTES ->
  let m' := (cache_playlist url info m).2 in
  playlists m' !! url = Some info
  /\ (forall k, k <> url -> forall i, playlists m' !! k = Some i -> playlists m !! k = Some i)
  /\ forall k i, k <> url -> playlists m !! k = Some i -> playlists m' !! k = None ->
       (forall k' i', k' <> url -> playlists m' !! k' = Some i' ->
          updated_at_unix_nanos i <= updated_at_unix_nanos i')
       /\ exists crowd, crowd !! k = Some i /\ crowd ⊆ playlists m
            /\ (MAX_CACHED_PLAYLISTS <= Z.of_nat (size crowd)
                \/ MAX_PLAYLIST_CACHE_BYTES
                   < total_weight playlist_size crowd + playlist_size url info).
Proof.
  intros Hfit m'. unfold m'. rewrite cache_playlist_run. simpl.
  destruct (Z.ltb_spec MAX_PLAYLIST_CACHE_BYTES (playlist_size url info)) as [|_]; [lia|].
  destruct (insert_after_eviction playlist_size updated_at_unix_nanos MAX_CACHED_PLAYLISTS
    MAX_PLAYLIST_CACHE_BYTES url info (playlists m) playlist_size_nonneg ltac:(done)
    ltac:(unfold MAX_PLAYLIST_CACHE_BYTES in *; lia)) as (_ & _ & [Hsub Hold] & Hneed).
  cbn [playlists set_playlists].
  change (fun m0 => (MAX_CACHED_PLAYLISTS <=? Z.of_nat (size m0))
     || (MAX_PLAYLIST_CACHE_BYTES <? saturating_add (weight_of playlist_size m0)
           (playlist_size url info))) with (playlists_full (playlist_size url info)) in *.
  split; [by rewrite lookup_insert_eq|]. split.
  - intros k Hne i. rewrite lookup_insert_ne by done. intros Hi.
    eapply lookup_weaken in Hi; [|exact Hsub]. by rewrite lookup_delete_ne in Hi.
  - intros k i Hne Hk Hk'. rewrite lookup_insert_ne in Hk' by done.
    assert (Hdk : delete url (playlists m) !! k = Some i) by by rewrite lookup_delete_ne.
    split.
    + intros k' i' Hne' Hi'. rewrite lookup_insert_ne in Hi' by done. by eapply Hold.
    + destruct (Hneed k i Hdk Hk') as (crowd & Hf & Hc & Hci & _). exists crowd.
      split_and!; [done|etrans; [exact Hc|apply delete_subseteq]|].
      unfold playlists_full in Hf. apply orb_true_iff in Hf as [Hf|Hf].
      * left. by apply Z.leb_le.
      * right. apply Z.ltb_lt in Hf. unfold cached_playlist_bytes in Hf.
        rewrite weight_of_sum in Hf by apply playlist_size_nonneg.
        unfold saturating_add in Hf. lia.
Qed.

Definition info_at (n : Z) : PlaylistInfo := mk_PlaylistInfo URL 6 0 false [] [] n.
Definition old_m : HlsManager :=
  mk_HlsManager [] {[str "a" := info_at 1; str "b" := info_at 2]} ∅.
Lemma playlist_cache_evicts_oldest_witness :
  playlists (@cache_playlist demo_layout info_order URL (info_at 3) old_m).2 !! URL
  = Some (info_at 3).
Proof.
  apply (@playlist_cache_evicts_oldest demo_layout info_order info_laws URL (info_at 3) old_m).
  vm_compute. discriminate.
Defined.

(** After a media playlist has been parsed and stored, marking a sequence
    number as cached changes exactly the segment with that number: the halving
    search agrees with a scan of the whole list, as long as the numbers of the
    playlist stay below the largest 64-bit integer. *)
Theorem update_segment_cache_correct {PM : M3u8Parser} {PL : Layout}
    {OI : HashOrder text PlaylistInfo} {LI : HashOrderLaws text PlaylistInfo}
    (url content : text) (now sequence sz : Z) (m m1 : HlsManager)
    (info : PlaylistInfo) target base end_list ss :
  parse_playlist content = Ok (MediaPlaylist target base end_list ss) ->
  base + Z.of_nat (length ss) <= u64_max + 1 ->
  process_m3u8 url content now m = (Ok info, m1) ->
  playlist_size url info <= MAX_PLAYLIST_CACHE_BYTES ->
  let m2 := (update_segment_cache url sequence sz m1).2 in
  exists info', get_playlist url m2 = Some info'
    /\ segments info'
       = map (fun s => if seg_sequence s =? sequence then mark_cached sz s else s) (segments info)
    /\ (forall k, k <> url -> get_playlist k m2 = get_playlist k m1)
    /\ playlist_bodies m2 = playlist_bodies m1.
Proof.
  intros Hp Hb E Hfit m2.
  assert (Hinfo : increasing seg_sequence (segments info) /\ playlists m1 !! url = Some info).
  { unfold process_m3u8 in E. rewrite Hp in E. cbn [map_err] in E.
    cbv [mbind io_bind lift] in E. destruct (_ <? _); [discriminate|].
    rewrite cache_playlist_run in E. injection E as <- <-.
    split; [by apply numbered_increasing|].
    rewrite (proj2 (Z.ltb_ge _ _) Hfit). simpl. by rewrite lookup_insert_eq. }
  destruct Hinfo as [Hinc Hm1]. unfold m2, update_segment_cache, modify, get_playlist. simpl.
  rewrite lookup_alter_eq, Hm1. simpl.
  pose proof (binary_search_alter seg_sequence (mark_cached sz) sequence (segments info) Hinc) as Hs.
  destruct (binary_search_by_key seg_sequence sequence (segments info)) as [i|] eqn:Ei; simpl in Hs.
  all: eexists; split; [reflexivity|]; simpl; split; [done|]; split; [|done].
  all: intros k Hk; by rewrite lookup_alter_ne.
Qed.

Definition stored : PlaylistInfo :=
  mk_PlaylistInfo URL 6 100 false
    [mk_Segment (str "a.ts") 0 100 None false; mk_Segment (str "b.ts") 0 101 None false;
     mk_Segment (str "c.ts") 0 102 None false] [] 7.
Lemma update_segment_cache_correct_witness :
  exists info', get_playlist URL (update_segment_cache URL 101 9 run_live.2).2 = Some info'
    /\ map seg_cached (segments info') = [false; true; false].
Proof.
  destruct (@update_segment_cache_correct demo_m3u8 demo_layout info_order info_laws URL
    (str "#EXTM3U") 7 101 9 m0 run_live.2 stored 6 100 false
    [mk_MediaSegment (str "a.ts") 0; mk_MediaSegment (str "b.ts") 0; mk_MediaSegment (str "c.ts") 0])
    as (info' & H1 & H2 & _).
  - vm_compute. reflexivity.
  - vm_compute. discriminate.
  - apply run_result. vm_compute. reflexivity.
  - vm_compute. discriminate.
  - exists info'. split; [exact H1|]. rewrite H2. reflexivity.
Defined.
End HlsManagerClaims.
