(* ===== verification/HlsHandler.v ===== *)
(** * The HLS handler ([hls/handler.rs])

    A playlist request: the rewritten text is taken from the cache or the
    playlist is downloaded (with a cap on its size), parsed, rewritten, and
    every reference in it registered as a source of its own, so that the player
    only sees paths [/media/<id>]. *)

From Stdlib Require Import Strings.Byte Strings.String.
From S2P Require Import Prelude Bytes Error External Headers Percent NetworkPolicy DataRequest SourceRegistry FileSystem Eviction NetSource Playlist HlsManager.

Definition MAX_PLAYLIST_BYTES : Z := 8 * 1024 * 1024.
Definition PLAYLIST_TIMEOUT : Z := 20000.

(** The lower bound of the size hint a response body declares ([hyper]), and
    the text of the error of [String::from_utf8]. *)
Class BodyHint : Type := size_hint_lower : HttpResponse -> Z.
Class Utf8Error : Type := utf8_error : text -> text.

Definition checked_playlist_length (current chunk : Z) : Result Z :=
  next ← ok_or (checked_add current chunk) (ProxyError.Parse (str "m3u8 长度累计溢出"));
  if MAX_PLAYLIST_BYTES <? next then
    Err (ProxyError.Parse (str "m3u8 超过大小上限 " ++ format_u64 MAX_PLAYLIST_BYTES
                           ++ str " 字节"))
  else Ok next.

Fixpoint read_chunks (buffer : list byte) (frames : list (result text (list byte))) :
    Result (list byte) :=
  match frames with
  | [] => Ok buffer
  | Err e :: _ => Err (ProxyError.Network (str "读取响应失败: " ++ e))
  | Ok chunk :: frames' =>
      _ ← checked_playlist_length (Z.of_nat (length buffer)) (Z.of_nat (length chunk));
      read_chunks (buffer ++ chunk) frames'
  end.

Definition read_body_capped `{BodyHint} (response : HttpResponse) : Result (list byte) :=
  let declared := size_hint_lower response in
  if MAX_PLAYLIST_BYTES <? declared then
    Err (ProxyError.Parse (str "m3u8 声明长度 " ++ format_u64 declared ++ str " 超过上限 "
                           ++ format_u64 MAX_PLAYLIST_BYTES ++ str " 字节"))
  else read_chunks [] (hr_frames response).

(** The state of the handler: the manager, the shared registry, the network,
    and the readings the clocks will give. *)
Record Hls : Type := mk_Hls {
  h_manager : HlsManager;
  h_registry : SourceRegistry;
  h_net : Net;
  h_clock : list Z;
}.
Local Abbreviation H := (io Hls ProxyError.t).

Definition on_manager {A} (m : io HlsManager ProxyError.t A) : H A := fun h =>
  let '(r, s) := m (h_manager h) in (r, mk_Hls s (h_registry h) (h_net h) (h_clock h)).
Definition on_registry {A} (m : io SourceRegistry ProxyError.t A) : H A := fun h =>
  let '(r, s) := m (h_registry h) in (r, mk_Hls (h_manager h) s (h_net h) (h_clock h)).
Definition on_upstream {A} (m : io Net ProxyError.t A) : H A := fun h =>
  let '(r, s) := m (h_net h) in (r, mk_Hls (h_manager h) (h_registry h) s (h_clock h)).
Definition hls_now : H Z := fun h =>
  (Ok (List.hd 0 (h_clock h)),
   mk_Hls (h_manager h) (h_registry h) (h_net h) (List.tl (h_clock h))).

(** The request and the head of the answer. *)
Definition exchange_m3u8 (url : text) : io Net ProxyError.t HttpResponse := fun n =>
  let n' a := mk_Net (policy n) a (clock n) (sent n ++ [(url, str "bytes=0-")]) (slept n) in
  match answers n with
  | Answered resp :: a => (Ok resp, n' a)
  | Failed error :: a => (Err (ProxyError.Network (str "请求失败: " ++ error)), n' a)
  | Timeout :: a => (Err (ProxyError.Network (str "下载 m3u8 超时")), n' a)
  | [] => (Err (ProxyError.Network (str "下载 m3u8 超时")), n' [])
  end.

Section Handler.
Context {UP : UrlParser} {UO : UrlOps} {UR : UriParser} {HT : HeaderText} {BH : BodyHint}
  {UE : Utf8Error} {PM : M3u8Parser} {PL : Layout}
  {OT : HashOrder text Z} {OI : HashOrder text PlaylistInfo}
  {OB : HashOrder text CachedPlaylistBody} {OS : HashOrder Z RegisteredSource}
  (lookup : text -> Z -> option (list SocketAddr)).

Definition download_m3u8 (url : text) : io Net ProxyError.t text :=
  _ ← validate_url lookup url;
  if negb (bool_decide (is_Some (uri_parse url))) then
    throw (ProxyError.Request (str "无法构造 m3u8 请求"))
  else
    response ← exchange_m3u8 url;
    let status := hr_status response in
    if (status =? 401) || (status =? 403) then
      throw (ProxyError.UpstreamAuthorizationExpired None)
    else if negb (is_success status) then
      throw (ProxyError.Network (str "请求失败: " ++ status_text status))
    else
      body ← lift (read_body_capped response);
      if utf8_valid body then mret body
      else throw (ProxyError.Parse (str "解析响应内容失败: " ++ utf8_error body)).

(** The loop over the proxy paths of a rewritten playlist: each round goes
    past one of them, so the length of the text is enough fuel. *)
Fixpoint register_loop (fuel : nat) (out rest : text) : io SourceRegistry ProxyError.t text :=
  match fuel with
  | O => mret (out ++ rest)
  | S fuel' =>
      match find (str "/proxy/") rest with
      | None => mret (out ++ rest)
      | Some start =>
          let out := out ++ take start rest in
          let tail := drop (start + length (str "/proxy/")) rest in
          let end_ := from_option id (length tail) (find_end tail) in
          let encoded := take end_ tail in
          source_url ← lift (map_err
            (fun e => ProxyError.Request (str "URL 解码失败: " ++ percent_error_display e))
            (decode_component encoded));
          id ← register_or_reuse (str "hls") source_url;
          register_loop fuel' (out ++ str "/media/" ++ format_u64 id) (drop end_ tail)
      end
  end.
Definition register_rewritten_sources (content : text) : io SourceRegistry ProxyError.t text :=
  register_loop (length content) [] content.

(** The upstream URL behind any number of proxy prefixes. *)
Definition clean_url (url : text) : Result text :=
  match find PROXY_PREFIX url with
  | Some proxy_path =>
      let clean := drop (proxy_path + length PROXY_PREFIX) url in
      map_err (fun e => ProxyError.Request (str "URL 解码失败: " ++ percent_error_display e))
        (decode_component (clean_proxy_path (length clean) clean))
  | None => Ok url
  end.

Definition handle_m3u8 (url : text) : H text :=
  clean_url ← lift (clean_url url);
  now ← hls_now;
  cached ← on_manager (cached_playlist_body clean_url now);
  match cached with
  | Some content => mret content
  | None =>
      content ← on_upstream (download_m3u8 clean_url);
      nanos ← hls_now;
      info ← on_manager (process_m3u8 clean_url content nanos);
      base_url ← lift (get_base_url clean_url);
      let rewritten := rewrite_m3u8 content base_url (str "/proxy") in
      rewritten ← on_registry (register_rewritten_sources rewritten);
      now ← hls_now;
      _ ← on_manager (cache_playlist_body clean_url rewritten (playlist_refresh_ttl info) now);
      mret rewritten
  end.
End Handler.
