(* ===== verification/HlsTheorems.v ===== *)
(** * HLS: what a rewritten playlist refers to *)

From Stdlib Require Import Strings.Byte Strings.String.
From S2P Require Import Prelude Bytes Error External Headers Percent NetworkPolicy DataRequest SourceRegistry FileSystem Eviction NetSource Playlist HlsManager HlsHandler.

(** ** Searching in texts with a separator *)

Lemma strip_prefix_sep p a c b :
  c ∉ p -> strip_prefix p (a ++ c :: b) = (fun t => t ++ c :: b) <$> strip_prefix p a.
Proof.
  revert a. induction p as [|x p IH]; intros a Hc; [done|].
  rewrite not_elem_of_cons in Hc. destruct Hc as [Hx Hc].
  destruct a as [|y a]; simpl; [by rewrite decide_False by congruence|].
  destruct (decide (x = y)); [by apply IH|done].
Qed.

Lemma starts_with_sep p a c b : c ∉ p -> starts_with p (a ++ c :: b) = starts_with p a.
Proof.
  intros Hc. unfold starts_with. rewrite strip_prefix_sep by done. apply bool_decide_ext.
  by rewrite fmap_is_Some.
Qed.

Lemma find_sep p a c b :
  c ∉ p ->
  find p (a ++ c :: b)
  = match find p a with
    | Some i => Some i
    | None => (fun j => length a + 1 + j)%nat <$> find p b
    end.
Proof.
  intros Hc. induction a as [|x a IH].
  - pose proof (starts_with_sep p [] c b Hc) as E. cbn [app find length] in *. rewrite E.
    by destruct (starts_with p []).
  - cbn [app find length]. change (x :: a ++ c :: b) with ((x :: a) ++ c :: b).
    rewrite starts_with_sep by done. destruct (starts_with p (x :: a)); [done|].
    rewrite IH. destruct (find p a) as [i|]; [done|]. by destruct (find p b).
Qed.

Lemma starts_with_drop p s : starts_with p s = true -> s = p ++ drop (length p) s.
Proof. intros [t ->]%starts_with_spec. by rewrite drop_app_length. Qed.

Lemma find_Some_split p s i :
  find p s = Some i -> s = take i s ++ p ++ drop (i + length p) s.
Proof.
  revert i. induction s as [|x s IH]; intros i; cbn [find];
    destruct (starts_with p _) eqn:E; try done.
  1,2: intros [= <-]; by apply starts_with_drop.
  intros (j & Ej & ->)%fmap_Some. apply IH in Ej. simpl. by f_equal.
Qed.

Lemma starts_with_app p b s : s = p ++ b -> starts_with p s = true.
Proof. intros ->. apply starts_with_spec. eauto. Qed.

Lemma find_None_iff p s : find p s = None <-> forall a b, s <> a ++ p ++ b.
Proof.
  induction s as [|x s IH]; cbn [find]; destruct (starts_with p _) eqn:E.
  1,3: apply starts_with_drop in E; split; [done|]; intros Hn; by destruct (Hn [] _ E).
  - split; [|done]. intros _ [|y a] b; [|done]. simpl. intros Ep%starts_with_app. congruence.
  - rewrite fmap_None, IH. split.
    + intros Hn [|y a] b; simpl; [intros Ep%starts_with_app; congruence|].
      intros [= -> ->]. by eapply Hn.
    + intros Hn a b ->. by eapply (Hn (x :: a)).
Qed.

Lemma find_None_factor p a s b : find p (a ++ s ++ b) = None -> find p s = None.
Proof.
  rewrite !find_None_iff. intros Hn u v ->. apply (Hn (a ++ u) (v ++ b)).
  by rewrite <- !app_assoc.
Qed.

Lemma find_byte c s : find [c] s = None <-> c ∉ s.
Proof.
  rewrite find_None_iff. split.
  - intros Hn (a & b & ->)%list_elem_of_split. by apply (Hn a b).
  - intros Hc a b ->. apply Hc. set_solver.
Qed.

Lemma find_byte_here c a b : c ∉ a -> find [c] (a ++ c :: b) = Some (length a).
Proof.
  induction a as [|x a IH]; intros Hc; cbn [app find].
  - assert (E : starts_with [c] (c :: b) = true) by (apply starts_with_spec; by exists b).
    by rewrite E.
  - rewrite not_elem_of_cons in Hc. destruct Hc as [Hx Hc].
    assert (E : starts_with [c] (x :: a ++ c :: b) = false).
    { apply not_true_iff_false. intros [t Et]%starts_with_spec. by simplify_eq/=. }
    rewrite E, IH by done. done.
Qed.

Lemma find_byte_first c s l : find [c] s = Some l -> c ∉ take l s.
Proof.
  revert l. induction s as [|x s IH]; intros l; cbn [find].
  - destruct (starts_with [c] []) eqn:E; [|done]. intros _. rewrite take_nil. set_solver.
  - destruct (starts_with [c] (x :: s)) eqn:E; [intros [= <-]; set_solver|].
    intros (j & Hj & ->)%fmap_Some. simpl. apply not_elem_of_cons. split; [|by apply IH].
    intros ->. rewrite (starts_with_app [x] s) in E by done. discriminate.
Qed.

(** ** Characters that end a proxy path *)

(** The newline and the double quote: no part of the prefix, and no part of a
    longer whitespace character. *)
Definition stops (c : byte) : Prop := c = x0a \/ c = x22.

Lemma stops_whitespace c w : stops c -> w ∈ whitespace -> w = [c] \/ c ∉ w.
Proof.
  intros Hc Hw.
  assert (Hall : Forall (fun w => w = [c] \/ c ∉ w) whitespace).
  { destruct Hc as [-> | ->]; unfold whitespace;
      repeat (constructor; [first [left; reflexivity | right; set_solver]|]); constructor. }
  rewrite Forall_forall in Hall. by apply Hall.
Qed.

Lemma strip_any_sep c ws x a b :
  (forall w, w ∈ ws -> w = [c] \/ c ∉ w) ->
  is_Some (strip_any ws (x :: a ++ c :: b)) <-> is_Some (strip_any ws (x :: a)).
Proof.
  induction ws as [|w ws IH]; intros Hws; [done|]. cbn [strip_any].
  assert (Hw : is_Some (strip_prefix w (x :: a ++ c :: b)) <-> is_Some (strip_prefix w (x :: a))).
  { destruct (Hws w) as [->|Hc]; [left|cbn; by destruct (decide (c = x))|].
    change (x :: a ++ c :: b) with ((x :: a) ++ c :: b).
    rewrite strip_prefix_sep by done. by rewrite fmap_is_Some. }
  specialize (IH ltac:(intros w' Hw'; apply Hws; by right)).
  destruct (strip_prefix w (x :: a ++ c :: b)), (strip_prefix w (x :: a)); try done.
  - destruct (proj1 Hw (ex_intro _ _ eq_refl)) as [? [=]].
  - destruct (proj2 Hw (ex_intro _ _ eq_refl)) as [? [=]].
Qed.

Lemma find_end_stop c b : stops c -> find_end (c :: b) = Some 0%nat.
Proof.
  intros [-> | ->]; cbn [find_end]; [|by rewrite orb_true_r].
  by rewrite bool_decide_true by (vm_compute; eauto).
Qed.

Lemma find_end_sep c a b :
  stops c -> find_end (a ++ c :: b) = Some (from_option id (length a) (find_end a)).
Proof.
  intros Hc. induction a as [|x a IH]; [by apply find_end_stop|].
  cbn [app find_end length].
  rewrite (bool_decide_ext _ _ (strip_any_sep c whitespace x a b (fun w => stops_whitespace c w Hc))).
  destruct (bool_decide (is_Some _) || _); [done|]. rewrite IH. by destruct (find_end a).
Qed.

Lemma find_end_None s :
  Forall (fun b => is_unreserved b = true \/ b = x25) s -> find_end s = None.
Proof.
  induction 1 as [|b s Hb Hs IH]; [done|]. cbn [find_end]. rewrite IH.
  assert (Hx : forall w, w ∈ whitespace -> strip_prefix w (b :: s) = None).
  { assert (Hh : Forall (fun w => match w with
                                  | y :: _ => negb (is_unreserved y) && negb (bool_decide (y = x25)) = true
                                  | [] => False end) whitespace)
      by (unfold whitespace; repeat constructor).
    intros w Hw. rewrite Forall_forall in Hh. specialize (Hh w Hw). destruct w as [|y w]; [done|].
    cbn. destruct (decide (y = b)) as [->|]; [|done]. exfalso.
    apply andb_true_iff in Hh as [H1 H2]. destruct Hb as [Hb| ->]; [by rewrite Hb in H1|done]. }
  assert (Hn : strip_any whitespace (b :: s) = None).
  { revert Hx. generalize whitespace. induction l as [|w l IHl]; intros Hl; [done|]. cbn [strip_any].
    rewrite Hl by left. apply IHl. intros w' Hw'. apply Hl. by right. }
  rewrite Hn. rewrite bool_decide_false by (by intros [? ?]). rewrite bool_decide_false; [done|].
  destruct Hb as [Hb| ->]; [|set_solver]. intros Hin.
  repeat (apply elem_of_cons in Hin as [->|Hin]; [done|]). by apply elem_of_nil in Hin.
Qed.

Lemma encode_component_chars s :
  Forall (fun b => is_unreserved b = true \/ b = x25) (encode_component s).
Proof.
  assert (Hb : forall b, Forall (fun b => is_unreserved b = true \/ b = x25) (encode_byte b)).
  { intros b. assert (H : forallb (fun b => is_unreserved b || bool_decide (b = x25)) (encode_byte b)
                          = true) by (revert b; apply forall_byte; vm_compute; reflexivity).
    apply Forall_forall. intros x Hx%list_elem_of_In. rewrite forallb_forall in H.
    specialize (H x Hx). apply orb_true_iff in H as [H|H]; [by left|right].
    by apply bool_decide_eq_true in H. }
  unfold encode_component. destruct (forallb is_unreserved s) eqn:E.
  - apply Forall_forall. intros x Hx%list_elem_of_In. rewrite forallb_forall in E. auto.
  - clear E. induction s as [|b s IH]; simpl; [constructor|]. by apply Forall_app.
Qed.

Lemma decode_encode u t : decode_component (encode_component u) = Ok t -> t = u.
Proof.
  intros [Hu _]%decode_component_spec.
  eapply unescapes_fun; [exact Hu|apply encode_component_unescapes].
Qed.

(** ** The registration loop as a relation *)

Abbreviation PP := (str "/proxy/").
Lemma PP_length : length PP = 7%nat.
Proof. reflexivity. Qed.

Section Registration.
Context {UP : UrlParser} {UO : UrlOps} {OS : HashOrder Z RegisteredSource}
  {OL : HashOrderLaws Z RegisteredSource}.
Implicit Types r : SourceRegistry.

Inductive registers : SourceRegistry -> text -> SourceRegistry -> text -> Prop :=
| reg_done r s : find PP s = None -> registers r s r s
| reg_step r s i tail e url k r1 r2 t :
    find PP s = Some i -> tail = drop (i + length PP) s ->
    e = from_option id (length tail) (find_end tail) ->
    decode_component (take e tail) = Ok url ->
    register_or_reuse (str "hls") url r = (Ok k, r1) ->
    registers r1 (drop e tail) r2 t ->
    registers r s r2 (take i s ++ str "/media/" ++ format_u64 k ++ t).

Lemma register_loop_registers fuel out s r o r' :
  (length s <= fuel)%nat -> register_loop fuel out s r = (Ok o, r') ->
  exists t, o = out ++ t /\ registers r s r' t.
Proof.
  revert out s r. induction fuel as [|fuel IH]; intros out s r Hf E.
  - destruct s; [|simpl in Hf; lia]. injection E as <- <-. exists []. split; [done|].
    by apply reg_done.
  - cbn [register_loop] in E. destruct (find PP s) as [i|] eqn:Ei; cycle 1.
    { injection E as <- <-. exists s. split; [done|]. by apply reg_done. }
    apply find_Some_bound in Ei as Hb.
    set (tail := drop (i + length PP) s) in *.
    set (e := from_option id (length tail) (find_end tail)) in *.
    unfold mbind, io_bind, lift in E.
    destruct (decode_component (take e tail)) as [url|] eqn:Ed; [|discriminate E].
    cbn [map_err] in E.
    destruct (register_or_reuse (str "hls") url r) as [[k|] r1] eqn:Er; [|discriminate E].
    apply IH in E as (t & -> & Ht).
    + exists (take i s ++ str "/media/" ++ format_u64 k ++ t). split; [by rewrite <- !app_assoc|].
      by eapply reg_step.
    + rewrite length_drop. unfold tail. rewrite length_drop. rewrite PP_length in *. lia.
Qed.

(** The loop works on the parts between stop characters one after the other. *)
Lemma registers_sep c a b r r' t :
  stops c -> registers r (a ++ c :: b) r' t ->
  exists r1 t1 t2, registers r a r1 t1 /\ registers r1 b r' t2 /\ t = t1 ++ c :: t2.
Proof.
  intros Hc. remember (a ++ c :: b) as s eqn:Es. intros Hr. revert a Es.
  assert (Hn : c ∉ PP) by (destruct Hc as [-> | ->]; set_solver).
  induction Hr as [r s Hf|r s i tail e url k r1 r2 t Hi Htail He Hd Hreg Hr IH]; intros a ->.
  - rewrite find_sep in Hf by done. destruct (find PP a) eqn:Ea; [done|].
    apply fmap_None in Hf. exists r, a, b. split_and!; try done; by apply reg_done.
  - rewrite find_sep in Hi by done. destruct (find PP a) as [j|] eqn:Ea.
    + injection Hi as ->. apply find_Some_bound in Ea as Hb.
      rewrite drop_app_le in Htail by done. subst tail.
      set (tail := drop (i + length PP) a) in *.
      rewrite find_end_sep in He by done. simpl in He.
      assert (Hle : (e <= length tail)%nat).
      { subst e. destruct (find_end tail) as [p|] eqn:Ek; [|done]. simpl.
        assert (Hk : forall l k, find_end l = Some k -> (k <= length l)%nat).
        { induction l as [|x l IHl]; intros k'; cbn [find_end]; [done|].
          destruct (_ || _); [intros [= <-]; lia|]. intros (k'' & Hk & ->)%fmap_Some.
          simpl. specialize (IHl _ Hk). lia. }
        by apply Hk. }
      rewrite take_app_le in Hd by done.
      destruct (IH (drop e tail)) as (r3 & t1 & t2 & H1 & H2 & ->).
      { by rewrite drop_app_le. }
      exists r3, (take i a ++ str "/media/" ++ format_u64 k ++ t1), t2.
      split; [by eapply reg_step|]. split; [done|].
      rewrite take_app_le by (rewrite PP_length in *; lia). by rewrite <- !app_assoc.
    + apply fmap_Some in Hi as (j & Ej & ->). exists r, a, (take j b ++ str "/media/" ++ format_u64 k ++ t).
      split; [by apply reg_done|].
      assert (Hdrop : drop (length a + 1 + j + length PP) (a ++ c :: b) = drop (j + length PP) b).
      { replace (length a + 1 + j + length PP)%nat with (length a + S (j + length PP))%nat by lia.
        by rewrite drop_app_add. }
      rewrite Hdrop in Htail. split; [by eapply (reg_step _ _ j tail e url k r1)|].
      replace (length a + 1 + j)%nat with (length a + S j)%nat by lia.
      rewrite take_app_add. by rewrite <- !app_assoc.
Qed.

Lemma registers_plain r s r' t : find PP s = None -> registers r s r' t -> r' = r /\ t = s.
Proof. intros Hf. inversion 1; [done|]. congruence. Qed.

(** ** The registry along the loop *)

Definition registered r (id : Z) (url : text) : Prop :=
  entries r !! id = Some (mk_RegisteredSource (str "hls") url).

(** Ids are fresh for [n] more registrations. *)
Definition fresh_for (n : Z) r : Prop :=
  1 <= next_id r /\ next_id r + n <= u64_max /\ ids_below r.

Lemma register_or_reuse_grows n url r k r1 :
  1 <= n -> fresh_for n r -> register_or_reuse (str "hls") url r = (Ok k, r1) ->
  registered r1 k url /\ entries r ⊆ entries r1 /\ fresh_for (n - 1) r1.
Proof.
  intros Hn (Hn1 & Hn2 & Hids). unfold register_or_reuse. run_m.
  destruct (validate_component _ _) as [i|] eqn:Ei; [|done].
  destruct (validate_source_url url) as [v|] eqn:Eu; [|done].
  apply validate_component_Ok in Ei as (-> & _). apply validate_source_url_Ok in Eu as ->.
  change (trim (str "hls")) with (str "hls").
  destruct (entries_poisoned r) eqn:Ep; [done|].
  destruct (find_source _ _ _) as [j|] eqn:Ef.
  - apply find_source_Some in Ef. intros [= <- <-]. split; [done|]. split; [done|].
    split_and!; try done. lia.
  - rewrite insert_new_cases by done. destruct (_ <=? _); [done|]. intros [= <- <-].
    assert (Hfresh : entries r !! next_id r = None).
    { destruct (entries r !! next_id r) eqn:E; [|done]. apply Hids in E. lia. }
    assert (Hmod : Z.max ((next_id r + 1) mod 2 ^ 64) 1 = next_id r + 1).
    { rewrite Z.mod_small by lia. lia. }
    unfold registered, fresh_for, ids_below. simpl. rewrite Hmod. split_and!; try lia.
    + by rewrite lookup_insert_eq.
    + by apply insert_subseteq.
    + apply map_Forall_insert_2; [lia|]. eapply map_Forall_impl; [exact Hids|].
      simpl. intros; lia.
Qed.

Lemma registers_grows r s r' t n :
  registers r s r' t -> Z.of_nat (length s) <= n -> fresh_for n r ->
  entries r ⊆ entries r' /\ fresh_for (n - Z.of_nat (length s)) r'.
Proof.
  intros Hr. revert n. induction Hr as [r s Hf|r s i tail e url k r1 r2 t Hi Htail He Hd Hreg Hr IH];
    intros n Hn Hfr.
  - split; [done|]. destruct Hfr as (?&?&?). split_and!; try done; lia.
  - apply find_Some_bound in Hi. rewrite PP_length in Hi.
    destruct (register_or_reuse_grows n _ _ _ _ ltac:(lia) Hfr Hreg) as (_ & Hsub & Hfr1).
    assert (Hlen : (length (drop e tail) + 7 <= length s)%nat).
    { rewrite length_drop, Htail, length_drop, PP_length. lia. }
    destruct (IH (n - 1) ltac:(lia) Hfr1) as [Hsub2 Hfr2].
    split; [by etrans|]. destruct Hfr2 as (?&?&?). split_and!; try done; lia.
Qed.

Lemma registers_reference r url r' t n :
  registers r (PP ++ encode_component url) r' t -> 1 <= n -> fresh_for n r ->
  exists k, t = str "/media/" ++ format_u64 k /\ registered r' k url.
Proof.
  intros Hr Hn Hfr. set (enc := encode_component url) in *.
  assert (Hf : find PP (PP ++ enc) = Some 0%nat).
  { destruct (PP ++ enc) eqn:E; [discriminate|]. cbn [find].
    by rewrite (starts_with_app PP enc) by done. }
  inversion Hr as [? ? Hno|? ? i tail e u k r1 r2 t' Hi Htail He Hd Hreg Hr']; subst; [congruence|].
  rewrite Hf in Hi. injection Hi as <-. rewrite Nat.add_0_l, drop_app_length in *.
  rewrite find_end_None in * by apply encode_component_chars. simpl in *.
  rewrite firstn_all in Hd. rewrite drop_all in Hr'.
  apply decode_encode in Hd as ->.
  destruct (registers_plain _ [] _ _ eq_refl Hr') as [-> ->]. rewrite app_nil_r.
  exists k. split; [done|]. by destruct (register_or_reuse_grows n _ _ _ _ Hn Hfr Hreg).
Qed.

(** ** The lines of a playlist *)

(** A tag line and its rewriting, where [ref v w] says that the value [v] of a
    [URI] attribute is replaced by [w]. *)
Inductive tag_line (ref : text -> text -> Prop) : text -> text -> Prop :=
| tag_end s : find NEEDLE s = None -> tag_line ref s s
| tag_open s i :
    find NEEDLE s = Some i -> (x22 ∉ drop (i + length NEEDLE) s) -> tag_line ref s s
| tag_uri pre v w rest rest' :
    find NEEDLE (pre ++ NEEDLE ++ v ++ x22 :: rest) = Some (length pre) -> x22 ∉ v ->
    (if decide (v = []) then w = [] else ref v w) -> tag_line ref rest rest' ->
    tag_line ref (pre ++ NEEDLE ++ v ++ x22 :: rest) (pre ++ NEEDLE ++ w ++ x22 :: rest').

Lemma tag_line_mono (ref ref' : text -> text -> Prop) s t :
  (forall v w, ref v w -> ref' v w) -> tag_line ref s t -> tag_line ref' s t.
Proof.
  intros Hm. induction 1; [by apply tag_end|by eapply tag_open|].
  apply tag_uri; try done. destruct (decide (v = [])); auto.
Qed.

Definition proxied (base : Base) (v w : text) : Prop :=
  w = PP ++ encode_component (absolutize v base).

Lemma push_proxied_eq out url : push_proxied out url (str "/proxy") = out ++ PP ++ encode_component url.
Proof. unfold push_proxied. change PP with (str "/proxy" ++ str "/"). by rewrite <- !app_assoc. Qed.

Lemma push_rewritten_tag_spec base fuel out s :
  (length s <= fuel)%nat ->
  exists t, push_rewritten_tag fuel out s base (str "/proxy") = out ++ t
            /\ tag_line (proxied base) s t.
Proof.
  revert out s. induction fuel as [|fuel IH]; intros out s Hf.
  - destruct s; [|simpl in Hf; lia]. exists []. split; [done|]. by apply tag_end.
  - cbn [push_rewritten_tag]. destruct (find NEEDLE s) as [i|] eqn:Ei; cycle 1.
    { exists s. split; [done|]. by apply tag_end. }
    pose proof (find_Some_split _ _ _ Ei) as Hs. apply find_Some_bound in Ei as Hb.
    set (after := drop (i + length NEEDLE) s) in *.
    destruct (find [x22] after) as [l|] eqn:El; cycle 1.
    { exists s. split; [done|]. eapply tag_open; [done|]. by apply find_byte. }
    pose proof (find_Some_split _ _ _ El) as Ha. apply find_Some_bound in El as Hl. simpl in Hl.
    set (v := take l after) in *. set (rest := drop (l + length [x22]) after) in *.
    assert (Hrest : drop (i + length NEEDLE + l + 1) s = rest).
    { unfold rest, after. rewrite drop_drop. f_equal. simpl. lia. }
    assert (Hpre : take (i + length NEEDLE) s = take i s ++ NEEDLE).
    { rewrite Hs at 1. rewrite app_assoc. apply take_app_length'.
      rewrite length_app, length_take. lia. }
    assert (Hv : x22 ∉ v) by by apply find_byte_first.
    rewrite Hrest, Hpre.
    set (w := if decide (v = []) then [] else PP ++ encode_component (absolutize v base)).
    destruct (IH (out ++ (take i s ++ NEEDLE) ++ w ++ [x22]) rest) as (t & Ht & Htag).
    { apply (f_equal length) in Ha. rewrite !length_app in Ha.
      unfold after in Ha. rewrite length_drop in Ha. simpl in Ha. lia. }
    exists (take i s ++ NEEDLE ++ w ++ x22 :: t). split.
    + match goal with |- push_rewritten_tag _ (?o ++ [x22]) _ _ _ = _ =>
        assert (Ho : o ++ [x22] = out ++ (take i s ++ NEEDLE) ++ w ++ [x22]) end.
      { unfold w. destruct (decide (v = [])); rewrite ?push_proxied_eq; by rewrite <- ?app_assoc. }
      rewrite Ho, Ht. by rewrite <- !app_assoc.
    + assert (Es : s = take i s ++ NEEDLE ++ v ++ x22 :: rest) by (rewrite Hs at 1; by rewrite Ha at 1).
      rewrite Es at 1. apply tag_uri; try done.
      * rewrite <- Es, Ei, length_take. f_equal. lia.
      * unfold w. by destruct (decide (v = [])).
Qed.

(** Registration of a rewritten tag. *)
Definition reference r (base : Base) (v w : text) : Prop :=
  exists k, registered r k (absolutize v base) /\ w = str "/media/" ++ format_u64 k.

Lemma reference_mono r r' base v w :
  entries r ⊆ entries r' -> reference r base v w -> reference r' base v w.
Proof. intros Hs (k & Hk & ->). exists k. split; [|done]. by eapply lookup_weaken. Qed.

Lemma registers_tag base s t n r r' o :
  tag_line (proxied base) s t -> find PP s = None -> registers r t r' o ->
  Z.of_nat (length t) <= n -> fresh_for n r ->
  tag_line (reference r' base) s o.
Proof.
  intros Ht. revert n r o. induction Ht as [s Hs|s i Hs Hq|pre v w rest rest' Hfind Hq Hw Ht IH];
    intros n r o Hp Hr Hn Hfr.
  - destruct (registers_plain _ _ _ _ Hp Hr) as [_ ->]. by apply tag_end.
  - destruct (registers_plain _ _ _ _ Hp Hr) as [_ ->]. by eapply tag_open.
  - replace (pre ++ NEEDLE ++ w ++ x22 :: rest') with ((pre ++ str "URI=") ++ x22 :: w ++ x22 :: rest')
      in Hr by (unfold NEEDLE; by rewrite <- !app_assoc).
    apply registers_sep in Hr as (r1 & t1 & t2 & H1 & H2 & ->); [|by right].
    apply registers_plain in H1 as [-> ->]; cycle 1.
    { apply (find_None_factor PP [] _ (x22 :: v ++ x22 :: rest)). rewrite <- Hp. f_equal.
      unfold NEEDLE. simpl. by rewrite <- !app_assoc. }
    apply registers_sep in H2 as (r2 & w' & t2' & H1 & H2 & ->); [|by right].
    rewrite !length_app in Hn. cbn [length] in Hn. rewrite ?length_app in Hn. cbn [length] in Hn.
    destruct (registers_grows _ _ _ _ n H1 ltac:(lia) Hfr) as [_ Hfr2].
    destruct (registers_grows _ _ _ _ (n - Z.of_nat (length w)) H2 ltac:(lia) Hfr2) as [Hsub _].
    replace ((pre ++ str "URI=") ++ x22 :: w' ++ x22 :: t2')
      with (pre ++ NEEDLE ++ w' ++ x22 :: t2') by (unfold NEEDLE; by rewrite <- !app_assoc).
    assert (Hrest : find PP rest = None).
    { apply (find_None_factor PP (pre ++ NEEDLE ++ v ++ [x22]) _ []). rewrite <- Hp. f_equal.
      rewrite app_nil_r. by rewrite <- !app_assoc. }
    apply tag_uri; [done|done| |by eapply IH; [..|exact Hfr2]; try done; lia].
    destruct (decide (v = [])) as [->|Hv].
    + subst w. by destruct (registers_plain _ [] _ _ eq_refl H1).
    + unfold proxied in Hw. subst w.
      destruct (registers_reference _ _ _ _ n H1 ltac:(rewrite length_app, PP_length in Hn; lia) Hfr) as (k & -> & Hk).
      eapply reference_mono; [exact Hsub|]. by exists k.
Qed.

(** A line and what becomes of it: a tag keeps everything but the values of
    its [URI] attributes, any other line is one reference. *)
Definition line_ok (ref : text -> text -> Prop) (line out : text) : Prop :=
  if starts_with (str "#") line then tag_line ref line out else ref line out.

Definition unlines (ls : list text) : text := mjoin (map (fun l => l ++ [x0a]) ls).
Definition kept_lines (content : text) : list text :=
  base.filter (fun l => l <> []) (lines content).

Lemma rewrite_line_spec base result line :
  line <> [] ->
  exists t, rewrite_line base (str "/proxy") result line = result ++ t ++ [x0a]
            /\ line_ok (proxied base) line t.
Proof.
  intros Hl. unfold rewrite_line, line_ok. destruct (starts_with (str "#") line).
  - destruct (push_rewritten_tag_spec base (length line) result line (le_n _)) as (t & -> & Ht).
    exists t. split; [by rewrite <- app_assoc|done].
  - rewrite decide_False by done. rewrite push_proxied_eq.
    exists (PP ++ encode_component (absolutize line base)). by rewrite <- !app_assoc.
Qed.

Lemma rewrite_lines_spec base ls acc :
  exists ts, fold_left (rewrite_line base (str "/proxy")) ls acc = acc ++ unlines ts
             /\ Forall2 (line_ok (proxied base)) (base.filter (fun l => l <> []) ls) ts.
Proof.
  revert acc. induction ls as [|l ls IH]; intros acc; cbn [fold_left].
  - exists []. by rewrite app_nil_r.
  - destruct (decide (l = [])) as [->|Hl].
    + destruct (IH acc) as (ts & Hts & Hall). exists ts. rewrite filter_cons_False by auto. done.
    + destruct (rewrite_line_spec base acc l Hl) as (t & -> & Ht).
      destruct (IH (acc ++ t ++ [x0a])) as (ts & -> & Hall).
      exists (t :: ts). split; [unfold unlines; simpl; by rewrite <- !app_assoc|].
      rewrite filter_cons_True by done. by constructor.
Qed.

Lemma line_ok_mono (ref ref' : text -> text -> Prop) l o :
  (forall v w, ref v w -> ref' v w) -> line_ok ref l o -> line_ok ref' l o.
Proof.
  intros Hm. unfold line_ok. destruct (starts_with _ _); [by apply tag_line_mono|auto].
Qed.

Lemma registers_lines base ls ts n r r' o :
  Forall2 (line_ok (proxied base)) ls ts ->
  Forall (fun l => starts_with (str "#") l = true -> find PP l = None) ls ->
  registers r (unlines ts) r' o -> Z.of_nat (length (unlines ts)) <= n -> fresh_for n r ->
  exists os, o = unlines os /\ Forall2 (line_ok (reference r' base)) ls os.
Proof.
  intros Hall. revert n r o. induction Hall as [|l t ls ts Hl Hall IH]; intros n r o Hp Hr Hn Hfr.
  - destruct (registers_plain _ [] _ _ eq_refl Hr) as [_ ->]. by exists [].
  - apply Forall_cons in Hp as [Hp1 Hp].
    unfold unlines in Hr, Hn. simpl in Hr, Hn. fold (unlines ts) in Hr, Hn.
    rewrite <- app_assoc in Hr. apply registers_sep in Hr as (r1 & o1 & o2 & H1 & H2 & ->); [|by left].
    rewrite !length_app in Hn. simpl in Hn.
    destruct (registers_grows _ _ _ _ n H1 ltac:(lia) Hfr) as [_ Hfr1].
    destruct (registers_grows _ _ _ _ (n - Z.of_nat (length t)) H2 ltac:(lia) Hfr1) as [Hsub _].
    destruct (IH (n - Z.of_nat (length t)) r1 o2 Hp H2 ltac:(lia) Hfr1) as (os & -> & Hos).
    exists (o1 :: os). split; [unfold unlines; simpl; by rewrite <- app_assoc|].
    constructor; [|done].
    apply (line_ok_mono (reference r1 base)); [intros v w; by apply reference_mono|].
    unfold line_ok in *. destruct (starts_with (str "#") l).
    + by eapply (registers_tag base l t n); [..|exact Hfr]; try done; [auto|lia].
    + unfold proxied in Hl. subst t. rewrite length_app, PP_length in Hn.
      destruct (registers_reference _ _ _ _ n H1 ltac:(lia) Hfr) as (k & -> & Hk). by exists k.
Qed.

Lemma rewritten_registered content base_url n r r' out :
  Forall (fun l => starts_with (str "#") l = true -> find PP l = None) (kept_lines content) ->
  let rewritten := rewrite_m3u8 content base_url (str "/proxy") in
  Z.of_nat (length rewritten) <= n -> fresh_for n r ->
  register_rewritten_sources rewritten r = (Ok out, r') ->
  exists os, out = unlines os
    /\ Forall2 (line_ok (reference r' (base_new base_url))) (kept_lines content) os.
Proof.
  intros Hp rewritten Hn Hfr E.
  apply register_loop_registers in E as (t & -> & Ht); [|done].
  destruct (rewrite_lines_spec (base_new base_url) (lines content) []) as (ts & Ets & Hts).
  assert (Er : rewritten = unlines ts) by exact Ets. rewrite Er in *.
  by apply (registers_lines _ _ _ _ _ _ _ Hts Hp Ht Hn Hfr).
Qed.
End Registration.
