(* ===== verification/HlsBase.v ===== *)
(** * Where the relative references of a playlist point to

    [get_base_url] and [absolutize] against the URLs of the [url] crate.  The
    documented behaviour of the crate that matters here is stated for URLs of
    the form [http://host/a/b/c?query] with plain components: parsing and
    printing such a URL is the identity, [pop] removes the last segment and keeps
    the query, and [join] with a plain name replaces the last segment of the
    path and drops the query. *)

From Stdlib Require Import Strings.Byte Strings.String.
From S2P Require Import Prelude Bytes Error External Range Percent DataRequest Playlist HlsTheorems.

(** ** Hierarchical URLs *)

Record Hier : Type := mk_Hier {
  hi_scheme : text;
  hi_host : text;
  hi_segs : list text;
  hi_query : option text;
}.

Definition path_text (segs : list text) : text := mjoin (map (fun s => x2f :: s) segs).
Definition query_text (q : option text) : text :=
  match q with Some q => x3f :: q | None => [] end.
Definition hier_text (h : Hier) : text :=
  hi_scheme h ++ str "://" ++ hi_host h ++ path_text (hi_segs h) ++ query_text (hi_query h).

Definition plain (s : text) : Prop := forallb is_unreserved s = true.
Definition query_byte (b : byte) : bool := is_unreserved b || bool_decide (b ∈ [x3d; x26; x2f]).

Record hier_ok (h : Hier) : Prop := {
  hier_scheme : hi_scheme h = str "http" \/ hi_scheme h = str "https";
  hier_host : plain (hi_host h) /\ hi_host h <> [];
  hier_segs : Forall plain (hi_segs h) /\ hi_segs h <> [];
  hier_query : forall q, hi_query h = Some q -> forallb query_byte q = true;
}.

(** A name that is not a reference to a directory. *)
Definition plain_name (s : text) : Prop :=
  plain s /\ s <> [] /\ s <> str "." /\ s <> str "..".

(** The path without its last segment; the root is never removed. *)
Definition parent_segs (segs : list text) : list text :=
  match removelast segs with [] => [[]] | l => l end.

Class UrlHierLaws `{UrlParser} `{UrlOps} : Prop := {
  hier_parse h : hier_ok h ->
    exists u, url_parse (hier_text h) = Some u /\ url_path_segments u = Some (hi_segs h);
  hier_pop h u : hier_ok h -> url_parse (hier_text h) = Some u ->
    exists u', url_pop_segment u = Some u'
      /\ Url.as_str u'
         = hier_text (mk_Hier (hi_scheme h) (hi_host h) (parent_segs (hi_segs h)) (hi_query h));
  hier_join h u name : hier_ok h -> plain_name name -> url_parse (hier_text h) = Some u ->
    exists u', url_join u name = Some u'
      /\ Url.as_str u'
         = hier_text (mk_Hier (hi_scheme h) (hi_host h) (removelast (hi_segs h) ++ [name]) None);
}.

(** ** Plain texts *)

Lemma plain_not_elem c s : is_unreserved c = false -> plain s -> c ∉ s.
Proof.
  intros Hc Hs Hin%list_elem_of_In. unfold plain in Hs. rewrite forallb_forall in Hs.
  specialize (Hs c Hin). congruence.
Qed.

Lemma trim_start_byte_id c s : head s <> Some c -> trim_start_byte c s = s.
Proof. destruct s as [|b s]; [done|]. simpl. intros Hc. by rewrite decide_False by congruence. Qed.

Lemma trim_end_byte_snoc c s b : b <> c -> trim_end_byte c (s ++ [b]) = s ++ [b].
Proof.
  intros Hb. unfold trim_end_byte. rewrite reverse_snoc. simpl.
  rewrite decide_False by done. by rewrite reverse_cons, reverse_involutive.
Qed.

Lemma trim_end_byte_last c s b : trim_end_byte c ((s ++ [b]) ++ [c]) = trim_end_byte c (s ++ [b]).
Proof.
  unfold trim_end_byte. rewrite (reverse_snoc (s ++ [b]) c). simpl. by rewrite decide_True.
Qed.

Lemma trim_end_byte_nonempty c s t :
  t <> [] -> c ∉ t -> trim_end_byte c (s ++ t) = s ++ t.
Proof.
  intros Ht Hc. destruct t as [|b t _] using rev_ind; [done|].
  rewrite app_assoc. apply trim_end_byte_snoc. set_solver.
Qed.

Lemma trim_end_byte_slash c s t :
  t <> [] -> c ∉ t -> trim_end_byte c (s ++ t ++ [c]) = s ++ t.
Proof.
  intros Ht Hc. destruct t as [|b t _] using rev_ind; [done|].
  rewrite (app_assoc s), (app_assoc s t), trim_end_byte_last. apply trim_end_byte_snoc. set_solver.
Qed.

Lemma path_text_snoc segs s : path_text (segs ++ [s]) = path_text segs ++ x2f :: s.
Proof. unfold path_text. rewrite map_app, join_app. simpl. by rewrite app_nil_r. Qed.

Lemma plain_name_absolute name :
  plain_name name ->
  trim name = name /\ strip_prefix PROXY_PREFIX name = None /\ is_absolute_http name = false.
Proof.
  intros (Hp & Hn & _).
  assert (Hslash : x2f ∉ name) by by apply plain_not_elem.
  split_and!.
  - apply trim_visible; [done|]. unfold plain in Hp. rewrite forallb_forall in *. intros b Hb.
    specialize (Hp b Hb).
    revert Hp. clear. revert b.
    assert (Hall : forall b, implb (is_unreserved b) (visible b) = true)
      by (apply forall_byte; vm_compute; reflexivity).
    intros b. specialize (Hall b). by destruct (is_unreserved b).
  - destruct (strip_prefix PROXY_PREFIX name) as [t|] eqn:E; [|done].
    apply strip_prefix_Some in E. subst name. exfalso. apply Hslash. by left.
  - unfold is_absolute_http. apply orb_false_iff.
    split; apply not_true_iff_false; intros [t ->]%starts_with_spec; apply Hslash;
      apply elem_of_app; left; set_solver.
Qed.

Section Directory.
Context {UP : UrlParser} {UO : UrlOps} {laws : UrlHierLaws}.

Definition with_segs (h : Hier) (segs : list text) (q : option text) : Hier :=
  mk_Hier (hi_scheme h) (hi_host h) segs q.

Lemma with_segs_ok h segs q :
  hier_ok h -> Forall plain segs -> segs <> [] ->
  (forall q', q = Some q' -> forallb query_byte q' = true) -> hier_ok (with_segs h segs q).
Proof. intros [H1 H2 H3 H4]. by split. Qed.

Lemma absolutize_plain base name url :
  plain_name name -> parsed base = Some url ->
  absolutize name base = match url_join url name with
                         | Some joined => Url.as_str joined
                         | None => trimmed base ++ str "/" ++ trim_start_byte x2f name
                         end.
Proof.
  intros Hn Hb. destruct (plain_name_absolute name Hn) as (Ht & Hs & Ha).
  unfold absolutize. rewrite Ht, Hs, Ha, Hb. done.
Qed.

(** A base whose text, with a slash, is the URL [b]: names replace the last
    segment of [b]. *)
Lemma absolutize_base base_url b name :
  hier_ok b -> trim_end_byte x2f base_url ++ str "/" = hier_text b -> plain_name name ->
  absolutize name (base_new base_url) = hier_text (with_segs b (removelast (hi_segs b) ++ [name]) None).
Proof using laws.
  intros Hb Ht Hn. destruct (hier_parse b Hb) as (u & Hu & _).
  rewrite (absolutize_plain _ _ u Hn) by (unfold base_new; simpl; by rewrite Ht).
  destruct (hier_join b u name Hb Hn Hu) as (u' & -> & ->). done.
Qed.

Lemma get_base_url_hier h :
  hier_ok h -> get_base_url (hier_text h)
  = Ok (hier_text (with_segs h (parent_segs (hi_segs h)) (hi_query h))).
Proof using laws.
  intros Hh. unfold get_base_url. destruct (hier_parse h Hh) as (u & Hu & Hs). rewrite Hu. simpl.
  rewrite Hs. destruct (hier_pop h u Hh Hu) as (u' & Hp & Ha).
  destruct (hi_segs h) as [|s ss] eqn:Es; [by destruct (proj2 (hier_segs h Hh))|].
  rewrite Hp. simpl. by rewrite Ha.
Qed.

Lemma base_text_plain h dir :
  hier_ok h -> Forall (fun s => plain s /\ s <> []) dir ->
  trim_end_byte x2f (hier_text (with_segs h (parent_segs (dir ++ [[]])) None)) ++ str "/"
  = hier_text (with_segs h (dir ++ [[]]) None).
Proof.
  intros Hh Hdir. unfold parent_segs. rewrite removelast_last.
  destruct (hier_host h Hh) as [Hhost Hne].
  assert (Hslash : x2f ∉ hi_host h) by by apply plain_not_elem.
  destruct dir as [|s dir _] using rev_ind.
  - unfold hier_text. cbn [with_segs hi_scheme hi_host hi_segs hi_query app].
    rewrite (app_assoc (hi_scheme h)). rewrite trim_end_byte_slash by done.
    by rewrite <- !app_assoc.
  - assert (Hs : plain s /\ s <> []) by (apply Forall_app in Hdir as [_ Hd]; by inversion Hd).
    destruct Hs as [Hs Hs']. assert (x2f ∉ s) by by apply plain_not_elem.
    destruct (dir ++ [s]) as [|x l] eqn:E; [by destruct dir|]. rewrite <- E.
    unfold hier_text. cbn [with_segs hi_scheme hi_host hi_segs hi_query query_text].
    rewrite !app_nil_r, (path_text_snoc _ []), path_text_snoc.
    change (x2f :: s) with ([x2f] ++ s). rewrite !app_assoc.
    rewrite trim_end_byte_nonempty by done. done.
Qed.

Lemma base_text_query h segs q b :
  hi_query h = Some (q ++ [b]) -> b <> x2f ->
  trim_end_byte x2f (hier_text (with_segs h segs (hi_query h))) ++ str "/"
  = hier_text (with_segs h segs (Some ((q ++ [b]) ++ [x2f]))).
Proof.
  intros Hq Hb. unfold hier_text. cbn [hi_scheme hi_host hi_segs hi_query with_segs].
  rewrite Hq. cbn [query_text]. change (x3f :: q ++ [b]) with ((x3f :: q) ++ [b]).
  rewrite !app_assoc, trim_end_byte_snoc by done.
  change (x3f :: (q ++ [b]) ++ [x2f]) with (((x3f :: q) ++ [b]) ++ [x2f]).
  by rewrite !app_assoc.
Qed.
End Directory.

(** ** A URL library for these URLs *)

Module HierDemo.
Definition schemes : list text := [str "http"; str "https"].

Definition read_hier (t : text) : option Hier :=
  let '(main, q) := match split_once x3f t with
                    | Some (l, r) => (l, Some r)
                    | None => (t, None)
                    end in
  let body s := strip_prefix (s ++ str "://") main in
  '(s, rest) ← match body (str "http"), body (str "https") with
               | Some r, _ => Some (str "http", r)
               | None, Some r => Some (str "https", r)
               | None, None => None
               end;
  match split x2f rest with
  | host :: segs => Some (mk_Hier s host segs q)
  | [] => None
  end.

Definition url_of (h : Hier) : Url.t :=
  Url.mk (hi_scheme h) [] None (Some (hi_host h)) None
    (Some (if decide (hi_scheme h = str "http") then 80 else 443))
    (path_text (hi_segs h)) (hi_query h) (hier_text h).

Definition parser : UrlParser := fun t => url_of <$> read_hier t.
Definition ops : UrlOps := {|
  url_parse_error _ := str "relative URL without a base";
  url_join u name :=
    h ← read_hier (Url.as_str u);
    Some (url_of (mk_Hier (hi_scheme h) (hi_host h) (removelast (hi_segs h) ++ [name]) None));
  url_path_segments u := hi_segs <$> read_hier (Url.as_str u);
  url_pop_segment u :=
    h ← read_hier (Url.as_str u);
    Some (url_of (mk_Hier (hi_scheme h) (hi_host h) (parent_segs (hi_segs h)) (hi_query h)));
|}.

Lemma split_path host segs :
  x2f ∉ host -> Forall plain segs -> split x2f (host ++ path_text segs) = host :: segs.
Proof.
  revert host. induction segs as [|s segs IH]; intros host Hh Hs.
  - unfold path_text. simpl. rewrite app_nil_r. by apply split_no_sep.
  - apply Forall_cons in Hs as [Hs Hss]. change (path_text (s :: segs)) with (x2f :: s ++ path_text segs).
    rewrite split_app by done. rewrite IH; [done|by apply plain_not_elem|done].
Qed.

Lemma path_text_no c segs : is_unreserved c = false -> c <> x2f -> Forall plain segs -> c ∉ path_text segs.
Proof.
  intros Hc Hne. induction 1 as [|s segs Hs Hss IH]; [apply not_elem_of_nil|].
  change (path_text (s :: segs)) with (x2f :: s ++ path_text segs).
  rewrite not_elem_of_cons, not_elem_of_app. split_and!; try done. by apply plain_not_elem.
Qed.

Lemma read_hier_text h : hier_ok h -> read_hier (hier_text h) = Some h.
Proof.
  intros [Hs [Hh Hh'] [Hsegs _] _]. destruct h as [sch host segs q]. simpl in *.
  assert (Hslash : x2f ∉ host) by by apply plain_not_elem.
  set (main := sch ++ str "://" ++ host ++ path_text segs).
  assert (Hq : x3f ∉ main).
  { unfold main. rewrite !not_elem_of_app. split_and!.
    - destruct Hs as [-> | ->]; set_solver.
    - set_solver.
    - by apply plain_not_elem.
    - by apply path_text_no. }
  assert (Hsplit : (match split_once x3f (hier_text (mk_Hier sch host segs q)) with
                    | Some (l, r) => (l, Some r)
                    | None => (hier_text (mk_Hier sch host segs q), None)
                    end) = (main, q)).
  { unfold hier_text. simpl.
    replace (sch ++ x3a :: x2f :: x2f :: host ++ path_text segs ++ query_text q)
      with (main ++ query_text q) by (unfold main; by rewrite <- !app_assoc).
    destruct q as [q|]; simpl.
    - by rewrite (proj2 (split_once_Some x3f (main ++ x3f :: q) main q)).
    - rewrite app_nil_r. destruct (split_once x3f main) as [[l r]|] eqn:E; [|done].
      apply split_once_Some in E as [E _]. exfalso. apply Hq. rewrite E. set_solver. }
  unfold read_hier. rewrite Hsplit.
  assert (Hmain : main = sch ++ str "://" ++ (host ++ path_text segs)) by done.
  assert (Hpieces : split x2f (host ++ path_text segs) = host :: segs) by by apply split_path.
  clearbody main. subst main.
  destruct Hs as [-> | ->]; rewrite app_assoc, strip_prefix_app.
  - simpl. by rewrite Hpieces.
  - simpl. by rewrite Hpieces.
Qed.

Lemma laws : @UrlHierLaws parser ops.
Proof.
  assert (Hp : forall h u, hier_ok h -> @url_parse parser (hier_text h) = Some u ->
                 read_hier (Url.as_str u) = Some h).
  { intros h u Hh Hu. cbv [url_parse parser] in Hu. rewrite read_hier_text in Hu by done.
    simpl in Hu. injection Hu as <-. by apply read_hier_text. }
  split.
  - intros h Hh. exists (url_of h). cbv [url_parse parser].
    rewrite read_hier_text by done. split; [done|]. simpl. by rewrite read_hier_text.
  - intros h u Hh Hu. simpl. rewrite (Hp h u Hh Hu). simpl. eauto.
  - intros h u name Hh _ Hu. simpl. rewrite (Hp h u Hh Hu). simpl. eauto.
Qed.
End HierDemo.

Module HlsBaseTheorems.
Import HierDemo.

(** A plain name in a playlist without a query string resolves to the
    resource of that name in the directory of the playlist. *)
Theorem relative_reference_correct `{UrlHierLaws} (h : Hier) (dir : list text) (file name : text) :
  hier_ok h -> hi_segs h = dir ++ [file] -> hi_query h = None ->
  Forall (fun s => plain s /\ s <> []) dir -> plain_name name ->
  exists base_url, get_base_url (hier_text h) = Ok base_url
    /\ absolutize name (base_new base_url) = hier_text (with_segs h (dir ++ [name]) None).
Proof.
  intros Hh Hs Hq Hdir Hn. rewrite get_base_url_hier by done. eexists. split; [done|].
  rewrite Hs, Hq. replace (parent_segs (dir ++ [file])) with (parent_segs (dir ++ [[]]))
    by (unfold parent_segs; by rewrite !removelast_last).
  rewrite (absolutize_base _ (with_segs h (dir ++ [[]]) None)).
  - simpl. by rewrite removelast_last.
  - apply with_segs_ok; try done; [|by destruct dir].
    apply Forall_app. split; [|by repeat constructor]. eapply Forall_impl; [exact Hdir|]. by intros ? [].
  - by apply base_text_plain.
  - done.
Qed.

Definition playlist0 : Hier :=
  mk_Hier (str "https") (str "cdn.example") [str "live"; str "index.m3u8"] None.
Lemma playlist0_ok : hier_ok playlist0.
Proof.
  split; [by right|split; [reflexivity|done]|split; [repeat constructor|done]|done].
Qed.
Lemma seg_plain : plain_name (str "seg.ts").
Proof. by split_and!. Qed.
Lemma live_plain : Forall (fun s => plain s /\ s <> []) [str "live"].
Proof. by repeat constructor. Qed.

Lemma relative_reference_correct_witness :
  exists base_url, @get_base_url parser ops (str "https://cdn.example/live/index.m3u8") = Ok base_url
    /\ @absolutize ops (str "seg.ts") (@base_new parser base_url)
       = str "https://cdn.example/live/seg.ts".
Proof.
  exact (@relative_reference_correct parser ops laws playlist0 [str "live"] (str "index.m3u8")
    (str "seg.ts") playlist0_ok eq_refl eq_refl live_plain seg_plain).
Defined.

(** When the URL of a playlist carries a query string (a signature, as
    the URLs of live streams do), a plain name in it resolves to the parent of
    the directory of the playlist: [get_base_url] removes the file name but
    keeps the query, the slash that is to mark a directory is then appended to
    the query, and joining replaces the directory name itself. *)
Theorem query_misplaces_references `{UrlHierLaws} (h : Hier) (dir : list text)
    (sub file name q : text) (b : byte) :
  hier_ok h -> hi_segs h = dir ++ [sub; file] -> hi_query h = Some (q ++ [b]) -> b <> x2f ->
  plain_name name ->
  exists base_url, get_base_url (hier_text h) = Ok base_url
    /\ absolutize name (base_new base_url) = hier_text (with_segs h (dir ++ [name]) None).
Proof.
  intros Hh Hs Hq Hb Hn. rewrite get_base_url_hier by done. eexists. split; [done|].
  assert (Hp : parent_segs (hi_segs h) = dir ++ [sub]).
  { unfold parent_segs. rewrite Hs. change [sub; file] with ([sub] ++ [file]).
    rewrite app_assoc, removelast_last. by destruct dir. }
  rewrite Hp. rewrite (absolutize_base _ (with_segs h (dir ++ [sub]) (Some ((q ++ [b]) ++ [x2f])))).
  - simpl. by rewrite removelast_last.
  - apply with_segs_ok; try done; [|by destruct dir|].
    + destruct (hier_segs h Hh) as [Hsegs _]. rewrite Hs in Hsegs.
      change [sub; file] with ([sub] ++ [file]) in Hsegs. rewrite app_assoc in Hsegs.
      by apply Forall_app in Hsegs as [? _].
    + intros q' [= <-]. rewrite forallb_app, (hier_query h Hh _ Hq). reflexivity.
  - by apply base_text_query.
  - done.
Qed.

Definition signed : Hier :=
  mk_Hier (str "https") (str "cdn.example") [str "live"; str "index.m3u8"] (Some (str "token=a")).
Lemma query_misplaces_references_witness :
  exists base_url,
    @get_base_url parser ops (str "https://cdn.example/live/index.m3u8?token=a") = Ok base_url
    /\ @absolutize ops (str "seg.ts") (@base_new parser base_url)
       = str "https://cdn.example/seg.ts".
Proof.
  refine (@query_misplaces_references parser ops laws signed [] (str "live") (str "index.m3u8")
    (str "seg.ts") (str "token=") x61 _ eq_refl eq_refl _ seg_plain).
  - split; [by right|split; [reflexivity|done]|split; [repeat constructor|done]|].
    intros q [= <-]. reflexivity.
  - discriminate.
Defined.
End HlsBaseTheorems.
