(* ===== verification/HlsClaims.v ===== *)
(** * The HLS handler: the theorems of a playlist request *)

From Stdlib Require Import Strings.Byte Strings.String.
From S2P Require Import Prelude Bytes Error External Headers Percent NetworkPolicy DataRequest SourceRegistry FileSystem Eviction NetSource NetTheorems Playlist HlsManager HlsManagerTheorems HlsHandler HlsTheorems HlsBase.

(** ** Reading a body with a cap *)

Lemma checked_playlist_length_Ok a b n :
  0 <= a -> 0 <= b ->
  checked_playlist_length a b = Ok n <-> n = a + b /\ a + b <= MAX_PLAYLIST_BYTES.
Proof.
  intros Ha Hb. unfold checked_playlist_length, MAX_PLAYLIST_BYTES.
  destruct (checked_add a b) as [c|] eqn:E; simpl.
  - apply checked_add_Some in E as [-> _]; [|done..].
    destruct (Z.ltb_spec (8 * 1024 * 1024) (a + b)); split; try done; try lia.
    + intros [= <-]. lia.
    + by intros [-> _].
  - apply checked_add_None in E. split; [done|lia].
Qed.

Lemma read_chunks_Ok buffer frames body :
  Z.of_nat (length buffer) <= MAX_PLAYLIST_BYTES ->
  read_chunks buffer frames = Ok body <->
  exists chunks, frames = map Ok chunks /\ body = buffer ++ mjoin chunks
                 /\ Z.of_nat (length body) <= MAX_PLAYLIST_BYTES.
Proof.
  revert buffer. induction frames as [|f frames IH]; intros buffer Hb; simpl.
  - split.
    + intros [= <-]. exists []. by rewrite app_nil_r.
    + intros ([|c cs] & E & -> & _); [by rewrite app_nil_r|done].
  - destruct f as [chunk|e]; cycle 1.
    { split; [done|]. intros ([|c cs] & E & _); done. }
    destruct (checked_playlist_length (Z.of_nat (length buffer)) (Z.of_nat (length chunk)))
      as [n|e] eqn:E; simpl.
    + apply checked_playlist_length_Ok in E as [_ Hn]; [|lia..].
      rewrite IH by (rewrite length_app; lia). split.
      * intros (cs & -> & -> & Hl). exists (chunk :: cs). simpl. by rewrite app_assoc.
      * intros ([|c cs] & Ef & -> & Hl); [done|]. injection Ef as <- ->.
        exists cs. simpl in *. by rewrite <- app_assoc.
    + split; [done|]. intros ([|c cs] & Ef & -> & Hl); [done|]. injection Ef as <- ->.
      exfalso. simpl in Hl. rewrite !length_app in Hl.
      assert (Hc : checked_playlist_length (Z.of_nat (length buffer)) (Z.of_nat (length chunk))
                   = Ok (Z.of_nat (length buffer) + Z.of_nat (length chunk)))
        by (apply checked_playlist_length_Ok; lia). congruence.
Qed.

(** ** One request *)

Section Request.
Context {UP : UrlParser} {UO : UrlOps} {UR : UriParser} {HT : HeaderText} {BH : BodyHint}
  {UE : Utf8Error} {PM : M3u8Parser} {PL : Layout}
  {OT : HashOrder text Z} {OI : HashOrder text PlaylistInfo}
  {OB : HashOrder text CachedPlaylistBody} {OS : HashOrder Z RegisteredSource}
  (lookup : text -> Z -> option (list SocketAddr)).

(** Inversion of one step of a run that succeeds. *)
Lemma io_bind_Ok_inv {St Er A B} (m : io St Er A) (k : A -> io St Er B) s b s' :
  (m ≫= k) s = (Ok b, s') -> exists a s1, m s = (Ok a, s1) /\ k a s1 = (Ok b, s').
Proof. intros [H|(e & _ & H)]%io_bind_inv; [done|discriminate]. Qed.

Lemma lift_Ok_inv {St Er A} (r : result Er A) (s : St) a s' :
  lift r s = (Ok a, s') -> r = Ok a /\ s' = s.
Proof. by intros [= -> ->]. Qed.

Lemma validate_url_net url n r n' :
  validate_url lookup url n = (r, n') -> answers n' = answers n /\ sent n' = sent n.
Proof. unfold validate_url. destruct (validate _ _ _ _ _). by intros [= <- <-]. Qed.

Lemma download_m3u8_Ok url n content n' :
  download_m3u8 lookup url n = (Ok content, n') ->
  exists resp rest, answers n = Answered resp :: rest /\ answers n' = rest
    /\ sent n' = sent n ++ [(url, str "bytes=0-")]
    /\ is_success (hr_status resp) = true /\ read_body_capped resp = Ok content
    /\ utf8_valid content = true /\ exists n1, validate_url lookup url n = (Ok tt, n1).
Proof.
  unfold download_m3u8. intros E.
  apply io_bind_Ok_inv in E as ([] & n1 & Hv & E).
  destruct (validate_url_net _ _ _ _ Hv) as [Ha Hs].
  destruct (bool_decide (is_Some (uri_parse url))); simpl in E; [|discriminate].
  apply io_bind_Ok_inv in E as (resp & n2 & Hx & E).
  unfold exchange_m3u8 in Hx.
  destruct (answers n1) as [|[|e|resp'] rest] eqn:En; try discriminate Hx.
  injection Hx as -> <-.
  destruct ((hr_status resp =? 401) || (hr_status resp =? 403)); [discriminate E|].
  destruct (is_success (hr_status resp)) eqn:Es; simpl in E; [|discriminate E].
  apply io_bind_Ok_inv in E as (body & n3 & Hb & E).
  apply lift_Ok_inv in Hb as [Hb ->].
  destruct (utf8_valid body) eqn:Eu; [|discriminate E]. injection E as -> <-.
  exists resp, rest. rewrite <- Ha. simpl. rewrite Hs. split_and!; eauto.
Qed.

Lemma handle_m3u8_Ok url h out h' :
  handle_m3u8 lookup url h = (Ok out, h') ->
  exists u, clean_url url = Ok u
  /\ ((exists e, playlist_bodies (h_manager h) !! u = Some e
         /\ List.hd 0 (h_clock h) < expires_at e /\ out = pb_content e
         /\ h_manager h' = h_manager h /\ h_registry h' = h_registry h /\ h_net h' = h_net h)
      \/ exists content n' info base_url m1 now,
           download_m3u8 lookup u (h_net h) = (Ok content, n') /\ h_net h' = n'
           /\ get_base_url u = Ok base_url
           /\ register_rewritten_sources (rewrite_m3u8 content base_url (str "/proxy")) (h_registry h)
              = (Ok out, h_registry h')
           /\ h_manager h'
              = (cache_playlist_body u out (playlist_refresh_ttl info) now m1).2
           /\ now = List.hd 0 (List.tl (List.tl (h_clock h)))
           /\ h_clock h' = List.tl (List.tl (List.tl (h_clock h)))).
Proof.
  unfold handle_m3u8. intros E.
  apply io_bind_Ok_inv in E as (u & h0 & Hu & E). apply lift_Ok_inv in Hu as [Hu ->].
  exists u. split; [done|].
  apply io_bind_Ok_inv in E as (t0 & h1 & Ht0 & E). injection Ht0 as <- <-.
  apply io_bind_Ok_inv in E as (cached & h2 & Hc & E).
  unfold on_manager, cached_playlist_body in Hc. simpl in Hc.
  assert (Hmiss : cached = None -> h_registry h2 = h_registry h /\ h_net h2 = h_net h
                  /\ h_clock h2 = List.tl (h_clock h)).
  { intros ->. destruct (playlist_bodies (h_manager h) !! u) as [e|];
      [destruct (_ <? _)|]; by simplify_eq/=. }
  destruct cached as [c|].
  - left. destruct (playlist_bodies (h_manager h) !! u) as [e|]; [|discriminate Hc].
    destruct (Z.ltb_spec (List.hd 0 (h_clock h)) (expires_at e)) as [Hlt|]; [|discriminate Hc].
    injection Hc as <- <-. injection E as <- <-. by exists e.
  - right. destruct (Hmiss eq_refl) as (Hr2 & Hn2 & Hk2). clear Hmiss Hc.
    apply io_bind_Ok_inv in E as (content & h3 & Hd & E).
    unfold on_upstream in Hd. destruct (download_m3u8 lookup u (h_net h2)) as [rd n'] eqn:Edl.
    injection Hd as -> <-.
    apply io_bind_Ok_inv in E as (nanos & h4 & Hn & E). injection Hn as <- <-.
    apply io_bind_Ok_inv in E as (info & h5 & Hp & E). unfold on_manager in Hp. simpl in Hp.
    destruct (process_m3u8 u content _ (h_manager h2)) as [rp m5] eqn:Ep. injection Hp as -> <-.
    apply io_bind_Ok_inv in E as (base_url & h6 & Hb & E). apply lift_Ok_inv in Hb as [Hb ->].
    apply io_bind_Ok_inv in E as (rewritten & h7 & Hrg & E). unfold on_registry in Hrg. simpl in Hrg.
    destruct (register_rewritten_sources _ (h_registry h2)) as [rr reg] eqn:Er. injection Hrg as -> <-.
    apply io_bind_Ok_inv in E as (now & h8 & Hnow & E). injection Hnow as <- <-.
    apply io_bind_Ok_inv in E as ([] & h9 & Hcb & E). unfold on_manager in Hcb. simpl in Hcb.
    destruct (cache_playlist_body u rewritten _ _ m5) as [rc m9] eqn:Ecb. injection Hcb as -> <-.
    injection E as -> <-. rewrite Hr2, Hn2 in *. rewrite Hk2 in *. simpl.
    exists content, n', info, base_url, m5, (List.hd 0 (List.tl (List.tl (h_clock h)))).
    rewrite Ecb. split_and!; done.
Qed.
End Request.

Lemma refresh_ttl_bounds info : 1000 <= playlist_refresh_ttl info <= 300000.
Proof. unfold playlist_refresh_ttl. repeat case_match; lia. Qed.

Module HlsRequestDemo.
Import HlsDemo HierDemo.
Definition policy0 : NetworkPolicy := allow_hosts [str "cdn.example"].
Definition text0 : text :=
  str "#EXTM3U" ++ [x0a] ++ str "#EXT-X-MAP:URI=" ++ [x22] ++ str "init.mp4" ++ [x22; x0a]
  ++ str "seg.ts" ++ [x0d; x0a].
Definition dns0 (_ : text) (_ : Z) : option (list SocketAddr) := demo_dns [] 0.
Definition hint0 : BodyHint := fun _ => 0.
Definition utf8_0 : Utf8Error := fun _ => [].
Definition answer0 : HttpResponse := mk_HttpResponse 200 [] [Ok text0].
Definition hls0 : Hls :=
  mk_Hls m0 SourceRegistry.default (mk_Net policy0 [Answered answer0] [0; 0] [] []) [5; 6; 7; 8].
Definition URL0 : text := str "http://cdn.example/live/index.m3u8".
Definition source_order : HashOrder Z RegisteredSource := sorted_order _ _.
Definition source_laws : @HashOrderLaws Z RegisteredSource _ _ source_order := sorted_order_laws _ _.
Definition demo_handle :=
  @handle_m3u8 parser ops NetDemo.demo_uri NetDemo.demo_visible hint0 utf8_0 demo_m3u8 demo_layout
    NetDemo.demo_ord info_order body_order source_order dns0.
Definition run_hls0 := demo_handle URL0 hls0.
Definition out0 : text :=
  str "#EXTM3U" ++ [x0a] ++ str "#EXT-X-MAP:URI=" ++ [x22] ++ str "/media/1" ++ [x22; x0a]
  ++ str "/media/2" ++ [x0a].
Lemma run_hls0_result : run_hls0 = (Ok out0, run_hls0.2).
Proof. apply run_result. vm_compute. reflexivity. Qed.
End HlsRequestDemo.

Module HlsClaims.
Import HlsDemo HierDemo HlsRequestDemo.

(** A playlist body is read exactly when its declared length is within
    the limit of 8 MiB, every frame arrives and the frames together are within
    the limit; what is read is then the frames in order.  In every other case
    the read fails: no body of the upstream makes the buffer grow past the limit. *)
Theorem playlist_body_capped {BH : BodyHint} (response : HttpResponse) (body : list byte) :
  read_body_capped response = Ok body
  <-> size_hint_lower response <= MAX_PLAYLIST_BYTES
      /\ exists chunks, hr_frames response = map Ok chunks /\ body = mjoin chunks
           /\ Z.of_nat (length body) <= MAX_PLAYLIST_BYTES.
Proof.
  unfold read_body_capped.
  destruct (Z.ltb_spec MAX_PLAYLIST_BYTES (size_hint_lower response)) as [Hlt|Hle].
  - split; [done|]. intros [? _]. lia.
  - rewrite read_chunks_Ok by (vm_compute; discriminate). naive_solver.
Qed.



(** The text of a playlist that was just downloaded, when it fits the
    cache, is repeated to every request of the next second: without asking the
    network, without registering anything, and whatever the playlist is (live,
    master or complete). *)
Theorem playlist_repeated_from_cache {UP : UrlParser} {UO : UrlOps} {UR : UriParser}
    {HT : HeaderText} {BH : BodyHint} {UE : Utf8Error} {PM : M3u8Parser} {PL : Layout}
    {OT : HashOrder text Z} {OI : HashOrder text PlaylistInfo}
    {OB : HashOrder text CachedPlaylistBody} {OS : HashOrder Z RegisteredSource}
    (lookup : text -> Z -> option (list SocketAddr)) (url u : text) (h h1 : Hls) (out : text)
    (t0 t1 now t : Z) (later : list Z) :
  handle_m3u8 lookup url h = (Ok out, h1) ->
  clean_url url = Ok u -> playlist_bodies (h_manager h) !! u = None ->
  tlen u + tlen out <= MAX_PLAYLIST_BODY_CACHE_BYTES ->
  h_clock h = t0 :: t1 :: now :: t :: later -> t < now + 1000 ->
  exists h2, handle_m3u8 lookup url h1 = (Ok out, h2)
    /\ h_registry h2 = h_registry h1 /\ h_net h2 = h_net h1.
Proof.
  intros E Hu Hmiss Hfit Hclock Ht.
  apply handle_m3u8_Ok in E as (u' & Hu' & Hcase). rewrite Hu in Hu'. injection Hu' as <-.
  destruct Hcase as [(e & He & _)|(content & n' & info & base_url & m1 & now' & _ & _ & _ & _ & Hm & -> & Hk)];
    [congruence|].
  rewrite Hclock in Hm, Hk. simpl in Hm, Hk.
  pose proof (refresh_ttl_bounds info) as Hb.
  assert (Hbody : playlist_bodies (h_manager h1) !! u
                  = Some (mk_CachedPlaylistBody out (now + playlist_refresh_ttl info) now)).
  { rewrite Hm. unfold cache_playlist_body, saturating_add, tlen in *.
    destruct (Z.ltb_spec MAX_PLAYLIST_BODY_CACHE_BYTES
                (Z.min (Z.of_nat (length u) + Z.of_nat (length out)) u64_max)) as [|_]; [lia|].
    simpl. by rewrite lookup_insert_eq. }
  unfold handle_m3u8. rewrite (io_bind_Ok (lift (clean_url url)) _ h1 u h1) by (by rewrite Hu).
  rewrite (io_bind_Ok hls_now _ h1 t _) by (unfold hls_now; rewrite Hk; reflexivity).
  unfold mbind, io_bind, on_manager, cached_playlist_body. simpl. rewrite Hbody. simpl.
  destruct (Z.ltb_spec t (now + playlist_refresh_ttl info)) as [_|]; [|lia].
  eexists. split; [reflexivity|]. done.
Qed.

Lemma playlist_repeated_from_cache_witness :
  exists h2, demo_handle URL0 run_hls0.2 = (Ok out0, h2) /\ h_net h2 = h_net run_hls0.2.
Proof.
  destruct (@playlist_repeated_from_cache parser ops NetDemo.demo_uri NetDemo.demo_visible hint0
    utf8_0 demo_m3u8 demo_layout NetDemo.demo_ord info_order body_order source_order dns0 URL0 URL0
    hls0 run_hls0.2 out0 5 6 7 8 [] run_hls0_result) as (h2 & H1 & _ & H2).
  - vm_compute. reflexivity.
  - vm_compute. reflexivity.
  - vm_compute. discriminate.
  - reflexivity.
  - vm_compute. reflexivity.
  - exists h2. split; [exact H1|exact H2].
Defined.
End HlsClaims.
