(* ===== verification/P2pManifest.v ===== *)
(** * Authorized P2P sources: descriptors and piece verification ([p2p.rs])

    A host that provides bytes describes them first: a content id, the length,
    the digest of the whole and the digests of its pieces.  Nothing a provider
    returns is used before its length and digest have been checked. *)

From Stdlib Require Import Strings.Byte Strings.String.
From S2P Require Import Prelude Bytes Error External Digest.

Definition SHA256_HEX_LENGTH : Z := 64.
Definition MAX_CONTENT_ID_LENGTH : Z := 512.
Definition MAX_AUTHORIZATION_LENGTH : Z := 2048.
Definition MAX_P2P_READ_BYTES : Z := 8 * 1024 * 1024.
Definition MAX_P2P_PIECE_BYTES : Z := 8 * 1024 * 1024.
Definition MAX_P2P_PIECES : Z := 16000.
Definition MAX_MANIFEST_JSON_BYTES : Z := 1024 * 1024.

Definition is_ascii_hexdigit (b : byte) : bool :=
  in_range 48 57 b || in_range 65 70 b || in_range 97 102 b.
Definition is_ascii_control (b : byte) : bool := in_range 0 31 b || in_range 127 127 b.

Definition validate_digest (value : text) : Result text :=
  let value := trim value in
  if negb (Z.of_nat (length value) =? SHA256_HEX_LENGTH) || negb (forallb is_ascii_hexdigit value)
  then Err (ProxyError.Request (str "P2P SHA-256 digest is invalid"))
  else Ok (ascii_lowercase value).

Definition validate_text (value : text) (max_length : Z) (label : text) : Result text :=
  let value := trim value in
  if bool_decide (value = []) || (max_length <? Z.of_nat (length value))
     || existsb (fun b => bool_decide (b = x00) || is_ascii_control b) value
  then Err (ProxyError.Request (label ++ str " is invalid"))
  else Ok value.

(** ** The descriptor of a source *)

Record AuthorizedP2pSource : Type := mk_AuthorizedP2pSource {
  content_id : text;
  src_length : Z;
  src_sha256 : text;
  authorization_reference : text;
}.

Definition source_new (content_id : text) (content_length : Z) (sha256 : text)
    (authorization_reference : text) (explicitly_authorized : bool) :
    Result AuthorizedP2pSource :=
  if negb explicitly_authorized then
    Err (ProxyError.Request (str "P2P source is not explicitly authorized"))
  else
    content_id ← validate_text content_id MAX_CONTENT_ID_LENGTH (str "P2P content ID");
    authorization_reference ←
      validate_text authorization_reference MAX_AUTHORIZATION_LENGTH
        (str "P2P authorization reference");
    if starts_with (str "magnet:") authorization_reference then
      Err (ProxyError.Request (str "Magnet links are not accepted by the P2P core"))
    else if content_length =? 0 then
      Err (ProxyError.Request (str "P2P content length must be positive"))
    else
      sha256 ← validate_digest sha256;
      Ok (mk_AuthorizedP2pSource content_id content_length sha256 authorization_reference).

(** ** The manifest of the pieces *)

Record P2pPieceManifest : Type := mk_P2pPieceManifest {
  content_length : Z;
  piece_length : Z;
  piece_sha256 : list text;
}.

(** [collect::<Result<Vec<_>>>]: the first error ends it. *)
Fixpoint validate_digests (l : list text) : Result (list text) :=
  match l with
  | [] => Ok []
  | d :: l' => d ← validate_digest d; l' ← validate_digests l'; Ok (d :: l')
  end.

Definition manifest_new (content_length piece_length : Z) (piece_sha256 : list text) :
    Result P2pPieceManifest :=
  if (content_length =? 0) || (piece_length =? 0) then
    Err (ProxyError.Request (str "P2P piece lengths must be positive"))
  else if MAX_P2P_PIECE_BYTES <? piece_length then
    Err (ProxyError.Request (str "P2P piece length exceeds limit"))
  else
    total ← ok_or (checked_add content_length (piece_length - 1))
              (ProxyError.Request (str "P2P piece count overflow"));
    let count := total / piece_length in
    if MAX_P2P_PIECES <? count then
      Err (ProxyError.Request (str "P2P piece count exceeds limit"))
    else if negb (count =? Z.of_nat (length piece_sha256)) then
      Err (ProxyError.Request (str "P2P piece digest count does not match content length"))
    else
      piece_sha256 ← validate_digests piece_sha256;
      Ok (mk_P2pPieceManifest content_length piece_length piece_sha256).

Section Verify.
Context {SHA : Sha256}.

Definition verify_piece (m : P2pPieceManifest) (index : nat) (bytes : list byte) : Result unit :=
  digest ← ok_or (piece_sha256 m !! index)
             (ProxyError.Request (str "P2P piece index is out of bounds"));
  start ← ok_or (checked_mul (Z.of_nat index) (piece_length m))
            (ProxyError.Request (str "P2P piece offset overflow"));
  let expected_length := Z.min (piece_length m) (saturating_sub (content_length m) start) in
  if negb (Z.of_nat (length bytes) =? expected_length) then
    Err (ProxyError.Request (str "P2P piece length does not match manifest"))
  else if negb (bool_decide (sha256_hex bytes = digest)) then
    Err (ProxyError.Request (str "P2P piece integrity check failed"))
  else Ok tt.

(** [&piece[copy_start..copy_end]], when both are within the piece. *)
Definition sub_slice (piece : list byte) (copy_start copy_end : Z) : list byte :=
  take (Z.to_nat (copy_end - copy_start)) (drop (Z.to_nat copy_start) piece).

Context {St : Type} (provider : nat -> io St ProxyError.t (list byte)).

(** The loop over [count] pieces from [piece_number] on. *)
Fixpoint read_pieces (m : P2pPieceManifest) (start end_ : Z) (count : nat) (piece_number : Z)
    (output : list byte) : io St ProxyError.t (list byte) :=
  match count with
  | O => mret output
  | S count' =>
      let index := Z.to_nat piece_number in
      piece ← provider index;
      _ ← lift (verify_piece m index piece);
      let piece_start := piece_number * piece_length m in
      let copy_start := saturating_sub start piece_start in
      let copy_end := Z.min (end_ - piece_start + 1) (Z.of_nat (length piece)) in
      read_pieces m start end_ count' (piece_number + 1)
        (output ++ sub_slice piece copy_start copy_end)
  end.

Definition read_verified_range (m : P2pPieceManifest) (start end_ : Z) :
    io St ProxyError.t (list byte) :=
  if (end_ <? start) || (content_length m <=? end_) then
    throw (ProxyError.InvalidRange (str "P2P range is outside authorized content"))
  else
    output_length ← lift (ok_or (checked_sub end_ start ≫= fun l => checked_add l 1)
                            (ProxyError.InvalidRange (str "P2P range length overflow")));
    if MAX_P2P_READ_BYTES <? output_length then
      throw (ProxyError.InvalidRange (str "P2P range exceeds read limit"))
    else
      let first_piece := start / piece_length m in
      let last_piece := end_ / piece_length m in
      output ← read_pieces m start end_ (Z.to_nat (last_piece - first_piece + 1)) first_piece [];
      if negb (Z.of_nat (length output) =? output_length) then
        throw (ProxyError.Storage (str "P2P verified range length mismatch"))
      else mret output.
End Verify.

(** ** The JSON form of both *)

Record P2pManifestDocument : Type := mk_P2pManifestDocument {
  doc_content_id : text;
  doc_content_length : Z;
  doc_content_sha256 : text;
  doc_piece_length : Z;
  doc_piece_sha256 : list text;
  doc_authorization_reference : text;
  doc_explicitly_authorized : bool;
}.
(** [serde_json::from_slice]. *)
Class ManifestJson : Type := manifest_of_json : list byte -> option P2pManifestDocument.

Definition parse_authorized_manifest_json `{ManifestJson} (json : list byte) :
    Result (AuthorizedP2pSource * P2pPieceManifest) :=
  if bool_decide (json = []) || (MAX_MANIFEST_JSON_BYTES <? Z.of_nat (length json)) then
    Err (ProxyError.Request (str "P2P manifest JSON size is invalid"))
  else
    document ← ok_or (manifest_of_json json)
                 (ProxyError.Request (str "P2P manifest JSON is invalid"));
    source ← source_new (doc_content_id document) (doc_content_length document)
               (doc_content_sha256 document) (doc_authorization_reference document)
               (doc_explicitly_authorized document);
    manifest ← manifest_new (doc_content_length document) (doc_piece_length document)
                 (doc_piece_sha256 document);
    Ok (source, manifest).
