(* ===== verification/P2pManifestTheorems.v ===== *)
(** * P2P manifests: what is accepted, and that a verified read is the content *)

From Stdlib Require Import Strings.Byte Strings.String.
From S2P Require Import Prelude Bytes Error External Digest P2pManifest.

(** ** Parts of a byte string, by their ends *)

Definition seg (c : list byte) (a b : Z) : list byte :=
  take (Z.to_nat (b - a)) (drop (Z.to_nat a) c).

Lemma seg_app c a b d : 0 <= a <= b -> b <= d -> seg c a b ++ seg c b d = seg c a d.
Proof.
  intros Hab Hbd. unfold seg.
  replace (Z.to_nat (d - a)) with (Z.to_nat (b - a) + Z.to_nat (d - b))%nat by lia.
  replace (Z.to_nat b) with (Z.to_nat a + Z.to_nat (b - a))%nat by lia.
  rewrite <- drop_drop. symmetry.
  rewrite <- (take_drop (Z.to_nat (b - a)) (take (Z.to_nat (b - a) + Z.to_nat (d - b)) _)).
  rewrite take_take, Nat.min_l by lia. f_equal.
  rewrite skipn_firstn_comm. f_equal. lia.
Qed.

Lemma seg_nil c a : seg c a a = [].
Proof. unfold seg. by rewrite Z.sub_diag. Qed.

Lemma length_seg c a b :
  0 <= a <= b -> b <= Z.of_nat (length c) -> Z.of_nat (length (seg c a b)) = b - a.
Proof. intros. unfold seg. rewrite length_take, length_drop. lia. Qed.

Lemma seg_seg c a b i j :
  0 <= a -> 0 <= i <= j -> j <= b - a -> seg (seg c a b) i j = seg c (a + i) (a + j).
Proof.
  intros Ha Hi Hj. unfold seg. rewrite skipn_firstn_comm, drop_drop, take_take.
  f_equal; [lia|]. f_equal. lia.
Qed.

(** ** Well-formed manifests *)

Record manifest_ok (m : P2pPieceManifest) : Prop := {
  mo_length : 0 < content_length m <= u64_max;
  mo_piece : 0 < piece_length m <= MAX_P2P_PIECE_BYTES;
  mo_count : Z.of_nat (length (piece_sha256 m))
             = (content_length m + (piece_length m - 1)) / piece_length m;
  mo_limit : Z.of_nat (length (piece_sha256 m)) <= MAX_P2P_PIECES;
}.

Lemma validate_digests_Ok l l' :
  validate_digests l = Ok l' <->
  Forall (fun d => length (trim d) = 64%nat /\ forallb is_ascii_hexdigit (trim d) = true) l
  /\ l' = map (fun d => ascii_lowercase (trim d)) l.
Proof.
  revert l'. induction l as [|d l IH]; intros l'; simpl.
  - split; [intros [= <-]; by split|]. by intros [_ ->].
  - unfold validate_digest at 1, SHA256_HEX_LENGTH.
    destruct (Z.eqb_spec (Z.of_nat (length (trim d))) 64) as [Hl|Hl];
      destruct (forallb is_ascii_hexdigit (trim d)) eqn:Ed; simpl.
    2-4: split; [done|]; intros [[[? ?] _]%Forall_cons _]; first [done|congruence|lia].
    destruct (validate_digests l) as [r|e] eqn:Er; simpl.
    + destruct (proj1 (IH r) eq_refl) as [Hall ->]. split.
      * intros [= <-]. split; [|done]. constructor; [|done]. split; [lia|done].
      * by intros [_ ->].
    + split; [done|]. intros [[_ Hall]%Forall_cons _].
      by discriminate (proj2 (IH _) (conj Hall eq_refl)).
Qed.

Lemma manifest_new_ok cl pl ds m :
  is_u64 cl -> is_u64 pl -> manifest_new cl pl ds = Ok m ->
  manifest_ok m /\ content_length m = cl /\ piece_length m = pl
  /\ piece_sha256 m = map (fun d => ascii_lowercase (trim d)) ds.
Proof.
  intros Hcl Hpl. unfold manifest_new.
  destruct (Z.eqb_spec cl 0); [done|]. destruct (Z.eqb_spec pl 0); [done|]. simpl.
  destruct (Z.ltb_spec MAX_P2P_PIECE_BYTES pl); [done|].
  destruct (checked_add cl (pl - 1)) as [t|] eqn:Et; [|done].
  apply checked_add_Some in Et as [-> _]. simpl.
  destruct (Z.ltb_spec MAX_P2P_PIECES ((cl + (pl - 1)) / pl)); [done|].
  destruct (Z.eqb_spec ((cl + (pl - 1)) / pl) (Z.of_nat (length ds))) as [Hc|]; [|done]. simpl.
  destruct (validate_digests ds) as [ds'|] eqn:Ed; [|done]. intros [= <-].
  apply validate_digests_Ok in Ed as [_ ->]. unfold is_u64 in *.
  split; [|done]. split; simpl; rewrite ?length_map; lia.
Qed.

(** ** Content a manifest describes *)

Section Range.
Context {SHA : Sha256} (m : P2pPieceManifest) (content : list byte).

Definition piece_end (p : Z) : Z := Z.min ((p + 1) * piece_length m) (content_length m).
Definition piece_of (p : Z) : list byte := seg content (p * piece_length m) (piece_end p).

(** The digests are those of the pieces of the content. *)
Record describes : Prop := {
  de_ok : manifest_ok m;
  de_length : Z.of_nat (length content) = content_length m;
  de_digest i d : piece_sha256 m !! i = Some d -> d = sha256_hex (piece_of (Z.of_nat i));
}.

(** Nobody can present other bytes of the same length with the same digest. *)
Definition no_forgery : Prop :=
  forall i bytes, (i < length (piece_sha256 m))%nat ->
    length bytes = length (piece_of (Z.of_nat i)) ->
    sha256_hex bytes = sha256_hex (piece_of (Z.of_nat i)) -> bytes = piece_of (Z.of_nat i).

Context (Hdesc : describes).

Lemma piece_count_bound i :
  (i < length (piece_sha256 m))%nat -> Z.of_nat i * piece_length m < content_length m.
Proof.
  intros Hi. destruct Hdesc as [[Hl [Hp _] Hc _] _ _].
  pose proof (Z.mul_div_le (content_length m + (piece_length m - 1)) (piece_length m) ltac:(lia)).
  rewrite <- Hc in *. nia.
Qed.

Lemma piece_in_count p :
  0 <= p -> p * piece_length m < content_length m -> (Z.to_nat p < length (piece_sha256 m))%nat.
Proof.
  intros H0 Hp. destruct Hdesc as [[Hl [Hpl _] Hc _] _ _].
  assert (p < Z.of_nat (length (piece_sha256 m))); [|lia]. rewrite Hc.
  pose proof (Z.div_le_lower_bound (content_length m + (piece_length m - 1)) (piece_length m) (p + 1)
    Hpl ltac:(nia)). lia.
Qed.

Lemma length_piece p :
  0 <= p -> p * piece_length m < content_length m ->
  Z.of_nat (length (piece_of p)) = piece_end p - p * piece_length m.
Proof.
  intros H0 Hp. destruct Hdesc as [[Hl [Hpl _] Hc _] Hlen _].
  unfold piece_of, piece_end. apply length_seg; nia.
Qed.

(** A piece verifies exactly when it is the piece of the content. *)
Lemma verify_piece_Ok i bytes :
  no_forgery -> verify_piece m i bytes = Ok tt
  <-> (i < length (piece_sha256 m))%nat /\ bytes = piece_of (Z.of_nat i).
Proof.
  intros Hnf. unfold verify_piece.
  destruct (piece_sha256 m !! i) as [d|] eqn:Ed; simpl; cycle 1.
  { apply lookup_ge_None in Ed. split; [done|]. lia. }
  apply lookup_lt_Some in Ed as Hi. pose proof (piece_count_bound i Hi) as Hb.
  pose proof (length_piece (Z.of_nat i) ltac:(lia) Hb) as Hlp.
  apply (de_digest Hdesc) in Ed as ->.
  destruct (mo_length _ (de_ok Hdesc)) as [Hl0 Hl1]. destruct (mo_piece _ (de_ok Hdesc)) as [Hp0 _].
  assert (Hmul : checked_mul (Z.of_nat i) (piece_length m) = Some (Z.of_nat i * piece_length m))
    by (apply checked_mul_Some; split; [done|lia]).
  rewrite Hmul. simpl. unfold saturating_sub.
  assert (Hexp : Z.min (piece_length m) (Z.max (content_length m - Z.of_nat i * piece_length m) 0)
                 = Z.of_nat (length (piece_of (Z.of_nat i)))).
  { rewrite Hlp. unfold piece_end. lia. }
  rewrite Hexp. destruct (Z.eqb_spec (Z.of_nat (length bytes)) (Z.of_nat (length (piece_of (Z.of_nat i)))))
    as [E|E]; simpl; cycle 1.
  { split; [done|]. intros [_ ->]. done. }
  case_bool_decide as Es; simpl.
  - split; [|done]. intros _. split; [done|]. apply Hnf; [done|lia|done].
  - split; [done|]. by intros [_ ->].
Qed.

Context {St : Type} (provider : nat -> io St ProxyError.t (list byte)).

(** How far the output has got before piece [p]. *)
Definition pos (start end_ p : Z) : Z := Z.max start (Z.min (end_ + 1) (p * piece_length m)).

Lemma pos_first start end_ :
  0 <= start <= end_ -> pos start end_ (start / piece_length m) = start.
Proof.
  intros Hs. destruct (mo_piece _ (de_ok Hdesc)) as [Hp0 _]. unfold pos.
  pose proof (Z.mul_div_le start (piece_length m) ltac:(lia)). lia.
Qed.

Lemma pos_last start end_ p :
  start <= end_ -> p + Z.of_nat 0 = end_ / piece_length m + 1 -> pos start end_ p = end_ + 1.
Proof.
  intros Hs Hp. destruct (mo_piece _ (de_ok Hdesc)) as [Hp0 _]. unfold pos.
  pose proof (Z.mul_succ_div_gt end_ (piece_length m) ltac:(lia)).
  replace p with (end_ / piece_length m + 1) by lia. nia.
Qed.

(** One round: the bounds of the copy are within the piece, and what is
    copied is the part of the content up to the next piece. *)
Lemma copy_step start end_ p :
  0 <= start <= end_ -> end_ < content_length m ->
  start / piece_length m <= p -> p <= end_ / piece_length m ->
  let piece := piece_of p in
  let copy_start := saturating_sub start (p * piece_length m) in
  let copy_end := Z.min (end_ - p * piece_length m + 1) (Z.of_nat (length piece)) in
  0 <= copy_start <= copy_end /\ copy_end <= Z.of_nat (length piece)
  /\ seg content start (pos start end_ p) ++ sub_slice piece copy_start copy_end
     = seg content start (pos start end_ (p + 1)).
Proof.
  intros Hs He Hf Hl piece copy_start copy_end.
  destruct (mo_piece _ (de_ok Hdesc)) as [Hp0 _]. pose proof (de_length Hdesc) as Hlen.
  set (pl := piece_length m) in *.
  assert (Hp : 0 <= p) by (pose proof (Z.div_pos start pl ltac:(lia) Hp0); lia).
  assert (H1 : p * pl <= end_).
  { pose proof (Z.mul_div_le end_ pl ltac:(lia)). nia. }
  assert (H2 : start < (p + 1) * pl).
  { pose proof (Z.mul_succ_div_gt start pl ltac:(lia)). nia. }
  pose proof (length_piece p Hp ltac:(fold pl; lia)) as Hlp. fold pl in Hlp. fold piece in Hlp.
  unfold piece_end in Hlp. fold pl in Hlp.
  unfold copy_start, copy_end, saturating_sub. rewrite Hlp.
  split; [lia|]. split; [lia|].
  change (sub_slice piece) with (seg piece). unfold piece, piece_of, piece_end. fold pl.
  rewrite seg_seg by lia. unfold pos. fold pl.
  replace (Z.max start (Z.min (end_ + 1) (p * pl))) with (Z.max start (p * pl)) by lia.
  replace (p * pl + Z.max (start - p * pl) 0) with (Z.max start (p * pl)) by lia.
  rewrite seg_app by lia. f_equal. lia.
Qed.

Lemma read_pieces_sound start end_ count p s out s' :
  no_forgery -> 0 <= start <= end_ -> end_ < content_length m ->
  start / piece_length m <= p -> p + Z.of_nat count = end_ / piece_length m + 1 ->
  read_pieces provider m start end_ count p (seg content start (pos start end_ p)) s = (Ok out, s') ->
  out = seg content start (end_ + 1).
Proof.
  intros Hnf Hs He. revert p s. induction count as [|count IH]; intros p s Hf Hc E.
  - simpl in E. injection E as <- _. by rewrite pos_last by lia.
  - cbn [read_pieces] in E. unfold mbind, io_bind, lift in E.
    destruct (provider (Z.to_nat p) s) as [[piece|] s1]; [|discriminate E].
    destruct (verify_piece m (Z.to_nat p) piece) as [[]|] eqn:Ev; [|discriminate E].
    assert (Hp : 0 <= p).
    { destruct (mo_piece _ (de_ok Hdesc)) as [Hp0 _].
      pose proof (Z.div_pos start (piece_length m) ltac:(lia) Hp0). lia. }
    apply verify_piece_Ok in Ev as [_ ->]; [|done]. rewrite Z2Nat.id in E by done.
    destruct (copy_step start end_ p Hs He Hf ltac:(lia)) as (_ & _ & Hcopy).
    rewrite Hcopy in E. apply IH in E; [done|lia|lia].
Qed.

(** The provider returns the true pieces as long as [I] holds of its state. *)
Definition honest (I : St -> Prop) : Prop :=
  forall i s, I s -> (i < length (piece_sha256 m))%nat ->
    exists s1, provider i s = (Ok (piece_of (Z.of_nat i)), s1) /\ I s1.

Lemma read_pieces_complete (I : St -> Prop) start end_ count p s :
  no_forgery -> 0 <= start <= end_ -> end_ < content_length m ->
  start / piece_length m <= p -> p + Z.of_nat count = end_ / piece_length m + 1 ->
  honest I -> I s ->
  exists s', read_pieces provider m start end_ count p (seg content start (pos start end_ p)) s
             = (Ok (seg content start (end_ + 1)), s') /\ I s'.
Proof.
  intros Hnf Hs He Hf Hc Hprov. revert p s Hf Hc. induction count as [|count IH]; intros p s Hf Hc HI.
  - exists s. cbn [read_pieces]. by rewrite pos_last by lia.
  - cbn [read_pieces]. unfold mbind, io_bind, lift.
    destruct (mo_piece _ (de_ok Hdesc)) as [Hp0 _].
    assert (Hp : 0 <= p) by (pose proof (Z.div_pos start (piece_length m) ltac:(lia) Hp0); lia).
    assert (Hin : (Z.to_nat p < length (piece_sha256 m))%nat).
    { apply piece_in_count; [done|]. pose proof (Z.mul_div_le end_ (piece_length m) ltac:(lia)). nia. }
    destruct (Hprov (Z.to_nat p) s HI Hin) as (s1 & -> & HI1).
    rewrite (proj2 (verify_piece_Ok _ _ Hnf)) by done. rewrite Z2Nat.id by done.
    destruct (copy_step start end_ p Hs He Hf ltac:(lia)) as (_ & _ & Hcopy).
    rewrite Hcopy. apply IH; lia || done.
Qed.

(** Both directions for the whole read. *)
Lemma read_verified_range_spec (I : St -> Prop) start end_ s :
  no_forgery -> 0 <= start -> is_u64 end_ ->
  (forall out s', read_verified_range provider m start end_ s = (Ok out, s') ->
     start <= end_ < content_length m /\ end_ - start + 1 <= MAX_P2P_READ_BYTES
     /\ out = seg content start (end_ + 1))
  /\ (start <= end_ < content_length m -> end_ - start + 1 <= MAX_P2P_READ_BYTES ->
      honest I -> I s ->
      exists s', read_verified_range provider m start end_ s = (Ok (seg content start (end_ + 1)), s')
                 /\ I s').
Proof.
  intros Hnf Hs Hend. unfold read_verified_range.
  destruct (Z.ltb_spec end_ start) as [H1|H1]; simpl; [split; [done|lia]|].
  destruct (Z.leb_spec (content_length m) end_) as [H2|H2]; simpl; [split; [done|lia]|].
  assert (Hlen : (checked_sub end_ start ≫= fun l => checked_add l 1) = Some (end_ - start + 1)).
  { unfold is_u64 in Hend. rewrite (proj2 (checked_sub_Some end_ start (end_ - start))) by lia. simpl.
    apply checked_add_Some. pose proof (mo_length _ (de_ok Hdesc)). lia. }
  rewrite Hlen. cbn [ok_or].
  unfold mbind, io_bind, lift. cbn beta iota.
  destruct (Z.ltb_spec MAX_P2P_READ_BYTES (end_ - start + 1)) as [H3|H3]; [split; [done|lia]|].
  destruct (mo_piece _ (de_ok Hdesc)) as [Hp0 _].
  pose proof (Z.div_le_mono start end_ (piece_length m) Hp0 H1) as Hmono.
  assert (Hinit : [] = seg content start (pos start end_ (start / piece_length m))).
  { rewrite pos_first by lia. by rewrite seg_nil. }
  rewrite Hinit.
  assert (Hout : Z.of_nat (length (seg content start (end_ + 1))) = end_ - start + 1).
  { rewrite length_seg; [lia|lia|]. rewrite (de_length Hdesc). lia. }
  split.
  - intros out s'. destruct (read_pieces _ _ _ _ _ _ _ s) as [[o|] s1] eqn:E; [|done].
    apply read_pieces_sound in E; [|done|lia|lia|lia|lia]. subst o.
    rewrite Hout, Z.eqb_refl. simpl. by intros [= <- <-].
  - intros _ _ Hprov HI.
    destruct (read_pieces_complete I start end_
      (Z.to_nat (end_ / piece_length m - start / piece_length m + 1))
      (start / piece_length m) s Hnf ltac:(lia) ltac:(lia) ltac:(lia) ltac:(lia) Hprov HI)
      as (s' & -> & HI').
    rewrite Hout, Z.eqb_refl. simpl. by exists s'.
Qed.

End Range.

(** ** A small instance: the digest of a short text is the text, padded *)

Module P2pDemo.
Definition pad_sha : Sha256 := fun l => take 32 (l ++ replicate 32 x00).
Lemma pad_sha_inj a b :
  (length a <= 32)%nat -> length a = length b -> @sha256_hex pad_sha a = @sha256_hex pad_sha b -> a = b.
Proof.
  intros Ha Hab E. apply (@sha256_hex_inj pad_sha) in E. unfold sha256, pad_sha in E.
  rewrite !take_app_ge in E by lia. by apply (app_inj_1 a b) in E as [-> _].
Qed.

Definition content : list byte := str "abcdef".
Definition manifest : P2pPieceManifest :=
  mk_P2pPieceManifest 6 4 [@sha256_hex pad_sha (str "abcd"); @sha256_hex pad_sha (str "ef")].
Lemma manifest_describes : @describes pad_sha manifest content.
Proof.
  split; [split; vm_compute; intuition congruence|reflexivity|].
  intros [|[|i]] d [= <-]; vm_compute; reflexivity.
Qed.
Lemma manifest_no_forgery : @no_forgery pad_sha manifest content.
Proof.
  intros i bytes Hi Hl E. apply pad_sha_inj; [|done|done]. rewrite Hl.
  destruct i as [|[|i]]; [vm_compute; lia..|]. simpl in Hi. lia.
Qed.
Definition pieces (i : nat) : io nat ProxyError.t (list byte) := fun calls =>
  (match i with
   | O => Ok (str "abcd")
   | 1%nat => Ok (str "ef")
   | _ => Err (ProxyError.Request (str "missing piece"))
   end, S calls).
End P2pDemo.

Module P2pManifestClaims.

(** A manifest is accepted exactly when its lengths are positive, a piece
    is at most 8 MiB, there is one well-formed digest per piece and at most
    16000 of them; the accepted manifest holds the same lengths and the digests
    in lower case. *)
Theorem manifest_new_correct (cl pl : Z) (ds : list text) (m : P2pPieceManifest) :
  is_u64 cl -> is_u64 pl ->
  manifest_new cl pl ds = Ok m
  <-> 0 < cl /\ 0 < pl <= MAX_P2P_PIECE_BYTES
      /\ Z.of_nat (length ds) = (cl + pl - 1) / pl /\ Z.of_nat (length ds) <= MAX_P2P_PIECES
      /\ Forall (fun d => length (trim d) = 64%nat /\ forallb is_ascii_hexdigit (trim d) = true) ds
      /\ m = mk_P2pPieceManifest cl pl (map (fun d => ascii_lowercase (trim d)) ds).
Proof.
  intros Hcl Hpl. unfold manifest_new, is_u64, MAX_P2P_PIECE_BYTES, MAX_P2P_PIECES in *.
  replace (cl + pl - 1) with (cl + (pl - 1)) by lia.
  destruct (Z.eqb_spec cl 0); [split; [done|lia]|].
  destruct (Z.eqb_spec pl 0); [split; [done|lia]|]. simpl.
  destruct (Z.ltb_spec (8 * 1024 * 1024) pl); [split; [done|lia]|].
  destruct (checked_add cl (pl - 1)) as [t|] eqn:Et; simpl; cycle 1.
  { apply checked_add_None in Et. split; [done|]. intros (? & ? & Hn & Hm & _).
    pose proof (Z.mul_succ_div_gt (cl + (pl - 1)) pl ltac:(lia)). nia. }
  apply checked_add_Some in Et as [-> _].
  destruct (Z.ltb_spec 16000 ((cl + (pl - 1)) / pl)); [split; [done|lia]|].
  destruct (Z.eqb_spec ((cl + (pl - 1)) / pl) (Z.of_nat (length ds))) as [Hc|]; simpl; [|split; [done|lia]].
  destruct (validate_digests ds) as [ds'|] eqn:Ed; simpl.
  - apply validate_digests_Ok in Ed as [Hall ->]. split; [|by intros (_ & _ & _ & _ & _ & ->)].
    intros [= <-]. split_and!; try done; lia.
  - split; [done|]. intros (_ & _ & _ & _ & Hall & _).
    by rewrite (proj2 (validate_digests_Ok ds _) (conj Hall eq_refl)) in Ed.
Qed.

Definition hex64 : text := replicate 64 x41.
Lemma manifest_new_correct_witness :
  manifest_new 6 4 [hex64; hex64]
  = Ok (mk_P2pPieceManifest 6 4 [replicate 64 x61; replicate 64 x61]).
Proof.
  apply (manifest_new_correct 6 4 [hex64; hex64]); [split; vm_compute; discriminate..|].
  split; [vm_compute; reflexivity|]. split; [split; vm_compute; reflexivity || discriminate|].
  split; [vm_compute; reflexivity|]. split; [vm_compute; discriminate|].
  split; [repeat (constructor; [split; vm_compute; reflexivity|]); constructor|].
  vm_compute. reflexivity.
Defined.

(** Whatever a provider returns, and in whatever state it is, a verified
    read that succeeds returns exactly the requested bytes of the content the
    manifest describes, and only for ranges inside it of at most 8 MiB; and a
    provider that returns the true pieces makes every such read succeed.  (No
    other bytes of a piece's length may have the piece's digest.) *)
Theorem verified_range_correct {SHA : Sha256} {St : Type} (m : P2pPieceManifest)
    (content : list byte) (provider : nat -> io St ProxyError.t (list byte)) (start end_ : Z) (s : St) :
  describes m content -> no_forgery m content -> 0 <= start -> is_u64 end_ ->
  (forall out s', read_verified_range provider m start end_ s = (Ok out, s') ->
     start <= end_ < content_length m /\ end_ - start + 1 <= MAX_P2P_READ_BYTES
     /\ out = seg content start (end_ + 1))
  /\ (start <= end_ < content_length m -> end_ - start + 1 <= MAX_P2P_READ_BYTES ->
      (forall i s, (i < length (piece_sha256 m))%nat ->
         exists s1, provider i s = (Ok (piece_of m content (Z.of_nat i)), s1)) ->
      exists s', read_verified_range provider m start end_ s = (Ok (seg content start (end_ + 1)), s')).
Proof.
  intros Hd Hnf Hs Hend.
  destruct (read_verified_range_spec m content Hd provider (fun _ => True) start end_ s Hnf Hs Hend)
    as [Hsound Hcompl].
  split; [done|]. intros H1 H2 Hprov.
  destruct (Hcompl H1 H2) as (s' & ? & _); [|done|by exists s'].
  intros i s0 _ Hi. destruct (Hprov i s0 Hi) as [s1 ?]. by exists s1.
Qed.

Lemma verified_range_correct_witness :
  exists calls, @read_verified_range P2pDemo.pad_sha _ P2pDemo.pieces P2pDemo.manifest 2 4 0%nat
                = (Ok (str "cde"), calls).
Proof.
  apply (proj2 (@verified_range_correct P2pDemo.pad_sha _ P2pDemo.manifest P2pDemo.content
    P2pDemo.pieces 2 4 0%nat P2pDemo.manifest_describes P2pDemo.manifest_no_forgery
    ltac:(lia) ltac:(split; vm_compute; discriminate))).
  - vm_compute. intuition congruence.
  - vm_compute. discriminate.
  - intros [|[|i]] calls Hi; [vm_compute; eauto..|]. simpl in Hi. lia.
Defined.
End P2pManifestClaims.
