(* ===== verification/P2p.v ===== *)
(** * The registry of authorized P2P sources ([p2p.rs])

    A registered source is read through a provider of the host.  Verified
    pieces are kept in a bounded memory cache per source and, when the registry
    has a cache directory, as files whose total size is limited.

    The file system is the one of [FileSystem], with its script of failures;
    the modification times the system reports are read from a list; the
    provider of a source is any function of the host's own state.  Locks are
    not modelled (one operation runs at a time) and are never poisoned. *)

From Stdlib Require Import Strings.Byte Strings.String.
From S2P Require Import Prelude Bytes Error External FileSystem Digest Eviction P2pManifest.

Definition MAX_P2P_SOURCES : Z := 1024.
Definition MAX_VERIFIED_PIECE_CACHE_BYTES : Z := 16 * 1024 * 1024.
Definition DEFAULT_DISK_CACHE_BYTES : Z := 1024 * 1024 * 1024.
(** In milliseconds. *)
Definition STALE_P2P_TEMP_AGE : Z := 60 * 60 * 1000.

(** ** Verified pieces in memory *)

Record VerifiedPieceCache : Type := mk_VerifiedPieceCache {
  vp_entries : gmap nat (list byte);
  vp_order : list nat;
  vp_bytes : Z;
}.
Definition pieces_empty : VerifiedPieceCache := mk_VerifiedPieceCache ∅ [] 0.

Definition blen (l : list byte) : Z := Z.of_nat (length l).

(** [while self.bytes.saturating_add(piece.len()) > MAX]: drop the oldest. *)
Fixpoint make_room (need : Z) (order : list nat) (entries : gmap nat (list byte)) (bytes : Z) :
    VerifiedPieceCache :=
  if MAX_VERIFIED_PIECE_CACHE_BYTES <? saturating_add bytes need then
    match order with
    | [] => mk_VerifiedPieceCache entries order bytes
    | oldest :: order' =>
        match entries !! oldest with
        | Some removed =>
            make_room need order' (delete oldest entries) (saturating_sub bytes (blen removed))
        | None => make_room need order' entries bytes
        end
    end
  else mk_VerifiedPieceCache entries order bytes.

Definition piece_get (index : nat) (c : VerifiedPieceCache) : option (list byte) :=
  vp_entries c !! index.

Definition piece_insert (index : nat) (piece : list byte) (c : VerifiedPieceCache) :
    list byte * VerifiedPieceCache :=
  match vp_entries c !! index with
  | Some existing => (existing, c)
  | None =>
      if MAX_VERIFIED_PIECE_CACHE_BYTES <? blen piece then (piece, c)
      else
        let c := make_room (blen piece) (vp_order c) (vp_entries c) (vp_bytes c) in
        (piece,
         mk_VerifiedPieceCache (<[index := piece]> (vp_entries c)) (vp_order c ++ [index])
           (vp_bytes c + blen piece))
  end.

(** ** The disk cache *)

Record DiskCacheFile : Type := mk_DiskCacheFile { modified : Z; file_size : Z }.
Record DiskCacheState : Type := mk_DiskCacheState {
  initialized : bool;
  total_bytes : Z;
  files : gmap path DiskCacheFile;
}.
Definition disk_default : DiskCacheState := mk_DiskCacheState false 0 ∅.

(** What an operation on pieces reads and writes. *)
Record PieceEnv (Host : Type) : Type := mk_PieceEnv {
  pe_cache : VerifiedPieceCache;
  pe_disk : DiskCacheState;
  pe_fs : fs;
  pe_times : list Z;
  pe_tmp : Z;
  pe_host : Host;
}.
Arguments mk_PieceEnv {Host}.
Arguments pe_cache {Host}.
Arguments pe_disk {Host}.
Arguments pe_fs {Host}.
Arguments pe_times {Host}.
Arguments pe_tmp {Host}.
Arguments pe_host {Host}.

(** [Path::extension]. *)
Definition extension (p : path) : option text :=
  match split_once x2e (reverse (file_name p)) with
  | Some (ext, before) => if decide (before = []) then None else Some (reverse ext)
  | None => None
  end.

Definition piece_path (directory : path) (index : nat) : path :=
  directory ++ [format_u64 (Z.of_nat index) ++ str ".piece"].

Section Pieces.
Context {SHA : Sha256} {OF : HashOrder path DiskCacheFile} {OD : DirOrder} {Host : Type}.
Local Abbreviation E := (PieceEnv Host).
Local Abbreviation P := (io E ProxyError.t).

Definition set_cache (f : VerifiedPieceCache -> VerifiedPieceCache) (e : E) : E :=
  mk_PieceEnv (f (pe_cache e)) (pe_disk e) (pe_fs e) (pe_times e) (pe_tmp e) (pe_host e).
Definition set_disk (f : DiskCacheState -> DiskCacheState) (e : E) : E :=
  mk_PieceEnv (pe_cache e) (f (pe_disk e)) (pe_fs e) (pe_times e) (pe_tmp e) (pe_host e).

(** A call whose result is inspected, and one whose error is a storage error. *)
Definition sys {A} (m : FS A) : P (result ioerr A) := fun e =>
  let '(r, s) := m (pe_fs e) in
  (Ok r, mk_PieceEnv (pe_cache e) (pe_disk e) s (pe_times e) (pe_tmp e) (pe_host e)).
Definition sys_q {A} (m : FS A) : P A :=
  r ← sys m;
  match r with
  | Ok a => mret a
  | Err error => throw (ProxyError.Storage (io_text error))
  end.
(** [metadata.modified().unwrap_or(UNIX_EPOCH)]. *)
Definition next_time : P Z := fun e =>
  (Ok (List.hd 0 (pe_times e)),
   mk_PieceEnv (pe_cache e) (pe_disk e) (pe_fs e) (List.tl (pe_times e)) (pe_tmp e) (pe_host e)).

Definition touch_disk_piece (p : path) : P unit :=
  opened ← sys (fs_open p);
  match opened with
  | Ok _ => _ ← sys fs_touch; mret tt
  | Err _ => mret tt
  end.

Definition read_verified_disk_piece (directory : path) (index : nat) (m : P2pPieceManifest) :
    P (option (list byte)) :=
  let p := piece_path directory index in
  read ← sys (fs_read p);
  match read with
  | Err error =>
      if is_not_found error then mret None else throw (ProxyError.Storage (io_text error))
  | Ok bytes =>
      if is_ok (verify_piece m index bytes) then
        _ ← touch_disk_piece p;
        mret (Some bytes)
      else
        _ ← sys (fs_remove p);
        mret None
  end.

Definition next_temporary : P Z := fun e =>
  (Ok (pe_tmp e),
   mk_PieceEnv (pe_cache e) (pe_disk e) (pe_fs e) (pe_times e) ((pe_tmp e + 1) mod 2 ^ 64)
     (pe_host e)).

(** [process_id] is the id of the running process. *)
Definition write_verified_disk_piece (process_id : Z) (directory : path) (index : nat)
    (bytes : list byte) : P path :=
  _ ← sys_q (fs_create_dir_all directory);
  let final_path := piece_path directory index in
  number ← next_temporary;
  let temporary := directory ++ [str "." ++ format_u64 (Z.of_nat index) ++ str "."
                     ++ format_u64 process_id ++ str "." ++ format_u64 number
                     ++ str ".piece.tmp"] in
  _ ← sys_q (fs_write temporary bytes);
  renamed ← sys (fs_rename temporary final_path);
  match renamed with
  | Ok _ => mret final_path
  | Err error =>
      existing ← sys (fs_read final_path);
      _ ← sys (fs_remove temporary);
      match existing with
      | Ok content => if bool_decide (content = bytes) then mret final_path
                      else throw (ProxyError.Storage (io_text error))
      | Err _ => throw (ProxyError.Storage (io_text error))
      end
  end.

(** The first scan: the piece files of every directory below the root. *)
Fixpoint scan_files (dir : path) (l : list (text * bool)) : P unit :=
  match l with
  | [] => mret tt
  | (name, _) :: l' =>
      let p := dir ++ [name] in
      if bool_decide (extension p = Some (str "piece")) then
        metadata ← sys (fs_stat p);
        match metadata with
        | Err _ => scan_files dir l'
        | Ok len =>
            time ← next_time;
            _ ← modify (set_disk (fun d =>
                  mk_DiskCacheState (initialized d) (saturating_add (total_bytes d) len)
                    (<[p := mk_DiskCacheFile time len]> (files d))));
            scan_files dir l'
        end
      else scan_files dir l'
  end.
Fixpoint scan_roots (root : path) (l : list (text * bool)) : P unit :=
  match l with
  | [] => mret tt
  | (name, is_dir) :: l' =>
      if is_dir : bool then
        listed ← sys (fs_read_dir (root ++ [name]));
        match listed with
        | Err _ => scan_roots root l'
        | Ok entries => _ ← scan_files (root ++ [name]) (dir_order entries); scan_roots root l'
        end
      else scan_roots root l'
  end.

Definition set_initialized (d : DiskCacheState) : DiskCacheState :=
  mk_DiskCacheState true (total_bytes d) (files d).
Definition forget_file (p : path) (d : DiskCacheState) : DiskCacheState :=
  match files d !! p with
  | Some f => mk_DiskCacheState (initialized d) (saturating_sub (total_bytes d) (file_size f))
                (delete p (files d))
  | None => d
  end.
Definition remember_file (p : path) (f : DiskCacheFile) (d : DiskCacheState) : DiskCacheState :=
  mk_DiskCacheState (initialized d) (saturating_add (total_bytes d) (file_size f))
    (<[p := f]> (files d)).

(** [while state.total_bytes > cache.max_bytes]: each round forgets a file or
    leaves, so the number of files is enough fuel. *)
Fixpoint evict_files (fuel : nat) (max_bytes : Z) : P unit :=
  match fuel with
  | O => mret tt
  | S fuel' => fun e =>
      let d := pe_disk e in
      if max_bytes <? total_bytes d then
        match min_by_key modified (files d) with
        | None => (Ok tt, e)
        | Some p =>
            (removed ← sys (fs_remove p);
             match removed with
             | Ok _ => _ ← modify (set_disk (forget_file p)); evict_files fuel' max_bytes
             | Err error =>
                 if is_not_found error then
                   _ ← modify (set_disk (forget_file p)); evict_files fuel' max_bytes
                 else throw (ProxyError.Storage (io_text error))
             end) e
        end
      else (Ok tt, e)
  end.

Definition evict_all (max_bytes : Z) : P unit := fun e =>
  evict_files (S (size (files (pe_disk e)))) max_bytes e.

(** Bring the table up to date; [false] when there is nothing to limit yet. *)
Definition count_files (root : path) (written_path : option path) : P bool := fun e =>
  if initialized (pe_disk e) then
    match written_path with
    | None => (Ok true, e)
    | Some p =>
        (len ← sys_q (fs_stat p);
         time ← next_time;
         _ ← modify (set_disk (fun d =>
               remember_file p (mk_DiskCacheFile time len) (forget_file p d)));
         mret true) e
    end
  else
    (listed ← sys (fs_read_dir root);
     match listed with
     | Err error =>
         if is_not_found error then _ ← modify (set_disk set_initialized); mret false
         else throw (ProxyError.Storage (io_text error))
     | Ok roots =>
         _ ← scan_roots root (dir_order roots);
         _ ← modify (set_disk set_initialized);
         mret true
     end) e.

Definition enforce_disk_cache_limit (root : path) (max_bytes : Z) (written_path : option path) :
    P unit :=
  more ← count_files root written_path;
  if more : bool then evict_all max_bytes else mret tt.

Definition refresh_disk_cache_timestamp (p : path) : P unit :=
  metadata ← sys (fs_stat p);
  match metadata with
  | Err _ => mret tt
  | Ok _ =>
      time ← next_time;
      modify (set_disk (fun d =>
        mk_DiskCacheState (initialized d) (total_bytes d)
          (alter (fun f => mk_DiskCacheFile time (file_size f)) p (files d))))
  end.

Definition forget_disk_cache_directory (directory : path) (d : DiskCacheState) : DiskCacheState :=
  fold_left (fun d p => forget_file p d)
    (base.filter (fun p => directory `prefix_of` p) (map fst (iter_map (files d)))) d.

(** ** The verifying provider *)

Definition insert_piece (index : nat) (piece : list byte) : P (list byte) := fun e =>
  let '(kept, c) := piece_insert index piece (pe_cache e) in (Ok kept, set_cache (fun _ => c) e).
Definition host_call (provider : nat -> io Host ProxyError.t (list byte)) (index : nat) :
    P (list byte) := fun e =>
  let '(r, h) := provider index (pe_host e) in
  (r, mk_PieceEnv (pe_cache e) (pe_disk e) (pe_fs e) (pe_times e) (pe_tmp e) h).

Definition fetch_piece (process_id : Z) (m : P2pPieceManifest)
    (provider : nat -> io Host ProxyError.t (list byte)) (disk_dir : option path)
    (disk_cache : option (path * Z)) (index : nat) : P (list byte) :=
  piece ← host_call provider index;
  _ ← lift (verify_piece m index piece);
  written_path ←
    match disk_dir with
    | Some directory =>
        if bool_decide (disk_cache = None) || (0 <? from_option snd 0 disk_cache) then
          p ← write_verified_disk_piece process_id directory index piece; mret (Some p)
        else mret None
    | None => mret None
    end;
  _ ← match disk_cache with
      | Some (root, max_bytes) => enforce_disk_cache_limit root max_bytes written_path
      | None => mret tt
      end;
  insert_piece index piece.

Definition cached_verified_provider (process_id : Z) (m : P2pPieceManifest)
    (provider : nat -> io Host ProxyError.t (list byte)) (disk_dir : option path)
    (disk_cache : option (path * Z)) (index : nat) : P (list byte) :=
  e ← get;
  match piece_get index (pe_cache e) with
  | Some piece => mret piece
  | None =>
      on_disk ← match disk_dir with
                | Some directory => read_verified_disk_piece directory index m
                | None => mret None
                end;
      match on_disk with
      | Some piece =>
          _ ← match disk_dir with
              | Some directory =>
                  if bool_decide (is_Some disk_cache)
                  then refresh_disk_cache_timestamp (piece_path directory index) else mret tt
              | None => mret tt
              end;
          insert_piece index piece
      | None => fetch_piece process_id m provider disk_dir disk_cache index
      end
  end.
End Pieces.

(** ** The lifecycle of a source: reads in progress hold a lease *)

Record SourceLifecycle : Type := mk_SourceLifecycle { active : Z }.
Definition lifecycle_default : SourceLifecycle := mk_SourceLifecycle 0.
Definition acquire (l : SourceLifecycle) : Result SourceLifecycle :=
  n ← ok_or (checked_add (active l) 1)
        (ProxyError.Storage (str "P2P active request count overflow"));
  Ok (mk_SourceLifecycle n).
(** [SourceLease::drop]; the result says whether waiters are notified. *)
Definition release (l : SourceLifecycle) : SourceLifecycle * bool :=
  let n := saturating_sub (active l) 1 in (mk_SourceLifecycle n, n =? 0).
(** [wait_until_idle] goes on when this holds. *)
Definition is_idle (l : SourceLifecycle) : bool := active l =? 0.

(** ** The registry *)

Record RegisteredP2pSource (Host : Type) : Type := mk_RegisteredP2pSource {
  rp_source : AuthorizedP2pSource;
  rp_manifest : P2pPieceManifest;
  rp_provider : nat -> io Host ProxyError.t (list byte);
  rp_cache : VerifiedPieceCache;
  rp_disk_dir : option path;
  rp_lifecycle : SourceLifecycle;
  rp_invalid : bool;
}.
Arguments mk_RegisteredP2pSource {Host}.
Arguments rp_source {Host}.
Arguments rp_manifest {Host}.
Arguments rp_provider {Host}.
Arguments rp_cache {Host}.
Arguments rp_disk_dir {Host}.
Arguments rp_lifecycle {Host}.
Arguments rp_invalid {Host}.

Record P2pSourceRegistry (Host : Type) : Type := mk_P2pSourceRegistry {
  pr_next_id : Z;
  pr_entries : gmap Z (RegisteredP2pSource Host);
  pr_disk_cache : option (path * Z);
  pr_disk : DiskCacheState;
  pr_fs : fs;
  pr_times : list Z;
  pr_tmp : Z;
  pr_host : Host;
}.
Arguments mk_P2pSourceRegistry {Host}.
Arguments pr_next_id {Host}.
Arguments pr_entries {Host}.
Arguments pr_disk_cache {Host}.
Arguments pr_disk {Host}.
Arguments pr_fs {Host}.
Arguments pr_times {Host}.
Arguments pr_tmp {Host}.
Arguments pr_host {Host}.

(** [u64::to_be_bytes]. *)
Definition to_be_bytes (n : Z) : list byte :=
  map (fun i => z2b (Z.land (Z.shiftr n (8 * i)) 255)) [7; 6; 5; 4; 3; 2; 1; 0].

Definition bytes_to_hex (bytes : list byte) : text := mjoin (map hex_of_byte bytes).

(** [fs::remove_dir_all]. *)
Definition fs_remove_dir_all (p : path) : FS unit := syscall (fun s =>
  if decide (p ∈ dirs s) then
    (Ok tt,
     set_names (base.filter (fun e => ~ p `prefix_of` e.1))
       (set_dirs (base.filter (fun q => ~ p `prefix_of` q)) s))
  else (Err not_found, s)).

Section Registry.
Context {SHA : Sha256} {OF : HashOrder path DiskCacheFile} {OD : DirOrder} {Host : Type}
  (process_id : Z).
Local Abbreviation R := (P2pSourceRegistry Host).
Local Abbreviation P := (io R ProxyError.t).

Definition manifest_cache_key (m : P2pPieceManifest) : text :=
  bytes_to_hex (sha256 (to_be_bytes (content_length m) ++ to_be_bytes (piece_length m)
                        ++ mjoin (piece_sha256 m))).

Definition set_entries (f : gmap Z (RegisteredP2pSource Host) -> gmap Z (RegisteredP2pSource Host))
    (r : R) : R :=
  mk_P2pSourceRegistry (pr_next_id r) (f (pr_entries r)) (pr_disk_cache r) (pr_disk r) (pr_fs r)
    (pr_times r) (pr_tmp r) (pr_host r).
Definition set_next_id (n : Z) (r : R) : R :=
  mk_P2pSourceRegistry n (pr_entries r) (pr_disk_cache r) (pr_disk r) (pr_fs r) (pr_times r)
    (pr_tmp r) (pr_host r).

(** Run an operation on pieces with the cache of one source. *)
Definition env_of (c : VerifiedPieceCache) (r : R) : PieceEnv Host :=
  mk_PieceEnv c (pr_disk r) (pr_fs r) (pr_times r) (pr_tmp r) (pr_host r).
Definition with_env (f : VerifiedPieceCache -> gmap Z (RegisteredP2pSource Host) ->
      gmap Z (RegisteredP2pSource Host)) (e : PieceEnv Host) (r : R) : R :=
  mk_P2pSourceRegistry (pr_next_id r) (f (pe_cache e) (pr_entries r)) (pr_disk_cache r) (pe_disk e)
    (pe_fs e) (pe_times e) (pe_tmp e) (pe_host e).
Definition on_pieces {A} (c : VerifiedPieceCache) (m : io (PieceEnv Host) ProxyError.t A) : P A :=
  fun r => let '(a, e) := m (env_of c r) in (a, with_env (fun _ es => es) e r).
Definition on_source {A} (id : Z) (entry : RegisteredP2pSource Host)
    (m : io (PieceEnv Host) ProxyError.t A) : P A := fun r =>
  let '(a, e) := m (env_of (rp_cache entry) r) in
  (a, with_env (fun c => alter (fun s =>
        mk_RegisteredP2pSource (rp_source s) (rp_manifest s) (rp_provider s) c (rp_disk_dir s)
          (rp_lifecycle s) (rp_invalid s)) id) e r).

Definition cleanup_stale_file (now : Z) (p : path) : io (PieceEnv Host) ProxyError.t unit :=
  if bool_decide (extension p = Some (str "tmp")) then
    metadata ← sys (fs_stat p);
    match metadata with
    | Err _ => mret tt
    | Ok _ =>
        time ← next_time;
        if STALE_P2P_TEMP_AGE <=? saturating_sub now time then _ ← sys (fs_remove p); mret tt
        else mret tt
    end
  else mret tt.
Fixpoint cleanup_files (now : Z) (dir : path) (l : list (text * bool)) :
    io (PieceEnv Host) ProxyError.t unit :=
  match l with
  | [] => mret tt
  | (name, _) :: l' => _ ← cleanup_stale_file now (dir ++ [name]); cleanup_files now dir l'
  end.
Fixpoint cleanup_dirs (now : Z) (root : path) (l : list (text * bool)) :
    io (PieceEnv Host) ProxyError.t unit :=
  match l with
  | [] => mret tt
  | (name, is_dir) :: l' =>
      if is_dir : bool then
        listed ← sys (fs_read_dir (root ++ [name]));
        match listed with
        | Err _ => cleanup_dirs now root l'
        | Ok entries => _ ← cleanup_files now (root ++ [name]) (dir_order entries);
                        cleanup_dirs now root l'
        end
      else cleanup_dirs now root l'
  end.
Definition cleanup_stale_disk_temps (now : Z) (root : path) : io (PieceEnv Host) ProxyError.t unit :=
  listed ← sys (fs_read_dir root);
  match listed with
  | Err _ => mret tt
  | Ok entries => cleanup_dirs now root (dir_order entries)
  end.

Definition registry_default (s : fs) (times : list Z) (tmp : Z) (h : Host) : R :=
  mk_P2pSourceRegistry 1 ∅ None disk_default s times tmp h.
(** The best-effort clean-up keeps what it did when it fails. *)
Definition with_cache_limit (root : path) (max_bytes now : Z) (s : fs) (times : list Z) (tmp : Z)
    (h : Host) : R :=
  let '(_, e) := cleanup_stale_disk_temps now root
                   (mk_PieceEnv pieces_empty disk_default s times tmp h) in
  let '(_, e) := enforce_disk_cache_limit root max_bytes None e in
  mk_P2pSourceRegistry 1 ∅ (Some (root, max_bytes)) (pe_disk e) (pe_fs e) (pe_times e) (pe_tmp e)
    (pe_host e).
Definition with_cache_dir (root : path) := with_cache_limit root DEFAULT_DISK_CACHE_BYTES.

Definition disk_dir_of (source : AuthorizedP2pSource) (m : P2pPieceManifest) (r : R) : option path :=
  (fun cache => cache.1 ++ [str "v1-" ++ src_sha256 source ++ str "-" ++ manifest_cache_key m])
    <$> pr_disk_cache r.

(** [path.exists()]: a failing call counts as absent. *)
Definition exists_ (p : path) : P bool :=
  stat ← on_pieces pieces_empty (sys (fs_stat p)); mret (is_ok stat).

Definition fetch_id : P Z := fun r =>
  let value := pr_next_id r in
  if value =? 0 then (Err (ProxyError.Request (str "P2P source ID exhausted")), r)
  else (Ok value, set_next_id (Z.max ((value + 1) mod 2 ^ 64) 1) r).

Definition register (source : AuthorizedP2pSource) (m : P2pPieceManifest)
    (provider : nat -> io Host ProxyError.t (list byte)) : P Z :=
  if negb (src_length source =? content_length m) then
    throw (ProxyError.Request (str "P2P source and manifest lengths differ"))
  else
    r ← get;
    if MAX_P2P_SOURCES <=? Z.of_nat (size (pr_entries r)) then
      throw (ProxyError.Request (str "P2P source registry is full"))
    else
      id ← fetch_id;
      let disk_dir := disk_dir_of source m r in
      invalidated ← match disk_dir with
                    | Some directory => exists_ (directory ++ [str ".invalid"])
                    | None => mret false
                    end;
      if invalidated : bool then
        throw (ProxyError.Request (str "P2P manifest identity was previously invalidated"))
      else
        _ ← modify (set_entries <[id := mk_RegisteredP2pSource source m provider pieces_empty
                                          disk_dir lifecycle_default false]>);
        mret id.

(** The lease is taken and given back around [m]; the count is only tested
    by [remove]. *)
Definition with_lease {A} (entry : RegisteredP2pSource Host) (m : P A) : P A :=
  _ ← lift (acquire (rp_lifecycle entry)); m.

Definition provider_of (r : R) (entry : RegisteredP2pSource Host) :
    nat -> io (PieceEnv Host) ProxyError.t (list byte) :=
  cached_verified_provider process_id (rp_manifest entry) (rp_provider entry) (rp_disk_dir entry)
    (pr_disk_cache r).

Definition read_range (id start end_ : Z) : P (list byte) :=
  r ← get;
  match pr_entries r !! id with
  | None => throw (ProxyError.Request (str "P2P source ID not found"))
  | Some entry =>
      if rp_invalid entry then
        throw (ProxyError.Request (str "P2P source failed complete integrity verification"))
      else
        with_lease entry
          (on_source id entry
             (read_verified_range (provider_of r entry) (rp_manifest entry) start end_))
  end.

(** All pieces in order, as the incremental hash reads them. *)
Fixpoint read_all (provider : nat -> io (PieceEnv Host) ProxyError.t (list byte))
    (m : P2pPieceManifest) (indices : list nat) : io (PieceEnv Host) ProxyError.t (list byte) :=
  match indices with
  | [] => mret []
  | index :: rest =>
      piece ← provider index;
      _ ← lift (verify_piece m index piece);
      others ← read_all provider m rest;
      mret (piece ++ others)
  end.

Definition persist_invalid_manifest (directory : path) : io (PieceEnv Host) ProxyError.t unit :=
  created ← sys (fs_create_dir_all directory);
  match created with
  | Ok _ => _ ← sys (fs_write (directory ++ [str ".invalid"]) []); mret tt
  | Err _ => mret tt
  end.

Definition set_invalid (s : RegisteredP2pSource Host) : RegisteredP2pSource Host :=
  mk_RegisteredP2pSource (rp_source s) (rp_manifest s) (rp_provider s) (rp_cache s) (rp_disk_dir s)
    (rp_lifecycle s) true.

(** Mark the source and, when it has piece files, all sources sharing them. *)
Definition invalidate (id : Z) (disk_dir : option path) : P unit :=
  _ ← modify (set_entries (alter set_invalid id));
  match disk_dir with
  | Some directory =>
      _ ← on_pieces pieces_empty (persist_invalid_manifest directory);
      modify (set_entries (fmap (fun s =>
        if bool_decide (rp_disk_dir s = Some directory) then set_invalid s else s)))
  | None => mret tt
  end.

Definition verify_complete (id : Z) : P unit :=
  r ← get;
  match pr_entries r !! id with
  | None => throw (ProxyError.Request (str "P2P source ID not found"))
  | Some entry =>
      with_lease entry
        (content ← on_source id entry
                     (read_all (provider_of r entry) (rp_manifest entry)
                        (seq 0 (length (piece_sha256 (rp_manifest entry)))));
         if bool_decide (bytes_to_hex (sha256 content) = src_sha256 (rp_source entry)) then mret tt
         else
           _ ← invalidate id (rp_disk_dir entry);
           throw (ProxyError.Request (str "P2P complete content integrity check failed")))
  end.

Definition p2p_content_length (id : Z) (r : R) : option Z :=
  (fun entry => src_length (rp_source entry)) <$> pr_entries r !! id.
Definition source_info (id : Z) (r : R) : option AuthorizedP2pSource :=
  rp_source <$> pr_entries r !! id.

Definition remove (id : Z) : P bool :=
  r ← get;
  match pr_entries r !! id with
  | None => mret false
  | Some entry =>
      _ ← modify (set_entries (delete id));
      _ ← match rp_disk_dir entry with
          | None => mret tt
          | Some directory =>
              r ← get;
              if existsb (fun e => bool_decide (rp_disk_dir e.2 = Some directory))
                   (map_to_list (pr_entries r))
              then mret tt
              else
                gone ← on_pieces pieces_empty (sys (fs_remove_dir_all directory));
                match gone with
                | Ok _ =>
                    if bool_decide (is_Some (pr_disk_cache r)) then
                      on_pieces pieces_empty
                        (modify (set_disk (forget_disk_cache_directory directory)))
                    else mret tt
                | Err _ => mret tt
                end
          end;
      mret true
  end.
End Registry.
