(* ===== verification/P2pTheorems.v ===== *)
(** * The P2P registry: verified reads, bounded caches, invalidation *)

From Stdlib Require Import Strings.Byte Strings.String.
From S2P Require Import Prelude Bytes Error External FileSystem Digest Eviction P2pManifest P2pManifestTheorems P2p.

(** ** The memory cache *)

Definition bytes_of (m : gmap nat (list byte)) : Z := total_weight (fun _ p => blen p) m.

Record vp_ok (c : VerifiedPieceCache) : Prop := {
  vp_nodup : NoDup (vp_order c);
  vp_dom i : i ∈ vp_order c <-> is_Some (vp_entries c !! i);
  vp_sum : vp_bytes c = bytes_of (vp_entries c);
  vp_max : vp_bytes c <= MAX_VERIFIED_PIECE_CACHE_BYTES;
}.

Lemma bytes_of_nonneg m : 0 <= bytes_of m.
Proof. apply total_weight_nonneg. intros. unfold blen. lia. Qed.

Lemma bytes_of_delete m i p : m !! i = Some p -> bytes_of (delete i m) = bytes_of m - blen p.
Proof. apply (total_weight_delete (fun _ p => blen p)). Qed.

Lemma pieces_empty_ok : vp_ok pieces_empty.
Proof.
  split; simpl; [apply NoDup_nil_2| |by rewrite <- (total_weight_empty (fun (_ : nat) p => blen p))|done].
  intros i. rewrite lookup_empty. split; [by intros ?%not_elem_of_nil|by intros [? ?]].
Qed.

Lemma make_room_ok need c :
  vp_ok c -> 0 <= need <= MAX_VERIFIED_PIECE_CACHE_BYTES ->
  let c' := make_room need (vp_order c) (vp_entries c) (vp_bytes c) in
  vp_ok c' /\ vp_bytes c' + need <= MAX_VERIFIED_PIECE_CACHE_BYTES /\ vp_entries c' ⊆ vp_entries c.
Proof.
  destruct c as [entries order bytes]. simpl. intros Hc Hn. revert entries bytes Hc.
  induction order as [|o order IH]; intros entries bytes Hc; cbn [make_room].
  - assert (He : entries = ∅).
    { apply map_empty. intros i. destruct (entries !! i) eqn:E; [|done].
      exfalso. apply (not_elem_of_nil i), (vp_dom _ Hc). simpl. eauto. }
    assert (Hb : bytes = 0).
    { pose proof (vp_sum _ Hc) as Hsum. simpl in Hsum. rewrite Hsum, He. apply total_weight_empty. }
    subst bytes. unfold saturating_add.
    destruct (Z.ltb_spec MAX_VERIFIED_PIECE_CACHE_BYTES (Z.min (0 + need) u64_max)); [lia|].
    simpl. split; [done|]. split; [lia|done].
  - pose proof (bytes_of_nonneg entries) as Hnn. pose proof (vp_sum _ Hc) as Hsum. simpl in Hsum.
    pose proof (vp_max _ Hc) as Hmax. simpl in Hmax.
    destruct (Z.ltb_spec MAX_VERIFIED_PIECE_CACHE_BYTES (saturating_add bytes need)) as [Hlt|Hge];
      cycle 1.
    { simpl. split; [done|]. unfold saturating_add, MAX_VERIFIED_PIECE_CACHE_BYTES in *.
      split; [lia|done]. }
    destruct (proj1 (vp_dom _ Hc o) ltac:(left)) as [p Hp]. simpl in Hp. rewrite Hp.
    pose proof (bytes_of_delete _ _ _ Hp) as Hdel. pose proof (bytes_of_nonneg (delete o entries)).
    pose proof (vp_nodup _ Hc) as Hnd. simpl in Hnd. apply NoDup_cons in Hnd as [Ho Hnd].
    destruct (IH (delete o entries) (saturating_sub bytes (blen p))) as (H1 & H2 & H3).
    + unfold saturating_sub, blen in *. split; simpl; [done| |lia|lia].
      intros i. pose proof (vp_dom _ Hc i) as Hd. simpl in Hd. rewrite elem_of_cons in Hd.
      destruct (decide (i = o)) as [->|Hne].
      * rewrite lookup_delete_eq. split; [done|by intros [? ?]].
      * rewrite lookup_delete_ne by done. rewrite <- Hd. naive_solver.
    + split; [done|]. split; [done|]. etrans; [exact H3|apply delete_subseteq].
Qed.

Lemma piece_insert_ok index piece c kept c' :
  vp_ok c -> piece_insert index piece c = (kept, c') ->
  vp_ok c' /\ (kept = piece \/ vp_entries c !! index = Some kept)
  /\ forall i p, vp_entries c' !! i = Some p -> vp_entries c !! i = Some p \/ (i = index /\ p = piece).
Proof.
  intros Hc. unfold piece_insert. destruct (vp_entries c !! index) as [ex|] eqn:Ei.
  { intros [= <- <-]. auto. }
  destruct (Z.ltb_spec MAX_VERIFIED_PIECE_CACHE_BYTES (blen piece)) as [|Hl].
  { intros [= <- <-]. auto. }
  intros [= <- <-].
  destruct (make_room_ok (blen piece) c Hc ltac:(unfold blen in *; lia)) as (Hr & Hb & Hs).
  set (c' := make_room _ _ _ _) in *.
  assert (Hno : vp_entries c' !! index = None).
  { destruct (vp_entries c' !! index) eqn:E; [|done]. eapply lookup_weaken in E; [|exact Hs]. congruence. }
  split; [|split; [by left|]].
  - split; simpl.
    + apply NoDup_app. split; [apply Hr|]. split; [|apply NoDup_singleton].
      intros i Hi%(vp_dom _ Hr) ->%list_elem_of_singleton. rewrite Hno in Hi. by destruct Hi.
    + intros i. rewrite elem_of_app, (vp_dom _ Hr), list_elem_of_singleton.
      destruct (decide (i = index)) as [->|Hne].
      * rewrite lookup_insert_eq. naive_solver.
      * rewrite lookup_insert_ne by done. naive_solver.
    + unfold bytes_of. rewrite total_weight_insert by done. fold (bytes_of (vp_entries c')).
      rewrite (vp_sum _ Hr). lia.
    + lia.
  - intros i p. simpl. destruct (decide (i = index)) as [->|Hne].
    + rewrite lookup_insert_eq. intros [= <-]. auto.
    + rewrite lookup_insert_ne by done. intros Hi. left. by eapply lookup_weaken.
Qed.

(** ** Operations that leave the memory cache alone *)

Section Keeps.
Context {SHA : Sha256} {OF : HashOrder path DiskCacheFile} {OD : DirOrder} {Host : Type}.
Local Abbreviation P := (io (PieceEnv Host) ProxyError.t).

Definition keeps {A} (m : P A) : Prop := forall e, pe_cache (m e).2 = pe_cache e.

Lemma keeps_ret {A} (a : A) : keeps (mret a).
Proof. done. Qed.
Lemma keeps_throw {A} err : keeps (throw (A:=A) err).
Proof. done. Qed.
Lemma keeps_lift {A} (r : Result A) : keeps (lift r).
Proof. done. Qed.
Lemma keeps_bind {A B} (m : P A) (k : A -> P B) : keeps m -> (forall a, keeps (k a)) -> keeps (m ≫= k).
Proof.
  intros Hm Hk e. unfold mbind, io_bind. specialize (Hm e).
  destruct (m e) as [[a|err] e1]; simpl in *; [by rewrite Hk|done].
Qed.
Lemma keeps_sys {A} (m : FS A) : keeps (sys m).
Proof. intros e. unfold sys. by destruct (m (pe_fs e)). Qed.
Lemma keeps_disk f : keeps (modify (set_disk f)).
Proof. done. Qed.
Lemma keeps_time : keeps next_time.
Proof. done. Qed.
Lemma keeps_temporary : keeps next_temporary.
Proof. done. Qed.
Lemma keeps_host p i : keeps (host_call p i).
Proof. intros e. unfold host_call. by destruct (p i (pe_host e)). Qed.
End Keeps.

Create HintDb keeps.
#[export] Hint Resolve keeps_ret keeps_throw keeps_lift keeps_sys keeps_disk keeps_time
  keeps_temporary keeps_host : keeps.

(** Go through a monadic program, splitting its case distinctions. *)
Ltac keeps_tac :=
  repeat first
    [ progress auto with keeps
    | apply keeps_bind; [|intros ?]
    | case_match ].

Section Provider.
Context {SHA : Sha256} {OF : HashOrder path DiskCacheFile} {OD : DirOrder} {Host : Type}
  (process_id : Z).
Local Abbreviation P := (io (PieceEnv Host) ProxyError.t).

Lemma keeps_sys_q {A} (m : FS A) : keeps (Host := Host) (sys_q m).
Proof. unfold sys_q. keeps_tac. Qed.
Hint Resolve keeps_sys_q : keeps.

Lemma keeps_read_disk d i m : keeps (Host := Host) (read_verified_disk_piece d i m).
Proof. unfold read_verified_disk_piece, touch_disk_piece. keeps_tac. Qed.
Lemma keeps_write_disk d i b : keeps (Host := Host) (write_verified_disk_piece process_id d i b).
Proof. unfold write_verified_disk_piece. keeps_tac. Qed.
Lemma keeps_refresh p : keeps (Host := Host) (refresh_disk_cache_timestamp p).
Proof. unfold refresh_disk_cache_timestamp. keeps_tac. Qed.

Lemma keeps_scan_files dir l : keeps (Host := Host) (scan_files dir l).
Proof. induction l as [|[n d] l IH]; cbn [scan_files]; keeps_tac. Qed.
Lemma keeps_scan_roots dir l : keeps (Host := Host) (scan_roots dir l).
Proof.
  induction l as [|[n d] l IH]; cbn [scan_roots]; keeps_tac; apply keeps_scan_files.
Qed.

Lemma keeps_evict fuel max : keeps (Host := Host) (evict_files fuel max).
Proof.
  induction fuel as [|fuel IH]; [done|]. intros e. cbn [evict_files].
  destruct (max <? total_bytes (pe_disk e)); [|done].
  destruct (min_by_key modified (files (pe_disk e))) as [p|]; [|done].
  match goal with |- pe_cache (?m e).2 = _ => assert (Hk : keeps m) by keeps_tac end. apply Hk.
Qed.
Lemma keeps_enforce root max w : keeps (Host := Host) (enforce_disk_cache_limit root max w).
Proof.
  unfold enforce_disk_cache_limit. apply keeps_bind.
  - intros e. unfold count_files. destruct (initialized (pe_disk e)).
    + destruct w as [p|]; [|done].
      match goal with |- pe_cache (?m e).2 = _ => assert (Hk : keeps m) by keeps_tac end. apply Hk.
    + match goal with |- pe_cache (?m e).2 = _ => assert (Hk : keeps m) end; [|apply Hk].
      keeps_tac; apply keeps_scan_roots.
  - intros [|]; [|done]. intros e. apply keeps_evict.
Qed.
Hint Resolve keeps_read_disk keeps_write_disk keeps_refresh keeps_enforce : keeps.

(** Everything in the cache has been verified. *)
Definition cache_ok (m : P2pPieceManifest) (c : VerifiedPieceCache) : Prop :=
  vp_ok c /\ forall i p, vp_entries c !! i = Some p -> verify_piece m i p = Ok tt.

Lemma keeps_bind_run {A B} (m : P A) (k : A -> P B) e r e' :
  keeps m -> (m ≫= k) e = (r, e') ->
  (exists err, r = Err err /\ pe_cache e' = pe_cache e)
  \/ exists a e1, m e = (Ok a, e1) /\ pe_cache e1 = pe_cache e /\ k a e1 = (r, e').
Proof.
  intros Hm E. specialize (Hm e). apply io_bind_inv in E as [(a & e1 & E1 & E2)|(err & E1 & ->)];
    rewrite E1 in Hm; simpl in Hm; [right|left]; eauto.
Qed.

Lemma insert_piece_ok m i piece (e : PieceEnv Host) r e' :
  cache_ok m (pe_cache e) -> verify_piece m i piece = Ok tt -> insert_piece i piece e = (r, e') ->
  cache_ok m (pe_cache e') /\ exists kept, r = Ok kept /\ verify_piece m i kept = Ok tt.
Proof.
  intros [Hc Hv] Hp. unfold insert_piece.
  destruct (piece_insert i piece (pe_cache e)) as [kept c] eqn:E. intros [= <- <-].
  apply piece_insert_ok in E as (Hc' & Hk & Hsub); [|done]. simpl. split.
  - split; [done|]. intros j p [Hj|[-> ->]]%Hsub; auto.
  - exists kept. split; [done|]. destruct Hk as [->|Hk]; auto.
Qed.

Lemma read_disk_verified d i m e piece e' :
  read_verified_disk_piece (Host := Host) d i m e = (Ok (Some piece), e') ->
  verify_piece m i piece = Ok tt.
Proof.
  unfold read_verified_disk_piece. unfold mbind at 1, io_bind at 1.
  destruct (sys (fs_read (piece_path d i)) e) as [[[bytes|error]|err] e1]; [| |discriminate].
  - destruct (verify_piece m i bytes) as [[]|err] eqn:Ev; simpl; cycle 1.
    { unfold mbind, io_bind. destruct (sys _ e1) as [[?|?] ?]; discriminate. }
    unfold mbind, io_bind. destruct (touch_disk_piece _ e1) as [[[]|?] e2]; [|discriminate].
    intros [= <- _]. done.
  - destruct (is_not_found error); discriminate.
Qed.

Lemma provider_verified m provider dir cache i (e : PieceEnv Host) r e' :
  cache_ok m (pe_cache e) ->
  cached_verified_provider process_id m provider dir cache i e = (r, e') ->
  cache_ok m (pe_cache e') /\ forall piece, r = Ok piece -> verify_piece m i piece = Ok tt.
Proof.
  intros Hc E. unfold cached_verified_provider in E. unfold mbind at 1, io_bind at 1, get in E.
  cbn beta iota in E. unfold piece_get in E.
  destruct (vp_entries (pe_cache e) !! i) as [p|] eqn:Ei.
  { injection E as <- <-. split; [done|]. intros ? [= <-]. by apply Hc. }
  apply keeps_bind_run in E as [(err & -> & He)|(on_disk & e1 & E1 & He1 & E)];
    [by rewrite He| |keeps_tac].
  destruct on_disk as [piece|].
  - assert (Hv : verify_piece m i piece = Ok tt).
    { destruct dir as [d|]; [by eapply read_disk_verified|]. by injection E1 as [=]. }
    apply keeps_bind_run in E as [(err & -> & He)|([] & e2 & _ & He2 & E)]; [by rewrite He, He1| |keeps_tac].
    apply (insert_piece_ok m) in E as (? & kept & -> & ?); [|by rewrite He2, He1|done].
    split; [done|]. by intros ? [= <-].
  - unfold fetch_piece in E.
    apply keeps_bind_run in E as [(err & -> & He)|(piece & e2 & _ & He2 & E)]; [by rewrite He, He1| |keeps_tac].
    apply keeps_bind_run in E as [(err & -> & He)|([] & e3 & Ev & He3 & E)];
      [by rewrite He, He2, He1| |keeps_tac].
    injection Ev as Ev _.
    apply keeps_bind_run in E as [(err & -> & He)|(w & e4 & _ & He4 & E)];
      [by rewrite He, He3, He2, He1| |keeps_tac].
    apply keeps_bind_run in E as [(err & -> & He)|([] & e5 & _ & He5 & E)];
      [by rewrite He, He4, He3, He2, He1| |keeps_tac].
    apply (insert_piece_ok m) in E as (? & kept & -> & ?); [|by rewrite He5, He4, He3, He2, He1|done].
    split; [done|]. by intros ? [= <-].
Qed.
End Provider.
