(* ===== verification/P2pClaims.v ===== *)
(** * The P2P registry as a whole: invariant, reads, verification, disk budget *)

From Stdlib Require Import Strings.Byte Strings.String.
From S2P Require Import Prelude Bytes Error External FileSystem Digest Eviction P2pManifest P2pManifestTheorems P2p P2pTheorems.

(** ** Programs that keep a property of the state, whatever they return *)

Definition preserves {St Er A} (I : St -> Prop) (m : io St Er A) : Prop :=
  forall s r s', I s -> m s = (r, s') -> I s'.

Lemma preserves_bind {St Er A B} (I : St -> Prop) (m : io St Er A) (k : A -> io St Er B) :
  preserves I m -> (forall a, preserves I (k a)) -> preserves I (m ≫= k).
Proof.
  intros Hm Hk s r s' HI [(a & s1 & E1 & E2)|(e & E1 & ->)]%io_bind_inv; [|by eapply Hm].
  eapply Hk; [|exact E2]. by eapply Hm.
Qed.
Lemma preserves_pure {St Er A} (I : St -> Prop) (r : result Er A) : preserves I (lift r).
Proof. by intros s r' s' HI [= <- <-]. Qed.

Section Registry.
Context {SHA : Sha256} {OF : HashOrder path DiskCacheFile} {OD : DirOrder} {Host : Type}
  (process_id : Z).
Local Abbreviation R := (P2pSourceRegistry Host).
Implicit Types r : R.

Lemma read_pieces_preserves {St} (I : St -> Prop) provider m start end_ count p out :
  (forall i, preserves I (provider i)) ->
  preserves I (read_pieces provider m start end_ count p out).
Proof.
  intros Hp. revert p out. induction count as [|count IH]; intros p out; cbn [read_pieces].
  - apply (preserves_pure I (Ok out)).
  - apply preserves_bind; [apply Hp|]. intros piece.
    apply preserves_bind; [apply preserves_pure|]. intros []. apply IH.
Qed.

Lemma read_verified_range_preserves {St} (I : St -> Prop) provider m start end_ :
  (forall i, preserves I (provider i)) -> preserves I (read_verified_range provider m start end_).
Proof.
  intros Hp. unfold read_verified_range. case_match; [apply (preserves_pure I (Err _))|].
  apply preserves_bind; [apply preserves_pure|]. intros len.
  case_match; [apply (preserves_pure I (Err _))|].
  apply preserves_bind; [by apply read_pieces_preserves|]. intros out.
  case_match; [apply (preserves_pure I (Err _))|apply (preserves_pure I (Ok _))].
Qed.

Lemma read_all_preserves (I : PieceEnv Host -> Prop) provider m l :
  (forall i, preserves I (provider i)) -> preserves I (read_all provider m l).
Proof.
  intros Hp. induction l as [|i l IH]; cbn [read_all]; [apply (preserves_pure I (Ok []))|].
  apply preserves_bind; [apply Hp|]. intros piece.
  apply preserves_bind; [apply preserves_pure|]. intros [].
  apply preserves_bind; [apply IH|]. intros others. apply (preserves_pure I (Ok _)).
Qed.

Lemma provider_preserves m provider dir cache i :
  preserves (fun e : PieceEnv Host => cache_ok m (pe_cache e))
    (cached_verified_provider process_id m provider dir cache i).
Proof. intros e r e' Hc E. by apply (provider_verified process_id m) in E as [? _]. Qed.

(** ** The invariant of the registry *)

Record reg_ok r : Prop := {
  ro_caches id s : pr_entries r !! id = Some s -> cache_ok (rp_manifest s) (rp_cache s);
  ro_lengths id s : pr_entries r !! id = Some s -> src_length (rp_source s) = content_length (rp_manifest s);
  ro_size : Z.of_nat (size (pr_entries r)) <= MAX_P2P_SOURCES;
  ro_next : 1 <= pr_next_id r <= u64_max;
}.

Definition set_rp_cache (c : VerifiedPieceCache) (s : RegisteredP2pSource Host) :
    RegisteredP2pSource Host :=
  mk_RegisteredP2pSource (rp_source s) (rp_manifest s) (rp_provider s) c (rp_disk_dir s)
    (rp_lifecycle s) (rp_invalid s).

(** The registry after work on the pieces of the source [id]. *)
Lemma on_source_run {A} id s (m : io (PieceEnv Host) ProxyError.t A) r a r' :
  on_source id s m r = (a, r') ->
  exists e', m (env_of (rp_cache s) r) = (a, e')
             /\ pr_entries r' = alter (set_rp_cache (pe_cache e')) id (pr_entries r)
             /\ pr_next_id r' = pr_next_id r /\ pr_disk_cache r' = pr_disk_cache r.
Proof.
  unfold on_source. destruct (m _) as [a0 e'] eqn:E. intros [= <- <-]. by exists e'.
Qed.

Lemma size_alter {A} (f : A -> A) (id : Z) (m : gmap Z A) : size (alter f id m) = size m.
Proof. by rewrite <- !size_dom, dom_alter_L. Qed.

Lemma on_source_ok {A} id s (m : io (PieceEnv Host) ProxyError.t A) r a r' :
  reg_ok r -> pr_entries r !! id = Some s ->
  preserves (fun e => cache_ok (rp_manifest s) (pe_cache e)) m ->
  on_source id s m r = (a, r') -> reg_ok r'.
Proof.
  intros Hr Hs Hm (e' & E & He & Hn & _)%on_source_run. split; rewrite ?He, ?Hn.
  - intros j t. rewrite lookup_alter_Some.
    intros [(<- & t0 & Ht0 & ->)|[_ Ht]]; [|by eapply ro_caches].
    simplify_eq. simpl. eapply Hm; [|exact E]. simpl. by eapply ro_caches.
  - intros j t. rewrite lookup_alter_Some. intros [(_ & t0 & Ht0 & ->)|[_ Ht]]; [simpl|]; by eapply ro_lengths.
  - rewrite size_alter. apply Hr.
  - apply Hr.
Qed.

Lemma on_pieces_entries {A} c (m : io (PieceEnv Host) ProxyError.t A) r a r' :
  on_pieces c m r = (a, r') ->
  pr_entries r' = pr_entries r /\ pr_next_id r' = pr_next_id r /\ pr_disk_cache r' = pr_disk_cache r.
Proof. unfold on_pieces. destruct (m _) as [a0 e']. by intros [= <- <-]. Qed.

Lemma reg_ok_same r r' :
  reg_ok r -> pr_entries r' = pr_entries r -> pr_next_id r' = pr_next_id r -> reg_ok r'.
Proof. intros [] He Hn. split; by rewrite ?He, ?Hn. Qed.

Lemma reg_ok_on_pieces {A} c (m : io (PieceEnv Host) ProxyError.t A) : preserves reg_ok (on_pieces c m).
Proof. intros r a r' Hr (? & ? & _)%on_pieces_entries. by eapply reg_ok_same. Qed.

Lemma exists_preserves p : preserves reg_ok (exists_ p).
Proof.
  apply preserves_bind; [apply reg_ok_on_pieces|]. intros stat. apply (preserves_pure _ (Ok _)).
Qed.

(** Entries of which every property the invariant speaks of is kept. *)
Lemma reg_ok_entries f r :
  (forall id s', f (pr_entries r) !! id = Some s' ->
     exists s, pr_entries r !! id = Some s /\ rp_manifest s' = rp_manifest s /\ rp_cache s' = rp_cache s
       /\ rp_source s' = rp_source s) ->
  reg_ok r -> reg_ok (set_entries f r).
Proof.
  intros Hf Hr. split; simpl; [| | |apply Hr].
  - intros id s' Hs'. destruct (Hf id s' Hs') as (s & Hs & -> & -> & _). by eapply ro_caches.
  - intros id s' Hs'. destruct (Hf id s' Hs') as (s & Hs & -> & _ & ->). by eapply ro_lengths.
  - pose proof (ro_size _ Hr). assert (Hd : dom (f (pr_entries r)) ⊆ dom (pr_entries r)).
    { intros i Hi. apply elem_of_dom in Hi as [s' Hs']. destruct (Hf _ _ Hs') as (s & Hs & _).
      apply elem_of_dom. eauto. }
    apply subseteq_size in Hd. rewrite !size_dom in Hd. lia.
Qed.

(** There is room for one more source. *)
Definition room r : Prop := reg_ok r /\ Z.of_nat (size (pr_entries r)) < MAX_P2P_SOURCES.

Lemma fetch_id_room : preserves room (fetch_id (Host := Host)).
Proof.
  intros r res r' [Hr Hs]. unfold fetch_id. destruct (_ =? _); intros [= <- <-]; [by split|].
  split; [|done]. destruct Hr as [Hc Hl Hz _]. split; simpl; [done|done|done|].
  pose proof (Z.mod_pos_bound (pr_next_id r + 1) (2 ^ 64) ltac:(lia)). lia.
Qed.

Lemma exists_room p : preserves room (exists_ p).
Proof.
  intros r res r' [Hr Hs] E. split; [by eapply exists_preserves|]. unfold exists_ in E.
  apply io_bind_inv in E as [(stat & r1 & E1 & [= _ <-])|(err & E1 & ->)];
    apply on_pieces_entries in E1 as [-> _]; done.
Qed.

Lemma empty_cache_ok m : cache_ok m pieces_empty.
Proof. split; [apply pieces_empty_ok|]. intros i p. simpl. by rewrite lookup_empty. Qed.

Lemma register_preserves source m provider : preserves reg_ok (register (Host := Host) source m provider).
Proof.
  unfold register. intros r res r' Hr.
  destruct (Z.eqb_spec (src_length source) (content_length m)) as [Hlen|]; [|by intros [= <- <-]]. simpl.
  unfold mbind at 1, io_bind at 1, get. cbn beta iota.
  destruct (Z.leb_spec MAX_P2P_SOURCES (Z.of_nat (size (pr_entries r)))) as [|Hsz]; [by intros [= <- <-]|].
  assert (Hroom : room r) by done. clear Hr Hsz.
  intros [(id & r1 & E1 & E)|(err & E1 & ->)]%io_bind_inv; apply (fetch_id_room _ _ _ Hroom) in E1;
    [|apply E1].
  assert (Hex : preserves room (match disk_dir_of source m r with
            | Some directory => exists_ (directory ++ [str ".invalid"])
            | None => mret false
            end)) by (case_match; [apply exists_room|apply (preserves_pure _ (Ok false))]).
  apply io_bind_inv in E as [(inv & r2 & E2 & E)|(err & E2 & ->)]; apply (Hex _ _ _ E1) in E2; [|apply E2].
  destruct inv; [by injection E as <- <-; apply E2|]. injection E as <- <-. destruct E2 as [Hr2 Hs2].
  split; simpl; [| | |apply Hr2].
  - intros j s [[<- <-]|[_ Hj]]%lookup_insert_Some; [apply empty_cache_ok|by eapply ro_caches].
  - intros j s [[<- <-]|[_ Hj]]%lookup_insert_Some; [done|by eapply ro_lengths].
  - rewrite map_size_insert. destruct (pr_entries r2 !! id); unfold Datatypes.id; lia.
Qed.

Lemma with_lease_preserves {A} (s : RegisteredP2pSource Host) (m : io R ProxyError.t A) (I : R -> Prop) :
  preserves I m -> preserves I (with_lease s m).
Proof. intros Hm. apply preserves_bind; [apply preserves_pure|]. by intros l. Qed.

Lemma read_range_unfold id start end_ r :
  read_range process_id id start end_ r
  = match pr_entries r !! id with
    | None => throw (ProxyError.Request (str "P2P source ID not found"))
    | Some entry =>
        if rp_invalid entry then
          throw (ProxyError.Request (str "P2P source failed complete integrity verification"))
        else
          with_lease entry
            (on_source id entry
               (read_verified_range (provider_of process_id r entry) (rp_manifest entry) start end_))
    end r.
Proof. done. Qed.

Lemma read_range_preserves id start end_ : preserves reg_ok (read_range (Host := Host) process_id id start end_).
Proof.
  intros r res r' Hr. rewrite read_range_unfold.
  destruct (pr_entries r !! id) as [s|] eqn:Es; [|by intros [= <- <-]].
  destruct (rp_invalid s); [by intros [= <- <-]|].
  intros [(l & r1 & [= _ <-] & E)|(err & E & ->)]%io_bind_inv; [|by injection E as _ <-].
  eapply on_source_ok; [exact Hr|exact Es| |exact E].
  apply read_verified_range_preserves. intros i. apply provider_preserves.
Qed.

Lemma set_invalid_keeps (s : RegisteredP2pSource Host) :
  rp_manifest (set_invalid s) = rp_manifest s /\ rp_cache (set_invalid s) = rp_cache s.
Proof. done. Qed.

Definition mark_directory (directory : path) (s : RegisteredP2pSource Host) : RegisteredP2pSource Host :=
  if bool_decide (rp_disk_dir s = Some directory) then set_invalid s else s.

Lemma reg_ok_alter_invalid id : preserves reg_ok (modify (E := ProxyError.t) (set_entries (Host := Host) (alter set_invalid id))).
Proof.
  intros r res r' Hr [= <- <-]. apply reg_ok_entries; [|done]. intros j s'. rewrite lookup_alter_Some.
  intros [(_ & s & Hs & ->)|[_ Hs]]; eauto.
Qed.
Lemma reg_ok_mark directory :
  preserves reg_ok (modify (E := ProxyError.t) (set_entries (Host := Host) (fmap (mark_directory directory)))).
Proof.
  intros r res r' Hr [= <- <-]. apply reg_ok_entries; [|done]. intros j s'. rewrite lookup_fmap_Some.
  intros (s & <- & Hs). exists s. unfold mark_directory. by case_bool_decide.
Qed.

Lemma invalidate_preserves id dir : preserves reg_ok (invalidate (Host := Host) id dir).
Proof.
  apply preserves_bind; [apply reg_ok_alter_invalid|]. intros [].
  destruct dir as [directory|]; [|apply (preserves_pure _ (Ok tt))].
  apply preserves_bind; [apply reg_ok_on_pieces|]. intros []. apply reg_ok_mark.
Qed.

Lemma persist_invalid_Ok directory (e : PieceEnv Host) :
  (persist_invalid_manifest directory e).1 = Ok tt.
Proof.
  unfold persist_invalid_manifest, sys, mbind, io_bind.
  destruct (fs_create_dir_all _ _) as [[[]|] s1]; [|done]. by destruct (fs_write _ _ _).
Qed.

(** Afterwards the source and those that share its directory are marked. *)
Lemma invalidate_marks id dir r :
  exists r', invalidate id dir r = (Ok tt, r')
    /\ forall id' s, pr_entries r !! id' = Some s ->
         id' = id \/ (is_Some dir /\ rp_disk_dir s = dir) ->
         exists s', pr_entries r' !! id' = Some s' /\ rp_invalid s' = true.
Proof.
  assert (Halter : forall id' s, pr_entries r !! id' = Some s ->
    exists s1, alter set_invalid id (pr_entries r) !! id' = Some s1
               /\ rp_disk_dir s1 = rp_disk_dir s /\ (id' = id -> rp_invalid s1 = true)).
  { intros id' s Hs. destruct (decide (id' = id)) as [->|Hne].
    - rewrite lookup_alter_eq, Hs. eexists. split; [reflexivity|done].
    - rewrite lookup_alter_ne by done. exists s. by split_and!. }
  unfold invalidate. unfold mbind at 1, io_bind at 1, modify at 1.
  destruct dir as [directory|]; cycle 1.
  { eexists. split; [reflexivity|]. intros id' s Hs [Hid|[[? ?] _]]; [|done].
    destruct (Halter id' s Hs) as (s1 & ? & _ & ?). eauto. }
  unfold mbind, io_bind. destruct (on_pieces _ _ _) as [res r1] eqn:E. pose proof E as E'.
  apply on_pieces_entries in E as [He _]. unfold on_pieces in E'.
  match type of E' with context [persist_invalid_manifest directory ?e] =>
    pose proof (persist_invalid_Ok directory e) as Hp end.
  destruct (persist_invalid_manifest _ _) as [a e1]. simpl in Hp. subst a. injection E' as <- _.
  eexists. split; [reflexivity|]. intros id' s Hs Hor. simpl. rewrite lookup_fmap.
  rewrite He. simpl. destruct (Halter id' s Hs) as (s1 & -> & Hd & Hi). simpl.
  eexists. split; [reflexivity|]. case_bool_decide as Hb; [done|].
  destruct Hor as [Hid|[_ Hdir]]; [by apply Hi|]. by rewrite Hd, Hdir in Hb.
Qed.

Lemma verify_complete_preserves id : preserves reg_ok (verify_complete (Host := Host) process_id id).
Proof.
  intros r res r' Hr. unfold verify_complete. unfold mbind at 1, io_bind at 1, get. cbn beta iota.
  destruct (pr_entries r !! id) as [s|] eqn:Es; [|by intros [= <- <-]].
  intros [(l & r1 & [= _ <-] & E)|(err & E & ->)]%io_bind_inv; [|by injection E as _ <-].
  assert (Hread : forall res r1, on_source id s (read_all (provider_of process_id r s) (rp_manifest s)
                    (seq 0 (length (piece_sha256 (rp_manifest s))))) r = (res, r1) -> reg_ok r1).
  { intros res1 r1 E1. eapply on_source_ok; [exact Hr|exact Es| |exact E1].
    apply read_all_preserves. intros i. apply provider_preserves. }
  apply io_bind_inv in E as [(content & r1 & E1 & E)|(err & E1 & ->)]; apply Hread in E1; [|done].
  case_bool_decide; [by injection E as _ <-|].
  revert E. apply preserves_bind; [apply invalidate_preserves| |done].
  intros []. apply (preserves_pure _ (Err _)).
Qed.

Lemma remove_preserves id : preserves reg_ok (remove (Host := Host) id).
Proof.
  intros r res r' Hr. unfold remove. unfold mbind at 1, io_bind at 1, get. cbn beta iota.
  destruct (pr_entries r !! id) as [s|] eqn:Es; [|by intros [= <- <-]].
  intros E. match type of E with ?m r = _ => assert (Hm : preserves reg_ok m) end; [|by eapply Hm].
  clear E. apply preserves_bind.
  { intros r1 ? r2 Hr1 [= _ <-]. apply reg_ok_entries; [|done]. intros j s'.
    rewrite lookup_delete_Some. intros [_ Hs']. eauto. }
  intros []. apply preserves_bind; [|intros []; apply (preserves_pure _ (Ok true))].
  destruct (rp_disk_dir s) as [directory|]; [|apply (preserves_pure _ (Ok tt))].
  intros r1 res1 r2 Hr1. unfold mbind at 1, io_bind at 1, get. cbn beta iota.
  case_match; [by intros [= <- <-]|]. intros E.
  match type of E with ?m r1 = _ => assert (Hm : preserves reg_ok m) end; [|by eapply Hm].
  apply preserves_bind; [apply reg_ok_on_pieces|]. intros [gone|]; [|apply (preserves_pure _ (Ok tt))].
  case_match; [apply reg_ok_on_pieces|apply (preserves_pure _ (Ok tt))].
Qed.

(** ** Reachable registries *)

Inductive p2p_step : R -> R -> Prop :=
| step_register source m provider res r r' :
    register source m provider r = (res, r') -> p2p_step r r'
| step_read_range id start end_ res r r' :
    read_range process_id id start end_ r = (res, r') -> p2p_step r r'
| step_verify_complete id res r r' :
    verify_complete process_id id r = (res, r') -> p2p_step r r'
| step_remove id res r r' : remove id r = (res, r') -> p2p_step r r'.

(** What a constructor makes, and what operations make of it. *)
Inductive p2p_reachable : R -> Prop :=
| reach_default s times tmp h : p2p_reachable (registry_default s times tmp h)
| reach_cache_limit root max_bytes now s times tmp h :
    p2p_reachable (with_cache_limit root max_bytes now s times tmp h)
| reach_step r r' : p2p_reachable r -> p2p_step r r' -> p2p_reachable r'.

Lemma p2p_reachable_ok r : p2p_reachable r -> reg_ok r.
Proof.
  induction 1 as [s times tmp h|root max_bytes now s times tmp h|r r' _ IH Hs].
  - split; simpl; [| |done|lia]; intros id e; by rewrite lookup_empty.
  - unfold with_cache_limit. destruct (cleanup_stale_disk_temps _ _ _) as [? e1].
    destruct (enforce_disk_cache_limit _ _ _ e1) as [? e2].
    split; simpl; [| |done|lia]; intros id e; by rewrite lookup_empty.
  - destruct Hs.
    + by eapply register_preserves.
    + by eapply read_range_preserves.
    + by eapply verify_complete_preserves.
    + by eapply remove_preserves.
Qed.

(** ** Complete reads *)

Lemma read_all_content (m : P2pPieceManifest) content provider n a e out e' :
  describes m content -> no_forgery m content -> (a + n <= length (piece_sha256 m))%nat ->
  read_all (Host := Host) provider m (seq a n) e = (Ok out, e') ->
  out = seg content (Z.min (Z.of_nat a * piece_length m) (content_length m))
          (Z.min (Z.of_nat (a + n) * piece_length m) (content_length m)).
Proof.
  intros Hd Hnf. pose proof (mo_piece _ (de_ok _ _ Hd)) as [Hp _].
  pose proof (mo_length _ (de_ok _ _ Hd)) as [Hl _].
  revert a e out e'. induction n as [|n IH]; intros a e out e' Hn; cbn [seq read_all].
  { intros [= <- _]. rewrite Nat.add_0_r. by rewrite seg_nil. }
  intros [(piece & e1 & _ & E)|(? & _ & ?)]%io_bind_inv; [|discriminate].
  apply io_bind_inv in E as [([] & e2 & [= Ev _] & E)|(? & _ & ?)]; [|discriminate].
  apply io_bind_inv in E as [(others & e3 & E3 & E)|(? & _ & ?)]; [|discriminate].
  injection E as <- _. apply (verify_piece_Ok m content Hd) in Ev as [Ha ->]; [|done].
  apply IH in E3; [|lia]. subst others. unfold piece_of, piece_end.
  pose proof (piece_count_bound m content Hd a Ha) as Hb.
  replace (Z.of_nat (S a)) with (Z.of_nat a + 1) by lia.
  rewrite (Z.min_l (Z.of_nat a * piece_length m)) by lia.
  replace (S a + n)%nat with (a + S n)%nat by lia. apply seg_app; nia.
Qed.

Lemma read_all_whole (m : P2pPieceManifest) content provider e out e' :
  describes m content -> no_forgery m content ->
  read_all (Host := Host) provider m (seq 0 (length (piece_sha256 m))) e = (Ok out, e') -> out = content.
Proof.
  intros Hd Hnf E. apply (read_all_content m content) in E; [|done|done|lia]. subst out.
  pose proof (mo_piece _ (de_ok _ _ Hd)) as [Hp _]. pose proof (mo_length _ (de_ok _ _ Hd)) as [Hl _].
  pose proof (mo_count _ (de_ok _ _ Hd)) as Hc. pose proof (de_length _ _ Hd) as Hlen.
  pose proof (Z.mul_succ_div_gt (content_length m + (piece_length m - 1)) (piece_length m) Hp) as Hdiv.
  rewrite <- Hc in Hdiv. simpl. unfold seg.
  rewrite (Z.min_l 0), (Z.min_r _ (content_length m)) by nia. simpl.
  rewrite drop_0. apply take_ge. lia.
Qed.

(** ** A truthful host *)

Lemma provider_honest (m : P2pPieceManifest) content provider (I : Host -> Prop) :
  describes m content -> no_forgery m content -> honest m content provider I ->
  honest m content (cached_verified_provider process_id m provider None None)
    (fun e => cache_ok m (pe_cache e) /\ I (pe_host e)).
Proof.
  intros Hd Hnf Hh i e [Hc HI] Hi. unfold cached_verified_provider.
  unfold mbind at 1, io_bind at 1, get. cbn beta iota. unfold piece_get.
  destruct (vp_entries (pe_cache e) !! i) as [p|] eqn:Ep.
  { apply Hc in Ep. apply (verify_piece_Ok m content Hd) in Ep as [_ ->]; [|done]. by exists e. }
  destruct (Hh i (pe_host e) HI Hi) as (h & Eh & HI').
  match goal with |- exists s1, ?l = _ /\ _ => change l with (fetch_piece process_id m provider None None i e) end.
  unfold fetch_piece, host_call. unfold mbind at 1, io_bind at 1. rewrite Eh. cbn beta iota.
  assert (Hv : verify_piece m i (piece_of m content (Z.of_nat i)) = Ok tt)
    by by apply (verify_piece_Ok m content Hd).
  unfold mbind at 1, io_bind at 1, lift. rewrite Hv. cbn beta iota.
  set (e1 := mk_PieceEnv _ _ _ _ _ h).
  match goal with |- exists s1, ?l = _ /\ _ =>
    change l with (insert_piece i (piece_of m content (Z.of_nat i)) e1) end.
  destruct (insert_piece i _ e1) as [r2 e2] eqn:E2. pose proof E2 as E3.
  apply (insert_piece_ok m) in E2 as (Hc2 & kept & -> & Hk); [|done|done].
  apply (verify_piece_Ok m content Hd) in Hk as [_ ->]; [|done].
  exists e2. split; [done|]. split; [done|].
  unfold insert_piece in E3. destruct (piece_insert _ _ _). by injection E3 as _ <-.
Qed.

(** ** Reads of a range *)

Lemma read_range_sound r id s content start end_ out r' :
  pr_entries r !! id = Some s -> describes (rp_manifest s) content -> no_forgery (rp_manifest s) content ->
  0 <= start -> is_u64 end_ -> read_range process_id id start end_ r = (Ok out, r') ->
  rp_invalid s = false /\ start <= end_ < content_length (rp_manifest s)
  /\ out = seg content start (end_ + 1).
Proof.
  intros Es Hd Hnf Hs He. rewrite read_range_unfold, Es. destruct (rp_invalid s); [done|].
  intros [(l & r1 & [= _ <-] & E)|(err & _ & ?)]%io_bind_inv; [|discriminate].
  apply on_source_run in E as (e' & E & _).
  destruct (read_verified_range_spec (rp_manifest s) content Hd (provider_of process_id r s)
    (fun _ => True) start end_ (env_of (rp_cache s) r) Hnf Hs He) as [Hsound _].
  by apply Hsound in E as (? & _ & ?).
Qed.

Lemma read_range_complete r id s content start end_ (I : Host -> Prop) :
  reg_ok r -> pr_entries r !! id = Some s ->
  describes (rp_manifest s) content -> no_forgery (rp_manifest s) content ->
  rp_invalid s = false -> 0 <= active (rp_lifecycle s) < u64_max ->
  rp_disk_dir s = None -> pr_disk_cache r = None ->
  0 <= start <= end_ -> end_ < content_length (rp_manifest s) -> end_ - start + 1 <= MAX_P2P_READ_BYTES ->
  honest (rp_manifest s) content (rp_provider s) I -> I (pr_host r) ->
  exists r', read_range process_id id start end_ r = (Ok (seg content start (end_ + 1)), r')
             /\ I (pr_host r').
Proof.
  intros Hr Es Hd Hnf Hinv Hact Hdir Hdisk Hs He Hlen Hh HI.
  assert (Hu : is_u64 end_) by (pose proof (mo_length _ (de_ok _ _ Hd)); unfold is_u64; lia).
  pose proof (provider_honest _ content _ I Hd Hnf Hh) as Hph.
  destruct (read_verified_range_spec (rp_manifest s) content Hd
    (cached_verified_provider process_id (rp_manifest s) (rp_provider s) None None)
    (fun e => cache_ok (rp_manifest s) (pe_cache e) /\ I (pe_host e)) start end_
    (env_of (rp_cache s) r) Hnf ltac:(lia) Hu) as [_ Hcompl].
  destruct (Hcompl ltac:(lia) Hlen Hph) as (e' & E & _ & HI').
  { split; [by eapply ro_caches|done]. }
  rewrite read_range_unfold, Es, Hinv. unfold with_lease, acquire, mbind, io_bind, lift.
  rewrite (proj2 (checked_add_Some _ 1 (active (rp_lifecycle s) + 1))) by lia. simpl.
  unfold on_source, provider_of. rewrite Hdir, Hdisk, E. eauto.
Qed.

(** A read changes nothing of a source but its cache. *)
Lemma read_range_entry r id s start end_ res r' :
  pr_entries r !! id = Some s -> read_range process_id id start end_ r = (res, r') ->
  pr_disk_cache r' = pr_disk_cache r
  /\ exists c, pr_entries r' !! id = Some (set_rp_cache c s).
Proof.
  intros Es. rewrite read_range_unfold, Es.
  assert (Hs : s = set_rp_cache (rp_cache s) s) by by destruct s.
  destruct (rp_invalid s); [intros [= <- <-]; rewrite Es, Hs; eauto|].
  intros [(l & r1 & [= _ <-] & E)|(err & [= _ <-] & ->)]%io_bind_inv; [|rewrite Es, Hs; eauto].
  apply on_source_run in E as (e' & _ & -> & _ & ->). split; [done|].
  exists (pe_cache e'). by rewrite lookup_alter_eq, Es.
Qed.

End Registry.

(** ** A registry with one source of six bytes *)

Module P2pRegistryDemo.
#[export] Instance demo_sha : Sha256 := P2pDemo.pad_sha.
#[export] Instance demo_files : HashOrder path DiskCacheFile := sorted_order path DiskCacheFile.
#[export] Instance demo_dirs : DirOrder := fun l => l.
Definition empty_fs : fs := mk_fs ∅ ∅ 0 ∅ [].
Definition source : AuthorizedP2pSource :=
  mk_AuthorizedP2pSource (str "c") 6 (sha256_hex P2pDemo.content) (str "a").
Definition liar : AuthorizedP2pSource :=
  mk_AuthorizedP2pSource (str "c") 6 (sha256_hex (str "other")) (str "a").
Definition start_ : P2pSourceRegistry nat := registry_default empty_fs [] 0 0%nat.
Definition registry : P2pSourceRegistry nat :=
  (register source P2pDemo.manifest P2pDemo.pieces start_).2.
(** The same with a declared digest that is not the content's. *)
Definition bad_registry : P2pSourceRegistry nat :=
  (register liar P2pDemo.manifest P2pDemo.pieces start_).2.
Definition entry (source : AuthorizedP2pSource) : RegisteredP2pSource nat :=
  mk_RegisteredP2pSource source P2pDemo.manifest P2pDemo.pieces pieces_empty None
    lifecycle_default false.
Definition verified : Result unit * P2pSourceRegistry nat := verify_complete 7 1 bad_registry.
End P2pRegistryDemo.

Module P2pClaims.
Section Claims.
Context {SHA : Sha256} {OF : HashOrder path DiskCacheFile} {OD : DirOrder} {Host : Type}
  (process_id : Z).
Implicit Types r : P2pSourceRegistry Host.

(** C35: in every reachable registry there are at most 1024 sources, and the
    memory cache of each holds at most 16 MiB, counts exactly the bytes it
    holds, lists each piece once in its eviction order, and contains only pieces
    that match the digests of the source's manifest. *)
Theorem piece_caches_bounded r :
  p2p_reachable process_id r ->
  Z.of_nat (size (pr_entries r)) <= MAX_P2P_SOURCES
  /\ forall id s, pr_entries r !! id = Some s ->
       vp_bytes (rp_cache s) = bytes_of (vp_entries (rp_cache s))
       /\ vp_bytes (rp_cache s) <= MAX_VERIFIED_PIECE_CACHE_BYTES
       /\ NoDup (vp_order (rp_cache s))
       /\ (forall i, i ∈ vp_order (rp_cache s) <-> is_Some (vp_entries (rp_cache s) !! i))
       /\ forall i p, vp_entries (rp_cache s) !! i = Some p -> verify_piece (rp_manifest s) i p = Ok tt.
Proof.
  intros Hr%p2p_reachable_ok. split; [apply Hr|]. intros id s Hs.
  destruct (ro_caches _ Hr id s Hs) as [[Hnd Hdom Hsum Hmax] Hv]. by split_and!.
Qed.

(** C10: reading a range of a registered source, in any reachable registry,
    yields exactly those bytes of the content its manifest describes or an error,
    whatever the host's provider, the piece files on disk and the failures of the
    file system are; with a truthful provider and no disk cache every range
    inside the content of at most 8 MiB is read; an unknown source and one
    that failed its complete verification are refused. *)
Theorem p2p_read_range_correct r id start end_ (content : list byte) :
  p2p_reachable process_id r -> 0 <= start -> is_u64 end_ ->
  match pr_entries r !! id with
  | None => is_ok (read_range process_id id start end_ r).1 = false
  | Some s =>
      describes (rp_manifest s) content -> no_forgery (rp_manifest s) content ->
      (forall out r', read_range process_id id start end_ r = (Ok out, r') ->
         rp_invalid s = false /\ start <= end_ < content_length (rp_manifest s)
         /\ out = seg content start (end_ + 1))
      /\ forall I : Host -> Prop,
           rp_invalid s = false -> active (rp_lifecycle s) < u64_max -> 0 <= active (rp_lifecycle s) ->
           rp_disk_dir s = None -> pr_disk_cache r = None ->
           start <= end_ < content_length (rp_manifest s) -> end_ - start + 1 <= MAX_P2P_READ_BYTES ->
           honest (rp_manifest s) content (rp_provider s) I -> I (pr_host r) ->
           exists r', read_range process_id id start end_ r = (Ok (seg content start (end_ + 1)), r')
                      /\ I (pr_host r')
  end.
Proof.
  intros Hr Hs He. destruct (pr_entries r !! id) as [s|] eqn:Es.
  - intros Hd Hnf. split; [intros out r' E; by eapply read_range_sound|].
    intros I Hinv Hact Hact0 Hdir Hdisk Hin Hlen Hh HI. apply (p2p_reachable_ok process_id) in Hr.
    by apply (read_range_complete process_id r id s content start end_ I); try done; lia.
  - by rewrite read_range_unfold, Es.
Qed.

(** The complete verification of a source succeeds only when the digest
    of the content its manifest describes is the declared one.  When the pieces
    can be read and the digest differs, it fails, and every later read of the
    source, and of every source that shares its directory of piece files, is
    refused. *)
Theorem verify_complete_correct r id s (content : list byte) res r' :
  pr_entries r !! id = Some s ->
  describes (rp_manifest s) content -> no_forgery (rp_manifest s) content ->
  verify_complete process_id id r = (res, r') ->
  (res = Ok tt -> sha256_hex content = src_sha256 (rp_source s))
  /\ (0 <= active (rp_lifecycle s) < u64_max ->
      is_ok (on_source id s (read_all (provider_of process_id r s) (rp_manifest s)
               (seq 0 (length (piece_sha256 (rp_manifest s))))) r).1 = true ->
      sha256_hex content <> src_sha256 (rp_source s) ->
      res = Err (ProxyError.Request (str "P2P complete content integrity check failed"))
      /\ forall id' s' start end_, pr_entries r !! id' = Some s' ->
           id' = id \/ (is_Some (rp_disk_dir s) /\ rp_disk_dir s' = rp_disk_dir s) ->
           read_range process_id id' start end_ r'
           = (Err (ProxyError.Request (str "P2P source failed complete integrity verification")), r')).
Proof.
  intros Es Hd Hnf. unfold verify_complete. unfold mbind at 1, io_bind at 1, get. cbn beta iota.
  rewrite Es. intros [(l & r1 & [= Ha <-] & E)|(err & E & ->)]%io_bind_inv; cycle 1.
  { split; [done|]. intros Hact. exfalso. injection E as E _. unfold acquire in E.
    by rewrite (proj2 (checked_add_Some _ 1 (active (rp_lifecycle s) + 1))) in E by lia. }
  apply io_bind_inv in E as [(out & r1 & E1 & E)|(err & E1 & ->)]; rewrite E1; [|done].
  apply on_source_run in E1 as (e' & E1 & He & _).
  apply (read_all_whole (rp_manifest s) content) in E1; [|done|done]. subst out.
  change (bytes_to_hex (sha256 content)) with (sha256_hex content) in E.
  case_bool_decide as Hsha; [injection E as <- _; by split|].
  destruct (invalidate_marks id (rp_disk_dir s) r1) as (r2 & E2 & Hmark).
  unfold mbind, io_bind in E. rewrite E2 in E. injection E as <- <-.
  split; [done|]. intros _ _ _. split; [done|]. intros id' s' start end_ Hs' Hor.
  assert (Hs1 : exists s1, pr_entries r1 !! id' = Some s1 /\ rp_disk_dir s1 = rp_disk_dir s').
  { rewrite He. destruct (decide (id' = id)) as [->|Hne].
    - rewrite lookup_alter_eq, Hs'. simpl. eauto.
    - rewrite lookup_alter_ne by done. eauto. }
  destruct Hs1 as (s1 & Hs1 & Hd1).
  destruct (Hmark id' s1 Hs1) as (s2 & Hs2 & Hinv); [rewrite Hd1; tauto|].
  rewrite read_range_unfold, Hs2, Hinv. done.
Qed.
End Claims.

Import P2pRegistryDemo.
Lemma reach_registry : p2p_reachable 7 registry.
Proof.
  eapply reach_step; [apply (reach_default 7 empty_fs [] 0 0%nat)|].
  eapply step_register. unfold registry. apply surjective_pairing.
Qed.

Lemma piece_caches_bounded_witness : Z.of_nat (size (pr_entries registry)) <= MAX_P2P_SOURCES.
Proof. apply (piece_caches_bounded 7 registry reach_registry). Defined.

Lemma p2p_read_range_correct_witness :
  exists r', read_range 7 1 2 4 registry = (Ok (str "cde"), r').
Proof.
  destruct (proj2 (p2p_read_range_correct 7 registry 1 2 4 P2pDemo.content reach_registry ltac:(lia)
    ltac:(split; vm_compute; discriminate) P2pDemo.manifest_describes P2pDemo.manifest_no_forgery)
    (fun _ => True)) as (r' & E & _); try (vm_compute; intuition congruence).
  - intros [|[|i]] calls _ Hi; [vm_compute; eauto..|]. simpl in Hi. lia.
  - exists r'. exact E.
Defined.

Lemma verify_complete_correct_witness : is_ok verified.1 = false /\ is_ok (read_range 7 1 0 5 verified.2).1 = false.
Proof.
  destruct (proj2 (@verify_complete_correct demo_sha demo_files demo_dirs nat 7 bad_registry 1 (entry liar) P2pDemo.content verified.1
    verified.2 eq_refl P2pDemo.manifest_describes P2pDemo.manifest_no_forgery (surjective_pairing _)))
    as [-> Hall]; [vm_compute; intuition congruence|vm_compute; reflexivity| |].
  - vm_compute. discriminate.
  - split; [done|]. by rewrite (Hall 1 (entry liar) 0 5 eq_refl (or_introl eq_refl)).
Defined.
End P2pClaims.
