(* ===== verification/P2pDisk.v ===== *)
(** * The disk cache of the P2P registry stays within its budget *)

From Stdlib Require Import Strings.Byte Strings.String.
From S2P Require Import Prelude Bytes Error External FileSystem Digest Eviction P2pManifest P2p.

(** ** The table of piece files *)

Definition files_size (m : gmap path DiskCacheFile) : Z := total_weight (fun _ f => file_size f) m.

(** The running total is the sum of the sizes. *)
Record disk_ok (d : DiskCacheState) : Prop := {
  dk_total : total_bytes d = files_size (files d);
  dk_max : total_bytes d <= u64_max;
  dk_sizes p f : files d !! p = Some f -> 0 <= file_size f;
}.

Lemma files_size_delete m (p : path) f :
  m !! p = Some f -> files_size (delete p m) = files_size m - file_size f.
Proof. apply (total_weight_delete (fun _ f => file_size f)). Qed.

Lemma files_size_nonneg m :
  (forall (p : path) f, m !! p = Some f -> 0 <= file_size f) -> 0 <= files_size m.
Proof. apply (total_weight_nonneg (fun _ f => file_size f)). Qed.

Lemma forget_file_ok p d :
  disk_ok d -> disk_ok (forget_file p d) /\ files (forget_file p d) = delete p (files d)
               /\ initialized (forget_file p d) = initialized d
               /\ total_bytes (forget_file p d) <= total_bytes d.
Proof.
  intros Hd. unfold forget_file. destruct (files d !! p) as [f|] eqn:Ef; cycle 1.
  { rewrite delete_id by done. split_and!; try done; lia. }
  pose proof (files_size_delete _ _ _ Ef) as Hdel. pose proof (dk_sizes _ Hd _ _ Ef).
  assert (Hs : forall q g, delete p (files d) !! q = Some g -> 0 <= file_size g).
  { intros q g [_ Hq]%lookup_delete_Some. by eapply dk_sizes. }
  pose proof (files_size_nonneg _ Hs). destruct Hd as [Ht Hm _].
  simpl. split_and!; [|done|done|unfold saturating_sub; lia].
  split; simpl; [unfold saturating_sub; lia|unfold saturating_sub; lia|done].
Qed.

Lemma remember_file_ok p f d :
  disk_ok d -> files d !! p = None -> 0 <= file_size f -> total_bytes d + file_size f <= u64_max ->
  disk_ok (remember_file p f d).
Proof.
  intros [Ht Hm Hs] Hp Hf Hb. unfold remember_file. split; simpl.
  - unfold files_size, saturating_add. rewrite total_weight_insert by done.
    fold (files_size (files d)). lia.
  - unfold saturating_add. lia.
  - intros q g [[_ <-]|[_ Hq]]%lookup_insert_Some; [done|by eapply Hs].
Qed.

(** ** The eviction loop *)

Section Disk.
Context {SHA : Sha256} {OF : HashOrder path DiskCacheFile} {OFL : HashOrderLaws path DiskCacheFile}
  {OD : DirOrder} {Host : Type}.
Implicit Types e : PieceEnv Host.

(** Removing a file: afterwards it is gone, unless the call failed. *)
Lemma fs_remove_run p s r s' :
  fs_remove p s = (r, s') ->
  names s' ⊆ names s /\ (faults s = [] -> faults s' = [] /\ forall err, r = Err err -> is_not_found err = true)
  /\ (is_ok r = true \/ (exists err, r = Err err /\ is_not_found err = true) -> names s' !! p = None).
Proof.
  unfold fs_remove, syscall, next_fault. destruct (faults s) as [|[|n|msg n] l] eqn:Ef.
  4: { intros [= <- <-]. split_and!; [done|done|]. intros [?|(err & [= <-] & ?)]; done. }
  all: simpl; destruct (names s !! p) as [i|] eqn:Ep; intros [= <- <-]; split_and!; simpl;
    try apply delete_subseteq; try done; rewrite ?lookup_delete_eq, ?Ep; try done.
  all: intros _; rewrite Ef; split; [done|]; intros err [= <-]; done.
Qed.

(** What the loop leaves of the table [m], the file system having been [s]. *)
Record evicted (max : Z) (d d' : DiskCacheState) (s s' : fs) : Prop := {
  ev_ok : disk_ok d';
  ev_init : initialized d' = initialized d;
  ev_old : oldest_gone modified (files d) (files d');
  ev_gone p f : files d !! p = Some f -> files d' !! p = None -> names s' !! p = None;
  ev_names : names s' ⊆ names s;
  ev_need : files d' = files d \/ exists p f, files d !! p = Some f /\ files d' !! p = None
            /\ max < total_bytes d' + file_size f;
}.

Lemma evicted_refl max d s : disk_ok d -> evicted max d d s s.
Proof. intros Hd. split; try done; [apply oldest_gone_refl|congruence|by left]. Qed.

(** One round and what follows it. *)
Lemma evicted_step max d d' s s1 s' p f :
  disk_ok d -> files d !! p = Some f ->
  (forall q g, files d !! q = Some g -> modified f <= modified g) ->
  max < total_bytes d -> names s1 ⊆ names s -> names s1 !! p = None ->
  evicted max (forget_file p d) d' s1 s' -> evicted max d d' s s'.
Proof.
  intros Hd Hp Hmin Hmax Hn1 Hgone [Hok Hinit [Hsub Hold] Hg Hn Hneed].
  destruct (forget_file_ok p d Hd) as (Hd1 & Hf & Hi & Hle). rewrite Hf in *.
  assert (Hsub' : files d' ⊆ files d) by (etrans; [exact Hsub|apply delete_subseteq]).
  assert (Hp' : files d' !! p = None).
  { destruct (files d' !! p) eqn:E; [|done]. eapply lookup_weaken in E; [|exact Hsub].
    by rewrite lookup_delete_eq in E. }
  split; [done|congruence| | |by etrans|].
  - split; [done|]. intros q g q' g' Hq Hq1 Hq2. destruct (decide (q = p)) as [->|Hne].
    + simplify_eq. eapply Hmin. by eapply lookup_weaken.
    + eapply Hold; try done. by rewrite lookup_delete_ne.
  - intros q g Hq Hq1. destruct (decide (q = p)) as [->|Hne].
    + destruct (names s' !! p) eqn:E; [|done]. eapply lookup_weaken in E; [|exact Hn]. congruence.
    + eapply Hg; [|done]. rewrite lookup_delete_ne by done. exact Hq.
  - right. destruct Hneed as [Heq|(q & g & Hq & Hq1 & Hlt)].
    + exists p, f. split_and!; [done|done|]. rewrite (dk_total _ Hok), Heq, (files_size_delete _ _ _ Hp).
      rewrite (dk_total _ Hd) in Hmax. lia.
    + apply lookup_delete_Some in Hq as [_ Hq]. eauto.
Qed.

Lemma evict_files_spec fuel max e r e' :
  (size (files (pe_disk e)) < fuel)%nat -> disk_ok (pe_disk e) -> 0 <= max ->
  evict_files fuel max e = (r, e') ->
  evicted max (pe_disk e) (pe_disk e') (pe_fs e) (pe_fs e')
  /\ (if is_ok r then total_bytes (pe_disk e') <= max else max < total_bytes (pe_disk e'))
  /\ (faults (pe_fs e) = [] -> r = Ok tt).
Proof using OFL.
  revert e. induction fuel as [|fuel IH]; intros e Hf Hd Hmax; [lia|]. cbn [evict_files].
  destruct (Z.ltb_spec max (total_bytes (pe_disk e))) as [Hlt|Hge]; cycle 1.
  { intros [= <- <-]. split_and!; try done. by apply evicted_refl. }
  destruct (min_by_key modified (files (pe_disk e))) as [p|] eqn:Em; cycle 1.
  { intros [= <- <-]. apply min_by_key_None in Em.
    pose proof (dk_total _ Hd) as Ht. rewrite Em in Ht. unfold files_size in Ht.
    rewrite total_weight_empty in Ht. lia. }
  apply min_by_key_Some in Em as (f & Hp & Hmin).
  assert (Hsz : (size (delete p (files (pe_disk e))) < size (files (pe_disk e)))%nat).
  { rewrite map_size_delete_Some by eauto.
    assert (size (files (pe_disk e)) <> 0%nat); [|lia].
    intros Hz%map_size_empty_inv. by rewrite Hz, lookup_empty in Hp. }
  destruct (forget_file_ok p _ Hd) as (Hd1 & Hfiles & _).
  unfold sys. unfold mbind at 1, io_bind at 1.
  destruct (fs_remove p (pe_fs e)) as [rr s1] eqn:Er. apply fs_remove_run in Er as (Hn & Hfl & Hg).
  set (e1 := mk_PieceEnv (pe_cache e) (pe_disk e) s1 (pe_times e) (pe_tmp e) (pe_host e)).
  assert (Hgo : is_ok rr = true \/ (exists err, rr = Err err /\ is_not_found err = true) ->
    evict_files fuel max (set_disk (forget_file p) e1) = (r, e') ->
    evicted max (pe_disk e) (pe_disk e') (pe_fs e) (pe_fs e')
    /\ (if is_ok r then total_bytes (pe_disk e') <= max else max < total_bytes (pe_disk e'))
    /\ (faults (pe_fs e) = [] -> r = Ok tt)).
  { intros Hrr E. apply IH in E as (Hev & Hok & Hnf); [|simpl; rewrite Hfiles; lia|done|done].
    simpl in *. split_and!; [|done|intros Hl; apply Hnf, (Hfl Hl)].
    eapply evicted_step; try done. by apply Hg. }
  destruct rr as [[]|err]; [apply Hgo; by left|].
  destruct (is_not_found err) eqn:Enf; [apply Hgo; eauto|].
  intros [= <- <-]. simpl. split_and!; [|done|].
  - split; simpl; try done; [apply oldest_gone_refl|congruence|by left].
  - intros Hl. destruct (Hfl Hl) as [_ Hnf]. by rewrite (Hnf err eq_refl) in Enf.
Qed.

(** Counting the file just written, when the table has been filled. *)
Lemma count_written root p content e r e1 :
  initialized (pe_disk e) = true ->
  (names (pe_fs e) !! p ≫= fun i => inodes (pe_fs e) !! i) = Some content ->
  count_files root (Some p) e = (r, e1) ->
  (faults (pe_fs e) = [] -> is_ok r = true /\ faults (pe_fs e1) = [])
  /\ match r with
     | Err _ => pe_disk e1 = pe_disk e
     | Ok more =>
         more = true
         /\ pe_disk e1 = remember_file p (mk_DiskCacheFile (List.hd 0 (pe_times e)) (blen content))
                           (forget_file p (pe_disk e))
     end.
Proof.
  intros Hi Hc. unfold count_files. rewrite Hi. unfold sys_q, sys, fs_stat, syscall, next_fault.
  unfold mbind, io_bind in *.
  destruct (faults (pe_fs e)) as [|[|n|msg n] l] eqn:Ef; simpl; rewrite ?Hc; intros [= <- <-]; simpl;
    by rewrite ?Ef.
Qed.
End Disk.

Module P2pDiskDemo.
#[export] Instance demo_files : HashOrder path DiskCacheFile := sorted_order path DiskCacheFile.
#[export] Instance demo_files_laws : HashOrderLaws path DiskCacheFile := sorted_order_laws path DiskCacheFile.
#[export] Instance demo_dirs : DirOrder := fun l => l.
Definition old_file : path := [str "r"; str "a"; str "0.piece"].
Definition new_file : path := [str "r"; str "a"; str "1.piece"].
(** Two files of three bytes, of which only the older is counted yet. *)
Definition env : PieceEnv unit :=
  mk_PieceEnv pieces_empty
    (mk_DiskCacheState true 3 {[ old_file := mk_DiskCacheFile 10 3 ]})
    (mk_fs {[ old_file := 0%nat; new_file := 1%nat ]} {[ 0%nat := str "abc"; 1%nat := str "def" ]} 2 ∅ [])
    [20] 0 tt.
Lemma env_ok : disk_ok (pe_disk env).
Proof.
  split; [reflexivity|vm_compute; discriminate|].
  intros p f. simpl. intros [<- <-]%lookup_singleton_Some. simpl. lia.
Qed.
End P2pDiskDemo.

Module P2pDiskClaims.
(** C36: after a piece has been written, enforcing the limit of the disk cache
    ends; the new file is counted, files are removed oldest first and only while
    the budget is exceeded, a removed file is no longer in the file system, and
    the running total stays the sum of the sizes that are left.  When it
    succeeds this sum is within the budget, and it does succeed when no call of
    the file system fails; when it fails after counting, the budget may be
    exceeded but the table is still exact. *)
Theorem disk_cache_limited {OF : HashOrder path DiskCacheFile} {OFL : HashOrderLaws path DiskCacheFile}
    {OD : DirOrder} {Host : Type} (root : path) (max : Z) (p : path) (content : list byte)
    (e : PieceEnv Host) r e' :
  initialized (pe_disk e) = true -> disk_ok (pe_disk e) -> 0 <= max ->
  (names (pe_fs e) !! p ≫= fun i => inodes (pe_fs e) !! i) = Some content ->
  total_bytes (pe_disk e) + blen content <= u64_max ->
  enforce_disk_cache_limit root max (Some p) e = (r, e') ->
  disk_ok (pe_disk e')
  /\ (is_ok r = false -> files (pe_disk e') = files (pe_disk e) \/ max < total_bytes (pe_disk e'))
  /\ (r = Ok tt ->
      files_size (files (pe_disk e')) <= max
      /\ let counted := <[p := mk_DiskCacheFile (List.hd 0 (pe_times e)) (blen content)]>
                          (files (pe_disk e)) in
         oldest_gone modified counted (files (pe_disk e'))
         /\ (forall q f, counted !! q = Some f -> files (pe_disk e') !! q = None ->
               names (pe_fs e') !! q = None)
         /\ (files (pe_disk e') = counted
             \/ exists q f, counted !! q = Some f /\ files (pe_disk e') !! q = None
                  /\ max < files_size (files (pe_disk e')) + file_size f))
  /\ (faults (pe_fs e) = [] -> r = Ok tt).
Proof.
  intros Hi Hd Hmax Hc Hb. unfold enforce_disk_cache_limit, mbind, io_bind.
  destruct (count_files root (Some p) e) as [rc e1] eqn:Ec.
  apply (count_written root p content) in Ec as [Hnf Hc1]; [|done|done].
  destruct rc as [more|err]; cycle 1.
  { intros [= <- <-]. rewrite Hc1. split_and!; [done|by left|done|].
    intros Hl. by destruct (Hnf Hl). }
  destruct Hc1 as [-> Hdisk]. destruct (forget_file_ok p _ Hd) as (Hd0 & Hf0 & _ & Hle).
  assert (Hd1 : disk_ok (pe_disk e1)).
  { rewrite Hdisk. apply remember_file_ok; simpl; [done| |unfold blen; lia|lia].
    rewrite Hf0. apply lookup_delete_eq. }
  intros E. apply evict_files_spec in E as (Hev & Hok & Hnf2); [|lia|done|done].
  assert (Hfiles : files (pe_disk e1)
    = <[p := mk_DiskCacheFile (List.hd 0 (pe_times e)) (blen content)]> (files (pe_disk e))).
  { rewrite Hdisk. simpl. rewrite Hf0. apply insert_delete_eq. }
  destruct Hev as [Hok' _ Hold Hgone _ Hneed]. rewrite Hfiles in Hold, Hgone, Hneed.
  split_and!; [done| |intros Hr|intros Hl; apply Hnf2, (Hnf Hl)].
  - intros Hr. right. by rewrite Hr in Hok.
  - rewrite <- (dk_total _ Hok'). split_and!; [by rewrite Hr in Hok|done|done|done].
Qed.

Import P2pDiskDemo.
Lemma disk_cache_limited_witness :
  is_ok (enforce_disk_cache_limit [str "r"] 4 (Some new_file) env).1 = true.
Proof.
  destruct (disk_cache_limited [str "r"] 4 new_file (str "def") env _ _
    eq_refl env_ok ltac:(lia) eq_refl ltac:(vm_compute; discriminate)
    (surjective_pairing _)) as (_ & _ & _ & ->); reflexivity.
Defined.
End P2pDiskClaims.
