(* ===== verification/RequestHandler.v ===== *)
(** * The request handler ([request_handler.rs])

    One request of a client, from its method to the response: routing, the
    resolution of registered sources, the one retry after an expired
    authorization, and the semaphore that limits the responses in progress; and
    the counters of [metrics.rs] it shares with the server.

    What serves the media (the data source manager and the playlist handler)
    is reached through the class [MediaSources]; both may change the registry of
    sources, and so may the requests that run meanwhile, which their operations
    include. *)

From Stdlib Require Import Strings.Byte Strings.String.
From S2P Require Import Prelude Bytes Error External Headers Range DataRequest SourceRegistry Storage NetSource Response FileSystem P2pManifest P2p.

(** ** Runtime metrics ([metrics.rs])

    Five counters, updated by atomic additions that wrap at 64 bits. *)

Record RuntimeMetrics : Type := mk_RuntimeMetrics {
  requests : Z;
  active_requests : Z;
  request_errors : Z;
  response_bytes : Z;
  authorization_refreshes : Z;
}.
Definition metrics_default : RuntimeMetrics := mk_RuntimeMetrics 0 0 0 0 0.

(** [AtomicU64::fetch_add] and [fetch_sub]. *)
Definition wrap64 (n : Z) : Z := n mod 2 ^ 64.

(** The guard that is returned gives the request back when it is dropped. *)
Definition begin_request (m : RuntimeMetrics) : RuntimeMetrics :=
  mk_RuntimeMetrics (wrap64 (requests m + 1)) (wrap64 (active_requests m + 1)) (request_errors m)
    (response_bytes m) (authorization_refreshes m).
Definition drop_active (m : RuntimeMetrics) : RuntimeMetrics :=
  mk_RuntimeMetrics (requests m) (wrap64 (active_requests m - 1)) (request_errors m)
    (response_bytes m) (authorization_refreshes m).
Definition record_request_error (m : RuntimeMetrics) : RuntimeMetrics :=
  mk_RuntimeMetrics (requests m) (active_requests m) (wrap64 (request_errors m + 1))
    (response_bytes m) (authorization_refreshes m).
Definition record_response_bytes (bytes : Z) (m : RuntimeMetrics) : RuntimeMetrics :=
  mk_RuntimeMetrics (requests m) (active_requests m) (request_errors m)
    (wrap64 (response_bytes m + bytes)) (authorization_refreshes m).
Definition record_authorization_refresh (m : RuntimeMetrics) : RuntimeMetrics :=
  mk_RuntimeMetrics (requests m) (active_requests m) (request_errors m) (response_bytes m)
    (wrap64 (authorization_refreshes m + 1)).

Record MetricsSnapshot : Type := mk_MetricsSnapshot {
  snap_requests : Z;
  snap_active_requests : Z;
  snap_request_errors : Z;
  snap_response_bytes : Z;
  snap_authorization_refreshes : Z;
}.
Definition snapshot (m : RuntimeMetrics) : MetricsSnapshot :=
  mk_MetricsSnapshot (requests m) (active_requests m) (request_errors m) (response_bytes m)
    (authorization_refreshes m).

Lemma wrap64_small n : 0 <= n <= u64_max -> wrap64 n = n.
Proof. intros Hn. unfold wrap64. apply Z.mod_small. lia. Qed.

(** ** Paths *)

Definition parse_media_path (path : text) : Result (option Z) :=
  match strip_prefix (str "/media/") path with
  | None => Ok None
  | Some id =>
      if bool_decide (id = []) || existsb (fun b => bool_decide (b = x2f)) id then
        Err (ProxyError.Request (str "registered media path is invalid"))
      else
        match parse_u64 id with
        | Some n =>
            if n =? 0 then Err (ProxyError.Request (str "registered media ID is invalid"))
            else Ok (Some n)
        | None => Err (ProxyError.Request (str "registered media ID is invalid"))
        end
  end.

Definition validate_method (m : text) : Result unit :=
  if bool_decide (m = str "GET") || bool_decide (m = str "HEAD") then Ok tt
  else Err ProxyError.MethodNotAllowed.

Definition parse_numeric_path_part (value : option text) (label : text) : Result Z :=
  let value := from_option id [] value in
  let error := ProxyError.Request (str "librqbit " ++ label ++ str " ID is invalid") in
  if bool_decide (value = []) || negb (forallb is_digit value) then Err error
  else ok_or (parse_u64 value) error.

Definition parse_torrent_path (path : text) : Result (Z * Z) :=
  rest ← ok_or (strip_prefix (str "/torrent/") path)
           (ProxyError.Request (str "librqbit path is invalid"));
  let parts := split x2f rest in
  torrent_id ← parse_numeric_path_part (head parts) (str "torrent");
  file_id ← parse_numeric_path_part (parts !! 1%nat) (str "file");
  if bool_decide (is_Some (parts !! 2%nat)) then
    Err (ProxyError.Request (str "librqbit path is invalid"))
  else Ok (torrent_id, file_id).

(** ** What the handler is built from *)

Local Abbreviation IO St := (io St ProxyError.t).

(** The two sources of media.  [Bd] is what they return as a body. *)
Class MediaSources (St Bd : Type) : Type := {
  process_request : DataRequest -> IO (SourceRegistry * St) (Response Bd);
  process_head : DataRequest -> IO (SourceRegistry * St) (Response Bd);
  handle_m3u8 : text -> IO (SourceRegistry * St) text;
}.

(** The backend for torrents: the ids and lengths of the files of a torrent,
    and a read of [length] bytes at [offset]. *)
Class RqbitBackend (Bk : Type) : Type := {
  rq_files : Z -> IO Bk (list (Z * Z));
  rq_read_file_range : Z -> Z -> Z -> Z -> IO Bk (list byte);
}.

(** The body of a response. *)
Inductive AppBody (Bd : Type) : Type :=
| NoBody
| Content (content : list byte)
| Media (body : Bd)
| P2pStream (id start end_ : Z)
| TorrentStream (torrent_id file_id start end_ : Z).
Arguments NoBody {Bd}.
Arguments Content {Bd}.
Arguments Media {Bd}.
Arguments P2pStream {Bd}.
Arguments TorrentStream {Bd}.

Record RequestHandler (St Bk Host : Type) : Type := mk_RequestHandler {
  rh_sources : St;
  rh_permits : Z;
  rh_registry : SourceRegistry;
  rh_metrics : RuntimeMetrics;
  rh_p2p : P2pSourceRegistry Host;
  rh_backend : option Bk;
}.
Arguments mk_RequestHandler {St Bk Host}.
Arguments rh_sources {St Bk Host}.
Arguments rh_permits {St Bk Host}.
Arguments rh_registry {St Bk Host}.
Arguments rh_metrics {St Bk Host}.
Arguments rh_p2p {St Bk Host}.
Arguments rh_backend {St Bk Host}.

Section Handler.
Context {UP : UrlParser} {HT : HeaderText} {UR : UriParser} {ON : HashOrder Z RegisteredSource}
  {St Bd Bk Host : Type} {MS : MediaSources St Bd} {RB : RqbitBackend Bk}.
Local Abbreviation RH := (RequestHandler St Bk Host).
Local Abbreviation H := (IO RH).
Local Abbreviation Resp := (Response (AppBody Bd)).

Definition with_limit (sources : St) (max_concurrent_requests : Z) (registry : SourceRegistry)
    (metrics : RuntimeMetrics) (p2p : P2pSourceRegistry Host) : RH :=
  mk_RequestHandler sources (Z.max max_concurrent_requests 1) registry metrics p2p None.
Definition set_rqbit_backend (b : Bk) (h : RH) : RH :=
  mk_RequestHandler (rh_sources h) (rh_permits h) (rh_registry h) (rh_metrics h) (rh_p2p h) (Some b).

Definition set_permits (f : Z -> Z) (h : RH) : RH :=
  mk_RequestHandler (rh_sources h) (f (rh_permits h)) (rh_registry h) (rh_metrics h) (rh_p2p h)
    (rh_backend h).
Definition set_metrics (f : RuntimeMetrics -> RuntimeMetrics) (h : RH) : RH :=
  mk_RequestHandler (rh_sources h) (rh_permits h) (rh_registry h) (f (rh_metrics h)) (rh_p2p h)
    (rh_backend h).
Definition on_sources {A} (m : IO (SourceRegistry * St) A) : H A := fun h =>
  let '(r, (reg, s)) := m (rh_registry h, rh_sources h) in
  (r, mk_RequestHandler s (rh_permits h) reg (rh_metrics h) (rh_p2p h) (rh_backend h)).
Definition on_registry {A} (m : IO SourceRegistry A) : H A := fun h =>
  let '(r, reg) := m (rh_registry h) in
  (r, mk_RequestHandler (rh_sources h) (rh_permits h) reg (rh_metrics h) (rh_p2p h) (rh_backend h)).
Definition on_backend {A} (m : IO Bk A) (b : Bk) : H A := fun h =>
  let '(r, b') := m b in (r, set_rqbit_backend b' h).

(** ** Media requests *)

Definition media_response (r : Response Bd) : Resp :=
  mk_Response (resp_status r) (resp_headers r) (Media (resp_body r)).

Definition playlist_headers : HeaderMap :=
  [(CONTENT_TYPE, str "application/vnd.apple.mpegurl"); (CACHE_CONTROL, str "no-cache")].

Definition dispatch_data_request (req : DataRequest) (is_head : bool) : H Resp :=
  match is_head, request_type req with
  | true, M3u8 =>
      content ← on_sources (handle_m3u8 (DataRequest.url req));
      mret (mk_Response 200
              (happend CONTENT_LENGTH (format_u64 (Z.of_nat (length content))) playlist_headers)
              NoBody)
  | true, _ => r ← on_sources (process_head req); mret (media_response r)
  | false, M3u8 =>
      content ← on_sources (handle_m3u8 (DataRequest.url req));
      mret (mk_Response 200 playlist_headers (Content content))
  | false, _ => r ← on_sources (process_request req); mret (media_response r)
  end.

Definition full_content_if_no_range_requested (r : Resp) (req : DataRequest) : Resp :=
  if client_sent_range req || negb (resp_status r =? 206) then r
  else mk_Response 200 (hinsert ACCEPT_RANGES (str "bytes") (hremove CONTENT_RANGE (resp_headers r)))
         (resp_body r).

Definition missing_source : ProxyError.t :=
  ProxyError.Request (str "registered media source does not exist").

Definition resolve_source (id : Z) : H RegisteredSource := fun h =>
  (ok_or (resolve (rh_registry h) id) missing_source, h).

(** The request for the upstream that the client's request names. *)
Definition make_data_request (req : Request) : H DataRequest :=
  media ← lift (parse_media_path (uri_path (uri req)));
  match media with
  | Some id =>
      source ← resolve_source id;
      lift (from_registered_source req id source)
  | None => lift (DataRequest.new req)
  end.

(** The authorization of a registered source is refreshed and the request
    sent once more. *)
Definition retry_refreshed (req : Request) (data_request : DataRequest) (source_id : Z)
    (is_head : bool) : H Resp :=
  _ ← on_registry (refresh_from_provider_if_current source_id (DataRequest.url data_request));
  _ ← modify (set_metrics record_authorization_refresh);
  source ← resolve_source source_id;
  refreshed ← lift (from_registered_source req source_id source);
  r ← attempt (dispatch_data_request refreshed is_head);
  match r with
  | Ok response => mret response
  | Err error => throw (ProxyError.with_source_id error (Some source_id))
  end.

Definition serve_media (req : Request) (is_head : bool) : H Resp :=
  data_request ← make_data_request req;
  r ← attempt (dispatch_data_request data_request is_head);
  response ←
    match r, source_id data_request with
    | Ok response, _ => mret response
    | Err (ProxyError.UpstreamAuthorizationExpired _), Some source_id =>
        retry_refreshed req data_request source_id is_head
    | Err error, id => throw (ProxyError.with_source_id error id)
    end;
  mret (full_content_if_no_range_requested response data_request).

(** ** Ranges of content of known length: P2P sources and torrents *)

Definition requested_range (req : Request) (total : Z) : Result (Z * Z) :=
  '(start, requested_end) ←
    match hget RANGE (headers req) with
    | Some value =>
        value ← header_to_str value;
        spec ← parse_range_spec value;
        endpoints spec (Some total)
    | None => Ok (0, OPEN_ENDED)
    end;
  resolve_range start requested_end (Some total).

Definition range_response (req : Request) (start end_ total : Z) (body : AppBody Bd) : Resp :=
  let ranged := contains_key RANGE (headers req) in
  let hs := [(ACCEPT_RANGES, str "bytes"); (CONTENT_LENGTH, format_u64 (end_ - start + 1))] in
  mk_Response (if ranged then 206 else 200)
    (if ranged then
       happend CONTENT_RANGE
         (str "bytes " ++ format_u64 start ++ str "-" ++ format_u64 end_ ++ str "/" ++ format_u64 total) hs
     else hs)
    body.

Definition handle_p2p (req : Request) (is_head : bool) : H Resp := fun h =>
  let raw_id := from_option id [] (strip_prefix (str "/p2p/") (uri_path (uri req))) in
  (if bool_decide (raw_id = []) || existsb (fun b => bool_decide (b = x2f)) raw_id
      || negb (forallb is_digit raw_id)
   then Err (ProxyError.Request (str "P2P source ID is invalid"))
   else
     id ← ok_or (parse_u64 raw_id)
            (ProxyError.from_parse_int (str "number too large to fit in target type"));
     total ← ok_or (p2p_content_length id (rh_p2p h))
               (ProxyError.Request (str "P2P source ID not found"));
     '(start, end_) ← requested_range req total;
     Ok (range_response req start end_ total
           (if is_head then NoBody else P2pStream id start end_)),
   h).

Definition find_file (file_id : Z) (files : list (Z * Z)) : option (Z * Z) :=
  List.find (fun f => f.1 =? file_id) files.

Definition handle_torrent (req : Request) (is_head : bool) : H Resp :=
  '(torrent_id, file_id) ← lift (parse_torrent_path (uri_path (uri req)));
  h ← get;
  match rh_backend h with
  | None => throw (ProxyError.Request (str "librqbit backend is not configured"))
  | Some backend =>
      files ← on_backend (rq_files torrent_id) backend;
      file ← lift (ok_or (find_file file_id files)
                     (ProxyError.Request (str "librqbit file ID not found")));
      let total := file.2 in
      '(start, end_) ← lift (requested_range req total);
      mret (range_response req start end_ total
              (if is_head then NoBody else TorrentStream torrent_id file_id start end_))
  end.

(** ** The request *)

(** Everything between taking the permit and handing it to the body. *)
Definition serve (req : Request) : H Resp :=
  let is_head := bool_decide (method req = str "HEAD") in
  if starts_with (str "/torrent/") (uri_path (uri req)) then handle_torrent req is_head
  else if starts_with (str "/p2p/") (uri_path (uri req)) then handle_p2p req is_head
  else serve_media req is_head.

(** [Pending]: all permits are taken; the request waits. *)
Inductive handled : Type :=
| Pending
| Done (r : Result Resp).

(** A response that is returned keeps its permit ([guard_response]); one
    that is not gives it back. *)
Definition handle_request (req : Request) (h : RH) : handled * RH :=
  match validate_method (method req) with
  | Err error => (Done (Err error), h)
  | Ok _ =>
      if rh_permits h <=? 0 then (Pending, h)
      else
        match serve req (set_permits (fun n => n - 1) h) with
        | (Ok response, h') => (Done (Ok response), h')
        | (Err error, h') => (Done (Err error), set_permits (fun n => n + 1) h')
        end
  end.
(** The body is dropped ([PermitBody]). *)
Definition drop_response (h : RH) : RH := set_permits (fun n => n + 1) h.

(** ** The streams *)

Definition STREAM_CHUNK : Z := 8 * 1024 * 1024.

(** [unfold]: the chunks of a range.  Each round moves [current] past what it
    read, so the length of the range is enough fuel. *)
Fixpoint stream_ranges (fuel : nat) (current end_ : Z) : list (Z * Z) :=
  match fuel with
  | O => []
  | S fuel' =>
      if end_ <? current then []
      else
        let chunk_end := Z.min end_ (saturating_add current (STREAM_CHUNK - 1)) in
        (current, chunk_end) :: stream_ranges fuel' (saturating_add chunk_end 1) end_
  end.
Definition ranges_of (start end_ : Z) : list (Z * Z) :=
  stream_ranges (Z.to_nat (end_ - start + 1)) start end_.

(** How the blocking task of a chunk ended.  A task that is given up still
    runs to its end. *)
Inductive task_end : Type := Joined | TimedOut | Panicked.

Context {SHA : Sha256} {OF : HashOrder path DiskCacheFile} {OD : DirOrder} (process_id : Z).

Definition read_p2p_chunk (how : task_end) (id start end_ : Z) :
    IO (P2pSourceRegistry Host) (list byte) := fun reg =>
  let '(r, reg) := read_range process_id id start end_ reg in
  (match how with
   | Joined => r
   | TimedOut => Err (ProxyError.Network (str "P2P provider timed out"))
   | Panicked => Err (ProxyError.Storage (str "P2P provider task failed"))
   end, reg).

(** The client reads the body to its end or to its first error. *)
Fixpoint read_chunks (ends : list task_end) (id : Z) (ranges : list (Z * Z))
    (reg : P2pSourceRegistry Host) : stream * P2pSourceRegistry Host :=
  match ranges with
  | [] => ([], reg)
  | (start, end_) :: ranges' =>
      match read_p2p_chunk (List.hd Joined ends) id start end_ reg with
      | (Ok chunk, reg) =>
          let '(rest, reg) := read_chunks (List.tl ends) id ranges' reg in (Ok chunk :: rest, reg)
      | (Err error, reg) => ([Err error], reg)
      end
  end.
Definition deliver_p2p (ends : list task_end) (id start end_ : Z) :=
  read_chunks ends id (ranges_of start end_).

(** The same for a torrent. *)
Fixpoint read_torrent_chunks (torrent_id file_id : Z) (ranges : list (Z * Z)) (b : Bk) : stream * Bk :=
  match ranges with
  | [] => ([], b)
  | (start, end_) :: ranges' =>
      match rq_read_file_range torrent_id file_id start (end_ - start + 1) b with
      | (Ok chunk, b) =>
          let '(rest, b) := read_torrent_chunks torrent_id file_id ranges' b in (Ok chunk :: rest, b)
      | (Err error, b) => ([Err error], b)
      end
  end.
Definition deliver_torrent (torrent_id file_id start end_ : Z) :=
  read_torrent_chunks torrent_id file_id (ranges_of start end_).
End Handler.
