(* ===== verification/Server.v ===== *)
(** * The server ([server.rs])

    The configuration and how it puts the parts together, the service that
    answers the requests of all connections (with the metrics and the permits
    its responses hold), and the life of the server: [start], [stop] and what
    they leave in its status. *)

From Stdlib Require Import Strings.Byte Strings.String.
From S2P Require Import Prelude Bytes Error External Headers Range NetworkPolicy DataRequest SourceRegistry FileSystem Storage Manager SingleFlight NetSource Response NetworkHandler Tee Pipeline DataSourceManager Eviction Playlist HlsManager HlsHandler P2pManifest P2p RequestHandler.

(** ** Configuration *)

(** Times are in milliseconds. *)
Record ProxyConfig : Type := mk_ProxyConfig {
  cfg_port : Z;
  cfg_cache_dir : path;
  cfg_max_cache_bytes : Z;
  cfg_max_file_count : Z;
  cfg_cleanup_interval : Z;
  cfg_max_concurrent_requests : Z;
  cfg_shutdown_timeout : Z;
  cfg_request_header_timeout : Z;
  cfg_max_request_headers : Z;
  cfg_allowed_hosts : list text;
}.
Definition proxy_config_default : ProxyConfig :=
  mk_ProxyConfig 8080 [str "cache"] (1024 * 1024 * 1024) 1000 60000 64 5000 10000 64 [].
(** [ProxyServer::new] and [with_allowed_hosts]. *)
Definition config_for (port : Z) (cache_dir : path) (hosts : list text) : ProxyConfig :=
  let d := proxy_config_default in
  mk_ProxyConfig port cache_dir (cfg_max_cache_bytes d) (cfg_max_file_count d)
    (cfg_cleanup_interval d) (cfg_max_concurrent_requests d) (cfg_shutdown_timeout d)
    (cfg_request_header_timeout d) (cfg_max_request_headers d) hosts.

Definition storage_config (c : ProxyConfig) : StorageManagerConfig :=
  mk_StorageManagerConfig (cfg_max_cache_bytes c) (cfg_max_file_count c) (cfg_cleanup_interval c)
    [cfg_cache_dir c ++ [str "p2p"]].

(** ** The media sources: the data source manager and the playlist handler *)

(** The state of the playlist handler that is its own. *)
Record PlaylistState : Type := mk_PlaylistState { ps_manager : HlsManager; ps_clock : list Z }.

Section Sources.
Context {S R : Type} `{SE : StorageEngine S R} {UP : UrlParser} {UO : UrlOps} {UR : UriParser}
  {HT : HeaderText} {BH : BodyHint} {UE : Utf8Error} {PM : M3u8Parser} {PL : Layout}
  {OT : HashOrder text Z} {OI : HashOrder text PlaylistInfo}
  {OB : HashOrder text CachedPlaylistBody} {OS : HashOrder Z RegisteredSource}
  (lookup : text -> Z -> option (list SocketAddr)).

Definition on_world {A} (m : io (World S) ProxyError.t A) :
    io (SourceRegistry * (World S * PlaylistState)) ProxyError.t A := fun s =>
  let '(r, w) := m s.2.1 in (r, (s.1, (w, s.2.2))).

(** Both share the policy and the client, which are in the world's network. *)
Definition on_hls {A} (m : io Hls ProxyError.t A) :
    io (SourceRegistry * (World S * PlaylistState)) ProxyError.t A := fun s =>
  let '(r, h) := m (mk_Hls (ps_manager s.2.2) s.1 (w_net s.2.1) (ps_clock s.2.2)) in
  (r, (h_registry h, (set_net (h_net h) s.2.1, mk_PlaylistState (h_manager h) (h_clock h)))).

#[export] Instance media_sources : MediaSources (World S * PlaylistState) (Body R) := {|
  process_request req := on_world (DataSourceManager.process_request lookup req);
  process_head req := on_world (DataSourceManager.process_head lookup req);
  handle_m3u8 url := on_hls (HlsHandler.handle_m3u8 lookup url);
|}.

(** [ProxyServer::build]: [engine] is the storage in the cache directory;
    the rest is what the run will see. *)
Definition build {Bk Host : Type} (c : ProxyConfig) (p2p_registry : P2pSourceRegistry Host)
    (engine : S) (ans : list answer) (clk now hls_clk : list Z) (env : list (Shared S -> Shared S))
    (timeouts : list bool) : RequestHandler (World S * PlaylistState) Bk Host :=
  let policy := allow_hosts (cfg_allowed_hosts c) in
  let world := mk_World (Manager.new engine, SingleFlight.new) (mk_Net policy ans clk [] []) env now
                 timeouts [] in
  with_limit (world, mk_PlaylistState (hls_new (cfg_cache_dir c)) hls_clk)
    (cfg_max_concurrent_requests c) SourceRegistry.default metrics_default p2p_registry.
End Sources.

(** ** Errors *)

Definition ALLOW : text := str "allow".
Definition error_response {Bd} (error : ProxyError.t) : Response (AppBody Bd) :=
  mk_Response (ProxyError.status_code error)
    (match error with ProxyError.MethodNotAllowed => [(ALLOW, str "GET, HEAD")] | _ => [] end)
    (Content (ProxyError.public_message error)).

(** ** The service

    Every request of every connection goes through these phases; each is
    dropped with its connection at any time. *)

Inductive phase : Type :=
| Waiting (req : Request)
| Running (req : Request)
| Responding (permit : bool).

Section Service.
Context {UP : UrlParser} {HT : HeaderText} {UR : UriParser} {ON : HashOrder Z RegisteredSource}
  {St Bd Bk Host : Type} {MS : MediaSources St Bd} {RB : RqbitBackend Bk}.

Record Service : Type := mk_Service {
  sv_handler : RequestHandler St Bk Host;
  sv_live : gmap nat phase;
}.

(** A request that runs, and a response that was answered, hold a permit. *)
Definition holds (p : phase) : bool :=
  match p with Running _ => true | Responding permit => permit | Waiting _ => false end.

Definition on_metrics (f : RuntimeMetrics -> RuntimeMetrics) (s : Service) : Service :=
  mk_Service (set_metrics f (sv_handler s)) (sv_live s).
Definition on_live (f : gmap nat phase -> gmap nat phase) (s : Service) : Service :=
  mk_Service (sv_handler s) (f (sv_live s)).

Inductive service_step : Service -> Service -> Prop :=
| sv_begin s id req :
    sv_live s !! id = None ->
    service_step s (on_live <[id := Waiting req]> (on_metrics begin_request s))
| sv_reject s id req error :
    sv_live s !! id = Some (Waiting req) -> validate_method (method req) = Err error ->
    service_step s (on_live <[id := Responding false]> (on_metrics record_request_error s))
| sv_acquire s id req :
    sv_live s !! id = Some (Waiting req) -> validate_method (method req) = Ok tt ->
    0 < rh_permits (sv_handler s) ->
    service_step s (mk_Service (set_permits (fun n => n - 1) (sv_handler s))
                      (<[id := Running req]> (sv_live s)))
| sv_answer s id req response h :
    sv_live s !! id = Some (Running req) -> serve req (sv_handler s) = (Ok response, h) ->
    service_step s (mk_Service h (<[id := Responding true]> (sv_live s)))
| sv_fail s id req error h :
    sv_live s !! id = Some (Running req) -> serve req (sv_handler s) = (Err error, h) ->
    service_step s (on_metrics record_request_error
                      (mk_Service (set_permits (fun n => n + 1) h)
                         (<[id := Responding false]> (sv_live s))))
| sv_frame s id permit bytes :
    sv_live s !! id = Some (Responding permit) -> 0 <= bytes ->
    service_step s (on_metrics (record_response_bytes bytes) s)
| sv_drop s id p :
    sv_live s !! id = Some p ->
    service_step s (on_metrics drop_active
                      (mk_Service (if holds p then drop_response (sv_handler s) else sv_handler s)
                         (delete id (sv_live s)))).

Inductive service_reachable (h0 : RequestHandler St Bk Host) : Service -> Prop :=
| sr_init : service_reachable h0 (mk_Service h0 ∅)
| sr_step s s' : service_reachable h0 s -> service_step s s' -> service_reachable h0 s'.
End Service.
Arguments Service St Bk Host : clear implicits.

(** ** The life of the server

    [start] and [stop] may be called from any thread at any time.  A call of
    [start] is at one of its atomic operations; a call of [stop] has two (the
    change of the status and the notification). *)

Inductive ProxyServerStatus : Type := Created | Starting | Running_ | Stopping | Stopped | Failed.
#[export] Instance ProxyServerStatus_eq_dec : EqDecision ProxyServerStatus.
Proof. solve_decision. Defined.

Inductive start_pc : Type :=
| Refused
| Binding
| Bound (port : Z)
| Checking
| Storing
| Announcing
| Serving
| Draining
| Returned (r : Result unit).

Record Life : Type := mk_Life {
  lf_status : ProxyServerStatus;
  lf_port : Z;                      (* [bound_port] *)
  lf_ready : Z;                     (* how often [ready] was sent *)
  lf_notified : bool;               (* the permit of [shutdown] *)
  lf_starts : gmap nat start_pc;
  lf_stops : gmap nat bool;         (* whether the notification is done *)
}.
Definition life_new : Life := mk_Life Created 0 0 false ∅ ∅.

Definition set_status (st : ProxyServerStatus) (l : Life) : Life :=
  mk_Life st (lf_port l) (lf_ready l) (lf_notified l) (lf_starts l) (lf_stops l).
Definition set_port (p : Z) (l : Life) : Life :=
  mk_Life (lf_status l) p (lf_ready l) (lf_notified l) (lf_starts l) (lf_stops l).
Definition send_ready (l : Life) : Life :=
  mk_Life (lf_status l) (lf_port l) (lf_ready l + 1) (lf_notified l) (lf_starts l) (lf_stops l).
Definition set_notified (b : bool) (l : Life) : Life :=
  mk_Life (lf_status l) (lf_port l) (lf_ready l) b (lf_starts l) (lf_stops l).
Definition goto (t : nat) (pc : start_pc) (l : Life) : Life :=
  mk_Life (lf_status l) (lf_port l) (lf_ready l) (lf_notified l) (<[t := pc]> (lf_starts l)) (lf_stops l).
Definition set_stop (t : nat) (b : bool) (l : Life) : Life :=
  mk_Life (lf_status l) (lf_port l) (lf_ready l) (lf_notified l) (lf_starts l) (<[t := b]> (lf_stops l)).

(** [compare_exchange(CREATED, STARTING)]: [Err(STOPPING)] goes on, too. *)
Definition begin_start (t : nat) (l : Life) : Life :=
  match lf_status l with
  | Created => goto t Binding (set_status Starting l)
  | Stopping => goto t Binding l
  | _ => goto t Refused l
  end.
(** The [fetch_update] of [stop]. *)
Definition stop_status (st : ProxyServerStatus) : ProxyServerStatus :=
  match st with Created | Starting | Running_ => Stopping | _ => st end.

Inductive life_step : Life -> Life -> Prop :=
| ls_start l t : lf_starts l !! t = None -> life_step l (begin_start t l)
| ls_bind_error l t msg :
    lf_starts l !! t = Some Binding ->
    life_step l (goto t (Returned (Err (ProxyError.IO msg))) (send_ready (set_status Failed l)))
| ls_bind l t port :
    lf_starts l !! t = Some Binding -> 0 < port <= 65535 -> life_step l (goto t (Bound port) l)
| ls_addr_error l t port msg :
    lf_starts l !! t = Some (Bound port) ->
    life_step l (goto t (Returned (Err (ProxyError.IO msg))) l)
| ls_addr l t port :
    lf_starts l !! t = Some (Bound port) -> life_step l (goto t Checking (set_port port l))
| ls_check l t :
    lf_starts l !! t = Some Checking ->
    life_step l (goto t (if decide (lf_status l = Stopping) then Announcing else Storing) l)
| ls_store l t :
    lf_starts l !! t = Some Storing -> life_step l (goto t Announcing (set_status Running_ l))
| ls_announce l t :
    lf_starts l !! t = Some Announcing -> life_step l (goto t Serving (send_ready l))
| ls_accept_error l t msg :
    lf_starts l !! t = Some Serving ->
    life_step l (goto t (Returned (Err (ProxyError.IO msg))) l)
| ls_notified l t :
    lf_starts l !! t = Some Serving -> lf_notified l = true ->
    life_step l (goto t Draining (set_notified false l))
| ls_drained l t :
    lf_starts l !! t = Some Draining -> life_step l (goto t (Returned (Ok tt)) (set_status Stopped l))
| ls_stop l t :
    lf_stops l !! t = None -> life_step l (set_stop t false (set_status (stop_status (lf_status l)) l))
| ls_notify l t :
    lf_stops l !! t = Some false -> life_step l (set_stop t true (set_notified true l)).

Inductive life_reachable : Life -> Prop :=
| lr_init : life_reachable life_new
| lr_step l l' : life_reachable l -> life_step l l' -> life_reachable l'.

(** [bound_port()] and one round of [wait_until_ready]: [None] waits. *)
Definition bound_port (l : Life) : option Z := if lf_port l =? 0 then None else Some (lf_port l).
Definition ready_now (l : Life) : option (Result Z) :=
  match bound_port l with
  | Some port => Some (Ok port)
  | None =>
      if decide (lf_status l = Failed) then Some (Err (ProxyError.IO (str "代理服务器启动失败")))
      else None
  end.
