(* ===== verification/ServerTheorems.v ===== *)
(** * The server: what is counted, how many responses there are, and its life *)

From Stdlib Require Import Strings.Byte Strings.String.
From S2P Require Import Prelude Bytes Error External Headers Range DataRequest SourceRegistry FileSystem Storage NetSource Response Eviction P2pManifest P2pManifestTheorems P2p P2pTheorems P2pClaims RequestHandler HandlerClaims Server.

Section Service.
Context {UP : UrlParser} {HT : HeaderText} {UR : UriParser} {ON : HashOrder Z RegisteredSource}
  {St Bd Bk Host : Type} {MS : MediaSources St Bd} {RB : RqbitBackend Bk}.
Local Abbreviation RH := (RequestHandler St Bk Host).
Implicit Types h : RH.

(** ** Serving leaves the permits and the counts of requests alone *)

Definition accounts (n a q : Z) h : Prop :=
  rh_permits h = n /\ active_requests (rh_metrics h) = a /\ requests (rh_metrics h) = q.

Lemma accounts_dispatch n a q dr is_head :
  preserves (accounts n a q) (dispatch_data_request (Bk := Bk) (Host := Host) dr is_head).
Proof.
  intros h r h' (? & ? & ?) E. apply dispatch_run in E as [Hm (Hp & _)]. unfold accounts. by rewrite Hm, Hp.
Qed.

Lemma accounts_registry {A} n a q (m : io SourceRegistry ProxyError.t A) :
  preserves (accounts n a q) (RequestHandler.on_registry (St := St) (Bk := Bk) (Host := Host) m).
Proof. intros h r h' Ha. unfold RequestHandler.on_registry. destruct (m _). by intros [= <- <-]. Qed.

Lemma accounts_resolve n a q id :
  preserves (accounts n a q) (resolve_source (St := St) (Bk := Bk) (Host := Host) id).
Proof. by intros h r h' Ha [= <- <-]. Qed.

Lemma accounts_attempt {A} n a q (m : io RH ProxyError.t A) :
  preserves (accounts n a q) m -> preserves (accounts n a q) (attempt m).
Proof.
  intros Hm h r h' Ha. unfold attempt. destruct (m h) as [r0 h0] eqn:E. intros [= <- <-]. by eapply Hm.
Qed.

Lemma accounts_retry n a q req dr id is_head :
  preserves (accounts n a q) (retry_refreshed (Bk := Bk) (Host := Host) req dr id is_head).
Proof.
  apply preserves_bind; [apply accounts_registry|]. intros [].
  apply preserves_bind; [by intros h r h' Ha [= <- <-]|]. intros [].
  apply preserves_bind; [apply accounts_resolve|]. intros source.
  apply preserves_bind; [apply preserves_pure|]. intros refreshed.
  apply preserves_bind; [apply accounts_attempt, accounts_dispatch|].
  intros [resp|error]; [apply (preserves_pure _ (Ok _))|apply (preserves_pure _ (Err _))].
Qed.

Lemma accounts_media n a q req is_head :
  preserves (accounts n a q) (serve_media (Bk := Bk) (Host := Host) req is_head).
Proof.
  apply preserves_bind; [intros h r h' Ha E; by apply make_data_request_run in E as ->|]. intros dr.
  apply preserves_bind; [apply accounts_attempt, accounts_dispatch|]. intros r.
  apply preserves_bind; [|intros resp; apply (preserves_pure _ (Ok _))].
  destruct r as [resp|error]; [apply (preserves_pure _ (Ok _))|].
  destruct error as [| |x| | | | | |], (source_id dr) as [id|];
    apply accounts_retry || apply (preserves_pure _ (Err _)).
Qed.

Lemma accounts_torrent n a q req is_head :
  preserves (accounts n a q) (handle_torrent (St := St) (Bd := Bd) (Host := Host) req is_head).
Proof.
  apply preserves_bind; [apply preserves_pure|]. intros [t f].
  apply preserves_bind; [by intros h r h' Ha [= <- <-]|]. intros h0.
  destruct (rh_backend h0) as [b|]; [|apply (preserves_pure _ (Err _))].
  apply preserves_bind.
  { intros h r h' Ha. unfold on_backend. destruct (rq_files t b). by intros [= <- <-]. }
  intros files. apply preserves_bind; [apply preserves_pure|]. intros file.
  apply preserves_bind; [apply preserves_pure|]. intros [start end_]. apply (preserves_pure _ (Ok _)).
Qed.

Lemma serve_accounts n a q req : preserves (accounts n a q) (serve (Bk := Bk) (Host := Host) req).
Proof.
  unfold serve. destruct (starts_with (str "/torrent/") _); [apply accounts_torrent|].
  destruct (starts_with (str "/p2p/") _); [|apply accounts_media].
  intros h r h' Ha E. by apply handle_p2p_run in E as [-> _].
Qed.

(** ** The books of the service *)

Definition held (s : Service St Bk Host) : Z :=
  total_weight (fun _ p => if holds p then 1 else 0) (sv_live s).
Definition live (s : Service St Bk Host) : Z := total_weight (fun _ _ => 1) (sv_live s).

Record service_ok (h0 : RH) (s : Service St Bk Host) : Prop := {
  so_permits : rh_permits (sv_handler s) + held s = rh_permits h0;
  so_nonneg : 0 <= rh_permits (sv_handler s);
  so_active : active_requests (rh_metrics (sv_handler s))
              = wrap64 (active_requests (rh_metrics h0) + live s);
}.

Lemma wrap64_wrap a b : wrap64 (wrap64 a + b) = wrap64 (a + b).
Proof. unfold wrap64. rewrite Z.add_mod_idemp_l by lia. done. Qed.

(** What a step does to the two sums. *)
Lemma sums_insert (s : Service St Bk Host) id p :
  sv_live s !! id = None ->
  total_weight (fun _ p => if holds p then 1 else 0) (<[id := p]> (sv_live s))
  = held s + (if holds p then 1 else 0)
  /\ total_weight (fun _ _ => 1) (<[id := p]> (sv_live s)) = live s + 1.
Proof. intros Hid. unfold held, live. rewrite !total_weight_insert by done. lia. Qed.
Lemma sums_update (s : Service St Bk Host) id p p' :
  sv_live s !! id = Some p ->
  total_weight (fun _ p => if holds p then 1 else 0) (<[id := p']> (sv_live s))
  = held s - (if holds p then 1 else 0) + (if holds p' then 1 else 0)
  /\ total_weight (fun _ _ => 1) (<[id := p']> (sv_live s)) = live s.
Proof. intros Hid. unfold held, live. rewrite !(total_weight_update _ _ _ _ p' Hid). lia. Qed.
Lemma sums_delete (s : Service St Bk Host) id p :
  sv_live s !! id = Some p ->
  total_weight (fun _ p => if holds p then 1 else 0) (delete id (sv_live s))
  = held s - (if holds p then 1 else 0)
  /\ total_weight (fun _ _ => 1) (delete id (sv_live s)) = live s - 1.
Proof. intros Hid. unfold held, live. by rewrite !(total_weight_delete _ _ _ _ Hid). Qed.

Lemma service_reachable_ok h0 s :
  rh_metrics h0 = metrics_default -> 0 <= rh_permits h0 -> service_reachable h0 s -> service_ok h0 s.
Proof.
  intros Hm0 Hp0. induction 1 as [|s s' _ [Hp Hn Ha] Hs].
  { split; unfold held, live; simpl; rewrite ?total_weight_empty; [lia|done|by rewrite Hm0]. }
  destruct Hs as [s id req Hid|s id req error Hid _|s id req Hid _ Hpos|s id req resp h Hid E
                 |s id req error h Hid E|s id permit bytes Hid Hb|s id p Hid].
  - destruct (sums_insert s id (Waiting req) Hid) as [H1 H2].
    split; unfold held, live; simpl in *; rewrite ?H1, ?H2; [lia|done|].
    rewrite Ha, wrap64_wrap. f_equal. lia.
  - destruct (sums_update s id _ (Responding false) Hid) as [H1 H2].
    split; unfold held, live; simpl in *; rewrite ?H1, ?H2; [lia|done|done].
  - destruct (sums_update s id _ (Running req) Hid) as [H1 H2].
    split; unfold held, live; simpl in *; rewrite ?H1, ?H2; [lia|lia|done].
  - destruct (sums_update s id _ (Responding true) Hid) as [H1 H2].
    apply (serve_accounts _ _ _ req _ _ _ (conj eq_refl (conj eq_refl eq_refl))) in E as (E1 & E2 & _).
    split; unfold held, live; simpl in *; rewrite ?H1, ?H2, ?E1, ?E2; [lia|done|done].
  - destruct (sums_update s id _ (Responding false) Hid) as [H1 H2].
    apply (serve_accounts _ _ _ req _ _ _ (conj eq_refl (conj eq_refl eq_refl))) in E as (E1 & E2 & _).
    split; unfold held, live; simpl in *; rewrite ?H1, ?H2, ?E1, ?E2; [lia|lia|done].
  - split; [exact Hp|exact Hn|exact Ha].
  - destruct (sums_delete s id p Hid) as [H1 H2]. simpl in *.
    assert (Hact : forall h, active_requests (rh_metrics (drop_response h)) = active_requests (rh_metrics h))
      by done.
    split; unfold held, live; simpl; rewrite ?H1, ?H2; destruct (holds p); simpl; try lia;
      rewrite Ha; unfold Z.sub; rewrite wrap64_wrap; f_equal; lia.
Qed.
End Service.

(** ** One call of [start] *)

(** At most one call of [start] was not refused. *)
Definition single (l : Life) : Prop :=
  forall t1 t2 p1 p2, lf_starts l !! t1 = Some p1 -> lf_starts l !! t2 = Some p2 ->
    p1 <> Refused -> p2 <> Refused -> t1 = t2.

(** Some call that was not refused is at a place where [P] holds. *)
Definition has (P : start_pc -> bool) (m : gmap nat start_pc) : Prop :=
  exists t p, m !! t = Some p /\ p <> Refused /\ P p = true.

Lemma has_at P l t p :
  single l -> lf_starts l !! t = Some p -> p <> Refused -> has P (lf_starts l) <-> P p = true.
Proof.
  intros Hs Ht Hp. split; [|by exists t, p].
  intros (t' & p' & Ht' & Hp' & HP). rewrite (Hs t' t p' p Ht' Ht Hp' Hp) in Ht'. by simplify_eq.
Qed.

Lemma has_goto P l t p p' :
  single l -> lf_starts l !! t = Some p -> p <> Refused -> p' <> Refused ->
  has P (<[t := p']> (lf_starts l)) <-> P p' = true.
Proof.
  intros Hs Ht Hp Hp'. split; [|intros HP; exists t, p'; by rewrite lookup_insert_eq].
  intros (t2 & p2 & Ht2 & Hp2 & HP). apply lookup_insert_Some in Ht2 as [[_ <-]|[Hne Ht2]]; [done|].
  by rewrite (Hs t t2 p p2 Ht Ht2 Hp Hp2) in Hne.
Qed.

Lemma has_fresh P (m : gmap nat start_pc) t :
  m !! t = None -> has P (<[t := Refused]> m) <-> has P m.
Proof.
  intros Ht. split; intros (t2 & p2 & Ht2 & Hp2 & HP); exists t2, p2.
  - by apply lookup_insert_Some in Ht2 as [[_ <-]|[_ Ht2]].
  - rewrite lookup_insert_ne by (by intros <-; rewrite Ht in Ht2). done.
Qed.

Lemma has_begin P m l t :
  lf_starts l = <[t := Binding]> m -> m !! t = None -> single l ->
  (has P m <-> False) /\ (has P (<[t := Binding]> m) <-> P Binding = true).
Proof.
  intros Hl Ht Hs.
  assert (Hno : forall t2 p2, m !! t2 = Some p2 -> p2 = Refused).
  { intros t2 p2 Ht2. destruct (decide (t2 = t)) as [->|Hne]; [congruence|].
    destruct p2; try done; exfalso; apply Hne; eapply (Hs t2 t); rewrite ?Hl;
      try apply lookup_insert_eq; try (rewrite lookup_insert_ne by done; exact Ht2); done. }
  split.
  - split; [|done]. intros (t2 & p2 & Ht2 & Hp2 & _). by apply Hp2, (Hno t2).
  - split; [|intros HP; exists t, Binding; by rewrite lookup_insert_eq].
    intros (t2 & p2 & Ht2 & Hp2 & HP). apply lookup_insert_Some in Ht2 as [[_ <-]|[_ Ht2]]; [done|].
    by apply Hno in Ht2.
Qed.

(** A call that was not refused stays so. *)
Lemma accepted_stays l l' t p :
  life_step l l' -> lf_starts l !! t = Some p -> p <> Refused ->
  exists p', lf_starts l' !! t = Some p' /\ p' <> Refused.
Proof.
  intros Hs Ht Hp.
  assert (Hgo : forall t0 p0, p0 <> Refused \/ t0 <> t ->
    exists p', <[t0 := p0]> (lf_starts l) !! t = Some p' /\ p' <> Refused).
  { intros t0 p0 Hor. destruct (decide (t0 = t)) as [->|Hne].
    - exists p0. rewrite lookup_insert_eq. by destruct Hor.
    - exists p. by rewrite lookup_insert_ne. }
  destruct Hs; simpl; try (apply Hgo; left; done); try (by exists p).
  - assert (Hne : t0 <> t) by congruence.
    unfold begin_start. destruct (lf_status l); simpl; apply Hgo; by right.
  - apply Hgo. left. by case_decide.
Qed.

Lemma single_back l l' : life_step l l' -> single l' -> single l.
Proof.
  intros Hs Hl t1 t2 p1 p2 H1 H2 Hp1 Hp2.
  destruct (accepted_stays _ _ _ _ Hs H1 Hp1) as (q1 & ? & ?).
  destruct (accepted_stays _ _ _ _ Hs H2 Hp2) as (q2 & ? & ?). by eapply Hl.
Qed.

Definition has_left (p : start_pc) : bool := match p with Draining | Returned _ => true | _ => false end.
Definition is_done (p : start_pc) : bool := match p with Returned (Ok _) => true | _ => false end.
Definition is_failed (p : start_pc) : bool := match p with Returned (Err _) => true | _ => false end.
Definition knows_port (p : start_pc) : bool :=
  match p with
  | Checking | Storing | Announcing | Serving | Draining | Returned (Ok _) => true
  | _ => false
  end.
Definition may_run (p : start_pc) : bool :=
  match p with Announcing | Serving | Draining | Returned (Err _) => true | _ => false end.

Record life_ok (l : Life) : Prop := {
  lo_stop t : lf_stops l !! t = Some true -> lf_notified l = true \/ has has_left (lf_starts l);
  lo_stopped : lf_status l = Stopped -> has is_done (lf_starts l);
  lo_failed : lf_status l = Failed -> has is_failed (lf_starts l);
  lo_port : has knows_port (lf_starts l) -> lf_port l <> 0;
  lo_bound t p : lf_starts l !! t = Some (Bound p) -> 0 < p;
  lo_running : lf_status l = Running_ -> lf_port l <> 0 /\ has may_run (lf_starts l);
  lo_created : lf_status l = Created -> lf_starts l = ∅;
}.

(** A step of the call that is not refused, from [p] to [p'] with the rest
    of the state [l0], in terms of the places alone. *)
Lemma life_ok_goto l l0 t p p' :
  single l -> lf_starts l !! t = Some p -> p <> Refused -> p' <> Refused ->
  lf_starts l0 = lf_starts l -> lf_stops l0 = lf_stops l -> life_ok l ->
  (lf_notified l0 = true \/ lf_notified l = false \/ has_left p' = true) ->
  (has_left p = true -> has_left p' = true) ->
  (lf_status l0 = Stopped -> is_done p' = true) ->
  (lf_status l0 = Failed -> is_failed p' = true) ->
  (knows_port p' = true -> lf_port l0 <> 0) ->
  (forall n, p' = Bound n -> 0 < n) ->
  (lf_status l0 = Running_ -> lf_port l0 <> 0 /\ may_run p' = true) ->
  (lf_status l0 = Created -> False) ->
  life_ok (goto t p' l0).
Proof.
  intros Hs Ht Hp Hp' He Hst [Istop _ _ _ Ibound _ _] Hn Hleft H1 H2 H3 H4 H5 H6.
  assert (Hgo : forall P, has P (<[t := p']> (lf_starts l0)) <-> P p' = true).
  { intros P. rewrite He. by apply (has_goto P l t p). }
  split; simpl; rewrite ?Hgo; try done.
  - intros t0. rewrite Hst. intros Ht0. destruct (Istop t0 Ht0) as [Hnot|Hh]; rewrite Hgo.
    + destruct Hn as [?|[?|?]]; [by left|congruence|by right].
    + right. apply Hleft. by apply (has_at _ l t p).
  - intros t0 n. rewrite He. intros [[_ ->]|[_ Hb]]%lookup_insert_Some; [by apply H4|by eapply Ibound].
Qed.

Lemma life_ok_at l t p :
  single l -> life_ok l -> lf_starts l !! t = Some p -> p <> Refused ->
  (lf_status l = Stopped -> is_done p = true) /\ (lf_status l = Failed -> is_failed p = true)
  /\ (knows_port p = true -> lf_port l <> 0)
  /\ (lf_status l = Running_ -> lf_port l <> 0 /\ may_run p = true) /\ lf_status l <> Created.
Proof.
  intros Hs Hok Ht Hp. pose proof (fun P => has_at P l t p Hs Ht Hp) as Hb.
  destruct Hok as [_ I1 I2 I3 _ I4 I5]. rewrite Hb in I1, I2, I3, I4. split_and!; try done.
  intros Hc. by rewrite (I5 Hc), lookup_empty in Ht.
Qed.

(** A step of one call: the facts at its place, then the goals of [life_ok_goto]. *)
Ltac thread_step Hsl Hok Ht :=
  let F := fresh in
  pose proof (life_ok_at _ _ _ Hsl Hok Ht ltac:(done)) as F; simpl in F;
  destruct F as (? & ? & ? & ? & ?);
  eapply (life_ok_goto _ _ _ _ _ Hsl Ht); simpl in *; try done; try tauto; try (intros; intuition congruence);
  try (by destruct (lf_notified _); auto).

(** A new call: accepted, or refused. *)
Lemma life_ok_begin l t :
  lf_starts l !! t = None -> single (begin_start t l) -> life_ok l -> life_ok (begin_start t l).
Proof.
  intros Ht Hs Hok. unfold begin_start in *.
  assert (Hacc : forall l0, lf_starts l0 = lf_starts l -> lf_stops l0 = lf_stops l ->
    lf_notified l0 = lf_notified l -> single (goto t Binding l0) ->
    lf_status l0 = Starting \/ lf_status l0 = Stopping -> life_ok (goto t Binding l0)).
  { intros l0 He Hst Hn Hs0 Hor.
    pose proof (fun P => has_begin P (lf_starts l0) (goto t Binding l0) t eq_refl ltac:(by rewrite He) Hs0) as Hb.
    split; simpl; rewrite ?(proj2 (Hb _)); try done; try (intuition congruence).
    - intros t0. rewrite Hst, Hn. intros Ht0. destruct (lo_stop _ Hok t0 Ht0) as [?|Hh]; [by left|].
      rewrite <- He in Hh. by apply Hb in Hh.
    - intros t0 n. rewrite He. intros [[_ ?]|[_ Hb0]]%lookup_insert_Some; [done|by eapply lo_bound]. }
  assert (Href : lf_status l <> Created -> life_ok (goto t Refused l)).
  { intros Hc. pose proof (fun P => has_fresh P _ t Ht) as Hf.
    destruct Hok as [I0 I1 I2 I3 I4 I5 I6]. split; simpl; rewrite ?Hf; try done.
    - intros t0. rewrite Hf. apply I0.
    - intros t0 n [[_ ?]|[_ Hb0]]%lookup_insert_Some; [done|by eapply I4]. }
  destruct (lf_status l) eqn:Est; try (by apply Href); apply Hacc; auto.
Qed.

Lemma life_step_ok l l' :
  life_step l l' -> single l -> single l' -> life_ok l -> life_ok l'.
Proof.
  intros Hs Hsl Hsl' Hok.
  destruct Hs as [l t Ht|l t msg Ht|l t port Ht Hport|l t port msg Ht|l t port Ht|l t Ht|l t Ht|l t Ht
                 |l t msg Ht|l t Ht Hnot|l t Ht|l t Ht|l t Ht].
  2-11: thread_step Hsl Hok Ht.
  - by apply life_ok_begin.
  - intros _. pose proof (lo_bound _ Hok _ _ Ht). lia.
  - by case_decide.
  - intros n. by case_decide.
  - destruct Hok as [I0 I1 I2 I3 I4 I5 I6]. split; simpl; try done.
    + intros t0 [[_ ?]|[_ Ht0]]%lookup_insert_Some; [done|by eapply I0].
    + intros Hst. apply I1. by destruct (lf_status l).
    + intros Hst. apply I2. by destruct (lf_status l).
    + intros Hst. apply I5. by destruct (lf_status l).
    + intros Hst. apply I6. by destruct (lf_status l).
  - destruct Hok as [I0 I1 I2 I3 I4 I5 I6]. split; simpl; try done. auto.
Qed.

Lemma life_reachable_ok l : life_reachable l -> single l -> life_ok l.
Proof.
  induction 1 as [|l l' _ IH Hs]; intros Hsl.
  - split; simpl; try done. intros (? & ? & H & _). by rewrite lookup_empty in H.
  - pose proof (single_back _ _ Hs Hsl) as Hsl0. by eapply life_step_ok; [| | |apply IH].
Qed.

Lemma total_weight_one {K A} `{Countable K} (m : gmap K A) :
  total_weight (fun _ _ => 1) m = Z.of_nat (size m).
Proof.
  induction m as [|k a m Hk IH] using map_ind; [by rewrite total_weight_empty, map_size_empty|].
  rewrite total_weight_insert, map_size_insert_None by done. lia.
Qed.

Module ServerClaims.


Import HandlerDemo.
Definition demo_service (limit : Z) : Service (Script * list text) unit nat :=
  mk_Service (with_limit ([Ok partial], []) limit SourceRegistry.default metrics_default
                P2pRegistryDemo.registry) ∅.

(** As long as one call of [start] is accepted: once a call of [stop] has
    returned, a server that waits for connections can leave its loop, at whatever
    moment of the start-up the call came; a server that has stopped or failed
    has no call of [start] in progress and keeps its status whatever is called
    later; and while the status is running the port is known. *)
Theorem lifecycle_correct (l : Life) :
  life_reachable l -> single l ->
  (forall t s, lf_stops l !! t = Some true -> lf_starts l !! s = Some Serving ->
     exists l', life_step l l' /\ lf_starts l' !! s = Some Draining)
  /\ (lf_status l = Stopped \/ lf_status l = Failed ->
      (forall s p, lf_starts l !! s = Some p -> p = Refused \/ exists r, p = Returned r)
      /\ forall l', life_step l l' -> lf_status l' = lf_status l)
  /\ (lf_status l = Running_ -> exists port, ready_now l = Some (Ok port)).
Proof.
  intros Hr Hs. pose proof (life_reachable_ok _ Hr Hs) as Hok. split_and!.
  - intros t s Ht Hse. eexists. split; [eapply ls_notified; [exact Hse|]|apply lookup_insert_eq].
    destruct (lo_stop _ Hok t Ht) as [?|Hh]; [done|]. by apply (has_at _ l s Serving) in Hh.
  - intros Hst.
    assert (Hdone : forall s p, lf_starts l !! s = Some p -> p = Refused \/ exists r, p = Returned r).
    { intros s p Hsp. assert (Hcase : p = Refused \/ p <> Refused) by (destruct p; by (left + right)).
      destruct Hcase as [|Hne]; [by left|right].
      destruct (life_ok_at _ _ _ Hs Hok Hsp Hne) as (I1 & I2 & _).
      destruct Hst as [E|E]; [apply I1 in E|apply I2 in E]; destruct p; try done; eauto. }
    split; [done|]. intros l' Hstep.
    destruct Hstep as [l t Ht|l t msg Ht|l t port Ht|l t port msg Ht|l t port Ht|l t Ht|l t Ht|l t Ht
      |l t msg Ht|l t Ht Hnot|l t Ht|l t Ht|l t Ht]; simpl; try done;
      try (by destruct (Hdone _ _ Ht) as [?|[? ?]]).
    + unfold begin_start. by destruct Hst as [E|E]; rewrite E.
    + by destruct Hst as [E|E]; rewrite E.
  - intros Hrun. destruct (lo_running _ Hok Hrun) as [Hp _]. exists (lf_port l). unfold ready_now, bound_port.
    by destruct (Z.eqb_spec (lf_port l) 0).
Qed.

(** A server that has started and serves, and its two ways on. *)
Definition serving (t : nat) (port : Z) (l : Life) : Life :=
  goto t Serving (send_ready
    (goto t Announcing (set_status Running_
       (goto t Storing (goto t Checking (set_port port (goto t (Bound port) l))))))).
Definition first : Life := serving 0 8080 (begin_start 0 life_new).
Definition stopping : Life := set_stop 0 false (set_status Stopping first).
Definition stopped_call : Life := set_stop 0 true (set_notified true stopping).

Ltac life_go s := eapply lr_step; [|eapply s; (vm_compute; reflexivity) || (simpl; lia)].
Lemma first_reachable : life_reachable first.
Proof.
  unfold first, serving. life_go ls_announce. life_go ls_store.
  eapply lr_step; [|exact (ls_check (goto 0 Checking (set_port 8080 (goto 0 (Bound 8080)
    (begin_start 0 life_new)))) 0 eq_refl)].
  life_go ls_addr. eapply lr_step; [|apply ls_bind; [vm_compute; reflexivity|lia]].
  eapply lr_step; [apply lr_init|]. apply (ls_start life_new 0). vm_compute. reflexivity.
Qed.
Lemma stopping_reachable : life_reachable stopping.
Proof. eapply lr_step; [apply first_reachable|]. apply (ls_stop first 0). vm_compute. reflexivity. Qed.

Lemma lifecycle_correct_witness :
  exists l', life_step stopped_call l' /\ lf_starts l' !! 0%nat = Some Draining.
Proof.
  destruct (lifecycle_correct stopped_call) as (Hstop & _).
  - eapply lr_step; [apply stopping_reachable|]. apply (ls_notify stopping 0). vm_compute. reflexivity.
  - intros t1 t2 p1 p2 H1 H2 _ _. unfold stopped_call, stopping, first, serving in H1, H2. simpl in H1, H2.
    rewrite !lookup_insert_Some, lookup_empty in H1, H2. destruct H1, H2; intuition congruence.
  - apply (Hstop 0%nat 0%nat); vm_compute; reflexivity.
Defined.

(** Two things the status does not prevent.  While a server that serves
    is being stopped, a second call of [start] is accepted and can serve
    beside the first; and when accepting a connection fails, [start] returns
    the error but the status stays running and [wait_until_ready] still reports
    the port. *)
Theorem lifecycle_gaps :
  (exists l, life_reachable l /\ lf_starts l !! 0%nat = Some Serving /\ lf_starts l !! 1%nat = Some Serving)
  /\ exists l e, life_reachable l /\ lf_starts l !! 0%nat = Some (Returned (Err e))
       /\ lf_status l = Running_ /\ ready_now l = Some (Ok 8080)
       /\ forall t p, lf_starts l !! t = Some p -> t = 0%nat.
Proof.
  split.
  - eexists. split; [|split].
    + eapply lr_step; [|eapply ls_announce with (t := 1%nat)].
      * eapply lr_step; [|eapply ls_check with (t := 1%nat)].
        { eapply lr_step; [|eapply ls_addr with (t := 1%nat)].
          { eapply lr_step; [|eapply ls_bind with (t := 1%nat) (port := 8081)].
            { eapply lr_step; [apply stopping_reachable|apply (ls_start stopping 1); reflexivity]. }
            { vm_compute. reflexivity. }
            { lia. } }
          vm_compute. reflexivity. }
        vm_compute. reflexivity.
      * vm_compute. reflexivity.
    + vm_compute. reflexivity.
    + vm_compute. reflexivity.
  - eexists _, _. split; [|split].
    + eapply lr_step; [apply first_reachable|]. eapply (ls_accept_error first 0 (str "accept")).
      vm_compute. reflexivity.
    + vm_compute. reflexivity.
    + split; [reflexivity|]. split; [reflexivity|]. intros t p.
      unfold first, serving. simpl. rewrite !lookup_insert_Some, lookup_empty. intuition congruence.
Qed.
End ServerClaims.
