(* ===== verification/Bencode.v ===== *)
(** * Bencode ([p2p_network.rs], [BencodeParser])

    The parser reads a value from the front of the input; its offset is what
    is left of it.  Lists and dictionaries recurse into values, at most 32
    deep; the fuel counts the nested calls, and [None] says that it ran out,
    which [bdecode]'s fuel excludes. *)

From Stdlib Require Import Strings.Byte Strings.String.
From S2P Require Import Prelude Bytes Error.

(** ** Signed numbers *)

Definition is_i64 (n : Z) : Prop := - 2 ^ 63 <= n <= 2 ^ 63 - 1.

(** [str::parse::<i64>]. *)
Definition parse_i64 (s : text) : option Z :=
  match s with
  | x2d :: s' =>
      match s' with
      | [] => None
      | _ => n ← parse_digits 0 s'; if n <=? 2 ^ 63 then Some (- n) else None
      end
  | _ => n ← parse_u64 s; if n <=? 2 ^ 63 - 1 then Some n else None
  end.
Definition format_i64 (n : Z) : text :=
  if n <? 0 then x2d :: format_u64 (- n) else format_u64 n.

(** ** Values *)

(** A dictionary is a [BTreeMap]: its entries in the order of their keys. *)
Inductive BValue : Type :=
| Integer (n : Z)
| Bytes (b : text)
| Dict (entries : list (text * BValue))
| BList (values : list BValue).

(** The order of byte strings. *)
Fixpoint text_compare (a b : text) : comparison :=
  match a, b with
  | [], [] => Eq
  | [], _ => Lt
  | _, [] => Gt
  | x :: a', y :: b' =>
      match b2z x ?= b2z y with Eq => text_compare a' b' | c => c end
  end.

(** [BTreeMap::insert] and [get]. *)
Fixpoint bt_insert {A} (k : text) (v : A) (m : list (text * A)) : list (text * A) :=
  match m with
  | [] => [(k, v)]
  | (k', v') :: m' =>
      match text_compare k k' with
      | Lt => (k, v) :: m
      | Eq => (k, v) :: m'
      | Gt => (k', v') :: bt_insert k v m'
      end
  end.
Fixpoint bt_get {A} (k : text) (m : list (text * A)) : option A :=
  match m with
  | [] => None
  | (k', v) :: m' => if decide (k' = k) then Some v else bt_get k m'
  end.

(** [BValue::integer]: a non-negative number. *)
Definition integer_of (v : BValue) : option Z :=
  match v with
  | Integer n => if 0 <=? n then Some n else None
  | _ => None
  end.
Definition bytes_of_value (v : BValue) : option text :=
  match v with Bytes b => Some b | _ => None end.

(** ** The parser *)

(** A step of the recursive parser: out of fuel, an error, or a result. *)
Abbreviation Parsed A := (option (Result (A * text))).
Definition pbind {A B} (m : Parsed A) (k : A -> text -> Parsed B) : Parsed B :=
  match m with
  | None => None
  | Some (Err e) => Some (Err e)
  | Some (Ok (a, rest)) => k a rest
  end.

Section Parser.
(** The length of the whole input, from which the offset is known. *)
Context (total : Z).

Definition MAX_DEPTH : nat := 32.

Definition integer (rest : text) : Result (BValue * text) :=
  '(digits, rest) ← ok_or (split_once x65 rest)
                      (ProxyError.Parse (str "unterminated bencode integer"));
  n ← ok_or (parse_i64 digits) (ProxyError.Parse (str "invalid bencode integer"));
  Ok (Integer n, rest).

Definition bytes (input : text) : Result (text * text) :=
  '(digits, rest) ← ok_or (split_once x3a input)
                      (ProxyError.Parse (str "invalid bencode byte string"));
  length ← ok_or (parse_u64 digits) (ProxyError.Parse (str "invalid bencode byte length"));
  end_ ← ok_or (checked_add (total - Z.of_nat (List.length rest)) length)
           (ProxyError.Parse (str "bencode byte string is too large"));
  if total <? end_ then Err (ProxyError.Parse (str "truncated bencode byte string"))
  else Ok (take (Z.to_nat length) rest, drop (Z.to_nat length) rest).

Fixpoint value (fuel depth : nat) (input : text) {struct fuel} : Parsed BValue :=
  match fuel with
  | O => None
  | S fuel' =>
      if Nat.leb MAX_DEPTH depth then
        Some (Err (ProxyError.Parse (str "tracker response nesting is too deep")))
      else
        match input with
        | [] => Some (Err (ProxyError.Parse (str "invalid bencode value")))
        | b :: rest =>
            if decide (b = x69) then Some (integer rest)
            else if decide (b = x6c) then
              pbind (list_values fuel' (S depth) rest) (fun l rest => Some (Ok (BList l, rest)))
            else if decide (b = x64) then
              pbind (dict_entries fuel' (S depth) rest []) (fun d rest => Some (Ok (Dict d, rest)))
            else if is_digit b then
              pbind (Some (bytes input)) (fun s rest => Some (Ok (Bytes s, rest)))
            else Some (Err (ProxyError.Parse (str "invalid bencode value")))
        end
  end
with list_values (fuel depth : nat) (input : text) {struct fuel} : Parsed (list BValue) :=
  match fuel with
  | O => None
  | S fuel' =>
      match input with
      | x65 :: rest => Some (Ok ([], rest))
      | _ =>
          pbind (value fuel' depth input) (fun v rest =>
            pbind (list_values fuel' depth rest) (fun l rest => Some (Ok (v :: l, rest))))
      end
  end
with dict_entries (fuel depth : nat) (input : text) (entries : list (text * BValue)) {struct fuel} :
    Parsed (list (text * BValue)) :=
  match fuel with
  | O => None
  | S fuel' =>
      match input with
      | x65 :: rest => Some (Ok (entries, rest))
      | _ =>
          pbind (Some (bytes input)) (fun key rest =>
            pbind (value fuel' depth rest) (fun v rest =>
              dict_entries fuel' depth rest (bt_insert key v entries)))
      end
  end.

End Parser.

Definition parse_value (input : text) : Result (BValue * text) :=
  match value (Z.of_nat (length input)) (2 * length input + 1) 0 input with
  | Some r => r
  | None => Err (ProxyError.Parse [])
  end.

(** ** The reference encoding *)

Definition encode_bytes (b : text) : text := format_u64 (Z.of_nat (length b)) ++ x3a :: b.
Fixpoint bencode (v : BValue) : text :=
  match v with
  | Integer n => x69 :: format_i64 n ++ [x65]
  | Bytes b => encode_bytes b
  | BList l => x6c :: mjoin (map bencode l) ++ [x65]
  | Dict d => x64 :: mjoin (map (fun e => encode_bytes e.1 ++ bencode e.2) d) ++ [x65]
  end.
