(* ===== verification/BencodeTheorems.v ===== *)
(** * Bencode: the parser ends, consumes input, and inverts the encoding *)

From Stdlib Require Import Strings.Byte Strings.String.
From S2P Require Import Prelude Bytes Error Bencode.

(** ** Values, by induction on their parts *)

Section Induction.
Context (P : BValue -> Prop) (Hint : forall n, P (Integer n)) (Hbytes : forall b, P (Bytes b))
  (Hdict : forall d, Forall (fun e => P e.2) d -> P (Dict d))
  (Hlist : forall l, Forall P l -> P (BList l)).

Fixpoint BValue_nested_ind (v : BValue) : P v :=
  match v with
  | Integer n => Hint n
  | Bytes b => Hbytes b
  | Dict d =>
      Hdict d ((fix go (d : list (text * BValue)) : Forall (fun e => P e.2) d :=
                  match d with
                  | [] => List.Forall_nil _
                  | e :: d' => @List.Forall_cons _ (fun e => P e.2) e d' (BValue_nested_ind e.2) (go d')
                  end) d)
  | BList l =>
      Hlist l ((fix go (l : list BValue) : Forall P l :=
                  match l with
                  | [] => List.Forall_nil _
                  | x :: l' => @List.Forall_cons _ P x l' (BValue_nested_ind x) (go l')
                  end) l)
  end.
End Induction.

(** ** Consumption and fuel *)

Lemma split_once_shorter c s l r : split_once c s = Some (l, r) -> (length r < length s)%nat.
Proof. intros [-> _]%split_once_Some. rewrite length_app. simpl. lia. Qed.

Lemma integer_shorter rest v rest' : integer rest = Ok (v, rest') -> (length rest' < length rest)%nat.
Proof.
  unfold integer. destruct (split_once x65 rest) as [[d r]|] eqn:E; [|done]. simpl.
  destruct (parse_i64 d); [|done]. intros [= _ <-]. by eapply split_once_shorter.
Qed.

Lemma bytes_shorter total input b rest :
  bytes total input = Ok (b, rest) -> (length rest < length input)%nat.
Proof.
  unfold bytes. destruct (split_once x3a input) as [[d r]|] eqn:E; [|done]. simpl.
  destruct (parse_u64 d) as [n|]; [|done]. simpl. destruct (checked_add _ _); [|done]. simpl.
  case_match; [done|]. intros [= _ <-]. apply split_once_shorter in E. rewrite length_drop. lia.
Qed.

(** The first byte decides; [x65] ends a list and a dictionary. *)
Lemma list_values_eq total fuel depth b input :
  list_values total (S fuel) depth (b :: input)
  = if decide (b = x65) then Some (Ok ([], input))
    else pbind (value total fuel depth (b :: input)) (fun v rest =>
           pbind (list_values total fuel depth rest) (fun l rest => Some (Ok (v :: l, rest)))).
Proof. by destruct b. Qed.
Lemma dict_entries_eq total fuel depth b input entries :
  dict_entries total (S fuel) depth (b :: input) entries
  = if decide (b = x65) then Some (Ok (entries, input))
    else pbind (Some (bytes total (b :: input))) (fun key rest =>
           pbind (value total fuel depth rest) (fun v rest =>
             dict_entries total fuel depth rest (bt_insert key v entries))).
Proof. by destruct b. Qed.
Lemma list_values_nil total fuel depth :
  list_values total (S fuel) depth []
  = pbind (value total fuel depth []) (fun v rest =>
      pbind (list_values total fuel depth rest) (fun l rest => Some (Ok (v :: l, rest)))).
Proof. done. Qed.
Lemma dict_entries_nil total fuel depth entries :
  dict_entries total (S fuel) depth [] entries
  = pbind (Some (bytes total [])) (fun key rest =>
      pbind (value total fuel depth rest) (fun v rest =>
        dict_entries total fuel depth rest (bt_insert key v entries))).
Proof. done. Qed.

Lemma pbind_Ok {A B} (m : Parsed A) (k : A -> text -> Parsed B) r :
  pbind m k = Some (Ok r) -> exists a rest, m = Some (Ok (a, rest)) /\ k a rest = Some (Ok r).
Proof. destruct m as [[[a rest]|]|]; simpl; [eauto|done|done]. Qed.

Lemma pbind_Some {A B} (m : Parsed A) (k : A -> text -> Parsed B) :
  m <> None -> (forall a rest, m = Some (Ok (a, rest)) -> k a rest <> None) -> pbind m k <> None.
Proof. destruct m as [[[a rest]|]|]; simpl; auto. Qed.

(** Every success consumes input. *)
Lemma parsers_consume total fuel :
  (forall depth input v rest, value total fuel depth input = Some (Ok (v, rest)) ->
     (length rest < length input)%nat)
  /\ (forall depth input v rest, list_values total fuel depth input = Some (Ok (v, rest)) ->
     (length rest < length input)%nat)
  /\ (forall depth input entries v rest, dict_entries total fuel depth input entries = Some (Ok (v, rest)) ->
     (length rest < length input)%nat).
Proof.
  induction fuel as [|fuel (IHv & IHl & IHd)]; [done|]. split_and!.
  - intros depth input v rest. cbn [value]. case_match; [done|]. destruct input as [|b input]; [done|].
    destruct (decide (b = x69)).
    { intros [= E]. apply integer_shorter in E. simpl. lia. }
    destruct (decide (b = x6c)).
    { intros (l & r & E & [= _ <-])%pbind_Ok. apply IHl in E. simpl. lia. }
    destruct (decide (b = x64)).
    { intros (d & r & E & [= _ <-])%pbind_Ok. apply IHd in E. simpl. lia. }
    case_match; [|done]. intros (s & r & [= E] & [= _ <-])%pbind_Ok. by apply bytes_shorter in E.
  - intros depth [|b input] v rest.
    + rewrite list_values_nil. intros (a & r & E%IHv & _)%pbind_Ok. simpl in E. lia.
    + rewrite list_values_eq. case_decide.
      { intros [= _ <-]. simpl. lia. }
      intros (a & r & E%IHv & (l & r2 & E2%IHl & [= _ <-])%pbind_Ok)%pbind_Ok. simpl in *. lia.
  - intros depth [|b input] entries v rest.
    + rewrite dict_entries_nil. by intros (a & r & [=] & _)%pbind_Ok.
    + rewrite dict_entries_eq. case_decide.
      { intros [= _ <-]. simpl. lia. }
      intros (a & r & [= E%bytes_shorter] & (w & r2 & E2%IHv & E3%IHd)%pbind_Ok)%pbind_Ok. simpl in *. lia.
Qed.

(** What is left is the end of the input. *)
Lemma integer_suffix rest v rest' : integer rest = Ok (v, rest') -> rest' `suffix_of` rest.
Proof.
  unfold integer. destruct (split_once x65 rest) as [[d r]|] eqn:E; [|done]. simpl.
  destruct (parse_i64 d); [|done]. intros [= _ <-]. apply split_once_Some in E as [-> _].
  apply suffix_app_r, suffix_cons_r. done.
Qed.
Lemma bytes_suffix total input b rest : bytes total input = Ok (b, rest) -> rest `suffix_of` input.
Proof.
  unfold bytes. destruct (split_once x3a input) as [[d r]|] eqn:E; [|done]. simpl.
  destruct (parse_u64 d) as [n|]; [|done]. simpl. destruct (checked_add _ _); [|done]. simpl.
  case_match; [done|]. intros [= _ <-]. apply split_once_Some in E as [-> _].
  apply suffix_app_r, suffix_cons_r. exists (take (Z.to_nat n) r). by rewrite take_drop.
Qed.

Lemma parsers_suffix total fuel :
  (forall depth input v rest, value total fuel depth input = Some (Ok (v, rest)) -> rest `suffix_of` input)
  /\ (forall depth input v rest,
        list_values total fuel depth input = Some (Ok (v, rest)) -> rest `suffix_of` input)
  /\ (forall depth input entries v rest,
        dict_entries total fuel depth input entries = Some (Ok (v, rest)) -> rest `suffix_of` input).
Proof.
  induction fuel as [|fuel (IHv & IHl & IHd)]; [done|]. split_and!.
  - intros depth input v rest. cbn [value]. case_match; [done|]. destruct input as [|b input]; [done|].
    destruct (decide (b = x69)).
    { intros [= E]. apply integer_suffix in E. by apply suffix_cons_r. }
    destruct (decide (b = x6c)).
    { intros (l & r & E & [= _ <-])%pbind_Ok. apply IHl in E. by apply suffix_cons_r. }
    destruct (decide (b = x64)).
    { intros (d & r & E & [= _ <-])%pbind_Ok. apply IHd in E. by apply suffix_cons_r. }
    case_match; [|done]. intros (s & r & [= E] & [= _ <-])%pbind_Ok. by apply bytes_suffix in E.
  - intros depth [|b input] v rest.
    + rewrite list_values_nil. intros (a & r & E%IHv & (l & r2 & E2%IHl & [= _ <-])%pbind_Ok)%pbind_Ok.
      by transitivity r.
    + rewrite list_values_eq. case_decide; [intros [= _ <-]; by apply suffix_cons_r|].
      intros (a & r & E%IHv & (l & r2 & E2%IHl & [= _ <-])%pbind_Ok)%pbind_Ok. by transitivity r.
  - intros depth [|b input] entries v rest.
    + rewrite dict_entries_nil. by intros (a & r & [=] & _)%pbind_Ok.
    + rewrite dict_entries_eq. case_decide; [intros [= _ <-]; by apply suffix_cons_r|].
      intros (a & r & [= E%bytes_suffix] & (w & r2 & E2%IHv & E3%IHd)%pbind_Ok)%pbind_Ok.
      transitivity r2; [done|by transitivity r].
Qed.

(** The fuel [parse_value] gives is enough, for every input. *)
Lemma parsers_fuel total fuel :
  (forall depth input, (2 * length input + 1 <= fuel)%nat -> value total fuel depth input <> None)
  /\ (forall depth input, (2 * length input + 2 <= fuel)%nat -> list_values total fuel depth input <> None)
  /\ (forall depth input entries, (2 * length input + 2 <= fuel)%nat ->
        dict_entries total fuel depth input entries <> None).
Proof.
  induction fuel as [|fuel (IHv & IHl & IHd)]; [split_and!; lia|].
  pose proof (parsers_consume total fuel) as (Cv & _ & _). split_and!.
  - intros depth input Hf. cbn [value]. case_match; [done|]. destruct input as [|b input]; [done|].
    simpl in Hf. destruct (decide (b = x69)); [done|].
    destruct (decide (b = x6c)); [apply pbind_Some; [apply IHl; lia|done]|].
    destruct (decide (b = x64)); [apply pbind_Some; [apply IHd; lia|done]|].
    case_match; [|done]. by apply pbind_Some.
  - intros depth [|b input] Hf; simpl in Hf.
    + rewrite list_values_nil. apply pbind_Some; [apply IHv; simpl; lia|].
      intros a r E%Cv. simpl in E. lia.
    + rewrite list_values_eq. case_decide; [done|]. apply pbind_Some; [apply IHv; simpl; lia|].
      intros a r E%Cv. simpl in E. apply pbind_Some; [apply IHl; lia|done].
  - intros depth [|b input] entries Hf; simpl in Hf.
    + rewrite dict_entries_nil. by apply pbind_Some.
    + rewrite dict_entries_eq. case_decide; [done|]. apply pbind_Some; [done|].
      intros key r [= E%bytes_shorter]. simpl in E. apply pbind_Some; [apply IHv; lia|].
      intros w r2 E2%Cv. apply IHd. lia.
Qed.

(** ** Well-formed values *)

Fixpoint height (v : BValue) : nat :=
  match v with
  | Integer _ | Bytes _ => 1
  | Dict d => S (list_max (map (fun e => height e.2) d))
  | BList l => S (list_max (map height l))
  end.

(** Keys in strictly increasing order. *)
Definition keys_sorted {A} (d : list (text * A)) : Prop :=
  forall i j a b, (i < j)%nat -> d !! i = Some a -> d !! j = Some b -> text_compare a.1 b.1 = Lt.

Fixpoint wf (v : BValue) : Prop :=
  match v with
  | Integer n => is_i64 n
  | Bytes _ => True
  | Dict d => keys_sorted d /\ foldr (fun e all => wf e.2 /\ all) True d
  | BList l => foldr (fun x all => wf x /\ all) True l
  end.

Lemma text_compare_antisym a b : text_compare b a = CompOpp (text_compare a b).
Proof.
  revert b. induction a as [|x a IH]; intros [|y b]; simpl; try done.
  rewrite (Z.compare_antisym (b2z x)). destruct (b2z x ?= b2z y); simpl; auto.
Qed.

Lemma bt_insert_last {A} k (v : A) d :
  (forall e, e ∈ d -> text_compare e.1 k = Lt) -> bt_insert k v d = d ++ [(k, v)].
Proof.
  induction d as [|[k' v'] d IH]; intros Hd; simpl; [done|].
  pose proof (Hd (k', v') ltac:(by left)) as Hlt. simpl in Hlt.
  rewrite (text_compare_antisym k' k), Hlt. simpl.
  rewrite IH; [done|]. intros e He. apply Hd. by right.
Qed.

(** ** The encoding of numbers and strings *)

Lemma parse_format_i64 n : is_i64 n -> parse_i64 (format_i64 n) = Some n.
Proof.
  intros [Hlo Hhi]. unfold format_i64. destruct (Z.ltb_spec n 0) as [Hn|Hn].
  - unfold parse_i64. destruct (format_u64 (- n)) as [|b s] eqn:E; [by apply format_u64_nonempty in E|].
    pose proof (format_u64_digits (- n) ltac:(lia)) as Hd. rewrite E in Hd.
    pose proof (parse_u64_digits (b :: s) ltac:(done) Hd) as Hp.
    rewrite <- Hp, <- E, parse_format_u64 by (unfold is_u64; lia). simpl.
    destruct (Z.leb_spec (- n) (2 ^ 63)) as [_|?]; [f_equal; lia|lia].
  - assert (Hhead : forall m, match format_u64 n with x2d :: _ => m = 0 | _ => True end).
    { pose proof (format_u64_digits n Hn) as Hd. destruct (format_u64 n) as [|b s]; [done|].
      apply andb_true_iff in Hd as [Hb _]. by destruct b. }
    unfold parse_i64.
    assert (Hcase : (match format_u64 n with
      | x2d :: s' => match s' with [] => None | _ => n ← parse_digits 0 s'; if n <=? 2 ^ 63 then Some (- n) else None end
      | _ => n ← parse_u64 (format_u64 n); if n <=? 2 ^ 63 - 1 then Some n else None end)
      = (n ← parse_u64 (format_u64 n); if n <=? 2 ^ 63 - 1 then Some n else None)).
    { specialize (Hhead 1). destruct (format_u64 n) as [|b s]; [done|]. by destruct b. }
    rewrite Hcase, parse_format_u64 by (unfold is_u64; lia). simpl.
    destruct (Z.leb_spec n (2 ^ 63 - 1)); [done|lia].
Qed.

Lemma digits_no_byte n c : 0 <= n -> is_digit c = false -> c ∉ format_u64 n.
Proof.
  intros Hn Hc Hin%list_elem_of_In. pose proof (format_u64_digits n Hn) as Hd.
  rewrite forallb_forall in Hd. specialize (Hd _ Hin). congruence.
Qed.

Lemma integer_round_trip n rest : is_i64 n -> integer (format_i64 n ++ x65 :: rest) = Ok (Integer n, rest).
Proof.
  intros Hn. unfold integer.
  rewrite (proj2 (split_once_Some x65 _ (format_i64 n) rest)); cycle 1.
  { split; [done|]. unfold format_i64. destruct (Z.ltb_spec n 0).
    - apply not_elem_of_cons. split; [done|]. by apply digits_no_byte; [lia|].
    - by apply digits_no_byte. }
  simpl. rewrite parse_format_i64 by done. done.
Qed.

Lemma bytes_round_trip total b rest :
  Z.of_nat (length (encode_bytes b ++ rest)) <= total <= u64_max ->
  bytes total (encode_bytes b ++ rest) = Ok (b, rest).
Proof.
  intros Ht. unfold encode_bytes in *. unfold bytes.
  rewrite <- app_assoc in *. rewrite !length_app in Ht. simpl in Ht.
  rewrite (proj2 (split_once_Some x3a _ (format_u64 (Z.of_nat (length b))) (b ++ rest))); cycle 1.
  { split; [done|]. by apply digits_no_byte; [lia|]. }
  cbn [ok_or mbind result_bind]. rewrite parse_format_u64 by (unfold is_u64; lia).
  cbn [ok_or mbind result_bind]. rewrite length_app.
  rewrite (proj2 (checked_add_Some _ _ (total - Z.of_nat (length rest)))) by lia.
  cbn [ok_or mbind result_bind]. destruct (Z.ltb_spec total (total - Z.of_nat (length rest))); [lia|].
  rewrite Nat2Z.id, take_app_length, drop_app_length. done.
Qed.

Lemma encode_bytes_head b : exists x r, encode_bytes b = x :: r /\ is_digit x = true.
Proof.
  unfold encode_bytes. pose proof (format_u64_digits (Z.of_nat (length b)) ltac:(lia)) as Hd.
  destruct (format_u64 _) as [|x s] eqn:E; [by apply format_u64_nonempty in E|].
  apply andb_true_iff in Hd as [Hx _]. by exists x, (s ++ x3a :: b).
Qed.

Lemma bencode_head v : exists x r, bencode v = x :: r /\ x <> x65.
Proof.
  destruct v; simpl; eauto. destruct (encode_bytes_head b) as (x & r & -> & Hx).
  exists x, r. split; [done|]. by intros ->.
Qed.

(** ** The round trip *)

(** What the parser of values does with the encoding of [v]. *)
Definition parses (v : BValue) : Prop :=
  forall total fuel depth rest,
    (depth + height v <= MAX_DEPTH)%nat -> (2 * length (bencode v ++ rest) + 1 <= fuel)%nat ->
    Z.of_nat (length (bencode v ++ rest)) <= total <= u64_max ->
    value total fuel depth (bencode v ++ rest) = Some (Ok (v, rest)).

Lemma list_round_trip l :
  Forall parses l -> forall total fuel depth rest,
    (depth + list_max (map height l) <= MAX_DEPTH)%nat ->
    (2 * length (mjoin (map bencode l) ++ x65 :: rest) + 2 <= fuel)%nat ->
    Z.of_nat (length (mjoin (map bencode l) ++ x65 :: rest)) <= total <= u64_max ->
    list_values total fuel depth (mjoin (map bencode l) ++ x65 :: rest) = Some (Ok (l, rest)).
Proof.
  induction 1 as [|v l Hv _ IH]; intros total fuel depth rest Hd Hf Ht;
    (destruct fuel as [|fuel]; [lia|]).
  { done. }
  change (mjoin (map bencode (v :: l))) with (bencode v ++ mjoin (map bencode l)) in *.
  change (list_max (map height (v :: l))) with (Nat.max (height v) (list_max (map height l))) in Hd.
  rewrite <- app_assoc in *. rewrite length_app in Hf, Ht.
  destruct (bencode_head v) as (x & r & Hx & Hne).
  rewrite Hx. rewrite <- app_comm_cons. rewrite list_values_eq, decide_False by done.
  rewrite app_comm_cons, <- Hx. rewrite (Hv total fuel depth); [|lia|rewrite length_app; lia|rewrite length_app; lia].
  cbn [pbind]. assert (0 < length (bencode v))%nat by (rewrite Hx; simpl; lia).
  rewrite IH by lia. done.
Qed.

Lemma keys_sorted_cons {A} (e : text * A) d :
  keys_sorted (e :: d) -> keys_sorted d /\ forall x, x ∈ d -> text_compare e.1 x.1 = Lt.
Proof.
  intros Hs. split.
  - intros i j a b Hij Ha Hb. by apply (Hs (S i) (S j) a b); [lia| |].
  - intros x [i Hx]%list_elem_of_lookup. by apply (Hs 0%nat (S i) e x); [lia| |].
Qed.

Lemma dict_round_trip d :
  Forall (fun e => parses e.2) d -> forall total fuel depth rest acc,
    keys_sorted d -> (forall e x, e ∈ acc -> x ∈ d -> text_compare e.1 x.1 = Lt) ->
    (depth + list_max (map (fun e => height e.2) d) <= MAX_DEPTH)%nat ->
    (2 * length (mjoin (map (fun e => encode_bytes e.1 ++ bencode e.2) d) ++ x65 :: rest) + 2 <= fuel)%nat ->
    Z.of_nat (length (mjoin (map (fun e => encode_bytes e.1 ++ bencode e.2) d) ++ x65 :: rest)) <= total <= u64_max ->
    dict_entries total fuel depth (mjoin (map (fun e => encode_bytes e.1 ++ bencode e.2) d) ++ x65 :: rest) acc
    = Some (Ok (acc ++ d, rest)).
Proof.
  induction 1 as [|[k v] d Hv _ IH]; intros total fuel depth rest acc Hs Hacc Hd Hf Ht;
    (destruct fuel as [|fuel]; [lia|]).
  { rewrite app_nil_r. done. }
  set (enc := fun e : text * BValue => encode_bytes e.1 ++ bencode e.2) in *.
  change (mjoin (map enc ((k, v) :: d))) with ((encode_bytes k ++ bencode v) ++ mjoin (map enc d)) in *.
  change (list_max (map (fun e => height e.2) ((k, v) :: d)))
    with (Nat.max (height v) (list_max (map (fun e : text * BValue => height e.2) d))) in Hd.
  rewrite <- !app_assoc in *. rewrite !length_app in Hf, Ht. simpl in Hv.
  apply keys_sorted_cons in Hs as [Hs Hlt].
  destruct (encode_bytes_head k) as (x & r & Hx & Hdig).
  assert (Hne : x <> x65) by (by intros ->).
  rewrite Hx, <- app_comm_cons, dict_entries_eq, decide_False by done.
  rewrite app_comm_cons, <- Hx.
  rewrite bytes_round_trip by (rewrite !length_app; lia). cbn [pbind].
  assert (0 < length (encode_bytes k))%nat by (rewrite Hx; simpl; lia).
  rewrite (Hv total fuel depth); [|lia|rewrite !length_app; lia|rewrite !length_app; lia]. cbn [pbind].
  rewrite bt_insert_last by (intros e He; apply (Hacc e (k, v)); [done|by left]).
  destruct (bencode_head v) as (y & s & Hy & _).
  assert (0 < length (bencode v))%nat by (rewrite Hy; simpl; lia).
  rewrite IH; [by rewrite <- app_assoc|done| |lia|rewrite !length_app; lia|rewrite !length_app; lia].
  intros e z He Hz. apply elem_of_app in He as [He|He%list_elem_of_singleton].
  - apply Hacc; [done|by right].
  - subst e. by apply Hlt.
Qed.

Lemma value_round_trip v : wf v -> parses v.
Proof.
  induction v as [n|b|d IH|l IH] using BValue_nested_ind; intros Hwf total fuel depth rest Hd Hf Ht;
    (destruct fuel as [|fuel]; [lia|]); cbn [value bencode] in *; unfold MAX_DEPTH in *;
    (destruct (Nat.leb_spec 32 depth); [simpl in Hd; lia|]).
  - simpl in *. rewrite <- app_assoc. simpl. by rewrite integer_round_trip.
  - destruct (encode_bytes_head b) as (x & r & Hx & Hdig).
    rewrite Hx. rewrite <- app_comm_cons. rewrite !decide_False by (by intros ->). rewrite Hdig.
    rewrite app_comm_cons, <- Hx, bytes_round_trip by done. done.
  - simpl in Hf, Ht, Hd |- *. rewrite <- app_assoc in *. simpl in *.
    rewrite (dict_round_trip d) with (acc := []); unfold MAX_DEPTH; try done; try lia.
    + apply Forall_forall. intros e He. rewrite Forall_forall in IH. apply IH; [done|].
      destruct Hwf as [_ Hall]. clear -Hall He. induction d as [|e' d IHd]; [by apply not_elem_of_nil in He|].
      simpl in Hall. apply elem_of_cons in He as [->|He]; [tauto|]. apply IHd; tauto.
    + apply Hwf.
    + intros e x He. by apply not_elem_of_nil in He.
  - simpl in Hf, Ht, Hd |- *. rewrite <- app_assoc in *. simpl in *.
    rewrite (list_round_trip l); unfold MAX_DEPTH; try done; try lia.
    apply Forall_forall. intros e He. rewrite Forall_forall in IH. apply IH; [done|].
    clear -Hwf He. induction l as [|e' l IHl]; [by apply not_elem_of_nil in He|].
    simpl in Hwf. apply elem_of_cons in He as [->|He]; [tauto|]. apply IHl; tauto.
Qed.

(** ** Claims *)

Module BencodeClaims.

(** C30: the parser always answers: on every input, from any depth, the nested
    calls of [value] end within twice the length of the input, whatever the
    nesting of its lists and dictionaries, and a value that is read leaves
    strictly less input. *)
Theorem bencode_parser_total (input : text) (depth : nat) :
  exists r, value (Z.of_nat (length input)) (2 * length input + 1) depth input = Some r
            /\ forall v rest, r = Ok (v, rest) -> (length rest < length input)%nat.
Proof.
  destruct (value _ _ depth input) as [r|] eqn:E.
  - exists r. split; [done|]. intros v rest ->.
    by apply (proj1 (parsers_consume _ _)) in E.
  - exfalso. revert E. apply (proj1 (parsers_fuel _ _)). lia.
Qed.

(** C31: reading the encoding of a value gives the value back and consumes
    exactly the encoding: a value whose numbers fit in [i64], whose
    dictionaries have their keys in increasing order and which is nested at
    most 32 deep. *)
Theorem bencode_round_trip (v : BValue) (rest : text)
  (Hwf : wf v) (Hheight : (height v <= 32)%nat)
  (Hlen : Z.of_nat (length (bencode v ++ rest)) <= u64_max) :
  parse_value (bencode v ++ rest) = Ok (v, rest).
Proof.
  unfold parse_value. rewrite (value_round_trip v Hwf); [done|unfold MAX_DEPTH; lia|lia|lia].
Qed.

Lemma bencode_round_trip_witness :
  let v := Dict [(str "interval", Integer 900); (str "m", BList [Bytes (str "peer"); Integer (-7)])] in
  bencode v = str "d8:intervali900e1:ml4:peeri-7eee"
  /\ parse_value (bencode v ++ str "tail") = Ok (v, str "tail").
Proof.
  split; [vm_compute; reflexivity|]. apply bencode_round_trip.
  - split; [|split; [by vm_compute|split; [split; [done|split; [by vm_compute|done]]|done]]].
    intros [|[|i]] [|[|j]] a b Hij; simpl; intros [= <-] [= <-]; try lia; reflexivity.
  - vm_compute. lia.
  - vm_compute. discriminate.
Defined.

End BencodeClaims.
