(* ===== verification/PeerWire.v ===== *)
(** * The BitTorrent peer protocol ([p2p_network.rs])

    Big-endian integers, the 68-byte handshake and the length-prefixed peer
    messages. *)

From Stdlib Require Import Strings.Byte Strings.String.
From S2P Require Import Prelude Bytes Error.

(** ** Big-endian integers *)

Definition u16_max : Z := 2 ^ 16 - 1.
Definition u32_max : Z := 2 ^ 32 - 1.
Definition is_u32 (z : Z) : Prop := 0 <= z <= u32_max.

(** [to_be_bytes] of an [n]-byte integer. *)
Fixpoint be_bytes (n : nat) (z : Z) : text :=
  match n with
  | O => []
  | S n' => z2b (z / 256 ^ Z.of_nat n' mod 256) :: be_bytes n' z
  end.
(** [from_be_bytes]. *)
Fixpoint from_be (s : text) : Z :=
  match s with
  | [] => 0
  | b :: s' => b2z b * 256 ^ Z.of_nat (length s') + from_be s'
  end.

Lemma length_be_bytes n z : length (be_bytes n z) = n.
Proof. induction n; simpl; auto. Qed.

Lemma from_be_range s : 0 <= from_be s < 256 ^ Z.of_nat (length s).
Proof.
  induction s as [|b s IH]; [simpl; lia|]. cbn [from_be length].
  pose proof (b2z_range b). rewrite Nat2Z.inj_succ, Z.pow_succ_r by lia. nia.
Qed.

Lemma from_be_bytes n z : 0 <= z -> from_be (be_bytes n z) = z mod 256 ^ Z.of_nat n.
Proof.
  intros Hz. induction n as [|n IH]; [simpl; by rewrite Z.mod_1_r|]. cbn [be_bytes from_be].
  rewrite IH, length_be_bytes, b2z_z2b by (apply Z.mod_pos_bound; lia).
  rewrite Nat2Z.inj_succ, Z.pow_succ_r, (Z.mul_comm 256), Z.rem_mul_r by lia. lia.
Qed.

Lemma from_be_bytes_small n z : 0 <= z < 256 ^ Z.of_nat n -> from_be (be_bytes n z) = z.
Proof. intros H. rewrite from_be_bytes by lia. by apply Z.mod_small. Qed.

Lemma be_bytes_add n z k : be_bytes n (k * 256 ^ Z.of_nat n + z) = be_bytes n z.
Proof.
  assert (H : forall m a, (m <= n)%nat -> be_bytes m (a * 256 ^ Z.of_nat n + z) = be_bytes m z).
  { induction m as [|m IH]; intros a Hm; [done|]. cbn [be_bytes]. rewrite IH by lia. f_equal. f_equal.
    replace (a * 256 ^ Z.of_nat n + z)
      with (z + (a * 256 ^ (Z.of_nat n - Z.of_nat m - 1) * 256) * 256 ^ Z.of_nat m).
    - rewrite Z.div_add by lia. by rewrite Z.mod_add.
    - replace (Z.of_nat n) with ((Z.of_nat n - Z.of_nat m - 1) + 1 + Z.of_nat m) at 2 by lia.
      rewrite !Z.pow_add_r by lia. lia. }
  by apply H.
Qed.

Lemma be_bytes_from_be s : be_bytes (length s) (from_be s) = s.
Proof.
  induction s as [|b s IH]; [done|]. cbn [length be_bytes from_be].
  pose proof (from_be_range s) as Hr. pose proof (b2z_range b).
  rewrite be_bytes_add, IH. f_equal.
  rewrite Z.add_comm, Z.div_add by lia. rewrite Z.div_small, Z.mod_small by lia. apply z2b_b2z.
Qed.

(** [&input[a..b]], for bounds inside the input. *)
Definition slice (a b : nat) (s : text) : text := take (b - a) (drop a s).

(** ** The handshake *)

Record BitTorrentHandshake : Type := mk_BitTorrentHandshake {
  reserved : text;
  hs_info_hash : text;
  peer_id : text;
}.

Definition protocol : text := str "BitTorrent protocol".

Definition encode_handshake (h : BitTorrentHandshake) : text :=
  z2b 19 :: protocol ++ reserved h ++ hs_info_hash h ++ peer_id h.

Definition parse_handshake (input : text) : Result BitTorrentHandshake :=
  if negb (Nat.eqb (length input) 68)
     || negb (bool_decide (slice 0 1 input = [z2b 19]))
     || negb (bool_decide (slice 1 20 input = protocol))
  then Err (ProxyError.Parse (str "invalid BitTorrent handshake"))
  else Ok (mk_BitTorrentHandshake (slice 20 28 input) (slice 28 48 input) (slice 48 68 input)).

(** ** Peer messages *)

Module PeerMessage.
Inductive t : Type :=
| KeepAlive
| Choke
| Unchoke
| Interested
| NotInterested
| Have (index : Z)
| Bitfield (bits : text)
| Request (index begin length : Z)
| Piece (index begin : Z) (block : text)
| Cancel (index begin length : Z)
| Port (port : Z)
| Extended (extension_id : byte) (payload : text).
End PeerMessage.

Definition MAX_PEER_MESSAGE_BYTES : Z := 1024 * 1024.
Definition MAX_REQUEST_BLOCK_BYTES : Z := 16 * 1024.

Definition too_long (s : text) (limit : Z) : bool := limit <? Z.of_nat (length s).

Definition u32_at (s : text) : Result Z :=
  if negb (Nat.eqb (length s) 4)
  then Err (ProxyError.Parse (str "invalid peer message fields"))
  else Ok (from_be s).

(** The match on the message id. *)
Definition parse_payload (payload : text) : Result PeerMessage.t :=
  let malformed := Err (ProxyError.Parse (str "unsupported or malformed peer message")) in
  match payload with
  | [] => Ok PeerMessage.KeepAlive
  | id :: body =>
      match b2z id with
      | 0 => if Nat.eqb (length body) 0 then Ok PeerMessage.Choke else malformed
      | 1 => if Nat.eqb (length body) 0 then Ok PeerMessage.Unchoke else malformed
      | 2 => if Nat.eqb (length body) 0 then Ok PeerMessage.Interested else malformed
      | 3 => if Nat.eqb (length body) 0 then Ok PeerMessage.NotInterested else malformed
      | 4 => index ← u32_at body; Ok (PeerMessage.Have index)
      | 5 => Ok (PeerMessage.Bitfield body)
      | 6 =>
          if Nat.eqb (length body) 12 then
            index ← u32_at (slice 0 4 body);
            begin ← u32_at (slice 4 8 body);
            len ← u32_at (drop 8 body);
            Ok (PeerMessage.Request index begin len)
          else malformed
      | 7 =>
          if Nat.leb 8 (length body) then
            index ← u32_at (slice 0 4 body);
            begin ← u32_at (slice 4 8 body);
            Ok (PeerMessage.Piece index begin (drop 8 body))
          else malformed
      | 8 =>
          if Nat.eqb (length body) 12 then
            index ← u32_at (slice 0 4 body);
            begin ← u32_at (slice 4 8 body);
            len ← u32_at (drop 8 body);
            Ok (PeerMessage.Cancel index begin len)
          else malformed
      | 9 => if Nat.eqb (length body) 2 then Ok (PeerMessage.Port (from_be body)) else malformed
      | 20 =>
          match body with
          | [] => malformed
          | extension_id :: payload => Ok (PeerMessage.Extended extension_id payload)
          end
      | _ => malformed
      end
  end.

Definition parse_peer_message (input : text) : Result PeerMessage.t :=
  if Nat.ltb (length input) 4 then Err (ProxyError.Parse (str "truncated peer message length"))
  else
    let len := from_be (slice 0 4 input) in
    if (MAX_PEER_MESSAGE_BYTES <? len) || negb (Z.of_nat (length input) =? len + 4)
    then Err (ProxyError.Parse (str "invalid peer message length"))
    else parse_payload (drop 4 input).

(** The payload of a message, the id first; [KeepAlive] has none. *)
Definition encode_payload (m : PeerMessage.t) : Result text :=
  match m with
  | PeerMessage.KeepAlive => Ok []
  | PeerMessage.Choke => Ok [z2b 0]
  | PeerMessage.Unchoke => Ok [z2b 1]
  | PeerMessage.Interested => Ok [z2b 2]
  | PeerMessage.NotInterested => Ok [z2b 3]
  | PeerMessage.Have index => Ok (z2b 4 :: be_bytes 4 index)
  | PeerMessage.Bitfield bits =>
      if too_long bits (MAX_PEER_MESSAGE_BYTES - 1)
      then Err (ProxyError.Request (str "peer bitfield is too large"))
      else Ok (z2b 5 :: bits)
  | PeerMessage.Request index begin length =>
      Ok (z2b 6 :: be_bytes 4 index ++ be_bytes 4 begin ++ be_bytes 4 length)
  | PeerMessage.Piece index begin block =>
      if too_long block (MAX_PEER_MESSAGE_BYTES - 9)
      then Err (ProxyError.Request (str "peer block is too large"))
      else Ok (z2b 7 :: be_bytes 4 index ++ be_bytes 4 begin ++ block)
  | PeerMessage.Cancel index begin length =>
      Ok (z2b 8 :: be_bytes 4 index ++ be_bytes 4 begin ++ be_bytes 4 length)
  | PeerMessage.Port port => Ok (z2b 9 :: be_bytes 2 port)
  | PeerMessage.Extended extension_id payload =>
      if too_long payload (MAX_PEER_MESSAGE_BYTES - 2)
      then Err (ProxyError.Request (str "extended peer message is too large"))
      else Ok (z2b 20 :: extension_id :: payload)
  end.

Definition encode_peer_message (m : PeerMessage.t) : Result text :=
  match m with
  | PeerMessage.KeepAlive => Ok [x00; x00; x00; x00]
  | _ =>
      payload ← encode_payload m;
      if u32_max <? Z.of_nat (length payload)
      then Err (ProxyError.Request (str "peer message is too large"))
      else Ok (be_bytes 4 (Z.of_nat (length payload)) ++ payload)
  end.

Definition validate_block_request (begin length : Z) : Result unit :=
  if (length =? 0) || (MAX_REQUEST_BLOCK_BYTES <? length) || (u32_max <? begin + length)
  then Err (ProxyError.Request (str "invalid peer block request"))
  else Ok tt.

(** ** The messages that fit their fields *)

Definition fits (m : PeerMessage.t) : Prop :=
  match m with
  | PeerMessage.Have index => is_u32 index
  | PeerMessage.Request index begin len | PeerMessage.Cancel index begin len =>
      is_u32 index /\ is_u32 begin /\ is_u32 len
  | PeerMessage.Piece index begin _ => is_u32 index /\ is_u32 begin
  | PeerMessage.Port port => 0 <= port <= u16_max
  | _ => True
  end.
Definition handshake_sized (h : BitTorrentHandshake) : Prop :=
  length (reserved h) = 8%nat /\ length (hs_info_hash h) = 20%nat /\ length (peer_id h) = 20%nat.

(** ** Field lemmas *)

Lemma u32_at_be z : is_u32 z -> u32_at (be_bytes 4 z) = Ok z.
Proof.
  intros Hz. unfold u32_at. rewrite length_be_bytes. simpl negb. cbv iota.
  rewrite from_be_bytes_small; [done|]. unfold is_u32, u32_max in Hz. simpl. lia.
Qed.

Lemma u32_at_Ok s z : u32_at s = Ok z <-> is_u32 z /\ s = be_bytes 4 z.
Proof.
  split.
  - unfold u32_at. destruct (Nat.eqb_spec (length s) 4) as [Hl|]; [|done]. intros [= <-].
    pose proof (from_be_range s) as Hr. rewrite Hl in Hr. split; [unfold is_u32, u32_max; simpl in Hr; lia|].
    by rewrite <- Hl, be_bytes_from_be.
  - intros [Hz ->]. by apply u32_at_be.
Qed.

Lemma slice_skip a b s t : length s = a -> (a <= b)%nat -> slice a b (s ++ t) = take (b - a) t.
Proof. intros <- _. unfold slice. by rewrite drop_app_length. Qed.
Lemma slice_split a b s : (a <= b)%nat -> drop a s = slice a b s ++ drop b s.
Proof.
  intros H. unfold slice. rewrite <- (take_drop (b - a) (drop a s)) at 1.
  rewrite drop_drop. by replace (a + (b - a))%nat with b by lia.
Qed.
Lemma length_slice a b s : (a <= b)%nat -> (b <= length s)%nat -> length (slice a b s) = (b - a)%nat.
Proof. intros. unfold slice. rewrite length_take, length_drop. lia. Qed.

(** * The peer protocol: what is encoded is what is read

    The parsers accept exactly the encodings of the handshakes and messages
    whose fields fit, and read them back. *)

Local Arguments u32_at : simpl never.
Local Arguments slice : simpl never.
Local Arguments be_bytes : simpl never.
Local Arguments Z.mul : simpl never.

(** ** The fields of a body *)

Lemma length_eq_4 s : length s = 4%nat -> exists z, is_u32 z /\ s = be_bytes 4 z.
Proof.
  intros H. exists (from_be s). apply u32_at_Ok. unfold u32_at. by rewrite H.
Qed.

Lemma slice_word_0 i r : slice 0 4 (be_bytes 4 i ++ r) = be_bytes 4 i.
Proof. unfold slice. rewrite drop_0, Nat.sub_0_r, take_app_length'; [done|by rewrite length_be_bytes]. Qed.
Lemma slice_word_4 i b r : slice 4 8 (be_bytes 4 i ++ be_bytes 4 b ++ r) = be_bytes 4 b.
Proof.
  rewrite slice_skip by (rewrite ?length_be_bytes; lia).
  rewrite take_app_length'; [done|by rewrite length_be_bytes].
Qed.
Lemma drop_words i b r : drop 8 (be_bytes 4 i ++ be_bytes 4 b ++ r) = r.
Proof. rewrite app_assoc, drop_app_length'; [done|]. by rewrite length_app, !length_be_bytes. Qed.

Lemma two_words body :
  (8 <= length body)%nat -> exists i b r,
    is_u32 i /\ is_u32 b /\ body = be_bytes 4 i ++ be_bytes 4 b ++ r /\ length r = (length body - 8)%nat.
Proof.
  intros H.
  destruct (length_eq_4 (slice 0 4 body)) as (i & Hi & Ei); [rewrite length_slice; lia|].
  destruct (length_eq_4 (slice 4 8 body)) as (b & Hb & Eb); [rewrite length_slice; lia|].
  exists i, b, (drop 8 body). split_and!; [done|done| |by rewrite length_drop].
  rewrite <- Ei, <- Eb, <- slice_split, <- slice_split by lia. by rewrite drop_0.
Qed.

(** The shape of every read of two or three words. *)
Lemma read_two {B} i b r (k : Z -> Z -> Result B) :
  is_u32 i -> is_u32 b ->
  (x ← u32_at (slice 0 4 (be_bytes 4 i ++ be_bytes 4 b ++ r));
   y ← u32_at (slice 4 8 (be_bytes 4 i ++ be_bytes 4 b ++ r)); k x y) = k i b.
Proof.
  intros Hi Hb. rewrite slice_word_0, u32_at_be by done. cbn.
  rewrite slice_word_4, u32_at_be by done. done.
Qed.

Lemma three_words {B} body (k : Z -> Z -> Z -> B) m :
  length body = 12%nat ->
  (x ← u32_at (slice 0 4 body); y ← u32_at (slice 4 8 body); z ← u32_at (drop 8 body); Ok (k x y z)) = Ok m ->
  exists i b l, is_u32 i /\ is_u32 b /\ is_u32 l /\ m = k i b l
                /\ body = be_bytes 4 i ++ be_bytes 4 b ++ be_bytes 4 l.
Proof.
  intros H. destruct (two_words body) as (i & b & r & Hi & Hb & -> & Hr); [lia|].
  rewrite H in Hr. destruct (length_eq_4 r Hr) as (l & Hl & ->).
  rewrite read_two, drop_words, u32_at_be by done. intros [= <-]. by exists i, b, l.
Qed.

Lemma read_three {B} i b l (k : Z -> Z -> Z -> B) :
  is_u32 i -> is_u32 b -> is_u32 l ->
  let body := be_bytes 4 i ++ be_bytes 4 b ++ be_bytes 4 l in
  (x ← u32_at (slice 0 4 body); y ← u32_at (slice 4 8 body); z ← u32_at (drop 8 body); Ok (k x y z))
  = Ok (k i b l).
Proof. intros Hi Hb Hl. cbv zeta. rewrite read_two, drop_words, u32_at_be by done. done. Qed.

Lemma too_long_false s limit : too_long s limit = false <-> Z.of_nat (length s) <= limit.
Proof. unfold too_long. by destruct (Z.ltb_spec limit (Z.of_nat (length s))); split; try done; lia. Qed.

(** ** Payloads *)


Lemma parse_encode_payload m p :
  fits m -> encode_payload m = Ok p ->
  parse_payload p = Ok m /\ Z.of_nat (length p) <= MAX_PEER_MESSAGE_BYTES.
Proof.
  unfold MAX_PEER_MESSAGE_BYTES.
  destruct m; cbn [fits encode_payload]; intros Hf;
    try (case_match eqn:Hlen; [done|]; apply too_long_false in Hlen; unfold MAX_PEER_MESSAGE_BYTES in Hlen);
    intros [= <-]; cbn [parse_payload];
    change (b2z (z2b 0)) with 0; change (b2z (z2b 1)) with 1; change (b2z (z2b 2)) with 2;
    change (b2z (z2b 3)) with 3; change (b2z (z2b 4)) with 4; change (b2z (z2b 5)) with 5;
    change (b2z (z2b 6)) with 6; change (b2z (z2b 7)) with 7; change (b2z (z2b 8)) with 8;
    change (b2z (z2b 9)) with 9; change (b2z (z2b 20)) with 20; cbv iota;
    cbn [Datatypes.length]; rewrite ?length_app, ?length_be_bytes; (split; [|lia]); try done.
  - by rewrite u32_at_be.
  - destruct Hf as (? & ? & ?). by apply (read_three _ _ _ PeerMessage.Request).
  - destruct Hf as (? & ?). etrans.
    + by apply (read_two index begin block (fun x y =>
        Ok (PeerMessage.Piece x y (drop 8 (be_bytes 4 index ++ be_bytes 4 begin ++ block))))).
    + by rewrite drop_words.
  - destruct Hf as (? & ? & ?). by apply (read_three _ _ _ PeerMessage.Cancel).
  - rewrite from_be_bytes_small; [done|]. unfold u16_max in Hf. simpl. lia.
Qed.

Lemma encode_parse_payload m p :
  Z.of_nat (length p) <= MAX_PEER_MESSAGE_BYTES -> parse_payload p = Ok m ->
  fits m /\ encode_payload m = Ok p.
Proof.
  unfold MAX_PEER_MESSAGE_BYTES. intros Hlen.
  destruct p as [|id body]; [by intros [= <-]|]. cbn [Datatypes.length] in Hlen.
  assert (Hid : id = z2b (b2z id)) by (by rewrite z2b_b2z).
  cbn [parse_payload]. destruct (b2z id) as [|n|] eqn:Eid; [|..|done].
  - destruct (Nat.eqb_spec (length body) 0) as [->%nil_length_inv|]; [|done]. intros [= <-]. by rewrite Hid.
  - rewrite Hid.
    repeat (destruct n as [n|n|]; try done).
    all: try (destruct (Nat.eqb_spec (length body) 0) as [->%nil_length_inv|]; [|done]; intros [= <-]; done).
    + destruct (Nat.leb_spec 8 (length body)) as [H8|]; [|done].
      destruct (two_words body H8) as (i & b & r & Hi & Hb & -> & Hr).
      rewrite read_two, drop_words by done. intros [= <-]. split; [done|]. cbn [encode_payload].
      rewrite (proj2 (too_long_false _ _)); [done|unfold MAX_PEER_MESSAGE_BYTES; lia].
    + destruct (Nat.eqb_spec (length body) 2) as [H2|]; [|done]. intros [= <-].
      pose proof (from_be_range body) as Hr. rewrite H2 in Hr. split.
      * unfold fits, u16_max. simpl in Hr. lia.
      * cbn [encode_payload]. by rewrite <- H2, be_bytes_from_be.
    + intros [= <-]. split; [done|]. cbn [encode_payload].
      rewrite (proj2 (too_long_false _ _)); [done|unfold MAX_PEER_MESSAGE_BYTES; lia].
    + destruct (Nat.eqb_spec (length body) 12) as [H12|]; [|done].
      intros (i & b & l & ? & ? & ? & -> & ->)%three_words; done.
    + destruct body as [|x body]; [done|]. intros [= <-]. split; [done|]. cbn [encode_payload].
      cbn [Datatypes.length] in Hlen. rewrite (proj2 (too_long_false _ _)); [done|].
      unfold MAX_PEER_MESSAGE_BYTES. lia.
    + destruct (Nat.eqb_spec (length body) 12) as [H12|]; [|done].
      intros (i & b & l & ? & ? & ? & -> & ->)%three_words; done.
    + destruct (u32_at body) as [i|] eqn:E; [|done]. apply u32_at_Ok in E as [Hi ->]. by intros [= <-].
Qed.

(** ** Frames *)

Lemma encode_frame m p :
  encode_payload m = Ok p -> Z.of_nat (length p) <= MAX_PEER_MESSAGE_BYTES ->
  encode_peer_message m = Ok (be_bytes 4 (Z.of_nat (length p)) ++ p).
Proof.
  intros Hp Hlen. unfold MAX_PEER_MESSAGE_BYTES in Hlen. unfold encode_peer_message. rewrite Hp.
  assert (Hu : (u32_max <? Z.of_nat (length p)) = false) by (apply Z.ltb_ge; unfold u32_max; lia).
  destruct m; cbn; rewrite ?Hu; [|done..]. by injection Hp as <-.
Qed.

Lemma parse_frame p :
  Z.of_nat (length p) <= MAX_PEER_MESSAGE_BYTES ->
  parse_peer_message (be_bytes 4 (Z.of_nat (length p)) ++ p) = parse_payload p.
Proof.
  intros Hlen. unfold parse_peer_message. rewrite length_app, length_be_bytes. simpl Nat.ltb. cbv iota.
  rewrite slice_word_0, from_be_bytes_small by (unfold MAX_PEER_MESSAGE_BYTES in Hlen; simpl; lia).
  destruct (Z.ltb_spec MAX_PEER_MESSAGE_BYTES (Z.of_nat (length p))); [lia|]. cbv zeta.
  destruct (Z.eqb_spec (Z.of_nat (4 + length p)) (Z.of_nat (length p) + 4)); [|lia].
  simpl orb. cbv iota. rewrite drop_app_length'; [done|by rewrite length_be_bytes].
Qed.

Lemma parse_frame_inv b m :
  parse_peer_message b = Ok m -> exists p,
    b = be_bytes 4 (Z.of_nat (length p)) ++ p /\ Z.of_nat (length p) <= MAX_PEER_MESSAGE_BYTES
    /\ parse_payload p = Ok m.
Proof.
  unfold parse_peer_message. destruct (Nat.ltb_spec (length b) 4); [done|]. cbv zeta.
  destruct (Z.ltb_spec MAX_PEER_MESSAGE_BYTES (from_be (slice 0 4 b))); [done|].
  destruct (Z.eqb_spec (Z.of_nat (length b)) (from_be (slice 0 4 b) + 4)) as [Hl|]; [|done].
  simpl orb. cbv iota. intros Hp. exists (drop 4 b).
  assert (Hd : Z.of_nat (length (drop 4 b)) = from_be (slice 0 4 b)) by (rewrite length_drop; lia).
  rewrite Hd. split_and!; [|done|done].
  rewrite <- (length_slice 0 4 b) at 1 by lia. rewrite be_bytes_from_be.
  rewrite <- slice_split by lia. by rewrite drop_0.
Qed.

Lemma encode_ok_inv m b :
  fits m -> encode_peer_message m = Ok b -> exists p,
    b = be_bytes 4 (Z.of_nat (length p)) ++ p /\ encode_payload m = Ok p
    /\ Z.of_nat (length p) <= MAX_PEER_MESSAGE_BYTES.
Proof.
  intros Hf He. destruct (encode_payload m) as [p|] eqn:Hp.
  - destruct (parse_encode_payload m p Hf Hp) as [_ Hlen].
    rewrite (encode_frame m p Hp Hlen) in He. injection He as <-. eauto.
  - unfold encode_peer_message in He. destruct m; rewrite ?Hp in He; done.
Qed.

(** ** Claims *)

Module PeerWireClaims.

(** C32: the message parser accepts exactly the encodings: a frame is read as a
    message if and only if the message's fields fit their widths and its
    encoding is that frame, so encoding and parsing are inverse to each other
    and no two frames are read as the same message. *)
Theorem peer_message_round_trip (m : PeerMessage.t) (b : text) :
  parse_peer_message b = Ok m <-> fits m /\ encode_peer_message m = Ok b.
Proof.
  split.
  - intros (p & -> & Hlen & Hp)%parse_frame_inv.
    apply encode_parse_payload in Hp as [Hf He]; [|done]. split; [done|]. by apply encode_frame.
  - intros [Hf He]. destruct (encode_ok_inv m b Hf He) as (p & -> & Hp & Hlen).
    rewrite parse_frame by done. by apply parse_encode_payload.
Qed.

(** The handshake parser accepts exactly the 68-byte encodings of
    handshakes with an 8-byte reserved field and 20-byte hash and peer id. *)
Theorem handshake_round_trip (h : BitTorrentHandshake) (b : text) :
  parse_handshake b = Ok h <-> handshake_sized h /\ encode_handshake h = b.
Proof.
  unfold parse_handshake, encode_handshake, handshake_sized. split.
  - destruct (Nat.eqb_spec (length b) 68) as [Hl|]; [|done].
    destruct (decide (slice 0 1 b = [z2b 19])) as [H0|?];
      [rewrite bool_decide_true by done|by rewrite bool_decide_false by done].
    destruct (decide (slice 1 20 b = protocol)) as [H1|?];
      [rewrite bool_decide_true by done|by rewrite bool_decide_false by done].
    simpl orb. cbv iota. intros [= <-]. cbn [reserved hs_info_hash peer_id].
    split; [rewrite !length_slice by lia; lia|].
    rewrite <- H1. change (z2b 19 :: ?x) with ([z2b 19] ++ x). rewrite <- H0.
    assert (Hend : slice 48 68 b = drop 48 b)
      by (unfold slice; apply take_ge; rewrite length_drop; lia).
    rewrite Hend, <- !slice_split by lia. by rewrite drop_0.
  - destruct h as [r i p]. cbn [reserved hs_info_hash peer_id]. intros ((Hr & Hi & Hp) & <-).
    rewrite length_cons, !length_app, Hr, Hi, Hp. change (length protocol) with 19%nat. simpl Nat.eqb.
    change (slice 0 1 (z2b 19 :: ?x)) with [z2b 19].
    change (slice 1 20 (z2b 19 :: ?x)) with (take 19 x).
    rewrite take_app_length' by done. rewrite !bool_decide_true by done. simpl orb. cbv iota.
    unfold slice. change (z2b 19 :: ?x) with ([z2b 19] ++ x).
    f_equal. f_equal.
    + rewrite app_assoc, drop_app_length', take_app_length'; [done|lia|done].
    + rewrite (app_assoc [_]), (app_assoc (_ ++ _)), drop_app_length', take_app_length';
        [done|lia|rewrite !length_app, Hr; done].
    + rewrite (app_assoc [_]), (app_assoc (_ ++ _)), (app_assoc (_ ++ _)), drop_app_length', take_ge;
        [done|lia|rewrite !length_app, Hr, Hi; done].
Qed.

End PeerWireClaims.
