(* ===== verification/TorrentMeta.v ===== *)
(** * Torrent metadata ([p2p_network.rs])

    The torrent file and the raw info dictionary, the extension messages that
    carry the dictionary from a peer, and the lengths of the pieces.  SHA-1 is
    a parameter ([sha1] crate). *)

From Stdlib Require Import Strings.Byte Strings.String.
From S2P Require Import Prelude Bytes Error Bencode PeerWire.

(** ** The [sha1] crate *)

Class Sha1 : Type := sha1 : text -> text.
Class Sha1Laws `{Sha1} : Prop := { sha1_length s : length (sha1 s) = 20%nat }.

(** ** Option and iterator helpers *)

(** [Option::filter]. *)
Definition keep {A} (p : A -> bool) (o : option A) : option A :=
  match o with Some a => if p a then Some a else None | None => None end.
(** [u32::try_from(..).ok()] and [u8::try_from(..).ok()]. *)
Definition try_u32 (n : Z) : option Z := if n <=? u32_max then Some n else None.
Definition try_u8 (n : Z) : option Z := if n <=? 255 then Some n else None.
(** [u64::div_ceil]. *)
Definition div_ceil (a b : Z) : Z := a / b + (if a mod b =? 0 then 0 else 1).
(** [slice::chunks_exact]; the fuel is the length. *)
Fixpoint chunks_go (fuel n : nat) (s : text) : list text :=
  match fuel with
  | O => []
  | S fuel' => if Nat.ltb (length s) n then [] else take n s :: chunks_go fuel' n (drop n s)
  end.
Definition chunks_exact (n : nat) (s : text) : list text := chunks_go (length s) n s.
(** A loop that pushes the result of each step, or returns early. *)
Fixpoint try_map {A B E} (f : A -> result E B) (l : list A) : result E (list B) :=
  match l with
  | [] => Ok []
  | x :: l' => y ← f x; k ← try_map f l'; Ok (y :: k)
  end.

Definition MAX_METADATA : Z := 4 * 1024 * 1024.
Definition MAX_PIECE : Z := 8 * 1024 * 1024.
Definition METADATA_BLOCK : Z := 16 * 1024.

(** ** Data *)

Record TorrentFile : Type := mk_TorrentFile { tf_path : list text; tf_length : Z }.

Record TorrentMetadata : Type := mk_TorrentMetadata {
  info_hash : text;
  name : text;
  total_length : Z;
  piece_length : Z;
  piece_sha1 : list text;
  files : list TorrentFile;
}.

(** ** The files of an info dictionary *)

Abbreviation dict := (list (text * BValue)).

Definition unsafe_component (c : text) : bool :=
  bool_decide (c = []) || bool_decide (c = str ".") || bool_decide (c = str "..")
  || contains x2f c || contains x5c c.

Definition parse_path_component (v : BValue) : Result text :=
  match v with
  | Bytes c =>
      if negb (utf8_valid c) then Err (ProxyError.Parse (str "torrent path is not UTF-8"))
      else if unsafe_component c then Err (ProxyError.Parse (str "torrent path is unsafe"))
      else Ok c
  | _ => Err (ProxyError.Parse (str "torrent path component is invalid"))
  end.

Definition parse_file_entry (nm : text) (v : BValue) : Result TorrentFile :=
  match v with
  | Dict entry =>
      len ← ok_or (bt_get (str "length") entry ≫= integer_of)
              (ProxyError.Parse (str "torrent file length is invalid"));
      match bt_get (str "path") entry with
      | Some (BList components) =>
          if bool_decide (components = []) || Nat.ltb 128 (List.length components)
          then Err (ProxyError.Parse (str "torrent file path depth is invalid"))
          else
            path ← try_map parse_path_component components;
            Ok (mk_TorrentFile (nm :: path) len)
      | _ => Err (ProxyError.Parse (str "torrent file path is invalid"))
      end
  | _ => Err (ProxyError.Parse (str "torrent file entry is invalid"))
  end.

Definition parse_torrent_files (info : dict) (nm : text) : Result (list TorrentFile) :=
  match keep (fun n => 0 <? n) (bt_get (str "length") info ≫= integer_of) with
  | Some len =>
      match bt_get (str "files") info with
      | Some _ => Err (ProxyError.Parse (str "torrent mixes single and multi-file layouts"))
      | None => Ok [mk_TorrentFile [nm] len]
      end
  | None =>
      match bt_get (str "files") info with
      | Some (BList entries) =>
          if bool_decide (entries = []) || (100000 <? Z.of_nat (List.length entries))
          then Err (ProxyError.Parse (str "torrent file count is invalid"))
          else try_map (parse_file_entry nm) entries
      | _ => Err (ProxyError.Parse (str "torrent files are missing"))
      end
  end.

(** [files.iter().try_fold(0u64, ..checked_add..)]. *)
Definition sum_lengths (l : list TorrentFile) : option Z :=
  fold_left (fun total f => total ≫= fun t => checked_add t (tf_length f)) l (Some 0).

(** ** The torrent file *)

(** The loop over the root dictionary: the value of the [info] key and the
    bytes it was read from. *)
Fixpoint root_entries (total : Z) (fuel : nat) (input : text) (info : option (BValue * text)) :
    Parsed (option (BValue * text)) :=
  match fuel with
  | O => None
  | S fuel' =>
      match input with
      | x65 :: rest => Some (Ok (info, rest))
      | _ =>
          pbind (Some (bytes total input)) (fun key start =>
            pbind (value total fuel' 0 start) (fun v rest =>
              if bool_decide (key = str "info") then
                match info with
                | Some _ => Some (Err (ProxyError.Parse (str "duplicate torrent info dictionary")))
                | None =>
                    root_entries total fuel' rest
                      (Some (v, take (List.length start - List.length rest) start))
                end
              else root_entries total fuel' rest info))
      end
  end.

(** What the info dictionary says, once it has been found. *)
Definition parse_name (info : dict) : Result text :=
  match bt_get (str "name") info with
  | Some (Bytes v) =>
      if negb (utf8_valid v) then Err (ProxyError.Parse (str "torrent name is not UTF-8"))
      else if bool_decide (v = []) || contains x2f v || contains x5c v
      then Err (ProxyError.Parse (str "torrent name is unsafe"))
      else Ok v
  | _ => Err (ProxyError.Parse (str "torrent name is missing"))
  end.

Definition parse_pieces (info : dict) (total piece_len : Z) : Result (list text) :=
  match bt_get (str "pieces") info with
  | Some (Bytes v) =>
      let n := Z.of_nat (List.length v) in
      if bool_decide (v = []) || negb (n mod 20 =? 0)
      then Err (ProxyError.Parse (str "torrent pieces are invalid"))
      else if 1000000 <? n / 20
      then Err (ProxyError.Parse (str "torrent has too many pieces"))
      else if negb (n / 20 =? div_ceil total piece_len)
      then Err (ProxyError.Parse (str "torrent piece count does not match length"))
      else Ok (chunks_exact 20 v)
  | _ => Err (ProxyError.Parse (str "torrent pieces are invalid"))
  end.

Section Sha.
Context {SHA : Sha1}.

Definition metadata_of (info : dict) (span : text) : Result TorrentMetadata :=
  nm ← parse_name info;
  fs ← parse_torrent_files info nm;
  total ← ok_or (sum_lengths fs) (ProxyError.Parse (str "torrent total length overflow"));
  piece_len ← ok_or (keep (fun n => (0 <? n) && (n <=? MAX_PIECE))
                       ((bt_get (str "piece length") info ≫= integer_of) ≫= try_u32))
                (ProxyError.Parse (str "torrent piece length is invalid"));
  hashes ← parse_pieces info total piece_len;
  Ok (mk_TorrentMetadata (sha1 span) nm total piece_len hashes fs).

(** The fuel of [root_entries] excludes [None]. *)
Definition parse_torrent_metadata (input : text) : Result TorrentMetadata :=
  if bool_decide (input = []) || (MAX_METADATA <? Z.of_nat (List.length input))
  then Err (ProxyError.Parse (str "invalid torrent metadata size"))
  else
    match input with
    | x64 :: rest =>
        match root_entries (Z.of_nat (List.length input)) (2 * List.length input + 2) rest None with
        | Some (Ok (info, rest)) =>
            if negb (bool_decide (rest = []))
            then Err (ProxyError.Parse (str "torrent metadata has trailing bytes"))
            else
              match info with
              | None => Err (ProxyError.Parse (str "torrent metadata is missing info"))
              | Some (Dict info, span) => metadata_of info span
              | Some _ => Err (ProxyError.Parse (str "torrent info is not a dictionary"))
              end
        | Some (Err e) => Err e
        | None => Err (ProxyError.Parse [])
        end
    | _ => Err (ProxyError.Parse (str "torrent metadata must be a dictionary"))
    end.

Definition parse_info_metadata (info : text) : Result TorrentMetadata :=
  if bool_decide (info = []) || (MAX_METADATA <? Z.of_nat (List.length info))
     || negb (bool_decide (head info = Some x64))
  then Err (ProxyError.Parse (str "invalid raw torrent info dictionary"))
  else parse_torrent_metadata (str "d4:info" ++ info ++ [x65]).

(** ** The pieces *)

Definition verify_piece_sha1 (piece expected : text) : Result unit :=
  if bool_decide (sha1 piece = expected) then Ok tt
  else Err (ProxyError.Request (str "BitTorrent piece SHA-1 mismatch")).

End Sha.

Definition torrent_piece_length (m : TorrentMetadata) (index : Z) : Result Z :=
  let count := Z.of_nat (List.length (piece_sha1 m)) in
  if count <=? index then Err (ProxyError.Request (str "piece index out of range"))
  else if index + 1 <? count then Ok (piece_length m)
  else
    consumed ← ok_or (checked_mul (piece_length m) index)
                 (ProxyError.Request (str "piece offset overflow"));
    rest ← ok_or (checked_sub (total_length m) consumed)
             (ProxyError.Request (str "piece length underflow"));
    ok_or (try_u32 rest) (ProxyError.Request (str "last piece length overflow")).
