(* ===== verification/TorrentMetaTheorems.v ===== *)
(** * Torrent metadata: what an accepted torrent is

    The hash of an accepted torrent is the hash of the bytes its info
    dictionary was read from, its paths stay below its name, and its pieces
    cut its content. *)

From Stdlib Require Import Strings.Byte Strings.String.
From S2P Require Import Prelude Bytes Error Bencode BencodeTheorems PeerWire TorrentMeta.

(** ** Generic lemmas *)

Lemma try_map_Ok {A B E} (f : A -> result E B) l k :
  try_map f l = Ok k -> Forall2 (fun x y => f x = Ok y) l k.
Proof.
  revert k. induction l as [|x l IH]; intros k; simpl; [intros [= <-]; constructor|].
  destruct (f x) as [y|] eqn:E1; [|done]. simpl. destruct (try_map f l) as [k'|]; [|done]. simpl.
  intros [= <-]. constructor; auto.
Qed.

Lemma keep_Some {A} (p : A -> bool) o a : keep p o = Some a -> o = Some a /\ p a = true.
Proof. destruct o as [x|]; simpl; [|done]. destruct (p x) eqn:E; [|done]. by intros [= <-]. Qed.

Lemma try_u32_Some n m : try_u32 n = Some m -> m = n /\ n <= u32_max.
Proof. unfold try_u32. destruct (Z.leb_spec n u32_max); [|done]. by intros [= <-]. Qed.

Lemma integer_of_nonneg v n : integer_of v = Some n -> 0 <= n.
Proof. destruct v; simpl; try done. destruct (Z.leb_spec 0 n0); [|done]. by intros [= <-]. Qed.

Lemma div_ceil_spec a b : 0 <= a -> 0 < b -> a <= b * div_ceil a b < a + b.
Proof.
  intros Ha Hb. unfold div_ceil. pose proof (Z.div_mod a b ltac:(lia)) as E.
  pose proof (Z.mod_pos_bound a b Hb). destruct (Z.eqb_spec (a mod b) 0); nia.
Qed.

Lemma chunks_go_spec n : (0 < n)%nat -> forall fuel s k,
  length s = (k * n)%nat -> (length s <= fuel)%nat ->
  length (chunks_go fuel n s) = k /\ Forall (fun c => length c = n) (chunks_go fuel n s)
  /\ mjoin (chunks_go fuel n s) = s.
Proof.
  intros Hn fuel. induction fuel as [|fuel IH]; intros s k Hs Hf; simpl.
  { destruct s; [|simpl in *; lia]. split_and!; [|constructor|done]. simpl in *. nia. }
  destruct (Nat.ltb_spec (length s) n).
  { assert (k = 0)%nat as -> by nia. destruct s; [|simpl in *; lia]. split_and!; [done|constructor|done]. }
  destruct k as [|k]; [lia|].
  destruct (IH (drop n s) k) as (Hk & Hall & Hj); [rewrite length_drop; lia|rewrite length_drop; lia|].
  cbn [length]. split_and!; [simpl; by f_equal|constructor; [rewrite length_take; lia|done]|].
  simpl. rewrite Hj. apply take_drop.
Qed.

Lemma chunks_exact_spec n s k :
  (0 < n)%nat -> length s = (k * n)%nat ->
  length (chunks_exact n s) = k /\ Forall (fun c => length c = n) (chunks_exact n s)
  /\ mjoin (chunks_exact n s) = s.
Proof. intros Hn Hs. by apply chunks_go_spec. Qed.

(** ** Well-formed metadata *)

Definition safe_component (c : text) : Prop :=
  c <> [] /\ c <> str "." /\ c <> str ".." /\ (x2f ∉ c) /\ (x5c ∉ c).

(** A file lies below the directory of the torrent's name, or is that name. *)
Definition path_below (nm : text) (p : list text) : Prop :=
  exists below, p = (nm :: below) /\ Forall safe_component below.

Fixpoint total_of (l : list TorrentFile) : Z :=
  match l with [] => 0 | f :: l' => tf_length f + total_of l' end.

Record metadata_wf (m : TorrentMetadata) : Prop := {
  wf_piece_length : 0 < piece_length m <= MAX_PIECE;
  wf_total : 0 < total_length m <= u64_max;
  wf_total_sum : total_length m = total_of (files m);
  wf_count : Z.of_nat (length (piece_sha1 m)) = div_ceil (total_length m) (piece_length m);
  wf_count_bound : Z.of_nat (length (piece_sha1 m)) <= 1000000;
  wf_hashes : Forall (fun h => length h = 20%nat) (piece_sha1 m);
  wf_name : name m <> [] /\ (x2f ∉ name m) /\ (x5c ∉ name m);
  wf_files : Forall (fun f => path_below (name m) (tf_path f) /\ 0 <= tf_length f) (files m);
}.

Lemma contains_false c s : contains c s = false <-> c ∉ s.
Proof.
  unfold contains. rewrite <- not_true_iff_false, existsb_exists. split; intros H.
  - intros Hin. apply H. exists c. rewrite <- list_elem_of_In. split; [done|by apply bool_decide_eq_true].
  - intros (x & Hx & ->%bool_decide_eq_true). by rewrite <- list_elem_of_In in Hx.
Qed.

Lemma unsafe_component_false c : unsafe_component c = false -> safe_component c.
Proof.
  unfold unsafe_component. rewrite !orb_false_iff, !bool_decide_eq_false, !contains_false.
  by intros ((((? & ?) & ?) & ?) & ?).
Qed.

Lemma parse_file_entry_Ok nm v f :
  parse_file_entry nm v = Ok f -> path_below nm (tf_path f) /\ 0 <= tf_length f.
Proof.
  unfold parse_file_entry. destruct v as [| |entry|]; try done.
  destruct (bt_get (str "length") entry ≫= integer_of) as [len|] eqn:El; [|done].
  apply bind_Some in El as (x & _ & Hlen%integer_of_nonneg). simpl.
  destruct (bt_get (str "path") entry) as [[| | |cs]|]; try done.
  case_match; [done|]. destruct (try_map parse_path_component cs) as [p|] eqn:Ep; [|done]. simpl.
  intros [= <-]. split; [|done]. exists p. split; [done|]. apply try_map_Ok in Ep.
  clear -Ep. induction Ep as [|v c cs p Hc _ IH]; [constructor|constructor; [|done]].
  unfold parse_path_component in Hc. destruct v; try done. do 2 (case_match; [done|]).
  injection Hc as <-. by apply unsafe_component_false.
Qed.

Lemma parse_torrent_files_Ok info nm fs :
  parse_torrent_files info nm = Ok fs ->
  Forall (fun f => path_below nm (tf_path f) /\ 0 <= tf_length f) fs.
Proof.
  unfold parse_torrent_files. destruct (keep _ _) as [len|] eqn:Ek.
  - apply keep_Some in Ek as [_ Hl%Z.ltb_lt]. case_match; [done|]. intros [= <-].
    constructor; [|constructor]. split; [by exists []|simpl; lia].
  - destruct (bt_get (str "files") info) as [[| | |es]|]; try done. case_match; [done|].
    intros Hm%try_map_Ok. clear -Hm.
    induction Hm as [|v f es fs Hf _ IH]; [constructor|constructor; [|done]].
    by apply parse_file_entry_Ok in Hf.
Qed.

Lemma sum_lengths_go l a t :
  0 <= a -> Forall (fun f => 0 <= tf_length f) l ->
  fold_left (fun total f => total ≫= fun t => checked_add t (tf_length f)) l (Some a) = Some t ->
  t = a + total_of l /\ (a <= u64_max -> t <= u64_max).
Proof.
  revert a. induction l as [|f l IH]; intros a Ha Hl.
  - intros H. simpl in *. injection H as <-. lia.
  - cbn [fold_left]. inversion_clear Hl as [|?? Hf Hl'].
    change (Some a ≫= ?k) with (k a). cbv beta.
    destruct (checked_add a (tf_length f)) as [b|] eqn:E.
    + apply checked_add_Some in E as [-> Hb]. intros [-> Hle]%IH; [|lia|done]. simpl. lia.
    + intros H. exfalso. clear -H. induction l as [|g l IHl]; [done|]. by apply IHl.
Qed.

Lemma sum_lengths_Some l t :
  Forall (fun f => 0 <= tf_length f) l -> sum_lengths l = Some t -> t = total_of l /\ t <= u64_max.
Proof. intros Hl [-> H]%sum_lengths_go; [|lia|done]. split; [lia|apply H; lia]. Qed.

Lemma parse_name_Ok info nm : parse_name info = Ok nm -> nm <> [] /\ (x2f ∉ nm) /\ (x5c ∉ nm).
Proof.
  unfold parse_name. destruct (bt_get _ info) as [[|v| |]|]; try done. case_match; [done|].
  destruct (bool_decide (v = []) || _ || _) eqn:E; [done|]. intros [= <-].
  rewrite !orb_false_iff, bool_decide_eq_false, !contains_false in E. tauto.
Qed.

Lemma parse_pieces_Ok info total pl hs :
  parse_pieces info total pl = Ok hs ->
  Z.of_nat (length hs) = div_ceil total pl /\ 0 < Z.of_nat (length hs) <= 1000000
  /\ Forall (fun h => length h = 20%nat) hs.
Proof.
  unfold parse_pieces. destruct (bt_get _ info) as [[|v| |]|]; try done. cbv zeta.
  destruct (bool_decide (v = []) || _) eqn:E; [done|].
  apply orb_false_iff in E as [Hne%bool_decide_eq_false Hmod%negb_false_iff%Z.eqb_eq].
  destruct (Z.ltb_spec 1000000 (Z.of_nat (length v) / 20)); [done|].
  destruct (Z.eqb_spec (Z.of_nat (length v) / 20) (div_ceil total pl)) as [Hc|]; [|done]. intros [= <-].
  pose proof (Z.div_mod (Z.of_nat (length v)) 20 ltac:(lia)) as Hv. rewrite Hmod in Hv.
  destruct (chunks_exact_spec 20 v (Z.to_nat (Z.of_nat (length v) / 20))) as (Hl & Hall & _); [lia|lia|].
  assert (0 < length v)%nat by (destruct v; [done|simpl; lia]).
  rewrite Hl. split_and!; [lia|lia|lia|done].
Qed.

(** ** The info dictionary and its bytes *)

Lemma root_entries_cons total fuel b input info :
  root_entries total (S fuel) (b :: input) info
  = if decide (b = x65) then Some (Ok (info, input))
    else pbind (Some (bytes total (b :: input))) (fun key start =>
           pbind (value total fuel 0 start) (fun v rest =>
             if bool_decide (key = str "info") then
               match info with
               | Some _ => Some (Err (ProxyError.Parse (str "duplicate torrent info dictionary")))
               | None => root_entries total fuel rest (Some (v, take (length start - length rest) start))
               end
             else root_entries total fuel rest info)).
Proof. by destruct b. Qed.

Lemma root_entries_fuel total fuel : forall input info,
  (2 * length input + 2 <= fuel)%nat -> root_entries total fuel input info <> None.
Proof.
  induction fuel as [|fuel IH]; intros input info Hf; [lia|]. destruct input as [|b input].
  { cbn [root_entries]. by apply pbind_Some. }
  rewrite root_entries_cons. case_decide; [done|]. simpl in Hf. apply pbind_Some; [done|].
  intros key start [= E%bytes_shorter]. simpl in E.
  apply pbind_Some; [apply (proj1 (parsers_fuel total fuel)); lia|].
  intros v rest E2%(proj1 (parsers_consume total fuel)).
  case_match; [case_match; [done|]|]; apply IH; lia.
Qed.

(** The bytes [span] of [input] from which the parser read [v]. *)
Definition read_from (total : Z) (input : text) (v : BValue) (span : text) : Prop :=
  exists pre post fuel, input = pre ++ span ++ post
    /\ value total fuel 0 (span ++ post) = Some (Ok (v, post)).

Lemma read_from_suffix total input input' v span :
  input' `suffix_of` input -> read_from total input' v span -> read_from total input v span.
Proof.
  intros [p ->] (pre & post & fuel & -> & Hv). exists (p ++ pre), post, fuel.
  by rewrite <- !app_assoc.
Qed.

Lemma root_entries_span total fuel : forall input info v span rest,
  root_entries total fuel input info = Some (Ok (Some (v, span), rest)) ->
  info = Some (v, span) \/ read_from total input v span.
Proof.
  induction fuel as [|fuel IH]; intros input info v span rest; [done|]. destruct input as [|b input].
  { cbn [root_entries]. by intros (a & r & [=] & _)%pbind_Ok. }
  rewrite root_entries_cons. case_decide; [intros [= -> _]; by left|].
  intros (key & start & [= Es%bytes_suffix] & (w & r & Ev & Hk)%pbind_Ok)%pbind_Ok.
  pose proof (proj1 (parsers_suffix total fuel) _ _ _ _ Ev) as Hr.
  assert (Hrest : r `suffix_of` b :: input) by (by transitivity start).
  case_match; [case_match; [done|]|].
  - apply IH in Hk as [[= -> <-]|Hk]; right; [|by eapply read_from_suffix].
    destruct Hr as [p ->]. apply (read_from_suffix _ _ _ _ _ Es).
    exists [], r, fuel. rewrite length_app, Nat.add_sub, take_app_length. by split.
  - apply IH in Hk as [?|Hk]; [by left|right; by eapply read_from_suffix].
Qed.

(** ** The lengths of the pieces *)

(** The lengths of the first [n] pieces. *)
Fixpoint lengths_upto (m : TorrentMetadata) (n : nat) : option Z :=
  match n with
  | O => Some 0
  | S n' =>
      match torrent_piece_length m (Z.of_nat n'), lengths_upto m n' with
      | Ok len, Some sum => Some (sum + len)
      | _, _ => None
      end
  end.

Lemma torrent_piece_length_Ok m index :
  metadata_wf m -> 0 <= index < Z.of_nat (length (piece_sha1 m)) ->
  exists len, torrent_piece_length m index = Ok len /\ 0 < len <= piece_length m
    /\ len = Z.min (piece_length m) (total_length m - index * piece_length m).
Proof.
  intros [Hpl Ht _ Hc _ _ _ _] Hi. unfold MAX_PIECE in Hpl. rewrite Hc in Hi.
  pose proof (div_ceil_spec (total_length m) (piece_length m) ltac:(lia) ltac:(lia)) as Hd.
  unfold torrent_piece_length. rewrite Hc. cbv zeta.
  destruct (Z.leb_spec (div_ceil (total_length m) (piece_length m)) index); [lia|].
  destruct (Z.ltb_spec (index + 1) (div_ceil (total_length m) (piece_length m))).
  { exists (piece_length m). split; [done|]. nia. }
  assert (index = div_ceil (total_length m) (piece_length m) - 1) as Hidx by lia.
  set (q := piece_length m * index) in *. assert (Hq : q < total_length m) by nia.
  rewrite (proj2 (checked_mul_Some _ _ q)) by (unfold q; split; [done|nia]). cbn.
  rewrite (proj2 (checked_sub_Some _ _ (total_length m - q))) by (split; [done|nia]). cbn.
  unfold try_u32. destruct (Z.leb_spec (total_length m - q) u32_max) as [_|?];
    [|unfold u32_max in *; nia].
  exists (total_length m - q). split; [done|]. nia.
Qed.

Lemma lengths_upto_spec m n :
  metadata_wf m -> (n <= length (piece_sha1 m))%nat ->
  lengths_upto m n = Some (Z.min (total_length m) (Z.of_nat n * piece_length m)).
Proof.
  intros Hwf. pose proof (wf_total m Hwf). pose proof (wf_piece_length m Hwf).
  induction n as [|n IH]; intros Hn; [simpl; f_equal; lia|]. cbn [lengths_upto].
  destruct (torrent_piece_length_Ok m (Z.of_nat n) Hwf ltac:(lia)) as (len & -> & Hpos & Hlen).
  rewrite IH by lia. f_equal. rewrite Nat2Z.inj_succ, Z.mul_succ_l. lia.
Qed.

(** ** Accepted metadata *)

Section Claims.
Context {SHA : Sha1}.

Lemma metadata_of_wf info span m :
  metadata_of info span = Ok m -> metadata_wf m /\ info_hash m = sha1 span.
Proof.
  unfold metadata_of. destruct (parse_name info) as [nm|] eqn:En; [|done]. cbn.
  destruct (parse_torrent_files info nm) as [fs|] eqn:Ef; [|done]. cbn.
  destruct (sum_lengths fs) as [total|] eqn:Et; [|done]. cbn.
  destruct (keep _ _) as [pl|] eqn:Ep; [|done]. cbn.
  destruct (parse_pieces info total pl) as [hs|] eqn:Eh; [|done]. cbn. intros [= <-].
  apply parse_torrent_files_Ok in Ef. apply keep_Some in Ep as [_ Hpl].
  apply andb_true_iff in Hpl as [Hp1%Z.ltb_lt Hp2%Z.leb_le].
  apply sum_lengths_Some in Et as [Ht Hle]; [|by eapply Forall_impl; [done|]; intros ? [_ ?]].
  apply parse_pieces_Ok in Eh as (Hcount & Hbound & Hall). split; [|done].
  assert (Hpos : 0 < total).
  { assert (0 <= total).
    { rewrite Ht. clear -Ef. induction Ef as [|f fs [_ Hf] _ IH]; simpl; lia. }
    destruct (decide (total = 0)) as [E0|]; [|lia]. rewrite E0 in Hcount.
    unfold div_ceil in Hcount. rewrite Z.div_0_l, Z.mod_0_l in Hcount by lia. simpl in Hcount. lia. }
  constructor; cbn [piece_length total_length files piece_sha1 name]; try done; try lia.
  by apply parse_name_Ok in En.
Qed.

Lemma parse_torrent_metadata_inv input m :
  parse_torrent_metadata input = Ok m -> exists info span,
    read_from (Z.of_nat (length input)) input (Dict info) span /\ metadata_of info span = Ok m.
Proof.
  unfold parse_torrent_metadata. case_match; [done|]. destruct input as [|b rest]; [done|].
  assert (Hb : forall r : Result TorrentMetadata, match b with x64 => r | _ =>
    Err (ProxyError.Parse (str "torrent metadata must be a dictionary")) end = Ok m -> r = Ok m)
    by (intros r; by destruct b).
  intros Hm%Hb. clear Hb.
  destruct (root_entries _ _ rest None) as [[[info rest']|]|] eqn:Er; try done.
  case_match; [done|]. destruct info as [[[| |info|] span]|]; try done.
  exists info, span. split; [|done].
  apply root_entries_span in Er as [?|Hr]; [done|]. eapply read_from_suffix; [|done].
  by apply suffix_cons_r.
Qed.

End Claims.

(** A concrete digest, for examples. *)
Definition toy_sha1 : Sha1 := fun s => take 20 (s ++ replicate 20 x00).

(** ** Claims *)

Module TorrentMetaClaims.


(** The pieces of an accepted torrent cut its content: every index below
    the number of hashes has a length, between 1 and the piece length, the
    lengths add up to the total length, and an index past the last hash is an
    error. *)
Theorem torrent_pieces_partition `{SHA : Sha1} (input : text) (m : TorrentMetadata)
  (Hparse : parse_torrent_metadata input = Ok m) :
  (forall index, 0 <= index < Z.of_nat (length (piece_sha1 m)) ->
     exists len, torrent_piece_length m index = Ok len /\ 0 < len <= piece_length m)
  /\ lengths_upto m (length (piece_sha1 m)) = Some (total_length m)
  /\ forall index, Z.of_nat (length (piece_sha1 m)) <= index ->
       torrent_piece_length m index = Err (ProxyError.Request (str "piece index out of range")).
Proof.
  apply parse_torrent_metadata_inv in Hparse as (info & span & _ & [Hwf _]%metadata_of_wf). split_and!.
  - intros index Hi. destruct (torrent_piece_length_Ok m index Hwf Hi) as (len & ? & ? & _). eauto.
  - rewrite lengths_upto_spec by done. f_equal. rewrite (wf_count m Hwf).
    pose proof (wf_total m Hwf). pose proof (wf_piece_length m Hwf).
    pose proof (div_ceil_spec (total_length m) (piece_length m) ltac:(lia) ltac:(lia)). lia.
  - intros index Hi. unfold torrent_piece_length. cbv zeta.
    by destruct (Z.leb_spec (Z.of_nat (length (piece_sha1 m))) index); [|lia].
Qed.

(** A torrent with the name [nm], one file of 40000 bytes and three pieces. *)
Definition single_file (nm : text) : text :=
  str "d4:infod6:lengthi40000e4:name" ++ encode_bytes nm
  ++ str "12:piece lengthi16384e6:pieces60:" ++ replicate 60 x41 ++ str "ee".

(** The name of a torrent, unlike the components of its paths, may be two
    dots: such a torrent is accepted, whatever the hash, and its file's path is
    the parent directory. *)
Theorem torrent_name_escapes `{SHA : Sha1} :
  exists m, parse_torrent_metadata (single_file (str "..")) = Ok m
    /\ name m = str ".." /\ map tf_path (files m) = [[str ".."]]
    /\ unsafe_component (str "..") = true.
Proof. eexists. split; [vm_compute; reflexivity|]. by vm_compute. Qed.


Lemma torrent_pieces_partition_witness :
  let input := single_file (str "movie.mp4") in
  exists m, @parse_torrent_metadata toy_sha1 input = Ok m
    /\ torrent_piece_length m 2 = Ok 7232 /\ lengths_upto m 3 = Some 40000.
Proof.
  intros input. eexists. split; [vm_compute; reflexivity|]. split; [vm_compute; reflexivity|].
  eapply (@torrent_pieces_partition toy_sha1 input). vm_compute. reflexivity.
Defined.

End TorrentMetaClaims.
