(* ===== verification/TorrentExtension.v ===== *)
(** * Metadata from peers ([p2p_network.rs])

    The extended handshake, the [ut_metadata] messages and the assembler that
    puts the blocks of an info dictionary together. *)

From Stdlib Require Import Strings.Byte Strings.String.
From S2P Require Import Prelude Bytes Error Bencode PeerWire TorrentMeta TorrentMetaTheorems.

(** ** The extended handshake *)

Record ExtendedHandshake : Type := mk_ExtendedHandshake {
  ut_metadata_id : byte;
  metadata_size : Z;
}.

Definition parse_extended_handshake (payload : text) : Result ExtendedHandshake :=
  '(root, rest) ← parse_value payload;
  if negb (bool_decide (rest = []))
  then Err (ProxyError.Parse (str "extended handshake has trailing bytes"))
  else
    match root with
    | Dict root =>
        size ← ok_or (keep (fun n => (0 <? n) && (n <=? MAX_METADATA))
                        (bt_get (str "metadata_size") root ≫= integer_of))
                 (ProxyError.Parse (str "invalid metadata_size"));
        m ← ok_or (bt_get (str "m") root) (ProxyError.Parse (str "extended handshake is missing m"));
        match m with
        | Dict extensions =>
            id ← ok_or (keep (fun n => negb (n =? 0))
                          ((bt_get (str "ut_metadata") extensions ≫= integer_of) ≫= try_u8))
                   (ProxyError.Parse (str "extended handshake lacks ut_metadata"));
            Ok (mk_ExtendedHandshake (z2b id) size)
        | _ => Err (ProxyError.Parse (str "extended handshake m is invalid"))
        end
    | _ => Err (ProxyError.Parse (str "extended handshake must be a dictionary"))
    end.

Definition encode_extended_handshake : PeerMessage.t :=
  PeerMessage.Extended (z2b 0) (str "d1:md11:ut_metadatai1eee").

Definition encode_ut_metadata_request (extension_id : byte) (piece : Z) : Result PeerMessage.t :=
  if bool_decide (extension_id = z2b 0)
  then Err (ProxyError.Request (str "invalid ut_metadata extension ID"))
  else Ok (PeerMessage.Extended extension_id
             (str "d8:msg_typei0e5:piecei" ++ format_u64 piece ++ str "ee")).

(** ** The responses *)

Module MetadataExtensionResponse.
Inductive t : Type :=
| Data (piece total_size : Z) (bytes : text)
| Reject (piece : Z).
End MetadataExtensionResponse.

Definition parse_ut_metadata_response (payload : text) : Result MetadataExtensionResponse.t :=
  '(header, rest) ← parse_value payload;
  match header with
  | Dict header =>
      message_type ← ok_or (bt_get (str "msg_type") header ≫= integer_of)
                       (ProxyError.Parse (str "ut_metadata msg_type is missing"));
      piece ← ok_or ((bt_get (str "piece") header ≫= integer_of) ≫= try_u32)
                (ProxyError.Parse (str "ut_metadata piece is invalid"));
      if message_type =? 1 then
        total_size ← ok_or (keep (fun n => (0 <? n) && (n <=? MAX_METADATA))
                              (bt_get (str "total_size") header ≫= integer_of))
                       (ProxyError.Parse (str "ut_metadata total_size is invalid"));
        if bool_decide (rest = []) || too_long rest METADATA_BLOCK
        then Err (ProxyError.Parse (str "ut_metadata piece length is invalid"))
        else Ok (MetadataExtensionResponse.Data piece total_size rest)
      else if (message_type =? 2) && bool_decide (rest = [])
      then Ok (MetadataExtensionResponse.Reject piece)
      else Err (ProxyError.Parse (str "unsupported ut_metadata response"))
  | _ => Err (ProxyError.Parse (str "ut_metadata header is invalid"))
  end.

(** ** The assembler *)

Record MetadataAssembler : Type := mk_MetadataAssembler {
  ma_info_hash : text;
  ma_total_size : Z;
  ma_pieces : list (option text);
}.

Definition assembler_new (hash : text) (total_size : Z) : Result MetadataAssembler :=
  if (total_size =? 0) || (MAX_METADATA <? total_size)
  then Err (ProxyError.Request (str "invalid metadata size"))
  else Ok (mk_MetadataAssembler hash total_size
             (replicate (Z.to_nat (div_ceil total_size METADATA_BLOCK)) None)).

(** [insert] changes the assembler only when it answers [Ok]. *)
Definition assembler_insert (a : MetadataAssembler) (r : MetadataExtensionResponse.t) :
    Result (bool * MetadataAssembler) :=
  match r with
  | MetadataExtensionResponse.Data piece total_size bytes =>
      if negb (total_size =? ma_total_size a)
      then Err (ProxyError.Request (str "metadata total size changed"))
      else
        let expected :=
          if piece + 1 =? Z.of_nat (List.length (ma_pieces a))
          then ma_total_size a - piece * METADATA_BLOCK else METADATA_BLOCK in
        match ma_pieces a !! Z.to_nat piece with
        | None => Err (ProxyError.Request (str "metadata piece index out of range"))
        | Some slot =>
            if negb (Z.of_nat (List.length bytes) =? expected)
            then Err (ProxyError.Request (str "metadata piece has wrong length"))
            else
              let done_ a := forallb (fun o => bool_decide (is_Some o)) (ma_pieces a) in
              match slot with
              | Some existing =>
                  if bool_decide (existing = bytes) then Ok (done_ a, a)
                  else Err (ProxyError.Request (str "metadata piece changed"))
              | None =>
                  let a := mk_MetadataAssembler (ma_info_hash a) (ma_total_size a)
                             (<[Z.to_nat piece := Some bytes]> (ma_pieces a)) in
                  Ok (done_ a, a)
              end
        end
  | MetadataExtensionResponse.Reject _ =>
      Err (ProxyError.Request (str "metadata piece was rejected"))
  end.

Definition assembler_finish `{Sha1} (a : MetadataAssembler) : Result text :=
  if existsb (fun o => bool_decide (o = None)) (ma_pieces a)
  then Err (ProxyError.Request (str "metadata is incomplete"))
  else
    let metadata := mjoin (map (default []) (ma_pieces a)) in
    if bool_decide (sha1 metadata = ma_info_hash a) then Ok metadata
    else Err (ProxyError.Request (str "metadata InfoHash mismatch")).

(** * Metadata from peers: the assembler rebuilds the dictionary *)

(** ** The blocks of a byte string *)

Section Blocks.
Context (size : nat) (md : text).

Definition block (i : nat) : text := take size (drop (i * size) md).

Lemma blocks_join n : mjoin (map block (seq 0 n)) = take (n * size) md.
Proof.
  induction n as [|n IH]; [done|]. rewrite seq_S, map_app, (join_app (A := byte)), IH. simpl. rewrite app_nil_r.
  unfold block. rewrite take_take_drop. f_equal. lia.
Qed.

Lemma length_block i : length (block i) = Nat.min size (length md - i * size).
Proof. unfold block. rewrite length_take, length_drop. lia. Qed.
End Blocks.

Definition block_size : nat := Z.to_nat METADATA_BLOCK.
Definition block_count (md : text) : nat := Z.to_nat (div_ceil (Z.of_nat (length md)) METADATA_BLOCK).
Definition response (md : text) (i : nat) : MetadataExtensionResponse.t :=
  MetadataExtensionResponse.Data (Z.of_nat i) (Z.of_nat (length md)) (block block_size md i).

Definition insert_all (a : MetadataAssembler) (rs : list MetadataExtensionResponse.t) :
    Result MetadataAssembler :=
  fold_left (fun acc r => a ← acc; '(_, a) ← assembler_insert a r; Ok a) rs (Ok a).

(** ** The assembler holds blocks of [md], those of [known] *)

Record assembling (md hash : text) (known : nat -> Prop) (a : MetadataAssembler) : Prop := {
  as_hash : ma_info_hash a = hash;
  as_size : ma_total_size a = Z.of_nat (length md);
  as_count : length (ma_pieces a) = block_count md;
  as_known i : (i < block_count md)%nat -> known i ->
    ma_pieces a !! i = Some (Some (block block_size md i));
  as_unknown i : (i < block_count md)%nat ->
    ma_pieces a !! i = Some None \/ ma_pieces a !! i = Some (Some (block block_size md i));
}.

Lemma block_count_spec md :
  Z.of_nat (length md) <= METADATA_BLOCK * Z.of_nat (block_count md) < Z.of_nat (length md) + METADATA_BLOCK.
Proof.
  pose proof (div_ceil_spec (Z.of_nat (length md)) METADATA_BLOCK ltac:(lia) ltac:(done)) as H.
  unfold block_count. unfold METADATA_BLOCK in *. rewrite Z2Nat.id; [done|nia].
Qed.

(** The length the assembler expects is the length of the block. *)
Lemma expected_length md i :
  (i < block_count md)%nat ->
  Z.of_nat (length (block block_size md i))
  = (if Z.of_nat i + 1 =? Z.of_nat (block_count md)
     then Z.of_nat (length md) - Z.of_nat i * METADATA_BLOCK else METADATA_BLOCK).
Proof.
  intros Hi. pose proof (block_count_spec md) as Hs. rewrite length_block.
  assert (Hb : Z.of_nat block_size = METADATA_BLOCK) by (unfold block_size; rewrite Z2Nat.id; done).
  rewrite Nat2Z.inj_min. revert Hs. unfold METADATA_BLOCK in *.
  destruct (Z.eqb_spec (Z.of_nat i + 1) (Z.of_nat (block_count md))); intros Hs; nia.
Qed.

Lemma assembler_insert_known md hash known a i :
  assembling md hash known a -> (i < block_count md)%nat ->
  exists b a', assembler_insert a (response md i) = Ok (b, a')
    /\ assembling md hash (fun j => known j \/ j = i) a'.
Proof.
  intros Ha Hi. unfold assembler_insert, response. rewrite (as_size _ _ _ _ Ha), Z.eqb_refl.
  simpl negb. cbv iota zeta. rewrite Nat2Z.id, (as_count _ _ _ _ Ha), expected_length by done.
  rewrite Z.eqb_refl. simpl negb. cbv iota.
  destruct (as_unknown _ _ _ _ Ha i Hi) as [E|E]; rewrite E.
  - eexists _, _. split; [reflexivity|]. destruct Ha as [Hh Hs Hc Hk Hu].
    constructor; cbn [ma_info_hash ma_total_size ma_pieces]; try done.
    + by rewrite length_insert.
    + intros j Hj Hor. destruct (decide (j = i)) as [->|].
      * apply list_lookup_insert_eq. lia.
      * rewrite list_lookup_insert_ne by done. by apply Hk; [|destruct Hor].
    + intros j Hj. destruct (decide (j = i)) as [->|].
      * right. apply list_lookup_insert_eq. lia.
      * rewrite list_lookup_insert_ne by done. by apply Hu.
  - rewrite bool_decide_true by done. eexists _, _. split; [reflexivity|].
    destruct Ha as [Hh Hs Hc Hk Hu]. constructor; try done.
    intros j Hj [Hor| ->]; [by apply Hk|done].
Qed.

Lemma insert_all_known md hash order : forall known a,
  assembling md hash known a -> Forall (fun i => (i < block_count md)%nat) order ->
  exists a', insert_all a (map (response md) order) = Ok a'
    /\ assembling md hash (fun j => known j \/ j ∈ order) a'.
Proof.
  induction order as [|i order IH]; intros known a Ha Ho.
  - exists a. split; [done|]. destruct Ha as [Hh Hs Hc Hk Hu]. constructor; try done.
    intros j Hj [?|Hin%not_elem_of_nil]; [by apply Hk|done].
  - inversion_clear Ho as [|?? Hi Ho'].
    destruct (assembler_insert_known md hash known a i Ha Hi) as (b & a1 & E & Ha1).
    destruct (IH _ a1 Ha1 Ho') as (a' & E' & Ha'). exists a'. split.
    + unfold insert_all. cbn [map fold_left]. change (Ok a ≫= ?k) with (k a). cbv beta. rewrite E. exact E'.
    + destruct Ha' as [Hh Hs Hc Hk Hu]. constructor; try done.
      intros j Hj Hor. apply Hk; [done|]. destruct Hor as [?|[->|?]%elem_of_cons]; tauto.
Qed.

Lemma assembling_pieces md hash known a :
  assembling md hash known a -> (forall i, (i < block_count md)%nat -> known i) ->
  ma_pieces a = map Some (map (block block_size md) (seq 0 (block_count md))).
Proof.
  intros Ha Hall. apply list_eq_same_length with (n := block_count md).
  - by rewrite !length_map, length_seq.
  - by rewrite (as_count _ _ _ _ Ha).
  - intros i x y Hi Hx Hy. rewrite (as_known _ _ _ _ Ha i Hi (Hall i Hi)) in Hx. injection Hx as <-.
    change (map Some _) with (Some <$> (block block_size md <$> seq 0 (block_count md))) in Hy.
    rewrite !list_lookup_fmap, lookup_seq_lt in Hy by done. by injection Hy as <-.
Qed.

Lemma finish_complete md :
  existsb (fun o => bool_decide (o = None)) (map Some (map (block block_size md) (seq 0 (block_count md))))
  = false.
Proof.
  apply not_true_iff_false. rewrite existsb_exists. intros (o & Hin & ->%bool_decide_eq_true).
  apply in_map_iff in Hin as (x & ? & _). done.
Qed.

(** ** Claims *)

Module TorrentExtensionClaims.

(** The assembler rebuilds the info dictionary: when the blocks of a
    dictionary of at most 4 MiB arrive in any order, repeated or not, and each
    arrives at least once, every insertion is accepted and [finish] returns
    the dictionary if its SHA-1 is the expected hash, and otherwise refuses. *)
Theorem metadata_assembled `{SHA : Sha1} (md hash : text) (order : list nat)
  (Hsize : 0 < Z.of_nat (length md) <= MAX_METADATA)
  (Hvalid : Forall (fun i => (i < block_count md)%nat) order)
  (Hall : forall i, (i < block_count md)%nat -> i ∈ order) :
  exists a0 a, assembler_new hash (Z.of_nat (length md)) = Ok a0
    /\ insert_all a0 (map (response md) order) = Ok a
    /\ assembler_finish a
       = if decide (sha1 md = hash) then Ok md
         else Err (ProxyError.Request (str "metadata InfoHash mismatch")).
Proof.
  unfold assembler_new. destruct (Z.eqb_spec (Z.of_nat (length md)) 0); [lia|].
  destruct (Z.ltb_spec MAX_METADATA (Z.of_nat (length md))); [lia|]. simpl orb. cbv iota.
  set (a0 := mk_MetadataAssembler _ _ _).
  assert (H0 : assembling md hash (fun _ => False) a0).
  { constructor; try done; simpl; [apply length_replicate|].
    intros i Hi. left. by apply lookup_replicate_2. }
  destruct (insert_all_known md hash order _ a0 H0 Hvalid) as (a & Ea & Ha).
  exists a0, a. split_and!; [done|done|].
  unfold assembler_finish. rewrite (assembling_pieces _ _ _ _ Ha) by auto.
  rewrite (as_hash _ _ _ _ Ha), (finish_complete md). cbv zeta.
  rewrite map_map. cbn [default]. rewrite (map_id (map _ _)), blocks_join, take_ge.
  - by repeat case_decide; try case_bool_decide.
  - pose proof (block_count_spec md).
    assert (Hb : Z.of_nat block_size = METADATA_BLOCK) by (unfold block_size; rewrite Z2Nat.id; done). nia.
Qed.

Lemma metadata_assembled_witness :
  let md := replicate (Z.to_nat 16389) x41 in
  exists a0 a, assembler_new (toy_sha1 md) (Z.of_nat (length md)) = Ok a0
    /\ insert_all a0 (map (response md) [1; 0; 1]%nat) = Ok a
    /\ @assembler_finish toy_sha1 a = Ok md.
Proof.
  intros md.
  assert (Hc : block_count md = 2%nat) by (vm_compute; reflexivity).
  destruct (@metadata_assembled toy_sha1 md (toy_sha1 md) [1; 0; 1]%nat) as (a0 & a & H0 & Ha & Hf).
  - split; vm_compute; [reflexivity|discriminate].
  - rewrite Hc. repeat constructor; lia.
  - rewrite Hc. intros [|[|i]] Hi; [right; left|left|lia].
  - exists a0, a. split_and!; [exact H0|exact Ha|]. rewrite decide_True in Hf by reflexivity. exact Hf.
Defined.

End TorrentExtensionClaims.
