(* ===== verification/Scheduler.v ===== *)
(** * The piece scheduler ([p2p_network.rs], [PieceScheduler])

    Which piece to ask a peer for: the missing piece the peer has with the
    highest priority, then the rarest, then the one that failed least. *)

From Stdlib Require Import Strings.Byte Strings.String.
From S2P Require Import Prelude Bytes Error PeerWire TorrentMeta.

(** ** State *)

Inductive PieceState : Type := Missing | InFlight | Complete.
#[export] Instance PieceState_eq_dec : EqDecision PieceState.
Proof. solve_decision. Defined.
#[export] Instance PieceState_inhabited : Inhabited PieceState := populate Missing.

Record PieceScheduler : Type := mk_PieceScheduler {
  states : list PieceState;
  availability : list Z;
  failures : list Z;
  max_failures : Z;
  priorities : list Z;
}.

Definition set_states f (s : PieceScheduler) :=
  mk_PieceScheduler (f (states s)) (availability s) (failures s) (max_failures s) (priorities s).
Definition set_availability f (s : PieceScheduler) :=
  mk_PieceScheduler (states s) (f (availability s)) (failures s) (max_failures s) (priorities s).
Definition set_failures f (s : PieceScheduler) :=
  mk_PieceScheduler (states s) (availability s) (f (failures s)) (max_failures s) (priorities s).
Definition set_priorities f (s : PieceScheduler) :=
  mk_PieceScheduler (states s) (availability s) (failures s) (max_failures s) (f (priorities s)).

Abbreviation Sched := (io PieceScheduler ProxyError.t).

Definition scheduler_new (piece_count max_failures : Z) : Result PieceScheduler :=
  if (piece_count =? 0) || (1000000 <? piece_count) || (max_failures =? 0)
  then Err (ProxyError.Request (str "invalid piece scheduler limits"))
  else
    let n := Z.to_nat piece_count in
    Ok (mk_PieceScheduler (replicate n Missing) (replicate n 0) (replicate n 0) max_failures
          (replicate n 0)).

(** ** Bitfields *)

(** [bitfield[index / 8] & (0x80 >> (index % 8)) != 0]. *)
Definition has_bit (bitfield : text) (index : nat) : bool :=
  negb (Z.land (b2z (bitfield !!! (index / 8)%nat)) (Z.shiftr 0x80 (Z.of_nat (index mod 8))) =? 0).

Definition bytes_for (n : nat) : nat := (n / 8 + (if Nat.eqb (n mod 8) 0 then 0 else 1))%nat.

Definition length_mismatch (bitfield : text) (s : PieceScheduler) : bool :=
  negb (Nat.eqb (length bitfield) (bytes_for (length (states s)))).

(** [u32::saturating_add] and [u8::saturating_add] of 1. *)
Definition saturating_succ (bound z : Z) : Z := Z.min (z + 1) bound.

Definition observe_bitfield (bitfield : text) : Sched unit := fun s =>
  if length_mismatch bitfield s
  then (Err (ProxyError.Parse (str "peer bitfield length mismatch")), s)
  else
    let s' := set_availability
                (imap (fun index a => if has_bit bitfield index then saturating_succ u32_max a else a)) s in
    let spare_bits := (length bitfield * 8 - length (states s))%nat in
    if Nat.ltb 0 spare_bits
       && negb (Z.land (b2z (List.last bitfield x00)) (Z.shiftl 1 (Z.of_nat spare_bits) - 1) =? 0)
    then (Err (ProxyError.Parse (str "peer bitfield sets spare bits")), s')
    else (Ok tt, s').

(** ** Claiming a piece *)

(** The [min_by_key] tuple. *)
Definition key (s : PieceScheduler) (index : nat) : Z * Z * Z * nat :=
  (255 - priorities s !!! index, availability s !!! index, failures s !!! index, index).

(** The order of tuples. *)
Definition key_lt (a b : Z * Z * Z * nat) : bool :=
  let '(a1, a2, a3, a4) := a in
  let '(b1, b2, b3, b4) := b in
  (a1 <? b1)
  || ((a1 =? b1) && ((a2 <? b2)
  || ((a2 =? b2) && ((a3 <? b3)
  || ((a3 =? b3) && Nat.ltb a4 b4))))).

Definition eligible (bitfield : text) (s : PieceScheduler) (index : nat) : bool :=
  has_bit bitfield index && bool_decide (states s !!! index = Missing)
  && (failures s !!! index <? max_failures s).

(** [Iterator::min_by_key]: of equal keys the first wins. *)
Definition min_by_key {K} (lt : K -> K -> bool) (k : nat -> K) (l : list nat) : option nat :=
  fold_left (fun best i =>
    match best with
    | None => Some i
    | Some b => if lt (k i) (k b) then Some i else Some b
    end) l None.

Definition claim_next (peer_bitfield : text) : Sched (option nat) := fun s =>
  if length_mismatch peer_bitfield s
  then (Err (ProxyError.Parse (str "peer bitfield length mismatch")), s)
  else
    match min_by_key key_lt (key s)
            (List.filter (eligible peer_bitfield s) (seq 0 (length (states s)))) with
    | Some index => (Ok (Some index), set_states <[index := InFlight]> s)
    | None => (Ok None, s)
    end.

(** ** The end of a claim *)

Definition in_flight (index : Z) (k : nat -> Sched unit) : Sched unit := fun s =>
  match states s !! Z.to_nat index with
  | None => (Err (ProxyError.Request (str "piece index out of range")), s)
  | Some state =>
      if bool_decide (state = InFlight) then k (Z.to_nat index) s
      else (Err (ProxyError.Request (str "piece is not in flight")), s)
  end.

Definition complete (index : Z) : Sched unit :=
  in_flight index (fun i s => (Ok tt, set_states <[i := Complete]> s)).

Definition fail (index : Z) : Sched unit :=
  in_flight index (fun i s =>
    (Ok tt, set_states <[i := Missing]>
              (set_failures (fun l => <[i := saturating_succ 255 (l !!! i)]> l) s))).

Definition is_complete (s : PieceScheduler) : bool :=
  forallb (fun state => bool_decide (state = Complete)) (states s).

(** ** Priorities *)

(** [None] is a panic: an index past the priorities, or a zero piece length. *)
Definition prioritize_byte_range (m : TorrentMetadata) (start end_ priority : Z) (s : PieceScheduler) :
    option (Result unit * PieceScheduler) :=
  if (end_ <? start) || (total_length m <=? end_)
     || negb (Nat.eqb (length (piece_sha1 m)) (length (states s)))
  then Some (Err (ProxyError.Request (str "invalid playback priority range")), s)
  else if piece_length m =? 0 then None
  else
    let first := Z.to_nat (start / piece_length m) in
    let last := Z.to_nat (end_ / piece_length m) in
    if Nat.leb (length (priorities s)) last && Nat.leb first last then None
    else
      Some (Ok tt, set_priorities (imap (fun i p =>
              if Nat.leb first i && Nat.leb i last then Z.max p priority else p)) s).

Definition clear_priorities (s : PieceScheduler) : PieceScheduler :=
  set_priorities (fun l => replicate (length l) 0) s.
