(* ===== verification/SchedulerTheorems.v ===== *)
(** * The piece scheduler: claims are best, exclusive and bounded *)

From Stdlib Require Import Strings.Byte Strings.String.
From S2P Require Import Prelude Bytes Error PeerWire TorrentMeta TorrentMetaTheorems Scheduler.

(** ** The order of keys and the minimum *)

Lemma key_lt_spec a1 a2 a3 a4 b1 b2 b3 b4 :
  key_lt (a1, a2, a3, a4) (b1, b2, b3, b4) = true
  <-> a1 < b1 \/ (a1 = b1 /\ (a2 < b2 \/ (a2 = b2 /\ (a3 < b3 \/ (a3 = b3 /\ (a4 < b4)%nat))))).
Proof.
  unfold key_lt.
  rewrite !orb_true_iff, !andb_true_iff, !orb_true_iff, !andb_true_iff, !orb_true_iff, !andb_true_iff,
    !Z.ltb_lt, !Z.eqb_eq, Nat.ltb_lt. done.
Qed.

Lemma key_lt_irrefl a : key_lt a a = false.
Proof. destruct a as [[[a1 a2] a3] a4]. apply not_true_iff_false. rewrite key_lt_spec. lia. Qed.
Lemma key_lt_trans a b c : key_lt a b = true -> key_lt b c = true -> key_lt a c = true.
Proof.
  destruct a as [[[a1 a2] a3] a4], b as [[[b1 b2] b3] b4], c as [[[c1 c2] c3] c4].
  rewrite !key_lt_spec. lia.
Qed.
Lemma key_lt_cotrans a b c : key_lt a c = true -> key_lt a b = true \/ key_lt b c = true.
Proof.
  destruct a as [[[a1 a2] a3] a4], b as [[[b1 b2] b3] b4], c as [[[c1 c2] c3] c4].
  rewrite !key_lt_spec. lia.
Qed.

Section Min.
Context {K : Type} (lt : K -> K -> bool) (k : nat -> K).
Context (irrefl : forall a, lt a a = false)
  (trans : forall a b c, lt a b = true -> lt b c = true -> lt a c = true)
  (cotrans : forall a b c, lt a c = true -> lt a b = true \/ lt b c = true).

Lemma min_by_key_go l : forall best,
  exists b, fold_left (fun best i => match best with None => Some i
              | Some b => if lt (k i) (k b) then Some i else Some b end) l (Some best) = Some b
    /\ b ∈ best :: l /\ forall j, j ∈ best :: l -> lt (k j) (k b) = false.
Proof.
  induction l as [|i l IH]; intros best; cbn [fold_left].
  { exists best. split_and!; [done|by left|]. by intros j ->%list_elem_of_singleton. }
  destruct (lt (k i) (k best)) eqn:E.
  - destruct (IH i) as (b & -> & Hb & Hmin). exists b. split_and!; [done|by right|].
    intros j [->|Hj]%elem_of_cons; [|by apply Hmin].
    apply not_true_iff_false. intros Hlt. specialize (Hmin i ltac:(by left)).
    by rewrite (trans _ _ _ E Hlt) in Hmin.
  - destruct (IH best) as (b & -> & Hb & Hmin). exists b. split_and!; [done| |].
    + apply elem_of_cons in Hb as [->|Hb]; [by left|by do 2 right].
    + intros j [->|[->|Hj]%elem_of_cons]%elem_of_cons; [by apply Hmin; left| |by apply Hmin; right].
      apply not_true_iff_false. intros Hlt. specialize (Hmin best ltac:(by left)).
      destruct (cotrans _ (k best) _ Hlt); congruence.
Qed.

Lemma least_key_Some l b :
  min_by_key lt k l = Some b -> b ∈ l /\ forall j, j ∈ l -> lt (k j) (k b) = false.
Proof.
  unfold min_by_key. destruct l as [|i l]; [done|]. cbn [fold_left].
  destruct (min_by_key_go l i) as (b' & -> & Hb & Hmin). by intros [= <-].
Qed.
Lemma least_key_None l : min_by_key lt k l = None -> l = [].
Proof.
  unfold min_by_key. destruct l as [|i l]; [done|]. cbn [fold_left].
  by destruct (min_by_key_go l i) as (b' & -> & _).
Qed.
End Min.

(** ** The invariant *)

Definition busy (st : PieceState) : Z := if decide (st = Missing) then 0 else 1.

Record scheduler_wf (s : PieceScheduler) : Prop := {
  wf_pieces : 0 < Z.of_nat (length (states s)) <= 1000000;
  wf_availability_length : length (availability s) = length (states s);
  wf_failures_length : length (failures s) = length (states s);
  wf_priorities_length : length (priorities s) = length (states s);
  wf_max : 0 < max_failures s <= 255;
  wf_availability : Forall (fun a => 0 <= a <= u32_max) (availability s);
  wf_priorities : Forall (fun p => 0 <= p <= 255) (priorities s);
  wf_attempts i st f : states s !! i = Some st -> failures s !! i = Some f ->
    0 <= f /\ f + busy st <= max_failures s;
}.

(** One call on the scheduler, by whichever task holds its lock. *)
Inductive call : Type :=
| Observe (bitfield : text)
| Claim (bitfield : text)
| CompletePiece (index : Z)
| FailPiece (index : Z)
| Prioritize (m : TorrentMetadata) (start end_ priority : Z)
| ClearPriorities.

(** The state after a call, and the piece it claimed; a panic leaves the
    state as it is. *)
Definition run_call (c : call) (s : PieceScheduler) : PieceScheduler * option nat :=
  match c with
  | Observe bitfield => ((observe_bitfield bitfield s).2, None)
  | Claim bitfield =>
      let '(r, s') := claim_next bitfield s in
      (s', match r with Ok o => o | Err _ => None end)
  | CompletePiece index => ((complete index s).2, None)
  | FailPiece index => ((fail index s).2, None)
  | Prioritize m start end_ priority =>
      (match prioritize_byte_range m start end_ priority s with Some (_, s') => s' | None => s end, None)
  | ClearPriorities => (clear_priorities s, None)
  end.

Fixpoint run_calls (cs : list call) (s : PieceScheduler) : PieceScheduler * list nat :=
  match cs with
  | [] => (s, [])
  | c :: cs' =>
      let '(s1, claimed) := run_call c s in
      let '(s2, rest) := run_calls cs' s1 in
      (s2, match claimed with Some i => i :: rest | None => rest end)
  end.

(** A priority is a byte. *)
Definition call_ok (c : call) : Prop :=
  match c with Prioritize _ _ _ priority => 0 <= priority <= 255 | _ => True end.

(** ** What a claim gives *)

Lemma claim_next_spec bitfield s :
  let '(r, s') := claim_next bitfield s in
  match r with
  | Err e => s' = s /\ e = ProxyError.Parse (str "peer bitfield length mismatch")
             /\ length bitfield <> bytes_for (length (states s))
  | Ok None => s' = s /\ forall i, (i < length (states s))%nat -> eligible bitfield s i = false
  | Ok (Some i) =>
      s' = set_states <[i := InFlight]> s /\ (i < length (states s))%nat /\ eligible bitfield s i = true
      /\ forall j, (j < length (states s))%nat -> eligible bitfield s j = true ->
           key_lt (key s j) (key s i) = false
  end.
Proof.
  unfold claim_next, length_mismatch.
  destruct (Nat.eqb_spec (length bitfield) (bytes_for (length (states s)))); [|done]. simpl negb. cbv iota.
  destruct (min_by_key key_lt (key s) _) as [i|] eqn:E.
  - apply least_key_Some in E as [Hi Hmin];
      [|apply key_lt_irrefl|apply key_lt_trans|apply key_lt_cotrans].
    rewrite list_elem_of_In, filter_In, in_seq in Hi. destruct Hi as [Hi He].
    split_and!; [done|lia|done|]. intros j Hj Hej. apply Hmin.
    rewrite list_elem_of_In, filter_In, in_seq. split; [lia|done].
  - apply least_key_None in E; [|apply key_lt_irrefl|apply key_lt_trans|apply key_lt_cotrans]. split; [done|]. intros i Hi.
    apply not_true_iff_false. intros He.
    assert (Hin : List.In i (List.filter (eligible bitfield s) (seq 0 (length (states s)))))
      by (rewrite filter_In, in_seq; split; [lia|done]).
    by rewrite E in Hin.
Qed.

(** ** Attempts *)

(** The claims a piece has had: one per failure and one that is running or
    has succeeded. *)
Definition attempt (s : PieceScheduler) (i : nat) : Z := failures s !!! i + busy (states s !!! i).

Lemma attempt_lookup s i st f :
  states s !! i = Some st -> failures s !! i = Some f -> attempt s i = f + busy st.
Proof.
  intros Hst Hf. unfold attempt.
  by rewrite (list_lookup_total_correct _ _ _ Hst), (list_lookup_total_correct _ _ _ Hf).
Qed.

Lemma attempt_update s i st f st' f' j :
  states s !! i = Some st -> failures s !! i = Some f ->
  attempt (set_states <[i := st']> (set_failures <[i := f']> s)) j
  = if decide (j = i) then f' + busy st' else attempt s j.
Proof.
  intros Hst%lookup_lt_Some Hf%lookup_lt_Some. unfold attempt. simpl. case_decide; [subst j|].
  - by rewrite !list_lookup_total_insert_eq.
  - by rewrite !list_lookup_total_insert_ne.
Qed.

Lemma set_failures_id s i f : failures s !! i = Some f -> set_failures <[i := f]> s = s.
Proof. intros H. unfold set_failures. rewrite list_insert_id by done. by destruct s. Qed.

Lemma scheduler_lookup s i :
  scheduler_wf s -> (i < length (states s))%nat ->
  exists st f, states s !! i = Some st /\ failures s !! i = Some f /\ 0 <= f /\ f + busy st <= max_failures s.
Proof.
  intros Hwf Hi. destruct (lookup_lt_is_Some_2 (states s) i Hi) as [st Hst].
  destruct (lookup_lt_is_Some_2 (failures s) i) as [f Hf]; [by rewrite (wf_failures_length s Hwf)|].
  exists st, f. split_and!; [done|done|..]; by apply (wf_attempts s Hwf i st f).
Qed.

Lemma eligible_lookup bitfield s i st f :
  states s !! i = Some st -> failures s !! i = Some f -> eligible bitfield s i = true ->
  has_bit bitfield i = true /\ st = Missing /\ f < max_failures s.
Proof.
  intros Hst Hf. unfold eligible. rewrite !andb_true_iff, bool_decide_eq_true, Z.ltb_lt.
  rewrite (list_lookup_total_correct _ _ _ Hst), (list_lookup_total_correct _ _ _ Hf). tauto.
Qed.

(** Changing the state of a piece, and its failures, within its bound. *)
Lemma update_wf s i st' f' :
  scheduler_wf s -> (i < length (states s))%nat -> 0 <= f' -> f' + busy st' <= max_failures s ->
  scheduler_wf (set_states <[i := st']> (set_failures <[i := f']> s)).
Proof.
  intros [? ? ? ? ? ? ? Hatt] Hi Hf Hle. constructor; simpl; rewrite ?length_insert; try done.
  intros j st f Hst Hff. destruct (decide (j = i)) as [->|Hne].
  - rewrite list_lookup_insert_eq in Hst by lia. rewrite list_lookup_insert_eq in Hff by lia.
    by injection Hst as <-; injection Hff as <-.
  - rewrite list_lookup_insert_ne in Hst by done. rewrite list_lookup_insert_ne in Hff by done.
    by apply (Hatt j).
Qed.

Definition claimed_of (o : option nat) (i : nat) : Z := if decide (o = Some i) then 1 else 0.
(** A call keeps the invariant and counts a claim as an attempt of its piece. *)
Definition counts (s s' : PieceScheduler) (o : option nat) : Prop :=
  scheduler_wf s' /\ length (states s') = length (states s)
  /\ max_failures s' = max_failures s
  /\ forall i, attempt s' i = attempt s i + claimed_of o i.

Lemma counts_refl s : scheduler_wf s -> counts s s None.
Proof. intros. split_and!; [done..|]. intros i. unfold claimed_of. simpl. lia. Qed.

Lemma claim_next_counts bitfield s s' o :
  scheduler_wf s -> run_call (Claim bitfield) s = (s', o) -> counts s s' o.
Proof.
  intros Hwf. cbn [run_call]. pose proof (claim_next_spec bitfield s) as Hs.
  destruct (claim_next bitfield s) as [[[i|]|e] s1].
  - destruct Hs as (-> & Hi & He & _). intros [= <- <-].
    destruct (scheduler_lookup s i Hwf Hi) as (st & f & Hst & Hf & Hnn & _).
    destruct (eligible_lookup _ _ _ _ _ Hst Hf He) as (_ & -> & Hlt).
    replace (set_states <[i := InFlight]> s) with (set_states <[i := InFlight]> (set_failures <[i := f]> s))
      by (by rewrite set_failures_id). split_and!.
    + apply update_wf; [done|done|done|unfold busy; simpl; lia].
    + simpl. by rewrite length_insert.
    + done.
    + intros j. rewrite (attempt_update s i Missing f) by done. unfold claimed_of.
      case_decide as Hj; [subst j; rewrite decide_True by done|rewrite decide_False by congruence; lia].
      rewrite (attempt_lookup s i Missing f) by done. unfold busy. simpl. lia.
  - destruct Hs as [-> _]. intros [= <- <-]. by apply counts_refl.
  - destruct Hs as [-> _]. intros [= <- <-]. by apply counts_refl.
Qed.

(** [complete] and [fail] change a piece in flight, or nothing. *)
Lemma in_flight_cases index k s r s' :
  in_flight index k s = (r, s') ->
  (s' = s /\ is_ok r = false) \/ (states s !! Z.to_nat index = Some InFlight /\ k (Z.to_nat index) s = (r, s')).
Proof.
  unfold in_flight. destruct (states s !! Z.to_nat index) as [st|] eqn:E; [|intros [= <- <-]; by left].
  case_bool_decide; [subst st; by right|]. intros [= <- <-]. by left.
Qed.

(** Ending a claim moves its attempt from the state to the failures, or
    leaves it in the state. *)
Lemma end_counts s i f st' f' :
  scheduler_wf s -> states s !! i = Some InFlight -> failures s !! i = Some f -> f' + busy st' = f + 1 ->
  f <= f' ->
  counts s (set_states <[i := st']> (set_failures <[i := f']> s)) None.
Proof.
  intros Hwf Hst Hf Heq Hle. pose proof (lookup_lt_Some _ _ _ Hst) as Hi.
  pose proof (wf_attempts s Hwf i InFlight f Hst Hf) as [H0 Hm]. unfold busy at 1 in Hm. simpl in Hm.
  split_and!; [apply update_wf; [done|done|lia|lia]|simpl; by rewrite length_insert|done|].
  intros j. rewrite (attempt_update s i InFlight f) by done. unfold claimed_of. simpl.
  case_decide; [subst j; rewrite (attempt_lookup s i InFlight f) by done; unfold busy at 2; simpl; lia|lia].
Qed.

Lemma complete_counts index s : scheduler_wf s -> counts s (complete index s).2 None.
Proof.
  intros Hwf. destruct (complete index s) as [r s'] eqn:E. simpl.
  apply in_flight_cases in E as [[-> _]|[Hst [= <- <-]]]; [by apply counts_refl|].
  destruct (scheduler_lookup s _ Hwf (lookup_lt_Some _ _ _ Hst)) as (st & f & _ & Hf & _).
  replace (set_states <[Z.to_nat index := Complete]> s)
    with (set_states <[Z.to_nat index := Complete]> (set_failures <[Z.to_nat index := f]> s))
    by (by rewrite set_failures_id).
  by apply (end_counts s _ f).
Qed.

Lemma fail_counts index s : scheduler_wf s -> counts s (fail index s).2 None.
Proof.
  intros Hwf. destruct (fail index s) as [r s'] eqn:E. simpl.
  apply in_flight_cases in E as [[-> _]|[Hst [= <- <-]]]; [by apply counts_refl|].
  destruct (scheduler_lookup s _ Hwf (lookup_lt_Some _ _ _ Hst)) as (st & f & Hst' & Hf & Hnn & Hle).
  rewrite Hst in Hst'. injection Hst' as <-. unfold busy in Hle. simpl in Hle.
  pose proof (wf_max s Hwf) as Hmax.
  assert (Hsat : saturating_succ 255 (failures s !!! Z.to_nat index) = f + 1).
  { rewrite (list_lookup_total_correct _ _ _ Hf). unfold saturating_succ. lia. }
  unfold set_failures at 1. rewrite Hsat. apply (end_counts s _ f); try done; [unfold busy; simpl; lia|lia].
Qed.

(** Availability and priorities do not count. *)
Lemma reweigh_counts s s' :
  scheduler_wf s -> states s' = states s -> failures s' = failures s -> max_failures s' = max_failures s ->
  length (availability s') = length (availability s) -> length (priorities s') = length (priorities s) ->
  Forall (fun a => 0 <= a <= u32_max) (availability s') -> Forall (fun p => 0 <= p <= 255) (priorities s') ->
  counts s s' None.
Proof.
  intros [? ? ? ? ? ? ? Hatt] Hst Hf Hm Ha Hp HA HP. split_and!; [|by rewrite Hst|done|].
  - constructor; rewrite ?Hst, ?Hf, ?Hm, ?Ha, ?Hp; done.
  - intros i. unfold attempt, claimed_of. rewrite Hst, Hf. simpl. lia.
Qed.

Lemma Forall_imap {A} (P : A -> Prop) (f : nat -> A -> A) l :
  (forall i x, P x -> P (f i x)) -> Forall P l -> Forall P (imap f l).
Proof.
  intros Hf Hl. revert f Hf. induction Hl as [|x l Hx Hl IH]; intros f Hf; [constructor|].
  cbn. constructor; [by apply Hf|]. apply (IH (f ∘ S)). intros i y. apply Hf.
Qed.

Lemma observe_counts bitfield s : scheduler_wf s -> counts s (observe_bitfield bitfield s).2 None.
Proof.
  intros Hwf. unfold observe_bitfield.
  destruct (length_mismatch bitfield s); [by apply counts_refl|].
  cbv zeta. set (s' := set_availability _ s).
  enough (counts s s' None) by (by case_match).
  apply reweigh_counts; simpl; rewrite ?length_imap; try done; [|apply Hwf].
  apply Forall_imap; [|apply Hwf]. intros i a Ha. case_match; [|done].
  unfold saturating_succ, u32_max in *. lia.
Qed.

Lemma prioritize_counts m start end_ priority s s' r :
  scheduler_wf s -> 0 <= priority <= 255 ->
  prioritize_byte_range m start end_ priority s = Some (r, s') -> counts s s' None.
Proof.
  intros Hwf Hp. unfold prioritize_byte_range. cbv zeta.
  case_match; [intros [= _ <-]; by apply counts_refl|].
  case_match; [done|]. case_match; [done|]. intros [= _ <-].
  apply reweigh_counts; simpl; rewrite ?length_imap; try done; [apply Hwf|].
  apply Forall_imap; [|apply Hwf]. intros i x Hx. case_match; lia.
Qed.

Lemma clear_counts s : scheduler_wf s -> counts s (clear_priorities s) None.
Proof.
  intros Hwf. apply reweigh_counts; simpl; rewrite ?length_replicate; try done; [apply Hwf|].
  apply Forall_replicate. lia.
Qed.

Lemma run_call_counts c s s' o :
  scheduler_wf s -> call_ok c -> run_call c s = (s', o) -> counts s s' o.
Proof.
  intros Hwf Hc. destruct c as [bf|bf|i|i|m st en pr|]; cbn [run_call].
  - intros [= <- <-]. by apply observe_counts.
  - by apply claim_next_counts.
  - intros [= <- <-]. by apply complete_counts.
  - intros [= <- <-]. by apply fail_counts.
  - intros [= <- <-]. destruct (prioritize_byte_range m st en pr s) as [[r s1]|] eqn:E;
      [by eapply prioritize_counts|by apply counts_refl].
  - intros [= <- <-]. by apply clear_counts.
Qed.

Definition occurrences (i : nat) (l : list nat) : Z := Z.of_nat (count_occ Nat.eq_dec l i).

Lemma run_calls_counts cs : forall s s' claimed,
  scheduler_wf s -> Forall call_ok cs -> run_calls cs s = (s', claimed) ->
  scheduler_wf s' /\ length (states s') = length (states s) /\ max_failures s' = max_failures s
  /\ forall i, attempt s' i = attempt s i + occurrences i claimed.
Proof.
  induction cs as [|c cs IH]; intros s s' claimed Hwf Hcs; cbn [run_calls].
  { intros [= <- <-]. split_and!; [done..|]. intros i. unfold occurrences. simpl. lia. }
  inversion_clear Hcs as [|?? Hc Hcs'].
  destruct (run_call c s) as [s1 o] eqn:E1. destruct (run_calls cs s1) as [s2 rest] eqn:E2.
  destruct (run_call_counts c s s1 o Hwf Hc E1) as (Hwf1 & Hl1 & Hm1 & Ha1).
  destruct (IH s1 s2 rest Hwf1 Hcs' E2) as (Hwf2 & Hl2 & Hm2 & Ha2). intros [= <- <-].
  split_and!; [done|congruence|congruence|]. intros i. rewrite Ha2, Ha1. unfold claimed_of, occurrences.
  destruct o as [j|]; [|simpl; lia]. cbn [count_occ].
  destruct (Nat.eq_dec j i) as [->|]; [rewrite decide_True by done|rewrite decide_False by congruence]; lia.
Qed.

Lemma scheduler_new_wf n max s :
  0 <= n -> 0 <= max <= 255 -> scheduler_new n max = Ok s ->
  scheduler_wf s /\ length (states s) = Z.to_nat n /\ max_failures s = max
  /\ forall i, (i < length (states s))%nat -> attempt s i = 0.
Proof.
  intros Hn Hm. unfold scheduler_new. destruct (Z.eqb_spec n 0); [done|].
  destruct (Z.ltb_spec 1000000 n); [done|]. destruct (Z.eqb_spec max 0); [done|]. simpl orb. cbv iota zeta.
  intros [= <-]. split_and!; simpl; rewrite ?length_replicate; try done.
  - constructor; simpl; rewrite ?length_replicate; try done; try lia.
    + apply Forall_replicate. unfold u32_max. lia.
    + apply Forall_replicate. lia.
    + intros i st f [-> _]%lookup_replicate [-> _]%lookup_replicate. unfold busy. simpl. lia.
  - intros i Hi. rewrite (attempt_lookup _ i Missing 0); [done|..]; by apply lookup_replicate_2.
Qed.

Lemma attempt_out_of_range s s' i :
  scheduler_wf s -> scheduler_wf s' -> length (states s') = length (states s) ->
  (length (states s) <= i)%nat -> attempt s' i = attempt s i.
Proof.
  intros Hs Hs' Hl Hi. unfold attempt. rewrite !list_lookup_total_alt.
  rewrite !(lookup_ge_None_2 (states _)), !(lookup_ge_None_2 (failures _))
    by (rewrite ?(wf_failures_length _ Hs), ?(wf_failures_length _ Hs'), ?Hl; lia). done.
Qed.

Lemma div_le_iff a b i : 0 < b -> a / b <= i <-> a < (i + 1) * b.
Proof.
  intros Hb. pose proof (Z.div_mod a b ltac:(lia)). pose proof (Z.mod_pos_bound a b Hb). split; nia.
Qed.
Lemma le_div_iff a b i : 0 < b -> i <= a / b <-> i * b <= a.
Proof.
  intros Hb. pose proof (Z.div_mod a b ltac:(lia)). pose proof (Z.mod_pos_bound a b Hb). split; nia.
Qed.

(** ** Claims *)

Module SchedulerClaims.

(** [i] is at least as good a choice as [j]. *)
Definition preferred (s : PieceScheduler) (i j : nat) : Prop :=
  priorities s !!! j < priorities s !!! i
  \/ (priorities s !!! j = priorities s !!! i
     /\ (availability s !!! i < availability s !!! j
         \/ (availability s !!! i = availability s !!! j
            /\ (failures s !!! i < failures s !!! j
                \/ (failures s !!! i = failures s !!! j /\ (i <= j)%nat))))).

(** [claim_next] picks the best piece: with a bitfield of the right length
    it claims a piece the peer has, that is missing and has not failed too
    often, and no other such piece has a higher priority, or the same and is
    rarer, or the same and failed less, or the same and comes earlier; it
    marks that piece and nothing else; it answers [None] exactly when there is
    no such piece; and a bitfield of another length changes nothing. *)
Theorem claim_next_best (bitfield : text) (s : PieceScheduler) :
  match claim_next bitfield s with
  | (Err _, s') => s' = s /\ length bitfield <> bytes_for (length (states s))
  | (Ok None, s') => s' = s /\ forall i, (i < length (states s))%nat -> eligible bitfield s i = false
  | (Ok (Some i), s') =>
      s' = set_states <[i := InFlight]> s /\ (i < length (states s))%nat /\ eligible bitfield s i = true
      /\ forall j, (j < length (states s))%nat -> eligible bitfield s j = true -> preferred s i j
  end.
Proof.
  pose proof (claim_next_spec bitfield s) as H.
  destruct (claim_next bitfield s) as [[[i|]|e] s']; [|done|tauto].
  destruct H as (-> & Hi & He & Hmin). split_and!; [done|done|done|]. intros j Hj Hej.
  specialize (Hmin j Hj Hej). unfold key in Hmin. apply not_true_iff_false in Hmin.
  rewrite key_lt_spec in Hmin. unfold preferred. lia.
Qed.

(** However the tasks of a download interleave their calls, a piece is
    claimed at most [max_failures] times, once more than it failed while it is
    in flight or complete and as often as it failed otherwise; so a piece in
    flight or complete is never claimed again, and the claims of a download
    end.  The scheduler keeps its invariant, counters included. *)
Theorem claims_bounded (n max : Z) (s0 s : PieceScheduler) (cs : list call) (claimed : list nat)
  (Hn : 0 <= n) (Hmax : 0 <= max <= 255) (Hnew : scheduler_new n max = Ok s0)
  (Hcalls : Forall call_ok cs) (Hrun : run_calls cs s0 = (s, claimed)) :
  scheduler_wf s
  /\ forall i,
       (Z.of_nat i < n -> occurrences i claimed = failures s !!! i + busy (states s !!! i)
                          /\ occurrences i claimed <= max)
       /\ (n <= Z.of_nat i -> occurrences i claimed = 0).
Proof.
  destruct (scheduler_new_wf n max s0 Hn Hmax Hnew) as (Hwf0 & Hl0 & Hm0 & Ha0).
  destruct (run_calls_counts cs s0 s claimed Hwf0 Hcalls Hrun) as (Hwf & Hl & Hm & Ha).
  split; [done|]. intros i. specialize (Ha i). split; intros Hi.
  - rewrite (Ha0 i) in Ha by lia. unfold attempt in Ha. split; [lia|].
    destruct (scheduler_lookup s i Hwf ltac:(lia)) as (st & f & Hst & Hf & _ & Hle).
    rewrite (list_lookup_total_correct _ _ _ Hst), (list_lookup_total_correct _ _ _ Hf) in Ha. lia.
  - rewrite (attempt_out_of_range s0 s i) in Ha by (done || lia). lia.
Qed.

Lemma claims_bounded_witness :
  let cs := [Observe [x80]; Claim [x80]; Claim [x80]; FailPiece 0; Claim [x80]; CompletePiece 0; Claim [x80]] in
  exists s0 s, scheduler_new 2 2 = Ok s0 /\ run_calls cs s0 = (s, [0; 0]%nat) /\ scheduler_wf s
    /\ occurrences 0 [0; 0]%nat <= 2.
Proof.
  intros cs. eexists _, _. split; [reflexivity|]. split; [vm_compute; reflexivity|].
  edestruct (claims_bounded 2 2) as [Hwf Hb].
  - lia.
  - lia.
  - reflexivity.
  - instantiate (1 := cs). repeat constructor.
  - vm_compute. reflexivity.
  - split; [exact Hwf|]. apply (Hb 0%nat). lia.
Defined.

(** A playback position raises the priority of exactly the pieces its
    byte range overlaps: for the metadata of an accepted torrent the call does
    not go past the pieces, and a piece's priority becomes the larger of the
    two if the piece has a byte of the range, and stays otherwise. *)
Theorem prioritize_exact (m : TorrentMetadata) (start end_ priority : Z) (s : PieceScheduler)
  (Hm : metadata_wf m) (Hs : scheduler_wf s) (Hcount : length (piece_sha1 m) = length (states s))
  (Hrange : 0 <= start <= end_) (Hend : end_ < total_length m) :
  exists s', prioritize_byte_range m start end_ priority s = Some (Ok tt, s')
    /\ states s' = states s /\ availability s' = availability s /\ failures s' = failures s
    /\ forall i p, priorities s !! i = Some p ->
         priorities s' !! i = Some (if decide (Z.of_nat i * piece_length m <= end_
                                               /\ start < (Z.of_nat i + 1) * piece_length m)
                                    then Z.max p priority else p).
Proof.
  pose proof (wf_piece_length m Hm) as Hpl. pose proof (wf_count m Hm) as Hc.
  pose proof (div_ceil_spec (total_length m) (piece_length m) ltac:(lia) ltac:(lia)) as Hd.
  pose proof (wf_priorities_length s Hs) as Hp. pose proof (wf_total m Hm) as Ht.
  assert (Hlast : 0 <= end_ / piece_length m < div_ceil (total_length m) (piece_length m)).
  { split; [apply Z.div_pos; lia|]. apply Z.div_lt_upper_bound; lia. }
  assert (Hfirst : 0 <= start / piece_length m) by (apply Z.div_pos; lia).
  unfold prioritize_byte_range. destruct (Z.ltb_spec end_ start); [lia|].
  destruct (Z.leb_spec (total_length m) end_); [lia|]. rewrite Hcount, Nat.eqb_refl. simpl orb. cbv iota zeta.
  destruct (Z.eqb_spec (piece_length m) 0); [lia|].
  destruct (Nat.leb_spec (length (priorities s)) (Z.to_nat (end_ / piece_length m))); [lia|].
  simpl andb. cbv iota. eexists. split_and!; [reflexivity|done|done|done|].
  intros i p Hi. simpl. rewrite list_lookup_imap, Hi. simpl. f_equal.
  pose proof (div_le_iff start (piece_length m) (Z.of_nat i) ltac:(lia)).
  pose proof (le_div_iff end_ (piece_length m) (Z.of_nat i) ltac:(lia)).
  destruct (Nat.leb_spec (Z.to_nat (start / piece_length m)) i), (Nat.leb_spec i (Z.to_nat (end_ / piece_length m)));
    simpl; case_decide; try done; exfalso; lia.
Qed.

Lemma prioritize_exact_witness :
  let m := mk_TorrentMetadata [] (str "a") 40000 16384 (replicate 3 (replicate 20 x41))
             [mk_TorrentFile [str "a"] 40000] in
  let s := mk_PieceScheduler [Missing; Missing; Missing] [0; 0; 0] [0; 0; 0] 3 [0; 0; 9] in
  exists s', prioritize_byte_range m 16384 39999 5 s = Some (Ok tt, s') /\ priorities s' = [0; 5; 9].
Proof.
  intros m s.
  assert (Hm : metadata_wf m).
  { constructor; try (vm_compute; intuition discriminate); [repeat constructor|..].
    - split_and!; [done|..]; apply (bool_decide_unpack _); vm_compute; exact I.
    - constructor; [|constructor]. split; [by exists []|done]. }
  assert (Hs : scheduler_wf s).
  { constructor; [simpl; lia|reflexivity|reflexivity|reflexivity|simpl; lia| | |].
    1-2: repeat (constructor; [unfold u32_max; lia|]); constructor.
    intros [|[|[|i]]] st f; intros [= <-] [= <-]; unfold busy; simpl; lia. }
  destruct (prioritize_exact m 16384 39999 5 s Hm Hs) as (s' & E & _); [reflexivity|lia|simpl; lia|].
  exists s'. split; [exact E|]. vm_compute in E. by injection E as <-.
Defined.

End SchedulerClaims.
