(* ===== verification/TorrentStore.v ===== *)
(** * The piece store and the upload session ([p2p_network.rs])

    Verified pieces as files below a directory per torrent, and the blocks an
    authorized session hands out of them within its quota. *)

From Stdlib Require Import Strings.Byte Strings.String.
From S2P Require Import Prelude Bytes Error FileSystem Digest PeerWire TorrentMeta TorrentMetaTheorems.

Abbreviation Store := (io fs ProxyError.t).

(** A system call whose outcome is looked at. *)
Definition call_fs {A} (m : FS A) : Store (result ioerr A) := fun s => let '(r, s') := m s in (Ok r, s').
(** A system call under [map_err(..)?]. *)
Definition storage_q {A} (what : text) (m : FS A) : Store A :=
  r ← call_fs m;
  match r with
  | Ok a => mret a
  | Err error => throw (ProxyError.Storage (what ++ io_text error))
  end.

(** ** The piece store *)

Record TorrentPieceStore : Type := mk_TorrentPieceStore { directory : path }.

Definition store_new (root : path) (is_absolute : bool) (hash : text) : Store TorrentPieceStore :=
  if negb is_absolute then throw (ProxyError.Storage (str "torrent piece root must be absolute"))
  else
    let dir := root ++ [mjoin (map hex_of_byte hash)] in
    _ ← storage_q (str "create torrent piece directory failed: ") (fs_create_dir_all dir);
    mret (mk_TorrentPieceStore dir).

Definition piece_path (store : TorrentPieceStore) (index : Z) : path :=
  directory store ++ [format_u64 index ++ str ".piece"].
Definition temp_path (store : TorrentPieceStore) (index : Z) : path :=
  directory store ++ [format_u64 index ++ str ".piece.tmp"].

Definition bad_size (bytes : text) : bool := bool_decide (bytes = []) || too_long bytes MAX_PIECE.

Section Sha.
Context {SHA : Sha1}.

Definition store_piece (store : TorrentPieceStore) (index : Z) (bytes expected : text) : Store unit :=
  if bad_size bytes then throw (ProxyError.Storage (str "invalid torrent piece size"))
  else
    _ ← lift (verify_piece_sha1 bytes expected);
    _ ← storage_q (str "write torrent piece failed: ") (fs_write (temp_path store index) bytes);
    renamed ← call_fs (fs_rename (temp_path store index) (piece_path store index));
    match renamed with
    | Ok _ => mret tt
    | Err error =>
        _ ← call_fs (fs_remove (temp_path store index));
        throw (ProxyError.Storage (str "commit torrent piece failed: " ++ io_text error))
    end.

Definition load_piece (store : TorrentPieceStore) (index : Z) (expected : text) : Store (option text) :=
  read ← call_fs (fs_read (piece_path store index));
  match read with
  | Err error =>
      if is_not_found error then mret None
      else throw (ProxyError.Storage (str "read torrent piece failed: " ++ io_text error))
  | Ok bytes =>
      if bad_size bytes || negb (is_ok (verify_piece_sha1 bytes expected))
      then _ ← call_fs (fs_remove (piece_path store index)); mret None
      else mret (Some bytes)
  end.

Fixpoint completed_from (store : TorrentPieceStore) (index : Z) (hashes : list text) : Store (list Z) :=
  match hashes with
  | [] => mret []
  | hash :: hashes' =>
      loaded ← load_piece store index hash;
      rest ← completed_from store (index + 1) hashes';
      mret (match loaded with Some _ => index :: rest | None => rest end)
  end.
Definition completed (store : TorrentPieceStore) (hashes : list text) : Store (list Z) :=
  completed_from store 0 hashes.

(** ** The upload session *)

Record UploadSession : Type := mk_UploadSession {
  authorized : bool;
  max_bytes : Z;
  uploaded : Z;
}.

Definition upload_new (authorized : bool) (max_bytes : Z) : Result UploadSession :=
  if max_bytes =? 0 then Err (ProxyError.Request (str "upload quota must be positive"))
  else Ok (mk_UploadSession authorized max_bytes 0).

(** A session that answers with an error is unchanged. *)
Definition serve_block (u : UploadSession) (m : TorrentMetadata) (store : TorrentPieceStore)
    (index begin len : Z) : Store (text * UploadSession) :=
  if negb (authorized u) then throw (ProxyError.Request (str "torrent upload is not authorized"))
  else
    _ ← lift (validate_block_request begin len);
    piece_len ← lift (torrent_piece_length m index);
    let end_ := begin + len in
    if u32_max <? end_ then throw (ProxyError.Request (str "upload block range overflow"))
    else if piece_len <? end_ then throw (ProxyError.Request (str "upload block exceeds piece"))
    else
      next_total ← lift (ok_or (checked_add (uploaded u) len)
                           (ProxyError.Request (str "upload quota overflow")));
      if max_bytes u <? next_total then throw (ProxyError.Request (str "upload quota exceeded"))
      else
        hash ← lift (ok_or (piece_sha1 m !! Z.to_nat index)
                       (ProxyError.Request (str "upload piece index out of range")));
        loaded ← load_piece store index hash;
        piece ← lift (ok_or loaded (ProxyError.Request (str "upload piece is unavailable")));
        if Z.of_nat (length piece) <? end_
        then throw (ProxyError.Request (str "upload block range is invalid"))
        else mret (take (Z.to_nat len) (drop (Z.to_nat begin) piece),
                   mk_UploadSession (authorized u) (max_bytes u) next_total).

End Sha.

(** * The piece store: verified, atomic, within the quota *)

(** ** Files *)

Definition content (s : fs) (p : path) : option text := names s !! p ≫= fun i => inodes s !! i.

(** No two names of one file, and new files get new inodes. *)
Record tidy (s : fs) : Prop := {
  tidy_inj p q i : names s !! p = Some i -> names s !! q = Some i -> p = q;
  tidy_fresh p i : names s !! p = Some i -> (i < next_ino s)%nat;
}.

Lemma tidy_pop s : tidy s -> tidy (pop s).
Proof. by intros [? ?]. Qed.
Lemma content_pop s p : content (pop s) p = content s p.
Proof. done. Qed.

Lemma put_file_tidy s p c : tidy s -> tidy (put_file p c s).
Proof.
  intros [Hinj Hfresh]. unfold put_file. destruct (names s !! p) as [i|] eqn:E; [by constructor|].
  constructor; simpl.
  - intros q1 q2 i. rewrite !lookup_insert_Some.
    intros [[<- Ha]|[? H1]] [[<- Hb]|[? H2]]; [done|apply Hfresh in H2; lia|apply Hfresh in H1; lia|].
    by eapply Hinj.
  - intros q i. rewrite lookup_insert_Some. intros [[_ <-]|[_ H]]; [lia|]. apply Hfresh in H. lia.
Qed.

Lemma content_after_put s p c q :
  tidy s -> content (put_file p c s) q = if decide (q = p) then Some c else content s q.
Proof.
  intros [Hinj Hfresh]. unfold put_file, content. destruct (names s !! p) as [i|] eqn:E; simpl.
  - case_decide as Hq; [subst; rewrite E; simpl; by rewrite lookup_insert_eq|].
    destruct (names s !! q) as [j|] eqn:Ej; [|done]. simpl.
    rewrite lookup_insert_ne; [done|]. intros <-. by apply Hq, (Hinj _ _ i).
  - case_decide as Hq; [subst; rewrite lookup_insert_eq; simpl; by rewrite lookup_insert_eq|].
    rewrite lookup_insert_ne by done. destruct (names s !! q) as [j|] eqn:Ej; [|done]. simpl.
    apply Hfresh in Ej. rewrite lookup_insert_ne; [done|lia].
Qed.

(** What a file operation leaves of the other files. *)
Definition untouched (ps : list path) (s s' : fs) : Prop :=
  tidy s' /\ forall q, q ∉ ps -> content s' q = content s q.

Lemma fs_write_cases p c s r s' :
  tidy s -> fs_write p c s = (r, s') ->
  untouched [p] s s' /\ (r = Ok tt -> content s' p = Some c).
Proof.
  intros Ht. unfold fs_write.
  assert (Hput : forall c', untouched [p] s (put_file p c' (pop s)) /\ content (put_file p c' (pop s)) p = Some c').
  { intros c'. split; [split|].
    - by apply put_file_tidy, tidy_pop.
    - intros q Hq. rewrite content_after_put by (by apply tidy_pop).
      rewrite decide_False; [done|]. intros ->. apply Hq. by left.
    - rewrite content_after_put by (by apply tidy_pop). by rewrite decide_True. }
  assert (Hpop : untouched [p] s (pop s)) by (split; [by apply tidy_pop|done]).
  destruct (next_fault s) as [|n|msg [|n]];
    repeat case_decide; intros [= <- <-]; (split; [by apply Hput || done|]); try done.
  1-2: intros _; apply Hput.
Qed.

Lemma fs_rename_cases src dst s r s' :
  src <> dst -> tidy s -> fs_rename src dst s = (r, s') ->
  (is_ok r = false /\ untouched [] s s')
  \/ (r = Ok tt /\ untouched [src; dst] s s' /\ content s' dst = content s src).
Proof.
  intros Hne Ht. unfold fs_rename, syscall.
  assert (Hpop : untouched [] s (pop s)) by (split; [by apply tidy_pop|done]).
  assert (Hbody : (match names (pop s) !! src with
    | Some i => (Ok tt, set_names (fun n => <[dst := i]> (delete src n)) (pop s))
    | None => (Err not_found, pop s) end) = (r, s') ->
    (is_ok r = false /\ untouched [] s s')
    \/ (r = Ok tt /\ untouched [src; dst] s s' /\ content s' dst = content s src)).
  { simpl. destruct (names s !! src) as [i|] eqn:E; intros [= <- <-]; [right|by left].
    destruct Ht as [Hinj Hfresh]. split_and!; [done|split; [constructor|]|]; simpl.
    - intros p q j. rewrite !lookup_insert_Some, !lookup_delete_Some.
      intros [[<- <-]|(? & Hp & H1)] [[<- Hb]|(? & Hq & H2)]; [done| | |by eapply Hinj].
      + by destruct Hq; apply (Hinj _ _ _ E H2).
      + subst. by destruct Hp; apply (Hinj _ _ _ E H1).
    - intros p j. rewrite lookup_insert_Some, lookup_delete_Some. intros [[_ <-]|(_ & _ & H)]; by eapply Hfresh.
    - intros q Hq. rewrite !not_elem_of_cons in Hq. destruct Hq as (Hq1 & Hq2 & _). unfold content. simpl.
      by rewrite lookup_insert_ne, lookup_delete_ne by done.
    - unfold content. simpl. by rewrite lookup_insert_eq, E. }
  destruct (next_fault s); [by apply Hbody|by apply Hbody|]. intros [= <- <-]. by left.
Qed.

Lemma fs_remove_untouched p s r s' : tidy s -> fs_remove p s = (r, s') -> untouched [p] s s'.
Proof.
  intros [Hinj Hfresh]. unfold fs_remove, syscall.
  assert (Hpop : untouched [p] s (pop s)) by (split; [by constructor|done]).
  assert (Hdel : untouched [p] s (set_names (delete p) (pop s))).
  { split; [constructor; simpl|].
    - intros a b i. rewrite !lookup_delete_Some. intros [_ ?] [_ ?]. by eapply Hinj.
    - intros a i. rewrite lookup_delete_Some. intros [_ ?]. by eapply Hfresh.
    - intros q Hq%not_elem_of_cons. unfold content. simpl. by rewrite lookup_delete_ne by naive_solver. }
  destruct (next_fault s); try (simpl; destruct (names s !! p)); by intros [= <- <-].
Qed.

Lemma untouched_trans ps qs s1 s2 s3 :
  untouched ps s1 s2 -> untouched qs s2 s3 -> (forall p, p ∈ ps -> p ∈ qs) -> untouched qs s1 s3.
Proof.
  intros [_ H1] [Ht H2] Hsub. split; [done|]. intros q Hq. rewrite H2 by done. apply H1. auto.
Qed.
Lemma untouched_weaken ps qs s1 s2 :
  untouched ps s1 s2 -> (forall p, p ∈ ps -> p ∈ qs) -> untouched qs s1 s2.
Proof. intros [Ht H] Hsub. split; [done|]. intros q Hq. apply H. auto. Qed.

Lemma piece_temp_ne store i j : piece_path store i <> temp_path store j.
Proof.
  unfold piece_path, temp_path. intros H%app_inv_head. injection H as H.
  apply (f_equal (fun l => List.last l x00)) in H.
  change (str ".piece.tmp") with (str ".piece.tm" ++ [x70]) in H.
  change (str ".piece") with (str ".piec" ++ [x65]) in H.
  rewrite !app_assoc, !last_last in H. done.
Qed.

(** ** Storing and loading *)

Section Store.
Context {SHA : Sha1}.

Definition verified (expected b : text) : Prop :=
  b <> [] /\ Z.of_nat (length b) <= MAX_PIECE /\ sha1 b = expected.

Lemma bad_size_false b : bad_size b = false <-> b <> [] /\ Z.of_nat (length b) <= MAX_PIECE.
Proof. unfold bad_size. rewrite orb_false_iff, bool_decide_eq_false, too_long_false. done. Qed.

Lemma verify_piece_sha1_Ok b expected : verify_piece_sha1 b expected = Ok tt <-> sha1 b = expected.
Proof. unfold verify_piece_sha1. by case_bool_decide; split. Qed.

Lemma call_fs_bind {A B} (m : FS A) (k : result ioerr A -> Store B) s :
  (call_fs m ≫= k) s = k (m s).1 (m s).2.
Proof. unfold call_fs, mbind, io_bind. by destruct (m s). Qed.

Lemma storage_q_cases {A} what (m : FS A) s r s' :
  storage_q what m s = (r, s') -> exists r1, m s = (r1, s') /\ (forall a, r = Ok a -> r1 = Ok a).
Proof.
  unfold storage_q, call_fs, mbind, io_bind. destruct (m s) as [[a|e] s1]; cbn; intros [= <- <-];
    eexists; (split; [done|naive_solver]).
Qed.

Lemma store_piece_cases st i b h s r s' :
  tidy s -> store_piece st i b h s = (r, s') ->
  untouched [temp_path st i; piece_path st i] s s'
  /\ (r = Ok tt -> verified h b /\ content s' (piece_path st i) = Some b)
  /\ (is_ok r = false -> content s' (piece_path st i) = content s (piece_path st i)).
Proof.
  intros Ht. pose proof (piece_temp_ne st i i) as Hne. unfold store_piece.
  destruct (bad_size b) eqn:Eb; [intros [= <- <-]; by split|]. apply bad_size_false in Eb as [Hb1 Hb2].
  intros H. apply io_bind_inv in H as [([] & s0 & E & H)|(e & E & ->)]; cycle 1.
  { injection E as _ <-. by split. }
  injection E as Ev <-. apply verify_piece_sha1_Ok in Ev.
  apply io_bind_inv in H as [([] & s1 & E & H)|(e & E & ->)];
    apply storage_q_cases in E as (r1 & E & Hr1); apply fs_write_cases in E as [Hw Hok]; try done; cycle 1.
  { split_and!; [|done|].
    - eapply untouched_weaken; [done|]. intros q ->%list_elem_of_singleton. by left.
    - intros _. apply Hw. by rewrite list_elem_of_singleton. }
  specialize (Hok (Hr1 _ eq_refl)). 
  rewrite call_fs_bind in H.
  destruct (fs_rename (temp_path st i) (piece_path st i) s1) as [r2 s2] eqn:E2. cbn [fst snd] in H.
  destruct Hw as [Ht1 Hw]. apply fs_rename_cases in E2 as [[Er2 Hr]|(-> & Hr & Hdst)]; [| |done|done].
  - destruct r2 as [|e2]; [done|]. rewrite call_fs_bind in H.
    destruct (fs_remove (temp_path st i) s2) as [r3 s3] eqn:E3. injection H as <- <-.
    apply fs_remove_untouched in E3; [|by apply Hr].
    assert (Hu : untouched [temp_path st i] s s3).
    { eapply untouched_trans; [|exact E3|done].
      eapply (untouched_trans [temp_path st i] [temp_path st i] s s1 s2);
        [by split|by eapply untouched_weaken; [exact Hr|intros ? ?%not_elem_of_nil]|done]. }
    split_and!; [|done|].
    + eapply untouched_weaken; [exact Hu|]. intros q ->%list_elem_of_singleton. by left.
    + intros _. apply Hu. by rewrite list_elem_of_singleton.
  - assert (Hu : untouched [temp_path st i; piece_path st i] s s2).
    { eapply (untouched_trans [temp_path st i]); [by split|exact Hr|].
      intros q ->%list_elem_of_singleton. by left. }
    injection H as <- <-. split_and!; [done| |done]. intros _. split; [done|]. by rewrite Hdst.
Qed.

Lemma fs_read_cases p s r s' :
  fs_read p s = (r, s') -> s' = pop s /\ (forall b, r = Ok b -> content s p = Some b)
  /\ (forall e, r = Err e -> is_not_found e = true -> content s p = None).
Proof.
  unfold fs_read, syscall. change (names (pop s) !! p ≫= fun i => inodes (pop s) !! i) with (content s p).
  destruct (next_fault s); try (destruct (content s p) as [c|] eqn:E);
    intros [= <- <-]; (split_and!; [done|naive_solver|naive_solver]).
Qed.

Lemma load_piece_cases st i h s r s' :
  tidy s -> load_piece st i h s = (r, s') ->
  untouched [piece_path st i] s s'
  /\ (forall b, r = Ok (Some b) -> verified h b /\ content s (piece_path st i) = Some b
        /\ content s' (piece_path st i) = Some b).
Proof.
  intros Ht. unfold load_piece. rewrite call_fs_bind.
  destruct (fs_read (piece_path st i) s) as [r1 s1] eqn:E1.
  cbn [fst snd]. apply fs_read_cases in E1 as (-> & Hok & _).
  assert (Hpop : untouched [piece_path st i] s (pop s)) by (split; [by apply tidy_pop|done]).
  destruct r1 as [b|e]; [|destruct (is_not_found e); intros [= <- <-]; (split; [done|naive_solver])].
  destruct (bad_size b || negb (is_ok (verify_piece_sha1 b h))) eqn:Eb.
  - rewrite call_fs_bind. destruct (fs_remove (piece_path st i) (pop s)) as [r2 s2] eqn:E2.
    intros [= <- <-]. split; [|naive_solver]. apply fs_remove_untouched in E2; [|by apply tidy_pop].
    exact (untouched_trans _ _ _ _ _ Hpop E2 (fun _ H => H)).
  - apply orb_false_iff in Eb as [[Hb1 Hb2]%bad_size_false Hv%negb_false_iff].
    intros [= <- <-]. split; [done|]. intros b' [= <-]. split_and!; [|by apply Hok|by apply Hok].
    split_and!; [done|done|]. unfold verify_piece_sha1 in Hv. by case_bool_decide.
Qed.

(** A good file is read back. *)
Lemma load_piece_present st i h s b :
  (forall msg n, next_fault s <> Bad msg n) -> content s (piece_path st i) = Some b -> verified h b ->
  load_piece st i h s = (Ok (Some b), pop s).
Proof.
  intros Hf Hc (Hb1 & Hb2 & Hv). unfold load_piece. rewrite call_fs_bind.
  assert (Er : fs_read (piece_path st i) s = (Ok b, pop s)).
  { unfold fs_read, syscall.
    change (names (pop s) !! ?p ≫= fun i => inodes (pop s) !! i) with (content s p). rewrite Hc.
    destruct (next_fault s) eqn:E; try done. by destruct (Hf msg n). }
  rewrite Er. cbn [fst snd]. rewrite (proj2 (bad_size_false b)) by done.
  rewrite (proj2 (verify_piece_sha1_Ok b h) Hv). done.
Qed.

(** ** The upload session *)

Lemma lift_cases {S E A} (x : result E A) (s : S) r s' : lift x s = (r, s') -> r = x /\ s' = s.
Proof. by intros [= <- <-]. Qed.

Lemma serve_block_Ok u m st i begin len s b u' s' :
  0 <= begin -> 0 <= len ->
  serve_block u m st i begin len s = (Ok (b, u'), s') ->
  authorized u = true /\ 0 < len <= MAX_REQUEST_BLOCK_BYTES
  /\ u' = mk_UploadSession (authorized u) (max_bytes u) (uploaded u + len) /\ uploaded u + len <= max_bytes u
  /\ Z.of_nat (length b) = len
  /\ exists hash piece, piece_sha1 m !! Z.to_nat i = Some hash /\ sha1 piece = hash
     /\ b = take (Z.to_nat len) (drop (Z.to_nat begin) piece) /\ begin + len <= Z.of_nat (length piece).
Proof.
  intros Hbg Hlen. unfold serve_block. destruct (authorized u) eqn:Ea; [|done]. simpl negb. cbv iota. intros H.
  apply io_bind_inv in H as [([] & s0 & [Ev%symmetry ->]%lift_cases & H)|(? & _ & ?)]; [|done].
  apply io_bind_inv in H as [(pl & s1 & [_ ->]%lift_cases & H)|(? & _ & ?)]; [|done]. cbv zeta in H.
  destruct (u32_max <? begin + len); [done|]. destruct (pl <? begin + len); [done|].
  apply io_bind_inv in H as [(nt & s2 & [En%symmetry ->]%lift_cases & H)|(? & _ & ?)]; [|done].
  apply ok_or_Ok, checked_add_Some in En as [-> _].
  destruct (Z.ltb_spec (max_bytes u) (uploaded u + len)); [done|].
  apply io_bind_inv in H as [(hash & s3 & [Eh%symmetry%ok_or_Ok ->]%lift_cases & H)|(? & _ & ?)]; [|done].
  apply io_bind_inv in H as [(o & s4 & El & H)|(? & _ & ?)]; [|done].
  apply io_bind_inv in H as [(piece & s5 & [Ep%symmetry%ok_or_Ok ->]%lift_cases & H)|(? & _ & ?)]; [|done].
  subst o. destruct (Z.ltb_spec (Z.of_nat (length piece)) (begin + len)); [done|]. injection H as <- <- <-.
  assert (Hv : sha1 piece = hash).
  { clear -El. unfold load_piece in El. rewrite call_fs_bind in El.
    destruct (fs_read _ _) as [[b|e] s6]; cbn [fst snd] in El; [|by destruct (is_not_found e)].
    destruct (bad_size b || _) eqn:Eb.
    - rewrite call_fs_bind in El. by destruct (fs_remove _ _).
    - injection El as -> _. apply orb_false_iff in Eb as [_ Hv%negb_false_iff].
      unfold verify_piece_sha1 in Hv. by case_bool_decide. }
  unfold validate_block_request in Ev.
  destruct (Z.eqb_spec len 0); [done|]. destruct (Z.ltb_spec MAX_REQUEST_BLOCK_BYTES len); [done|].
  split_and!; try done; try lia; [rewrite length_take, length_drop; lia|]. eauto 10.
Qed.
End Store.

(** ** Claims *)

Module TorrentStoreClaims.

(** C37: a piece is stored whole or not at all, whatever the file system does:
    success means the piece is neither empty nor over 8 MiB, has the expected
    SHA-1 and is the whole content of its file; a failure leaves its file as it
    was; no file but the piece's own and its temporary changes; and what a
    later [load] returns is always a verified piece, the stored one if the
    read does not fail. *)
Theorem piece_store_atomic `{SHA : Sha1} (st : TorrentPieceStore) (i : Z) (b h : text) (s s' : fs)
  (r : Result unit) (Htidy : tidy s) (Hrun : store_piece st i b h s = (r, s')) :
  match r with
  | Ok _ => verified h b /\ content s' (piece_path st i) = Some b
  | Err _ => content s' (piece_path st i) = content s (piece_path st i)
  end
  /\ (forall q, q <> piece_path st i -> q <> temp_path st i -> content s' q = content s q)
  /\ (forall s'' c, (load_piece st i h s').1 = Ok (Some c) -> (load_piece st i h s').2 = s'' ->
        verified h c /\ content s'' (piece_path st i) = Some c)
  /\ (is_ok r = true -> (forall msg n, next_fault s' <> Bad msg n) ->
        (load_piece st i h s').1 = Ok (Some b)).
Proof.
  destruct (store_piece_cases st i b h s r s' Htidy Hrun) as ([Ht Hu] & Hok & Herr). split_and!.
  - destruct r as [[]|e]; auto.
  - intros q Hq1 Hq2. apply Hu. rewrite !not_elem_of_cons. split_and!; [done|done|apply not_elem_of_nil].
  - intros s'' c Hc Hs. destruct (load_piece st i h s') as [r1 s1] eqn:El. simpl in *. subst.
    destruct (load_piece_cases st i h s' _ _ Ht El) as [_ Hl]. destruct (Hl c eq_refl) as (? & _ & ?). done.
  - intros Hr Hf. destruct r as [[]|e]; [|done]. destruct (Hok eq_refl) as [Hv Hc].
    by rewrite (load_piece_present st i h s' b Hf Hc Hv).
Qed.

Lemma piece_store_atomic_witness :
  let st := mk_TorrentPieceStore [str "p"] in
  let s := mk_fs ∅ ∅ 0 {[ [str "p"] ]} [Good; Bad (str "denied") 0] in
  let s2 := mk_fs ∅ ∅ 0 {[ [str "p"] ]} [] in
  (exists e s', @store_piece toy_sha1 st 7 (str "data") (toy_sha1 (str "data")) s = (Err e, s')
     /\ content s' (piece_path st 7) = None)
  /\ (exists s', @store_piece toy_sha1 st 7 (str "data") (toy_sha1 (str "data")) s2 = (Ok tt, s')
     /\ (@load_piece toy_sha1 st 7 (toy_sha1 (str "data")) s').1 = Ok (Some (str "data"))).
Proof.
  intros st s s2.
  assert (Ht : tidy s) by (constructor; intros; done).
  assert (Ht2 : tidy s2) by (constructor; intros; done). split.
  - destruct (@store_piece toy_sha1 st 7 (str "data") (toy_sha1 (str "data")) s) as [r s'] eqn:E.
    pose proof (piece_store_atomic st 7 _ _ s s' r Ht E) as [H _].
    assert (Hr : r = Err (ProxyError.Storage (str "commit torrent piece failed: denied")))
      by (change r with (r, s').1; rewrite <- E; vm_compute; reflexivity).
    subst r. eexists _, s'. split; [reflexivity|]. exact H.
  - destruct (@store_piece toy_sha1 st 7 (str "data") (toy_sha1 (str "data")) s2) as [r s'] eqn:E.
    pose proof (piece_store_atomic st 7 _ _ s2 s' r Ht2 E) as (_ & _ & _ & H).
    assert (Hr : r = Ok tt) by (change r with (r, s').1; rewrite <- E; vm_compute; reflexivity).
    assert (Hf : next_fault s' = Good)
      by (change s' with (r, s').2; rewrite <- E; vm_compute; reflexivity).
    subst r. exists s'. split; [reflexivity|]. apply H; [reflexivity|]. rewrite Hf. discriminate.
Defined.

(** The blocks served to a list of requests and the bytes they were asked for. *)
Fixpoint serve_requests `{SHA : Sha1} (m : TorrentMetadata) (st : TorrentPieceStore) (u : UploadSession)
    (reqs : list (Z * Z * Z)) (s : fs) : list (Z * Z * text) * UploadSession :=
  match reqs with
  | [] => ([], u)
  | (i, begin, len) :: reqs' =>
      match serve_block u m st i begin len s with
      | (Ok (b, u'), s') =>
          let '(out, u'') := serve_requests m st u' reqs' s' in ((i, begin, b) :: out, u'')
      | (Err _, s') => serve_requests m st u reqs' s'
      end
  end.

Definition bytes_of (out : list (Z * Z * text)) : Z :=
  foldr (fun e total => Z.of_nat (length e.2) + total) 0 out.

(** An upload session stays within its quota and hands out nothing but
    verified data: whatever is asked and however the files fail, the bytes
    served are those counted and never exceed the quota, each block is the
    requested part, of at most 16 KiB, of a piece whose SHA-1 is the one the
    torrent lists for that index, and a session without authorization serves
    nothing. *)
Theorem upload_within_quota `{SHA : Sha1} (m : TorrentMetadata) (st : TorrentPieceStore)
  (allowed : bool) (quota : Z) (u u' : UploadSession) (reqs : list (Z * Z * Z)) (s : fs)
  (out : list (Z * Z * text)) (Hquota : 0 <= quota) (Hnew : upload_new allowed quota = Ok u)
  (Hreqs : Forall (fun q => 0 <= q.1.2 /\ 0 <= q.2) reqs)
  (Hrun : serve_requests m st u reqs s = (out, u')) :
  bytes_of out = uploaded u' /\ uploaded u' <= quota
  /\ (allowed = false -> out = [])
  /\ Forall (fun e => exists hash piece, piece_sha1 m !! Z.to_nat e.1.1 = Some hash /\ sha1 piece = hash
               /\ Z.of_nat (length e.2) <= MAX_REQUEST_BLOCK_BYTES
               /\ e.2 = take (length e.2) (drop (Z.to_nat e.1.2) piece)) out.
Proof.
  assert (Hgen : forall reqs u s out u', Forall (fun q => 0 <= q.1.2 /\ 0 <= q.2) reqs ->
    uploaded u <= max_bytes u -> serve_requests m st u reqs s = (out, u') ->
    max_bytes u' = max_bytes u /\ uploaded u' = uploaded u + bytes_of out /\ uploaded u' <= max_bytes u
    /\ (authorized u = false -> out = [])
    /\ Forall (fun e => exists hash piece, piece_sha1 m !! Z.to_nat e.1.1 = Some hash /\ sha1 piece = hash
               /\ Z.of_nat (length e.2) <= MAX_REQUEST_BLOCK_BYTES
               /\ e.2 = take (length e.2) (drop (Z.to_nat e.1.2) piece)) out).
  { clear. induction reqs as [|[[i begin] len] reqs IH]; intros u s out u' Hreqs Hle; cbn [serve_requests].
    { intros [= <- <-]. split_and!; [done|simpl; lia|done|done|constructor]. }
    inversion_clear Hreqs as [|?? [Hb Hl] Hreqs']. simpl in Hb, Hl.
    destruct (serve_block u m st i begin len s) as [[[b u1]|e] s1] eqn:Es; [|by apply IH].
    apply serve_block_Ok in Es as (Ha & Hlen & -> & Hq & Hbl & hash & piece & Hh & Hp & Hbe & _); [|done|done].
    destruct (serve_requests m st _ reqs s1) as [out1 u2] eqn:Er. intros [= <- <-].
    apply IH in Er as (Hm & Hup & Hle2 & _ & Hall); [|done|simpl; lia]. simpl in *.
    split_and!; [done|lia|done|by rewrite Ha|]. constructor; [|done].
    exists hash, piece. simpl. split_and!; [done|done|lia|]. rewrite Hbe at 1. f_equal. lia. }
  unfold upload_new in Hnew. destruct (quota =? 0); [done|]. injection Hnew as <-.
  apply Hgen in Hrun as (_ & Hup & Hle & Ha & Hall); [|done|simpl; lia]. simpl in *.
  split_and!; [lia|done|done|done].
Qed.

Lemma upload_within_quota_witness :
  let piece := replicate 10 x41 in
  let m := mk_TorrentMetadata [] (str "a") 10 16384 [toy_sha1 piece] [] in
  let st := mk_TorrentPieceStore [str "p"] in
  let s := mk_fs {[ piece_path st 0 := 0%nat ]} {[ 0%nat := piece ]} 1 {[ [str "p"] ]} [] in
  let u := mk_UploadSession true 8 0 in
  exists u', @serve_requests toy_sha1 m st u [(0, 2, 6); (0, 0, 4); (0, 0, 2)] s
             = ([(0, 2, replicate 6 x41); (0, 0, replicate 2 x41)], u') /\ uploaded u' <= 8.
Proof.
  intros piece m st s u.
  destruct (@serve_requests toy_sha1 m st u [(0, 2, 6); (0, 0, 4); (0, 0, 2)] s) as [out u'] eqn:E.
  assert (Ho : out = [(0, 2, replicate 6 x41); (0, 0, replicate 2 x41)])
    by (change out with (out, u').1; rewrite <- E; vm_compute; reflexivity).
  exists u'. split; [by rewrite Ho|].
  eapply (@upload_within_quota toy_sha1 m st true 8 u u' _ s out); [lia|reflexivity| |exact E].
  repeat (constructor; [simpl; lia|]). constructor.
Defined.

End TorrentStoreClaims.
