(* ===== verification/Trackers.v ===== *)
(** * Peers' addresses and trackers ([p2p_network.rs])

    Which socket addresses may be contacted, the compact address lists, the
    bencoded tracker response, the UDP tracker protocol with its exchange of two
    datagrams, and the announcement over HTTP. *)

From Stdlib Require Import Strings.Byte Strings.String.
From S2P Require Import Prelude Bytes Error External Headers Range Percent NetworkPolicy DataRequest NetSource Bencode PeerWire TorrentMeta TorrentMetaTheorems.

(** ** Addresses *)

(** [Ipv6Addr::is_unique_local] and [is_unicast_link_local]. *)
Definition is_unique_local (a : Ipv6Addr) : bool := Z.land (seg0 a) 0xfe00 =? 0xfc00.
Definition is_unicast_link_local (a : Ipv6Addr) : bool := Z.land (seg0 a) 0xffc0 =? 0xfe80.

(** Built without [allow-private-upstream]. *)
Definition is_public_socket (a : SocketAddr) : bool :=
  if addr_port a =? 0 then false
  else
    match addr_ip a with
    | V4 ip =>
        negb (V4.is_private ip || V4.is_loopback ip || V4.is_link_local ip || V4.is_broadcast ip
              || V4.is_unspecified ip || V4.is_multicast ip || (oct0 ip =? 0))
    | V6 ip =>
        negb (V6.is_loopback ip || V6.is_unspecified ip || V6.is_multicast ip || is_unique_local ip
              || is_unicast_link_local ip)
    end.

(** Four (or sixteen) address bytes and a big-endian port. *)
Definition compact_v4 (chunk : text) : SocketAddr :=
  mk_addr (V4 (mk_v4 (from_be (slice 0 1 chunk)) (from_be (slice 1 2 chunk)) (from_be (slice 2 3 chunk))
                 (from_be (slice 3 4 chunk)))) (from_be (slice 4 6 chunk)).
Definition v6_from_bytes (b : text) : Ipv6Addr :=
  mk_v6 (from_be (slice 0 2 b)) (from_be (slice 2 4 b)) (from_be (slice 4 6 b)) (from_be (slice 6 8 b))
    (from_be (slice 8 10 b)) (from_be (slice 10 12 b)) (from_be (slice 12 14 b)) (from_be (slice 14 16 b)).
Definition compact_v6 (chunk : text) : SocketAddr :=
  mk_addr (V6 (v6_from_bytes (slice 0 16 chunk))) (from_be (slice 16 18 chunk)).

(** ** Tracker responses *)

Record TrackerResponse : Type := mk_TrackerResponse {
  interval_secs : Z;
  min_interval_secs : option Z;
  peers : list SocketAddr;
}.

Record TrackerAnnounce : Type := mk_TrackerAnnounce {
  ta_info_hash : text;
  ta_peer_id : text;
  ta_port : Z;
  ta_uploaded : Z;
  ta_downloaded : Z;
  ta_left : Z;
  ta_numwant : option Z;
}.

(** A compact list under a key: absent or of another type is empty. *)
Definition compact_list (size : nat) (address : text -> SocketAddr) (what : text) (v : option BValue) :
    Result (list SocketAddr) :=
  match v with
  | Some (Bytes compact) =>
      if negb (Nat.eqb (List.length compact mod size) 0) then Err (ProxyError.Parse what)
      else Ok (map address (chunks_exact size compact))
  | _ => Ok []
  end.

(** [lossy] is [String::from_utf8_lossy]. *)
Definition parse_tracker_response (lossy : text -> text) (input : text) : Result TrackerResponse :=
  '(root, rest) ← parse_value input;
  if negb (bool_decide (rest = []))
  then Err (ProxyError.Parse (str "tracker response has trailing bytes"))
  else
    match root with
    | Dict entries =>
        match bt_get (str "failure reason") entries with
        | Some (Bytes reason) => Err (ProxyError.Request (lossy reason))
        | _ =>
            interval ← ok_or (keep (fun n => 0 <? n) (bt_get (str "interval") entries ≫= integer_of))
                         (ProxyError.Parse (str "tracker response has invalid interval"));
            let min_interval := keep (fun n => 0 <? n) (bt_get (str "min interval") entries ≫= integer_of) in
            v4 ← compact_list 6 compact_v4 (str "invalid compact IPv4 peers") (bt_get (str "peers") entries);
            v6 ← compact_list 18 compact_v6 (str "invalid compact IPv6 peers") (bt_get (str "peers6") entries);
            Ok (mk_TrackerResponse interval min_interval (v4 ++ v6))
        end
    | _ => Err (ProxyError.Parse (str "tracker response must be a dictionary"))
    end.

(** ** HTTP announcements *)

Definition percent_encode_bytes (bytes : text) : text :=
  mjoin (map (fun b => [x25; HEX_upper (Z.shiftr (b2z b) 4); HEX_upper (Z.land (b2z b) 15)]) bytes).

(** The query [build_tracker_announce_url] sets on the tracker's URL. *)
Definition announce_query (query : option text) (r : TrackerAnnounce) : text :=
  let query := default [] query in
  (if bool_decide (query = []) then query else query ++ str "&")
  ++ str "info_hash=" ++ percent_encode_bytes (ta_info_hash r)
  ++ str "&peer_id=" ++ percent_encode_bytes (ta_peer_id r)
  ++ str "&port=" ++ format_u64 (ta_port r) ++ str "&uploaded=" ++ format_u64 (ta_uploaded r)
  ++ str "&downloaded=" ++ format_u64 (ta_downloaded r) ++ str "&left=" ++ format_u64 (ta_left r)
  ++ str "&compact=1"
  ++ match ta_numwant r with Some n => str "&numwant=" ++ format_u64 n | None => [] end.

(** [set_query] is [Url::set_query]. *)
Definition build_tracker_announce_url (set_query : Url.t -> text -> Url.t) (tracker : Url.t)
    (r : TrackerAnnounce) : Result Url.t :=
  if negb (bool_decide (Url.scheme tracker = str "http") || bool_decide (Url.scheme tracker = str "https"))
     || bool_decide (Url.host_str tracker = None)
  then Err (ProxyError.Parse (str "HTTP tracker URL is required"))
  else Ok (set_query tracker (announce_query (Url.query tracker) r)).

(** ** The UDP protocol *)

Definition UDP_TRACKER_PROTOCOL_ID : Z := 0x41727101980.
Definition UDP_ACTION_CONNECT : Z := 0.
Definition UDP_ACTION_ANNOUNCE : Z := 1.

Definition encode_udp_connect_request (transaction_id : Z) : text :=
  be_bytes 8 UDP_TRACKER_PROTOCOL_ID ++ be_bytes 4 UDP_ACTION_CONNECT ++ be_bytes 4 transaction_id.

Definition parse_udp_connect_response (input : text) (transaction_id : Z) : Result Z :=
  if negb (Nat.eqb (List.length input) 16) || negb (from_be (slice 0 4 input) =? UDP_ACTION_CONNECT)
  then Err (ProxyError.Parse (str "invalid UDP tracker connect response"))
  else if negb (from_be (slice 4 8 input) =? transaction_id)
  then Err (ProxyError.Parse (str "UDP tracker transaction mismatch"))
  else Ok (from_be (drop 8 input)).

(** [-1i16 as u16] is 65535. *)
Definition encode_udp_announce_request (connection_id transaction_id : Z) (r : TrackerAnnounce) : text :=
  be_bytes 8 connection_id ++ be_bytes 4 UDP_ACTION_ANNOUNCE ++ be_bytes 4 transaction_id
  ++ ta_info_hash r ++ ta_peer_id r
  ++ be_bytes 8 (ta_downloaded r) ++ be_bytes 8 (ta_left r) ++ be_bytes 8 (ta_uploaded r)
  ++ be_bytes 4 0 ++ be_bytes 4 0 ++ be_bytes 4 0
  ++ be_bytes 4 (default u16_max (ta_numwant r)) ++ be_bytes 2 (ta_port r).

Definition parse_udp_announce_response (input : text) (transaction_id : Z) : Result TrackerResponse :=
  if Nat.ltb (List.length input) 20 || negb (from_be (slice 0 4 input) =? UDP_ACTION_ANNOUNCE)
  then Err (ProxyError.Parse (str "invalid UDP tracker announce response"))
  else if negb (from_be (slice 4 8 input) =? transaction_id)
  then Err (ProxyError.Parse (str "UDP tracker transaction mismatch"))
  else if negb (Nat.eqb ((List.length input - 20) mod 6) 0)
  then Err (ProxyError.Parse (str "invalid UDP tracker peer list"))
  else Ok (mk_TrackerResponse (from_be (slice 8 12 input)) None (map compact_v4 (chunks_exact 6 (drop 20 input)))).

(** ** Datagrams *)

(** How an operation of a socket ends: with its result, with an error, or not
    before the timeout. *)
Inductive outcome (A : Type) : Type :=
| Arrives (a : A)
| Fails (error : text)
| TimesOut.
Arguments Arrives {A} a.
Arguments Fails {A} error.
Arguments TimesOut {A}.

(** A UDP socket: how binding and connecting end, how the next sends end, the
    datagrams that arrive, and what was sent. *)
Record UdpSocket : Type := mk_UdpSocket {
  udp_bind : outcome unit;
  udp_connect : outcome unit;
  udp_sends : list (outcome unit);
  udp_replies : list (outcome text);
  udp_sent : list text;
}.

Abbreviation Udp := (io UdpSocket ProxyError.t).

Definition expect {A} (failed timed_out : text) (o : outcome A) : Udp A :=
  match o with
  | Arrives a => mret a
  | Fails error => throw (ProxyError.Network (failed ++ error))
  | TimesOut => throw (ProxyError.Network timed_out)
  end.

Definition udp_send (failed timed_out : text) (datagram : text) : Udp unit :=
  s ← get;
  let o := List.hd (Arrives tt) (udp_sends s) in
  _ ← put (mk_UdpSocket (udp_bind s) (udp_connect s) (List.tl (udp_sends s)) (udp_replies s)
             (match o with Arrives _ => udp_sent s ++ [datagram] | _ => udp_sent s end));
  expect failed timed_out o.

(** Without a datagram the socket waits for the timeout. *)
Definition udp_recv (failed timed_out : text) : Udp text :=
  s ← get;
  _ ← put (mk_UdpSocket (udp_bind s) (udp_connect s) (udp_sends s) (List.tl (udp_replies s)) (udp_sent s));
  expect failed timed_out (List.hd TimesOut (udp_replies s)).

Definition udp_open (what : text) : Udp unit :=
  s ← get;
  _ ← expect (what ++ str " bind failed: ") [] (udp_bind s);
  expect (what ++ str " connect failed: ") [] (udp_connect s).

Definition announce_udp_tracker (target : SocketAddr) (r : TrackerAnnounce)
    (connect_transaction announce_transaction : Z) : Udp TrackerResponse :=
  if negb (is_public_socket target)
  then throw (ProxyError.Request (str "UDP tracker must be a public address"))
  else
    let timed_out := str "UDP tracker exchange timed out" in
    _ ← udp_open (str "UDP tracker");
    _ ← udp_send (str "UDP tracker connect send failed: ") timed_out
          (encode_udp_connect_request connect_transaction);
    response ← udp_recv (str "UDP tracker connect receive failed: ") timed_out;
    connection_id ← lift (parse_udp_connect_response response connect_transaction);
    _ ← udp_send (str "UDP tracker announce send failed: ") timed_out
          (encode_udp_announce_request connection_id announce_transaction r);
    response ← udp_recv (str "UDP tracker announce receive failed: ") timed_out;
    lift (parse_udp_announce_response response announce_transaction).

Definition send_dht_udp_query (target : SocketAddr) (request : text) : Udp text :=
  if negb (is_public_socket target)
  then throw (ProxyError.Request (str "DHT target must be a public address"))
  else if bool_decide (request = []) || too_long request 4096
  then throw (ProxyError.Request (str "invalid DHT request size"))
  else
    _ ← udp_open (str "DHT UDP");
    _ ← udp_send (str "DHT UDP send failed: ") (str "DHT UDP send timed out") request;
    udp_recv (str "DHT UDP receive failed: ") (str "DHT UDP response timed out").

(** * Trackers: the UDP exchange and the addresses that pass *)

(** ** What a tracker sends *)

Definition encode_v4 (e : Ipv4Addr * Z) : text :=
  be_bytes 1 (oct0 e.1) ++ be_bytes 1 (oct1 e.1) ++ be_bytes 1 (oct2 e.1) ++ be_bytes 1 (oct3 e.1)
  ++ be_bytes 2 e.2.
Definition address_of (e : Ipv4Addr * Z) : SocketAddr := mk_addr (V4 e.1) e.2.
Definition peer_valid (e : Ipv4Addr * Z) : Prop := v4_valid e.1 /\ 0 <= e.2 <= u16_max.

Definition connect_response (transaction connection_id : Z) : text :=
  be_bytes 4 UDP_ACTION_CONNECT ++ be_bytes 4 transaction ++ be_bytes 8 connection_id.
Definition announce_response (transaction interval leechers seeders : Z) (ps : list (Ipv4Addr * Z)) : text :=
  be_bytes 4 UDP_ACTION_ANNOUNCE ++ be_bytes 4 transaction ++ be_bytes 4 interval
  ++ be_bytes 4 leechers ++ be_bytes 4 seeders ++ mjoin (map encode_v4 ps).

(** ** Fields at their offsets *)

Local Arguments be_bytes : simpl never.
Local Arguments slice : simpl never.

(** A field after fields of [a] bytes. *)
Lemma slice_field n a b z s t :
  length s = a -> b = (a + n)%nat -> slice a b (s ++ be_bytes n z ++ t) = be_bytes n z.
Proof.
  intros Hs ->. rewrite slice_skip by (done || lia). rewrite take_app_length'; [done|].
  rewrite length_be_bytes. lia.
Qed.
Lemma slice_field_0 n b z t : b = n -> slice 0 b (be_bytes n z ++ t) = be_bytes n z.
Proof. intros ->. apply (slice_field n 0 n z [] t); done. Qed.
Lemma slice_field_end n a b z s :
  length s = a -> b = (a + n)%nat -> slice a b (s ++ be_bytes n z) = be_bytes n z.
Proof. intros. rewrite <- (app_nil_r (be_bytes n z)) at 1. by apply slice_field. Qed.

Lemma length_encode_v4 e : length (encode_v4 e) = 6%nat.
Proof. unfold encode_v4. by rewrite !length_app, !length_be_bytes. Qed.

Lemma compact_v4_encode e : peer_valid e -> compact_v4 (encode_v4 e) = address_of e.
Proof.
  destruct e as [[a b c d] p]. unfold peer_valid, v4_valid, u16_max. simpl. intros ((? & ? & ? & ?) & ?).
  unfold compact_v4, encode_v4, address_of. cbn [fst snd oct0 oct1 oct2 oct3].
  rewrite slice_field_0 by done.
  rewrite (slice_field 1 1 2 b (be_bytes 1 a)) by (rewrite ?length_be_bytes; done).
  rewrite (app_assoc (be_bytes 1 a)).
  rewrite (slice_field 1 2 3 c) by (rewrite ?length_app, ?length_be_bytes; done).
  rewrite (app_assoc (_ ++ _)).
  rewrite (slice_field 1 3 4 d) by (rewrite ?length_app, ?length_be_bytes; done).
  rewrite (app_assoc (_ ++ _)).
  rewrite (slice_field_end 2 4 6 p) by (rewrite ?length_app, ?length_be_bytes; done).
  rewrite !from_be_bytes_small by (simpl; lia). done.
Qed.

Lemma chunks_go_join n : (0 < n)%nat -> forall l fuel,
  Forall (fun c => length c = n) l -> (length l * n <= fuel)%nat -> chunks_go fuel n (mjoin l) = l.
Proof.
  intros Hn. induction l as [|c l IH]; intros fuel Hl Hf.
  { destruct fuel; [done|]. cbn [chunks_go]. change (length (mjoin [])) with 0%nat.
    by destruct (Nat.ltb_spec 0 n); [|lia]. }
  inversion_clear Hl as [|?? Hc Hl']. destruct fuel as [|fuel]; [simpl in Hf; lia|].
  cbn [chunks_go]. change (mjoin (c :: l)) with (c ++ mjoin l). rewrite length_app.
  destruct (Nat.ltb_spec (length c + length (mjoin l)) n); [lia|].
  rewrite take_app_length', drop_app_length' by done. rewrite IH; [done|done|simpl in Hf; lia].
Qed.

Lemma chunks_exact_join n l :
  (0 < n)%nat -> Forall (fun c => length c = n) l -> chunks_exact n (mjoin l) = l.
Proof.
  intros Hn Hl. apply chunks_go_join; [done|done|].
  induction Hl as [|c l Hc _ IH]; [done|].
  change (mjoin (c :: l)) with (c ++ mjoin l). rewrite length_app. simpl. lia.
Qed.

Lemma encoded_lengths ps : Forall (fun c => length c = 6%nat) (map encode_v4 ps).
Proof. induction ps; constructor; [apply length_encode_v4|done]. Qed.

Lemma length_peers ps : length (mjoin (map encode_v4 ps)) = (length ps * 6)%nat.
Proof.
  induction ps as [|p ps IH]; [done|].
  change (mjoin (map encode_v4 (p :: ps))) with (encode_v4 p ++ mjoin (map encode_v4 ps)).
  rewrite length_app, length_encode_v4, IH. simpl. lia.
Qed.

(** ** The responses are read back *)

Lemma parse_connect_response t c :
  is_u32 t -> is_u64 c -> parse_udp_connect_response (connect_response t c) t = Ok c.
Proof.
  intros Ht Hc. unfold parse_udp_connect_response, connect_response.
  rewrite !length_app, !length_be_bytes. simpl Nat.eqb.
  rewrite slice_field_0 by done.
  rewrite (slice_field 4 4 8 t (be_bytes 4 UDP_ACTION_CONNECT)) by (rewrite ?length_be_bytes; done).
  rewrite !from_be_bytes_small by (unfold UDP_ACTION_CONNECT, is_u32, u32_max, is_u64 in *; simpl; lia).
  rewrite !Z.eqb_refl. cbn [negb orb].
  rewrite app_assoc, drop_app_length' by (by rewrite length_app, !length_be_bytes).
  rewrite from_be_bytes_small by (unfold is_u64 in *; simpl; lia). done.
Qed.

Lemma parse_announce_response t interval l s ps :
  is_u32 t -> is_u32 interval -> Forall peer_valid ps ->
  parse_udp_announce_response (announce_response t interval l s ps) t
  = Ok (mk_TrackerResponse interval None (map address_of ps)).
Proof.
  intros Ht Hi Hps. unfold parse_udp_announce_response, announce_response.
  rewrite !length_app, !length_be_bytes, length_peers.
  replace (4 + (4 + (4 + (4 + (4 + length ps * 6)))) - 20)%nat with (length ps * 6)%nat by lia.
  rewrite Nat.Div0.mod_mul. cbn [Nat.ltb Nat.leb Nat.add orb negb Nat.eqb].
  rewrite slice_field_0 by done.
  rewrite (slice_field 4 4 8 t (be_bytes 4 UDP_ACTION_ANNOUNCE)) by (rewrite ?length_be_bytes; done).
  rewrite (app_assoc (be_bytes 4 UDP_ACTION_ANNOUNCE)).
  rewrite (slice_field 4 8 12 interval) by (rewrite ?length_app, ?length_be_bytes; done).
  rewrite !from_be_bytes_small by (unfold UDP_ACTION_ANNOUNCE, is_u32, u32_max in *; simpl; lia).
  rewrite !Z.eqb_refl. simpl negb. cbv iota.
  rewrite !(app_assoc (_ ++ _)).
  rewrite drop_app_length' by (by rewrite !length_app, !length_be_bytes).
  rewrite chunks_exact_join by (lia || apply encoded_lengths). f_equal. f_equal.
  induction Hps as [|p ps Hp _ IH]; [done|]. simpl. by rewrite compact_v4_encode, IH.
Qed.

(** A connect response that is accepted has the transaction it was sent for. *)
Lemma parse_connect_Ok b t c :
  parse_udp_connect_response b t = Ok c -> length b = 16%nat /\ from_be (slice 4 8 b) = t /\ is_u64 c.
Proof.
  unfold parse_udp_connect_response. destruct (Nat.eqb_spec (length b) 16) as [Hl|]; [|done].
  destruct (from_be (slice 0 4 b) =? UDP_ACTION_CONNECT); [|done]. simpl orb. cbv iota.
  destruct (Z.eqb_spec (from_be (slice 4 8 b)) t); [|done]. intros [= <-]. split_and!; [done|done|].
  pose proof (from_be_range (drop 8 b)) as Hr. rewrite length_drop, Hl in Hr. unfold is_u64. simpl in Hr. lia.
Qed.

(** ** A socket that works *)

Lemma udp_open_ok what s :
  udp_bind s = Arrives tt -> udp_connect s = Arrives tt -> udp_open what s = (Ok tt, s).
Proof. intros Hb Hc. unfold udp_open, mbind, io_bind, get. by rewrite Hb, Hc. Qed.
Lemma udp_send_ok failed timed_out d s :
  udp_sends s = [] ->
  udp_send failed timed_out d s
  = (Ok tt, mk_UdpSocket (udp_bind s) (udp_connect s) [] (udp_replies s) (udp_sent s ++ [d])).
Proof. intros Hs. unfold udp_send, mbind, io_bind, get. by rewrite Hs. Qed.
Lemma udp_recv_ok failed timed_out b rest s :
  udp_replies s = Arrives b :: rest ->
  udp_recv failed timed_out s
  = (Ok b, mk_UdpSocket (udp_bind s) (udp_connect s) (udp_sends s) rest (udp_sent s)).
Proof. intros Hs. unfold udp_recv, mbind, io_bind, get. by rewrite Hs. Qed.

(** ** Claims *)

Module TrackersClaims.

(** A UDP announce gets what the tracker says: on a socket that works, to
    a public address, a tracker that answers both requests with their
    transactions is asked exactly the connect request and the announce request
    with the connection id it gave, and its interval and all its peers are the
    result; but if the first answer does not carry the transaction of the
    connect request, the announcement is never sent and the result is an
    error. *)
Theorem udp_announce_correct (target : SocketAddr) (r : TrackerAnnounce) (t1 t2 : Z) (sock : UdpSocket)
  (Htarget : is_public_socket target = true)
  (Hopen : udp_bind sock = Arrives tt /\ udp_connect sock = Arrives tt)
  (Hsends : udp_sends sock = []) (Hsent : udp_sent sock = []) (Ht1 : is_u32 t1) (Ht2 : is_u32 t2) :
  (forall connection_id interval leechers seeders ps rest,
     is_u64 connection_id -> is_u32 interval -> Forall peer_valid ps ->
     udp_replies sock = Arrives (connect_response t1 connection_id)
                        :: Arrives (announce_response t2 interval leechers seeders ps) :: rest ->
     exists sock', announce_udp_tracker target r t1 t2 sock
                   = (Ok (mk_TrackerResponse interval None (map address_of ps)), sock')
       /\ udp_sent sock' = [encode_udp_connect_request t1; encode_udp_announce_request connection_id t2 r])
  /\ (forall reply rest, udp_replies sock = Arrives reply :: rest -> from_be (slice 4 8 reply) <> t1 ->
      exists e sock', announce_udp_tracker target r t1 t2 sock = (Err e, sock')
        /\ udp_sent sock' = [encode_udp_connect_request t1]).
Proof.
  destruct sock as [bind conn sends replies sent]. simpl in *. destruct Hopen as [-> ->]. subst sends sent.
  unfold announce_udp_tracker. rewrite Htarget. simpl negb. cbv iota zeta. split.
  - intros cid interval l s ps rest Hc Hi Hps ->. eexists. split.
    + etrans; [apply io_bind_Ok; by apply udp_open_ok|].
      etrans; [apply io_bind_Ok; by apply udp_send_ok|].
      etrans; [apply io_bind_Ok; by eapply udp_recv_ok|].
      etrans; [apply io_bind_Ok; unfold lift; by rewrite parse_connect_response|].
      etrans; [apply io_bind_Ok; by apply udp_send_ok|].
      etrans; [apply io_bind_Ok; by eapply udp_recv_ok|].
      unfold lift. by rewrite parse_announce_response.
    + done.
  - intros reply rest -> Hne.
    destruct (parse_udp_connect_response reply t1) as [c|e] eqn:E.
    { by apply parse_connect_Ok in E as (_ & ? & _). }
    exists e. eexists. split.
    + etrans; [apply io_bind_Ok; by apply udp_open_ok|].
      etrans; [apply io_bind_Ok; by apply udp_send_ok|].
      etrans; [apply io_bind_Ok; by eapply udp_recv_ok|].
      apply io_bind_Err. unfold lift. by rewrite E.
    + done.
Qed.

Lemma udp_announce_correct_witness :
  let target := mk_addr (V4 (mk_v4 8 8 8 8)) 6969 in
  let r := mk_TrackerAnnounce (replicate 20 x01) (replicate 20 x02) 6881 0 0 100 None in
  let peer := (mk_v4 1 2 3 4, 51413) in
  let sock := mk_UdpSocket (Arrives tt) (Arrives tt) []
                [Arrives (connect_response 5 77); Arrives (announce_response 6 1800 0 1 [peer])] [] in
  exists sock', announce_udp_tracker target r 5 6 sock
    = (Ok (mk_TrackerResponse 1800 None [address_of peer]), sock').
Proof.
  intros target r peer sock.
  destruct (udp_announce_correct target r 5 6 sock) as [H _];
    [reflexivity|split; reflexivity|reflexivity|reflexivity|unfold is_u32, u32_max; lia..|].
  destruct (H 77 1800 0 1 [peer] []) as (sock' & E & _);
    [unfold is_u64; lia|unfold is_u32, u32_max; lia| |reflexivity|exists sock'; exact E].
  constructor; [|constructor]. unfold peer_valid, v4_valid, u16_max. simpl. lia.
Defined.

(** The filter of peer addresses lets private networks through in their
    IPv6 form: an IPv4-mapped address passes with any port but 0, whatever the
    IPv4 address, the loopback and private ones included, which the admission
    policy of the proxy refuses in the same form.  ([0.0.0.0] apart, where
    which both let pass.) *)
Theorem mapped_addresses_pass (a : Ipv4Addr) (port : Z)
  (Hvalid : v4_valid a) (Hport : 0 < port <= u16_max) (Hspecified : a <> mk_v4 0 0 0 0) :
  is_public_socket (mk_addr (V6 (embed Mapped a)) port) = true
  /\ (is_public_ipv4 a = false -> is_public_ip (V6 (embed Mapped a)) = false).
Proof.
  split.
  - unfold is_public_socket. cbn [addr_port addr_ip]. destruct (Z.eqb_spec port 0); [lia|].
    unfold V6.is_loopback, V6.is_unspecified, V6.is_multicast, is_unique_local, is_unicast_link_local. simpl.
    done.
  - intros Hp. unfold is_public_ip, is_public_ipv6. by rewrite embedded_embed.
Qed.

Lemma mapped_addresses_pass_witness :
  is_public_socket (mk_addr (V6 (embed Mapped (mk_v4 127 0 0 1))) 80) = true
  /\ is_public_ip (V6 (embed Mapped (mk_v4 127 0 0 1))) = false.
Proof.
  destruct (mapped_addresses_pass (mk_v4 127 0 0 1) 80) as [H1 H2];
    [unfold v4_valid; simpl; lia|unfold u16_max; lia|discriminate|].
  split; [exact H1|apply H2; reflexivity].
Defined.

End TrackersClaims.

(** * Announcing to an HTTP tracker ([p2p_network.rs])

    The announcement as a request of the shared client: admitted by the network
    policy first, its answer read up to one MiB, and then parsed. *)

Definition MAX_TRACKER_BYTES : Z := 1024 * 1024.

(** The request and the head of the answer. *)
Definition exchange_tracker (url : text) : io Net ProxyError.t HttpResponse := fun n =>
  let n' a := mk_Net (policy n) a (clock n) (sent n ++ [(url, [])]) (slept n) in
  match answers n with
  | Answered resp :: a => (Ok resp, n' a)
  | Failed error :: a => (Err (ProxyError.Network (str "tracker request failed: " ++ error)), n' a)
  | Timeout :: a => (Err (ProxyError.Network (str "tracker request timed out")), n' a)
  | [] => (Err (ProxyError.Network (str "tracker request timed out")), n' [])
  end.

(** The loop over the chunks of the body. *)
Fixpoint read_tracker_body (body : list byte) (chunks : list (result text (list byte))) : Result (list byte) :=
  match chunks with
  | [] => Ok body
  | Err error :: _ => Err (ProxyError.Network (str "tracker body failed: " ++ error))
  | Ok chunk :: chunks =>
      if MAX_TRACKER_BYTES <? saturating_add (Z.of_nat (length body)) (Z.of_nat (length chunk)) then
        Err (ProxyError.Request (str "tracker response is too large"))
      else read_tracker_body (body ++ chunk) chunks
  end.

Section Announce.
Context {UP : UrlParser} {UR : UriParser} {HT : HeaderText} {ord : HashOrder text Z}
  (lookup : text -> Z -> option (list SocketAddr)) (set_query : Url.t -> text -> Url.t) (lossy : text -> text).

Definition announce_http_tracker (tracker : Url.t) (request : TrackerAnnounce) : io Net ProxyError.t TrackerResponse :=
  announce_url ← lift (build_tracker_announce_url set_query tracker request);
  _ ← validate_url lookup (Url.as_str announce_url);
  if negb (bool_decide (is_Some (uri_parse (Url.as_str announce_url)))) then
    throw (ProxyError.Request (str "unable to construct tracker request"))
  else
    response ← exchange_tracker (Url.as_str announce_url);
    if negb (is_success (hr_status response)) then
      throw (ProxyError.Network (str "tracker returned " ++ status_text (hr_status response)))
    else
      body ← lift (read_tracker_body [] (hr_frames response));
      lift (parse_tracker_response lossy body).

(** What was read is the whole body, and of at most one MiB. *)
Lemma read_tracker_body_Ok body chunks r :
  Z.of_nat (length body) <= MAX_TRACKER_BYTES -> read_tracker_body body chunks = Ok r ->
  Z.of_nat (length r) <= MAX_TRACKER_BYTES /\ exists pieces, chunks = map Ok pieces /\ r = body ++ mjoin pieces.
Proof.
  revert body. induction chunks as [|[chunk|error] chunks IH]; intros body Hb E; cbn in E; [| |done].
  - injection E as <-. split; [done|]. exists []. by rewrite app_nil_r.
  - destruct (Z.ltb_spec MAX_TRACKER_BYTES (saturating_add (Z.of_nat (length body)) (Z.of_nat (length chunk)))) as [|Hs]; [done|].
    assert (Hl : Z.of_nat (length (body ++ chunk)) <= MAX_TRACKER_BYTES).
    { rewrite length_app. unfold saturating_add, MAX_TRACKER_BYTES in *. lia. }
    destruct (IH _ Hl E) as (Hr & pieces & -> & ->). split; [done|]. exists (chunk :: pieces). cbn. by rewrite app_assoc.
Qed.

(** An announcement goes out only after the policy has admitted its URL, once,
    and a response is what the tracker has sent, complete. *)
Theorem announce_admitted tracker request n r n' :
  announce_http_tracker tracker request n = (r, n') ->
  (sent n' = sent n
   \/ exists url, sent n' = sent n ++ [(Url.as_str url, [])]
        /\ build_tracker_announce_url set_query tracker request = Ok url
        /\ (validate_url lookup (Url.as_str url) n).1 = Ok tt)
  /\ forall resp, r = Ok resp ->
       exists hr rest pieces, answers n = Answered hr :: rest /\ is_success (hr_status hr) = true
         /\ hr_frames hr = map Ok pieces /\ Z.of_nat (length (mjoin pieces)) <= MAX_TRACKER_BYTES
         /\ parse_tracker_response lossy (mjoin pieces) = Ok resp.
Proof.
  unfold announce_http_tracker. intros E.
  apply io_bind_inv in E as [(url & n1 & E1 & E)|(e & E1 & ->)].
  2: { injection E1 as _ <-. split; [by left|done]. }
  injection E1 as Eu <-. apply io_bind_inv in E as [([] & n2 & E2 & E)|(e & E2 & ->)].
  2: { unfold validate_url in E2. destruct (validate _ _ _ _ _) as [x p]. injection E2 as -> <-. split; [by left|done]. }
  assert (Hv : sent n2 = sent n /\ answers n2 = answers n /\ (validate_url lookup (Url.as_str url) n).1 = Ok tt).
  { rewrite E2. unfold validate_url in E2. destruct (validate _ _ _ _ _) as [x p]. by injection E2 as -> <-. }
  destruct Hv as (Hs & Ha & Hv). destruct (negb _); [injection E as <- <-; split; [by left|done]|].
  assert (Hsent : forall x, exchange_tracker (Url.as_str url) n2 = x -> sent x.2 = sent n ++ [(Url.as_str url, [])]).
  { intros x <-. unfold exchange_tracker. rewrite <- Hs. by destruct (answers n2) as [|[]]. }
  apply io_bind_inv in E as [(hr & n3 & E3 & E)|(e & E3 & ->)].
  2: { apply Hsent in E3. split; [right; by exists url|done]. }
  pose proof (Hsent _ E3) as Hsent3. cbn in Hsent3.
  assert (Hn : n' = n3).
  { destruct (negb _); [by injection E as _ <-|].
    apply io_bind_inv in E as [(b & n4 & E4 & E)|(e & E4 & _)]; [injection E4 as _ <-; by injection E as _ <-|by injection E4 as _ <-]. }
  subst n'. split; [right; by exists url|]. intros resp ->.
  destruct (is_success (hr_status hr)) eqn:Eok; [|done]. cbn in E.
  apply io_bind_inv in E as [(b & n4 & E4 & E)|(e & _ & ?)]; [|done]. injection E4 as Eb <-. injection E as Er.
  destruct (read_tracker_body_Ok [] _ _ ltac:(done) Eb) as (Hl & pieces & Hp & ->).
  unfold exchange_tracker in E3. rewrite Ha in E3. destruct (answers n) as [|[| |hr0] rest]; try done.
  injection E3 as -> _. by exists hr, rest, pieces.
Qed.
End Announce.
