(* ===== verification/Dht.v ===== *)
(** * The distributed hash table ([p2p_network.rs])

    Queries and responses, and the routing table ordered by XOR distance. *)

From Stdlib Require Import Strings.Byte Strings.String.
From S2P Require Import Prelude Bytes Error External NetworkPolicy Bencode PeerWire TorrentMeta Trackers.

(** ** Messages *)

Record DhtNode : Type := mk_DhtNode { node_id : text; node_address : SocketAddr }.

Record DhtGetPeersResponse : Type := mk_DhtGetPeersResponse {
  token : text;
  dht_nodes : list DhtNode;
  dht_peers : list SocketAddr;
}.

Definition bad_transaction (transaction : text) : bool :=
  bool_decide (transaction = []) || too_long transaction 32.

Definition encode_dht_get_peers (transaction id hash : text) : Result text :=
  if bad_transaction transaction then Err (ProxyError.Parse (str "invalid DHT transaction ID"))
  else Ok (str "d1:ad2:id20:" ++ id ++ str "9:info_hash20:" ++ hash ++ str "1:q9:get_peers1:t"
           ++ format_u64 (Z.of_nat (List.length transaction)) ++ str ":" ++ transaction ++ str "1:y1:qe").

Definition encode_dht_ping (transaction : text) : Result text :=
  if bad_transaction transaction then Err (ProxyError.Parse (str "invalid DHT transaction ID"))
  else Ok (str "d1:ad2:id20:" ++ replicate 20 x00 ++ str "1:q4:ping1:t"
           ++ format_u64 (Z.of_nat (List.length transaction)) ++ str ":" ++ transaction ++ str "1:y1:qe").

Definition compact_node (chunk : text) : DhtNode :=
  mk_DhtNode (slice 0 20 chunk) (compact_v4 (drop 20 chunk)).
Definition compact_node6 (chunk : text) : DhtNode :=
  mk_DhtNode (slice 0 20 chunk) (compact_v6 (drop 20 chunk)).

Definition parse_dht_compact_nodes (input : text) : Result (list DhtNode) :=
  if negb (Nat.eqb (List.length input mod 26) 0)
  then Err (ProxyError.Parse (str "invalid compact DHT node list"))
  else Ok (map compact_node (chunks_exact 26 input)).

Definition parse_dht_peer (v : BValue) : Result SocketAddr :=
  match v with
  | Bytes b =>
      if negb (Nat.eqb (List.length b) 6)
      then Err (ProxyError.Parse (str "DHT peer value is not compact IPv4"))
      else Ok (compact_v4 b)
  | _ => Err (ProxyError.Parse (str "DHT peer value is invalid"))
  end.

Definition parse_dht_get_peers_response (input transaction : text) : Result DhtGetPeersResponse :=
  '(root, rest) ← parse_value input;
  if negb (bool_decide (rest = []))
  then Err (ProxyError.Parse (str "DHT response has trailing bytes"))
  else
    match root with
    | Dict entries =>
        if negb (bool_decide ((bt_get (str "y") entries ≫= bytes_of_value) = Some (str "r")))
        then Err (ProxyError.Parse (str "DHT response is not a response"))
        else if negb (bool_decide ((bt_get (str "t") entries ≫= bytes_of_value) = Some transaction))
        then Err (ProxyError.Parse (str "DHT transaction mismatch"))
        else
          r ← ok_or (bt_get (str "r") entries) (ProxyError.Parse (str "DHT response is missing r"));
          match r with
          | Dict response =>
              token ← match bt_get (str "token") response with
                      | Some (Bytes v) =>
                          if bool_decide (v = []) || too_long v 256
                          then Err (ProxyError.Parse (str "DHT response token is invalid")) else Ok v
                      | _ => Err (ProxyError.Parse (str "DHT response token is invalid"))
                      end;
              nodes ← match bt_get (str "nodes") response with
                      | Some (Bytes v) => parse_dht_compact_nodes v
                      | _ => Ok []
                      end;
              nodes6 ← match bt_get (str "nodes6") response with
                       | Some (Bytes v) =>
                           if negb (Nat.eqb (List.length v mod 38) 0)
                           then Err (ProxyError.Parse (str "invalid compact IPv6 DHT nodes"))
                           else Ok (map compact_node6 (chunks_exact 38 v))
                       | _ => Ok []
                       end;
              peers ← match bt_get (str "values") response with
                      | Some (BList values) => try_map parse_dht_peer values
                      | _ => Ok []
                      end;
              Ok (mk_DhtGetPeersResponse token (nodes ++ nodes6) peers)
          | _ => Err (ProxyError.Parse (str "DHT response r is invalid"))
          end
    | _ => Err (ProxyError.Parse (str "DHT response must be a dictionary"))
    end.

(** ** The routing table *)

(** The bytewise exclusive or; arrays are compared lexicographically. *)
Definition xor_distance (left right : text) : text :=
  zip_with (fun a b => z2b (Z.lxor (b2z a) (b2z b))) left right.
Definition distance_lt (a b : text) : bool :=
  match text_compare a b with Lt => true | _ => false end.

Record DhtRoutingTable : Type := mk_DhtRoutingTable {
  local_id : text;
  nodes : list DhtNode;
  capacity : Z;
}.

Definition table_new (id : text) (cap : Z) : Result DhtRoutingTable :=
  if (cap =? 0) || (4096 <? cap) then Err (ProxyError.Request (str "invalid DHT routing capacity"))
  else Ok (mk_DhtRoutingTable id [] cap).

(** [iter_mut().find(..)] and the new address. *)
Fixpoint set_address (id : text) (a : SocketAddr) (l : list DhtNode) : option (list DhtNode) :=
  match l with
  | [] => None
  | n :: l' =>
      if decide (node_id n = id) then Some (mk_DhtNode id a :: l')
      else cons n <$> set_address id a l'
  end.

(** [max_by_key]: of equal keys the last wins. *)
Definition farthest (local : text) (l : list DhtNode) : option (nat * DhtNode) :=
  fold_left (fun best e =>
    match best with
    | None => Some e
    | Some b =>
        if distance_lt (xor_distance (node_id e.2) local) (xor_distance (node_id b.2) local)
        then Some b else Some e
    end) (imap pair l) None.

(** [Vec::swap_remove]. *)
Definition swap_remove {A} (i : nat) (l : list A) : list A :=
  match last l with
  | Some z => take (length l - 1) (<[i := z]> l)
  | None => l
  end.

Definition set_nodes (l : list DhtNode) (t : DhtRoutingTable) : DhtRoutingTable :=
  mk_DhtRoutingTable (local_id t) l (capacity t).

Definition table_insert (node : DhtNode) (t : DhtRoutingTable) : bool * DhtRoutingTable :=
  if bool_decide (node_id node = local_id t) || negb (is_public_socket (node_address node)) then (false, t)
  else
    match set_address (node_id node) (node_address node) (nodes t) with
    | Some l => (true, set_nodes l t)
    | None =>
        if Z.of_nat (List.length (nodes t)) =? capacity t then
          match farthest (local_id t) (nodes t) with
          | None => (false, t)     (* an empty table is not full *)
          | Some (i, far) =>
              if negb (distance_lt (xor_distance (node_id node) (local_id t))
                         (xor_distance (node_id far) (local_id t)))
              then (false, t)
              else (true, set_nodes (swap_remove i (nodes t) ++ [node]) t)
          end
        else (true, set_nodes (nodes t ++ [node]) t)
    end.

(** [sort_by_key], a stable sort. *)
Fixpoint sort_insert (target : text) (n : DhtNode) (l : list DhtNode) : list DhtNode :=
  match l with
  | [] => [n]
  | m :: l' =>
      if distance_lt (xor_distance (node_id m) target) (xor_distance (node_id n) target)
      then m :: sort_insert target n l'
      else n :: l
  end.
Definition sort_by_distance (target : text) (l : list DhtNode) : list DhtNode :=
  foldr (sort_insert target) [] l.

Definition closest (t : DhtRoutingTable) (target : text) (limit : nat) : list DhtNode :=
  take limit (sort_by_distance target (nodes t)).
