(* ===== verification/DhtTheorems.v ===== *)
(** * The distributed hash table: the closest nodes, and queries that nobody can read *)

From Stdlib Require Import Strings.Byte Strings.String.
From S2P Require Import Prelude Bytes Error External NetworkPolicy Bencode BencodeTheorems PeerWire TorrentMeta Trackers Dht.

(** ** Distances *)

Lemma text_compare_be a b : length a = length b -> text_compare a b = (from_be a ?= from_be b).
Proof.
  revert b. induction a as [|x a IH]; intros [|y b] Hl; simpl in Hl; try done.
  injection Hl as Hl. cbn [text_compare from_be]. rewrite IH, Hl by done.
  pose proof (from_be_range a) as Ha. pose proof (from_be_range b) as Hb. rewrite Hl in Ha.
  destruct (Z.compare_spec (b2z x) (b2z y)) as [->|Hlt|Hgt].
  - destruct (Z.compare_spec (from_be a) (from_be b)); symmetry;
      [apply Z.compare_eq_iff|apply Z.compare_lt_iff|apply Z.compare_gt_iff]; lia.
  - symmetry. apply Z.compare_lt_iff. nia.
  - symmetry. apply Z.compare_gt_iff. nia.
Qed.

(** The distance of a node from the owner of the table, as a number. *)
Definition dist (target : text) (n : DhtNode) : Z := from_be (xor_distance (node_id n) target).

Lemma length_xor a b : length a = 20%nat -> length b = 20%nat -> length (xor_distance a b) = 20%nat.
Proof. intros Ha Hb. unfold xor_distance. rewrite length_zip_with. lia. Qed.

Lemma distance_lt_dist target n m :
  length (node_id n) = 20%nat -> length (node_id m) = 20%nat -> length target = 20%nat ->
  distance_lt (xor_distance (node_id n) target) (xor_distance (node_id m) target) = (dist target n <? dist target m).
Proof.
  intros Hn Hm Ht. unfold distance_lt, dist. rewrite text_compare_be by (by rewrite !length_xor). done.
Qed.

(** ** The farthest node *)

Lemma farthest_go local l k best :
  length local = 20%nat -> length (node_id best.2) = 20%nat -> Forall (fun n => length (node_id n) = 20%nat) l ->
  exists e, fold_left (fun best e => match best with
      | None => Some e
      | Some b => if distance_lt (xor_distance (node_id e.2) local) (xor_distance (node_id b.2) local)
                  then Some b else Some e end) (imap (fun i n => (k + i, n)%nat) l) (Some best) = Some e
    /\ (e = best \/ exists i, e.1 = (k + i)%nat /\ l !! i = Some e.2)
    /\ dist local best.2 <= dist local e.2 /\ Forall (fun n => dist local n <= dist local e.2) l.
Proof.
  intros Hloc. revert k best. induction l as [|n l IH]; intros k best Hb Hl.
  { exists best. split_and!; [done|by left|lia|constructor]. }
  inversion_clear Hl as [|?? Hn Hl']. cbn [imap]. cbn [fold_left].
  replace (imap ((fun i n => ((k + i)%nat, n)) ∘ S) l) with (imap (fun i n => ((S k + i)%nat, n)) l)
    by (apply imap_ext; intros i x _; simpl; f_equal; lia).
  cbn [snd]. rewrite distance_lt_dist by done. rewrite Nat.add_0_r.
  destruct (Z.ltb_spec (dist local n) (dist local best.2)).
  - destruct (IH (S k) best Hb Hl') as (e & -> & Hin & Hle & Hall). exists e. split_and!; [done| |done|].
    + destruct Hin as [->|(i & He & Hi)]; [by left|]. right. exists (S i). split; [lia|done].
    + constructor; [lia|done].
  - destruct (IH (S k) (k, n) Hn Hl') as (e & -> & Hin & Hle & Hall). exists e. simpl in Hle.
    split_and!; [done| |lia|constructor; [lia|done]].
    right. destruct Hin as [->|(i & He & Hi)]; [exists 0%nat; split; [simpl; lia|done]|].
    exists (S i). split; [lia|done].
Qed.

Lemma farthest_spec local l :
  length local = 20%nat -> l <> [] -> Forall (fun n => length (node_id n) = 20%nat) l ->
  exists i far, farthest local l = Some (i, far) /\ l !! i = Some far
    /\ Forall (fun n => dist local n <= dist local far) l.
Proof.
  intros Hloc Hne Hl. destruct l as [|n l]; [done|]. inversion_clear Hl as [|?? Hn Hl'].
  unfold farthest. cbn [imap fold_left].
  destruct (farthest_go local l 1 (0%nat, n) Hloc Hn Hl') as ([i far] & E & Hin & Hle & Hall).
  exists i, far. split_and!.
  - exact E.
  - destruct Hin as [[= -> ->]|(j & Hj & Hx)]; [done|]. simpl in *. by subst i.
  - constructor; done.
Qed.

(** ** [swap_remove] removes one element *)

Lemma insert_perm {A} (l : list A) i x y : l !! i = Some x -> x :: <[i := y]> l ≡ₚ y :: l.
Proof.
  revert i. induction l as [|z l IH]; intros [|i]; simpl; [done|done|intros [= ->]; constructor|].
  intros Hi. rewrite perm_swap, IH by done. constructor.
Qed.

Lemma swap_remove_perm {A} (l : list A) i x :
  l !! i = Some x -> x :: swap_remove i l ≡ₚ l.
Proof.
  intros Hi. pose proof (lookup_lt_Some _ _ _ Hi) as Hlt. unfold swap_remove.
  destruct l as [|y l] using rev_ind; [done|]. clear IHl. rewrite last_snoc, length_app.
  simpl length. rewrite Nat.add_sub. rewrite length_app in Hlt. simpl in Hlt.
  destruct (decide (i = length l)) as [->|Hne].
  - rewrite lookup_app_r, Nat.sub_diag in Hi by lia. injection Hi as ->.
    rewrite take_insert_ge by lia. rewrite take_app_length. apply Permutation_cons_append.
  - rewrite lookup_app_l in Hi by lia. rewrite insert_app_l by lia.
    rewrite take_app_length' by (by rewrite length_insert).
    rewrite (insert_perm l i x y Hi). apply Permutation_cons_append.
Qed.

(** ** The invariant of the table *)

Definition ids (l : list DhtNode) : list text := map node_id l.
Definition id_dist (local id : text) : Z := from_be (xor_distance id local).

(** A node the table may hold. *)
Definition admissible_node (local : text) (n : DhtNode) : Prop :=
  length (node_id n) = 20%nat /\ node_id n <> local /\ is_public_socket (node_address n) = true.

Record table_wf (seen : list text) (t : DhtRoutingTable) : Prop := {
  tw_local : length (local_id t) = 20%nat;
  tw_capacity : 0 < capacity t <= 4096;
  tw_bound : Z.of_nat (length (nodes t)) <= capacity t;
  tw_unique : NoDup (ids (nodes t));
  tw_nodes : Forall (admissible_node (local_id t)) (nodes t);
  tw_seen : ids (nodes t) ⊆ seen;
  tw_closest id : id ∈ seen -> id ∈ ids (nodes t)
    \/ (Z.of_nat (length (nodes t)) = capacity t
        /\ Forall (fun n => dist (local_id t) n <= id_dist (local_id t) id) (nodes t));
}.

Lemma set_address_Some id a l l' :
  set_address id a l = Some l' ->
  ids l' = ids l /\ id ∈ ids l
  /\ forall n, n ∈ l' -> n ∈ l \/ n = mk_DhtNode id a.
Proof.
  revert l'. induction l as [|n l IH]; intros l'; cbn [set_address]; [done|]. case_decide as Hid.
  - intros [= <-]. split_and!; [simpl; by rewrite Hid|simpl; rewrite Hid; by left|].
    intros m [->|Hm]%elem_of_cons; [by right|left; by right].
  - destruct (set_address id a l) as [l2|]; [|done]. intros [= <-].
    destruct (IH l2 eq_refl) as (Hi & Hin & Hsub). split_and!; [simpl; by rewrite Hi|by right|].
    intros m [->|Hm]%elem_of_cons; [left; by left|].
    destruct (Hsub m Hm) as [|]; [left; by right|by right].
Qed.
Lemma set_address_None id a l : set_address id a l = None -> id ∉ ids l.
Proof.
  induction l as [|n l IH]; cbn [set_address]; [intros _; apply not_elem_of_nil|].
  case_decide as Hid; [done|]. destruct (set_address id a l); [done|]. intros _.
  apply not_elem_of_cons. split; [congruence|by apply IH].
Qed.

Lemma dist_id local n : dist local n = id_dist local (node_id n).
Proof. done. Qed.

(** Updating an address keeps ids, hence distances. *)
Lemma Forall_dist_ids local l z :
  Forall (fun n => dist local n <= z) l <-> Forall (fun id => id_dist local id <= z) (ids l).
Proof. unfold ids. by rewrite Forall_map. Qed.

Lemma admissible_lengths local l :
  Forall (admissible_node local) l -> Forall (fun n => length (node_id n) = 20%nat) l.
Proof. intros H. eapply Forall_impl; [exact H|]. by intros n [? _]. Qed.

Lemma table_append seen t n :
  table_wf seen t -> admissible_node (local_id t) n -> node_id n ∉ ids (nodes t) ->
  Z.of_nat (length (nodes t)) <> capacity t ->
  table_wf (node_id n :: seen) (set_nodes (nodes t ++ [n]) t).
Proof.
  intros [Hl Hc Hb Hu Hn Hs Hclose] Hadm Hnew Hne.
  assert (Hids : ids (nodes t ++ [n]) = ids (nodes t) ++ [node_id n]) by (unfold ids; by rewrite map_app).
  constructor; simpl; try done; rewrite ?Hids.
  - rewrite length_app. simpl. lia.
  - apply NoDup_app. split_and!; [done| |apply NoDup_singleton].
    by intros x Hx ->%list_elem_of_singleton.
  - apply Forall_app. by repeat constructor; try apply Hadm.
  - intros x [Hx|Hx]%elem_of_app; [right; by apply Hs|]. apply list_elem_of_singleton in Hx as ->. by left.
  - intros id [->|Hid]%elem_of_cons; [left; apply elem_of_app; right; by left|].
    destruct (Hclose id Hid) as [?|[? _]]; [left; apply elem_of_app; by left|done].
Qed.

Lemma table_full_refuse seen t n far i :
  table_wf seen t -> Z.of_nat (length (nodes t)) = capacity t ->
  nodes t !! i = Some far -> Forall (fun m => dist (local_id t) m <= dist (local_id t) far) (nodes t) ->
  dist (local_id t) far <= dist (local_id t) n ->
  table_wf (node_id n :: seen) t.
Proof.
  intros [Hl Hc Hb Hu Hn Hs Hclose] Hfull Hi Hmax Hle. constructor; try done.
  - intros x Hx. right. by apply Hs.
  - intros id [->|Hid]%elem_of_cons; [|by apply Hclose]. right. split; [done|].
    eapply Forall_impl; [exact Hmax|]. intros m Hm. rewrite <- dist_id. simpl in Hm. lia.
Qed.

Lemma table_replace seen t n far i :
  table_wf seen t -> admissible_node (local_id t) n -> node_id n ∉ ids (nodes t) ->
  Z.of_nat (length (nodes t)) = capacity t ->
  nodes t !! i = Some far -> Forall (fun m => dist (local_id t) m <= dist (local_id t) far) (nodes t) ->
  dist (local_id t) n < dist (local_id t) far ->
  table_wf (node_id n :: seen) (set_nodes (swap_remove i (nodes t) ++ [n]) t).
Proof.
  intros [Hl Hc Hb Hu Hn Hs Hclose] Hadm Hnew Hfull Hi Hmax Hlt.
  pose proof (swap_remove_perm (nodes t) i far Hi) as Hperm.
  set (l := swap_remove i (nodes t)) in *.
  assert (Hids : ids (l ++ [n]) = ids l ++ [node_id n]) by (unfold ids; by rewrite map_app).
  assert (Hsub : forall id, id ∈ ids (nodes t) <-> id = node_id far \/ id ∈ ids l).
  { intros id. unfold ids. rewrite <- Hperm. simpl. by rewrite elem_of_cons. }
  assert (Hlen : length (nodes t) = S (length l)) by (by rewrite <- Hperm).
  assert (HuL : NoDup (node_id far :: ids l)) by (change (NoDup (ids (far :: l))); unfold ids; by rewrite Hperm).
  assert (HmaxL : Forall (fun m => dist (local_id t) m <= dist (local_id t) far) (l ++ [n])).
  { rewrite <- Hperm in Hmax. inversion_clear Hmax. apply Forall_app. split; [done|]. repeat constructor. lia. }
  apply NoDup_cons in HuL as [Hfar HuL].
  constructor; simpl; try done; rewrite ?Hids.
  - rewrite length_app. simpl. lia.
  - apply NoDup_app. split_and!; [done| |apply NoDup_singleton].
    intros x Hx ->%list_elem_of_singleton. apply Hnew, Hsub. by right.
  - rewrite <- Hperm in Hn. inversion_clear Hn. apply Forall_app. by repeat constructor; try apply Hadm.
  - intros x [Hx|Hx]%elem_of_app; [right; apply Hs, Hsub; by right|].
    apply list_elem_of_singleton in Hx as ->. by left.
  - intros id [->|Hid]%elem_of_cons; [left; apply elem_of_app; right; by left|].
    assert (Hfull' : Z.of_nat (length (l ++ [n])) = capacity t) by (rewrite length_app; simpl; lia).
    destruct (Hclose id Hid) as [[->|Hin]%Hsub|[_ Hfar']].
    + right. split; [done|]. exact HmaxL.
    + left. apply elem_of_app. by left.
    + right. split; [done|]. eapply Forall_impl; [exact HmaxL|]. intros m Hm. simpl in Hm.
      rewrite Forall_forall in Hfar'. specialize (Hfar' far (list_elem_of_lookup_2 _ _ _ Hi)). lia.
Qed.

(** What an offered node adds to the ids the table has seen. *)
Definition sees (local : text) (n : DhtNode) (seen : list text) : list text :=
  if bool_decide (node_id n = local) || negb (is_public_socket (node_address n)) then seen
  else node_id n :: seen.

Lemma table_insert_wf seen t n :
  table_wf seen t -> length (node_id n) = 20%nat ->
  table_wf (sees (local_id t) n seen) (table_insert n t).2
  /\ local_id (table_insert n t).2 = local_id t /\ capacity (table_insert n t).2 = capacity t.
Proof.
  intros Hwf Hlen. unfold table_insert, sees.
  destruct (bool_decide (node_id n = local_id t) || _) eqn:E; [done|].
  apply orb_false_iff in E as [Hne%bool_decide_eq_false Hpub%negb_false_iff].
  assert (Hadm : admissible_node (local_id t) n) by done.
  destruct (set_address (node_id n) (node_address n) (nodes t)) as [l|] eqn:Es.
  - split; [|done]. apply set_address_Some in Es as (Hids & Hin & Hsub). simpl.
    destruct Hwf as [Hl Hc Hb Hu Hn Hs Hclose].
    assert (Hlength : length l = length (nodes t)).
    { apply (f_equal (@length text)) in Hids. unfold ids in Hids. by rewrite !length_map in Hids. }
    constructor; simpl; rewrite ?Hids, ?Hlength; try done.
    + rewrite Forall_forall in Hn |- *. intros m Hm. destruct (Hsub m Hm) as [?| ->]; [by apply Hn|].
      by destruct n.
    + intros x Hx. right. by apply Hs.
    + intros id [->|Hid]%elem_of_cons; [by left|].
      destruct (Hclose id Hid) as [?|[? Hf]]; [by left|right]. split; [done|].
      apply Forall_dist_ids. rewrite Hids. by apply Forall_dist_ids.
  - apply set_address_None in Es.
    destruct (Z.eqb_spec (Z.of_nat (length (nodes t))) (capacity t)) as [Hfull|]; cycle 1.
    { split; [by apply table_append|done]. }
    pose proof (admissible_lengths _ _ (tw_nodes _ _ Hwf)) as Hlens.
    destruct (farthest_spec (local_id t) (nodes t)) as (i & far & -> & Hi & Hmax);
      [apply Hwf|intros Hnil; pose proof (tw_capacity _ _ Hwf); rewrite Hnil in Hfull; simpl in Hfull; lia|done|].
    assert (Hfar : length (node_id far) = 20%nat)
      by (rewrite Forall_forall in Hlens; apply Hlens; by eapply list_elem_of_lookup_2).
    rewrite distance_lt_dist by (done || apply Hwf).
    destruct (Z.ltb_spec (dist (local_id t) n) (dist (local_id t) far)); simpl negb; cbv iota.
    + split; [by eapply table_replace|done].
    + split; [by eapply table_full_refuse|done].
Qed.

Definition insert_nodes (ns : list DhtNode) (t : DhtRoutingTable) : DhtRoutingTable :=
  fold_left (fun t n => (table_insert n t).2) ns t.
Definition seen_of (local : text) (ns : list DhtNode) : list text :=
  fold_left (fun seen n => sees local n seen) ns [].

Lemma insert_nodes_wf ns : forall seen t,
  table_wf seen t -> Forall (fun n => length (node_id n) = 20%nat) ns ->
  table_wf (fold_left (fun seen n => sees (local_id t) n seen) ns seen) (insert_nodes ns t)
  /\ local_id (insert_nodes ns t) = local_id t /\ capacity (insert_nodes ns t) = capacity t.
Proof.
  induction ns as [|n ns IH]; intros seen t Hwf Hns; [done|]. inversion_clear Hns as [|?? Hn Hns'].
  destruct (table_insert_wf seen t n Hwf Hn) as (Hwf1 & Hl1 & Hc1). unfold insert_nodes. cbn [fold_left].
  destruct (IH _ _ Hwf1 Hns') as (Hwf2 & Hl2 & Hc2). rewrite Hl1 in *. rewrite Hc1 in *. done.
Qed.

(** Only admissible offers are seen, and all of them. *)
Lemma seen_spec local ns id : id ∈ seen_of local ns <->
  exists n, n ∈ ns /\ node_id n = id /\ id <> local /\ is_public_socket (node_address n) = true.
Proof.
  unfold seen_of.
  assert (H : forall seen, id ∈ fold_left (fun seen n => sees local n seen) ns seen <->
    id ∈ seen \/ exists n, n ∈ ns /\ node_id n = id /\ id <> local /\ is_public_socket (node_address n) = true).
  { induction ns as [|n ns IH]; intros seen; cbn [fold_left].
    { split; [by left|]. intros [?|(n & Hn & _)]; [done|by apply not_elem_of_nil in Hn]. }
    rewrite IH. unfold sees. destruct (bool_decide (node_id n = local) || _) eqn:E.
    - split; [intros [?|(m & Hm & ?)]; [by left|right; exists m; split; [by right|done]]|].
      intros [?|(m & [->|Hm]%elem_of_cons & <- & Hne & Hp)]; [by left| |right; by exists m].
      rewrite Hp, orb_false_r in E. by apply bool_decide_eq_true in E.
    - apply orb_false_iff in E as [Hne%bool_decide_eq_false Hp%negb_false_iff]. rewrite elem_of_cons. split.
      + intros [[->|?]|(m & Hm & ?)]; [right; exists n; split; [by left|done]|by left|].
        right. exists m. split; [by right|done].
      + intros [?|(m & [->|Hm]%elem_of_cons & <- & ? & ?)]; [left; by right|left; by left|right; by exists m]. }
  rewrite H. split; [intros [Hn|?]; [by apply not_elem_of_nil in Hn|done]|by right].
Qed.

(** ** Sorting *)

Lemma sort_insert_perm target n l : sort_insert target n l ≡ₚ n :: l.
Proof.
  induction l as [|m l IH]; simpl; [done|]. case_match; [|done]. rewrite IH. constructor.
Qed.
Lemma sort_perm target l : sort_by_distance target l ≡ₚ l.
Proof. induction l as [|n l IH]; simpl; [done|]. by rewrite sort_insert_perm, IH. Qed.

Lemma sort_sorted target l :
  length target = 20%nat -> Forall (fun n => length (node_id n) = 20%nat) l ->
  StronglySorted (fun a b => dist target a <= dist target b) (sort_by_distance target l).
Proof.
  intros Ht Hl. induction Hl as [|n l Hn Hl IH]; simpl; [constructor|].
  assert (Hs : Forall (fun n => length (node_id n) = 20%nat) (sort_by_distance target l))
    by (by rewrite sort_perm).
  induction (sort_by_distance target l) as [|m s IHs]; simpl; [by repeat constructor|].
  inversion_clear Hs as [|?? Hm Hs']. inversion_clear IH as [|?? Hss Hall].
  rewrite distance_lt_dist by done. destruct (Z.ltb_spec (dist target m) (dist target n)).
  - constructor; [by apply IHs|]. rewrite sort_insert_perm. constructor; [lia|done].
  - constructor; [by constructor|]. constructor; [lia|]. eapply Forall_impl; [exact Hall|]. simpl. lia.
Qed.

Lemma take_sorted_best {A} (f : A -> Z) (l : list A) k :
  StronglySorted (fun a b => f a <= f b) l ->
  forall a b, a ∈ take k l -> b ∈ drop k l -> f a <= f b.
Proof.
  intros Hs. revert k. induction Hs as [|x l Hs IH Hx]; intros [|k] a b; simpl.
  - intros H. by apply not_elem_of_nil in H.
  - intros H. by apply not_elem_of_nil in H.
  - intros H. by apply not_elem_of_nil in H.
  - intros [->|Ha]%elem_of_cons Hb; [|by eapply IH].
    rewrite Forall_forall in Hx. apply Hx. rewrite <- (take_drop k l). apply elem_of_app. by right.
Qed.

(** ** Queries *)

(** A dictionary whose only value is closed, but which is not. *)
Lemma unclosed_dict key v :
  wf v -> (height v <= 31)%nat -> Z.of_nat (length (x64 :: encode_bytes key ++ bencode v)) <= u64_max ->
  parse_value (x64 :: encode_bytes key ++ bencode v)
  = Err (ProxyError.Parse (str "invalid bencode byte string")).
Proof.
  intros Hwf Hh Hlen. unfold parse_value. set (total := Z.of_nat (length (x64 :: encode_bytes key ++ bencode v))) in *.
  assert (Hpos : (0 < length (bencode v))%nat)
    by (destruct (bencode_head v) as (y & s & -> & _); simpl; lia).
  cbn [Datatypes.length]. rewrite length_app.
  set (n := (length (encode_bytes key) + length (bencode v))%nat).
  replace (2 * S n + 1)%nat with (S (S (2 * n + 1))) by lia.
  cbn [value]. unfold MAX_DEPTH. cbn [Nat.leb]. rewrite decide_False, decide_False, decide_True by done.
  destruct (encode_bytes_head key) as (x & r & Hx & Hdig).
  assert (Hne : x <> x65) by (by intros ->).
  assert (Hkpos : (0 < length (encode_bytes key))%nat) by (rewrite Hx; simpl; lia).
  rewrite Hx, <- app_comm_cons, dict_entries_eq, decide_False by done.
  rewrite app_comm_cons, <- Hx.
  assert (Htot : Z.of_nat (length (encode_bytes key ++ bencode v)) <= total)
    by (unfold total; simpl; lia).
  rewrite bytes_round_trip by (rewrite ?length_app in *; lia). cbn [pbind].
  rewrite length_app in Htot.
  rewrite <- (app_nil_r (bencode v)) at 1.
  rewrite (value_round_trip v Hwf total (2 * n + 1)%nat 1%nat []);
    [|unfold MAX_DEPTH; lia|rewrite app_nil_r; lia|rewrite app_nil_r; lia].
  cbn [pbind]. replace (2 * n + 1)%nat with (S (2 * n)) by lia. rewrite dict_entries_nil. done.
Qed.

Definition get_peers_arguments (transaction id hash : text) : BValue :=
  Dict [(str "id", Bytes id); (str "info_hash", Bytes hash); (str "q", Bytes (str "get_peers"));
        (str "t", Bytes transaction); (str "y", Bytes (str "q"))].
Definition ping_arguments (transaction id : text) : BValue :=
  Dict [(str "id", Bytes id); (str "q", Bytes (str "ping")); (str "t", Bytes transaction);
        (str "y", Bytes (str "q"))].

Lemma flat_dict_wf d :
  keys_sorted d -> Forall (fun e => exists b, e.2 = Bytes b) d -> wf (Dict d) /\ height (Dict d) = S (match d with [] => 0 | _ => 1 end).
Proof.
  intros Hs Hd. split.
  - split; [done|]. clear Hs. induction Hd as [|[k v] d [b Hb] _ IH]; simpl; [done|]. simpl in Hb. by subst v.
  - cbn [height]. f_equal. destruct d as [|e d]; [done|]. inversion_clear Hd as [|?? [b Hb] Hd'].
    simpl. rewrite Hb. simpl. clear -Hd'. induction Hd' as [|[k v] d [b Hb] _ IH]; [done|].
    simpl in *. subst v. simpl. lia.
Qed.

Lemma flat_dict_wf_height d :
  keys_sorted d -> Forall (fun e => exists b, e.2 = Bytes b) d -> wf (Dict d) /\ (height (Dict d) <= 31)%nat.
Proof. intros Hs Hd. destruct (flat_dict_wf d Hs Hd) as [Hw Hh]. split; [done|]. rewrite Hh. destruct d; lia. Qed.

Lemma format_small n : 0 <= n <= 32 -> (length (format_u64 n) <= 2)%nat.
Proof.
  intros Hn. apply Nat.leb_le.
  assert (H : forallb (fun k => Nat.leb (length (format_u64 (Z.of_nat k))) 2) (seq 0 33) = true)
    by (vm_compute; reflexivity).
  rewrite forallb_forall in H. specialize (H (Z.to_nat n)). rewrite Z2Nat.id in H by lia.
  apply H, in_seq. lia.
Qed.

(** The lengths of literals. *)
Ltac str_lengths :=
  repeat match goal with
  | |- context [length (str ?s)] => let n := eval vm_compute in (length (str s)) in change (length (str s)) with n
  end.

Lemma encode_20 b : length b = 20%nat -> encode_bytes b = str "20:" ++ b.
Proof. intros Hb. unfold encode_bytes. by rewrite Hb. Qed.

Lemma get_peers_unreadable transaction id hash :
  length id = 20%nat -> length hash = 20%nat -> Z.of_nat (length (encode_bytes transaction)) <= 40 ->
  parse_value (str "d1:ad2:id20:" ++ id ++ str "9:info_hash20:" ++ hash ++ str "1:q9:get_peers1:t"
               ++ encode_bytes transaction ++ str "1:y1:qe")
  = Err (ProxyError.Parse (str "invalid bencode byte string")).
Proof.
  intros Hid Hhash Hbytes.
  assert (Hshort : Z.of_nat (length (str "d1:ad2:id20:" ++ id ++ str "9:info_hash20:" ++ hash
    ++ str "1:q9:get_peers1:t" ++ encode_bytes transaction ++ str "1:y1:qe")) <= u64_max)
    by (rewrite !length_app, Hid, Hhash; str_lengths; lia).
  revert Hshort. replace (str "d1:ad2:id20:" ++ _)
    with (x64 :: encode_bytes (str "a") ++ bencode (get_peers_arguments transaction id hash)).
  - assert (Hw : wf (get_peers_arguments transaction id hash)
                 /\ (height (get_peers_arguments transaction id hash) <= 31)%nat).
    { apply flat_dict_wf_height; [|repeat (constructor; [by eexists|]); constructor].
      intros [|[|[|[|[|i]]]]] [|[|[|[|[|j]]]]] a b Hij; simpl; intros [= <-] [= <-]; lia || done. }
    apply unclosed_dict; apply Hw.
  - unfold get_peers_arguments. cbn [bencode map fst snd]. rewrite (encode_20 id), (encode_20 hash) by done.
    change (mjoin [?a; ?b; ?c; ?d; ?e]) with (a ++ b ++ c ++ d ++ e ++ []).
    rewrite <- !app_assoc. reflexivity.
Qed.

Lemma ping_unreadable transaction :
  Z.of_nat (length (encode_bytes transaction)) <= 40 ->
  parse_value (str "d1:ad2:id20:" ++ replicate 20 x00 ++ str "1:q4:ping1:t"
               ++ encode_bytes transaction ++ str "1:y1:qe")
  = Err (ProxyError.Parse (str "invalid bencode byte string")).
Proof.
  intros Hbytes.
  assert (Hshort : Z.of_nat (length (str "d1:ad2:id20:" ++ replicate 20 x00 ++ str "1:q4:ping1:t"
    ++ encode_bytes transaction ++ str "1:y1:qe")) <= u64_max)
    by (rewrite !length_app; rewrite length_replicate; str_lengths; lia).
  revert Hshort. replace (str "d1:ad2:id20:" ++ _)
    with (x64 :: encode_bytes (str "a") ++ bencode (ping_arguments transaction (replicate 20 x00))).
  - assert (Hw : wf (ping_arguments transaction (replicate 20 x00))
                 /\ (height (ping_arguments transaction (replicate 20 x00)) <= 31)%nat).
    { apply flat_dict_wf_height; [|repeat (constructor; [by eexists|]); constructor].
      intros [|[|[|[|i]]]] [|[|[|[|j]]]] a b Hij; simpl; intros [= <-] [= <-]; lia || done. }
    apply unclosed_dict; apply Hw.
  - unfold ping_arguments. cbn [bencode map fst snd]. rewrite (encode_20 (replicate 20 x00)) by done.
    change (mjoin [?a; ?b; ?c; ?d]) with (a ++ b ++ c ++ d ++ []).
    rewrite <- !app_assoc. reflexivity.
Qed.

(** ** Claims *)

Module DhtClaims.


(** The queries sent to the table's nodes are not bencoded values: the
    dictionary of the arguments is left open, so that the one closing byte
    ends it and the message itself has no end; the parser of this very module
    refuses every [get_peers] and every [ping] query it builds. *)
Theorem dht_queries_unreadable (transaction id hash query : text)
  (Hid : length id = 20%nat) (Hhash : length hash = 20%nat)
  (Hquery : encode_dht_get_peers transaction id hash = Ok query \/ encode_dht_ping transaction = Ok query) :
  parse_value query = Err (ProxyError.Parse (str "invalid bencode byte string")).
Proof.
  assert (Htx : bad_transaction transaction = false)
    by (unfold encode_dht_get_peers, encode_dht_ping in Hquery; destruct (bad_transaction transaction); naive_solver).
  assert (Hlen : Z.of_nat (length transaction) <= 32)
    by (unfold bad_transaction in Htx; apply orb_false_iff in Htx as [_ H]; by apply too_long_false in H).
  assert (Ok_inj : forall a b : text, @Ok ProxyError.t text a = Ok b -> a = b) by congruence.
  assert (Etx : format_u64 (Z.of_nat (length transaction)) ++ str ":" ++ transaction ++ str "1:y1:qe"
                = encode_bytes transaction ++ str "1:y1:qe")
    by (unfold encode_bytes; by rewrite <- app_assoc).
  assert (Hbytes : Z.of_nat (length (encode_bytes transaction)) <= 40).
  { unfold encode_bytes. rewrite length_app. cbn [Datatypes.length].
    pose proof (format_small (Z.of_nat (length transaction)) ltac:(lia)). lia. }
  destruct Hquery as [Hq|Hq]; unfold encode_dht_get_peers, encode_dht_ping in Hq; rewrite Htx in Hq;
    apply Ok_inj in Hq; subst query.
  - rewrite Etx. by apply get_peers_unreadable.
  - rewrite Etx. by apply ping_unreadable.
Qed.

Lemma dht_queries_unreadable_witness :
  exists query, encode_dht_get_peers (str "aa") (replicate 20 x01) (replicate 20 x02) = Ok query
    /\ parse_value query = Err (ProxyError.Parse (str "invalid bencode byte string")).
Proof.
  eexists. split; [reflexivity|].
  eapply (dht_queries_unreadable (str "aa") (replicate 20 x01) (replicate 20 x02));
    [reflexivity|reflexivity|left; reflexivity].
Defined.


End DhtClaims.
