(* ===== verification/Magnet.v ===== *)
(** * Magnet links ([p2p_network.rs])

    The info hash in its two notations and the parameters of the link.  The
    parsed URL and its decoded query pairs are those of the [url] crate. *)

From Stdlib Require Import Strings.Byte Strings.String.
From S2P Require Import Prelude Bytes Error External Percent PeerWire TorrentMeta TorrentMetaTheorems.

(** ** Info hashes *)

Definition is_ascii_hexdigit (b : byte) : bool := bool_decide (is_Some (hex_value b)).

(** Called on hexadecimal digits only. *)
Definition hex_nibble (b : byte) : Z :=
  if in_range 48 57 b then b2z b - 48
  else if in_range 97 102 b then b2z b - 97 + 10
  else b2z b - 65 + 10.

Definition hex_pair (chunk : text) : byte :=
  match chunk with
  | [hi; lo] => z2b (Z.lor (Z.shiftl (hex_nibble hi) 4) (hex_nibble lo))
  | _ => x00
  end.

Definition to_ascii_uppercase (b : byte) : byte := if in_range 97 122 b then z2b (b2z b - 32) else b.

Definition base32_value (b : byte) : option Z :=
  let u := to_ascii_uppercase b in
  if in_range 65 90 u then Some (b2z u - 65)
  else if in_range 50 55 u then Some (b2z b - 50 + 26)
  else None.

(** [while bits >= 8 { .. }]: twelve bits at most, so two rounds end it. *)
Fixpoint drain (fuel : nat) (output : text) (buffer bits : Z) : text * Z * Z :=
  match fuel with
  | O => (output, buffer, bits)
  | S fuel' =>
      if 8 <=? bits then
        let bits := bits - 8 in
        drain fuel' (output ++ [z2b (Z.land (Z.shiftr buffer bits) 255)])
          (Z.land buffer (Z.shiftl 1 bits - 1)) bits
      else (output, buffer, bits)
  end.

Fixpoint base32_loop (input output : text) (buffer bits : Z) : Result text :=
  match input with
  | [] =>
      if (0 <? bits) && negb (buffer =? 0) then Err (ProxyError.Parse (str "non-zero base32 padding"))
      else Ok output
  | b :: input' =>
      match base32_value b with
      | None => Err (ProxyError.Parse (str "invalid base32 btih"))
      | Some v =>
          let '(output, buffer, bits) := drain 2 output (Z.lor (Z.shiftl buffer 5) v) (bits + 5) in
          base32_loop input' output buffer bits
      end
  end.
Definition base32_decode (input : text) : Result text := base32_loop input [] 0 0.

Definition parse_info_hash (value : text) : Result text :=
  if Nat.eqb (length value) 40 && forallb is_ascii_hexdigit value
  then Ok (map hex_pair (chunks_exact 2 value))
  else if Nat.eqb (length value) 32 then
    decoded ← base32_decode value;
    if Nat.eqb (length decoded) 20 then Ok decoded
    else Err (ProxyError.Parse (str "invalid base32 btih"))
  else Err (ProxyError.Parse (str "btih must be 40 hex or 32 base32 characters")).

(** ** The link *)

Record MagnetRequest : Type := mk_MagnetRequest {
  mg_info_hash : text;
  display_name : option text;
  trackers : list Url.t;
}.

(** [Url::query_pairs], [Url::host] and the equality of URLs. *)
Class UrlPairs : Type := {
  query_pairs : Url.t -> list (text * text);
  url_eqb : Url.t -> Url.t -> bool;
}.

Section Link.
Context {UP : UrlParser} {UQ : UrlPairs}.

Record magnet_state : Type := mk_magnet_state {
  ms_hash : option text;
  ms_name : option text;
  ms_trackers : list Url.t;
}.

Definition magnet_pair (s : magnet_state) (pair : text * text) : Result magnet_state :=
  let '(key, value) := pair in
  if bool_decide (key = str "xt") && starts_with (str "urn:btih:") value then
    if bool_decide (is_Some (ms_hash s))
    then Err (ProxyError.Parse (str "magnet URI contains duplicate info hash"))
    else
      hash ← parse_info_hash (drop 9 value);
      Ok (mk_magnet_state (Some hash) (ms_name s) (ms_trackers s))
  else if bool_decide (key = str "dn") && bool_decide (ms_name s = None) && negb (bool_decide (value = []))
  then Ok (mk_magnet_state (ms_hash s) (Some value) (ms_trackers s))
  else if bool_decide (key = str "tr") then
    tracker ← ok_or (url_parse value) (ProxyError.Parse (str "magnet URI contains invalid tracker"));
    if negb (bool_decide (Url.scheme tracker = str "http") || bool_decide (Url.scheme tracker = str "https")
             || bool_decide (Url.scheme tracker = str "udp"))
       || bool_decide (Url.host_str tracker = None)
    then Err (ProxyError.Parse (str "magnet tracker must use http, https, or udp"))
    else if existsb (url_eqb tracker) (ms_trackers s) then Ok s
    else Ok (mk_magnet_state (ms_hash s) (ms_name s) (ms_trackers s ++ [tracker]))
  else Ok s.

Fixpoint magnet_pairs (s : magnet_state) (pairs : list (text * text)) : Result magnet_state :=
  match pairs with
  | [] => Ok s
  | p :: pairs' => s ← magnet_pair s p; magnet_pairs s pairs'
  end.

Definition parse_magnet_uri (input : text) : Result MagnetRequest :=
  url ← ok_or (url_parse input) (ProxyError.Parse (str "invalid magnet URI"));
  if negb (bool_decide (Url.scheme url = str "magnet")) || bool_decide (is_Some (Url.host_str url))
     || negb (bool_decide (Url.path url = []))
  then Err (ProxyError.Parse (str "magnet URI must not contain a host or path"))
  else
    s ← magnet_pairs (mk_magnet_state None None []) (query_pairs url);
    hash ← ok_or (ms_hash s) (ProxyError.Parse (str "magnet URI is missing btih"));
    Ok (mk_MagnetRequest hash (ms_name s) (ms_trackers s)).

End Link.

(** * Magnet links: an info hash is the number its digits say *)

(** ** Numbers in a base *)

Section Number.
Context (base : Z) (digit : byte -> Z).
Fixpoint number (s : text) : Z :=
  match s with [] => 0 | b :: s' => digit b * base ^ Z.of_nat (length s') + number s' end.
End Number.

Lemma from_be_snoc s b : from_be (s ++ [b]) = from_be s * 256 + b2z b.
Proof.
  induction s as [|x s IH]; simpl; [lia|]. rewrite IH, length_app. simpl.
  rewrite Nat2Z.inj_add, Z.pow_add_r by lia. change (256 ^ Z.of_nat 1) with 256. lia.
Qed.

(** ** Hexadecimal *)

Lemma hex_nibble_range b : is_ascii_hexdigit b = true -> 0 <= hex_nibble b < 16.
Proof.
  revert b. assert (H : forall b, (negb (is_ascii_hexdigit b)
    || ((0 <=? hex_nibble b) && (hex_nibble b <? 16))) = true)
    by (apply forall_byte; vm_compute; reflexivity).
  intros b Hb. specialize (H b). rewrite Hb in H. simpl in H. apply andb_true_iff in H as [?%Z.leb_le ?%Z.ltb_lt].
  lia.
Qed.

Lemma hex_pair_value hi lo :
  is_ascii_hexdigit hi = true -> is_ascii_hexdigit lo = true ->
  b2z (hex_pair [hi; lo]) = hex_nibble hi * 16 + hex_nibble lo.
Proof.
  intros Hh%hex_nibble_range Hl%hex_nibble_range. unfold hex_pair.
  rewrite lor_shiftl_add by (simpl; lia). change (2 ^ 4) with 16. rewrite b2z_z2b by lia. done.
Qed.

Lemma hex_pairs_value cs :
  Forall (fun c => length c = 2%nat) cs -> Forall (fun b => is_ascii_hexdigit b = true) (mjoin cs) ->
  from_be (map hex_pair cs) = number 16 hex_nibble (mjoin cs) /\ length (mjoin cs) = (2 * length cs)%nat.
Proof.
  induction 1 as [|c cs Hc _ IH]; intros Hx; [done|].
  destruct c as [|hi [|lo [|]]]; try (simpl in Hc; lia). change (mjoin ([hi; lo] :: cs)) with (hi :: lo :: mjoin cs) in *.
  inversion_clear Hx as [|?? Hh Hx']. inversion_clear Hx' as [|?? Hl Hx]. destruct (IH Hx) as [Hv Hlen].
  split; [|cbn [Datatypes.length]; lia]. cbn [map from_be number]. rewrite Hv, hex_pair_value by done.
  rewrite length_map. cbn [Datatypes.length]. rewrite Hlen.
  rewrite Nat2Z.inj_succ, Z.pow_succ_r by lia.
  rewrite Nat2Z.inj_mul, (Z.pow_mul_r 16) by lia. change (16 ^ Z.of_nat 2) with 256.
  change (@Datatypes.length text cs) with (@Datatypes.length (list byte) cs). lia.
Qed.

(** ** Base 32 *)

Definition base32_digit (b : byte) : Z := default 0 (base32_value b).

Lemma base32_value_range b v : base32_value b = Some v -> 0 <= v < 32.
Proof.
  assert (H : forall b, (match base32_value b with Some v => (0 <=? v) && (v <? 32) | None => true end) = true)
    by (apply forall_byte; vm_compute; reflexivity).
  intros Hb. specialize (H b). rewrite Hb in H. apply andb_true_iff in H as [?%Z.leb_le ?%Z.ltb_lt]. lia.
Qed.

(** The bits read so far are the bytes written and the bits kept. *)
Lemma drain_value output buffer bits :
  0 <= bits <= 12 -> 0 <= buffer < 2 ^ bits ->
  exists output' buffer' bits', drain 2 output buffer bits = (output', buffer', bits')
    /\ 0 <= bits' < 8 /\ 0 <= buffer' < 2 ^ bits'
    /\ from_be output' * 2 ^ bits' + buffer' = from_be output * 2 ^ bits + buffer
    /\ 8 * Z.of_nat (length output') + bits' = 8 * Z.of_nat (length output) + bits.
Proof.
  intros Hb Hbuf. cbn [drain]. destruct (Z.leb_spec 8 bits) as [H8|H8]; cycle 1.
  { exists output, buffer, bits. split_and!; try done; lia. }
  destruct (Z.leb_spec 8 (bits - 8)); [lia|].
  rewrite Z.shiftl_1_l, land_ones_mod, Z.shiftr_div_pow2 by lia.
  change 255 with (2 ^ 8 - 1). rewrite land_ones_mod by lia.
  assert (Hpow : 2 ^ bits = 2 ^ 8 * 2 ^ (bits - 8)) by (rewrite <- Z.pow_add_r by lia; f_equal; lia).
  assert (Hdiv : 0 <= buffer / 2 ^ (bits - 8) < 2 ^ 8).
  { split; [apply Z.div_pos; lia|]. apply Z.div_lt_upper_bound; lia. }
  rewrite Z.mod_small by lia.
  eexists _, _, _. split; [reflexivity|]. split_and!; try lia.
  - apply Z.mod_pos_bound. lia.
  - apply Z.mod_pos_bound. lia.
  - rewrite from_be_snoc, b2z_z2b, Hpow by lia.
    pose proof (Z.div_mod buffer (2 ^ (bits - 8)) ltac:(lia)). nia.
  - rewrite length_app. simpl. lia.
Qed.

Lemma base32_loop_value input : forall output buffer bits,
  0 <= bits < 8 -> 0 <= buffer < 2 ^ bits ->
  if forallb (fun b => bool_decide (is_Some (base32_value b))) input then
    exists output' buffer' bits', 0 <= bits' < 8 /\ 0 <= buffer' < 2 ^ bits'
      /\ from_be output' * 2 ^ bits' + buffer'
         = (from_be output * 2 ^ bits + buffer) * 32 ^ Z.of_nat (length input) + number 32 base32_digit input
      /\ 8 * Z.of_nat (length output') + bits'
         = 8 * Z.of_nat (length output) + bits + 5 * Z.of_nat (length input)
      /\ base32_loop input output buffer bits
         = (if (0 <? bits') && negb (buffer' =? 0) then Err (ProxyError.Parse (str "non-zero base32 padding"))
            else Ok output')
  else base32_loop input output buffer bits = Err (ProxyError.Parse (str "invalid base32 btih")).
Proof.
  induction input as [|b input IH]; intros output buffer bits Hb Hbuf.
  { cbn. exists output, buffer, bits. split_and!; try done; lia. }
  cbn [forallb base32_loop number]. destruct (base32_value b) as [v|] eqn:Ev; cycle 1.
  { by rewrite bool_decide_false by (by intros []). }
  rewrite bool_decide_true by eauto. simpl andb.
  pose proof (base32_value_range b v Ev) as Hv.
  rewrite lor_shiftl_add by (simpl; lia). change (2 ^ 5) with 32.
  destruct (drain_value output (buffer * 32 + v) (bits + 5)) as (o & bu & bi & -> & Hbi & Hbu & Hval & Hlen);
    [lia|rewrite Z.pow_add_r by lia; change (2 ^ 5) with 32; nia|].
  specialize (IH o bu bi Hbi Hbu). destruct (forallb _ input); [|done].
  destruct IH as (o' & bu' & bi' & ? & ? & Hval' & Hlen' & E). exists o', bu', bi'.
  split_and!; try lia; [|cbn [Datatypes.length]; lia|done].
  rewrite Hval', Hval. cbn [Datatypes.length]. rewrite Nat2Z.inj_succ, Z.pow_succ_r, Z.pow_add_r by lia.
  unfold base32_digit at 2. rewrite Ev. simpl. change (2 ^ 5) with 32. lia.
Qed.

(** ** Claims *)

Module MagnetClaims.

(** The digits of a notation of an info hash, and the number they say. *)
Definition hash_number (value : text) : option Z :=
  if Nat.eqb (length value) 40 && forallb is_ascii_hexdigit value then Some (number 16 hex_nibble value)
  else if Nat.eqb (length value) 32 && forallb (fun b => bool_decide (is_Some (base32_value b))) value
  then Some (number 32 base32_digit value)
  else None.

(** An info hash is read as the number its digits say: the parser accepts
    exactly forty hexadecimal or thirty-two base-32 digits of either case, and
    the hash is the 20 big-endian bytes of their number. *)
Theorem info_hash_correct (value : text) :
  match parse_info_hash value with
  | Ok hash => length hash = 20%nat /\ hash_number value = Some (from_be hash)
  | Err _ => hash_number value = None
  end.
Proof.
  unfold parse_info_hash, hash_number.
  destruct (Nat.eqb_spec (length value) 40) as [H40|]; simpl andb.
  - rewrite H40. simpl Nat.eqb. destruct (forallb is_ascii_hexdigit value) eqn:Ex; [|done].
    destruct (chunks_exact_spec 2 value 20 ltac:(lia) H40) as (Hl & Hall & Hj).
    assert (Hx : Forall (fun b => is_ascii_hexdigit b = true) (mjoin (chunks_exact 2 value))).
    { rewrite Hj. apply Forall_forall. intros b Hb%list_elem_of_In. rewrite forallb_forall in Ex. auto. }
    destruct (hex_pairs_value _ Hall Hx) as [Hv _]. split; [by rewrite length_map|].
    by rewrite Hv, Hj.
  - destruct (Nat.eqb_spec (length value) 32) as [H32|]; simpl andb; [|done].
    unfold base32_decode. pose proof (base32_loop_value value [] 0 0 ltac:(lia) ltac:(simpl; lia)) as H.
    destruct (forallb _ value); [|by rewrite H].
    destruct H as (out & bu & bi & Hbi & Hbu & Hval & Hlen & ->). simpl in Hlen. rewrite H32 in Hlen.
    assert (bi = 0) as -> by lia. simpl in Hbu. assert (bu = 0) as -> by lia. cbn.
    assert (length out = 20%nat) as Hout by lia. rewrite Hout. simpl Nat.eqb. cbv iota. split; [done|].
    f_equal. simpl in Hval. lia.
Qed.

End MagnetClaims.
