(* ===== verification/PeerConnection.v ===== *)
(** * Connections to peers and downloads ([p2p_network.rs])

    A connection is the bytes the peer will send, in order, and the bytes sent
    to it.  A read that needs more bytes than will come ends the way the
    connection ends: with an error, with the timeout of the read, or with the
    deadline of the whole operation.  A loop that reads messages is given one
    unit of fuel per byte that can still come, and each message has four. *)

From Stdlib Require Import Strings.Byte Strings.String.
From S2P Require Import Prelude Bytes Error FileSystem External NetworkPolicy PeerWire TorrentMeta TorrentExtension TorrentStore Scheduler Trackers.

(** ** Streams *)

Inductive ending : Type :=
| Closed (error : text)
| ReadTimeout
| Deadline.

Record PeerStream : Type := mk_PeerStream {
  incoming : text;
  ends : ending;
  writes : list (outcome unit);      (* how the next writes end; then they succeed *)
  sent : text;
  stalled : bool;                    (* a read has waited in vain *)
}.

Abbreviation Conn := (io PeerStream ProxyError.t).

(** [write_all] under a timeout. *)
Definition write_all (what : text) (bytes : text) : Conn unit := fun c =>
  let c' o := mk_PeerStream (incoming c) (ends c) (List.tl (writes c)) o (stalled c) in
  match List.hd (Arrives tt) (writes c) with
  | Arrives _ => (Ok tt, c' (sent c ++ bytes))
  | Fails error => (Err (ProxyError.Network (what ++ str " failed: " ++ error)), c' (sent c))
  | TimesOut => (Err (ProxyError.Network (what ++ str " timed out")), c' (sent c))
  end.

(** [read_exact] under a timeout; what came before the end is lost. *)
Definition read_exact (what : text) (n : nat) : Conn text := fun c =>
  if Nat.leb n (length (incoming c)) then
    (Ok (take n (incoming c)), mk_PeerStream (drop n (incoming c)) (ends c) (writes c) (sent c) (stalled c))
  else
    (Err (ProxyError.Network
            (match ends c with
             | Closed error => what ++ str " failed: " ++ error
             | _ => what ++ str " timed out"
             end)),
     mk_PeerStream [] (ends c) (writes c) (sent c) true).

(** [tokio::time::timeout(.., operation)] around several reads: the deadline
    passes where the operation would wait for bytes that do not come. *)
Definition with_deadline {A} (timed_out : text) (m : Conn A) : Conn A := fun c =>
  match m c with
  | (Err e, c') =>
      match ends c', stalled c' with
      | Deadline, true => (Err (ProxyError.Network timed_out), c')
      | _, _ => (Err e, c')
      end
  | ok => ok
  end.

(** ** Messages *)

Definition send (m : PeerMessage.t) : Conn unit :=
  encoded ← lift (encode_peer_message m);
  write_all (str "peer message send") encoded.

Definition receive : Conn PeerMessage.t :=
  prefix ← read_exact (str "peer message receive") 4;
  let length := from_be prefix in
  if MAX_PEER_MESSAGE_BYTES <? length
  then throw (ProxyError.Request (str "peer message is too large"))
  else
    body ← read_exact (str "peer message body") (Z.to_nat length);
    lift (parse_peer_message (prefix ++ body)).

(** A [loop] over [receive] whose match skips a message, breaks with a value
    or returns an error. *)
Inductive reaction (A : Type) : Type :=
| Skip
| Break (a : A)
| Refuse (e : ProxyError.t).
Arguments Skip {A}.
Arguments Break {A} a.
Arguments Refuse {A} e.

Fixpoint receive_until {A} (fuel : nat) (react : PeerMessage.t -> reaction A) : Conn A :=
  match fuel with
  | O => throw (ProxyError.Network [])
  | S fuel' =>
      m ← receive;
      match react m with
      | Skip => receive_until fuel' react
      | Break a => mret a
      | Refuse e => throw e
      end
  end.
Definition receive_loop {A} (react : PeerMessage.t -> reaction A) : Conn A := fun c =>
  receive_until (S (length (incoming c))) react c.

(** [PeerConnection::connect], once a TCP connection is there: [dial] is how
    dialling ends, [nodelay] how [set_nodelay] ends. *)
Definition connect (target : SocketAddr) (local : BitTorrentHandshake) (dial : outcome PeerStream)
    (nodelay : outcome unit) : Result (PeerStream * BitTorrentHandshake) :=
  if negb (is_public_socket target)
  then Err (ProxyError.Request (str "peer target must be a public address"))
  else
    match dial with
    | TimesOut => Err (ProxyError.Network (str "peer connection timed out"))
    | Fails error => Err (ProxyError.Network (str "peer connection failed: " ++ error))
    | Arrives stream =>
        match nodelay with
        | Fails error => Err (ProxyError.Network (str "peer TCP setup failed: " ++ error))
        | _ =>
            match (_ ← write_all (str "peer handshake send") (encode_handshake local);
                   response ← read_exact (str "peer handshake receive") 68;
                   lift (parse_handshake response)) stream with
            | (Err e, _) => Err e
            | (Ok remote, stream) =>
                if negb (bool_decide (hs_info_hash remote = hs_info_hash local))
                then Err (ProxyError.Request (str "peer handshake info hash mismatch"))
                else Ok (stream, remote)
            end
        end
    end.

(** ** Blocks and pieces *)

Definition until_unchoke (m : PeerMessage.t) : reaction unit :=
  match m with
  | PeerMessage.Unchoke => Break tt
  | PeerMessage.Choke | PeerMessage.KeepAlive | PeerMessage.Have _ | PeerMessage.Bitfield _ => Skip
  | _ => Refuse (ProxyError.Request (str "unexpected peer message before unchoke"))
  end.

Definition until_block (index begin length : Z) (m : PeerMessage.t) : reaction text :=
  match m with
  | PeerMessage.Piece received_index received_begin block =>
      if negb (received_index =? index) || negb (received_begin =? begin)
         || negb (Z.of_nat (List.length block) =? length)
      then Refuse (ProxyError.Request (str "peer returned mismatched block"))
      else Break block
  | PeerMessage.Choke => Refuse (ProxyError.Request (str "peer choked block request"))
  | PeerMessage.KeepAlive | PeerMessage.Have _ => Skip
  | _ => Refuse (ProxyError.Request (str "unexpected peer message during block request"))
  end.

Definition download_block (index begin length : Z) : Conn text :=
  _ ← lift (validate_block_request begin length);
  with_deadline (str "peer block request timed out")
    (_ ← send PeerMessage.Interested;
     _ ← receive_loop until_unchoke;
     _ ← send (PeerMessage.Request index begin length);
     receive_loop (until_block index begin length)).

(** [while begin < piece_length { .. }]; each round asks for a block of at
    least one byte, so that the fuel of a round per byte is enough. *)
Fixpoint download_blocks (fuel : nat) (index piece_length begin : Z) (piece : text) : Conn text :=
  if begin <? piece_length then
    match fuel with
    | O => throw (ProxyError.Request [])
    | S fuel' =>
        let length := Z.min (piece_length - begin) MAX_REQUEST_BLOCK_BYTES in
        block ← download_block index begin length;
        if u32_max <? begin + length then throw (ProxyError.Request (str "piece offset overflow"))
        else download_blocks fuel' index piece_length (begin + length) (piece ++ block)
    end
  else mret piece.

Section Sha.
Context {SHA : Sha1}.

Definition download_piece (index piece_length : Z) (expected_sha1 : text) : Conn text :=
  if (piece_length =? 0) || (MAX_PIECE <? piece_length)
  then throw (ProxyError.Request (str "invalid BitTorrent piece length"))
  else
    piece ← download_blocks (Z.to_nat piece_length) index piece_length 0 [];
    _ ← lift (verify_piece_sha1 piece expected_sha1);
    mret piece.

(** ** Metadata *)

Definition until_extended_handshake (m : PeerMessage.t) : reaction ExtendedHandshake :=
  match m with
  | PeerMessage.Extended extension_id payload =>
      if bool_decide (extension_id = z2b 0) then
        match parse_extended_handshake payload with Ok h => Break h | Err e => Refuse e end
      else Refuse (ProxyError.Request (str "peer did not provide extended handshake"))
  | PeerMessage.KeepAlive | PeerMessage.Have _ | PeerMessage.Bitfield _ => Skip
  | _ => Refuse (ProxyError.Request (str "peer did not provide extended handshake"))
  end.

Definition until_metadata (id : byte) (a : MetadataAssembler) (m : PeerMessage.t) : reaction MetadataAssembler :=
  match m with
  | PeerMessage.Extended extension_id payload =>
      if bool_decide (extension_id = id) then
        match parse_ut_metadata_response payload with
        | Err e => Refuse e
        | Ok (MetadataExtensionResponse.Reject _) =>
            Refuse (ProxyError.Request (str "peer rejected metadata piece"))
        | Ok response =>
            match assembler_insert a response with Ok (_, a) => Break a | Err e => Refuse e end
        end
      else Refuse (ProxyError.Request (str "unexpected message during metadata exchange"))
  | PeerMessage.KeepAlive | PeerMessage.Have _ => Skip
  | _ => Refuse (ProxyError.Request (str "unexpected message during metadata exchange"))
  end.

Fixpoint request_metadata (id : byte) (pieces : list nat) (a : MetadataAssembler) : Conn MetadataAssembler :=
  match pieces with
  | [] => mret a
  | piece :: pieces' =>
      request ← lift (encode_ut_metadata_request id (Z.of_nat piece));
      _ ← send request;
      a ← receive_loop (until_metadata id a);
      request_metadata id pieces' a
  end.

Definition download_metadata (expected_info_hash : text) : Conn text :=
  with_deadline (str "metadata exchange timed out")
    (_ ← send encode_extended_handshake;
     remote ← receive_loop until_extended_handshake;
     a ← lift (assembler_new expected_info_hash (metadata_size remote));
     a ← request_metadata (ut_metadata_id remote)
           (seq 0 (Z.to_nat (div_ceil (metadata_size remote) METADATA_BLOCK))) a;
     lift (assembler_finish a)).

Definition download_torrent_metadata (expected_info_hash : text) : Conn TorrentMetadata :=
  raw_info ← download_metadata expected_info_hash;
  m ← lift (parse_info_metadata raw_info);
  if negb (bool_decide (info_hash m = expected_info_hash))
  then throw (ProxyError.Request (str "downloaded torrent metadata InfoHash mismatch"))
  else mret m.

(** ** Downloading pieces into the store *)

(** What a download works on. *)
Record Download : Type := mk_Download {
  dl_stream : PeerStream;
  dl_scheduler : PieceScheduler;
  dl_fs : fs;
}.
Abbreviation Dl := (io Download ProxyError.t).

Definition on_stream {A} (m : Conn A) : Dl A := fun d =>
  let '(r, c) := m (dl_stream d) in (r, mk_Download c (dl_scheduler d) (dl_fs d)).
Definition on_scheduler {A} (m : Sched A) : Dl A := fun d =>
  let '(r, s) := m (dl_scheduler d) in (r, mk_Download (dl_stream d) s (dl_fs d)).
Definition on_store {A} (m : Store A) : Dl A := fun d =>
  let '(r, s) := m (dl_fs d) in (r, mk_Download (dl_stream d) (dl_scheduler d) s).

(** The inner [async] block: fetch the piece unless the store has it. *)
Definition fetch_piece (m : TorrentMetadata) (store : TorrentPieceStore) (index : nat) : Dl unit :=
  len ← lift (torrent_piece_length m (Z.of_nat index));
  expected ← lift (ok_or (piece_sha1 m !! index) (ProxyError.Request (str "piece hash index out of range")));
  loaded ← on_store (load_piece store (Z.of_nat index) expected);
  match loaded with
  | Some _ => mret tt
  | None =>
      bytes ← on_stream (download_piece (Z.of_nat index) len expected);
      on_store (store_piece store (Z.of_nat index) bytes expected)
  end.

Definition download_next_piece (peer_bitfield : text) (m : TorrentMetadata) (store : TorrentPieceStore) :
    Dl (option nat) :=
  claimed ← on_scheduler (claim_next peer_bitfield);
  match claimed with
  | None => mret None
  | Some index =>
      result ← attempt (fetch_piece m store index);
      match result with
      | Ok _ => _ ← on_scheduler (complete (Z.of_nat index)); mret (Some index)
      | Err error => _ ← on_scheduler (fail (Z.of_nat index)); throw error
      end
  end.

Definition until_bitfield (m : PeerMessage.t) : reaction text :=
  match m with
  | PeerMessage.Bitfield bitfield => Break bitfield
  | PeerMessage.KeepAlive | PeerMessage.Have _ | PeerMessage.Choke => Skip
  | _ => Refuse (ProxyError.Request (str "peer did not provide a bitfield"))
  end.

(** [while downloaded < max_pieces { .. }]. *)
Fixpoint download_pieces (todo : nat) (bitfield : text) (m : TorrentMetadata) (store : TorrentPieceStore) :
    Dl nat :=
  match todo with
  | O => mret 0%nat
  | S todo' =>
      r ← download_next_piece bitfield m store;
      match r with
      | None => mret 0%nat
      | Some _ => n ← download_pieces todo' bitfield m store; mret (S n)
      end
  end.

(** [download_from_peer] on the connection that [connect] made. *)
Definition download_from_peer (m : TorrentMetadata) (store : TorrentPieceStore) (max_pieces : Z) : Dl nat :=
  if (max_pieces =? 0) || (10000 <? max_pieces)
  then throw (ProxyError.Request (str "invalid peer download limit"))
  else
    bitfield ← on_stream (with_deadline (str "peer bitfield timed out") (receive_loop until_bitfield));
    _ ← on_scheduler (observe_bitfield bitfield);
    download_pieces (Z.to_nat max_pieces) bitfield m store.

(** ** Uploading *)

Record Upload : Type := mk_Upload {
  ul_stream : PeerStream;
  ul_session : UploadSession;
  ul_fs : fs;
}.
Abbreviation Ul := (io Upload ProxyError.t).

Definition ul_on_stream {A} (m : Conn A) : Ul A := fun u =>
  let '(r, c) := m (ul_stream u) in (r, mk_Upload c (ul_session u) (ul_fs u)).
Definition ul_serve (m : TorrentMetadata) (store : TorrentPieceStore) (index begin len : Z) : Ul text := fun u =>
  match serve_block (ul_session u) m store index begin len (ul_fs u) with
  | (Ok (block, session), s) => (Ok block, mk_Upload (ul_stream u) session s)
  | (Err e, s) => (Err e, mk_Upload (ul_stream u) (ul_session u) s)
  end.

(** [while served < max_requests { .. }]; a message that is not a request is
    read without being counted, so that the fuel bounds the messages. *)
Fixpoint serve_loop (fuel todo : nat) (m : TorrentMetadata) (store : TorrentPieceStore) : Ul nat :=
  match todo with
  | O => mret 0%nat
  | S todo' =>
      match fuel with
      | O => throw (ProxyError.Network [])
      | S fuel' =>
          message ← ul_on_stream receive;
          match message with
          | PeerMessage.Request index begin len =>
              block ← ul_serve m store index begin len;
              _ ← ul_on_stream (send (PeerMessage.Piece index begin block));
              n ← serve_loop fuel' todo' m store;
              mret (S n)
          | PeerMessage.Cancel _ _ _ | PeerMessage.KeepAlive | PeerMessage.Interested =>
              serve_loop fuel' todo m store
          | PeerMessage.NotInterested => mret 0%nat
          | _ => throw (ProxyError.Request (str "unexpected message during upload session"))
          end
      end
  end.

Definition serve_upload_requests (m : TorrentMetadata) (store : TorrentPieceStore) (max_requests : Z) : Ul nat :=
  if (max_requests =? 0) || (100000 <? max_requests)
  then throw (ProxyError.Request (str "invalid upload request limit"))
  else
    _ ← ul_on_stream (send PeerMessage.Unchoke);
    u ← get;
    serve_loop (S (List.length (incoming (ul_stream u)))) (Z.to_nat max_requests) m store.

End Sha.
