(* ===== verification/PeerConnectionTheorems.v ===== *)
(** * Connections to peers: what a download gives *)

From Stdlib Require Import Strings.Byte Strings.String.
From S2P Require Import Prelude Bytes Error FileSystem External NetworkPolicy PeerWire TorrentMeta TorrentMetaTheorems TorrentExtension TorrentStore Scheduler SchedulerTheorems Trackers PeerConnection.

(** ** Frames *)

Definition wire_ok (m : PeerMessage.t) : Prop := fits m /\ exists b, encode_peer_message m = Ok b.
Definition frame (m : PeerMessage.t) : text :=
  match encode_peer_message m with Ok b => b | Err _ => [] end.
Definition frames (ms : list PeerMessage.t) : text := mjoin (map frame ms).

Lemma frames_cons m ms : frames (m :: ms) = frame m ++ frames ms.
Proof. done. Qed.
Lemma frames_app ms1 ms2 : frames (ms1 ++ ms2) = frames ms1 ++ frames ms2.
Proof. unfold frames. by rewrite map_app, (join_app (A := byte)). Qed.

Lemma frame_shape m :
  wire_ok m -> exists p, frame m = be_bytes 4 (Z.of_nat (length p)) ++ p
    /\ Z.of_nat (length p) <= MAX_PEER_MESSAGE_BYTES /\ parse_peer_message (frame m) = Ok m.
Proof.
  intros [Hf [b Hb]]. destruct (encode_ok_inv m b Hf Hb) as (p & -> & Hp & Hlen).
  exists p. unfold frame. rewrite Hb. split_and!; [done|done|].
  rewrite parse_frame by done. by apply parse_encode_payload.
Qed.

Lemma frame_length m : wire_ok m -> (4 <= length (frame m))%nat.
Proof. intros (p & -> & _ & _)%frame_shape. rewrite length_app, length_be_bytes. lia. Qed.

Lemma frames_length ms : Forall wire_ok ms -> (4 * length ms <= length (frames ms))%nat.
Proof.
  induction 1 as [|m ms Hm _ IH]; [done|]. rewrite frames_cons, length_app.
  apply frame_length in Hm. cbn [Datatypes.length]. lia.
Qed.

Definition set_incoming (s : text) (c : PeerStream) : PeerStream :=
  mk_PeerStream s (ends c) (writes c) (sent c) (stalled c).

Lemma set_incoming_eq c : set_incoming (incoming c) c = c.
Proof. by destruct c. Qed.

(** ** Reading messages *)

Local Arguments be_bytes : simpl never.
Local Arguments Z.mul : simpl never.

Lemma read_exact_ok what n s t c :
  incoming c = s ++ t -> length s = n -> read_exact what n c = (Ok s, set_incoming t c).
Proof.
  intros Hi <-. unfold read_exact. rewrite Hi, length_app.
  destruct (Nat.leb_spec (length s) (length s + length t)); [|lia].
  by rewrite take_app_length, drop_app_length.
Qed.

Lemma receive_frame m rest c :
  wire_ok m -> incoming c = frame m ++ rest -> receive c = (Ok m, set_incoming rest c).
Proof.
  intros (p & Hf & Hlen & Hp)%frame_shape Hi. rewrite Hf, <- app_assoc in Hi. unfold receive.
  rewrite (io_bind_Ok _ _ _ _ _ (read_exact_ok _ 4 _ _ c Hi (length_be_bytes 4 _))).
  rewrite from_be_bytes_small by (unfold MAX_PEER_MESSAGE_BYTES in Hlen; simpl; lia). cbv zeta.
  destruct (Z.ltb_spec MAX_PEER_MESSAGE_BYTES (Z.of_nat (length p))); [lia|].
  rewrite (io_bind_Ok _ _ _ p (set_incoming rest c)).
  - unfold lift. by rewrite <- Hf, Hp.
  - by rewrite (read_exact_ok _ _ p rest) by (simpl; done || lia).
Qed.

Lemma receive_stalled c : incoming c = [] -> exists e c', receive c = (Err e, c').
Proof.
  intros Hi. unfold receive, read_exact, mbind, io_bind. rewrite Hi. simpl. eauto.
Qed.

Section Loop.
Context {A : Type} (react : PeerMessage.t -> reaction A).

(** The first message that is not skipped decides. *)
Lemma receive_until_break pre m a post rest : forall fuel c,
  Forall wire_ok (pre ++ [m]) -> Forall (fun x => react x = Skip) pre -> react m = Break a ->
  incoming c = frames (pre ++ m :: post) ++ rest -> (length pre < fuel)%nat ->
  receive_until fuel react c = (Ok a, set_incoming (frames post ++ rest) c).
Proof.
  induction pre as [|x pre IH]; intros fuel c Hw Hs Hm Hi Hf; (destruct fuel as [|fuel]; [simpl in Hf; lia|]);
    cbn [receive_until app] in *; rewrite frames_cons, <- app_assoc in Hi; inversion_clear Hw as [|?? Hx Hw'].
  - rewrite (io_bind_Ok _ _ _ _ _ (receive_frame m _ c Hx Hi)), Hm. done.
  - inversion_clear Hs as [|?? Hxs Hs'].
    rewrite (io_bind_Ok _ _ _ _ _ (receive_frame x _ c Hx Hi)), Hxs.
    rewrite IH by (done || simpl in Hf; lia). done.
Qed.

Lemma receive_loop_break pre m a post rest c :
  Forall wire_ok (pre ++ [m]) -> Forall (fun x => react x = Skip) pre -> react m = Break a ->
  incoming c = frames (pre ++ m :: post) ++ rest ->
  receive_loop react c = (Ok a, set_incoming (frames post ++ rest) c).
Proof.
  intros Hw Hs Hm Hi. apply (receive_until_break pre m a post rest); try done.
  rewrite Hi, frames_app, !length_app. apply Forall_app in Hw as [Hw _].
  pose proof (frames_length pre Hw). lia.
Qed.

(** A loop that breaks has read the messages up to the one that broke it. *)
Lemma receive_until_inv ms : forall fuel c a c',
  Forall wire_ok ms -> incoming c = frames ms -> receive_until fuel react c = (Ok a, c') ->
  exists pre m post, ms = pre ++ m :: post /\ react m = Break a /\ incoming c' = frames post.
Proof.
  induction ms as [|x ms IH]; intros [|fuel] c a c' Hw Hi; cbn [receive_until]; try done.
  - destruct (receive_stalled c Hi) as (e & c1 & E). by rewrite (io_bind_Err _ _ _ _ _ E).
  - inversion_clear Hw as [|?? Hx Hw']. rewrite frames_cons in Hi.
    rewrite (io_bind_Ok _ _ _ _ _ (receive_frame x _ c Hx Hi)).
    destruct (react x) as [|b|e] eqn:Er; [|intros [= <- <-]; by exists [], x, ms|done].
    intros (pre & m & post & -> & Hm & Hc)%IH; [|done|done]. by exists (x :: pre), m, post.
Qed.
End Loop.

(** ** Sending *)

Lemma send_ok m c :
  wire_ok m -> writes c = [] ->
  send m c = (Ok tt, mk_PeerStream (incoming c) (ends c) [] (sent c ++ frame m) (stalled c)).
Proof.
  intros [_ [b Hb]] Hw. unfold send. rewrite (io_bind_Ok _ _ c b c) by (unfold lift; by rewrite Hb).
  unfold write_all, frame. by rewrite Hw, Hb.
Qed.
Lemma send_incoming m c r c' : send m c = (r, c') -> incoming c' = incoming c.
Proof.
  unfold send, write_all, lift, mbind, io_bind. destruct (encode_peer_message m); [|by intros [= <- <-]].
  by destruct (List.hd _ _); intros [= <- <-].
Qed.

(** A message of fixed size is always encoded. *)
Lemma small_wire_ok m p :
  fits m -> encode_payload m = Ok p -> Z.of_nat (length p) <= MAX_PEER_MESSAGE_BYTES -> wire_ok m.
Proof. intros Hf Hp Hlen. split; [done|]. eexists. by apply encode_frame. Qed.
Lemma interested_ok : wire_ok PeerMessage.Interested.
Proof. by eapply small_wire_ok. Qed.
Lemma unchoke_ok : wire_ok PeerMessage.Unchoke.
Proof. by eapply small_wire_ok. Qed.
Lemma request_ok index begin len :
  is_u32 index -> is_u32 begin -> is_u32 len -> wire_ok (PeerMessage.Request index begin len).
Proof.
  intros. eapply small_wire_ok; [done|done|].
  rewrite length_cons, !length_app, !length_be_bytes. unfold MAX_PEER_MESSAGE_BYTES. lia.
Qed.
Lemma piece_ok index begin block :
  is_u32 index -> is_u32 begin -> Z.of_nat (length block) <= MAX_REQUEST_BLOCK_BYTES ->
  wire_ok (PeerMessage.Piece index begin block).
Proof.
  unfold MAX_REQUEST_BLOCK_BYTES. intros Hi Hb Hl. eapply small_wire_ok; [done| |].
  - cbn [encode_payload]. rewrite (proj2 (too_long_false _ _)); [done|unfold MAX_PEER_MESSAGE_BYTES; lia].
  - rewrite length_cons, !length_app, !length_be_bytes. unfold MAX_PEER_MESSAGE_BYTES. lia.
Qed.

Lemma with_deadline_Ok {A} t (m : Conn A) c a c' : with_deadline t m c = (Ok a, c') <-> m c = (Ok a, c').
Proof.
  unfold with_deadline. destruct (m c) as [[b|e] c1]; [done|]. destruct (ends c1), (stalled c1); done.
Qed.

(** ** Blocks *)

(** A block that is returned has the length that was asked for, whatever the
    peer sends. *)
Lemma receive_until_break_only {A} (react : PeerMessage.t -> reaction A) (P : A -> Prop) :
  (forall m a, react m = Break a -> P a) -> forall fuel c a c', receive_until fuel react c = (Ok a, c') -> P a.
Proof.
  intros HP. induction fuel as [|fuel IH]; intros c a c'; cbn [receive_until]; [done|].
  intros H. apply io_bind_inv in H as [(m & c1 & _ & H)|(e & _ & ?)]; [|done].
  destruct (react m) as [|b|e] eqn:Er; [by eapply IH| |done]. injection H as <- _. by eapply HP.
Qed.

Lemma until_block_Break index begin len m block :
  until_block index begin len m = Break block -> m = PeerMessage.Piece index begin block
    /\ Z.of_nat (length block) = len.
Proof.
  destruct m; try done. cbn [until_block].
  destruct (Z.eqb_spec index0 index) as [->|]; [|done]. destruct (Z.eqb_spec begin0 begin) as [->|]; [|done].
  destruct (Z.eqb_spec (Z.of_nat (length block0)) len); [|done]. by intros [= <-].
Qed.

Lemma download_block_length index begin len c b c' :
  download_block index begin len c = (Ok b, c') ->
  Z.of_nat (length b) = len /\ validate_block_request begin len = Ok tt.
Proof.
  unfold download_block. intros H.
  apply io_bind_inv in H as [([] & c0 & [Ev%symmetry ->]%lift_cases & H)|(? & _ & ?)]; [|done].
  split; [|done]. apply with_deadline_Ok in H. do 3 (apply io_bind_inv in H as [(? & ? & _ & H)|(? & _ & ?)]; [|done]).
  unfold receive_loop in H. revert H. apply (receive_until_break_only _ (fun b => Z.of_nat (length b) = len)).
  intros m a Hm. by apply until_block_Break in Hm as [_ ?].
Qed.

Lemma download_blocks_length fuel : forall index n begin piece c p c',
  Z.of_nat (length piece) = begin -> begin <= n ->
  download_blocks fuel index n begin piece c = (Ok p, c') -> Z.of_nat (length p) = n.
Proof.
  induction fuel as [|fuel IH]; intros index n begin piece c p c' Hl Hle; cbn [download_blocks];
    destruct (Z.ltb_spec begin n); try (intros [= <- _]; lia).
  cbv zeta. intros H0. apply io_bind_inv in H0 as [(b & c1 & Hb & H0)|(? & _ & ?)]; [|done].
  apply download_block_length in Hb as [Hb _]. case_match; [done|].
  apply IH in H0; [done|rewrite length_app; lia|lia].
Qed.

(** The messages of a peer that serves block [begin] of [index]: anything that
    is skipped, an unchoke, anything that is skipped, and the block. *)
Record noise : Type := mk_noise { before_unchoke : list PeerMessage.t; before_block : list PeerMessage.t }.
Definition noise_ok (n : noise) : Prop :=
  Forall wire_ok (before_unchoke n) /\ Forall (fun m => until_unchoke m = Skip) (before_unchoke n)
  /\ Forall wire_ok (before_block n)
  /\ Forall (fun m => until_block 0 0 0 m = Skip) (before_block n).
Definition answer (index begin : Z) (block : text) (n : noise) : list PeerMessage.t :=
  before_unchoke n ++ PeerMessage.Unchoke :: before_block n ++ [PeerMessage.Piece index begin block].
Definition question (index begin len : Z) : text :=
  frame PeerMessage.Interested ++ frame (PeerMessage.Request index begin len).

(** What is skipped does not depend on the block. *)
Lemma until_block_Skip index begin len m : until_block 0 0 0 m = Skip -> until_block index begin len m = Skip.
Proof. destruct m; try done. cbn. by case_match. Qed.

Lemma download_block_answered index begin block n rest c :
  is_u32 index -> 0 <= begin -> 0 < Z.of_nat (length block) <= MAX_REQUEST_BLOCK_BYTES ->
  begin + Z.of_nat (length block) <= u32_max -> noise_ok n -> writes c = [] ->
  incoming c = frames (answer index begin block n) ++ rest ->
  download_block index begin (Z.of_nat (length block)) c
  = (Ok block, mk_PeerStream rest (ends c) [] (sent c ++ question index begin (Z.of_nat (length block))) (stalled c)).
Proof.
  intros Hi Hb Hlen Hsum (Hw1 & Hs1 & Hw2 & Hs2) Hwr Hin. unfold download_block.
  assert (Hlen' : is_u32 (Z.of_nat (length block))) by (unfold MAX_REQUEST_BLOCK_BYTES, is_u32, u32_max in *; lia).
  assert (Hb' : is_u32 begin) by (unfold is_u32, u32_max in *; lia).
  rewrite (io_bind_Ok _ _ c tt c); cycle 1.
  { unfold lift, validate_block_request. destruct (Z.eqb_spec (Z.of_nat (length block)) 0); [lia|].
    destruct (Z.ltb_spec MAX_REQUEST_BLOCK_BYTES (Z.of_nat (length block))); [lia|].
    by destruct (Z.ltb_spec u32_max (begin + Z.of_nat (length block))); [lia|]. }
  apply with_deadline_Ok. rewrite (io_bind_Ok _ _ _ _ _ (send_ok _ _ interested_ok Hwr)).
  erewrite io_bind_Ok; cycle 1.
  { apply (receive_loop_break _ (before_unchoke n) PeerMessage.Unchoke tt); [| |done|exact Hin]; [|done].
    apply Forall_app. split; [done|]. repeat constructor; apply unchoke_ok. }
  erewrite io_bind_Ok by (apply send_ok; [by apply request_ok|done]).
  erewrite (receive_loop_break _ (before_block n) (PeerMessage.Piece index begin block) block []).
  - unfold set_incoming, question. simpl. by rewrite <- app_assoc.
  - apply Forall_app. split; [done|]. constructor; [|constructor]. apply piece_ok; [done|done|lia].
  - eapply Forall_impl; [exact Hs2|]. intros m. apply until_block_Skip.
  - cbn. by rewrite !Z.eqb_refl.
  - reflexivity.
Qed.

(** ** Pieces *)

Definition block_bytes : nat := Z.to_nat MAX_REQUEST_BLOCK_BYTES.

(** The messages that serve the rest [p] of a piece from [begin] on, block by
    block, one [noise] per block. *)
Fixpoint answers (index begin : Z) (p : text) (ns : list noise) : list PeerMessage.t :=
  match ns with
  | [] => []
  | n :: ns' =>
      answer index begin (take block_bytes p) n
      ++ answers index (begin + Z.of_nat (length (take block_bytes p))) (drop block_bytes p) ns'
  end.
Fixpoint questions (index begin : Z) (p : text) (ns : list noise) : text :=
  match ns with
  | [] => []
  | _ :: ns' =>
      question index begin (Z.of_nat (length (take block_bytes p)))
      ++ questions index (begin + Z.of_nat (length (take block_bytes p))) (drop block_bytes p) ns'
  end.
(** There are as many answers as the piece has blocks. *)
Fixpoint covers (p : text) (ns : list noise) : Prop :=
  match ns with
  | [] => p = []
  | _ :: ns' => p <> [] /\ covers (drop block_bytes p) ns'
  end.

Lemma download_blocks_answered index n rest ns : forall fuel begin p piece c,
  is_u32 index -> 0 <= begin -> begin + Z.of_nat (length p) = n -> n <= u32_max -> (length p <= fuel)%nat ->
  covers p ns -> Forall noise_ok ns -> writes c = [] ->
  incoming c = frames (answers index begin p ns) ++ rest ->
  download_blocks fuel index n begin piece c
  = (Ok (piece ++ p), mk_PeerStream rest (ends c) [] (sent c ++ questions index begin p ns) (stalled c)).
Proof.
  induction ns as [|x ns IH]; intros fuel begin p piece c Hi Hb Hn Hmax Hf Hcov Hns Hwr Hin;
    cbn [covers answers questions] in *.
  - subst p. rewrite !app_nil_r. simpl in Hn.
    destruct fuel; cbn [download_blocks]; (destruct (Z.ltb_spec begin n); [lia|]);
      destruct c; simpl in *; by subst.
  - destruct Hcov as [Hne Hcov]. inversion_clear Hns as [|?? Hx Hns'].
    assert (Hpos : (0 < length p)%nat) by (destruct p; [done|simpl; lia]).
    assert (HB : Z.of_nat block_bytes = MAX_REQUEST_BLOCK_BYTES)
      by (unfold block_bytes; rewrite Z2Nat.id; done).
    assert (HBpos : 0 < MAX_REQUEST_BLOCK_BYTES) by done.
    assert (Hlen : Z.of_nat (length (take block_bytes p)) = Z.min (n - begin) MAX_REQUEST_BLOCK_BYTES)
      by (rewrite length_take; lia).
    destruct fuel as [|fuel]; [lia|]. cbn [download_blocks].
    destruct (Z.ltb_spec begin n); [|lia]. cbv zeta. rewrite <- Hlen.
    rewrite frames_app, <- app_assoc in Hin.
    erewrite io_bind_Ok by (eapply (download_block_answered index begin _ x); try done; lia).
    destruct (Z.ltb_spec u32_max (begin + Z.of_nat (length (take block_bytes p)))); [lia|].
    rewrite (IH fuel _ (drop block_bytes p)); try done; rewrite ?length_drop; try lia.
    simpl. by rewrite <- !app_assoc, take_drop.
Qed.

(** ** Unchokes *)

Definition unchokes (ms : list PeerMessage.t) : Z :=
  Z.of_nat (length (List.filter (fun m => match m with PeerMessage.Unchoke => true | _ => false end) ms)).

Lemma unchokes_app ms1 ms2 : unchokes (ms1 ++ ms2) = unchokes ms1 + unchokes ms2.
Proof. unfold unchokes. rewrite List.filter_app, length_app. lia. Qed.
Lemma unchokes_nonneg ms : 0 <= unchokes ms.
Proof. unfold unchokes. lia. Qed.

Lemma until_unchoke_Break m a : until_unchoke m = Break a -> m = PeerMessage.Unchoke.
Proof. by destruct m. Qed.

(** A block takes an unchoke out of the messages. *)
Lemma download_block_unchoke index begin len c b c' ms :
  Forall wire_ok ms -> incoming c = frames ms -> download_block index begin len c = (Ok b, c') ->
  exists post, incoming c' = frames post /\ Forall wire_ok post /\ unchokes post + 1 <= unchokes ms.
Proof.
  intros Hw Hi. unfold download_block. intros H.
  apply io_bind_inv in H as [([] & c0 & [_ ->]%lift_cases & H)|(? & _ & ?)]; [|done].
  apply with_deadline_Ok in H.
  apply io_bind_inv in H as [(? & c1 & E1%send_incoming & H)|(? & _ & ?)]; [|done]. rewrite Hi in E1.
  apply io_bind_inv in H as [(? & c2 & E2 & H)|(? & _ & ?)]; [|done].
  unfold receive_loop in E2.
  apply (receive_until_inv _ ms) in E2 as (pre & m & post & -> & Hm%until_unchoke_Break & Hc2); [|done|done]. subst m.
  apply io_bind_inv in H as [(? & c3 & E3%send_incoming & H)|(? & _ & ?)]; [|done]. rewrite Hc2 in E3.
  apply Forall_app in Hw as [_ Hw]. inversion_clear Hw as [|?? _ Hpost].
  unfold receive_loop in H.
  apply (receive_until_inv _ post) in H as (pre2 & m2 & post2 & -> & _ & Hc'); [|done|done].
  exists post2. split; [done|]. apply Forall_app in Hpost as [_ Hpost]. inversion_clear Hpost.
  split; [done|]. rewrite !unchokes_app. change (PeerMessage.Unchoke :: ?l) with ([PeerMessage.Unchoke] ++ l).
  change (m2 :: post2) with ([m2] ++ post2). rewrite !unchokes_app. change (unchokes [PeerMessage.Unchoke]) with 1.
  pose proof (unchokes_nonneg pre). pose proof (unchokes_nonneg pre2). pose proof (unchokes_nonneg [m2]). lia.
Qed.

Lemma download_blocks_unchokes fuel : forall index n begin piece c p c' ms,
  Forall wire_ok ms -> incoming c = frames ms ->
  download_blocks fuel index n begin piece c = (Ok p, c') ->
  n - begin <= MAX_REQUEST_BLOCK_BYTES * unchokes ms.
Proof.
  induction fuel as [|fuel IH]; intros index n begin piece c p c' ms Hw Hi; cbn [download_blocks];
    pose proof (unchokes_nonneg ms); unfold MAX_REQUEST_BLOCK_BYTES in *;
    destruct (Z.ltb_spec begin n); try (intros _; lia); try done.
  cbv zeta. intros H1. apply io_bind_inv in H1 as [(b & c1 & Hb & H1)|(? & _ & ?)]; [|done].
  destruct (download_block_unchoke _ _ _ _ _ _ ms Hw Hi Hb) as (post & Hp & Hwp & Hlt).
  case_match; [done|]. apply (IH _ _ _ _ _ _ _ post) in H1; [|done|done]. lia.
Qed.
