(* ===== verification/PeerClaims.v ===== *)
(** * Downloads from peers: the claims *)

From Stdlib Require Import Strings.Byte Strings.String.
From S2P Require Import Prelude Bytes Error External NetworkPolicy FileSystem Bencode PeerWire TorrentMeta TorrentMetaTheorems TorrentExtension Scheduler SchedulerTheorems TorrentStore Trackers PeerConnection PeerConnectionTheorems.

(** ** Fetching a piece into the store *)

Section Fetch.
Context {SHA : Sha1}.

Lemma download_piece_Ok index n h c p c' :
  download_piece index n h c = (Ok p, c') ->
  0 <> n /\ n <= MAX_PIECE /\ (0 <= n -> Z.of_nat (length p) = n) /\ sha1 p = h.
Proof.
  unfold download_piece. destruct (Z.eqb_spec n 0); [done|]. destruct (Z.ltb_spec MAX_PIECE n); [done|].
  simpl orb. cbv iota. intros H1.
  apply io_bind_inv in H1 as [(q & c1 & E & H1)|(? & _ & ?)]; [|done].
  apply io_bind_inv in H1 as [([] & c2 & [Ev%symmetry ->]%lift_cases & H1)|(? & _ & ?)]; [|done].
  injection H1 as <- _. apply verify_piece_sha1_Ok in Ev. split_and!; [done|done| |done].
  intros Hn. by eapply (download_blocks_length _ _ _ 0) in E; [|done|].
Qed.

Lemma on_stream_cases {A} (m : Conn A) d r d' :
  on_stream m d = (r, d') -> dl_scheduler d' = dl_scheduler d /\ dl_fs d' = dl_fs d
    /\ exists c, m (dl_stream d) = (r, c).
Proof. unfold on_stream. destruct (m (dl_stream d)) as [r1 c]. intros [= <- <-]. eauto. Qed.
Lemma on_store_cases {A} (m : Store A) d r d' :
  on_store m d = (r, d') -> dl_scheduler d' = dl_scheduler d /\ m (dl_fs d) = (r, dl_fs d').
Proof. unfold on_store. destruct (m (dl_fs d)) as [r1 s]. by intros [= <- <-]. Qed.
Lemma on_scheduler_cases {A} (m : Sched A) d r d' :
  on_scheduler m d = (r, d') ->
  exists s, m (dl_scheduler d) = (r, s) /\ d' = mk_Download (dl_stream d) s (dl_fs d).
Proof. unfold on_scheduler. destruct (m (dl_scheduler d)) as [r1 s]. intros [= <- <-]. eauto. Qed.

Lemma attempt_cases {A} (m : io Download ProxyError.t A) d r d' :
  Prelude.attempt m d = (r, d') -> exists r1, m d = (r1, d') /\ r = Ok r1.
Proof. unfold Prelude.attempt. destruct (m d) as [r1 d1]. intros [= <- <-]. eauto. Qed.

Lemma untouched_both t p s s' : untouched [p] s s' -> untouched [t; p] s s'.
Proof. intros H. eapply untouched_weaken; [exact H|]. intros q ->%list_elem_of_singleton. right. by left. Qed.

(** The store after a fetch: the piece's own files may have changed, and on
    success its file is a verified piece. *)
Lemma fetch_piece_cases m st i d r d' :
  tidy (dl_fs d) -> fetch_piece m st i d = (r, d') ->
  dl_scheduler d' = dl_scheduler d
  /\ untouched [temp_path st (Z.of_nat i); piece_path st (Z.of_nat i)] (dl_fs d) (dl_fs d')
  /\ (r = Ok tt -> exists h b, piece_sha1 m !! i = Some h /\ verified h b
        /\ content (dl_fs d') (piece_path st (Z.of_nat i)) = Some b).
Proof.
  intros Ht. unfold fetch_piece. intros H.
  assert (Hsame : untouched [temp_path st (Z.of_nat i); piece_path st (Z.of_nat i)] (dl_fs d) (dl_fs d)) by done.
  apply io_bind_inv in H as [(len & d0 & [_ ->]%lift_cases & H)|(? & [_ ->]%lift_cases & ->)]; [|done].
  apply io_bind_inv in H as [(h & d0 & [Eh%symmetry%ok_or_Ok ->]%lift_cases & H)|(? & [_ ->]%lift_cases & ->)];
    [|done].
  apply io_bind_inv in H as [(o & d1 & E1 & H)|(? & E1 & ->)];
    apply on_store_cases in E1 as [Hs1 E1]; destruct (load_piece_cases _ _ _ _ _ _ Ht E1) as [Hu1 Hl1];
    apply (untouched_both (temp_path st (Z.of_nat i))) in Hu1; [|by split_and!].
  destruct o as [b|].
  { injection H as <- <-. split_and!; [done|done|]. intros _. destruct (Hl1 b eq_refl) as (Hv & _ & Hc). eauto. }
  apply io_bind_inv in H as [(b & d2 & E2 & H)|(? & E2 & ->)];
    apply on_stream_cases in E2 as (Hs2 & Hf2 & _ & _); [|split_and!; [congruence|by rewrite Hf2|done]].
  apply on_store_cases in H as [Hs3 E3]. rewrite Hf2 in E3.
  destruct (store_piece_cases _ _ _ _ _ _ _ (proj1 Hu1) E3) as (Hu3 & Hok & _).
  split_and!; [congruence|exact (untouched_trans _ _ _ _ _ Hu1 Hu3 (fun _ H => H))|].
  intros ->. destruct (Hok eq_refl) as [Hv Hc]. eauto.
Qed.
End Fetch.

(** ** The scheduler around a fetch *)

(** The piece just claimed is in flight, so ending the claim succeeds. *)
Lemma claimed_lookup s i :
  (i < length (states s))%nat -> states (set_states <[i := InFlight]> s) !! Z.to_nat (Z.of_nat i) = Some InFlight.
Proof. intros Hi. rewrite Nat2Z.id. simpl. by apply list_lookup_insert_eq. Qed.

Lemma complete_claimed s i :
  (i < length (states s))%nat ->
  complete (Z.of_nat i) (set_states <[i := InFlight]> s) = (Ok tt, set_states <[i := Complete]> s).
Proof.
  intros Hi. unfold complete, in_flight. rewrite (claimed_lookup s i Hi), Nat2Z.id. rewrite bool_decide_true by done.
  unfold set_states. simpl. by rewrite list_insert_insert_eq.
Qed.

Lemma fail_claimed s i f :
  states s !! i = Some Missing -> failures s !! i = Some f ->
  fail (Z.of_nat i) (set_states <[i := InFlight]> s)
  = (Ok tt, set_failures <[i := saturating_succ 255 f]> s).
Proof.
  intros Hs Hf. unfold fail, in_flight. rewrite claimed_lookup by (by eapply lookup_lt_Some).
  rewrite Nat2Z.id, bool_decide_true by done. unfold set_states, set_failures. simpl.
  rewrite list_insert_insert_eq, list_insert_id by done. by rewrite (list_lookup_total_correct _ _ _ Hf).
Qed.

Lemma claimed_wf bitfield s i :
  scheduler_wf s -> claim_next bitfield s = (Ok (Some i), set_states <[i := InFlight]> s) ->
  counts s (set_states <[i := InFlight]> s) (Some i).
Proof. intros Hwf E. apply (claim_next_counts bitfield); [done|]. cbn [run_call]. by rewrite E. Qed.

Module PeerClaims.

(** C22: a downloaded piece is the requested one: whatever bytes the peer
    sends, a piece that is returned has the requested length and SHA-1; and a
    peer that serves each block, after an unchoke for it and among messages
    that are skipped, is sent exactly one expression of interest and one
    request per block of 16 KiB, and the piece it serves is returned. *)
Theorem piece_download_correct `{SHA : Sha1} (index n : Z) (h : text) (c : PeerStream)
  (Hn : 0 < n <= MAX_PIECE) :
  (forall p c', download_piece index n h c = (Ok p, c') -> Z.of_nat (length p) = n /\ sha1 p = h)
  /\ (forall p ns rest, is_u32 index -> Z.of_nat (length p) = n -> sha1 p = h -> covers p ns ->
        Forall noise_ok ns -> writes c = [] -> incoming c = frames (answers index 0 p ns) ++ rest ->
        download_piece index n h c
        = (Ok p, mk_PeerStream rest (ends c) [] (sent c ++ questions index 0 p ns) (stalled c))).
Proof.
  split.
  - intros p c' H. apply download_piece_Ok in H as (_ & _ & Hl & Hs). split; [apply Hl; lia|done].
  - intros p ns rest Hi Hlen Hsha Hcov Hns Hwr Hin. unfold download_piece, MAX_PIECE in *.
    destruct (Z.eqb_spec n 0); [lia|]. destruct (Z.ltb_spec (8 * 1024 * 1024) n); [lia|]. simpl orb. cbv iota.
    etrans; [apply io_bind_Ok; apply (download_blocks_answered index n rest ns (Z.to_nat n) 0 p [] c);
             try done; unfold u32_max; lia|].
    etrans; [apply io_bind_Ok; unfold lift; f_equal; by apply verify_piece_sha1_Ok|]. done.
Qed.

(** Each block takes an unchoke of its own: a piece that was downloaded
    from a peer's messages took at least one unchoke per 16 KiB, so that from
    a peer that unchokes once, as peers do, no piece of more than one block is
    ever downloaded. *)
Theorem every_block_needs_unchoke `{SHA : Sha1} (index n : Z) (h p : text) (c c' : PeerStream)
  (ms : list PeerMessage.t) (Hms : Forall wire_ok ms) (Hin : incoming c = frames ms)
  (Hrun : download_piece index n h c = (Ok p, c')) :
  n <= MAX_REQUEST_BLOCK_BYTES * unchokes ms.
Proof.
  unfold download_piece in Hrun. case_match; [done|].
  apply io_bind_inv in Hrun as [(q & c1 & E & _)|(? & _ & ?)]; [|done].
  apply (download_blocks_unchokes _ _ _ _ _ _ _ _ ms) in E; [lia|done|done].
Qed.

(** [download_next_piece] keeps the books: it claims a best piece; on
    success that piece is complete and its file holds a piece with the
    torrent's SHA-1; on failure the piece is missing again with one more
    failure and may be claimed by another peer; it leaves no piece in flight,
    touches no other piece, and answers [None] only when no piece can be
    claimed; the file system and the scheduler keep their invariants. *)
Theorem download_next_piece_correct `{SHA : Sha1} (bitfield : text) (m : TorrentMetadata)
  (st : TorrentPieceStore) (d d' : Download) (r : Result (option nat))
  (Hwf : scheduler_wf (dl_scheduler d)) (Htidy : tidy (dl_fs d))
  (Hrun : download_next_piece bitfield m st d = (r, d')) :
  let s := dl_scheduler d in
  let s' := dl_scheduler d' in
  scheduler_wf s' /\ tidy (dl_fs d')
  /\ match r with
     | Ok None => d' = d /\ forall i, (i < length (states s))%nat -> eligible bitfield s i = false
     | Ok (Some i) =>
         eligible bitfield s i = true /\ s' = set_states <[i := Complete]> s
         /\ exists h b, piece_sha1 m !! i = Some h /\ verified h b
                        /\ content (dl_fs d') (piece_path st (Z.of_nat i)) = Some b
     | Err _ =>
         (s' = s /\ length bitfield <> bytes_for (length (states s)))
         \/ exists i f, eligible bitfield s i = true /\ failures s !! i = Some f
              /\ s' = set_failures <[i := f + 1]> s
     end.
Proof.
  unfold download_next_piece in Hrun. pose proof (claim_next_spec bitfield (dl_scheduler d)) as Hc.
  apply io_bind_inv in Hrun as [(o & d1 & E1 & H)|(e & E1 & ->)];
    apply on_scheduler_cases in E1 as (s1 & E1 & ->); rewrite E1 in Hc; cycle 1.
  { destruct Hc as (-> & _ & Hl). split_and!; [done|done|by left]. }
  destruct o as [i|]; cycle 1.
  { destruct Hc as [-> Hnone]. injection H as <- <-. split_and!; [done|done|by destruct d|done]. }
  destruct Hc as (-> & Hi & He & _).
  destruct (scheduler_lookup _ i Hwf Hi) as (stt & f & Hst & Hf & Hnn & Hle).
  destruct (eligible_lookup _ _ _ _ _ Hst Hf He) as (_ & -> & Hlt).
  apply io_bind_inv in H as [(res & d2 & E2 & H)|(? & E2 & ->)];
    apply attempt_cases in E2 as (res' & Ef & E2); [|done]. injection E2 as ->.
  apply fetch_piece_cases in Ef as (Hs & Hu & Hok); [|done]. simpl in Hs, Hu, Hok.
  destruct res' as [[]|e].
  - apply io_bind_inv in H as [([] & d4 & E4 & H)|(? & E4 & ->)];
      apply on_scheduler_cases in E4 as (s4 & E4 & ->); rewrite Hs, complete_claimed in E4 by done; [|done].
    injection E4 as <-. injection H as <- <-.
    pose proof (complete_counts (Z.of_nat i) _ (proj1 (claimed_wf bitfield _ i Hwf E1))) as [Hwf' _].
    rewrite complete_claimed in Hwf' by done. split_and!; [exact Hwf'|apply Hu|done|done|]. by apply Hok.
  - apply io_bind_inv in H as [([] & d4 & E4 & H)|(? & E4 & ->)];
      apply on_scheduler_cases in E4 as (s4 & E4 & ->); rewrite Hs, (fail_claimed _ i f) in E4 by done; [|done].
    injection E4 as <-. injection H as <- <-.
    pose proof (fail_counts (Z.of_nat i) _ (proj1 (claimed_wf bitfield _ i Hwf E1))) as [Hwf' _].
    rewrite (fail_claimed _ i f) in Hwf' by done.
    pose proof (wf_max _ Hwf).
    assert (Hsat : saturating_succ 255 f = f + 1) by (unfold saturating_succ; lia). rewrite Hsat in *.
    split_and!; [exact Hwf'|apply Hu|]. right. by exists i, f.
Qed.
Lemma piece_download_correct_witness :
  let p := str "piece" in
  let ns := [mk_noise [PeerMessage.Choke; PeerMessage.KeepAlive] [PeerMessage.Have 3]] in
  let c := mk_PeerStream (frames (answers 7 0 p ns)) ReadTimeout [] [] false in
  exists c', @download_piece toy_sha1 7 5 (toy_sha1 p) c = (Ok p, c').
Proof.
  intros p ns c. destruct (@piece_download_correct toy_sha1 7 5 (toy_sha1 p) c) as [_ H]; [unfold MAX_PIECE; lia|].
  eexists. apply (H p ns []).
  - unfold is_u32, u32_max. lia.
  - reflexivity.
  - reflexivity.
  - split; [discriminate|]. vm_compute. reflexivity.
  - constructor; [|constructor].
    split_and!; repeat (constructor; [reflexivity || (split; [vm_compute; (exact I || (split; discriminate))|eexists; reflexivity])|]);
      constructor.
  - reflexivity.
  - by rewrite app_nil_r.
Defined.

Lemma every_block_needs_unchoke_witness :
  let block := replicate (Z.to_nat MAX_REQUEST_BLOCK_BYTES) x41 in
  let ms := [PeerMessage.Unchoke; PeerMessage.Piece 0 0 block; PeerMessage.Piece 0 16384 [x41]] in
  let c := mk_PeerStream (frames ms) ReadTimeout [] [] false in
  Forall wire_ok ms
  /\ forall h p c', @download_piece toy_sha1 0 16385 h c <> (Ok p, c').
Proof.
  intros block ms c.
  assert (Hms : Forall wire_ok ms).
  { constructor; [apply unchoke_ok|]. constructor; [|constructor; [|constructor]]; apply piece_ok;
      try (unfold is_u32, u32_max; lia).
    - unfold block. rewrite length_replicate, Z2Nat.id; done.
    - vm_compute. discriminate. }
  split; [exact Hms|]. intros h p c' E.
  pose proof (@every_block_needs_unchoke toy_sha1 0 16385 h p c c' ms Hms eq_refl E) as H.
  vm_compute in H. by apply H.
Defined.

Lemma download_next_piece_correct_witness :
  let piece := str "piece" in
  let m := mk_TorrentMetadata [] (str "a") 5 16384 [toy_sha1 piece] [] in
  let st := mk_TorrentPieceStore [str "p"] in
  let s := mk_fs {[ piece_path st 0 := 0%nat ]} {[ 0%nat := piece ]} 1 {[ [str "p"] ]} [] in
  let sch := mk_PieceScheduler [Missing] [0] [0] 3 [0] in
  let d := mk_Download (mk_PeerStream [] ReadTimeout [] [] false) sch s in
  exists d', @download_next_piece toy_sha1 [x80] m st d = (Ok (Some 0%nat), d')
    /\ dl_scheduler d' = set_states <[0%nat := Complete]> sch.
Proof.
  intros piece m st s sch d.
  assert (Hwf : scheduler_wf sch).
  { constructor; [simpl; lia|reflexivity|reflexivity|reflexivity|simpl; lia| | |].
    1-2: constructor; [unfold u32_max; lia|constructor].
    intros [|i] stt f; intros [= <-] [= <-]. unfold busy. simpl. lia. }
  assert (Ht : tidy s).
  { constructor; simpl.
    - intros q1 q2 i [<- _]%lookup_singleton_Some [<- _]%lookup_singleton_Some. reflexivity.
    - intros q i [_ <-]%lookup_singleton_Some. lia. }
  destruct (@download_next_piece toy_sha1 [x80] m st d) as [r d'] eqn:E.
  assert (Hr : r = Ok (Some 0%nat)) by (change r with (r, d').1; rewrite <- E; vm_compute; reflexivity).
  subst r. exists d'. split; [reflexivity|].
  destruct (@download_next_piece_correct toy_sha1 [x80] m st d d' _ Hwf Ht E) as (_ & _ & _ & H & _). exact H.
Defined.

End PeerClaims.

(** * The metadata exchange: what is accepted, and from whom *)

Section Metadata.
Context {SHA : Sha1}.

Lemma assembler_insert_hash a r b a' : assembler_insert a r = Ok (b, a') -> ma_info_hash a' = ma_info_hash a.
Proof.
  unfold assembler_insert. destruct r as [piece total bytes|]; [|done]. case_match; [done|]. cbv zeta.
  destruct (ma_pieces a !! Z.to_nat piece) as [[e|]|]; [| |done];
    match goal with |- context [Z.of_nat (length bytes) =? ?x] => destruct (Z.of_nat (length bytes) =? x) end; try done;
    cbn [negb]; [case_bool_decide; [|done]|]; by intros [= _ <-].
Qed.

Lemma request_metadata_hash id pieces : forall a c a' c',
  request_metadata id pieces a c = (Ok a', c') -> ma_info_hash a' = ma_info_hash a.
Proof.
  induction pieces as [|k pieces IH]; intros a c a' c'; cbn [request_metadata]; [by intros [= <- _]|]. intros H.
  apply io_bind_inv in H as [(q & c1 & _ & H)|(? & _ & ?)]; [|done].
  apply io_bind_inv in H as [(u & c2 & _ & H)|(? & _ & ?)]; [|done].
  apply io_bind_inv in H as [(a1 & c3 & E & H)|(? & _ & ?)]; [|done].
  apply IH in H. rewrite H. revert E.
  apply (receive_until_break_only _ (fun a1 => ma_info_hash a1 = ma_info_hash a)).
  intros m b Hm. unfold until_metadata in Hm. destruct m; try done. case_match; [|done].
  destruct (parse_ut_metadata_response payload) as [[piece total bytes|]|]; try done.
  destruct (assembler_insert a _) as [[bb a2]|] eqn:Ei; [|done]. injection Hm as <-.
  by apply assembler_insert_hash in Ei.
Qed.

Lemma download_metadata_hash expected c raw c' :
  download_metadata expected c = (Ok raw, c') -> sha1 raw = expected.
Proof.
  unfold download_metadata. rewrite with_deadline_Ok. intros H.
  apply io_bind_inv in H as [(u & c1 & _ & H)|(? & _ & ?)]; [|done].
  apply io_bind_inv in H as [(remote & c2 & _ & H)|(? & _ & ?)]; [|done].
  apply io_bind_inv in H as [(a & c3 & [Ea%symmetry ->]%lift_cases & H)|(? & _ & ?)]; [|done].
  apply io_bind_inv in H as [(a' & c4 & E & H)|(? & _ & ?)]; [|done]. apply lift_cases in H as [Hf%symmetry _].
  apply request_metadata_hash in E. unfold assembler_new in Ea. case_match; [done|]. injection Ea as <-.
  simpl in E. unfold assembler_finish in Hf. case_match; [done|]. cbv zeta in Hf.
  case_bool_decide; [|done]. injection Hf as <-. congruence.
Qed.
End Metadata.

Module PeerMetadataClaims.

(** Metadata taken from a peer is the torrent that was asked for: whatever
    the peer sends, a torrent that is returned has the expected hash, was
    parsed from bytes with that SHA-1, and is well formed. *)
Theorem peer_metadata_verified `{SHA : Sha1} (expected : text) (c c' : PeerStream) (m : TorrentMetadata)
  (Hrun : download_torrent_metadata expected c = (Ok m, c')) :
  info_hash m = expected /\ metadata_wf m
  /\ exists raw, sha1 raw = expected /\ parse_info_metadata raw = Ok m.
Proof.
  unfold download_torrent_metadata in Hrun.
  apply io_bind_inv in Hrun as [(raw & c1 & E1%download_metadata_hash & H)|(? & _ & ?)]; [|done].
  apply io_bind_inv in H as [(m' & c2 & [E2%symmetry ->]%lift_cases & H)|(? & _ & ?)]; [|done].
  case_bool_decide; [|done]. injection H as <- _. split_and!; [done| |eauto].
  unfold parse_info_metadata in E2. case_match; [done|].
  by apply parse_torrent_metadata_inv in E2 as (info & span & _ & [Hwf _]%metadata_of_wf).
Qed.

(** An info dictionary of one file and two pieces, and the peer that has it
    and answers with the id [reply]. *)
Definition demo_info : text :=
  str "d6:lengthi20000e4:name1:a12:piece lengthi16384e6:pieces40:" ++ replicate 40 x41 ++ str "e".
Definition demo_peer (id : Z) (reply : byte) : PeerStream :=
  mk_PeerStream
    (frames [PeerMessage.Extended (z2b 0)
               (str "d1:md11:ut_metadatai" ++ format_u64 id ++ str "ee13:metadata_sizei99ee");
             PeerMessage.Have 1;
             PeerMessage.Extended reply
               (str "d8:msg_typei1e5:piecei0e10:total_sizei99ee" ++ demo_info)])
    ReadTimeout [] [] false.

Lemma peer_metadata_verified_witness :
  length demo_info = 99%nat
  /\ exists m c', @download_torrent_metadata toy_sha1 (toy_sha1 demo_info) (demo_peer 3 x03) = (Ok m, c')
       /\ metadata_wf m.
Proof.
  split; [reflexivity|].
  destruct (@download_torrent_metadata toy_sha1 (toy_sha1 demo_info) (demo_peer 3 x03)) as [[m|e] c'] eqn:E.
  - exists m, c'. split; [reflexivity|]. eapply (@peer_metadata_verified toy_sha1 _ _ _ m E).
  - exfalso. apply (f_equal (fun p => is_ok p.1)) in E. vm_compute in E. discriminate E.
Defined.

(** The metadata exchange does not accept the answers it asks for: the
    extended handshake that is sent announces id 1 for metadata messages, but
    a message with that id is refused unless the peer happens to have chosen 1
    for its own messages too. *)
Theorem announced_id_refused `{SHA : Sha1} (expected handshake response : text) (h : ExtendedHandshake)
  (rest : text) (c : PeerStream)
  (Hhandshake : parse_extended_handshake handshake = Ok h) (Hid : ut_metadata_id h <> z2b 1)
  (Hsize : 0 < metadata_size h <= MAX_METADATA) (Hnonzero : ut_metadata_id h <> z2b 0)
  (Hwire : Forall wire_ok [PeerMessage.Extended (z2b 0) handshake; PeerMessage.Extended (z2b 1) response])
  (Hwrites : writes c = []) (Hstalled : stalled c = false)
  (Hin : incoming c = frames [PeerMessage.Extended (z2b 0) handshake; PeerMessage.Extended (z2b 1) response]
                      ++ rest) :
  encode_extended_handshake = PeerMessage.Extended (z2b 0) (str "d1:md11:ut_metadatai1eee")
  /\ (download_metadata expected c).1
     = Err (ProxyError.Request (str "unexpected message during metadata exchange")).
Proof.
  split; [reflexivity|]. inversion_clear Hwire as [|?? Hw1 Hw]. inversion_clear Hw as [|?? Hw2 _].
  assert (Hloop : exists c', (_ ← send encode_extended_handshake;
     remote ← receive_loop until_extended_handshake;
     a ← lift (assembler_new expected (metadata_size remote));
     a ← request_metadata (ut_metadata_id remote)
           (seq 0 (Z.to_nat (div_ceil (metadata_size remote) METADATA_BLOCK))) a;
     lift (assembler_finish a)) c
     = (Err (ProxyError.Request (str "unexpected message during metadata exchange")), c') /\ stalled c' = false).
  { eexists. split.
    - etrans; [apply io_bind_Ok; apply send_ok; [by eapply small_wire_ok|done]|].
      etrans; [apply io_bind_Ok; apply (receive_loop_break _ [] (PeerMessage.Extended (z2b 0) handshake) h
        [PeerMessage.Extended (z2b 1) response] rest); [by constructor|constructor| |exact Hin]|].
      { cbn [until_extended_handshake]. rewrite bool_decide_true, Hhandshake by done. reflexivity. }
      etrans; [apply io_bind_Ok; unfold lift, assembler_new;
        by destruct (Z.eqb_spec (metadata_size h) 0); [lia|];
           destruct (Z.ltb_spec MAX_METADATA (metadata_size h)); [lia|]|].
      apply io_bind_Err.
      pose proof (div_ceil_spec (metadata_size h) METADATA_BLOCK ltac:(lia) ltac:(done)) as Hc.
      destruct (Z.to_nat (div_ceil (metadata_size h) METADATA_BLOCK)) as [|k] eqn:Ek;
        [unfold METADATA_BLOCK in *; lia|]. cbn [seq request_metadata].
      etrans; [apply io_bind_Ok; unfold lift, encode_ut_metadata_request; by rewrite bool_decide_false by done|].
      etrans; [apply io_bind_Ok; apply send_ok; [|done]|].
      { eapply small_wire_ok; [done|reflexivity|]. vm_compute. discriminate. }
      apply io_bind_Err. unfold receive_loop. cbn [receive_until].
      etrans; [apply io_bind_Ok; apply (receive_frame (PeerMessage.Extended (z2b 1) response) rest); [done|]|].
      { cbn [incoming set_incoming]. rewrite frames_cons. change (frames []) with (@nil byte).
        by rewrite app_nil_r. }
      cbn [until_metadata]. rewrite bool_decide_false by done. reflexivity.
    - done. }
  destruct Hloop as (c' & E & Hst). unfold download_metadata, with_deadline. rewrite E, Hst.
  by destruct (ends c').
Qed.

Lemma announced_id_refused_witness :
  let handshake := str "d1:md11:ut_metadatai3ee13:metadata_sizei99ee" in
  let response := str "d8:msg_typei1e5:piecei0e10:total_sizei99ee" ++ demo_info in
  let ms := [PeerMessage.Extended (z2b 0) handshake; PeerMessage.Extended (z2b 1) response] in
  let c := mk_PeerStream (frames ms) ReadTimeout [] [] false in
  (@download_metadata toy_sha1 (toy_sha1 demo_info) c).1
  = Err (ProxyError.Request (str "unexpected message during metadata exchange")).
Proof.
  intros handshake response ms c.
  apply (@announced_id_refused toy_sha1 (toy_sha1 demo_info) handshake response
           (mk_ExtendedHandshake (z2b 3) 99) [] c).
  - vm_compute. reflexivity.
  - discriminate.
  - unfold MAX_METADATA. simpl. lia.
  - discriminate.
  - constructor; [|constructor; [|constructor]]; (split; [exact I|eexists; vm_compute; reflexivity]).
  - reflexivity.
  - reflexivity.
  - by rewrite app_nil_r.
Defined.

End PeerMetadataClaims.
