(* ===== verification/Swarm.v ===== *)
(** * Downloading from many peers ([p2p_network.rs], [download_from_peers])

    One task per peer, in batches, over one scheduler behind a lock.  A task
    is where it stands in its code; a step is one stretch of a task between
    two points where it waits, with what the network or the store answered;
    the steps of a batch interleave. *)

From Stdlib Require Import Strings.Byte Strings.String.
From S2P Require Import Prelude Bytes Error PeerWire TorrentMeta Scheduler SchedulerTheorems.

(** ** Tasks *)

Inductive Task : Type :=
| Connecting
| Ready (bitfield : text) (downloaded : nat)
| Working (bitfield : text) (index downloaded : nat)
| Finished (r : Result nat).

(** What happens to a task where it waits: the connection or the wait for a
    bitfield fails, a bitfield arrives, it takes the lock, its piece is
    fetched and stored, or fetching it fails. *)
Inductive event : Type :=
| ConnectionFails (e : ProxyError.t)
| BitfieldArrives (bitfield : text)
| TakesTurn
| PieceStored
| PieceFails (e : ProxyError.t).

Definition task_step (max_pieces_per_peer : nat) (ev : event) (t : Task) (s : PieceScheduler) :
    option (Task * PieceScheduler) :=
  match t, ev with
  | Connecting, ConnectionFails e => Some (Finished (Err e), s)
  | Connecting, BitfieldArrives bitfield =>
      match observe_bitfield bitfield s with
      | (Ok _, s') => Some (Ready bitfield 0, s')
      | (Err e, s') => Some (Finished (Err e), s')
      end
  | Ready bitfield n, TakesTurn =>
      if Nat.ltb n max_pieces_per_peer then
        match claim_next bitfield s with
        | (Ok (Some index), s') => Some (Working bitfield index n, s')
        | (Ok None, s') => Some (Finished (Ok n), s')
        | (Err e, s') => Some (Finished (Err e), s')
        end
      else Some (Finished (Ok n), s)
  | Working bitfield index n, PieceStored =>
      match complete (Z.of_nat index) s with
      | (Ok _, s') => Some (Ready bitfield (S n), s')
      | (Err e, s') => Some (Finished (Err e), s')
      end
  | Working bitfield index n, PieceFails error =>
      match fail (Z.of_nat index) s with
      | (Ok _, s') => Some (Finished (Err error), s')
      | (Err e, s') => Some (Finished (Err e), s')
      end
  | _, _ => None
  end.

Definition batch : Type := list Task * PieceScheduler.

Inductive batch_step (max : nat) : batch -> batch -> Prop :=
| batch_step_task tasks s i t ev t' s' :
    tasks !! i = Some t -> task_step max ev t s = Some (t', s') ->
    batch_step max (tasks, s) (<[i := t']> tasks, s').

(** ** The loop over the batches *)

(** [while let Some(result) = tasks.join_next().await], in the order in which
    the tasks are joined. *)
Definition join (acc : Z * option ProxyError.t) (r : Result nat) : Z * option ProxyError.t :=
  match r with
  | Ok count => (saturating_add acc.1 (Z.of_nat count), acc.2)
  | Err e => (acc.1, match acc.2 with None => Some e | some => some end)
  end.

(** [for peer_batch in peers.chunks(..)]: the sizes of the batches. *)
Inductive batches_run (max : nat) : list nat -> PieceScheduler -> Z * option ProxyError.t ->
    PieceScheduler -> Z * option ProxyError.t -> Prop :=
| batches_end s acc : batches_run max [] s acc s acc
| batches_complete k ks s acc tasks s' joined :
    rtc (batch_step max) (replicate k Connecting, s) (tasks, s') ->
    tasks ≡ₚ map Finished joined -> is_complete s' = true ->
    batches_run max (k :: ks) s acc s' (fold_left join joined acc)
| batches_next k ks s acc tasks s' joined s'' acc' :
    rtc (batch_step max) (replicate k Connecting, s) (tasks, s') ->
    tasks ≡ₚ map Finished joined -> is_complete s' = false ->
    batches_run max ks s' (fold_left join joined acc) s'' acc' ->
    batches_run max (k :: ks) s acc s'' acc'.

(** [peers.chunks(n)]: how many peers each batch has. *)
Fixpoint chunk_sizes (fuel peers n : nat) : list nat :=
  match fuel with
  | O => []
  | S fuel' => if Nat.eqb peers 0 then [] else Nat.min n peers :: chunk_sizes fuel' (peers - n) n
  end.

(** The outcomes of [download_from_peers] for [piece_count] pieces, and the
    scheduler it leaves. *)
Inductive download_from_peers (peers : nat) (piece_count max_concurrent_peers max_pieces_per_peer : Z) :
    Result Z -> option PieceScheduler -> Prop :=
| swarm_limits :
    ((peers =? 0)%nat || (max_concurrent_peers =? 0) || (32 <? max_concurrent_peers)
     || (max_pieces_per_peer =? 0) || (10000 <? max_pieces_per_peer)) = true ->
    download_from_peers peers piece_count max_concurrent_peers max_pieces_per_peer
      (Err (ProxyError.Request (str "invalid multi-peer download limits"))) None
| swarm_scheduler e :
    ((peers =? 0)%nat || (max_concurrent_peers =? 0) || (32 <? max_concurrent_peers)
     || (max_pieces_per_peer =? 0) || (10000 <? max_pieces_per_peer)) = false ->
    scheduler_new piece_count 3 = Err e ->
    download_from_peers peers piece_count max_concurrent_peers max_pieces_per_peer (Err e) None
| swarm_runs s s' downloaded first_error :
    ((peers =? 0)%nat || (max_concurrent_peers =? 0) || (32 <? max_concurrent_peers)
     || (max_pieces_per_peer =? 0) || (10000 <? max_pieces_per_peer)) = false ->
    scheduler_new piece_count 3 = Ok s ->
    batches_run (Z.to_nat max_pieces_per_peer) (chunk_sizes peers peers (Z.to_nat max_concurrent_peers))
      s (0, None) s' (downloaded, first_error) ->
    download_from_peers peers piece_count max_concurrent_peers max_pieces_per_peer
      (if downloaded =? 0 then match first_error with Some e => Err e | None => Ok downloaded end
       else Ok downloaded) (Some s').

(** * Downloading from many peers: no piece twice, no piece stuck *)

(** ** The invariant of a batch *)

Definition held (t : Task) : option nat := match t with Working _ i _ => Some i | _ => None end.
(** The pieces a task will report. *)
Definition credited (t : Task) : Z :=
  match t with
  | Ready _ n | Working _ _ n | Finished (Ok n) => Z.of_nat n
  | _ => 0
  end.
Definition total {A} (f : A -> Z) (l : list A) : Z := foldr (fun x acc => f x + acc) 0 l.
Definition is_done (st : PieceState) : Z := if decide (st = Complete) then 1 else 0.
(** How many pieces are complete. *)
Definition completes (s : PieceScheduler) : Z := total is_done (states s).

(** Each piece in flight is held by exactly one task, and what the tasks have
    counted since the batch began is complete. *)
Record batch_inv (base : Z) (b : batch) : Prop := {
  bi_wf : scheduler_wf b.2;
  bi_holds t x i : b.1 !! t = Some x -> held x = Some i -> states b.2 !! i = Some InFlight;
  bi_unique t1 t2 x1 x2 i : b.1 !! t1 = Some x1 -> b.1 !! t2 = Some x2 ->
    held x1 = Some i -> held x2 = Some i -> t1 = t2;
  bi_held i : states b.2 !! i = Some InFlight -> exists t x, b.1 !! t = Some x /\ held x = Some i;
  bi_credit : base + total credited b.1 <= completes b.2;
}.

Lemma total_insert {A} (f : A -> Z) l i x y :
  l !! i = Some x -> total f (<[i := y]> l) = total f l - f x + f y.
Proof.
  revert i. induction l as [|z l IH]; intros [|i]; cbn; [done|done|intros [= ->]; lia|].
  intros H. change (f z + total f (<[i := y]> l) = f z + total f l - f x + f y). rewrite IH by done. lia.
Qed.

Lemma total_replicate_0 {A} (f : A -> Z) n x : f x = 0 -> total f (replicate n x) = 0.
Proof. intros Hx. induction n as [|n IH]; [done|].
  change (f x + total f (replicate n x) = 0). lia.
Qed.

Lemma total_perm {A} (f : A -> Z) l l' : l ≡ₚ l' -> total f l = total f l'.
Proof. unfold total. induction 1; simpl in *; lia. Qed.

(** A task that holds nothing becomes one that holds nothing, over the same
    states. *)
Lemma batch_quiet base tasks s i t t' s' :
  batch_inv base (tasks, s) -> tasks !! i = Some t -> held t = None -> held t' = None ->
  scheduler_wf s' -> states s' = states s -> credited t' <= credited t ->
  batch_inv base (<[i := t']> tasks, s').
Proof.
  intros [Hwf Hh Hu Hd Hc] Hi Ht Ht' Hwf' Hst Hcr. simpl in *.
  constructor; simpl; rewrite ?Hst; [done|..].
  - intros j x k. rewrite list_lookup_insert_Some. intros [(<- & <- & _)|[_ Hj]]; [congruence|]. by apply (Hh j).
  - intros j1 j2 x1 x2 k. rewrite !list_lookup_insert_Some.
    intros [(<- & <- & _)|[_ H1]] [(<- & <- & _)|[_ H2]]; [done|congruence|congruence|]. by apply Hu.
  - intros k (j & x & Hj & Hx)%Hd. exists j, x. split; [|done]. rewrite list_lookup_insert_ne; [done|].
    intros <-. congruence.
  - unfold completes in *. rewrite Hst, (total_insert _ _ _ t) by done. lia.
Qed.

Lemma batch_claim base tasks s i bf n k :
  batch_inv base (tasks, s) -> tasks !! i = Some (Ready bf n) -> states s !! k = Some Missing ->
  scheduler_wf (set_states <[k := InFlight]> s) ->
  batch_inv base (<[i := Working bf k n]> tasks, set_states <[k := InFlight]> s).
Proof.
  intros [Hwf Hh Hu Hd Hc] Hi Hk Hwf'. simpl in *.
  assert (Hnot : forall j x, tasks !! j = Some x -> held x <> Some k).
  { intros j x Hj Hx. rewrite (Hh j x k Hj Hx) in Hk. done. }
  pose proof (lookup_lt_Some _ _ _ Hk) as Hlt. constructor; simpl; [done|..].
  - intros j x l. rewrite !list_lookup_insert_Some. intros [(<- & <- & _)|[_ Hj]] Hx.
    + injection Hx as <-. by left.
    + right. split; [|by apply (Hh j x)]. intros ->. by apply (Hnot j x).
  - intros j1 j2 x1 x2 l. rewrite !list_lookup_insert_Some.
    intros [(<- & <- & _)|[_ H1]] [(<- & <- & _)|[_ H2]] Hx1 Hx2; [done| | |by eapply Hu].
    + injection Hx1 as <-. by destruct (Hnot _ _ H2).
    + injection Hx2 as <-. by destruct (Hnot _ _ H1).
  - intros l. rewrite list_lookup_insert_Some. intros [(<- & _ & _)|[Hne Hl]].
    + exists i, (Working bf k n). split; [|done]. apply list_lookup_insert_eq. by eapply lookup_lt_Some.
    + destruct (Hd l Hl) as (j & x & Hj & Hx). exists j, x. split; [|done].
      rewrite list_lookup_insert_ne; [done|]. intros <-. rewrite Hi in Hj. by injection Hj as <-.
  - unfold completes in *. simpl. rewrite (total_insert _ _ _ (Ready bf n)) by done.
    rewrite (total_insert is_done _ _ Missing) by done.
    change (is_done Missing) with 0. change (is_done InFlight) with 0. cbn [credited]. lia.
Qed.

(** A task lets its piece go: the piece leaves the flight. *)
Lemma batch_release base tasks s i bf k n t' st' s' :
  batch_inv base (tasks, s) -> tasks !! i = Some (Working bf k n) -> held t' = None -> st' <> InFlight ->
  states s' = <[k := st']> (states s) -> scheduler_wf s' -> credited t' <= Z.of_nat n + is_done st' ->
  batch_inv base (<[i := t']> tasks, s').
Proof.
  intros [Hwf Hh Hu Hd Hc] Hi Ht' Hne Hst Hwf' Hcr. simpl in *.
  pose proof (Hh i _ k Hi eq_refl) as Hk. pose proof (lookup_lt_Some _ _ _ Hk) as Hlt.
  constructor; simpl; rewrite ?Hst; [done|..].
  - intros j x l. rewrite !list_lookup_insert_Some. intros [(<- & <- & _)|[Hij Hj]] Hx; [congruence|].
    right. split; [|by apply (Hh j x)]. intros <-. by apply Hij, (Hu i j _ x k Hi Hj).
  - intros j1 j2 x1 x2 l. rewrite !list_lookup_insert_Some.
    intros [(<- & <- & _)|[_ H1]] [(<- & <- & _)|[_ H2]]; [done|congruence|congruence|]. by apply Hu.
  - intros l. rewrite list_lookup_insert_Some. intros [(_ & ? & _)|[Hkl Hl]]; [done|].
    destruct (Hd l Hl) as (j & x & Hj & Hx). exists j, x. split; [|done].
    rewrite list_lookup_insert_ne; [done|]. intros <-. rewrite Hi in Hj. injection Hj as <-.
    by injection Hx as ->.
  - unfold completes in *. rewrite Hst, (total_insert _ _ _ (Working bf k n)) by done.
    rewrite (total_insert is_done _ _ InFlight) by done. change (is_done InFlight) with 0. cbn [credited]. lia.
Qed.

(** ** Steps *)

Lemma complete_held s i :
  states s !! i = Some InFlight -> complete (Z.of_nat i) s = (Ok tt, set_states <[i := Complete]> s).
Proof. intros H. unfold complete, in_flight. by rewrite Nat2Z.id, H, bool_decide_true. Qed.
Lemma fail_held s i :
  states s !! i = Some InFlight -> exists s', fail (Z.of_nat i) s = (Ok tt, s')
    /\ states s' = <[i := Missing]> (states s).
Proof.
  intros H. unfold fail, in_flight. rewrite Nat2Z.id, H, bool_decide_true by done. eexists. split; [reflexivity|done].
Qed.
Lemma observe_states bf s : states (observe_bitfield bf s).2 = states s.
Proof. unfold observe_bitfield. case_match; [done|]. cbv zeta. by case_match. Qed.

Local Ltac quiet := eapply batch_quiet; try done; cbn [credited]; lia.

Lemma batch_step_inv max base b b' : batch_inv base b -> batch_step max b b' -> batch_inv base b'.
Proof.
  intros Hinv Hstep. destruct Hstep as [tasks s i t ev t' s' Hi Hs].
  pose proof (bi_wf _ _ Hinv) as Hwf. simpl in Hwf.
  destruct t as [|bf n|bf k n|r], ev as [e|bf'| | |e]; cbn [task_step] in Hs; try done.
  - injection Hs as <- <-. quiet.
  - pose proof (observe_counts bf' s Hwf) as [Hwf' _]. pose proof (observe_states bf' s) as Hst.
    destruct (observe_bitfield bf' s) as [[u|e] s1]; injection Hs as <- <-; quiet.
  - destruct (Nat.ltb n max); [|injection Hs as <- <-; quiet].
    pose proof (claim_next_spec bf s) as Hc. pose proof (claim_next_counts bf s) as Hcounts. cbn [run_call] in Hcounts.
    destruct (claim_next bf s) as [[[k|]|e] s1]; injection Hs as <- <-;
      [|destruct Hc as [-> _]; quiet..].
    destruct Hc as (-> & Hk & He & _).
    destruct (scheduler_lookup s k Hwf Hk) as (st & f & Hst & Hf & _).
    destruct (eligible_lookup _ _ _ _ _ Hst Hf He) as (_ & -> & _).
    apply batch_claim; try done. by destruct (Hcounts _ _ Hwf eq_refl).
  - pose proof (bi_holds _ _ Hinv i _ k Hi eq_refl) as Hk. simpl in Hk.
    pose proof (complete_counts (Z.of_nat k) s Hwf) as [Hwf' _].
    rewrite (complete_held s k Hk) in Hs, Hwf'. injection Hs as <- <-.
    eapply (batch_release _ _ _ _ bf k n _ Complete); try done. change (is_done Complete) with 1.
    cbn [credited]. lia.
  - pose proof (bi_holds _ _ Hinv i _ k Hi eq_refl) as Hk. simpl in Hk.
    pose proof (fail_counts (Z.of_nat k) s Hwf) as [Hwf' _].
    destruct (fail_held s k Hk) as (s1 & E & Hst). rewrite E in Hs, Hwf'. injection Hs as <- <-.
    eapply (batch_release _ _ _ _ bf k n _ Missing); try done. change (is_done Missing) with 0.
    cbn [credited]. lia.
Qed.

Lemma batch_run_inv max base b b' : rtc (batch_step max) b b' -> batch_inv base b -> batch_inv base b'.
Proof. induction 1 as [|b b1 b2 Hs _ IH]; [done|]. intros Hb. apply IH. by eapply batch_step_inv. Qed.

Definition nothing_in_flight (s : PieceScheduler) : Prop := forall i, states s !! i <> Some InFlight.

Lemma batch_start k s :
  scheduler_wf s -> nothing_in_flight s -> batch_inv (completes s) (replicate k Connecting, s).
Proof.
  intros Hwf Hn. constructor; simpl; [done|..].
  - by intros t x i [-> _]%lookup_replicate.
  - by intros t1 t2 x1 x2 i [-> _]%lookup_replicate.
  - intros i Hi. by destruct (Hn i).
  - rewrite total_replicate_0 by done. lia.
Qed.

Lemma batch_over base tasks s joined :
  batch_inv base (tasks, s) -> tasks ≡ₚ map Finished joined ->
  scheduler_wf s /\ nothing_in_flight s
  /\ base + total (fun r => credited (Finished r)) joined <= completes s.
Proof.
  intros [Hwf _ _ Hd Hc] Hperm. simpl in *. split_and!; [done| |].
  - intros i (t & x & Ht & Hx)%Hd. apply list_elem_of_lookup_2 in Ht. rewrite Hperm in Ht.
    apply list_elem_of_In, in_map_iff in Ht as (r & <- & _). done.
  - rewrite (total_perm _ _ _ Hperm) in Hc.
    assert (E : total credited (map Finished joined) = total (fun r => credited (Finished r)) joined).
    { clear. unfold total. induction joined; simpl in *; lia. }
    by rewrite E in Hc.
Qed.

Lemma joined_count joined : forall acc,
  0 <= acc.1 -> (fold_left join joined acc).1 <= acc.1 + total (fun r => credited (Finished r)) joined
    /\ 0 <= (fold_left join joined acc).1.
Proof.
  induction joined as [|r joined IH]; intros acc Ha; [simpl; lia|]. cbn [fold_left].
  change (total (fun r => credited (Finished r)) (r :: joined))
    with (credited (Finished r) + total (fun r => credited (Finished r)) joined).
  specialize (IH (join acc r)). destruct r as [n|e]; cbn [join credited fst] in *; [|by apply IH].
  unfold saturating_add in *. destruct IH as [IH1 IH2]; lia.
Qed.

Lemma batches_run_sound max ks s acc s' acc' :
  batches_run max ks s acc s' acc' ->
  scheduler_wf s -> nothing_in_flight s -> 0 <= acc.1 <= completes s ->
  scheduler_wf s' /\ nothing_in_flight s' /\ 0 <= acc'.1 <= completes s'.
Proof.
  induction 1 as [s acc|k ks s acc tasks s' joined Hrun Hj Hd|k ks s acc tasks s' joined s'' acc' Hrun Hj Hd _ IH];
    intros Hwf Hn Hacc; [done|..];
    destruct (batch_over _ _ _ _ (batch_run_inv _ _ _ _ Hrun (batch_start k s Hwf Hn)) Hj) as (Hwf1 & Hn1 & Hc1);
    destruct (joined_count joined acc ltac:(lia)) as [Hle H0].
  - split_and!; [done|done|done|lia].
  - apply IH; [done|done|lia].
Qed.

Lemma scheduler_new_clean n max s : scheduler_new n max = Ok s -> nothing_in_flight s.
Proof.
  unfold scheduler_new. case_match; [done|]. intros [= <-] i. simpl. by intros [? _]%lookup_replicate.
Qed.

(** ** Claims *)

Module SwarmClaims.

(** C7: the tasks of a batch never share a piece and never lose one: however
    their steps interleave, a piece is in flight exactly while one task, and
    only one, works on it; so reporting a stored piece always succeeds and
    lets the task go on, and reporting a failure always succeeds and returns
    the failure itself; and when the last task has finished nothing is left in
    flight for the next batch. *)
Theorem swarm_exclusive (max k : nat) (s0 s : PieceScheduler) (tasks : list Task)
  (Hwf : scheduler_wf s0) (Hclean : nothing_in_flight s0)
  (Hrun : rtc (batch_step max) (replicate k Connecting, s0) (tasks, s)) :
  (forall i, states s !! i = Some InFlight <-> exists t bf n, tasks !! t = Some (Working bf i n))
  /\ (forall t1 t2 bf1 bf2 i n1 n2, tasks !! t1 = Some (Working bf1 i n1) ->
        tasks !! t2 = Some (Working bf2 i n2) -> t1 = t2)
  /\ (forall t bf i n e, tasks !! t = Some (Working bf i n) ->
        (exists s', task_step max PieceStored (Working bf i n) s = Some (Ready bf (S n), s'))
        /\ (exists s', task_step max (PieceFails e) (Working bf i n) s = Some (Finished (Err e), s')))
  /\ ((forall t x, tasks !! t = Some x -> exists r, x = Finished r) -> nothing_in_flight s).
Proof.
  pose proof (batch_run_inv _ _ _ _ Hrun (batch_start k s0 Hwf Hclean)) as [_ Hh Hu Hd _]. simpl in *.
  split_and!.
  - intros i. split.
    + intros (t & x & Ht & Hx)%Hd. destruct x; try done. injection Hx as ->. eauto.
    + intros (t & bf & n & Ht). by apply (Hh t (Working bf i n)).
  - intros t1 t2 bf1 bf2 i n1 n2 H1 H2. by apply (Hu t1 t2 _ _ i H1 H2).
  - intros t bf i n e Ht. pose proof (Hh t _ i Ht eq_refl) as Hi. split; cbn [task_step].
    + rewrite (complete_held s i Hi). eauto.
    + destruct (fail_held s i Hi) as (s' & -> & _). eauto.
  - intros Hfin i (t & x & Ht & Hx)%Hd. by destruct (Hfin t x Ht) as [r ->].
Qed.

(** A download from many peers reports no more pieces than are complete,
    leaves nothing in flight and keeps the scheduler's invariant, however its
    tasks interleave and in whatever order they are joined. *)
Theorem swarm_reports_complete (peers : nat) (count concurrent per_peer : Z) (r : Result Z) (s : PieceScheduler)
  (Hcount : 0 <= count) (Hrun : download_from_peers peers count concurrent per_peer r (Some s)) :
  scheduler_wf s /\ nothing_in_flight s /\ forall n, r = Ok n -> 0 <= n <= completes s.
Proof.
  inversion Hrun as [| |s0 s' downloaded first_error _ Hnew Hb Hr Hs]; subst s'.
  destruct (scheduler_new_wf count 3 s0 Hcount ltac:(lia) Hnew) as (Hwf0 & Hl0 & _ & _).
  pose proof (scheduler_new_clean _ _ _ Hnew) as Hn0.
  assert (Hc0 : 0 <= completes s0).
  { unfold completes, total. clear. induction (states s0) as [|st l IH]; simpl; [lia|].
    unfold is_done at 1. case_decide; lia. }
  destruct (batches_run_sound _ _ _ _ _ _ Hb Hwf0 Hn0 ltac:(simpl; lia)) as (Hwf & Hn & Hle). simpl in Hle.
  split_and!; [done|done|]. intros n Hrn. destruct (downloaded =? 0); [destruct first_error|]; naive_solver.
Qed.

Lemma swarm_exclusive_witness :
  let s0 := mk_PieceScheduler [Missing; Missing] [0; 0] [0; 0] 3 [0; 0] in
  let s := mk_PieceScheduler [InFlight; InFlight] [2; 2] [0; 0] 3 [0; 0] in
  let tasks := [Working [xc0] 0 0; Working [xc0] 1 0] in
  scheduler_new 2 3 = Ok s0 /\ rtc (batch_step 5) (replicate 2 Connecting, s0) (tasks, s)
  /\ states s !! 0%nat = Some InFlight.
Proof.
  intros s0 s tasks. assert (Hnew : scheduler_new 2 3 = Ok s0) by reflexivity.
  assert (Hrun : rtc (batch_step 5) (replicate 2 Connecting, s0) (tasks, s)).
  { eapply rtc_l; [apply (batch_step_task 5 _ _ 0 Connecting (BitfieldArrives [xc0])); reflexivity|].
    eapply rtc_l; [apply (batch_step_task 5 _ _ 1 Connecting (BitfieldArrives [xc0])); reflexivity|].
    eapply rtc_l; [apply (batch_step_task 5 _ _ 0 (Ready [xc0] 0) TakesTurn); reflexivity|].
    eapply rtc_l; [apply (batch_step_task 5 _ _ 1 (Ready [xc0] 0) TakesTurn); reflexivity|].
    apply rtc_refl. }
  split; [exact Hnew|]. split; [exact Hrun|].
  apply (swarm_exclusive 5 2 s0 s tasks (proj1 (scheduler_new_wf 2 3 s0 ltac:(lia) ltac:(lia) Hnew))
           (scheduler_new_clean 2 3 s0 Hnew) Hrun).
  exists 0%nat, [xc0], 0%nat. reflexivity.
Defined.

Lemma swarm_reports_complete_witness :
  let s := mk_PieceScheduler [Complete] [1] [0] 3 [0] in
  download_from_peers 1 1 4 5 (Ok 1) (Some s) /\ 0 <= 1 <= completes s.
Proof.
  intros s. assert (Hrun : download_from_peers 1 1 4 5 (Ok 1) (Some s)).
  { apply (swarm_runs 1 1 4 5 (mk_PieceScheduler [Missing] [0] [0] 3 [0]) s 1 None); [reflexivity|reflexivity|].
    apply (batches_complete 5 1 [] _ (0, None) [Finished (Ok 1%nat)] _ [Ok 1%nat]); [|reflexivity|reflexivity].
    eapply rtc_l; [apply (batch_step_task 5 _ _ 0 Connecting (BitfieldArrives [x80])); reflexivity|].
    eapply rtc_l; [apply (batch_step_task 5 _ _ 0 (Ready [x80] 0) TakesTurn); reflexivity|].
    eapply rtc_l; [apply (batch_step_task 5 _ _ 0 (Working [x80] 0 0) PieceStored); reflexivity|].
    eapply rtc_l; [apply (batch_step_task 5 _ _ 0 (Ready [x80] 1) TakesTurn); reflexivity|].
    apply rtc_refl. }
  split; [exact Hrun|].
  apply (swarm_reports_complete 1 1 4 5 (Ok 1) s ltac:(lia) Hrun). reflexivity.
Defined.

End SwarmClaims.
