(* ===== verification/Program.v ===== *)
(** * Around the server: bodies, the log and the command line

    Three small parts of the program: how bodies are made and collected
    ([http_types.rs]), the one place that writes the log ([utils/logger.rs]), and
    the program's arguments and environment ([main.rs]). *)

From Stdlib Require Import Strings.Byte Strings.String.
From S2P Require Import Prelude Bytes Error FileSystem Server.

(** * Response bodies ([http_types.rs])

    A body is what its frames are, one after the other, each of them data or an
    error; the boxes and streams of the libraries are transparent. *)
Inductive Frame : Type := Data (bytes : list byte).
Definition HttpBody : Type := list (Result Frame).

Definition stream_body (stream : list (Result (list byte))) : HttpBody :=
  map (fun chunk => bytes ← chunk; Ok (Data bytes)) stream.
Definition full_body (value : list byte) : HttpBody := [Ok (Data value)].
Definition empty_body : HttpBody := full_body [].

(** [body.collect()] stops at the first error. *)
Fixpoint collect_body (body : HttpBody) : Result (list byte) :=
  match body with
  | [] => Ok []
  | Err e :: _ => Err e
  | Ok (Data bytes) :: body => rest ← collect_body body; Ok (bytes ++ rest)
  end.

(** What is collected: the chunks in their order, or the first error. *)
Lemma collect_stream chunks : collect_body (stream_body (map Ok chunks)) = Ok (mjoin chunks).
Proof.
  induction chunks as [|c chunks IH]; [done|]. unfold stream_body in *. cbn. by rewrite IH.
Qed.

Lemma collect_error chunks e rest :
  collect_body (stream_body (map Ok chunks ++ Err e :: rest)) = Err e.
Proof. induction chunks as [|c chunks IH]; [done|]. unfold stream_body in *. cbn. by rewrite IH. Qed.

Lemma collect_full value : collect_body (full_body value) = Ok value.
Proof. cbn. by rewrite app_nil_r. Qed.

(** * The log ([utils/logger.rs])

    One switch for the process, and the lines that were written. *)

Record Log : Type := mk_Log { log_enabled : bool; log_out : list text }.
Definition log_init : Log := mk_Log true [].

Definition set_enabled (enabled : bool) (l : Log) : Log := mk_Log enabled (log_out l).
Definition is_enabled (l : Log) : bool := log_enabled l.
(** [PROXY_LOG], if it is set. *)
Definition init_from_env (proxy_log : option text) (l : Log) : Log :=
  match proxy_log with
  | Some value => set_enabled (negb (bool_decide (value = str "0"))) l
  | None => l
  end.

Definition utc_clock_time (unix_seconds : Z) : Z * Z * Z :=
  let seconds_today := unix_seconds mod 86400 in
  (seconds_today / 3600, (seconds_today mod 3600) / 60, seconds_today mod 60).

(** [{:02}]. *)
Definition two_digits (n : Z) : text := if n <? 10 then str "0" ++ format_u64 n else format_u64 n.

(** [written] tells whether standard output takes the line. *)
Definition info (now : Z) (written : bool) (tag args : text) (l : Log) : Log :=
  if negb (is_enabled l) then l
  else
    let '(hour, minute, second) := utc_clock_time now in
    let line := str "[" ++ two_digits hour ++ str ":" ++ two_digits minute ++ str ":" ++ two_digits second
                  ++ str "Z INFO " ++ tag ++ str "] " ++ args in
    if written then mk_Log (log_enabled l) (log_out l ++ [line]) else l.

(** The time of day. *)
Lemma utc_clock_time_correct unix_seconds :
  0 <= unix_seconds ->
  let '(hour, minute, second) := utc_clock_time unix_seconds in
  0 <= hour < 24 /\ 0 <= minute < 60 /\ 0 <= second < 60
  /\ hour * 3600 + minute * 60 + second = unix_seconds mod 86400.
Proof.
  intros H. unfold utc_clock_time. pose proof (Z.mod_pos_bound unix_seconds 86400 ltac:(lia)) as Hd.
  revert Hd. generalize (unix_seconds mod 86400). intros d Hd.
  pose proof (Z.div_mod d 3600 ltac:(lia)). pose proof (Z.mod_pos_bound d 3600 ltac:(lia)).
  pose proof (Z.div_mod (d mod 3600) 60 ltac:(lia)). pose proof (Z.mod_pos_bound (d mod 3600) 60 ltac:(lia)).
  assert (E : (d mod 3600) mod 60 = d mod 60).
  { apply Z.mod_mod_divide. exists 60. lia. }
  rewrite E in *. lia.
Qed.

(** Every field has two digits. *)
Lemma two_digits_length n : 0 <= n < 60 -> length (two_digits n) = 2%nat.
Proof.
  intros Hn. assert (H : forallb (fun k => (length (two_digits (Z.of_nat k)) =? 2)%nat) (seq 0 60) = true) by (by vm_compute).
  rewrite forallb_forall in H. specialize (H (Z.to_nat n)). rewrite Z2Nat.id in H by lia.
  apply Nat.eqb_eq, H, in_seq. lia.
Qed.

(** Nothing is written once the log is switched off. *)
Lemma info_off now written tag args l : info now written tag args (set_enabled false l) = set_enabled false l.
Proof. done. Qed.

(** * The command line ([main.rs])

    How the arguments and the environment become the configuration of the
    server.  Arguments and variables are texts; a variable that is not UTF-8 is
    not set for [env::var]. *)

(** [str::parse] for an unsigned type with the given maximum. *)
Definition parse_up_to (max : Z) (s : text) : option Z :=
  n ← parse_u64 s; if n <=? max then Some n else None.
Definition u16_max : Z := 65535.

Definition environment : Type := text -> option text.

Definition env_or (env : environment) (name : string) (max default_ : Z) : Z :=
  from_option id default_ (env (str name) ≫= parse_up_to max).

(** The program's name is argument 0. *)
Definition main_config (args : list text) (env : environment) : ProxyConfig :=
  let port := from_option id 8080 (args !! 1%nat ≫= parse_up_to u16_max) in
  let cache_dir := from_option path_of [str "cache"] (args !! 2%nat) in
  let allowed_hosts := from_option (split x2c) [] (args !! 3%nat) in
  let defaults := proxy_config_default in
  mk_ProxyConfig port cache_dir
    (env_or env "PROXY_MAX_CACHE_BYTES" u64_max (cfg_max_cache_bytes defaults))
    (env_or env "PROXY_MAX_FILES" u64_max (cfg_max_file_count defaults))
    (env_or env "PROXY_CLEANUP_SECS" u64_max (cfg_cleanup_interval defaults / 1000) * 1000)
    (env_or env "PROXY_MAX_CONCURRENT" u64_max (cfg_max_concurrent_requests defaults))
    (env_or env "PROXY_SHUTDOWN_TIMEOUT_MS" u64_max (cfg_shutdown_timeout defaults))
    (env_or env "PROXY_REQUEST_HEADER_TIMEOUT_MS" u64_max (cfg_request_header_timeout defaults))
    (env_or env "PROXY_MAX_REQUEST_HEADERS" u64_max (cfg_max_request_headers defaults))
    allowed_hosts.

(** The warning that every request will be refused. *)
Definition warns (args : list text) : bool :=
  bool_decide (cfg_allowed_hosts (main_config args (fun _ => None)) = []).

(** Whatever is in the arguments and the environment, every number fits its type. *)
Lemma env_or_range env name max d : 0 <= d <= max -> max <= u64_max -> 0 <= env_or env name max d <= max.
Proof.
  intros Hd Hm. unfold env_or. destruct (env (str name) ≫= parse_up_to max) as [n|] eqn:E; [|done].
  apply bind_Some in E as (s & _ & E). apply bind_Some in E as (k & Ek & E).
  destruct (Z.leb_spec k max); [|done]. injection E as <-. apply parse_u64_range in Ek. unfold is_u64 in Ek. cbn. lia.
Qed.

Lemma main_config_range args env :
  let c := main_config args env in
  0 <= cfg_port c <= u16_max /\ is_u64 (cfg_max_cache_bytes c) /\ is_u64 (cfg_max_file_count c)
  /\ is_u64 (cfg_max_concurrent_requests c) /\ is_u64 (cfg_shutdown_timeout c)
  /\ is_u64 (cfg_request_header_timeout c) /\ is_u64 (cfg_max_request_headers c).
Proof.
  unfold is_u64. cbn [main_config cfg_port cfg_max_cache_bytes cfg_max_file_count cfg_max_concurrent_requests
    cfg_shutdown_timeout cfg_request_header_timeout cfg_max_request_headers].
  split_and!; try (apply env_or_range; cbn; lia).
  all: destruct (args !! 1%nat ≫= parse_up_to u16_max) as [n|] eqn:E; [|cbn; unfold u16_max; lia].
  all: apply bind_Some in E as (s & _ & E); apply bind_Some in E as (k & Ek & E).
  all: destruct (Z.leb_spec k u16_max); [|done]; injection E as <-; apply parse_u64_range in Ek; unfold is_u64 in Ek; cbn; lia.
Qed.

(** A variable that cannot be parsed is as good as none. *)
Lemma env_or_default env name max d :
  (forall s, env (str name) = Some s -> parse_up_to max s = None) -> env_or env name max d = d.
Proof.
  intros H. unfold env_or. destruct (env (str name)) as [s|]; [|done]. cbn. by rewrite (H s eq_refl).
Qed.

(** Without a list of hosts there is a warning; an empty text is a list of one host. *)
Lemma warns_iff args : warns args = true <-> args !! 3%nat = None.
Proof.
  unfold warns. rewrite bool_decide_eq_true. cbn. destruct (args !! 3%nat) as [hosts|]; cbn; [|done].
  split; [|done]. destruct hosts as [|b s]; cbn; [done|]. destruct (decide (b = x2c)); [done|]. by destruct (split _ _).
Qed.
