(* ===== verification/Rqbit.v ===== *)
(** * The torrent backend ([rqbit_backend.rs])

    The two tables the backend keeps beside a session of the torrent library
    (torrents by id, ids by info hash), its limit, and every operation.  The
    library is the class [LibRqbit]: its session is a state that its calls
    change, and every call may fail.  [add_authorized_source] and [remove] are
    composed from the pieces between their await points, so that [rq_step] can
    interleave them: additions exclude each other by a lock, removals do not. *)

From Stdlib Require Import Strings.Byte Strings.String.
From S2P Require Import Prelude Bytes Error External FileSystem TorrentMeta Magnet RequestHandler.

(** ** The library *)

Inductive AddTorrent : Type :=
| FromUrl (url : text)
| FromBytes (bytes : list byte).

Inductive AddTorrentResponse (Tor : Type) : Type :=
| Added (id : Z) (handle : Tor)
| AlreadyManaged (id : Z) (handle : Tor)
| ListOnly.
Arguments Added {Tor}.
Arguments AlreadyManaged {Tor}.
Arguments ListOnly {Tor}.

Record SessionOptions : Type := mk_SessionOptions {
  disable_upload : bool;
  listen_port_range : option (Z * Z);
  enable_upnp_port_forwarding : bool;
  fastresume : bool;
  download_bps : option Z;
  upload_bps : option Z;
}.

Record TorrentStats : Type := mk_TorrentStats {
  st_state : text;
  st_total_bytes : Z;
  st_progress_bytes : Z;
  st_uploaded_bytes : Z;
  st_finished : bool;
  st_error : option text;
}.

(** Sessions [Se], handles of torrents [Tor] and open streams [Stm]; the error
    of a call is its text.  A read that gives [Err None] has timed out. *)
Class LibRqbit (Se Tor Stm : Type) : Type := {
  new_with_opts : path -> SessionOptions -> result text Se;
  add_torrent : AddTorrent -> io Se text (AddTorrentResponse Tor);
  wait_until_initialized : Tor -> io Se text unit;
  session_pause : Tor -> io Se text unit;
  session_unpause : Tor -> io Se text unit;
  update_only_files : Tor -> gset Z -> io Se text unit;
  session_delete : Z -> bool -> io Se text unit;
  set_download_bps : option Z -> Se -> Se;
  cancel : Se -> Se;
  only_files : Tor -> Se -> option (list Z);
  file_infos : Tor -> Se -> result text (list (text * Z));
  stats : Tor -> Se -> TorrentStats;
  open_stream : Tor -> Z -> io Se text Stm;
  seek : Stm -> Z -> io Se text Stm;
  read_exact : Stm -> Z -> io Se (option text) (list byte);
}.

(** ** The backend *)

Record RqbitBackendConfig : Type := mk_RqbitBackendConfig {
  cache_directory : path;
  config_max_torrents : Z;
  download_bytes_per_second : option Z;
}.
Definition config_new (cache_directory : path) : RqbitBackendConfig :=
  mk_RqbitBackendConfig cache_directory 8 None.

Record RqbitFileInfo : Type := mk_RqbitFileInfo {
  fi_file_id : Z;
  fi_relative_path : text;
  fi_length : Z;
  fi_selected : bool;
}.
Record RqbitTorrentStatus : Type := mk_RqbitTorrentStatus {
  ts_state : text;
  ts_total_bytes : Z;
  ts_downloaded_bytes : Z;
  ts_uploaded_bytes : Z;
  ts_finished : bool;
  ts_error : option text;
}.

Record Backend (Se Tor : Type) : Type := mk_Backend {
  session : Se;
  torrents : gmap Z Tor;
  info_hashes : gmap text Z;
  max_torrents : Z;
}.
Arguments mk_Backend {Se Tor}.
Arguments session {Se Tor}.
Arguments torrents {Se Tor}.
Arguments info_hashes {Se Tor}.
Arguments max_torrents {Se Tor}.

Section Operations.
Context {Se Tor Stm : Type} {LR : LibRqbit Se Tor Stm}.
Abbreviation B := (Backend Se Tor).
Abbreviation M := (io B ProxyError.t).

Definition set_torrents (f : gmap Z Tor -> gmap Z Tor) (b : B) : B :=
  mk_Backend (session b) (f (torrents b)) (info_hashes b) (max_torrents b).
Definition set_info_hashes (f : gmap text Z -> gmap text Z) (b : B) : B :=
  mk_Backend (session b) (torrents b) (f (info_hashes b)) (max_torrents b).
Definition set_session (s : Se) (b : B) : B :=
  mk_Backend s (torrents b) (info_hashes b) (max_torrents b).

(** A call of the library, its error under [map_err]. *)
Definition call {A} (wrap : text -> ProxyError.t) (m : io Se text A) : M A := fun b =>
  let '(r, s) := m (session b) in (map_err wrap r, set_session s b).

(** [create_dir_all] is on the file system of the process. *)
Definition with_config (config : RqbitBackendConfig) : io fs ProxyError.t B :=
  if negb (is_absolute (cache_directory config)) then
    throw (ProxyError.Storage (str "librqbit cache directory must be absolute"))
  else if config_max_torrents config =? 0 then
    throw (ProxyError.Request (str "librqbit max_torrents must be greater than zero"))
  else
    _ ← (fun s => let '(r, s) := fs_create_dir_all (cache_directory config) s in
           (map_err (fun e => ProxyError.Storage (str "create librqbit cache failed: " ++ io_text e)) r, s));
    s ← lift (map_err (fun e => ProxyError.Network (str "create librqbit session failed: " ++ e))
                (new_with_opts (cache_directory config)
                   (mk_SessionOptions true None false true (download_bytes_per_second config) None)));
    mret (mk_Backend s ∅ ∅ (config_max_torrents config)).
Definition backend_new (cache_directory : path) : io fs ProxyError.t B :=
  with_config (config_new cache_directory).

(** *** Adding *)

(** The torrent is known already. *)
Definition add_known (info_hash : text) (b : B) : option Z := info_hashes b !! info_hash.
Definition check_limit : M unit :=
  b ← get;
  if max_torrents b <=? Z.of_nat (size (torrents b)) then
    throw (ProxyError.Request (str "librqbit torrent limit (" ++ format_u64 (max_torrents b)
                                 ++ str ") reached"))
  else mret tt.
Definition add_to_session (source : AddTorrent) : M (Z * Tor) :=
  response ← call (fun e => ProxyError.Network (str "add magnet failed: " ++ e)) (add_torrent source);
  match response with
  | Added id handle | AlreadyManaged id handle => mret (id, handle)
  | ListOnly => throw (ProxyError.Request (str "magnet was unexpectedly list-only"))
  end.
Definition initialize (handle : Tor) : M unit :=
  call (fun e => ProxyError.Network (str "initialize magnet failed: " ++ e))
    (wait_until_initialized handle).

Definition add_authorized_source (source : AddTorrent) (info_hash : text) : M Z :=
  b ← get;
  match add_known info_hash b with
  | Some id => mret id
  | None =>
      _ ← check_limit;
      '(id, handle) ← add_to_session source;
      _ ← initialize handle;
      _ ← modify (set_torrents <[id := handle]>);
      _ ← modify (set_info_hashes <[info_hash := id]>);
      mret id
  end.

Definition add_authorized_magnet {UP : UrlParser} {UQ : UrlPairs} (magnet : text)
    (explicitly_authorized : bool) : M Z :=
  if negb explicitly_authorized then
    throw (ProxyError.Request (str "magnet download is not authorized"))
  else
    request ← lift (parse_magnet_uri magnet);
    add_authorized_source (FromUrl magnet) (mg_info_hash request).

Definition add_authorized_torrent_bytes {SHA : Sha1} (torrent_bytes : list byte)
    (explicitly_authorized : bool) : M Z :=
  if negb explicitly_authorized then
    throw (ProxyError.Request (str "torrent download is not authorized"))
  else if bool_decide (torrent_bytes = []) || (4 * 1024 * 1024 <? Z.of_nat (length torrent_bytes)) then
    throw (ProxyError.Request (str "torrent metadata length is invalid"))
  else
    metadata ← lift (parse_torrent_metadata torrent_bytes);
    add_authorized_source (FromBytes torrent_bytes) (TorrentMeta.info_hash metadata).

(** *** Using a torrent *)

Definition unknown_id : ProxyError.t := ProxyError.Request (str "unknown librqbit torrent ID").
Definition torrent (torrent_id : Z) : M Tor :=
  b ← get; lift (ok_or (torrents b !! torrent_id) unknown_id).

(** [read_exact] under its timeout. *)
Definition read_call (stream : Stm) (length : Z) : M (list byte) := fun b =>
  let '(r, s) := read_exact stream length (session b) in
  (map_err (fun e =>
     match e with
     | None => ProxyError.Network (str "librqbit range read timed out")
     | Some e => ProxyError.Storage (str "read librqbit range failed: " ++ e)
     end) r, set_session s b).
Definition read_file_range (torrent_id file_id offset length : Z) : M (list byte) :=
  if (length =? 0) || (8 * 1024 * 1024 <? length) then
    throw (ProxyError.Request (str "invalid librqbit read length"))
  else
    handle ← torrent torrent_id;
    stream ← call (fun e => ProxyError.Request (str "open librqbit stream failed: " ++ e))
               (open_stream handle file_id);
    stream ← call (fun e => ProxyError.Storage (str "seek librqbit stream failed: " ++ e))
               (seek stream offset);
    read_call stream length.

Definition selected_in (only : option (list Z)) (file_id : Z) : bool :=
  match only with
  | Some selected => bool_decide (file_id ∈ selected)
  | None => true
  end.
Definition files (torrent_id : Z) : M (list RqbitFileInfo) :=
  handle ← torrent torrent_id;
  b ← get;
  let only := only_files handle (session b) in
  lift (map_err (fun e => ProxyError.Request (str "read librqbit metadata failed: " ++ e))
    (infos ← file_infos handle (session b);
     Ok (imap (fun file_id '(name, len) =>
           mk_RqbitFileInfo (Z.of_nat file_id) name len (selected_in only (Z.of_nat file_id))) infos))).

Definition status (torrent_id : Z) : M RqbitTorrentStatus :=
  handle ← torrent torrent_id;
  b ← get;
  let s := stats handle (session b) in
  mret (mk_RqbitTorrentStatus (st_state s) (st_total_bytes s) (st_progress_bytes s)
          (st_uploaded_bytes s) (st_finished s) (st_error s)).

Definition pause (torrent_id : Z) : M unit :=
  handle ← torrent torrent_id;
  call (fun e => ProxyError.Network (str "pause librqbit torrent failed: " ++ e)) (session_pause handle).
Definition resume (torrent_id : Z) : M unit :=
  handle ← torrent torrent_id;
  call (fun e => ProxyError.Network (str "resume librqbit torrent failed: " ++ e)) (session_unpause handle).

Definition set_download_limit (bytes_per_second : option Z) (b : B) : B :=
  set_session (set_download_bps bytes_per_second (session b)) b.

Definition select_files (torrent_id : Z) (file_ids : list Z) : M unit :=
  if bool_decide (file_ids = []) || (4096 <? Z.of_nat (length file_ids)) then
    throw (ProxyError.Request (str "librqbit selected file count is invalid"))
  else
    let selected : gset Z := list_to_set file_ids in
    if negb (Nat.eqb (size selected) (length file_ids)) then
      throw (ProxyError.Request (str "librqbit selected file IDs contain duplicates"))
    else
      handle ← torrent torrent_id;
      call (fun e => ProxyError.Request (str "select librqbit files failed: " ++ e))
        (update_only_files handle selected).

(** *** Removing *)

Definition remove_check (torrent_id : Z) : M unit :=
  b ← get;
  if bool_decide (is_Some (torrents b !! torrent_id)) then mret tt else throw unknown_id.
Definition remove_from_session (torrent_id : Z) (delete_files : bool) : M unit :=
  call (fun e => ProxyError.Storage (str "remove librqbit torrent failed: " ++ e))
    (session_delete torrent_id delete_files).
Definition forget_torrent (torrent_id : Z) : B -> B := set_torrents (delete torrent_id).
(** [retain(|_, id| *id != torrent_id)]. *)
Definition forget_hashes (torrent_id : Z) : B -> B :=
  set_info_hashes (filter (fun kv => kv.2 <> torrent_id)).

Definition remove (torrent_id : Z) (delete_files : bool) : M unit :=
  _ ← remove_check torrent_id;
  _ ← remove_from_session torrent_id delete_files;
  _ ← modify (forget_torrent torrent_id);
  modify (forget_hashes torrent_id).

Definition shutdown (b : B) : B := set_session (cancel (session b)) b.

(** *** What the request handler uses of it *)

#[export] Instance rqbit_backend : RqbitBackend B := {|
  rq_files torrent_id :=
    infos ← files torrent_id; mret (map (fun f => (fi_file_id f, fi_length f)) infos);
  rq_read_file_range := read_file_range;
|}.

(** ** Interleavings

    A call is at one of the points where it awaits.  The lock is held by the
    addition that is past [WaitLock]. *)

Inductive task : Type :=
| WaitLock (source : AddTorrent) (info_hash : text)
| Locked (source : AddTorrent) (info_hash : text)
| CheckedHash (source : AddTorrent) (info_hash : text)
| CheckedLimit (source : AddTorrent) (info_hash : text)
| InSession (info_hash : text) (id : Z) (handle : Tor)
| Initialized (info_hash : text) (id : Z) (handle : Tor)
| InTable (info_hash : text) (id : Z)
| RemoveCalled (id : Z) (delete_files : bool)
| RemoveChecked (id : Z) (delete_files : bool)
| OutOfSession (id : Z)
| OutOfTable (id : Z)
| Other (m : M unit)
| AddReturned (r : Result Z)
| Returned (r : Result unit).

Definition holds_lock (t : task) : bool :=
  match t with
  | Locked _ _ | CheckedHash _ _ | CheckedLimit _ _ | InSession _ _ _ | Initialized _ _ _
  | InTable _ _ => true
  | _ => false
  end.

Definition or_return {A} (r : Result A) (k : A -> task) : task :=
  match r with Ok a => k a | Err e => AddReturned (Err e) end.

(** What a task does until it awaits again; [None] when it has returned.  A
    task that waits for the lock is started by [rq_step]. *)
Definition task_run (t : task) (b : B) : option (task * B) :=
  match t with
  | WaitLock _ _ | AddReturned _ | Returned _ => None
  | Locked source h =>
      Some (match add_known h b with
            | Some id => AddReturned (Ok id)
            | None => CheckedHash source h
            end, b)
  | CheckedHash source h =>
      let '(r, b) := check_limit b in Some (or_return r (fun _ => CheckedLimit source h), b)
  | CheckedLimit source h =>
      let '(r, b) := add_to_session source b in
      Some (or_return r (fun '(id, handle) => InSession h id handle), b)
  | InSession h id handle =>
      let '(r, b) := initialize handle b in Some (or_return r (fun _ => Initialized h id handle), b)
  | Initialized h id handle => Some (InTable h id, set_torrents <[id := handle]> b)
  | InTable h id => Some (AddReturned (Ok id), set_info_hashes <[h := id]> b)
  | RemoveCalled id df =>
      let '(r, b) := remove_check id b in
      Some (match r with Ok _ => RemoveChecked id df | Err e => Returned (Err e) end, b)
  | RemoveChecked id df =>
      let '(r, b) := remove_from_session id df b in
      Some (match r with Ok _ => OutOfSession id | Err e => Returned (Err e) end, b)
  | OutOfSession id => Some (OutOfTable id, forget_torrent id b)
  | OutOfTable id => Some (Returned (Ok tt), forget_hashes id b)
  | Other m => let '(r, b) := m b in Some (Returned r, b)
  end.

(** The calls that leave the tables alone, and are one step. *)
Inductive plain_call : M unit -> Prop :=
| pc_read t f o n : plain_call (_ ← read_file_range t f o n; mret tt)
| pc_files t : plain_call (_ ← files t; mret tt)
| pc_status t : plain_call (_ ← status t; mret tt)
| pc_pause t : plain_call (pause t)
| pc_resume t : plain_call (resume t)
| pc_select t fs : plain_call (select_files t fs)
| pc_limit n : plain_call (modify (set_download_limit n)).

Definition called (t : task) : Prop :=
  match t with
  | WaitLock _ _ | RemoveCalled _ _ => True
  | Other m => plain_call m
  | _ => False
  end.

Inductive rq_step : gmap nat task * B -> gmap nat task * B -> Prop :=
| rq_call ts b i t :
    ts !! i = None -> called t -> rq_step (ts, b) (<[i := t]> ts, b)
| rq_lock ts b i source h :
    ts !! i = Some (WaitLock source h) -> (forall j t, ts !! j = Some t -> holds_lock t = false) ->
    rq_step (ts, b) (<[i := Locked source h]> ts, b)
| rq_run ts b i t t' b' :
    ts !! i = Some t -> task_run t b = Some (t', b') -> rq_step (ts, b) (<[i := t']> ts, b').

Inductive rq_reachable (b0 : B) : gmap nat task * B -> Prop :=
| rq_init : rq_reachable b0 (∅, b0)
| rq_next s s' : rq_reachable b0 s -> rq_step s s' -> rq_reachable b0 s'.
End Operations.
Arguments task : clear implicits.
