(* ===== verification/RqbitClaims.v ===== *)
(** * The torrent backend: lemmas and claims

    What every operation does to the tables, the invariant of the interleaved
    operations, and the theorems on the limit, the tables and the responses. *)

From Stdlib Require Import Strings.Byte Strings.String.
From S2P Require Import Prelude Bytes Error External Headers Range DataRequest SourceRegistry FileSystem Storage NetSource Response P2pManifest P2pManifestTheorems P2p P2pClaims RequestHandler HandlerClaims TorrentMeta Magnet Rqbit.

Create HintDb rqbit.

Section Tables.
Context {Se Tor Stm : Type} {LR : LibRqbit Se Tor Stm}.
Abbreviation B := (Backend Se Tor).
Abbreviation M := (io B ProxyError.t).
Implicit Types b : B.

(** ** Calls that leave the tables alone *)

Definition same_tables b b' : Prop :=
  torrents b' = torrents b /\ info_hashes b' = info_hashes b /\ max_torrents b' = max_torrents b.
#[export] Instance same_tables_preorder : PreOrder same_tables.
Proof.
  split; [by intros b; split_and!|]. intros b1 b2 b3 (A & B & C) (A' & B' & C').
  split_and!; congruence.
Qed.

Definition keeps_tables {A} (m : M A) : Prop := forall b r b', m b = (r, b') -> same_tables b b'.

Lemma tables_bind {A C} (m : M A) (k : A -> M C) :
  keeps_tables m -> (forall a, keeps_tables (k a)) -> keeps_tables (m ≫= k).
Proof.
  intros Hm Hk b r b' [(a & b1 & E1 & E2)|(e & E1 & _)]%io_bind_inv; [|by eapply Hm].
  transitivity b1; [by eapply Hm|by eapply Hk].
Qed.
Lemma tables_lift {A} (r : Result A) : keeps_tables (lift r).
Proof. by intros b ? b' [= _ <-]. Qed.
Lemma keeps_mret {A} (a : A) : keeps_tables (mret a).
Proof. by intros b ? b' [= _ <-]. Qed.
Lemma tables_throw {A} e : keeps_tables (throw (A := A) e).
Proof. by intros b ? b' [= _ <-]. Qed.
Lemma keeps_get : keeps_tables get.
Proof. by intros b ? b' [= _ <-]. Qed.
Lemma keeps_call {A} wrap (m : io Se text A) : keeps_tables (call wrap m).
Proof. intros b r b'. unfold call. destruct (m (session b)) as [r0 s]. by intros [= _ <-]. Qed.
Lemma keeps_read_call stream n : keeps_tables (read_call stream n).
Proof. intros b r b'. unfold read_call. destruct (read_exact _ _ _). by intros [= _ <-]. Qed.
Lemma keeps_limit n : keeps_tables (modify (set_download_limit n)).
Proof. by intros b r b' [= _ <-]. Qed.
End Tables.
#[export] Hint Resolve tables_bind tables_lift keeps_mret tables_throw keeps_get keeps_call
  keeps_read_call keeps_limit : rqbit.

(** Unfolds an operation and follows its branches. *)
Ltac keeps_tac :=
  repeat first
    [ progress intros
    | apply tables_bind
    | case_match
    | solve [eauto with rqbit] ].

Section Interleavings.
Context {Se Tor Stm : Type} {LR : LibRqbit Se Tor Stm}.
Abbreviation B := (Backend Se Tor).
Abbreviation M := (io B ProxyError.t).
Implicit Types b : B.

Lemma plain_keeps (m : M unit) : plain_call m -> keeps_tables m.
Proof.
  intros Hm. destruct Hm; unfold read_file_range, files, status, pause, resume, select_files, torrent;
    keeps_tac.
Qed.
Lemma keeps_files id : keeps_tables (files id).
Proof. unfold files, torrent. keeps_tac. Qed.
Lemma keeps_status id : keeps_tables (status id).
Proof. unfold status, torrent. keeps_tac. Qed.
Lemma check_limit_keeps : keeps_tables (Se := Se) (Tor := Tor) check_limit.
Proof. unfold check_limit. keeps_tac. Qed.
Lemma add_to_session_keeps source : keeps_tables (add_to_session source).
Proof. unfold add_to_session. keeps_tac. Qed.
Lemma initialize_keeps handle : keeps_tables (initialize handle).
Proof. unfold initialize. keeps_tac. Qed.
Lemma remove_check_keeps id : keeps_tables (Se := Se) (Tor := Tor) (remove_check id).
Proof. unfold remove_check. keeps_tac. Qed.
Lemma remove_from_session_keeps id df : keeps_tables (remove_from_session id df).
Proof. unfold remove_from_session. keeps_tac. Qed.

Lemma check_limit_Ok b b' u :
  check_limit b = (Ok u, b') -> Z.of_nat (size (torrents b')) < max_torrents b'.
Proof.
  unfold check_limit. cbv [get mbind io_bind]. destruct (Z.leb_spec (max_torrents b) (Z.of_nat (size (torrents b))));
    [done|]. by intros [= _ <-].
Qed.

(** ** The limit

    An addition that is past its check has a place reserved. *)

Definition reserved (t : task Se Tor) : bool :=
  match t with
  | CheckedLimit _ _ | InSession _ _ _ | Initialized _ _ _ => true
  | _ => false
  end.
Definition inserts (t : task Se Tor) : nat :=
  match t with Initialized _ _ _ => 1 | _ => 0 end.

Lemma task_run_effect t b t' b' :
  match t with Other m => plain_call m | _ => True end ->
  task_run t b = Some (t', b') ->
  max_torrents b' = max_torrents b
  /\ (size (torrents b') <= size (torrents b) + inserts t)%nat
  /\ (holds_lock t' = true -> holds_lock t = true)
  /\ match t' with Other _ => False | _ => True end
  /\ (reserved t' = true ->
      inserts t = 0%nat /\ (reserved t = true \/ Z.of_nat (size (torrents b')) < max_torrents b')).
Proof.
  intros Hother. destruct t as [| source h | source h | source h | h id handle | h id handle | h id
    | id df | id df | id | id | m | |]; cbn [task_run]; try done.
  - intros [= <- <-]. destruct (add_known h b); split_and!; done || lia.
  - destruct (check_limit b) as [r b1] eqn:E. intros [= <- <-].
    destruct (check_limit_keeps _ _ _ E) as (-> & _ & ->).
    destruct r as [u|]; cbn; split_and!; try done; try lia. intros _. split; [done|]. right.
    pose proof (check_limit_keeps _ _ _ E) as (Ht & _ & Hm). apply check_limit_Ok in E. by rewrite <- Ht, <- Hm.
  - destruct (add_to_session source b) as [r b1] eqn:E. intros [= <- <-].
    destruct (add_to_session_keeps _ _ _ _ E) as (-> & _ & ->).
    destruct r as [[id handle]|]; cbn; split_and!; auto; try done; try lia.
  - destruct (initialize handle b) as [r b1] eqn:E. intros [= <- <-].
    destruct (initialize_keeps _ _ _ _ E) as (-> & _ & ->).
    destruct r as [u|]; cbn; split_and!; auto; try done; try lia.
  - intros [= <- <-]. cbn. split_and!; try done. rewrite map_size_insert. destruct (torrents b !! id); simpl; lia.
  - intros [= <- <-]. cbn. split_and!; done || lia.
  - destruct (remove_check id b) as [r b1] eqn:E. intros [= <- <-].
    destruct (remove_check_keeps _ _ _ _ E) as (-> & _ & ->).
    destruct r; cbn; split_and!; done || lia.
  - destruct (remove_from_session id df b) as [r b1] eqn:E. intros [= <- <-].
    destruct (remove_from_session_keeps _ _ _ _ _ E) as (-> & _ & ->).
    destruct r; cbn; split_and!; done || lia.
  - intros [= <- <-]. cbn. split_and!; try done. rewrite map_size_delete. destruct (torrents b !! id); simpl; lia.
  - intros [= <- <-]. cbn. split_and!; done || lia.
  - destruct (m b) as [r b1] eqn:E. intros [= <- <-].
    destruct (plain_keeps _ Hother _ _ _ E) as (-> & _ & ->). cbn. split_and!; done || lia.
Qed.

Record rq_inv (s : gmap nat (task Se Tor) * B) : Prop := {
  ri_size : Z.of_nat (size (torrents s.2)) <= max_torrents s.2;
  ri_lock i j t u : s.1 !! i = Some t -> s.1 !! j = Some u ->
    holds_lock t = true -> holds_lock u = true -> i = j;
  ri_reserved i t : s.1 !! i = Some t -> reserved t = true ->
    Z.of_nat (size (torrents s.2)) < max_torrents s.2;
  ri_other i m : s.1 !! i = Some (Other m) -> plain_call m;
}.

Lemma reserved_holds (t : task Se Tor) : reserved t = true -> holds_lock t = true.
Proof. by destruct t. Qed.

Lemma rq_inv_update ts b i t : rq_inv (ts, b) -> reserved t = false ->
  match t with Other m => plain_call m | _ => True end ->
  (holds_lock t = true -> forall j u, ts !! j = Some u -> holds_lock u = false) ->
  rq_inv (<[i := t]> ts, b).
Proof.
  intros [H1 H2 H3 H4] Hr Ho Hl. split; cbn in *; [done| | |].
  - intros j k u v. rewrite !lookup_insert_Some. intros [[<- <-]|[? Hj]] [[<- <-]|[? Hk]] Hu Hv; try done.
    + by rewrite (Hl Hu _ _ Hk) in Hv.
    + by rewrite (Hl Hv _ _ Hj) in Hu.
    + by eapply H2.
  - intros j u. rewrite lookup_insert_Some. intros [[<- <-]|[? Hj]] Hu; [congruence|by eapply H3].
  - intros j m. rewrite lookup_insert_Some. intros [[<- ->]|[? Hj]]; [done|by eapply H4].
Qed.

Lemma rq_inv_step s s' : rq_inv s -> rq_step s s' -> rq_inv s'.
Proof.
  intros Hi Hs. destruct Hs as [ts b i t Hn Hc|ts b i source h Ht Hfree|ts b i t t' b' Ht E].
  - destruct t; try done; by apply rq_inv_update.
  - by apply rq_inv_update.
  - destruct Hi as [H1 H2 H3 H4]. cbn in *. apply task_run_effect in E as (Hm & Hsz & Hl & Ho & Hr);
      [|destruct t; try done; by eapply H4].
    assert (Hlt : reserved t = true -> Z.of_nat (size (torrents b)) < max_torrents b)
      by (intros; by eapply H3).
    assert (Hins : inserts t = 1%nat \/ inserts t = 0%nat) by (destruct t; cbn; lia).
    assert (Hir : inserts t = 1%nat -> reserved t = true) by (by destruct t).
    split; cbn.
    + rewrite Hm. destruct Hins as [Hin|Hin]; [specialize (Hlt (Hir Hin))|]; lia.
    + intros j k u v. rewrite !lookup_insert_Some. intros [[<- <-]|[? Hj]] [[<- <-]|[? Hk]] Hu Hv; try done.
      * eapply (H2 i k t v); auto.
      * eapply (H2 j i u t); auto.
      * by eapply H2.
    + intros j u. rewrite lookup_insert_Some, Hm. intros [[<- <-]|[Hne Hj]] Hu.
      * destruct (Hr Hu) as [Hi0 [Hrt|Hd]]; [specialize (Hlt Hrt)|]; lia.
      * pose proof (H3 j u Hj Hu) as Hb. destruct Hins as [Hin|Hin]; [|lia].
        exfalso. apply Hne. eapply (H2 i j t u); auto using reserved_holds.
    + intros j m. rewrite lookup_insert_Some. intros [[<- ->]|[? Hj]]; [done|by eapply H4].
Qed.

Lemma rq_reachable_inv b0 s :
  torrents b0 = ∅ -> 0 <= max_torrents b0 -> rq_reachable b0 s ->
  rq_inv s /\ max_torrents s.2 = max_torrents b0.
Proof.
  intros He Hm. induction 1 as [|s s' _ [IH IHm] Hs].
  - split; [|done]. split; cbn; try (intros *; by rewrite lookup_empty).
    rewrite He, map_size_empty. lia.
  - split; [by eapply rq_inv_step|]. rewrite <- IHm.
    destruct Hs as [| |ts b i t t' b' Ht E]; try done.
    apply task_run_effect in E as [? _]; [done|]. destruct t; try done. by eapply (ri_other _ IH).
Qed.
End Interleavings.

(** ** One call after the other *)

Section Sequential.
Context {Se Tor Stm : Type} {LR : LibRqbit Se Tor Stm} {UP : UrlParser} {UQ : UrlPairs} {SHA : Sha1}.
Abbreviation B := (Backend Se Tor).
Implicit Types b : B.

Lemma add_source_run source h b r b' :
  add_authorized_source source h b = (r, b') ->
  max_torrents b' = max_torrents b
  /\ match r with
     | Ok id =>
         info_hashes b !! h = Some id /\ b' = b
         \/ info_hashes b !! h = None /\ Z.of_nat (size (torrents b)) < max_torrents b
            /\ info_hashes b' = <[h := id]> (info_hashes b)
            /\ exists handle, torrents b' = <[id := handle]> (torrents b)
     | Err _ => info_hashes b !! h = None /\ same_tables b b'
     end.
Proof.
  unfold add_authorized_source, add_known. cbv [get]. intros E.
  apply io_bind_inv in E as [(b0 & b1 & [= <- <-] & E)|(? & [=] & _)].
  destruct (info_hashes b !! h) as [id|] eqn:Eh.
  { injection E as <- <-. split; [done|by left]. }
  apply io_bind_inv in E as [([] & b1 & E1 & E)|(e & E1 & ->)];
    pose proof (check_limit_keeps _ _ _ E1) as S1; [|by split; [apply S1|]].
  apply check_limit_Ok in E1. destruct S1 as (T1 & H1 & M1).
  apply io_bind_inv in E as [([id handle] & b2 & E2 & E)|(e & E2 & ->)];
    apply add_to_session_keeps in E2 as (T2 & H2 & M2); [|split; [congruence|split; [done|split_and!; congruence]]].
  apply io_bind_inv in E as [([] & b3 & E3 & E)|(e & E3 & ->)];
    apply initialize_keeps in E3 as (T3 & H3 & M3); [|split; [congruence|split; [done|split_and!; congruence]]].
  cbv [modify mbind io_bind mret io_ret] in E. injection E as <- <-. cbn.
  split; [congruence|]. right. split_and!; [done|congruence|congruence|exists handle; congruence].
Qed.

Lemma remove_run id df b r b' :
  remove id df b = (r, b') ->
  max_torrents b' = max_torrents b
  /\ match r with
     | Ok _ => is_Some (torrents b !! id) /\ torrents b' = delete id (torrents b)
               /\ info_hashes b' = filter (fun kv => kv.2 <> id) (info_hashes b)
     | Err _ => same_tables b b'
     end.
Proof.
  unfold remove. intros E.
  apply io_bind_inv in E as [([] & b1 & E1 & E)|(e & E1 & ->)];
    pose proof (remove_check_keeps _ _ _ _ E1) as S1; [|by split; [apply S1|]].
  assert (Hid : is_Some (torrents b !! id)).
  { unfold remove_check in E1. cbv [get mbind io_bind] in E1. case_bool_decide; [done|discriminate]. }
  apply io_bind_inv in E as [([] & b2 & E2 & E)|(e & E2 & ->)];
    apply remove_from_session_keeps in E2; pose proof (transitivity S1 E2) as (T & H & Mx).
  2:{ split; [done|]. by split_and!. }
  cbv [modify mbind io_bind forget_torrent forget_hashes] in E. injection E as <- <-. cbn.
  split; [done|]. by rewrite T, H.
Qed.

(** Every torrent of the table has a hash, and every hash a torrent. *)
Record tables_agree b : Prop := {
  ta_hash h id : info_hashes b !! h = Some id -> is_Some (torrents b !! id);
  ta_torrent id : is_Some (torrents b !! id) -> exists h, info_hashes b !! h = Some id;
  ta_limit : Z.of_nat (size (torrents b)) <= max_torrents b;
}.

Lemma agree_same b b' : same_tables b b' -> tables_agree b -> tables_agree b'.
Proof. intros (Ht & Hh & Hm) [H1 H2 H3]. split; rewrite ?Ht, ?Hh, ?Hm; auto. Qed.

Lemma agree_add source h b r b' :
  add_authorized_source source h b = (r, b') -> tables_agree b -> tables_agree b'.
Proof.
  intros E Ha. apply add_source_run in E as [Hm E].
  destruct r as [id|]; [|by eapply agree_same; [apply E|]].
  destruct E as [[_ ->]|(Hn & Hlt & Hh & handle & Ht)]; [done|]. destruct Ha as [H1 H2 H3].
  split; rewrite ?Hh, ?Ht, ?Hm.
  - intros h' id'. rewrite lookup_insert_Some, lookup_insert_is_Some.
    intros [[<- <-]|[_ E]]; [by left|]. destruct (decide (id = id')); [by left|right; eauto].
  - intros id'. rewrite lookup_insert_is_Some. intros [<-|[Hne Hs]].
    + exists h. by rewrite lookup_insert_eq.
    + destruct (H2 _ Hs) as [h' E]. exists h'. rewrite lookup_insert_ne; [done|]. congruence.
  - rewrite map_size_insert. destruct (torrents b !! id); simpl; lia.
Qed.

Lemma agree_remove id df b r b' : remove id df b = (r, b') -> tables_agree b -> tables_agree b'.
Proof.
  intros E Ha. apply remove_run in E as [Hm E]. destruct r as [u|]; [|by eapply agree_same].
  destruct E as (Hs & Ht & Hh), Ha as [H1 H2 H3]. split; rewrite ?Hh, ?Ht, ?Hm.
  - intros h id' [Eh Hne]%map_lookup_filter_Some. rewrite lookup_delete_ne by (cbn in Hne; congruence). eauto.
  - intros id' Hid. rewrite lookup_delete_is_Some in Hid. destruct Hid as [Hne Hid].
    destruct (H2 _ Hid) as [h E]. exists h. apply map_lookup_filter_Some. split; [done|]. cbn. congruence.
  - rewrite map_size_delete. destruct (torrents b !! id); simpl; lia.
Qed.

Inductive seq_reachable (b0 : B) : B -> Prop :=
| seq_init : seq_reachable b0 b0
| seq_magnet b magnet auth :
    seq_reachable b0 b -> seq_reachable b0 (add_authorized_magnet magnet auth b).2
| seq_bytes b bytes auth :
    seq_reachable b0 b -> seq_reachable b0 (add_authorized_torrent_bytes bytes auth b).2
| seq_remove b id df : seq_reachable b0 b -> seq_reachable b0 (remove id df b).2
| seq_other b m : seq_reachable b0 b -> plain_call m -> seq_reachable b0 (m b).2.

(** An addition is refused, or is one of a source. *)
Lemma add_magnet_run magnet auth b :
  (exists e, add_authorized_magnet magnet auth b = (Err e, b))
  \/ auth = true /\ exists req, parse_magnet_uri magnet = Ok req
     /\ add_authorized_magnet magnet auth b
        = add_authorized_source (FromUrl magnet) (mg_info_hash req) b.
Proof.
  unfold add_authorized_magnet. destruct auth; [|left; by eexists]. cbn [negb].
  cbv [lift mbind io_bind]. destruct (parse_magnet_uri magnet); [right|left]; eauto.
Qed.
Lemma add_bytes_run bytes auth b :
  (exists e, add_authorized_torrent_bytes bytes auth b = (Err e, b))
  \/ auth = true /\ exists meta, parse_torrent_metadata bytes = Ok meta
     /\ add_authorized_torrent_bytes bytes auth b
        = add_authorized_source (FromBytes bytes) (TorrentMeta.info_hash meta) b.
Proof.
  unfold add_authorized_torrent_bytes. destruct auth; [|left; by eexists]. cbn [negb].
  destruct (_ || _); [left; by eexists|].
  cbv [lift mbind io_bind]. destruct (parse_torrent_metadata bytes); [right|left]; eauto.
Qed.

Lemma seq_reachable_agree b0 b : tables_agree b0 -> seq_reachable b0 b -> tables_agree b.
Proof.
  intros H0. induction 1 as [|b magnet auth _ IH|b bytes auth _ IH|b id df _ IH|b m _ IH Hm]; [done|..].
  - destruct (add_magnet_run magnet auth b) as [[e ->]|(_ & req & _ & ->)]; [done|].
    eapply agree_add; [apply surjective_pairing|done].
  - destruct (add_bytes_run bytes auth b) as [[e ->]|(_ & req & _ & ->)]; [done|].
    eapply agree_add; [apply surjective_pairing|done].
  - eapply agree_remove; [apply surjective_pairing|done].
  - eapply agree_same; [|done]. eapply plain_keeps; [done|apply surjective_pairing].
Qed.

Lemma fresh_agree (s : Se) n : 0 <= n -> tables_agree (mk_Backend s ∅ ∅ n : B).
Proof.
  intros Hn. split; cbn.
  - intros h id. by rewrite lookup_empty.
  - intros id. rewrite lookup_empty. by intros [? [=]].
  - rewrite map_size_empty. lia.
Qed.
End Sequential.

(** * The torrent backend: claims

    The limit under every interleaving, the tables under one call after the
    other, the bytes of a torrent response, and two defects. *)

(** ** What a stream of the library reads

    [content] is what the files of a torrent contain; [at_ stream] is the file
    a stream is open on and its position. *)

Class LibFiles {Se Tor Stm : Type} {LR : LibRqbit Se Tor Stm} (content : Tor -> Z -> list byte)
    (at_ : Stm -> Tor * Z * Z) : Prop := {
  lf_infos t s infos i name len : file_infos t s = Ok infos -> infos !! i = Some (name, len) ->
    len = Z.of_nat (length (content t (Z.of_nat i))) /\ len <= u64_max;
  lf_open t f s stm s' : open_stream t f s = (Ok stm, s') -> at_ stm = (t, f, 0);
  lf_seek stm o s stm' s' : seek stm o s = (Ok stm', s') -> at_ stm' = ((at_ stm).1, o);
  lf_read stm n s bytes s' : read_exact stm n s = (Ok bytes, s') ->
    bytes = seg (content (at_ stm).1.1 (at_ stm).1.2) (at_ stm).2 ((at_ stm).2 + n);
}.

Section Streams.
Context {Se Tor Stm : Type} {LR : LibRqbit Se Tor Stm} {content : Tor -> Z -> list byte}
  {at_ : Stm -> Tor * Z * Z} {LF : LibFiles content at_}.
Abbreviation B := (Backend Se Tor).
Implicit Types b : B.

(** A library call that succeeded. *)
Lemma call_Ok {A} wrap (m : io Se text A) b a b' :
  call wrap m b = (Ok a, b') -> exists s, m (session b) = (Ok a, s) /\ b' = set_session s b.
Proof.
  unfold call. destruct (m (session b)) as [[a0|e] s]; [|done]. intros [= <- <-]. eauto.
Qed.

Lemma torrent_Ok id b t b' : torrent id b = (Ok t, b') -> torrents b !! id = Some t /\ b' = b.
Proof. unfold torrent. cbv [get lift mbind io_bind]. by destruct (torrents b !! id); intros [= -> <-]. Qed.

Lemma read_file_range_Ok id f o n b bytes b' :
  read_file_range id f o n b = (Ok bytes, b') ->
  same_tables b b' /\ 0 <> n /\ n <= STREAM_CHUNK
  /\ exists t, torrents b !! id = Some t /\ bytes = seg (content t f) o (o + n).
Proof.
  intros E. split.
  { eapply tables_bind with (m := mret tt) (k := fun _ => read_file_range id f o n); [apply keeps_mret| |exact E].
    intros _. unfold read_file_range, torrent. keeps_tac. }
  unfold read_file_range in E. destruct (_ || _) eqn:Eg; [done|]. apply orb_false_iff in Eg as [? ?].
  split; [lia|]. split; [unfold STREAM_CHUNK; lia|].
  apply io_bind_inv in E as [(t & b1 & E1 & E)|(? & _ & ?)]; [|done].
  apply torrent_Ok in E1 as [Ht ->]. exists t. split; [done|].
  apply io_bind_inv in E as [(s1 & b1 & (q1 & E1 & ->)%call_Ok & E)|(? & _ & ?)]; [|done].
  apply io_bind_inv in E as [(s2 & b2 & (q2 & E2 & ->)%call_Ok & E)|(? & _ & ?)]; [|done].
  unfold read_call in E. cbn [session set_session] in E, E2.
  destruct (read_exact s2 n q2) as [[bs|] q3] eqn:E3; [|done]. injection E as <- _.
  apply lf_open in E1. apply lf_seek in E2. apply lf_read in E3. rewrite E3, E2, E1. done.
Qed.

(** What is delivered is an initial part of the range, all of it unless there
    is an error. *)
Lemma torrent_chunks_sound fuel id f t current end_ b st b' :
  0 <= current <= end_ + 1 -> end_ < u64_max -> end_ - current + 1 <= Z.of_nat fuel ->
  torrents b !! id = Some t ->
  read_torrent_chunks id f (stream_ranges fuel current end_) b = (st, b') ->
  exists stop, current <= stop <= end_ + 1 /\ stream_bytes st = seg (content t f) current stop
               /\ (stream_error st = None -> stop = end_ + 1).
Proof.
  revert current b st. induction fuel as [|fuel IH]; intros current b st Hc He Hf Ht E.
  { exists current. injection E as <- <-. rewrite seg_nil. simpl. split_and!; [lia|lia|done|lia]. }
  destruct (decide (end_ < current)) as [Hlt|Hge].
  { rewrite stream_ranges_end in E by done. injection E as <- <-. exists current.
    rewrite seg_nil. simpl. split_and!; [lia|lia|done|lia]. }
  destruct (stream_ranges_S fuel current end_) as (next & Hn & _ & Hr); [lia|lia|].
  rewrite Hr in E. cbn [read_torrent_chunks rq_read_file_range rqbit_backend] in E.
  destruct (read_file_range _ _ _ _ b) as [[chunk|err] b1] eqn:E1; cycle 1.
  { injection E as <- <-. exists current. rewrite seg_nil. simpl. split_and!; [lia|lia|done|done]. }
  apply read_file_range_Ok in E1 as ((Ht1 & _) & _ & _ & t' & Ht' & ->). simplify_eq.
  destruct (read_torrent_chunks _ _ _ b1) as [rest b2] eqn:E2. injection E as <- <-.
  apply IH in E2 as (stop & Hst & Hb & Hend); [|lia|lia|lia|by rewrite Ht1].
  exists stop. simpl. rewrite Hb. replace (current + (next - 1 - current + 1)) with next by lia.
  rewrite seg_app by lia. split_and!; [lia|lia|done|done].
Qed.

(** A file the library can read at every place. *)
Definition readable (t : Tor) (f : Z) : Prop :=
  forall s o n, 0 <= o -> 0 < n -> o + n <= Z.of_nat (length (content t f)) ->
    exists stm s1 stm' s2 bytes s3, open_stream t f s = (Ok stm, s1) /\ seek stm o s1 = (Ok stm', s2)
      /\ read_exact stm' n s2 = (Ok bytes, s3).

Lemma torrent_chunks_complete fuel id f t current end_ b st b' :
  0 <= current <= end_ + 1 -> end_ < u64_max -> end_ < Z.of_nat (length (content t f)) ->
  torrents b !! id = Some t -> readable t f ->
  read_torrent_chunks id f (stream_ranges fuel current end_) b = (st, b') -> stream_error st = None.
Proof.
  revert current b st. induction fuel as [|fuel IH]; intros current b st Hc He Hl Ht Hr E.
  { by injection E as <- <-. }
  destruct (decide (end_ < current)) as [Hlt|Hge].
  { rewrite stream_ranges_end in E by done. by injection E as <- <-. }
  destruct (stream_ranges_S fuel current end_) as (next & Hn & Hlen & Hs); [lia|lia|].
  rewrite Hs in E. cbn [read_torrent_chunks rq_read_file_range rqbit_backend] in E.
  destruct (Hr (session b) current (next - 1 - current + 1)) as (s1 & q1 & s2 & q2 & bytes & q3 & E1 & E2 & E3);
    [lia|lia|lia|].
  assert (Er : read_file_range id f current (next - 1 - current + 1) b = (Ok bytes, set_session q3 b)).
  { unfold read_file_range. unfold STREAM_CHUNK in Hlen.
    destruct (Z.eqb_spec (next - 1 - current + 1) 0); [lia|].
    destruct (Z.ltb_spec (8 * 1024 * 1024) (next - 1 - current + 1)); [lia|]. cbn [orb].
    unfold torrent. cbv [get lift mbind io_bind]. rewrite Ht. cbn [ok_or].
    unfold call. rewrite E1. cbn [map_err session set_session]. rewrite E2. cbn [map_err session set_session].
    unfold read_call. cbn [session set_session]. by rewrite E3. }
  rewrite Er in E.
  destruct (read_torrent_chunks _ _ _ (set_session q3 b)) as [rest b2] eqn:E4. injection E as <- <-.
  simpl. eapply (IH next); [| | | | |exact E4]; try done; lia.
Qed.

Context {HT : HeaderText} {St Bd Host : Type}.

Lemma find_file_Ok f infos (only : option (list Z)) id len :
  find_file f (map (fun i => (fi_file_id i, fi_length i))
    (imap (fun file_id '(name, len) =>
       mk_RqbitFileInfo (Z.of_nat file_id) name len (selected_in only (Z.of_nat file_id))) infos))
    = Some (id, len) ->
  id = f /\ 0 <= f /\ exists name, infos !! Z.to_nat f = Some (name, len).
Proof.
  unfold find_file. intros [Hin Hf]%List.find_some. cbn in Hf. apply Z.eqb_eq in Hf as ->.
  apply List.in_map_iff in Hin as ([i n l s] & [= <- <-] & Hin). cbn in *.
  apply list_elem_of_In, elem_of_lookup_imap in Hin as (k & [name len] & [= -> -> -> ->] & Hk).
  split; [done|]. split; [lia|]. exists name. by rewrite Nat2Z.id.
Qed.

Lemma rq_files_Ok id b fs b' :
  rq_files id b = (Ok fs, b') ->
  b' = b /\ exists t infos only, torrents b !! id = Some t /\ file_infos t (session b) = Ok infos
    /\ fs = map (fun i => (fi_file_id i, fi_length i))
              (imap (fun file_id '(name, len) =>
                 mk_RqbitFileInfo (Z.of_nat file_id) name len (selected_in only (Z.of_nat file_id))) infos).
Proof.
  cbn [rq_files rqbit_backend]. intros [(infos & b1 & E1 & [= <- <-])|(? & _ & ?)]%io_bind_inv; [|done].
  unfold files in E1. apply io_bind_inv in E1 as [(t & b2 & [Ht ->]%torrent_Ok & E)|(? & _ & ?)]; [|done].
  cbv [get lift] in E. apply io_bind_inv in E as [(b3 & b4 & [= <- <-] & E)|(? & [=] & _)].
  injection E as E <-. split; [done|].
  destruct (file_infos t (session b)) as [l|] eqn:El; cbn in E; [|discriminate E].
  injection E as <-. eauto 10.
Qed.

(** What an answered request for a torrent file has asked for. *)
Lemma handle_torrent_Ok (req : Request) (h : RequestHandler St B Host) (resp : Response (AppBody Bd)) h' :
  handle_torrent req false h = (Ok resp, h') ->
  exists b id f t start end_,
    rh_backend h = Some b /\ h' = set_rqbit_backend b h
    /\ parse_torrent_path (uri_path (uri req)) = Ok (id, f) /\ torrents b !! id = Some t
    /\ requested_range req (Z.of_nat (length (content t f))) = Ok (start, end_)
    /\ Z.of_nat (length (content t f)) <= u64_max
    /\ resp = range_response req start end_ (Z.of_nat (length (content t f))) (TorrentStream id f start end_).
Proof.
  unfold handle_torrent. intros [([id f] & h1 & [= Ep <-] & E)|(? & _ & ?)]%io_bind_inv; [|done].
  apply io_bind_inv in E as [(h2 & h3 & [= <- <-] & E)|(? & [=] & _)].
  destruct (rh_backend h) as [b|] eqn:Eb; [|done].
  apply io_bind_inv in E as [(fs & h4 & E1 & E)|(? & _ & ?)]; [|done].
  unfold on_backend in E1. destruct (rq_files id b) as [[fs0|] b1] eqn:Ef; [|done]. injection E1 as <- <-.
  apply rq_files_Ok in Ef as (-> & t & infos & only & Ht & Hi & ->).
  apply io_bind_inv in E as [([i len] & h5 & E1 & E)|(? & _ & ?)]; [|done]. injection E1 as E1 <-.
  apply ok_or_Ok, find_file_Ok in E1 as (-> & H0 & name & Hk).
  destruct (lf_infos _ _ _ _ _ _ Hi Hk) as [-> Hmax]. rewrite Z2Nat.id in * by done.
  apply io_bind_inv in E as [([start end_] & h6 & E1 & E)|(? & _ & ?)]; [|done]. injection E1 as E1 <-.
  injection E as <- <-. exists b, id, f, t, start, end_. by split_and!.
Qed.
End Streams.

(** ** A session for the witnesses

    Ids are counted up; the second component says that torrents cannot be
    initialized.  Each torrent has one file. *)

Module RqbitDemo.
Definition demo_content (t f : Z) : list byte := if f =? 0 then str "0123456789" else [].
#[export] Instance demo_lib : LibRqbit (Z * bool) Z (Z * Z * Z) := {|
  new_with_opts _ _ := Ok (1, false);
  add_torrent _ s := (Ok (Added s.1 s.1), (s.1 + 1, s.2));
  wait_until_initialized _ s := (if s.2 : bool then Err (str "timeout") else Ok tt, s);
  session_pause _ s := (Ok tt, s);
  session_unpause _ s := (Ok tt, s);
  update_only_files _ _ s := (Ok tt, s);
  session_delete _ _ s := (Ok tt, s);
  set_download_bps _ s := s;
  cancel s := s;
  only_files _ _ := None;
  file_infos _ _ := Ok [(str "a.mp4", 10)];
  stats _ _ := mk_TorrentStats (str "live") 10 10 0 true None;
  open_stream t f s := (Ok (t, f, 0), s);
  seek stm o s := (Ok (stm.1, o), s);
  read_exact stm n s := (Ok (seg (demo_content stm.1.1 stm.1.2) stm.2 (stm.2 + n)), s);
|}.
#[export] Instance demo_files : @LibFiles _ _ _ demo_lib demo_content id.
Proof.
  split.
  - intros t s infos i name len [= <-] Hi. destruct i as [|i]; [|by apply lookup_lt_Some in Hi; simpl in Hi; lia].
    injection Hi as <- <-. vm_compute. split; [done|by intros].
  - by intros t f s stm s' [= <- <-].
  - by intros stm o s stm' s' [= <- <-].
  - by intros [[t f] o] n s bytes s' [= <- <-].
Qed.
Definition b0 : Backend (Z * bool) Z := mk_Backend (1, false) ∅ ∅ 8.
Definition H : text := str "hash".
Definition SRC : AddTorrent := FromBytes [].
Definition root : path := [ROOT; str "torrent"].
Definition fs0 : fs := mk_fs ∅ ∅ 0 ∅ [].
Definition MAGNET : text := str "magnet:?xt=urn:btih:0123456789abcdef0123456789abcdef01234567".
Definition magnet_url : UrlParser := fun s => Some (Url.mk (str "magnet") [] None None None None [] None s).
Definition magnet_query : UrlPairs := {|
  query_pairs := fun u => [(str "xt", drop 11 (Url.as_str u))];
  url_eqb := fun a b => bool_decide (Url.as_str a = Url.as_str b);
|}.
Definition no_sha1 : Sha1 := fun _ => [].
Definition b1 : Backend (Z * bool) Z :=
  (@add_authorized_magnet _ _ _ demo_lib magnet_url magnet_query MAGNET true b0).2.
Definition get_torrent : Request :=
  mk_Request (str "GET") (mk_Uri (str "/torrent/1/0") (str "/torrent/1/0")) [(RANGE, str "bytes=2-4")].
Definition torrent_handler : RequestHandler unit (Backend (Z * bool) Z) nat :=
  mk_RequestHandler tt 1 SourceRegistry.default metrics_default P2pRegistryDemo.registry (Some b1).
Definition torrent_run : Result (Response (AppBody unit)) * RequestHandler unit (Backend (Z * bool) Z) nat :=
  handle_torrent (HT := demo_text) get_torrent false torrent_handler.
Definition one : gmap nat (task (Z * bool) Z) * Backend (Z * bool) Z :=
  ({[0%nat := WaitLock SRC H]}, b0).
End RqbitDemo.

Module RqbitClaims.
Import RqbitDemo.

(** C11: the limit of torrents holds under every interleaving: however additions,
    removals and all other calls are mixed at their await points, a backend that
    was created with a limit never has more torrents in its table, although the
    check and the insertion of an addition are apart; and never are two
    additions under way at once. *)
Theorem torrent_limit_held {Se Tor Stm : Type} {LR : LibRqbit Se Tor Stm} (config : RqbitBackendConfig)
    (s s' : fs) (start : Backend Se Tor) (ts : gmap nat (task Se Tor)) (b : Backend Se Tor) :
  0 <= config_max_torrents config -> with_config config s = (Ok start, s') ->
  rq_reachable start (ts, b) ->
  max_torrents b = config_max_torrents config /\ 0 < max_torrents b
  /\ Z.of_nat (size (torrents b)) <= config_max_torrents config
  /\ (forall i j t u, ts !! i = Some t -> ts !! j = Some u ->
        holds_lock t = true -> holds_lock u = true -> i = j).
Proof.
  intros H0 E Hr. unfold with_config in E. destruct (negb _); [done|].
  destruct (Z.eqb_spec (config_max_torrents config) 0); [done|].
  apply io_bind_inv in E as [(? & ? & _ & E)|(? & _ & ?)]; [|done].
  apply io_bind_inv in E as [(se & ? & _ & [= <- <-])|(? & _ & ?)]; [|done].
  apply rq_reachable_inv in Hr as [[H1 H2 _ _] Hm]; [|done|done]. cbn in *.
  rewrite Hm in *. split_and!; [done|lia|done|done].
Qed.

(** One call after the other, the two tables agree: every known hash leads to
    a torrent and every torrent has a hash, within the limit.  A successful
    addition is found again, without asking the session, by every later
    addition of the hash; a failed one changes no table; a successful removal
    takes the torrent and all its hashes out and nothing else, a failed one
    changes no table; and nothing is added without authorization. *)
Theorem torrent_tables_correct {Se Tor Stm : Type} {LR : LibRqbit Se Tor Stm} {UP : UrlParser}
    {UQ : UrlPairs} {SHA : Sha1} (se : Se) (n : Z) (b : Backend Se Tor) :
  0 <= n -> seq_reachable (mk_Backend se ∅ ∅ n) b ->
  tables_agree b
  /\ (forall source h r b', add_authorized_source source h b = (r, b') ->
        match r with
        | Ok id => (exists t, torrents b' !! id = Some t)
                   /\ forall source', add_authorized_source source' h b' = (Ok id, b')
        | Err _ => same_tables b b'
        end)
  /\ (forall id df r b', remove id df b = (r, b') ->
        match r with
        | Ok _ => torrents b' = delete id (torrents b)
                  /\ forall h i, info_hashes b' !! h = Some i <-> info_hashes b !! h = Some i /\ i <> id
        | Err _ => same_tables b b'
        end)
  /\ (forall magnet, exists e, add_authorized_magnet magnet false b = (Err e, b))
  /\ (forall bytes, exists e, add_authorized_torrent_bytes bytes false b = (Err e, b)).
Proof.
  intros Hn Hr. pose proof (seq_reachable_agree _ _ (fresh_agree se n Hn) Hr) as Ha.
  split_and!; [done| | |by intros; eexists|by intros; eexists].
  - intros source h r b' E. pose proof (agree_add _ _ _ _ _ E Ha) as Ha'.
    apply add_source_run in E as [_ E]. destruct r as [id|]; [|by destruct E].
    assert (Hh : info_hashes b' !! h = Some id).
    { destruct E as [[? ->]|(_ & _ & -> & _)]; [done|by rewrite lookup_insert_eq]. }
    split; [by apply (ta_hash _ Ha') in Hh|]. intros source'.
    unfold add_authorized_source, add_known. cbv [get mbind io_bind]. by rewrite Hh.
  - intros id df r b' E. apply remove_run in E as [_ E]. destruct r; [|done].
    destruct E as (_ & Ht & Hh). split; [done|]. intros h i. rewrite Hh, map_lookup_filter_Some. done.
Qed.


(** A removal that is interleaved with an addition can strand a hash: when it
    runs between the two insertions of the addition, the hash is left pointing
    to a torrent that is not in the table.  From then on every addition of that
    hash reports success with this id, while every use of the id, its removal
    included, is refused as unknown. *)
Theorem interleaved_removal_strands_hash :
  exists ts b id, rq_reachable b0 (ts, b)
    /\ (forall i t, ts !! i = Some t -> task_run t b = None)
    /\ info_hashes b !! H = Some id /\ torrents b !! id = None
    /\ (forall source, add_authorized_source source H b = (Ok id, b))
    /\ (forall df, remove id df b = (Err unknown_id, b))
    /\ files id b = (Err unknown_id, b).
Proof.
  set (adder t := ({[0%nat := t]} : gmap nat (task (Z * bool) Z))).
  assert (Hr : rq_reachable b0
    ({[0%nat := AddReturned (Ok 1); 1%nat := Returned (Ok tt)]}, mk_Backend (2, false) ∅ {[H := 1]} 8)).
  { assert (R1 : rq_reachable b0 (adder (InTable H 1), mk_Backend (2, false) {[1 := 1]} ∅ 8)).
    { eapply rq_next; [|by apply (rq_run (adder (Initialized H 1 1)) (mk_Backend (2, false) ∅ ∅ 8) 0%nat (Initialized H 1 1))].
      eapply rq_next; [|by apply (rq_run (adder (InSession H 1 1)) (mk_Backend (2, false) ∅ ∅ 8) 0%nat (InSession H 1 1))].
      eapply rq_next; [|by apply (rq_run (adder (CheckedLimit SRC H)) b0 0%nat (CheckedLimit SRC H))].
      eapply rq_next; [|by apply (rq_run (adder (CheckedHash SRC H)) b0 0%nat (CheckedHash SRC H))].
      eapply rq_next; [|by apply (rq_run (adder (Locked SRC H)) b0 0%nat (Locked SRC H))].
      eapply rq_next; [|apply (rq_lock (adder (WaitLock SRC H)) b0 0%nat SRC H); [done|]].
      2:{ intros j t. unfold adder. rewrite lookup_singleton_Some. by intros [_ <-]. }
      eapply rq_next; [apply rq_init|]. by apply rq_call. }
    set (both t := (<[1%nat := t]> (adder (InTable H 1)))).
    eapply rq_next; [|by apply (rq_run (both (Returned (Ok tt))) (mk_Backend (2, false) ∅ ∅ 8) 0%nat (InTable H 1))].
    eapply rq_next; [|by apply (rq_run (both (OutOfTable 1)) (mk_Backend (2, false) ∅ ∅ 8) 1%nat (OutOfTable 1))].
    eapply rq_next; [|by apply (rq_run (both (OutOfSession 1)) (mk_Backend (2, false) {[1 := 1]} ∅ 8) 1%nat (OutOfSession 1))].
    eapply rq_next; [|by apply (rq_run (both (RemoveChecked 1 false)) (mk_Backend (2, false) {[1 := 1]} ∅ 8) 1%nat (RemoveChecked 1 false))].
    eapply rq_next; [|by apply (rq_run (both (RemoveCalled 1 false)) (mk_Backend (2, false) {[1 := 1]} ∅ 8) 1%nat (RemoveCalled 1 false))].
    eapply rq_next; [exact R1|]. by apply rq_call. }
  eexists _, _, 1. split_and!; [exact Hr| |done|done|done|done|done].
  intros i t. rewrite lookup_insert_Some, lookup_singleton_Some. by intros [[_ <-]|[_ [_ <-]]].
Qed.

(** A torrent whose initialization fails stays in the session: the addition
    reports the error and changes no table, so that the torrent does not count
    against the limit, and since its id is not in the table no call of the
    backend can stop or remove it. *)
Theorem failed_initialization_leaks {Se Tor Stm : Type} {LR : LibRqbit Se Tor Stm}
    (source : AddTorrent) (h : text) (b : Backend Se Tor) (id : Z) (handle : Tor) (s1 s2 : Se) (e : text) :
  add_torrent source (session b) = (Ok (Added id handle), s1) ->
  wait_until_initialized handle s1 = (Err e, s2) ->
  info_hashes b !! h = None -> torrents b !! id = None ->
  Z.of_nat (size (torrents b)) < max_torrents b ->
  let b' := set_session s2 b in
  add_authorized_source source h b
    = (Err (ProxyError.Network (str "initialize magnet failed: " ++ e)), b')
  /\ (forall df, remove id df b' = (Err unknown_id, b')) /\ pause id b' = (Err unknown_id, b').
Proof.
  intros Ea Ew Eh Ei Hlt b'. split_and!.
  - unfold add_authorized_source, add_known, check_limit, add_to_session, initialize, call.
    cbv [get mbind io_bind mret]. rewrite Eh.
    destruct (Z.leb_spec (max_torrents b) (Z.of_nat (size (torrents b)))); [lia|].
    cbn [io_ret]. rewrite Ea. cbn. by rewrite Ew.
  - intros df. unfold remove, remove_check. cbv [get mbind io_bind]. cbn [torrents set_session b'].
    by rewrite bool_decide_eq_false_2 by (rewrite Ei; by intros [? [=]]).
  - unfold pause, torrent. cbv [get lift mbind io_bind]. cbn [torrents set_session b']. by rewrite Ei.
Qed.
Lemma torrent_limit_held_witness :
  max_torrents b0 = 8 /\ Z.of_nat (size (torrents b0)) <= 8.
Proof.
  destruct (torrent_limit_held (config_new root) fs0 (set_dirs (union (ancestors root)) fs0) b0 one.1 b0)
    as (Hm & _ & Hs & _); [done|reflexivity| |by split].
  eapply rq_next; [apply rq_init|]. by apply (rq_call ∅ b0 0%nat).
Defined.

Lemma torrent_tables_correct_witness :
  torrents b1 !! 1 = Some 1 /\ tables_agree b1.
Proof.
  split; [reflexivity|].
  apply (@torrent_tables_correct _ _ _ demo_lib magnet_url magnet_query no_sha1 (1, false) 8 b1); [done|].
  apply seq_magnet, seq_init.
Defined.


Lemma failed_initialization_leaks_witness :
  (add_authorized_source SRC H (mk_Backend (1, true) ∅ ∅ 8 : Backend (Z * bool) Z)).2
  = mk_Backend (2, true) ∅ ∅ 8.
Proof.
  destruct (failed_initialization_leaks SRC H (mk_Backend (1, true) ∅ ∅ 8) 1 1 (2, true) (2, true)
    (str "timeout")) as [E _];
    [reflexivity..|]. by rewrite E.
Defined.
End RqbitClaims.
