(* ===== verification/Ffi.v ===== *)
(** * The C interface ([ffi.rs])

    First what crosses the interface in memory of the other side, then the
    exported functions over a heap of handles. *)

From Stdlib Require Import Strings.Byte Strings.String.
From S2P Require Import Prelude Bytes Error External DataRequest SourceRegistry FileSystem Digest P2pManifest P2p RequestHandler Server TorrentMeta Magnet Rqbit.

(** * Buffers and callbacks of the C interface ([ffi.rs])

    What crosses the interface in memory the other side owns: texts that are
    read, JSON that is written into a buffer, and the two callbacks of the host.
    A pointer to a text is [None] when it is null, and otherwise what stands
    before the terminating zero; a buffer is given by its capacity, and what a
    call puts at its start is part of the result. *)
Definition c_string : Type := option text.

(** [CStr::from_ptr(value).to_str()]. *)
Definition read_string (value : c_string) : option text :=
  value ≫= fun s => if utf8_valid s then Some s else None.

(** ** JSON into a buffer *)

(** A buffer: [None] when null. *)
Definition c_buffer : Type := option Z.

Definition usize_max : Z := u64_max.

(** The number that is returned, and what was written. *)
Definition write_ffi_json (json : text) (buffer : c_buffer) : Z * option text :=
  let required := Z.of_nat (length json) + 1 in
  if usize_max <? required then (0, None)
  else
    match buffer with
    | Some capacity => if capacity <? required then (required, None) else (required, Some (json ++ [x00]))
    | None => (required, None)
    end.

(** ** The refresh callback *)

Definition REFRESH_BUFFER : Z := 16 * 1024.

(** A callback of the host: from its context, the id and the capacity to the
    length it returns and the bytes it has put at the start of the buffer. *)
Definition ProxySourceRefreshCallback : Type := Z -> Z -> Z -> Z * text.

(** A buffer of zeros in which a callback has written. *)
Definition filled (capacity : Z) (written : text) : text :=
  take (Z.to_nat capacity) (written ++ replicate (Z.to_nat capacity) x00).

Definition refresh_provider_of (callback : ProxySourceRefreshCallback) (context : Z) : RefreshProvider :=
  fun source_id =>
    let '(length, written) := callback context source_id REFRESH_BUFFER in
    if (length =? 0) || (REFRESH_BUFFER <? length) then
      Err (ProxyError.Request (str "source refresh callback returned no URL"))
    else
      let url := take (Z.to_nat length) (filled REFRESH_BUFFER written) in
      if utf8_valid url then Ok url
      else Err (ProxyError.Request (str "source refresh callback returned invalid UTF-8")).

(** ** Pieces of the host *)

Definition MAX_P2P_CALLBACK_PIECE_BYTES : Z := 8 * 1024 * 1024.

(** The host: the state its callbacks work on, and its files. *)
Record HostEnv (X : Type) : Type := mk_HostEnv { he_state : X; he_files : fs }.
Arguments mk_HostEnv {X}.
Arguments he_state {X}.
Arguments he_files {X}.

Section Pieces.
Context {X : Type}.

Definition ProxyP2pPieceCallback : Type := Z -> nat -> c_buffer -> X -> Z * text * X.

Definition on_state {A} (f : X -> A * X) (h : HostEnv X) : A * HostEnv X :=
  let '(a, x) := f (he_state h) in (a, mk_HostEnv x (he_files h)).

(** The first call asks for the length, the second one fills the buffer. *)
Definition callback_piece (callback : ProxyP2pPieceCallback) (context : Z) (piece_index : nat) :
    io (HostEnv X) ProxyError.t (list byte) := fun h =>
  let '((required, _), h) := on_state (callback context piece_index None) h in
  if (required =? 0) || (MAX_P2P_CALLBACK_PIECE_BYTES <? required) then
    (Err (ProxyError.Request (str "P2P Host piece length is invalid")), h)
  else
    let '((written, bytes), h) := on_state (callback context piece_index (Some required)) h in
    if negb (written =? required) then
      (Err (ProxyError.Request (str "P2P Host piece write length mismatch")), h)
    else (Ok (filled required bytes), h).

(** [file.by_ref().take(limit).read_to_end(..)]. *)
Definition read_limited (ino : nat) (limit : Z) : FS (list byte) := syscall (fun s =>
  match inodes s !! ino with
  | Some c => (Ok (take (Z.to_nat limit) c), s)
  | None => (Err not_found, s)
  end).

Definition on_files {A} (e : ProxyError.t) (m : FS A) : io (HostEnv X) ProxyError.t A := fun h =>
  let '(r, s) := m (he_files h) in (map_err (fun _ => e) r, mk_HostEnv (he_state h) s).

Definition piece_name (piece_index : nat) : text := format_u64 (Z.of_nat piece_index) ++ str ".piece".

Definition directory_piece (piece_directory : path) (piece_index : nat) :
    io (HostEnv X) ProxyError.t (list byte) :=
  file ← on_files (ProxyError.Request (str "P2P Host piece is unavailable"))
           (fs_open (piece_directory ++ [piece_name piece_index]));
  bytes ← on_files (ProxyError.Request (str "P2P Host piece could not be read"))
            (read_limited file (MAX_P2P_CALLBACK_PIECE_BYTES + 1));
  if bool_decide (bytes = []) || (MAX_P2P_CALLBACK_PIECE_BYTES <? Z.of_nat (length bytes)) then
    throw (ProxyError.Request (str "P2P Host piece length is invalid"))
  else mret bytes.
End Pieces.
Arguments ProxyP2pPieceCallback : clear implicits.

(** * The C interface ([ffi.rs])

    Handles are pointers into a heap of live handles.  Every function first
    looks at the pointer: a null pointer is answered with the failure value, a
    live one gives the handle, and anything else is undefined behaviour, which
    is [None] here.  The server of a handle is its request handler and its life
    (both of [Server]); the registry of P2P sources is shared between the handle
    and its server, so it is kept in one place.  Torrent commands go through a
    channel to a task of the server's runtime, which works one command after the
    other; a caller waits for a reply at most a minute, and a command whose
    caller has given up is still carried out.  Mutexes are taken to be sound:
    nothing panics while it holds one. *)

(** ** The parts a handle is made of *)

Inductive RqbitCommand : Type :=
| Add (magnet : text) (authorized : bool)
| AddTorrentBytes (bytes : list byte) (authorized : bool)
| Remove (torrent_id : Z) (delete_files : bool)
| Files (torrent_id : Z)
| Status (torrent_id : Z)
| SetPaused (torrent_id : Z) (paused : bool)
| SetDownloadLimit (bytes_per_second : Z)
| SelectFiles (torrent_id : Z) (file_ids : list Z).

Inductive Reply : Type :=
| ReplyId (id : option Z)
| ReplyBool (b : bool)
| ReplyJson (json : option text).

(** The channel to the command task: whether the task still receives, what it
    has not yet worked on, which of the next callers wait in vain, and the file
    system and directory in which a backend is created. *)
Record Commands : Type := mk_Commands {
  cm_open : bool;
  cm_queue : list RqbitCommand;
  cm_late : list bool;
  cm_fs : fs;
  cm_directory : path;
}.

(** Serialization by [serde_json], and a new server. *)
Class FfiJson : Type := {
  metrics_json : MetricsSnapshot -> option text;
  files_json : list RqbitFileInfo -> option text;
  status_json : RqbitTorrentStatus -> option text;
}.
Class NewServer (St Bk Host : Type) : Type :=
  with_config_and_p2p_registry : ProxyConfig -> P2pSourceRegistry Host -> RequestHandler St Bk Host.
Class NewServerLaws `{NS : NewServer St Bk Host} : Prop := {
  new_registry c p : rh_registry (with_config_and_p2p_registry c p) = SourceRegistry.default;
  new_p2p c p : rh_p2p (with_config_and_p2p_registry c p) = p;
  new_backend c p : rh_backend (with_config_and_p2p_registry c p) = None;
}.
(** [Box::into_raw]: an address that is not in use. *)
Class Allocator : Type := alloc_box : gset Z -> Z.
Class AllocatorLaws `{Allocator} : Prop := { alloc_fresh s : alloc_box s <> 0 /\ (alloc_box s ∉ s) }.

Inductive outcome (A : Type) : Type := Returns (a : A) | Blocks.
Arguments Returns {A}.
Arguments Blocks {A}.

(** What the system does when a server starts: whether a runtime can be built,
    the port that is bound for the one asked for, whether the address of the
    listener can be read. *)
Record StartEnv : Type := mk_StartEnv {
  se_runtime : bool;
  se_bind : Z -> result text Z;
  se_local_addr : result text unit;
}.
(** What creating a handle finds. *)
Record CreateEnv (X : Type) : Type := mk_CreateEnv {
  ce_now : Z;
  ce_fs : fs;
  ce_times : list Z;
  ce_tmp : Z;
  ce_host : HostEnv X;
}.
Arguments mk_CreateEnv {X}.
Arguments ce_now {X}.
Arguments ce_fs {X}.
Arguments ce_times {X}.
Arguments ce_tmp {X}.
Arguments ce_host {X}.

Section Ffi.
Context {UP : UrlParser} {UQ : UrlPairs} {SHA1 : Sha1} {SHA : Sha256} {MJ : ManifestJson}
  {ON : HashOrder Z RegisteredSource} {OF : HashOrder path DiskCacheFile} {OD : DirOrder}
  {FJ : FfiJson} {AL : Allocator} {Se Tor Stm St X : Type} {LR : LibRqbit Se Tor Stm}
  {NS : NewServer St (Backend Se Tor) (HostEnv X)} (process_id : Z).
Abbreviation Host := (HostEnv X).
Abbreviation RH := (RequestHandler St (Backend Se Tor) Host).

Record ProxyServerHandle : Type := mk_Handle {
  fh_config : option ProxyConfig;
  fh_server : option (RH * Life);
  fh_thread : bool;                       (* a thread was spawned *)
  fh_p2p : P2pSourceRegistry Host;        (* until a server shares it *)
  fh_commands : option Commands;
  fh_context : option Z;                  (* what the refresh callback has captured *)
}.
Abbreviation Heap := (gmap Z ProxyServerHandle).
Abbreviation C A := (Heap -> option (A * Heap)).

Definition set_config (c : option ProxyConfig) (h : ProxyServerHandle) : ProxyServerHandle :=
  mk_Handle c (fh_server h) (fh_thread h) (fh_p2p h) (fh_commands h) (fh_context h).
Definition set_server (s : option (RH * Life)) (h : ProxyServerHandle) : ProxyServerHandle :=
  mk_Handle (fh_config h) s (fh_thread h) (fh_p2p h) (fh_commands h) (fh_context h).
Definition set_thread (t : bool) (h : ProxyServerHandle) : ProxyServerHandle :=
  mk_Handle (fh_config h) (fh_server h) t (fh_p2p h) (fh_commands h) (fh_context h).
Definition set_commands (c : option Commands) (h : ProxyServerHandle) : ProxyServerHandle :=
  mk_Handle (fh_config h) (fh_server h) (fh_thread h) (fh_p2p h) c (fh_context h).
Definition set_context (c : option Z) (h : ProxyServerHandle) : ProxyServerHandle :=
  mk_Handle (fh_config h) (fh_server h) (fh_thread h) (fh_p2p h) (fh_commands h) c.

(** [handle.as_ref()]. *)
Definition on_handle {A} (p : Z) (null : A) (f : ProxyServerHandle -> A * ProxyServerHandle) : C A :=
  fun heap =>
    if p =? 0 then Some (null, heap)
    else
      match heap !! p with
      | Some h => let '(a, h) := f h in Some (a, <[p := h]> heap)
      | None => None
      end.

(** ** Sources *)

Definition set_rh_registry (r : SourceRegistry) (h : RH) : RH :=
  mk_RequestHandler (rh_sources h) (rh_permits h) r (rh_metrics h) (rh_p2p h) (rh_backend h).
Definition set_rh_p2p (p : P2pSourceRegistry Host) (h : RH) : RH :=
  mk_RequestHandler (rh_sources h) (rh_permits h) (rh_registry h) (rh_metrics h) p (rh_backend h).

(** An operation on the registry of sources of the server; [none] without one. *)
Definition on_sources {A} (none : A) (m : SourceRegistry -> A * SourceRegistry)
    (h : ProxyServerHandle) : A * ProxyServerHandle :=
  match fh_server h with
  | None => (none, h)
  | Some (rh, life) =>
      let '(a, r) := m (rh_registry rh) in (a, set_server (Some (set_rh_registry r rh, life)) h)
  end.
Definition ok_value (r : Result Z) : Z := match r with Ok id => id | Err _ => 0 end.

Definition proxy_server_metrics_json (p : Z) (buffer : c_buffer) : C (Z * option text) :=
  on_handle p (0, None) (fun h =>
    (match fh_server h with
     | None => (0, None)
     | Some (rh, _) =>
         match metrics_json (snapshot (rh_metrics rh)) with
         | None => (0, None)
         | Some json => write_ffi_json json buffer
         end
     end, h)).

Definition proxy_source_register (p : Z) (identity url : c_string) : C Z :=
  on_handle p 0 (fun h =>
    match read_string identity, read_string url with
    | Some identity, Some url =>
        on_sources 0 (fun r => let '(id, r) := register_or_reuse identity url r in (ok_value id, r)) h
    | _, _ => (0, h)
    end).

Definition proxy_source_refresh (p source_id : Z) (url : c_string) : C bool :=
  on_handle p false (fun h =>
    match read_string url with
    | Some url => on_sources false (fun r => let '(x, r) := refresh source_id url r in (is_ok x, r)) h
    | None => (false, h)
    end).

Definition proxy_source_remove (p source_id : Z) : C bool :=
  on_handle p false
    (on_sources false (fun r => let '(x, r) := SourceRegistry.remove source_id r in
       (match x with Ok b => b | Err _ => false end, r))).

Definition proxy_source_set_refresh_callback (p : Z) (callback : option ProxySourceRefreshCallback)
    (context : Z) : C bool :=
  on_handle p false (fun h =>
    let provider := (fun cb => refresh_provider_of cb context) <$> callback in
    let '(installed, h) :=
      on_sources false (fun r => let '(x, r) := set_refresh_provider provider r in (is_ok x, r)) h in
    (installed, if installed : bool
                then set_context (if callback then Some context else None) h else h)).

(** ** Creating a handle *)

Definition create_handle (env : CreateEnv X) (port : Z) (cache_dir : text) (allowed_hosts : list text) :
    C Z := fun heap =>
  let config := config_for port (path_of cache_dir) allowed_hosts in
  let p2p_sources := with_cache_limit (cfg_cache_dir config ++ [str "p2p"]) (cfg_max_cache_bytes config)
                       (ce_now env) (ce_fs env) (ce_times env) (ce_tmp env) (ce_host env) in
  let p := alloc_box (dom heap) in
  Some (p, <[p := mk_Handle (Some config) None false p2p_sources None None]> heap).

Definition proxy_server_create (env : CreateEnv X) (port : Z) (cache_dir : c_string) : C Z :=
  match read_string cache_dir with
  | Some cache_dir => create_handle env port cache_dir []
  | None => fun heap => Some (0, heap)
  end.

(** The hosts of a list that is separated by commas. *)
Definition split_hosts (allowed_hosts : text) : list text :=
  List.filter (fun host => negb (bool_decide (host = []))) (map trim (split x2c allowed_hosts)).

Definition proxy_server_create_with_hosts (env : CreateEnv X) (port : Z)
    (cache_dir allowed_hosts : c_string) : C Z :=
  match read_string cache_dir, read_string allowed_hosts with
  | Some cache_dir, Some allowed_hosts => create_handle env port cache_dir (split_hosts allowed_hosts)
  | _, _ => fun heap => Some (0, heap)
  end.

(** ** Torrents *)

(** A backend is created by the first request that is authorized and valid. *)
Definition ensure_backend (valid : bool) (c : Commands) (rh : RH) : Commands * RH :=
  match rh_backend rh with
  | Some _ => (c, rh)
  | None =>
      if valid then
        let '(r, s) := backend_new (cm_directory c) (cm_fs c) in
        let c := mk_Commands (cm_open c) (cm_queue c) (cm_late c) s (cm_directory c) in
        match r with
        | Ok b => (c, set_rqbit_backend b rh)
        | Err _ => (c, rh)
        end
      else (c, rh)
  end.

(** An operation of the backend, if there is one. *)
Definition with_backend {A} (none : A) (m : Backend Se Tor -> A * Backend Se Tor) (rh : RH) : A * RH :=
  match rh_backend rh with
  | Some b => let '(a, b) := m b in (a, set_rqbit_backend b rh)
  | None => (none, rh)
  end.
Definition ok_option {A} (r : Result A) : option A := match r with Ok a => Some a | Err _ => None end.

Definition run_command (command : RqbitCommand) (c : Commands) (rh : RH) : Reply * Commands * RH :=
  match command with
  | Add magnet authorized =>
      let valid := authorized && is_ok (parse_magnet_uri magnet) in
      let '(c, rh) := ensure_backend valid c rh in
      let '(id, rh) := if valid
        then with_backend None (fun b => let '(r, b) := add_authorized_magnet magnet authorized b in
               (ok_option r, b)) rh
        else (None, rh) in
      (ReplyId id, c, rh)
  | AddTorrentBytes bytes authorized =>
      let valid := authorized && is_ok (parse_torrent_metadata bytes) in
      let '(c, rh) := ensure_backend valid c rh in
      let '(id, rh) := if valid
        then with_backend None (fun b => let '(r, b) := add_authorized_torrent_bytes bytes authorized b in
               (ok_option r, b)) rh
        else (None, rh) in
      (ReplyId id, c, rh)
  | Remove torrent_id delete_files =>
      let '(x, rh) := with_backend false
        (fun b => let '(r, b) := Rqbit.remove torrent_id delete_files b in (is_ok r, b)) rh in
      (ReplyBool x, c, rh)
  | Files torrent_id =>
      let '(json, rh) := with_backend None
        (fun b => let '(r, b) := Rqbit.files torrent_id b in (ok_option r ≫= files_json, b)) rh in
      (ReplyJson json, c, rh)
  | Status torrent_id =>
      let '(json, rh) := with_backend None
        (fun b => let '(r, b) := Rqbit.status torrent_id b in (ok_option r ≫= status_json, b)) rh in
      (ReplyJson json, c, rh)
  | SetPaused torrent_id paused =>
      let '(x, rh) := with_backend false
        (fun b => let '(r, b) := (if paused then pause torrent_id else resume torrent_id) b in
           (is_ok r, b)) rh in
      (ReplyBool x, c, rh)
  | SetDownloadLimit bytes_per_second =>
      let '(x, rh) := with_backend false
        (fun b => (true, set_download_limit
                           (if bytes_per_second =? 0 then None else Some bytes_per_second) b)) rh in
      (ReplyBool x, c, rh)
  | SelectFiles torrent_id file_ids =>
      let '(x, rh) := with_backend false
        (fun b => let '(r, b) := select_files torrent_id file_ids b in (is_ok r, b)) rh in
      (ReplyBool x, c, rh)
  end.

(** The task of the runtime works on what is in the channel. *)
Fixpoint run_rqbit_commands (queue : list RqbitCommand) (c : Commands) (rh : RH) : Commands * RH :=
  match queue with
  | [] => (c, rh)
  | command :: queue =>
      let '(_, c, rh) := run_command command c rh in run_rqbit_commands queue c rh
  end.

(** Sending a command and waiting for its reply, at most [RQBIT_COMMAND_TIMEOUT]. *)
Definition send_command (command : RqbitCommand) (h : ProxyServerHandle) :
    option Reply * ProxyServerHandle :=
  match fh_commands h, fh_server h with
  | Some c, Some (rh, life) =>
      if negb (cm_open c) then (None, h)
      else
        let late := List.hd false (cm_late c) in
        let queue := cm_queue c ++ [command] in
        let c := mk_Commands (cm_open c) [] (List.tl (cm_late c)) (cm_fs c) (cm_directory c) in
        if late then
          (None, set_commands (Some (mk_Commands (cm_open c) queue (cm_late c) (cm_fs c) (cm_directory c))) h)
        else
          let '(c, rh) := run_rqbit_commands (removelast queue) c rh in
          let '(reply, c, rh) := run_command command c rh in
          (Some reply, set_commands (Some c) (set_server (Some (rh, life)) h))
  | _, _ => (None, h)
  end.

Definition i64_max : Z := 2 ^ 63 - 1.
Definition reply_id (r : option Reply) : Z :=
  match r with
  | Some (ReplyId (Some id)) => if id <=? i64_max then id else -1
  | _ => -1
  end.
Definition reply_bool (r : option Reply) : bool :=
  match r with Some (ReplyBool b) => b | _ => false end.

Definition proxy_torrent_add_authorized (p : Z) (magnet : c_string) (explicitly_authorized : Z) : C Z :=
  on_handle p (-1) (fun h =>
    match read_string magnet with
    | None => (-1, h)
    | Some magnet =>
        let '(r, h) := send_command (Add magnet (explicitly_authorized =? 1)) h in (reply_id r, h)
    end).

(** The bytes: [None] when the pointer is null. *)
Definition proxy_torrent_add_file_authorized (p : Z) (torrent_bytes : option (list byte))
    (explicitly_authorized : Z) : C Z :=
  on_handle p (-1) (fun h =>
    match torrent_bytes with
    | None => (-1, h)
    | Some bytes =>
        if bool_decide (bytes = []) || (4 * 1024 * 1024 <? Z.of_nat (length bytes)) then (-1, h)
        else
          let '(r, h) := send_command (AddTorrentBytes bytes (explicitly_authorized =? 1)) h in
          (reply_id r, h)
    end).

(** [usize::try_from(torrent_id)]. *)
Definition torrent_command (p torrent_id : Z) (command : RqbitCommand) : C bool :=
  on_handle p false (fun h =>
    if torrent_id <? 0 then (false, h)
    else let '(r, h) := send_command command h in (reply_bool r, h)).

Definition proxy_torrent_remove (p torrent_id delete_files : Z) : C bool :=
  torrent_command p torrent_id (Remove torrent_id (delete_files =? 1)).
Definition proxy_torrent_set_paused (p torrent_id paused : Z) : C bool :=
  torrent_command p torrent_id (SetPaused torrent_id (paused =? 1)).
Definition proxy_torrent_set_download_limit (p bytes_per_second : Z) : C bool :=
  on_handle p false (fun h =>
    let '(r, h) := send_command (SetDownloadLimit bytes_per_second) h in (reply_bool r, h)).
Definition proxy_torrent_select_files (p torrent_id : Z) (file_ids : option (list Z)) : C bool :=
  on_handle p false (fun h =>
    if torrent_id <? 0 then (false, h)
    else
      match file_ids with
      | None => (false, h)
      | Some ids =>
          if bool_decide (ids = []) || (4096 <? Z.of_nat (length ids)) then (false, h)
          else let '(r, h) := send_command (SelectFiles torrent_id ids) h in (reply_bool r, h)
      end).

Definition MAX_RQBIT_JSON_BYTES : Z := 4 * 1024 * 1024.
Definition query_rqbit_json (command : RqbitCommand) (h : ProxyServerHandle) :
    option text * ProxyServerHandle :=
  let '(r, h) := send_command command h in
  (match r with
   | Some (ReplyJson (Some json)) =>
       if Z.of_nat (length json) <=? MAX_RQBIT_JSON_BYTES then Some json else None
   | _ => None
   end, h).
Definition torrent_json (p torrent_id : Z) (command : RqbitCommand) (buffer : c_buffer) :
    C (Z * option text) :=
  on_handle p (0, None) (fun h =>
    if torrent_id <? 0 then ((0, None), h)
    else
      let '(json, h) := query_rqbit_json command h in
      (match json with Some json => write_ffi_json json buffer | None => (0, None) end, h)).
Definition proxy_torrent_files_json (p torrent_id : Z) (buffer : c_buffer) : C (Z * option text) :=
  torrent_json p torrent_id (Files torrent_id) buffer.
Definition proxy_torrent_status_json (p torrent_id : Z) (buffer : c_buffer) : C (Z * option text) :=
  torrent_json p torrent_id (Status torrent_id) buffer.

(** ** P2P sources *)

Definition on_p2p {A} (m : P2pSourceRegistry Host -> A * P2pSourceRegistry Host)
    (h : ProxyServerHandle) : A * ProxyServerHandle :=
  match fh_server h with
  | Some (rh, life) => let '(a, r) := m (rh_p2p rh) in (a, set_server (Some (set_rh_p2p r rh, life)) h)
  | None =>
      let '(a, r) := m (fh_p2p h) in
      (a, mk_Handle (fh_config h) (fh_server h) (fh_thread h) r (fh_commands h) (fh_context h))
  end.

Definition register_provider (json : list byte) (provider : nat -> io Host ProxyError.t (list byte))
    (h : ProxyServerHandle) : Z * ProxyServerHandle :=
  match parse_authorized_manifest_json json with
  | Err _ => (0, h)
  | Ok (source, manifest) =>
      on_p2p (fun r => let '(id, r) := P2p.register source manifest provider r in (ok_value id, r)) h
  end.

Definition proxy_p2p_source_register (p : Z) (manifest_json : option (list byte))
    (callback : option (ProxyP2pPieceCallback X)) (context : Z) : C Z :=
  on_handle p 0 (fun h =>
    match callback, manifest_json with
    | Some callback, Some json =>
        if bool_decide (json = []) then (0, h)
        else register_provider json (callback_piece callback context) h
    | _, _ => (0, h)
    end).

Definition proxy_p2p_source_register_directory (p : Z) (manifest_json : option (list byte))
    (piece_directory : c_string) : C Z :=
  on_handle p 0 (fun h =>
    match read_string piece_directory, manifest_json with
    | Some piece_directory, Some json =>
        if bool_decide (json = []) || bool_decide (trim piece_directory = []) then (0, h)
        else if negb (is_ok (parse_authorized_manifest_json json)) then (0, h)
        else if negb (is_absolute (path_of piece_directory)) then (0, h)
        else register_provider json (directory_piece (path_of piece_directory)) h
    | _, _ => (0, h)
    end).

Definition proxy_p2p_source_remove (p source_id : Z) : C bool :=
  on_handle p false (on_p2p (fun r => let '(x, r) := P2p.remove source_id r in
    (match x with Ok b => b | Err _ => false end, r))).

Definition proxy_p2p_source_verify_complete (p source_id : Z) : C bool :=
  on_handle p false (on_p2p (fun r => let '(x, r) := verify_complete process_id source_id r in (is_ok x, r))).

(** ** The life of a handle *)

(** The start task of a new server (number 0): how its life goes on until
    [wait_until_ready] has something to return. *)
Definition start_life (env : StartEnv) (port : Z) : Life :=
  let l := begin_start 0 life_new in
  match se_bind env port with
  | Err msg => goto 0 (Server.Returned (Err (ProxyError.IO msg))) (send_ready (Server.set_status Failed l))
  | Ok bound =>
      let l := goto 0 (Bound bound) l in
      match se_local_addr env with
      | Err msg => goto 0 (Server.Returned (Err (ProxyError.IO msg))) l
      | Ok _ =>
          goto 0 Serving (send_ready (goto 0 Announcing (Server.set_status Running_
            (goto 0 Storing (goto 0 Checking (set_port bound l))))))
      end
  end.

(** The thread goes on as long as its start task. *)
Definition task_returned (l : Life) : bool :=
  match lf_starts l !! 0%nat with Some (Server.Returned _) => true | _ => false end.

Definition start_handle (env : StartEnv) (late : list bool) (files : fs) (h : ProxyServerHandle) :
    outcome Z * ProxyServerHandle :=
    if fh_thread h then (Returns 0, h)
    else
      match fh_config h with
      | None => (Returns 0, h)
      | Some config =>
          let h := set_thread true (set_config None h) in
          if negb (se_runtime env) then (Returns 0, h)
          else
            let life := start_life env (cfg_port config) in
            let h := set_server (Some (with_config_and_p2p_registry config (fh_p2p h), life)) h in
            let port := match ready_now life with
                        | Some (Ok port) => Returns port
                        | Some (Err _) => Returns 0
                        | None => Blocks
                        end in
            let running := match port with Blocks => true | _ => negb (task_returned life) end in
            (port, set_commands (Some (mk_Commands running [] late files
                                         (cfg_cache_dir config ++ [str "torrent"]))) h)
      end.
Definition proxy_server_start (env : StartEnv) (late : list bool) (files : fs) (p : Z) : C (outcome Z) :=
  on_handle p (Returns 0) (start_handle env late files).

(** [server.stop()], by a call of its own. *)
Definition stop_life (l : Life) : Life :=
  let t := fresh (dom (lf_stops l)) in
  set_stop t true (set_notified true (set_stop t false (Server.set_status (stop_status (lf_status l)) l))).
Definition stop_server (h : ProxyServerHandle) : ProxyServerHandle :=
  match fh_server h with
  | Some (rh, life) => set_server (Some (rh, stop_life life)) h
  | None => h
  end.
Definition proxy_server_stop (p : Z) : C unit :=
  on_handle p tt (fun h => (tt, stop_server h)).

(** The server that was told to stop drains, its start task returns, and the
    thread ends with its runtime: the command task receives no more. *)
Definition thread_ends (h : ProxyServerHandle) : option ProxyServerHandle :=
  match fh_server h with
  | Some (rh, life) =>
      let closed := (fun c => mk_Commands false (cm_queue c) (cm_late c) (cm_fs c) (cm_directory c))
                      <$> fh_commands h in
      match lf_starts life !! 0%nat with
      | Some Serving =>
          if lf_notified life then
            Some (set_commands closed (set_server (Some (rh,
              goto 0 (Server.Returned (Ok tt)) (Server.set_status Stopped
                (goto 0 Draining (set_notified false life))))) h))
          else None
      | Some (Server.Returned _) => if ready_now life then Some (set_commands closed h) else None
      | _ => None
      end
  | None => Some h
  end.

Definition proxy_server_destroy (p : Z) : C (outcome unit) := fun heap =>
  if p =? 0 then Some (Returns tt, heap)
  else
    match heap !! p with
    | None => None
    | Some h =>
        let h := stop_server h in
        if fh_thread h && negb (bool_decide (is_Some (thread_ends h)))
        then Some (Blocks, <[p := h]> heap)
        else Some (Returns tt, delete p heap)
    end.
End Ffi.
Arguments ProxyServerHandle Se Tor St X : clear implicits.
