(* ===== verification/FfiClaims.v ===== *)
(** * The C interface: claims

    The functions of the interface as data and the invariant every one of them
    keeps; the theorems on handles; and what the bindings rely on, in particular
    which calls change what a refresh callback has captured. *)

From Stdlib Require Import Strings.Byte Strings.String.
From S2P Require Import Prelude Bytes Error External DataRequest SourceRegistry FileSystem Digest P2pManifest P2pManifestTheorems P2p P2pTheorems P2pClaims RequestHandler Server TorrentMeta Magnet Rqbit RqbitClaims Ffi.

(** * Calls of the C interface: the invariant of a handle

    Every function but the constructors and [proxy_server_destroy], as data; a
    sequence of them is what a host program does with a handle. *)
Inductive ffi_call (X : Type) : Type :=
| CallMetrics (buffer : c_buffer)
| CallRegister (identity url : c_string)
| CallRefresh (source_id : Z) (url : c_string)
| CallRemove (source_id : Z)
| CallSetRefresh (callback : option ProxySourceRefreshCallback) (context : Z)
| CallTorrentAdd (magnet : c_string) (authorized : Z)
| CallTorrentAddFile (bytes : option (list byte)) (authorized : Z)
| CallTorrentRemove (torrent_id delete_files : Z)
| CallTorrentFiles (torrent_id : Z) (buffer : c_buffer)
| CallTorrentStatus (torrent_id : Z) (buffer : c_buffer)
| CallTorrentPaused (torrent_id paused : Z)
| CallTorrentLimit (bytes_per_second : Z)
| CallTorrentSelect (torrent_id : Z) (file_ids : option (list Z))
| CallP2pRegister (json : option (list byte)) (callback : option (ProxyP2pPieceCallback X)) (context : Z)
| CallP2pDirectory (json : option (list byte)) (directory : c_string)
| CallP2pRemove (source_id : Z)
| CallP2pVerify (source_id : Z)
| CallStart (env : StartEnv) (late : list bool) (files : fs)
| CallStop.
Arguments CallMetrics {X}.
Arguments CallRegister {X}.
Arguments CallRefresh {X}.
Arguments CallRemove {X}.
Arguments CallSetRefresh {X}.
Arguments CallTorrentAdd {X}.
Arguments CallTorrentAddFile {X}.
Arguments CallTorrentRemove {X}.
Arguments CallTorrentFiles {X}.
Arguments CallTorrentStatus {X}.
Arguments CallTorrentPaused {X}.
Arguments CallTorrentLimit {X}.
Arguments CallTorrentSelect {X}.
Arguments CallP2pRegister {X}.
Arguments CallP2pDirectory {X}.
Arguments CallP2pRemove {X}.
Arguments CallP2pVerify {X}.
Arguments CallStart {X}.
Arguments CallStop {X}.

Section Calls.
Context {UP : UrlParser} {UQ : UrlPairs} {SHA1 : Sha1} {SHA : Sha256} {MJ : ManifestJson}
  {ON : HashOrder Z RegisteredSource} {ONL : HashOrderLaws Z RegisteredSource}
  {OF : HashOrder path DiskCacheFile} {OD : DirOrder}
  {FJ : FfiJson} {AL : Allocator} {Se Tor Stm St X : Type} {LR : LibRqbit Se Tor Stm}
  {NS : NewServer St (Backend Se Tor) (HostEnv X)} {NSL : NewServerLaws (NS := NS)} (process_id : Z).
Abbreviation Host := (HostEnv X).
Abbreviation Handle := (ProxyServerHandle Se Tor St X).
Abbreviation Heap := (gmap Z Handle).
Abbreviation C A := (Heap -> option (A * Heap)).
Abbreviation RH := (RequestHandler St (Backend Se Tor) Host).
Implicit Types h : Handle.
Implicit Types rh : RH.

(** The result of a call is dropped. *)
Definition ignore {A} (m : C A) : C unit := fun heap => (fun x => (tt, x.2)) <$> m heap.

Definition run_call (c : ffi_call X) (p : Z) : C unit :=
  match c with
  | CallMetrics buffer => ignore (proxy_server_metrics_json p buffer)
  | CallRegister identity url => ignore (proxy_source_register p identity url)
  | CallRefresh id url => ignore (proxy_source_refresh p id url)
  | CallRemove id => ignore (proxy_source_remove p id)
  | CallSetRefresh callback context => ignore (proxy_source_set_refresh_callback p callback context)
  | CallTorrentAdd magnet auth => ignore (proxy_torrent_add_authorized p magnet auth)
  | CallTorrentAddFile bytes auth => ignore (proxy_torrent_add_file_authorized p bytes auth)
  | CallTorrentRemove id df => ignore (proxy_torrent_remove p id df)
  | CallTorrentFiles id buffer => ignore (proxy_torrent_files_json p id buffer)
  | CallTorrentStatus id buffer => ignore (proxy_torrent_status_json p id buffer)
  | CallTorrentPaused id paused => ignore (proxy_torrent_set_paused p id paused)
  | CallTorrentLimit n => ignore (proxy_torrent_set_download_limit p n)
  | CallTorrentSelect id ids => ignore (proxy_torrent_select_files p id ids)
  | CallP2pRegister json callback context => ignore (proxy_p2p_source_register p json callback context)
  | CallP2pDirectory json directory => ignore (proxy_p2p_source_register_directory p json directory)
  | CallP2pRemove id => ignore (proxy_p2p_source_remove p id)
  | CallP2pVerify id => ignore (proxy_p2p_source_verify_complete process_id p id)
  | CallStart env late files => ignore (proxy_server_start env late files p)
  | CallStop => ignore (proxy_server_stop p)
  end.

(** ** Every call works on one handle *)

Definition on_one {A} (p : Z) (m : C A) (P : Handle -> Handle -> Prop) : Prop :=
  forall heap,
    (p = 0 -> exists a, m heap = Some (a, heap))
    /\ (p <> 0 -> heap !! p = None -> m heap = None)
    /\ (p <> 0 -> forall h, heap !! p = Some h ->
        exists a h', m heap = Some (a, <[p := h']> heap) /\ P h h').

Lemma on_handle_one {A} p null (f : Handle -> A * Handle) (P : Handle -> Handle -> Prop) :
  (forall h a h', f h = (a, h') -> P h h') -> on_one p (ignore (on_handle p null f)) P.
Proof.
  intros Hf heap. unfold ignore, on_handle. split_and!.
  - intros ->. by eexists.
  - intros Hp Hn. by rewrite (proj2 (Z.eqb_neq p 0)), Hn.
  - intros Hp h Hh. rewrite (proj2 (Z.eqb_neq p 0)), Hh by done.
    destruct (f h) as [a h'] eqn:E. simpl. exists tt, h'. split; [done|]. by eapply Hf.
Qed.

(** ** The invariant *)

Record server_ok rh : Prop := {
  so_registry : registry_ok (rh_registry rh);
  so_p2p : p2p_reachable process_id (rh_p2p rh);
  so_backend b : rh_backend rh = Some b -> tables_agree b /\ max_torrents b = 8;
}.

(** The start task of the life of a handle's server. *)
Definition life_ok (l : Life) : Prop :=
  life_reachable l
  /\ ((exists port, lf_starts l !! 0%nat = Some Serving /\ bound_port l = Some port)
      \/ exists r, lf_starts l !! 0%nat = Some (Server.Returned r)).

Record handle_ok h : Prop := {
  ho_config : fh_thread h = true <-> fh_config h = None;
  ho_server : is_Some (fh_server h) -> fh_thread h = true;
  ho_commands : is_Some (fh_commands h) -> is_Some (fh_server h);
  ho_p2p : p2p_reachable process_id (fh_p2p h);
  ho_state rh l : fh_server h = Some (rh, l) -> server_ok rh /\ life_ok l;
}.

(** A part of the server changes. *)
Lemma handle_ok_server h rh l rh' :
  handle_ok h -> fh_server h = Some (rh, l) -> server_ok rh' -> handle_ok (set_server (Some (rh', l)) h).
Proof.
  intros [H1 H2 H3 H4 H5] E Hs. destruct (H5 _ _ E) as [_ Hl]. split; cbn; try done.
  - intros _. apply H2. by rewrite E.
  - by intros r0 l0 [= <- <-].
Qed.

Lemma on_sources_ok {A} (none : A) m h a h' :
  (forall r, registry_ok r -> registry_ok (m r).2) ->
  on_sources none m h = (a, h') -> handle_ok h -> handle_ok h'.
Proof.
  intros Hm E Hh. unfold on_sources in E. destruct (fh_server h) as [[rh l]|] eqn:Es; [|by injection E as _ <-].
  destruct (m (rh_registry rh)) as [x r] eqn:Em. injection E as _ <-.
  destruct (ho_state _ Hh _ _ Es) as [[S1 S2 S3] _].
  eapply handle_ok_server; [done|done|]. split; cbn; try done.
  specialize (Hm _ S1). by rewrite Em in Hm.
Qed.

Lemma on_p2p_ok {A} (m : P2pSourceRegistry Host -> A * P2pSourceRegistry Host) h a h' :
  (forall r, p2p_reachable process_id r -> p2p_reachable process_id (m r).2) ->
  on_p2p m h = (a, h') -> handle_ok h -> handle_ok h'.
Proof.
  intros Hm E Hh. unfold on_p2p in E. destruct (fh_server h) as [[rh l]|] eqn:Es.
  - destruct (m (rh_p2p rh)) as [x r] eqn:Em. injection E as _ <-.
    destruct (ho_state _ Hh _ _ Es) as [[S1 S2 S3] _].
    eapply handle_ok_server; [done|done|]. split; cbn; try done.
    specialize (Hm _ S2). by rewrite Em in Hm.
  - destruct (m (fh_p2p h)) as [x r] eqn:Em. injection E as _ <-.
    destruct Hh as [H1 H2 H3 H4 H5]. split; cbn; try done; try (by rewrite <- Es).
    specialize (Hm _ H4). by rewrite Em in Hm.
Qed.

(** ** Torrent commands *)

Lemma with_backend_ok {A} (none : A) m rh a rh' :
  (forall b, tables_agree b -> max_torrents b = 8 -> tables_agree (m b).2 /\ max_torrents (m b).2 = 8) ->
  with_backend none m rh = (a, rh') -> server_ok rh -> server_ok rh'.
Proof.
  intros Hm E Hs. unfold with_backend in E.
  destruct (rh_backend rh) as [b|] eqn:Eb; [|by injection E as _ <-].
  destruct Hs as [S1 S2 S3]. destruct (m b) as [x b'] eqn:Em. injection E as _ <-. split; cbn; try done.
  intros b0 [= <-]. destruct (S3 b Eb) as [H1 H2]. specialize (Hm b H1 H2). by rewrite Em in Hm.
Qed.

Lemma ensure_backend_ok valid c rh c' rh' :
  ensure_backend valid c rh = (c', rh') -> server_ok rh -> server_ok rh'.
Proof.
  unfold ensure_backend. intros E Hs. destruct (rh_backend rh) as [b|] eqn:Eb; [by injection E as _ <-|].
  destruct valid; [|by injection E as _ <-].
  destruct (backend_new _ _) as [r s] eqn:En. destruct r as [b|]; [|by injection E as _ <-].
  injection E as _ <-. destruct Hs as [S1 S2 S3]. split; cbn; try done. intros b0 [= <-].
  unfold backend_new, with_config in En. destruct (negb _); [discriminate|]. simpl in En.
  apply io_bind_inv in En as [(? & ? & _ & E)|(? & _ & ?)]; [|done].
  apply io_bind_inv in E as [(se & ? & _ & [= <- <-])|(? & _ & ?)]; [|done].
  split; [by apply fresh_agree|done].
Qed.

Lemma run_command_ok command c rh reply c' rh' :
  run_command command c rh = (reply, c', rh') -> server_ok rh -> server_ok rh'.
Proof.
  intros E Hs. destruct command as [magnet auth|bytes auth|id df|id|id|id paused|n|id ids];
    cbn [run_command] in E.
  1,2: destruct (ensure_backend _ _ _) as [c1 rh1] eqn:Ee; apply ensure_backend_ok in Ee; [|done];
    destruct (_ && _); [|by injection E as _ _ <-].
  all: destruct (with_backend _ _ _) as [a rh2] eqn:Ew; injection E as _ _ <-;
    eapply with_backend_ok; [|exact Ew|done]; intros b Hb Hm; cbv beta.
  - destruct (add_magnet_run magnet auth b) as [[e ->]|(_ & req & _ & ->)]; [done|].
    destruct (add_authorized_source _ _ b) as [r b'] eqn:E. cbn.
    split; [by eapply agree_add|]. apply add_source_run in E as [? _]. congruence.
  - destruct (add_bytes_run bytes auth b) as [[e ->]|(_ & req & _ & ->)]; [done|].
    destruct (add_authorized_source _ _ b) as [r b'] eqn:E. cbn.
    split; [by eapply agree_add|]. apply add_source_run in E as [? _]. congruence.
  - destruct (Rqbit.remove id df b) as [r b'] eqn:E. cbn.
    split; [by eapply agree_remove|]. apply remove_run in E as [? _]. congruence.
  - destruct (Rqbit.files id b) as [r b'] eqn:E. cbn.
    assert (S : same_tables b b') by (eapply (keeps_files id); exact E).
    split; [by eapply agree_same|]. destruct S as (_ & _ & ?). congruence.
  - destruct (Rqbit.status id b) as [r b'] eqn:E. cbn.
    assert (S : same_tables b b') by (eapply (keeps_status id); exact E).
    split; [by eapply agree_same|]. destruct S as (_ & _ & ?). congruence.
  - destruct ((if paused then pause id else resume id) b) as [r b'] eqn:E. cbn.
    assert (S : same_tables b b').
    { eapply plain_keeps; [|exact E]. destruct paused; constructor. }
    split; [by eapply agree_same|]. destruct S as (_ & _ & ?). congruence.
  - split; [by apply (agree_same b)|done].
  - destruct (select_files id ids b) as [r b'] eqn:E. cbn.
    assert (S : same_tables b b') by (eapply plain_keeps; [constructor|exact E]).
    split; [by eapply agree_same|]. destruct S as (_ & _ & ?). congruence.
Qed.

Lemma run_rqbit_commands_ok queue c rh c' rh' :
  run_rqbit_commands queue c rh = (c', rh') -> server_ok rh -> server_ok rh'.
Proof.
  revert c rh. induction queue as [|command queue IH]; intros c rh; cbn; [by intros [= _ <-]|].
  destruct (run_command command c rh) as [[reply c1] rh1] eqn:E. intros E2 Hs.
  eapply IH; [exact E2|]. by eapply run_command_ok.
Qed.

Lemma send_command_ok command h r h' : send_command command h = (r, h') -> handle_ok h -> handle_ok h'.
Proof.
  unfold send_command. intros E Hh.
  destruct (fh_commands h) as [c|] eqn:Ec; [|by injection E as _ <-].
  destruct (fh_server h) as [[rh l]|] eqn:Es; [|by injection E as _ <-].
  assert (Hcmd : forall h1 c1, handle_ok h1 -> is_Some (fh_server h1) -> handle_ok (set_commands c1 h1)).
  { intros h1 c1 [H1 H2 H3 H4 H5] Hsome. by split. }
  destruct (negb (cm_open c)); [by injection E as _ <-|].
  destruct (List.hd false (cm_late c)).
  { injection E as _ <-. apply Hcmd; [done|]. by rewrite Es. }
  destruct (run_rqbit_commands _ _ rh) as [c1 rh1] eqn:E1.
  destruct (run_command command c1 rh1) as [[reply c2] rh2] eqn:E2. injection E as _ <-.
  apply Hcmd; [|done]. eapply handle_ok_server; [done|done|].
  eapply run_command_ok; [exact E2|]. eapply run_rqbit_commands_ok; [exact E1|].
  by apply (ho_state _ Hh _ _ Es).
Qed.

(** ** Starting and stopping *)

(** The system binds real ports. *)
Definition env_ok (env : StartEnv) : Prop := forall p q, se_bind env p = Ok q -> 0 < q <= 65535.
Definition call_ok (c : ffi_call X) : Prop :=
  match c with CallStart env _ _ => env_ok env | _ => True end.

(** What [wait_until_ready] then finds. *)
Definition started (env : StartEnv) (port : Z) : option (Result Z) :=
  match se_bind env port with
  | Err _ => Some (Err (ProxyError.IO (str "代理服务器启动失败")))
  | Ok bound => match se_local_addr env with Ok _ => Some (Ok bound) | Err _ => None end
  end.

Lemma start_life_ok env port :
  env_ok env ->
  life_ok (start_life env port) /\ ready_now (start_life env port) = started env port
  /\ (forall q, started env port = Some (Ok q) ->
        lf_status (start_life env port) = Running_
        /\ lf_starts (start_life env port) !! 0%nat = Some Serving).
Proof.
  intros Henv. unfold start_life, started, life_ok.
  assert (R0 : life_reachable (begin_start 0 life_new)) by (eapply lr_step; [apply lr_init|by apply ls_start]).
  destruct (se_bind env port) as [bound|msg] eqn:Eb; cycle 1.
  { split_and!; [|right; by eexists|done|done]. eapply lr_step; [exact R0|by apply ls_bind_error]. }
  specialize (Henv _ _ Eb).
  assert (R1 : life_reachable (goto 0 (Bound bound) (begin_start 0 life_new)))
    by (eapply lr_step; [exact R0|by apply ls_bind]).
  destruct (se_local_addr env) as [[]|msg]; cycle 1.
  { split_and!; [|right; by eexists|done|done]. eapply lr_step; [exact R1|by eapply (ls_addr_error _ 0)]. }
  assert (Hp : bound_port (goto 0 Serving (send_ready (goto 0 Announcing (Server.set_status Running_
            (goto 0 Storing (goto 0 Checking (set_port bound (goto 0 (Bound bound)
              (begin_start 0 life_new))))))))) = Some bound).
  { unfold bound_port. cbn. by destruct (Z.eqb_spec bound 0); [lia|]. }
  split_and!.
  - set (l := goto 0 Checking (set_port bound (goto 0 (Bound bound) (begin_start 0 life_new)))).
    assert (R2 : life_reachable l) by (eapply lr_step; [exact R1|by apply ls_addr]).
    assert (R3 : life_reachable (goto 0 Storing l))
      by (eapply lr_step; [exact R2|exact (ls_check l 0 eq_refl)]).
    eapply lr_step; [|by apply (ls_announce _ 0)]. eapply lr_step; [exact R3|by apply ls_store].
  - left. by exists bound.
  - unfold ready_now. by rewrite Hp.
  - done.
Qed.

Lemma fresh_stop (l : Life) : lf_stops l !! fresh (dom (lf_stops l)) = None.
Proof. apply not_elem_of_dom, is_fresh. Qed.

Lemma stop_life_ok l : life_ok l -> life_ok (stop_life l).
Proof.
  intros [Hr Hpc]. unfold stop_life. set (t := fresh _). split; [|exact Hpc].
  eapply lr_step; [eapply lr_step; [exact Hr|apply (ls_stop l t), fresh_stop]|].
  apply ls_notify. cbn. by rewrite lookup_insert_eq.
Qed.

Lemma stop_server_ok h : handle_ok h -> handle_ok (stop_server h).
Proof.
  intros Hh. unfold stop_server. destruct (fh_server h) as [[rh l]|] eqn:Es; [|done].
  destruct Hh as [H1 H2 H3 H4 H5]. destruct (H5 _ _ Es) as [Hs Hl]. split; cbn; try done.
  - intros _. apply H2. by rewrite Es.
  - intros r0 l0 [= <- <-]. by split; [|apply stop_life_ok].
Qed.

Lemma start_ok env late files h r h' :
  env_ok env ->
  start_handle env late files h = (r, h') ->
  handle_ok h -> handle_ok h'.
Proof.
  intros Henv E Hh. unfold start_handle in E. destruct (fh_thread h) eqn:Et; [by injection E as _ <-|].
  destruct (fh_config h) as [config|] eqn:Ec; [|by injection E as _ <-].
  destruct Hh as [H1 H2 H3 H4 H5]. cbv zeta in E.
  assert (Hns : fh_server h = None).
  { apply eq_None_not_Some. intros Hx. by rewrite (H2 Hx) in Et. }
  destruct (se_runtime env); simpl in E; injection E as _ <-.
  - split; cbn; try done. intros rh l [= <- <-]. split; [|by apply start_life_ok].
    split; rewrite ?new_registry, ?new_p2p, ?new_backend; done || apply default_registry_ok.
  - by split.
Qed.

(** ** Every call keeps the invariant *)

(** A branch that returns the handle as it is; one that runs an operation of
    the registry of sources; one that sends a command. *)
Ltac unchanged E := by injection E as _ <-.
Ltac registry_call E op :=
  eapply on_sources_ok; [|exact E]; let r := fresh "r" in let Hr := fresh "Hr" in let Ho := fresh "Ho" in
  intros r Hr; pose proof (run_op_ok op r Hr) as Ho; cbn in Ho; revert Ho;
  cbv beta; match goal with |- _ -> registry_ok (match ?m with _ => _ end).2 => by destruct m end.
Ltac command E :=
  unfold query_rqbit_json in E;
  match type of E with context [send_command ?c ?h] => destruct (send_command c h) eqn:? end;
  injection E as _ <-; eapply send_command_ok; eauto.

Lemma register_provider_ok json provider h id h' :
  register_provider json provider h = (id, h') -> handle_ok h -> handle_ok h'.
Proof.
  unfold register_provider. destruct (parse_authorized_manifest_json json) as [[source m]|]; [|by intros [= _ <-]].
  apply on_p2p_ok. intros r Hr. destruct (P2p.register source m provider r) as [x r'] eqn:E.
  eapply reach_step; [exact Hr|]. by eapply step_register.
Qed.

Lemma run_call_one c p :
  call_ok c -> on_one p (run_call c p) (fun h h' => handle_ok h -> handle_ok h').
Proof.
  intros Hc. destruct c; cbn [run_call];
    unfold proxy_server_metrics_json, proxy_source_register, proxy_source_refresh, proxy_source_remove,
      proxy_source_set_refresh_callback, proxy_torrent_add_authorized, proxy_torrent_add_file_authorized,
      proxy_torrent_remove, proxy_torrent_files_json, proxy_torrent_status_json, torrent_json,
      proxy_torrent_set_paused, torrent_command, proxy_torrent_set_download_limit,
      proxy_torrent_select_files, proxy_p2p_source_register, proxy_p2p_source_register_directory,
      proxy_p2p_source_remove, proxy_p2p_source_verify_complete, proxy_server_start, proxy_server_stop;
    apply on_handle_one; intros h a h' E.
  - unchanged E.
  - destruct (read_string identity), (read_string url); try unchanged E. registry_call E (OpReuse t t0).
  - destruct (read_string url); [|unchanged E]. registry_call E (OpRefresh source_id t).
  - registry_call E (OpRemove source_id).
  - destruct (on_sources _ _ h) as [installed h1] eqn:Es. injection E as _ <-. intros Hh.
    assert (Hh1 : handle_ok h1).
    { revert Hh. registry_call Es (OpSetProvider ((fun cb => refresh_provider_of cb context) <$> callback)). }
    destruct installed; [|done]. destruct Hh1 as [H1 H2 H3 H4 H5]. by split.
  - destruct (read_string magnet); [|unchanged E]. by command E.
  - destruct bytes as [bytes|]; [|unchanged E]. destruct (_ || _); [unchanged E|by command E].
  - destruct (_ <? _); [unchanged E|by command E].
  - destruct (_ <? _); [unchanged E|by command E].
  - destruct (_ <? _); [unchanged E|by command E].
  - destruct (_ <? _); [unchanged E|by command E].
  - by command E.
  - destruct (_ <? _); [unchanged E|]. destruct file_ids as [ids|]; [|unchanged E].
    destruct (_ || _); [unchanged E|by command E].
  - destruct callback as [callback|]; [|unchanged E]. destruct json as [json|]; [|unchanged E].
    case_bool_decide; [unchanged E|]. by eapply register_provider_ok.
  - destruct (read_string directory); [|unchanged E]. destruct json as [json|]; [|unchanged E].
    destruct (_ || _); [unchanged E|]. do 2 (destruct (negb _); [unchanged E|]).
    by eapply register_provider_ok.
  - eapply on_p2p_ok; [|exact E]. intros r Hr. cbv beta. destruct (P2p.remove source_id r) as [x r'] eqn:Er.
    eapply reach_step; [exact Hr|]. by eapply step_remove.
  - eapply on_p2p_ok; [|exact E]. intros r Hr. cbv beta. destruct (verify_complete process_id source_id r) as [x r'] eqn:Er.
    eapply reach_step; [exact Hr|]. by eapply step_verify_complete.
  - by eapply start_ok.
  - injection E as _ <-. apply stop_server_ok.
Qed.
End Calls.

(** * The C interface: claims

    What holds of every handle whatever a host program calls, the life of a
    handle, and what the callbacks of the host can and cannot do. *)

Section Reachable.
Context {UP : UrlParser} {UQ : UrlPairs} {SHA1 : Sha1} {SHA : Sha256} {MJ : ManifestJson}
  {ON : HashOrder Z RegisteredSource} {ONL : HashOrderLaws Z RegisteredSource}
  {OF : HashOrder path DiskCacheFile} {OD : DirOrder}
  {FJ : FfiJson} {AL : Allocator} {ALL : AllocatorLaws} {Se Tor Stm St X : Type} {LR : LibRqbit Se Tor Stm}
  {NS : NewServer St (Backend Se Tor) (HostEnv X)} {NSL : NewServerLaws (NS := NS)} (process_id : Z).
Abbreviation Handle := (ProxyServerHandle Se Tor St X).
Abbreviation Heap := (gmap Z Handle).
Abbreviation RH := (RequestHandler St (Backend Se Tor) (HostEnv X)).
Implicit Types h : Handle.
Implicit Types rh : RH.
Implicit Types heap : Heap.

(** What requests do to the parts of a server that are shared with its handle. *)
Record served rh rh' : Prop := {
  sv_registry : exists ops, rh_registry rh' = run_ops ops (rh_registry rh);
  sv_p2p : rtc (p2p_step process_id) (rh_p2p rh) (rh_p2p rh');
  sv_backend : match rh_backend rh, rh_backend rh' with
               | Some b, Some b' => same_tables b b'
               | None, None => True
               | _, _ => False
               end;
}.

(** The heaps a host program can reach: by the constructors, by calls on any
    pointer for which they are defined, by destroying, and by what the servers
    do meanwhile. *)
Inductive ffi_reachable : Heap -> Prop :=
| fr_empty : ffi_reachable ∅
| fr_create env port cache_dir hosts heap p heap' :
    ffi_reachable heap -> create_handle env port cache_dir hosts heap = Some (p, heap') -> ffi_reachable heap'
| fr_call c p u heap heap' :
    ffi_reachable heap -> call_ok c -> run_call process_id c p heap = Some (u, heap') -> ffi_reachable heap'
| fr_destroy p r heap heap' :
    ffi_reachable heap -> proxy_server_destroy p heap = Some (r, heap') -> ffi_reachable heap'
| fr_requests p h rh l rh' heap :
    ffi_reachable heap -> heap !! p = Some h -> fh_server h = Some (rh, l) -> served rh rh' ->
    ffi_reachable (<[p := set_server (Some (rh', l)) h]> heap)
| fr_thread p h h' heap :
    ffi_reachable heap -> heap !! p = Some h -> thread_ends h = Some h' -> ffi_reachable (<[p := h']> heap).

Definition heap_ok heap : Prop := forall p h, heap !! p = Some h -> p <> 0 /\ handle_ok process_id h.

Lemma heap_ok_insert heap p h :
  heap_ok heap -> p <> 0 -> handle_ok process_id h -> heap_ok (<[p := h]> heap).
Proof. intros Hh Hp Ho q h'. rewrite lookup_insert_Some. intros [[<- <-]|[_ Hq]]; [done|by apply Hh]. Qed.

Lemma served_ok rh rh' : served rh rh' -> server_ok process_id rh -> server_ok process_id rh'.
Proof.
  intros [[ops Ho] Hp Hb] [S1 S2 S3]. split.
  - rewrite Ho. clear Ho. revert S1. generalize (rh_registry rh). induction ops as [|op ops IH]; intros r Hr; [done|].
    cbn. apply IH. by apply run_op_ok.
  - induction Hp as [|r1 r2 r3 Hs _ IH]; [done|]. apply IH. by eapply reach_step.
  - intros b' Eb'. rewrite Eb' in Hb. destruct (rh_backend rh) as [b|] eqn:Eb; [|done].
    destruct (S3 b eq_refl) as [Ha Hm]. split; [by eapply agree_same|]. destruct Hb as (_ & _ & ?). congruence.
Qed.

Lemma thread_ends_ok h h' : thread_ends h = Some h' -> handle_ok process_id h -> handle_ok process_id h'.
Proof.
  unfold thread_ends. intros E Hh. destruct (fh_server h) as [[rh l]|] eqn:Es; [|by injection E as <-].
  pose proof Hh as [H1 H2 H3 H4 H5]. destruct (H5 _ _ Es) as [Hs [Hl _]].
  destruct (lf_starts l !! 0%nat) as [pc|] eqn:El; [|done]. destruct pc; try done.
  - destruct (lf_notified l) eqn:En; [|done]. injection E as <-. split; cbn; try done.
    + intros _. apply H2. by rewrite Es.
    + intros rh0 l0 [= <- <-]. split; [done|]. split; [|right; exists (Ok tt); cbn; by rewrite lookup_insert_eq].
      eapply lr_step; [eapply lr_step; [exact Hl|by apply (ls_notified _ 0)]|].
      apply ls_drained. cbn. by rewrite lookup_insert_eq.
  - destruct (ready_now l); [|done]. injection E as <-. by split.
Qed.

Lemma ffi_reachable_ok heap : ffi_reachable heap -> heap_ok heap.
Proof.
  induction 1 as [|env port dir hosts heap p heap' _ IH E|c p u heap heap' _ IH Hc E|p r heap heap' _ IH E
    |p h rh l rh' heap _ IH Hp Es Hsv|p h h' heap _ IH Hp E].
  - intros p h. by rewrite lookup_empty.
  - injection E as <- <-. destruct (alloc_fresh (dom heap)) as [Hnz _].
    apply heap_ok_insert; [done|done|]. split; cbn; try done.
    apply reach_cache_limit.
  - destruct (run_call_one process_id c p Hc heap) as (H0 & H1 & H2).
    destruct (decide (p = 0)) as [Hp|Hp]; [destruct (H0 Hp) as [a Ea]; by simplify_eq|].
    destruct (heap !! p) as [h|] eqn:Eh; [|by rewrite (H1 Hp) in E].
    destruct (H2 Hp h eq_refl) as (a & h' & Ea & Hok). rewrite Ea in E. injection E as _ <-.
    apply heap_ok_insert; [done|done|]. by apply Hok, (IH p h).
  - unfold proxy_server_destroy in E. destruct (Z.eqb_spec p 0); [by injection E as _ <-|].
    destruct (heap !! p) as [h|] eqn:Eh; [|done]. destruct (_ && _); injection E as _ <-.
    + apply heap_ok_insert; [done|done|]. by apply stop_server_ok, (IH p h).
    + intros q h'. rewrite lookup_delete_Some. intros [_ Hq]. by apply IH.
  - apply heap_ok_insert; [done|by apply (IH p h)|]. destruct (IH p h Hp) as [_ Ho].
    eapply handle_ok_server; [done|done|]. eapply served_ok; [done|]. by apply (ho_state _ _ Ho _ _ Es).
  - apply heap_ok_insert; [done|by apply (IH p h)|]. eapply thread_ends_ok; [done|]. by apply (IH p h).
Qed.

(** What starting does to a handle. *)
Lemma start_handle_run env late files h r h' :
  env_ok env -> start_handle env late files h = (r, h') -> handle_ok process_id h ->
  fh_thread h' = true
  /\ match r with
     | Returns port =>
         port <> 0 ->
         exists config rh l, fh_config h = Some config /\ fh_thread h = false
           /\ se_bind env (cfg_port config) = Ok port /\ fh_server h' = Some (rh, l)
           /\ lf_status l = Running_ /\ bound_port l = Some port /\ rh_registry rh = SourceRegistry.default
     | Blocks => exists msg, se_local_addr env = Err msg
     end.
Proof.
  intros Henv E [H1 _ _ _ _]. unfold start_handle in E.
  destruct (fh_thread h) eqn:Et; [by injection E as <- <-|].
  destruct (fh_config h) as [config|] eqn:Ec; [|by discriminate (proj2 H1 eq_refl)].
  cbv zeta in E. destruct (se_runtime env); simpl in E; [|by injection E as <- <-].
  destruct (start_life_ok env (cfg_port config) Henv) as (_ & Hready & Hrun).
  rewrite Hready in E. injection E as <- <-. cbn. split; [done|].
  unfold started in *. destruct (se_bind env (cfg_port config)) as [bound|] eqn:Eb; [|done].
  destruct (se_local_addr env) as [u|msg]; [|by eexists]. intros Hport.
  destruct (Hrun bound eq_refl) as [Hst Hpc].
  eexists config, _, _. split_and!; try done; [|apply new_registry].
  unfold ready_now in Hready. destruct (bound_port _); [by simplify_eq|by case_match].
Qed.

(** Joining the thread of a handle that was told to stop blocks only on a
    start that waits in vain. *)
Lemma join_blocks h :
  handle_ok process_id h -> ~ is_Some (thread_ends (stop_server h)) ->
  exists rh l, fh_server h = Some (rh, l) /\ ready_now l = None.
Proof.
  intros [_ _ _ _ H5] Hj. unfold stop_server, thread_ends in Hj.
  destruct (fh_server h) as [[rh l]|] eqn:Es; [|by rewrite Es in Hj; destruct Hj].
  cbn in Hj. destruct (H5 _ _ eq_refl) as [_ [_ [(port & Hpc & _)|[r Hpc]]]];
    unfold stop_life in Hj; cbn in Hj; rewrite Hpc in Hj; [by destruct Hj|].
  exists rh, l. split; [done|]. destruct (ready_now l) as [x|] eqn:Er; [|done]. exfalso. apply Hj.
  unfold ready_now, bound_port in *. cbn. destruct (lf_port l =? 0); [|done].
  destruct (decide (lf_status l = Failed)) as [Ef|]; [|done]. rewrite Ef. by cbn.
Qed.

(** ** Adding a torrent *)

Lemma with_backend_Some {A} (none : A) m rh a rh' :
  with_backend none m rh = (a, rh') ->
  (rh_backend rh = None /\ a = none /\ rh' = rh)
  \/ exists b, rh_backend rh = Some b /\ a = (m b).1 /\ rh_backend rh' = Some (m b).2.
Proof.
  unfold with_backend. destruct (rh_backend rh) as [b|]; [|intros [= <- <-]; by left].
  destruct (m b) as [x b'] eqn:E. intros [= <- <-]. right. exists b. by rewrite E.
Qed.

(** What an addition of a source leaves behind. *)
Definition has_torrent rh (hash : text) (id : Z) : Prop :=
  exists b, rh_backend rh = Some b /\ info_hashes b !! hash = Some id /\ is_Some (torrents b !! id).

Lemma add_has_torrent source hash b id b' rh :
  add_authorized_source source hash b = (Ok id, b') -> tables_agree b -> rh_backend rh = Some b' ->
  has_torrent rh hash id.
Proof.
  intros E Ha Eb. pose proof (agree_add _ _ _ _ _ E Ha) as Ha'. exists b'. split; [done|].
  assert (Hh : info_hashes b' !! hash = Some id).
  { apply add_source_run in E as [_ [[? ->]|(_ & _ & -> & _)]]; [done|by rewrite lookup_insert_eq]. }
  split; [done|]. by apply (ta_hash _ Ha') in Hh.
Qed.

Lemma run_add_magnet magnet auth c rh reply c' rh' :
  server_ok process_id rh -> run_command (Add magnet auth) c rh = (reply, c', rh') ->
  (auth = false \/ is_ok (parse_magnet_uri magnet) = false -> reply = ReplyId None /\ rh' = rh)
  /\ forall id, reply = ReplyId (Some id) ->
       exists req, parse_magnet_uri magnet = Ok req /\ has_torrent rh' (mg_info_hash req) id.
Proof.
  intros Hs E. cbn [run_command] in E.
  destruct (auth && is_ok (parse_magnet_uri magnet)) eqn:Ev; cycle 1.
  { unfold ensure_backend in E. split; [intros _|intros id Hid];
      destruct (rh_backend rh); by injection E as <- _ <-. }
  apply andb_true_iff in Ev as [-> Ev]. split; [intros [?|?]; congruence|]. intros id Hid.
  destruct (ensure_backend true c rh) as [c1 rh1] eqn:Ee. apply (ensure_backend_ok process_id) in Ee; [|done].
  destruct (with_backend _ _ rh1) as [a rh2] eqn:Ew. injection E as <- _ <-. injection Hid as ->.
  apply with_backend_Some in Ew as [(_ & ? & _)|(b & Eb & Ea & Eb2)]; [done|].
  destruct (add_magnet_run magnet true b) as [[e Er]|(_ & req & Hreq & Er)]; rewrite Er in Ea, Eb2; [done|].
  destruct (add_authorized_source _ _ b) as [[id'|] b'] eqn:E; cbn in Ea, Eb2; [|done]. injection Ea as <-.
  exists req. split; [done|]. eapply add_has_torrent; [exact E| |done]. by apply (so_backend _ _ Ee).
Qed.

Lemma run_add_bytes bytes auth c rh reply c' rh' :
  server_ok process_id rh -> run_command (AddTorrentBytes bytes auth) c rh = (reply, c', rh') ->
  (auth = false \/ is_ok (parse_torrent_metadata bytes) = false -> reply = ReplyId None /\ rh' = rh)
  /\ forall id, reply = ReplyId (Some id) ->
       exists meta, parse_torrent_metadata bytes = Ok meta /\ has_torrent rh' (TorrentMeta.info_hash meta) id.
Proof.
  intros Hs E. cbn [run_command] in E.
  destruct (auth && is_ok (parse_torrent_metadata bytes)) eqn:Ev; cycle 1.
  { unfold ensure_backend in E. split; [intros _|intros id Hid];
      destruct (rh_backend rh); by injection E as <- _ <-. }
  apply andb_true_iff in Ev as [-> Ev]. split; [intros [?|?]; congruence|]. intros id Hid.
  destruct (ensure_backend true c rh) as [c1 rh1] eqn:Ee. apply (ensure_backend_ok process_id) in Ee; [|done].
  destruct (with_backend _ _ rh1) as [a rh2] eqn:Ew. injection E as <- _ <-. injection Hid as ->.
  apply with_backend_Some in Ew as [(_ & ? & _)|(b & Eb & Ea & Eb2)]; [done|].
  destruct (add_bytes_run bytes true b) as [[e Er]|(_ & meta & Hmeta & Er)]; rewrite Er in Ea, Eb2; [done|].
  destruct (add_authorized_source _ _ b) as [[id'|] b'] eqn:E; cbn in Ea, Eb2; [|done]. injection Ea as <-.
  exists meta. split; [done|]. eapply add_has_torrent; [exact E| |done]. by apply (so_backend _ _ Ee).
Qed.

(** A command that was sent on an idle channel and answered. *)
Definition idle h : Prop := forall c, fh_commands h = Some c -> cm_queue c = [].

Lemma send_command_run command h r h' :
  handle_ok process_id h -> idle h -> send_command command h = (r, h') ->
  (r = None /\ fh_server h' = fh_server h)
  \/ exists rh l c c' rh' reply, fh_server h = Some (rh, l) /\ server_ok process_id rh
       /\ run_command command c rh = (reply, c', rh') /\ r = Some reply /\ fh_server h' = Some (rh', l).
Proof.
  intros Hh Hi. unfold send_command. destruct (fh_commands h) as [c|] eqn:Ec; [|intros [= <- <-]; by left].
  destruct (fh_server h) as [[rh l]|] eqn:Es; [|intros [= <- <-]; by left].
  destruct (negb (cm_open c)); [intros [= <- <-]; by left|].
  destruct (List.hd false (cm_late c)); [intros [= <- <-]; by left|].
  rewrite (Hi c Ec). cbn. destruct (run_command command _ rh) as [[reply c2] rh2] eqn:E.
  intros [= <- <-]. right. eexists rh, l, _, c2, rh2, reply.
  destruct (ho_state _ _ Hh _ _ Es) as [Hs _]. by split_and!.
Qed.
End Reachable.

Module FfiClaims.
Section Claims.
Context {UP : UrlParser} {UQ : UrlPairs} {SHA1 : Sha1} {SHA : Sha256} {MJ : ManifestJson}
  {ON : HashOrder Z RegisteredSource} {ONL : HashOrderLaws Z RegisteredSource}
  {OF : HashOrder path DiskCacheFile} {OD : DirOrder}
  {FJ : FfiJson} {AL : Allocator} {ALL : AllocatorLaws} {Se Tor Stm St X : Type} {LR : LibRqbit Se Tor Stm}
  {NS : NewServer St (Backend Se Tor) (HostEnv X)} {NSL : NewServerLaws (NS := NS)} (process_id : Z).
Abbreviation Heap := (gmap Z (ProxyServerHandle Se Tor St X)).

(** C8: whatever a host program calls, and whatever its servers do meanwhile:
    the registry of sources of every handle that runs a server is well formed,
    its registry of P2P sources is one the operations reach, its torrent tables
    agree and hold at most eight torrents, and its life is one of a server; a
    configuration is used up exactly when a thread was spawned.  A call is
    defined exactly for the null pointer and the live handles, and changes no
    other handle. *)
Theorem handle_invariant (heap : Heap) (c : ffi_call X) (q : Z) :
  ffi_reachable process_id heap -> call_ok c ->
  (forall p h, heap !! p = Some h ->
     (fh_thread h = true <-> fh_config h = None)
     /\ forall rh l, fh_server h = Some (rh, l) ->
          fh_thread h = true /\ life_reachable l /\ registry_ok (rh_registry rh)
          /\ p2p_reachable process_id (rh_p2p rh)
          /\ forall b, rh_backend rh = Some b -> tables_agree b /\ (size (torrents b) <= 8)%nat)
  /\ (is_Some (run_call process_id c q heap) <-> q = 0 \/ is_Some (heap !! q))
  /\ forall u heap', run_call process_id c q heap = Some (u, heap') ->
       forall p, p <> q -> heap' !! p = heap !! p.
Proof.
  intros Hr Hc. apply ffi_reachable_ok in Hr. split_and!.
  - intros p h Hp. destruct (Hr p h Hp) as [_ [H1 H2 _ _ H5]]. split; [done|]. intros rh l Es.
    destruct (H5 _ _ Es) as [[S1 S2 S3] [Hl _]]. split_and!; [apply H2; by rewrite Es|done|done|done|].
    intros b Eb. destruct (S3 b Eb) as [Ha Hm]. split; [done|]. pose proof (ta_limit _ Ha). lia.
  - destruct (run_call_one process_id c q Hc heap) as (H0 & H1 & H2). split.
    + intros Hd. destruct (decide (q = 0)) as [|Hq]; [by left|right].
      destruct (heap !! q) eqn:E; [done|]. rewrite (H1 Hq eq_refl) in Hd. by destruct Hd.
    + intros [Hq|[h Hh]]; [destruct (H0 Hq) as [a ->]; done|].
      destruct (decide (q = 0)) as [Hq|Hq]; [destruct (H0 Hq) as [a ->]; done|].
      by destruct (H2 Hq h Hh) as (a & h' & -> & _).
  - intros u heap' E p Hp. destruct (run_call_one process_id c q Hc heap) as (H0 & H1 & H2).
    destruct (decide (q = 0)) as [Hq|Hq]; [destruct (H0 Hq) as [a Ea]; by simplify_eq|].
    destruct (heap !! q) as [h|] eqn:Eh; [|by rewrite (H1 Hq eq_refl) in E].
    destruct (H2 Hq h eq_refl) as (a & h' & Ea & _). rewrite Ea in E. injection E as _ <-.
    by rewrite lookup_insert_ne.
Qed.

(** C19: a handle is started at most once.  After a call of [proxy_server_start],
    successful or not, every further one is refused and changes nothing.  A call
    that returns a port has taken the configuration and published a running
    server with an empty registry of sources that is bound to this port; a call
    that does not return at all has met a listener whose address could not be
    read.  [proxy_server_destroy] frees the handle, and it returns unless
    such a start is still waiting. *)
Theorem handle_life (heap heap' : Heap) (p : Z) (h : ProxyServerHandle Se Tor St X) (env : StartEnv)
    (late : list bool) (files : fs) (r : outcome Z) :
  ffi_reachable process_id heap -> heap !! p = Some h -> env_ok env ->
  proxy_server_start env late files p heap = Some (r, heap') ->
  (forall env2 late2 files2, proxy_server_start env2 late2 files2 p heap' = Some (Returns 0, heap'))
  /\ match r with
     | Returns port =>
         port <> 0 ->
         exists config h' rh l, fh_config h = Some config /\ fh_thread h = false
           /\ se_bind env (cfg_port config) = Ok port
           /\ heap' = <[p := h']> heap /\ fh_server h' = Some (rh, l)
           /\ lf_status l = Running_ /\ bound_port l = Some port
           /\ rh_registry rh = SourceRegistry.default
     | Blocks => exists msg, se_local_addr env = Err msg
     end
  /\ exists r2 heap2, proxy_server_destroy p heap' = Some (r2, heap2)
       /\ match r2 with
          | Returns _ => heap2 = delete p heap'
          | Blocks => exists h' rh l, heap' !! p = Some h' /\ fh_server h' = Some (rh, l) /\ ready_now l = None
          end.
Proof.
  intros Hreach Hp Henv E.
  assert (Hreach' : ffi_reachable process_id heap').
  { eapply (fr_call process_id (CallStart env late files) p tt); [done|done|]. cbn. unfold ignore. by rewrite E. }
  apply ffi_reachable_ok in Hreach, Hreach'. destruct (Hreach p h Hp) as [Hnz Hh].
  unfold proxy_server_start, on_handle in E. rewrite (proj2 (Z.eqb_neq p 0) Hnz), Hp in E.
  destruct (start_handle env late files h) as [r0 h'] eqn:Es. injection E as <- <-.
  destruct (start_handle_run process_id _ _ _ _ _ _ Henv Es Hh) as (Hth & Hrun).
  split_and!.
  - intros env2 late2 files2. unfold proxy_server_start, on_handle.
    rewrite (proj2 (Z.eqb_neq p 0) Hnz), lookup_insert_eq. unfold start_handle. rewrite Hth.
    by rewrite insert_insert_eq.
  - destruct r0 as [port|]; [|done]. intros Hport.
    destruct (Hrun Hport) as (config & rh & l & ? & ? & ? & ? & ? & ? & ?). exists config, h', rh, l. by split_and!.
  - destruct (Hreach' p h' ltac:(apply lookup_insert_eq)) as [_ Hh'].
    unfold proxy_server_destroy. rewrite (proj2 (Z.eqb_neq p 0) Hnz), lookup_insert_eq.
    destruct (_ && _) eqn:Ej; eexists _, _; (split; [reflexivity|]); cbn; [|done].
    apply andb_true_iff in Ej as [_ Ej]. apply negb_true_iff, bool_decide_eq_false in Ej.
    destruct (join_blocks process_id _ Hh' Ej) as (rh & l & Es' & Hl). exists h', rh, l. by split_and!.
Qed.


End Claims.
End FfiClaims.

(** A server of which only the shared parts matter, and a host program that
    creates one, starts it and adds a torrent. *)
Module FfiDemo.
#[export] Instance demo_url : UrlParser := RqbitDemo.magnet_url.
#[export] Instance demo_query : UrlPairs := RqbitDemo.magnet_query.
#[export] Instance demo_sha1 : Sha1 := RqbitDemo.no_sha1.
#[export] Instance demo_sha : Sha256 := P2pDemo.pad_sha.
#[export] Instance demo_manifest : ManifestJson := fun _ => None.
#[export] Instance demo_sources : HashOrder Z RegisteredSource := sorted_order Z RegisteredSource.
#[export] Instance demo_source_laws : HashOrderLaws Z RegisteredSource := sorted_order_laws Z RegisteredSource.
#[export] Instance demo_files : HashOrder path DiskCacheFile := sorted_order path DiskCacheFile.
#[export] Instance demo_dirs : DirOrder := fun l => l.
#[export] Instance demo_lib : LibRqbit (Z * bool) Z (Z * Z * Z) := RqbitDemo.demo_lib.
#[export] Instance demo_json : FfiJson := {|
  metrics_json _ := Some (str "{}"); files_json _ := Some (str "[]"); status_json _ := Some (str "{}") |}.
#[export] Instance demo_box : Allocator := fun s => 1 + foldr Z.max 0 (elements s).
#[export] Instance demo_box_laws : AllocatorLaws.
Proof.
  split. intros s. unfold alloc_box, demo_box.
  assert (Hm : forall l, 0 <= foldr Z.max 0 l /\ forall x, x ∈ l -> x <= foldr Z.max 0 l).
  { induction l as [|y l [IH1 IH2]]; cbn; [split; [lia|]; by intros x Hx%elem_of_nil|].
    split; [lia|]. intros x [->|Hx]%elem_of_cons; [lia|]. specialize (IH2 x Hx). lia. }
  destruct (Hm (elements s)) as [H1 H2]. split; [lia|]. intros Hin. apply elem_of_elements, H2 in Hin. lia.
Qed.
#[export] Instance demo_server : NewServer unit (Backend (Z * bool) Z) (HostEnv nat) := fun _ p =>
  mk_RequestHandler tt 1 SourceRegistry.default metrics_default p None.
#[export] Instance demo_server_laws : NewServerLaws (NS := demo_server).
Proof. by split. Qed.
Abbreviation Heap := (gmap Z (ProxyServerHandle (Z * bool) Z unit nat)).
Definition env : CreateEnv nat := mk_CreateEnv 0 P2pRegistryDemo.empty_fs [] 0 (mk_HostEnv 0%nat RqbitDemo.fs0).
Definition sys : StartEnv := mk_StartEnv true (fun p => Ok (if (0 <? p) && (p <=? 65535) then p else 40000)) (Ok tt).
Definition created : Heap := from_option snd ∅ (proxy_server_create env 8080 (Some (str "/cache")) ∅).
Definition running : Heap := from_option snd ∅ (proxy_server_start sys [] RqbitDemo.fs0 1 created).

Lemma created_reach : ffi_reachable 7 created.
Proof. eapply (fr_create 7 env 8080 (str "/cache") [] ∅ 1); [constructor|]. vm_compute. reflexivity. Qed.
Lemma sys_ok : env_ok sys.
Proof. intros p q [= <-]. case_match; lia. Qed.
Definition boot : ffi_call nat := CallStart sys [] RqbitDemo.fs0.
Lemma running_reach : ffi_reachable 7 running.
Proof.
  eapply (fr_call 7 boot 1 tt created running); [apply created_reach|apply sys_ok|]. vm_compute. reflexivity.
Qed.
Definition handle : ProxyServerHandle (Z * bool) Z unit nat :=
  from_option id (mk_Handle None None false (with_cache_limit [] 0 0 RqbitDemo.fs0 [] 0 (ce_host env)) None None)
    (running !! 1).

Lemma handle_invariant_witness :
  is_Some (run_call 7 boot 1 running)
  /\ forall rh l, fh_server handle = Some (rh, l) -> registry_ok (rh_registry rh).
Proof.
  destruct (FfiClaims.handle_invariant 7 running boot 1 running_reach sys_ok)
    as (H1 & H2 & _).
  assert (Hp : running !! 1 = Some handle) by (vm_compute; reflexivity).
  split; [apply H2; right; by eexists|]. intros rh l E. by apply (proj2 (H1 _ _ Hp) rh l E).
Defined.

Lemma handle_life_witness :
  proxy_server_start sys [] RqbitDemo.fs0 1 created = Some (Returns 8080, running)
  /\ proxy_server_start sys [] RqbitDemo.fs0 1 running = Some (Returns 0, running)
  /\ exists h' rh l, running !! 1 = Some h' /\ fh_server h' = Some (rh, l) /\ lf_status l = Running_.
Proof.
  assert (E : proxy_server_start sys [] RqbitDemo.fs0 1 created
              = Some (Returns 8080, running)) by (vm_compute; reflexivity).
  destruct (FfiClaims.handle_life 7 created running 1 _ sys [] RqbitDemo.fs0 _
    created_reach eq_refl sys_ok E) as (H1 & H2 & _).
  split; [done|]. split; [apply H1|]. destruct H2 as (c & h' & rh & l & _ & _ & _ & -> & Hs & Hl & _); [lia|].
  exists h', rh, l. by rewrite lookup_insert_eq.
Defined.

Definition added : Z * Heap :=
  from_option id (0, ∅) (proxy_torrent_add_authorized 1 (Some RqbitDemo.MAGNET) 1 running).
End FfiDemo.

(** * Refresh contexts

    Which calls of the C interface change what the refresh callback of a handle
    has captured, what a binding can rely on when it calls one of the functions
    on a live handle, and what a refresh callback of a binding delivers. *)

Section Contexts.
Context {UP : UrlParser} {UQ : UrlPairs} {SHA1 : Sha1} {SHA : Sha256} {MJ : ManifestJson}
  {ON : HashOrder Z RegisteredSource} {ONL : HashOrderLaws Z RegisteredSource}
  {OF : HashOrder path DiskCacheFile} {OD : DirOrder}
  {FJ : FfiJson} {AL : Allocator} {ALL : AllocatorLaws} {Se Tor Stm St X : Type} {LR : LibRqbit Se Tor Stm}
  {NS : NewServer St (Backend Se Tor) (HostEnv X)} {NSL : NewServerLaws (NS := NS)} (process_id : Z).
Abbreviation Handle := (ProxyServerHandle Se Tor St X).
Abbreviation Heap := (gmap Z Handle).
Abbreviation C A := (Heap -> option (A * Heap)).
Implicit Types h : Handle.
Implicit Types heap : Heap.

Definition same_context h h' : Prop := fh_context h' = fh_context h.

Lemma send_command_context command h r h' : send_command command h = (r, h') -> same_context h h'.
Proof.
  unfold send_command, same_context. destruct (fh_commands h) as [c|]; [|by intros [= _ <-]].
  destruct (fh_server h) as [[rh l]|]; [|by intros [= _ <-]].
  destruct (negb _); [by intros [= _ <-]|]. destruct (List.hd _ _); [by intros [= _ <-]|].
  destruct (run_rqbit_commands _ _ _) as [c1 rh1]. destruct (run_command _ _ _) as [[reply c2] rh2].
  by intros [= _ <-].
Qed.

Lemma on_sources_context {A} (none : A) m h a h' : on_sources none m h = (a, h') -> same_context h h'.
Proof.
  unfold on_sources, same_context. destruct (fh_server h) as [[rh l]|]; [|by intros [= _ <-]].
  destruct (m _). by intros [= _ <-].
Qed.

Lemma on_p2p_context {A} (m : P2pSourceRegistry (HostEnv X) -> A * _) h a h' :
  on_p2p m h = (a, h') -> same_context h h'.
Proof.
  unfold on_p2p, same_context. destruct (fh_server h) as [[rh l]|].
  - destruct (m _). by intros [= _ <-].
  - destruct (m _). by intros [= _ <-].
Qed.

Lemma register_provider_context json provider h id h' :
  register_provider json provider h = (id, h') -> same_context h h'.
Proof.
  unfold register_provider. destruct (parse_authorized_manifest_json json) as [[source m]|]; [|by intros [= _ <-]].
  apply on_p2p_context.
Qed.

Lemma start_context env late files h r h' : start_handle env late files h = (r, h') -> same_context h h'.
Proof.
  unfold start_handle, same_context. destruct (fh_thread h); [by intros [= _ <-]|].
  destruct (fh_config h); [|by intros [= _ <-]]. cbv zeta. destruct (negb _); by intros [= _ <-].
Qed.

Definition captures (c : ffi_call X) : bool := match c with CallSetRefresh _ _ => true | _ => false end.

Ltac same_handle E := by injection E as _ <-.
Ltac sent E :=
  unfold query_rqbit_json in E;
  match type of E with context [send_command ?c ?h] => destruct (send_command c h) eqn:? end;
  injection E as _ <-; eapply send_command_context; eauto.

Lemma run_call_context c p : captures c = false -> on_one p (run_call process_id c p) same_context.
Proof.
  intros Hc. destruct c; try done; cbn [run_call];
    unfold proxy_server_metrics_json, proxy_source_register, proxy_source_refresh, proxy_source_remove,
      proxy_torrent_add_authorized, proxy_torrent_add_file_authorized,
      proxy_torrent_remove, proxy_torrent_files_json, proxy_torrent_status_json, torrent_json,
      proxy_torrent_set_paused, torrent_command, proxy_torrent_set_download_limit,
      proxy_torrent_select_files, proxy_p2p_source_register, proxy_p2p_source_register_directory,
      proxy_p2p_source_remove, proxy_p2p_source_verify_complete, proxy_server_start, proxy_server_stop;
    apply on_handle_one; intros h a h' E.
  - same_handle E.
  - destruct (read_string identity), (read_string url); try same_handle E. by eapply on_sources_context.
  - destruct (read_string url); [|same_handle E]. by eapply on_sources_context.
  - by eapply on_sources_context.
  - destruct (read_string magnet); [|same_handle E]. by sent E.
  - destruct bytes as [bytes|]; [|same_handle E]. destruct (_ || _); [same_handle E|by sent E].
  - destruct (_ <? _); [same_handle E|by sent E].
  - destruct (_ <? _); [same_handle E|by sent E].
  - destruct (_ <? _); [same_handle E|by sent E].
  - destruct (_ <? _); [same_handle E|by sent E].
  - by sent E.
  - destruct (_ <? _); [same_handle E|]. destruct file_ids as [ids|]; [|same_handle E].
    destruct (_ || _); [same_handle E|by sent E].
  - destruct callback as [callback|]; [|same_handle E]. destruct json as [json|]; [|same_handle E].
    case_bool_decide; [same_handle E|]. by eapply register_provider_context.
  - destruct (read_string directory); [|same_handle E]. destruct json as [json|]; [|same_handle E].
    destruct (_ || _); [same_handle E|]. do 2 (destruct (negb _); [same_handle E|]).
    by eapply register_provider_context.
  - by eapply on_p2p_context.
  - by eapply on_p2p_context.
  - by eapply start_context.
  - injection E as _ <-. unfold stop_server, same_context. by destruct (fh_server h) as [[rh l]|].
Qed.

(** ** Functions on a live handle *)

(** [m] is the function the call [c] stands for. *)
Definition is_call {A} (c : ffi_call X) (p : Z) (m : C A) : Prop := run_call process_id c p = ignore m.

Lemma ignore_Some {A} (m : C A) heap u heap' : ignore m heap = Some (u, heap') -> exists a, m heap = Some (a, heap').
Proof. unfold ignore. destruct (m heap) as [[a s]|]; [|done]. intros [= _ <-]. by exists a. Qed.

Lemma live_call {A} c p (m : C A) heap h :
  is_call c p m -> call_ok c -> ffi_reachable process_id heap -> heap !! p = Some h ->
  exists a h', m heap = Some (a, <[p := h']> heap) /\ ffi_reachable process_id (<[p := h']> heap)
    /\ (captures c = false -> fh_context h' = fh_context h).
Proof.
  intros Hm Hc Hr Hp. destruct (ffi_reachable_ok process_id heap Hr p h Hp) as [Hnz _].
  destruct (run_call_one process_id c p Hc heap) as (_ & _ & H). destruct (H Hnz h Hp) as (u & h' & Eu & _).
  pose proof Eu as Em. rewrite Hm in Em. apply ignore_Some in Em as [a Ea]. exists a, h'. split_and!; [done| |].
  - by eapply fr_call.
  - intros Hcap. destruct (run_call_context c p Hcap heap) as (_ & _ & H2).
    destruct (H2 Hnz h Hp) as (u2 & h2 & Eu2 & Hs). rewrite Eu in Eu2. injection Eu2 as _ E.
    apply (f_equal (lookup p)) in E. rewrite !lookup_insert_eq in E. by injection E as ->.
Qed.

Lemma live_set_refresh p callback context heap h a heap' :
  p <> 0 -> heap !! p = Some h ->
  proxy_source_set_refresh_callback p (Some callback) context heap = Some (a, heap') ->
  exists h', heap' = <[p := h']> heap /\ fh_context h' = if a : bool then Some context else fh_context h.
Proof.
  intros Hnz Hp. unfold proxy_source_set_refresh_callback, on_handle.
  rewrite (proj2 (Z.eqb_neq p 0) Hnz), Hp.
  match goal with |- context [on_sources ?n ?m h] => destruct (on_sources n m h) as [i h1] eqn:E end.
  intros [= <- <-]. eexists. split; [done|]. destruct i; [done|]. by apply on_sources_context in E.
Qed.

Lemma live_destroy p heap h :
  ffi_reachable process_id heap -> heap !! p = Some h ->
  exists r heap', proxy_server_destroy p heap = Some (r, heap') /\ ffi_reachable process_id heap'
    /\ (forall q, q <> p -> heap' !! q = heap !! q)
    /\ match r with
       | Returns _ => heap' !! p = None
       | Blocks => exists h', heap' !! p = Some h' /\ fh_context h' = fh_context h
       end.
Proof.
  intros Hr Hp. destruct (ffi_reachable_ok process_id heap Hr p h Hp) as [Hnz _].
  assert (E : exists r heap', proxy_server_destroy p heap = Some (r, heap')
    /\ (forall q, q <> p -> heap' !! q = heap !! q)
    /\ match r with
       | Returns _ => heap' !! p = None
       | Blocks => exists h', heap' !! p = Some h' /\ fh_context h' = fh_context h
       end).
  { unfold proxy_server_destroy. rewrite (proj2 (Z.eqb_neq p 0) Hnz), Hp.
    destruct (_ && _); eexists _, _; (split; [done|]); split; intros.
    - by rewrite lookup_insert_ne.
    - eexists. split; [by rewrite lookup_insert_eq|]. unfold stop_server. by destruct (fh_server h) as [[rh l]|].
    - by rewrite lookup_delete_ne.
    - apply lookup_delete_eq. }
  destruct E as (r & heap' & E & H1 & H2). exists r, heap'. split_and!; try done. by eapply fr_destroy.
Qed.
End Contexts.

(** The call a function of the C interface is; [k] goes on with it. *)
Ltac call_of m k :=
  lazymatch m with
  | proxy_server_metrics_json _ ?b => k uconstr:(CallMetrics b)
  | proxy_source_register _ ?i ?u => k uconstr:(CallRegister i u)
  | proxy_source_refresh _ ?i ?u => k uconstr:(CallRefresh i u)
  | proxy_source_remove _ ?i => k uconstr:(CallRemove i)
  | proxy_source_set_refresh_callback _ ?cb ?x => k uconstr:(CallSetRefresh cb x)
  | proxy_torrent_add_authorized _ ?m ?a => k uconstr:(CallTorrentAdd m a)
  | proxy_torrent_add_file_authorized _ ?b ?a => k uconstr:(CallTorrentAddFile b a)
  | proxy_torrent_remove _ ?i ?d => k uconstr:(CallTorrentRemove i d)
  | proxy_torrent_files_json _ ?i ?b => k uconstr:(CallTorrentFiles i b)
  | proxy_torrent_status_json _ ?i ?b => k uconstr:(CallTorrentStatus i b)
  | proxy_torrent_set_paused _ ?i ?b => k uconstr:(CallTorrentPaused i b)
  | proxy_torrent_set_download_limit _ ?n => k uconstr:(CallTorrentLimit n)
  | proxy_torrent_select_files _ ?i ?l => k uconstr:(CallTorrentSelect i l)
  | proxy_p2p_source_register_directory _ ?j ?d => k uconstr:(CallP2pDirectory j d)
  | proxy_p2p_source_remove _ ?i => k uconstr:(CallP2pRemove i)
  | proxy_p2p_source_verify_complete _ _ ?i => k uconstr:(CallP2pVerify i)
  | proxy_server_start ?e ?l ?f _ => k uconstr:(CallStart e l f)
  | proxy_server_stop _ => k uconstr:(CallStop)
  end.

(** ** What a refresh callback delivers *)

(** A callback that puts [value] into the buffer if it fits. *)
Definition delivers (value : option text) (capacity : Z) : Z * text :=
  match value with
  | None => (0, [])
  | Some value =>
      let n := Z.of_nat (length value) in
      if bool_decide (value = []) || (capacity <? n) then (n, []) else (n, value)
  end.

Lemma delivered callback context id value url :
  callback context id REFRESH_BUFFER = delivers value REFRESH_BUFFER ->
  refresh_provider_of callback context id = Ok url <->
  value = Some url /\ url <> [] /\ Z.of_nat (length url) <= REFRESH_BUFFER /\ utf8_valid url = true.
Proof.
  intros E. unfold refresh_provider_of. rewrite E. unfold delivers. destruct value as [v|]; [|naive_solver].
  destruct (bool_decide_reflect (v = [])) as [->|Hv].
  { simpl. split; [done|]. intros ([= <-] & ? & _). done. }
  simpl. destruct (Z.ltb_spec REFRESH_BUFFER (Z.of_nat (length v))) as [Hl|Hl].
  { rewrite (proj2 (Z.ltb_lt _ _) Hl), orb_true_r. split; [done|]. intros ([= <-] & _ & ? & _). lia. }
  rewrite (proj2 (Z.ltb_ge _ _) Hl), orb_false_r. destruct (Z.eqb_spec (Z.of_nat (length v)) 0) as [H0|H0].
  { destruct v; [done|]. simpl in H0. lia. }
  assert (Hf : take (Z.to_nat (Z.of_nat (length v))) (filled REFRESH_BUFFER v) = v).
  { unfold filled. rewrite take_take, Nat2Z.id, Nat.min_l by lia. by rewrite take_app_length. }
  rewrite Hf. destruct (utf8_valid v) eqn:Eu; split; try done.
  - intros [= <-]. split_and!; try done.
  - by intros ([= <-] & _).
  - intros ([= <-] & _ & _ & ?). congruence.
Qed.

(** JSON in two calls: the buffer of the second one holds the JSON. *)
Lemma filled_json json : removelast (filled (Z.of_nat (length json) + 1) (json ++ [x00])) = json.
Proof.
  unfold filled. rewrite take_app_le by (rewrite length_app; simpl; lia).
  replace (Z.to_nat (Z.of_nat (length json) + 1)) with (length (json ++ [x00])) by (rewrite length_app; simpl; lia).
  by rewrite firstn_all, removelast_last.
Qed.
