(* ===== verification/Harmony.v ===== *)
(** * The HarmonyOS bindings ([harmony_config.rs], [harmony_napi.rs])

    An object of the ArkTS adapter owns one handle of the C interface and the
    contexts of the refresh callbacks it has installed.  N-API calls the methods
    of an object one after the other.  What a method works on is the object and
    the heap of handles; a use of a handle that is not live is [None].  A context
    is a box: its address and what is in it. *)

From Stdlib Require Import Strings.Byte Strings.String.
From S2P Require Import Prelude Bytes Error External FileSystem Digest DataRequest SourceRegistry P2pManifest P2p Bencode TorrentMeta Magnet RequestHandler Server Rqbit Ffi.

(** [CString::new]: a text that contains a zero is refused. *)
Definition cstring_new (s : text) : option text := if contains x00 s then None else Some s.

(** ** The configuration *)

Record HarmonyConfiguration : Type := mk_HarmonyConfiguration {
  hc_port : Z;
  hc_cache_directory : text;
  hc_allowed_hosts : text;
}.

Definition parse_configuration (port : Z) (cache_directory : text) (allowed_hosts : list text) :
    result text HarmonyConfiguration :=
  if 65535 <? port then Err (str "invalid proxy port")
  else if bool_decide (trim cache_directory = []) then Err (str "invalid cache directory")
  else
    cache_directory ← ok_or (cstring_new cache_directory) (str "invalid cache directory");
    if bool_decide (allowed_hosts = [])
       || existsb (fun host => bool_decide (trim host = []) || contains x2c host) allowed_hosts
    then Err (str "invalid allowed host")
    else
      hosts ← ok_or (cstring_new (join [x2c] (map trim allowed_hosts))) (str "invalid allowed host");
      Ok (mk_HarmonyConfiguration port cache_directory hosts).

(** ** Errors and contexts *)

Inductive NapiStatus : Type := InvalidArg | GenericFailure.
Definition napi (A : Type) : Type := result (NapiStatus * text) A.

(** The function of the adapter, by what it gives for the decimal number of a
    source within ten seconds: nothing when the call is not accepted, when it
    fails and when it is late. *)
Record HarmonyRefreshContext : Type := mk_HarmonyRefreshContext { hx_provider : text -> option text }.

(** [boxes] is what the context can point to. *)
Definition harmony_refresh_callback (boxes : list (Z * HarmonyRefreshContext)) :
    ProxySourceRefreshCallback := fun context source_id capacity =>
  match list_find (fun b => b.1 = context) boxes with
  | None => (0, [])
  | Some (_, (_, ctx)) =>
      match hx_provider ctx (format_u64 source_id) with
      | None => (0, [])
      | Some value =>
          let n := Z.of_nat (length value) in
          if bool_decide (value = []) || (capacity <? n) then (n, []) else (n, value)
      end
  end.

Module MediaProxyCache.
Record MediaProxyCache : Type := mk_MediaProxyCache {
  handle : option Z;
  refresh_contexts : list (Z * HarmonyRefreshContext);
}.

Section Methods.
Context {UP : UrlParser} {UQ : UrlPairs} {SHA1 : Sha1} {SHA : Sha256} {MJ : ManifestJson}
  {ON : HashOrder Z RegisteredSource} {OF : HashOrder path DiskCacheFile} {OD : DirOrder}
  {FJ : FfiJson} {AL : Allocator} {Se Tor Stm St X : Type} {LR : LibRqbit Se Tor Stm}
  {NS : NewServer St (Backend Se Tor) (HostEnv X)} (process_id : Z).
Abbreviation Heap := (gmap Z (ProxyServerHandle Se Tor St X)).
Abbreviation C A := (Heap -> option (A * Heap)).

(** What a method does to its object and the heap. *)
Definition method (A : Type) : Type :=
  MediaProxyCache * Heap -> option (napi A * (MediaProxyCache * Heap)).
#[export] Instance method_ret : MRet method := fun _ a s => Some (Ok a, s).
#[export] Instance method_bind : MBind method := fun _ _ k m s =>
  match m s with
  | Some (Ok a, s) => k a s
  | Some (Err e, s) => Some (Err e, s)
  | None => None
  end.
Definition raise {A} (status : NapiStatus) (message : string) : method A := fun s =>
  Some (Err (status, str message), s).
(** [ok_or_else(..)?]. *)
Definition or_raise {A} (o : option A) (status : NapiStatus) (message : string) : method A :=
  match o with Some a => mret a | None => raise status message end.
(** A function of the C interface. *)
Definition ffi {A} (m : C A) : method A := fun s =>
  (fun x => (Ok x.1, (s.1, x.2))) <$> m s.2.

Definition current_handle : method Z := fun s =>
  or_raise (handle s.1) GenericFailure "proxy is closed" s.

(** ** Creating, starting and closing *)

Definition create (env : CreateEnv X) (port : Z) (cache_directory : text) (allowed_hosts : list text) :
    C (napi MediaProxyCache) := fun heap =>
  match parse_configuration port cache_directory allowed_hosts with
  | Err message => Some (Err (InvalidArg, message), heap)
  | Ok configuration =>
      '(p, heap) ← proxy_server_create_with_hosts env (hc_port configuration)
                     (Some (hc_cache_directory configuration)) (Some (hc_allowed_hosts configuration)) heap;
      if p =? 0 then Some (Err (GenericFailure, str "proxy creation failed"), heap)
      else Some (Ok (mk_MediaProxyCache (Some p) []), heap)
  end.

Definition start (env : StartEnv) (late : list bool) (files : fs) : method (outcome Z) :=
  p ← current_handle;
  port ← ffi (proxy_server_start env late files p);
  match port with
  | Returns port => if port =? 0 then raise GenericFailure "proxy start failed" else mret (Returns port)
  | Blocks => mret Blocks
  end.

Definition stop : method unit := fun s =>
  match handle s.1 with
  | Some p => ffi (proxy_server_stop p) s
  | None => Some (Ok tt, s)
  end.

(** [take]: the object has no handle any more, whatever destroying it does. *)
Definition take_handle : method (option Z) := fun s =>
  Some (Ok (handle s.1), (mk_MediaProxyCache None (refresh_contexts s.1), s.2)).
Definition clear_contexts : method unit := fun s =>
  Some (Ok tt, (mk_MediaProxyCache (handle s.1) [], s.2)).
Definition close : method (outcome unit) :=
  taken ← take_handle;
  r ← match taken with
      | Some p => ffi (proxy_server_destroy p)
      | None => mret (Returns tt)
      end;
  match r with
  | Returns _ => clear_contexts ;; mret (Returns tt)
  | Blocks => mret Blocks
  end.
(** [Drop]. *)
Definition close_for_drop : method (outcome unit) := close.

(** ** JSON, in two calls: the first one asks for the length *)

Definition read_json (most : Z -> bool) (query : c_buffer -> C (Z * option text)) : C (option (list byte)) := fun heap =>
  '(first, heap) ← query None heap;
  let required := first.1 in
  if negb (most required) then Some (None, heap)
  else
    '(second, heap) ← query (Some required) heap;
    Some (if second.1 =? required then Some (removelast (filled required (from_option id [] second.2))) else None, heap).
(** [String::from_utf8]. *)
Definition from_utf8 (bytes : list byte) : option text := if utf8_valid bytes then Some bytes else None.

(** [metrics_json] and [query_torrent_json] differ in the lengths they accept. *)
Definition metrics_length (required : Z) : bool := negb ((required <=? 1) || (4097 <? required)).
Definition torrent_length (required : Z) : bool :=
  negb ((required =? 0) || (4 * 1024 * 1024 + 1 <? required)).

Definition metrics_json : method text :=
  p ← current_handle;
  json ← ffi (read_json metrics_length (proxy_server_metrics_json p));
  bytes ← or_raise json GenericFailure "metrics unavailable";
  or_raise (from_utf8 bytes) GenericFailure "invalid metrics JSON".

Definition query_torrent_json (p torrent_id : Z) (query : Z -> Z -> c_buffer -> C (Z * option text)) :
    C (option text) := fun heap =>
  '(bytes, heap) ← read_json torrent_length (query p torrent_id) heap;
  Some (bytes ≫= from_utf8, heap).

(** ** Sources *)

Definition parse_source_id (value : text) : method Z :=
  or_raise (id ← parse_u64 value; if id =? 0 then None else Some id) InvalidArg "invalid P2P source ID".

Definition register_source (identity url : text) : method text :=
  identity ← or_raise (cstring_new identity) InvalidArg "invalid source identity";
  url ← or_raise (cstring_new url) InvalidArg "invalid source URL";
  p ← current_handle;
  id ← ffi (proxy_source_register p (Some identity) (Some url));
  if id =? 0 then raise InvalidArg "source registration failed" else mret (format_u64 id).

Definition refresh_source (source_id url : text) : method bool :=
  source_id ← parse_source_id source_id;
  url ← or_raise (cstring_new url) InvalidArg "invalid source URL";
  p ← current_handle;
  ffi (proxy_source_refresh p source_id (Some url)).

Definition remove_source (source_id : text) : method bool :=
  source_id ← parse_source_id source_id;
  p ← current_handle;
  ffi (proxy_source_remove p source_id).

(** A new box; it is kept exactly if the callback was installed. *)
Definition contexts : method (list (Z * HarmonyRefreshContext)) := fun s => Some (Ok (refresh_contexts s.1), s).
Definition push_context (box : Z * HarmonyRefreshContext) : method unit := fun s =>
  Some (Ok tt, (mk_MediaProxyCache (handle s.1) (refresh_contexts s.1 ++ [box]), s.2)).
Definition set_source_refresh_provider (provider : text -> option text) : method bool :=
  p ← current_handle;
  boxes ← contexts;
  let context := alloc_box (list_to_set (map fst boxes)) in
  let box := (context, mk_HarmonyRefreshContext provider) in
  installed ← ffi (proxy_source_set_refresh_callback p (Some (harmony_refresh_callback (box :: boxes))) context);
  if installed : bool then push_context box ;; mret true else mret false.

Definition register_p2p_directory (manifest_json piece_directory : text) : method text :=
  if bool_decide (trim manifest_json = []) || bool_decide (trim piece_directory = []) then
    raise InvalidArg "invalid P2P source"
  else
    piece_directory ← or_raise (cstring_new piece_directory) InvalidArg "invalid P2P piece directory";
    p ← current_handle;
    source_id ← ffi (proxy_p2p_source_register_directory p (Some manifest_json) (Some piece_directory));
    if source_id =? 0 then raise GenericFailure "P2P source registration failed"
    else mret (format_u64 source_id).

Definition verify_p2p_source (source_id : text) : method bool :=
  source_id ← parse_source_id source_id;
  p ← current_handle;
  ffi (proxy_p2p_source_verify_complete process_id p source_id).

Definition remove_p2p_source (source_id : text) : method bool :=
  source_id ← parse_source_id source_id;
  p ← current_handle;
  ffi (proxy_p2p_source_remove p source_id).

(** ** Torrents *)

Definition u8_from (b : bool) : Z := if b then 1 else 0.
Definition parse_torrent_id (value : text) : method Z :=
  or_raise (id ← parse_i64 value; if 0 <=? id then Some id else None) InvalidArg "invalid torrent ID".

Definition add_authorized_torrent (magnet_uri : text) : method text :=
  if negb (starts_with (str "magnet:?") magnet_uri) then raise InvalidArg "invalid Magnet URI"
  else
    magnet_uri ← or_raise (cstring_new magnet_uri) InvalidArg "invalid Magnet URI";
    p ← current_handle;
    torrent_id ← ffi (proxy_torrent_add_authorized p (Some magnet_uri) 1);
    if torrent_id <? 0 then raise GenericFailure "torrent registration failed"
    else mret (format_i64 torrent_id).

Definition add_authorized_torrent_file (torrent_bytes : list byte) : method text :=
  if bool_decide (torrent_bytes = []) || (4 * 1024 * 1024 <? Z.of_nat (length torrent_bytes)) then
    raise InvalidArg "invalid torrent metadata length"
  else
    p ← current_handle;
    torrent_id ← ffi (proxy_torrent_add_file_authorized p (Some torrent_bytes) 1);
    if torrent_id <? 0 then raise GenericFailure "torrent file registration failed"
    else mret (format_i64 torrent_id).

Definition remove_torrent (torrent_id : text) (delete_files : bool) : method bool :=
  torrent_id ← parse_torrent_id torrent_id;
  p ← current_handle;
  ffi (proxy_torrent_remove p torrent_id (u8_from delete_files)).

Definition torrent_json (torrent_id : text) (query : Z -> Z -> c_buffer -> C (Z * option text)) : method text :=
  torrent_id ← parse_torrent_id torrent_id;
  p ← current_handle;
  json ← ffi (query_torrent_json p torrent_id query);
  or_raise json GenericFailure "torrent metadata unavailable".
Definition torrent_files_json (torrent_id : text) : method text := torrent_json torrent_id proxy_torrent_files_json.
Definition torrent_status_json (torrent_id : text) : method text := torrent_json torrent_id proxy_torrent_status_json.

Definition select_torrent_files (torrent_id : text) (file_ids : list Z) : method bool :=
  torrent_id ← parse_torrent_id torrent_id;
  if bool_decide (file_ids = []) || (4096 <? Z.of_nat (length file_ids)) then
    raise InvalidArg "invalid file selection"
  else
    p ← current_handle;
    ffi (proxy_torrent_select_files p torrent_id (Some file_ids)).

Definition set_torrent_paused (torrent_id : text) (paused : bool) : method bool :=
  torrent_id ← parse_torrent_id torrent_id;
  p ← current_handle;
  ffi (proxy_torrent_set_paused p torrent_id (u8_from paused)).

Definition set_torrent_download_limit (bytes_per_second : Z) : method bool :=
  p ← current_handle;
  ffi (proxy_torrent_set_download_limit p bytes_per_second).
End Methods.
End MediaProxyCache.
