(* ===== verification/HarmonyClaims.v ===== *)
(** * The HarmonyOS bindings: claims

    Whatever the adapter does with an object, no method uses a handle that is
    gone, and the context of an installed callback stays where it is; a new
    object has the configuration it was asked for. *)

From Stdlib Require Import Strings.Byte Strings.String.
From S2P Require Import Prelude Bytes Error External FileSystem Digest DataRequest SourceRegistry P2pManifest P2p P2pClaims Bencode TorrentMeta Magnet RequestHandler Server Rqbit RqbitClaims Ffi FfiClaims Harmony.
Import MediaProxyCache.

(** ** The configuration *)

Lemma cstring_new_Some s t : cstring_new s = Some t <-> t = s /\ (x00 ∉ s).
Proof.
  unfold cstring_new. pose proof (contains_spec x00 s) as Hc. destruct (contains x00 s); split.
  - done.
  - intros [_ Hn]. by destruct Hn; apply Hc.
  - intros [= <-]. split; [done|]. intros Hx. by apply Hc in Hx.
  - by intros [-> _].
Qed.

Definition host_ok (host : text) : Prop := trim host <> [] /\ (x2c ∉ host) /\ (x00 ∉ trim host).

Lemma hosts_checked hosts :
  existsb (fun host => bool_decide (trim host = []) || contains x2c host) hosts = false
  <-> Forall (fun host => trim host <> [] /\ (x2c ∉ host)) hosts.
Proof.
  rewrite <- not_true_iff_false, existsb_exists, Forall_forall. split.
  - intros Hn host Hin. split.
    + intros E. apply Hn. exists host. split; [by apply list_elem_of_In|]. by rewrite bool_decide_eq_true_2.
    + intros E%contains_spec. apply Hn. exists host. split; [by apply list_elem_of_In|]. by rewrite E, orb_true_r.
  - intros Hall (host & Hin%list_elem_of_In & E%orb_true_iff). destruct (Hall host Hin) as [H1 H2].
    destruct E as [E%bool_decide_eq_true|E%contains_spec]; contradiction.
Qed.

Lemma hosts_nul hosts : x00 ∈ join [x2c] (map trim hosts) <-> exists host, host ∈ hosts /\ x00 ∈ trim host.
Proof.
  rewrite join_elem. split.
  - intros [(s & Hs & Hx)|[Hx _]]; [|by apply list_elem_of_singleton in Hx].
    apply list_elem_of_fmap in Hs as (host & -> & Hin). eauto.
  - intros (host & Hin & Hx). left. exists (trim host). split; [by apply list_elem_of_fmap_2|done].
Qed.

Lemma hosts_ok hosts :
  Forall host_ok hosts <->
  Forall (fun host => trim host <> [] /\ (x2c ∉ host)) hosts /\ (x00 ∉ join [x2c] (map trim hosts)).
Proof.
  rewrite hosts_nul, !Forall_forall. split.
  - intros H. split; [intros host Hin; destruct (H host Hin) as (? & ? & _); done|].
    intros (host & Hin & Hx). by apply (H host Hin).
  - intros [H1 H2] host Hin. destruct (H1 host Hin). split_and!; try done. intros Hx. apply H2. eauto.
Qed.

Lemma parse_configuration_Ok port dir hosts c :
  parse_configuration port dir hosts = Ok c <->
  port <= 65535 /\ trim dir <> [] /\ (x00 ∉ dir) /\ hosts <> [] /\ Forall host_ok hosts
  /\ c = mk_HarmonyConfiguration port dir (join [x2c] (map trim hosts)).
Proof.
  rewrite hosts_ok, <- hosts_checked. unfold parse_configuration.
  destruct (Z.ltb_spec 65535 port); [split; [done|lia]|].
  case_bool_decide as Hd; [split; [done|naive_solver]|].
  pose proof (cstring_new_Some dir) as Hdir. destruct (cstring_new dir) as [d|]; cbn; cycle 1.
  { split; [done|]. intros (_ & _ & Hx & _). by specialize (proj2 (Hdir dir) (conj eq_refl Hx)). }
  destruct (proj1 (Hdir d) eq_refl) as [-> Hx]. case_bool_decide as Hh; [split; [done|naive_solver]|].
  destruct (existsb _ hosts); cbn; [split; [done|naive_solver]|].
  pose proof (cstring_new_Some (join [x2c] (map trim hosts))) as Hj.
  destruct (cstring_new (join _ _)) as [j|]; cbn; cycle 1.
  { split; [done|]. intros (_ & _ & _ & _ & [_ Hz] & _). by specialize (proj2 (Hj _) (conj eq_refl Hz)). }
  destruct (proj1 (Hj j) eq_refl) as [-> Hz]. split; [by intros [= <-]|by intros (_ & _ & _ & _ & _ & ->)].
Qed.

(** What the C interface makes of the list of hosts. *)
Lemma split_hosts_join hosts :
  hosts <> [] -> Forall host_ok hosts -> split_hosts (join [x2c] (map trim hosts)) = map trim hosts.
Proof.
  intros Hne Hf. unfold split_hosts. rewrite split_of_join; cycle 1.
  - by destruct hosts.
  - apply Forall_map. eapply Forall_impl; [exact Hf|]. intros host (_ & Hc & _) Hin. by apply Hc, trim_elem.
  - rewrite map_map. rewrite (map_ext _ trim) by (intros; apply trim_idem). clear Hne.
    induction Hf as [|host hosts [H1 _] _ IH]; [done|]. cbn. rewrite bool_decide_eq_false_2 by done. cbn. by f_equal.
Qed.

Section Objects.
Context {UP : UrlParser} {UQ : UrlPairs} {SHA1 : Sha1} {SHA : Sha256} {MJ : ManifestJson}
  {ON : HashOrder Z RegisteredSource} {ONL : HashOrderLaws Z RegisteredSource}
  {OF : HashOrder path DiskCacheFile} {OD : DirOrder}
  {FJ : FfiJson} {AL : Allocator} {ALL : AllocatorLaws} {Se Tor Stm St X : Type} {LR : LibRqbit Se Tor Stm}
  {NS : NewServer St (Backend Se Tor) (HostEnv X)} {NSL : NewServerLaws (NS := NS)} (process_id : Z).
Abbreviation Heap := (gmap Z (ProxyServerHandle Se Tor St X)).
Abbreviation C A := (Heap -> option (A * Heap)).
Abbreviation method := (MediaProxyCache.method (Se := Se) (Tor := Tor) (St := St) (X := X)).
Implicit Types s : MediaProxyCache * Heap.
Implicit Types heap : Heap.

(** ** Reachable objects *)

(** The methods that need an open object. *)
Inductive needs_handle : forall A, method A -> Prop :=
| nh_start env late files : env_ok env -> needs_handle _ (start env late files)
| nh_metrics : needs_handle _ metrics_json
| nh_register identity url : needs_handle _ (register_source identity url)
| nh_refresh id url : needs_handle _ (refresh_source id url)
| nh_remove id : needs_handle _ (remove_source id)
| nh_provider f : needs_handle _ (set_source_refresh_provider f)
| nh_p2p json dir : needs_handle _ (register_p2p_directory json dir)
| nh_p2p_verify id : needs_handle _ (verify_p2p_source process_id id)
| nh_p2p_remove id : needs_handle _ (remove_p2p_source id)
| nh_torrent magnet : needs_handle _ (add_authorized_torrent magnet)
| nh_torrent_file bytes : needs_handle _ (add_authorized_torrent_file bytes)
| nh_torrent_remove id df : needs_handle _ (remove_torrent id df)
| nh_torrent_files id : needs_handle _ (torrent_files_json id)
| nh_torrent_status id : needs_handle _ (torrent_status_json id)
| nh_torrent_select id ids : needs_handle _ (select_torrent_files id ids)
| nh_torrent_paused id b : needs_handle _ (set_torrent_paused id b)
| nh_torrent_limit n : needs_handle _ (set_torrent_download_limit n).
Inductive api : forall A, method A -> Prop :=
| api_open A (m : method A) : needs_handle A m -> api A m
| api_stop : api _ stop
| api_close : api _ close
| api_drop : api _ close_for_drop.

(** An object is created, its methods are called, and meanwhile other handles
    change as they like and its own server works, which changes neither that the
    handle is live nor its callback. *)
Inductive object_reachable : MediaProxyCache * Heap -> Prop :=
| or_create env port dir hosts o heap heap' :
    ffi_reachable process_id heap -> create env port dir hosts heap = Some (Ok o, heap') ->
    object_reachable (o, heap')
| or_call A (m : method A) r s s' :
    object_reachable s -> api A m -> m s = Some (r, s') -> object_reachable s'
| or_others o heap heap' :
    object_reachable (o, heap) -> ffi_reachable process_id heap' ->
    (forall p, handle o = Some p -> fh_context <$> heap' !! p = fh_context <$> heap !! p) ->
    object_reachable (o, heap').

(** ** The invariant of an object *)

Definition context_alive (o : MediaProxyCache) (h : ProxyServerHandle Se Tor St X) : Prop :=
  forall context, fh_context h = Some context -> context ∈ map fst (refresh_contexts o).
Definition object_ok s : Prop :=
  ffi_reachable process_id s.2
  /\ forall p, handle s.1 = Some p -> exists h, s.2 !! p = Some h /\ context_alive s.1 h.

(** A method on an object: it is defined, it keeps the invariant, the contexts
    and the handle are kept. *)
Definition safe_at {A} (m : method A) s : Prop :=
  exists r s', m s = Some (r, s') /\ object_ok s' /\ handle s'.1 = handle s.1
    /\ refresh_contexts s.1 `prefix_of` refresh_contexts s'.1.
Definition safe {A} (m : method A) : Prop := forall s, object_ok s -> safe_at m s.

Lemma safe_ret {A} (a : A) : safe (mret a).
Proof. intros s Hs. by exists (Ok a), s. Qed.
Lemma safe_raise {A} status message : safe (raise (A := A) status message).
Proof. intros s Hs. by eexists _, s. Qed.
Lemma safe_or_raise {A} (o : option A) status message : safe (or_raise o status message).
Proof. destruct o; [apply safe_ret|apply safe_raise]. Qed.

Lemma safe_at_bind {A B} (m : method A) (k : A -> method B) s :
  safe_at m s -> (forall a s', object_ok s' -> handle s'.1 = handle s.1 -> safe_at (k a) s') -> safe_at (m ≫= k) s.
Proof.
  intros (r & s1 & E & Hs1 & Hh & Hc) Hk. unfold safe_at, mbind, MediaProxyCache.method_bind. rewrite E.
  destruct r as [a|e]; [|by eexists _, _].
  destruct (Hk a s1 Hs1 Hh) as (r & s2 & E2 & Hs2 & Hh2 & Hc2). exists r, s2. split_and!; try done.
  - congruence.
  - by trans (refresh_contexts s1.1).
Qed.

Lemma safe_bind {A B} (m : method A) (k : A -> method B) : safe m -> (forall a, safe (k a)) -> safe (m ≫= k).
Proof. intros Hm Hk s Hs. apply safe_at_bind; [by apply Hm|]. intros a s' Hs' _. by apply Hk. Qed.

(** With the handle in hand. *)
Definition with_pointer {A} (p : Z) (m : method A) : Prop :=
  forall s, object_ok s -> handle s.1 = Some p -> safe_at m s.

Lemma safe_handle {A} (k : Z -> method A) : (forall p, with_pointer p (k p)) -> safe (current_handle ≫= k).
Proof.
  intros Hk s Hs. unfold safe_at, mbind, MediaProxyCache.method_bind, current_handle, or_raise.
  destruct (handle s.1) as [p|] eqn:Eh; [|by eexists _, s]. cbn. rewrite <- Eh. by apply Hk.
Qed.

Lemma pointer_bind {A B} p (m : method A) (k : A -> method B) :
  with_pointer p m -> (forall a, safe (k a)) -> with_pointer p (m ≫= k).
Proof. intros Hm Hk s Hs Hp. apply safe_at_bind; [by apply Hm|]. intros a s' Hs' _. by apply Hk. Qed.

(** ** Functions of the C interface *)

Lemma object_insert o heap p h h' :
  object_ok (o, heap) -> handle o = Some p -> heap !! p = Some h ->
  ffi_reachable process_id (<[p := h']> heap) -> fh_context h' = fh_context h ->
  object_ok (o, <[p := h']> heap).
Proof.
  intros [_ Ho] Hp Hh Hr Hc. split; [done|]. intros q Hq. cbn in *. assert (q = p) as -> by congruence.
  exists h'. split; [by rewrite lookup_insert_eq|]. destruct (Ho p Hp) as (h0 & Eh & Ha). assert (h0 = h) as -> by congruence.
  intros c Ec. apply Ha. congruence.
Qed.

(** A function that works on the handle and leaves its callback alone. *)
Definition plain {A} (p : Z) (m : C A) : Prop :=
  forall o heap, object_ok (o, heap) -> handle o = Some p ->
    exists a heap', m heap = Some (a, heap') /\ object_ok (o, heap').

Lemma plain_call {A} c p (m : C A) : is_call process_id c p m -> call_ok c -> captures c = false -> plain p m.
Proof.
  intros Hm Hc Hcap o heap Hs Hp. pose proof Hs as [Hr Ho]. destruct (Ho p Hp) as (h & Hh & _). cbn in Hh, Hr.
  destruct (live_call process_id c p m heap h Hm Hc Hr Hh) as (a & h' & E & Hr' & Hx).
  exists a, (<[p := h']> heap). split; [done|]. eapply object_insert; eauto.
Qed.

Lemma plain_read_json p most (query : c_buffer -> C (Z * option text)) :
  (forall buffer, plain p (query buffer)) -> plain p (read_json most query).
Proof.
  intros Hq o heap Hs Hp. unfold read_json.
  destruct (Hq None o heap Hs Hp) as ((n & w) & heap1 & -> & Hs1). cbn.
  destruct (negb (most n)); [by eexists _, heap1|].
  destruct (Hq (Some n) o heap1 Hs1 Hp) as ((n2 & w2) & heap2 & -> & Hs2). cbn. by eexists _, heap2.
Qed.

Lemma plain_query_json p id query :
  (forall buffer, plain p (query p id buffer)) -> plain p (query_torrent_json p id query).
Proof.
  intros Hq o heap Hs Hp. unfold query_torrent_json.
  destruct (plain_read_json p torrent_length (query p id) Hq o heap Hs Hp) as (a & heap1 & -> & Hs1).
  by eexists _, heap1.
Qed.

Lemma pointer_ffi {A} p (m : C A) : plain p m -> with_pointer p (ffi m).
Proof.
  intros Hm [o heap] Hs Hp. destruct (Hm o heap Hs Hp) as (a & heap' & E & Hs'). unfold safe_at, ffi. cbn. rewrite E.
  by eexists _, _.
Qed.

(** ** Every method *)

Ltac plain_function :=
  lazymatch goal with
  | |- plain _ (query_torrent_json _ _ _) => apply plain_query_json; intros ?; plain_function
  | |- plain _ (read_json _ _) => apply plain_read_json; intros ?; plain_function
  | |- plain _ ?m => call_of m ltac:(fun c => apply (plain_call c); [reflexivity|by cbn|reflexivity])
  end.
Ltac safe_step :=
  lazymatch goal with
  | |- safe (mret _) => apply safe_ret
  | |- safe (raise _ _) => apply safe_raise
  | |- safe (or_raise _ _ _) => apply safe_or_raise
  | |- safe (current_handle ≫= _) => apply safe_handle; intros ?
  | |- safe (_ ≫= _) => apply safe_bind; [|intros ?]
  | |- safe (match ?x with _ => _ end) => destruct x
  | |- with_pointer _ (_ ≫= _) => apply pointer_bind; [|intros ?]
  | |- with_pointer _ (ffi _) => apply pointer_ffi; plain_function
  end.

(** The new context is kept exactly if the callback captures it. *)
Lemma set_provider_safe f : safe (set_source_refresh_provider f).
Proof.
  unfold set_source_refresh_provider. apply safe_handle. intros p [o heap] Hs Hp. pose proof Hs as [Hr Ho].
  destruct (Ho p Hp) as (h & Hh & Ha). cbn in Hh, Ha, Hr, Hp.
  unfold mbind, MediaProxyCache.method_bind, contexts, safe_at. cbn.
  set (x := alloc_box _). set (cb := harmony_refresh_callback _).
  destruct (live_call process_id (CallSetRefresh (Some cb) x) p (proxy_source_set_refresh_callback p (Some cb) x)
    heap h eq_refl I Hr Hh) as (a & h' & E & Hr' & _).
  destruct (ffi_reachable_ok process_id heap Hr p h Hh) as [Hnz _].
  destruct (live_set_refresh p cb x heap h a _ Hnz Hh E) as (h2 & E2 & Hc).
  apply (f_equal (lookup p)) in E2. rewrite !lookup_insert_eq in E2. injection E2 as <-.
  unfold ffi. cbn. rewrite E. cbn. destruct a; eexists _, _; (split; [reflexivity|]); cbn.
  - split_and!; [|done|by eexists]. split; [done|]. cbn. intros q Hq. assert (q = p) as -> by congruence.
    exists h'. split; [by rewrite lookup_insert_eq|]. intros c Ec. cbn. rewrite map_app, elem_of_app. right.
    rewrite Hc in Ec. injection Ec as <-. cbn. by left.
  - split_and!; [|done|done]. by eapply object_insert.
Qed.

Lemma needs_handle_safe A (m : method A) : needs_handle A m -> safe m.
Proof.
  destruct 1;
    unfold start, metrics_json, register_source, refresh_source, remove_source,
      register_p2p_directory, verify_p2p_source, remove_p2p_source, add_authorized_torrent,
      add_authorized_torrent_file, remove_torrent, torrent_files_json, torrent_status_json, torrent_json,
      select_torrent_files, set_torrent_paused, set_torrent_download_limit, parse_torrent_id, parse_source_id;
    repeat safe_step. apply set_provider_safe.
Qed.

Lemma stop_safe : safe stop.
Proof.
  intros s Hs. unfold stop, safe_at. destruct (handle s.1) as [p|] eqn:Eh; [|by eexists _, s].
  rewrite <- Eh. revert s Hs Eh. change (with_pointer p (ffi (proxy_server_stop p))). repeat safe_step.
Qed.

(** Closing takes the handle in any case; the contexts go after the handle. *)
Lemma close_run s :
  object_ok s ->
  exists r s', close s = Some (Ok r, s') /\ object_ok s' /\ handle s'.1 = None
    /\ match r with
       | Returns _ => refresh_contexts s'.1 = [] /\ forall p, handle s.1 = Some p -> s'.2 !! p = None
       | Blocks => refresh_contexts s'.1 = refresh_contexts s.1
       end.
Proof.
  intros [Hr Ho]. unfold close, mbind, MediaProxyCache.method_bind, take_handle, ffi. cbn.
  destruct (handle s.1) as [p|] eqn:Eh; cbn.
  - destruct (Ho p eq_refl) as (h & Hh & _).
    destruct (live_destroy process_id p s.2 h Hr Hh) as (r & heap' & -> & Hr' & _ & Hd). cbn.
    destruct r as [[]|]; eexists _, _; (split; [reflexivity|]); cbn; split_and!; try done.
    by intros q [= <-].
  - eexists _, _. split; [reflexivity|]. by split_and!.
Qed.

Lemma object_reachable_ok s : object_reachable s -> object_ok s.
Proof.
  induction 1 as [env port dir hosts o heap heap' Hr E|A m r s s' _ IH Hm E|o heap heap' _ [IH1 IH2] Hr Hsame].
  - unfold create in E. destruct (parse_configuration _ _ _) as [c|]; [|done].
    apply bind_Some in E as ([p heap1] & E1 & E). destruct (Z.eqb_spec p 0); [done|]. injection E as <- <-.
    unfold proxy_server_create_with_hosts in E1.
    destruct (read_string _) as [dir'|]; [|by injection E1 as <- _]. destruct (read_string _) as [hosts'|]; [|by injection E1 as <- _].
    split; [by eapply fr_create|]. cbn. intros q [= <-]. injection E1 as <- <-.
    eexists. by rewrite lookup_insert_eq.
  - assert (Hsafe : forall A (m : method A) r, safe m -> m s = Some (r, s') -> object_ok s').
    { intros A0 m0 r0 Hs E0. destruct (Hs s IH) as (? & ? & E1 & ? & _). by simplify_eq. }
    destruct Hm as [A m Hm| | |]; [by eapply (Hsafe _ m); [apply needs_handle_safe|]|by eapply (Hsafe _ stop); [apply stop_safe|]|..];
      destruct (close_run s IH) as (r' & s1 & E1 & Hs1 & _); unfold close_for_drop in *; by simplify_eq.
  - split; [done|]. intros p Hp. destruct (IH2 p Hp) as (h & Hh & Ha). specialize (Hsame p Hp). cbn in Hh, Hp.
    rewrite Hh in Hsame. cbn. destruct (heap' !! p) as [h'|]; [|done]. injection Hsame as Hc. exists h'. split; [done|].
    intros c Ec. apply Ha. congruence.
Qed.

(** ** Closed objects *)

Definition refuses {A} (m : method A) : Prop := forall s, handle s.1 = None -> exists e, m s = Some (Err e, s).

Lemma refuses_raise {A} status message : refuses (raise (A := A) status message).
Proof. intros s _. by eexists. Qed.
Lemma refuses_handle {A} (k : Z -> method A) : refuses (current_handle ≫= k).
Proof.
  intros s Hs. unfold mbind, MediaProxyCache.method_bind, current_handle, or_raise. rewrite Hs. by eexists.
Qed.
Lemma refuses_or_raise {A B} (o : option A) status message (k : A -> method B) :
  (forall a, refuses (k a)) -> refuses (or_raise o status message ≫= k).
Proof. intros Hk s Hs. destruct o as [a|]; [by apply Hk|by eexists]. Qed.

Lemma needs_handle_refuses A (m : method A) : needs_handle A m -> refuses m.
Proof.
  destruct 1;
    unfold start, metrics_json, register_source, refresh_source, remove_source, set_source_refresh_provider,
      register_p2p_directory, verify_p2p_source, remove_p2p_source, add_authorized_torrent,
      add_authorized_torrent_file, remove_torrent, torrent_files_json, torrent_status_json, torrent_json,
      select_torrent_files, set_torrent_paused, set_torrent_download_limit, parse_torrent_id, parse_source_id;
    repeat first [apply refuses_handle | apply refuses_raise | apply refuses_or_raise; intros ? | case_match].
Qed.
End Objects.


(** ** JSON in two calls *)

Section Json.
Context {UP : UrlParser} {UQ : UrlPairs} {SHA1 : Sha1} {SHA : Sha256} {MJ : ManifestJson}
  {ON : HashOrder Z RegisteredSource} {OF : HashOrder path DiskCacheFile} {OD : DirOrder}
  {FJ : FfiJson} {Se Tor Stm St X : Type} {LR : LibRqbit Se Tor Stm}.
Abbreviation Handle := (ProxyServerHandle Se Tor St X).
Abbreviation Heap := (gmap Z Handle).

Definition fits (json : text) : bool := Z.of_nat (length json) <? usize_max.

(** A function that writes what [f] finds on the handle. *)
Definition writes (p : Z) (f : Handle -> option text * Handle)
    (query : c_buffer -> Heap -> option ((Z * option text) * Heap)) : Prop :=
  forall buffer heap h, heap !! p = Some h ->
    query buffer heap =
    Some (match (f h).1 with Some json => write_ffi_json json buffer | None => (0, None) end, <[p := (f h).2]> heap).

(** What the two calls then give. *)
Definition asked_twice (most : Z -> bool) (f : Handle -> option text * Handle) (h : Handle) : option text * Handle :=
  match f h with
  | (Some j1, h1) =>
      if fits j1 && most (Z.of_nat (length j1) + 1) then
        (j2 ← (f h1).1; if (length j2 =? length j1)%nat then Some j2 else None, (f h1).2)
      else (None, h1)
  | (None, h1) => (None, h1)
  end.

Arguments asked_twice : simpl never.

Lemma write_unfit json buffer : fits json = false -> write_ffi_json json buffer = (0, None).
Proof. unfold fits, write_ffi_json. intros Hf%Z.ltb_ge. by rewrite (proj2 (Z.ltb_lt _ _)) by lia. Qed.
Lemma write_fit json buffer :
  fits json = true ->
  write_ffi_json json buffer =
  (Z.of_nat (length json) + 1,
   capacity ← buffer; if capacity <? Z.of_nat (length json) + 1 then None else Some (json ++ [x00])).
Proof.
  unfold fits, write_ffi_json. intros Hf%Z.ltb_lt. rewrite (proj2 (Z.ltb_ge _ _)) by lia.
  destruct buffer as [capacity|]; [|done]. cbn. by destruct (capacity <? _).
Qed.

Lemma read_json_run p f query most heap h :
  writes p f query -> heap !! p = Some h -> most 0 = false ->
  read_json most query heap = Some ((asked_twice most f h).1, <[p := (asked_twice most f h).2]> heap).
Proof.
  intros Hq Hh H0. unfold read_json, asked_twice. rewrite (Hq _ _ _ Hh). destruct (f h) as [[j1|] h1]; cbn.
  2: by rewrite H0.
  destruct (fits j1) eqn:Ef; [|rewrite write_unfit by done; cbn; by rewrite H0].
  rewrite write_fit by done. cbn. destruct (most (Z.of_nat (length j1) + 1)); cbn; [|reflexivity].
  rewrite (Hq _ _ h1) by apply lookup_insert_eq. cbn. rewrite insert_insert_eq. f_equal. f_equal.
  destruct (f h1).1 as [j2|]; cbn; cycle 1.
  { by destruct (Z.of_nat (length j1) + 1) eqn:?; [lia|..]. }
  destruct (Nat.eqb_spec (length j2) (length j1)) as [El|El].
  - rewrite write_fit by (unfold fits in *; by rewrite El). cbn. rewrite <- El, Z.eqb_refl, Z.ltb_irrefl. cbn.
    by rewrite filled_json.
  - destruct (fits j2) eqn:Ef2; 
      [|rewrite write_unfit by done; cbn; by destruct (Z.of_nat (length j1) + 1) eqn:?; [lia|..]].
    rewrite write_fit by done. cbn. by rewrite (proj2 (Z.eqb_neq _ _)) by lia.
Qed.

Lemma torrent_writes p id command :
  p <> 0 -> 0 <= id -> writes p (query_rqbit_json command) (fun buffer => Ffi.torrent_json p id command buffer).
Proof.
  intros Hp Hid buffer heap h Hh. unfold Ffi.torrent_json, on_handle.
  rewrite (proj2 (Z.eqb_neq p 0)), Hh, (proj2 (Z.ltb_ge id 0)) by done.
  by destruct (query_rqbit_json command h) as [[json|] h'].
Qed.

Definition metrics_of (h : Handle) : option text * Handle :=
  (match fh_server h with Some (rh, _) => Ffi.metrics_json (snapshot (rh_metrics rh)) | None => None end, h).
Lemma metrics_writes p : p <> 0 -> writes p metrics_of (proxy_server_metrics_json p).
Proof.
  intros Hp buffer heap h Hh. unfold proxy_server_metrics_json, on_handle, metrics_of.
  rewrite (proj2 (Z.eqb_neq p 0)), Hh by done. cbn. destruct (fh_server h) as [[rh l]|]; [|done].
  by destruct (Ffi.metrics_json _).
Qed.

Lemma query_size command (h : Handle) j h' :
  query_rqbit_json command h = (Some j, h') -> Z.of_nat (length j) <= MAX_RQBIT_JSON_BYTES.
Proof.
  unfold query_rqbit_json. destruct (send_command command h) as [r h1]. intros [= E _].
  destruct r as [[| |[json|]]|]; try done. destruct (Z.leb_spec (Z.of_nat (length json)) MAX_RQBIT_JSON_BYTES); [|done].
  by injection E as <-.
Qed.

Lemma asked_twice_torrent command (h : Handle) json :
  (asked_twice torrent_length (query_rqbit_json command) h).1 = Some json <->
  exists j1 h1 h2, query_rqbit_json command h = (Some j1, h1) /\ query_rqbit_json command h1 = (Some json, h2)
    /\ length json = length j1.
Proof.
  unfold asked_twice. destruct (query_rqbit_json command h) as [[j1|] h1] eqn:E1; [|naive_solver].
  pose proof (query_size _ _ _ _ E1) as Hsize. unfold MAX_RQBIT_JSON_BYTES in Hsize.
  assert (Hfit : fits j1 && torrent_length (Z.of_nat (length j1) + 1) = true).
  { unfold fits, torrent_length, usize_max. bool_to_prop; simpl; try done; lia. }
  rewrite Hfit. cbn. destruct (query_rqbit_json command h1) as [[j2|] h2] eqn:E2; cbn; cycle 1.
  { split; [done|]. intros (? & ? & ? & [= <- <-] & ? & _). congruence. }
  destruct (Nat.eqb_spec (length j2) (length j1)); split; try done.
  - intros [= <-]. by eexists j1, h1, h2.
  - intros (? & ? & ? & [= <- <-] & Eq & _). rewrite E2 in Eq. by injection Eq as ->.
  - intros (? & ? & ? & [= <- <-] & Eq & ?). rewrite E2 in Eq. by injection Eq as ->.
Qed.

Lemma asked_twice_metrics (h : Handle) json :
  (asked_twice metrics_length metrics_of h).1 = Some json <->
  (metrics_of h).1 = Some json /\ 0 < Z.of_nat (length json) <= 4096.
Proof.
  unfold asked_twice. destruct (metrics_of h) as [[j|] h1] eqn:E; [|naive_solver].
  assert (h1 = h) as -> by (by injection E as _ <-). rewrite E. cbn. rewrite Nat.eqb_refl.
  assert (Hm : fits j && metrics_length (Z.of_nat (length j) + 1) = true <-> 0 < Z.of_nat (length j) <= 4096).
  { unfold fits, metrics_length, usize_max. bool_to_prop; simpl; split; intros; try done; lia. }
  destruct (fits j && _); cbn; naive_solver.
Qed.

(** The methods, by what the two calls give. *)
Lemma torrent_method_run (o : MediaProxyCache) heap p (h : Handle) value id (files : bool) :
  handle o = Some p -> p <> 0 -> heap !! p = Some h -> parse_i64 value = Some id -> 0 <= id ->
  exists heap', (if files then torrent_files_json value else torrent_status_json value) (o, heap) =
    Some (ok_or ((asked_twice torrent_length (query_rqbit_json (if files then Files id else Status id)) h).1 ≫= from_utf8)
            (GenericFailure, str "torrent metadata unavailable"), (o, heap')).
Proof.
  intros Ho Hp Hh Hv Hid. destruct files; eexists; unfold torrent_files_json, torrent_status_json, MediaProxyCache.torrent_json,
      parse_torrent_id, current_handle, mbind, MediaProxyCache.method_bind, or_raise;
    rewrite Hv; cbn; rewrite (proj2 (Z.leb_le 0 id) Hid); cbn; rewrite Ho; cbn;
    unfold ffi, query_torrent_json; cbn;
    [rewrite (read_json_run p _ (proxy_torrent_files_json p id) torrent_length heap h
       (torrent_writes p id (Files id) Hp Hid) Hh eq_refl)
    |rewrite (read_json_run p _ (proxy_torrent_status_json p id) torrent_length heap h
       (torrent_writes p id (Status id) Hp Hid) Hh eq_refl)];
    cbn; unfold option_bind; match goal with |- context [asked_twice ?m ?f h] => destruct (asked_twice m f h).1 as [j|] end;
    cbn; try reflexivity; by destruct (from_utf8 j).
Qed.

Lemma metrics_method_run (o : MediaProxyCache) heap p (h : Handle) json :
  handle o = Some p -> p <> 0 -> heap !! p = Some h ->
  (exists s', MediaProxyCache.metrics_json (o, heap) = Some (Ok json, s')) <->
  (asked_twice metrics_length metrics_of h).1 = Some json /\ utf8_valid json = true.
Proof.
  intros Ho Hp Hh.
  unfold MediaProxyCache.metrics_json, current_handle, mbind, MediaProxyCache.method_bind, or_raise, ffi. cbn.
  rewrite Ho. cbn. rewrite (read_json_run p metrics_of _ metrics_length heap h (metrics_writes p Hp) Hh eq_refl). cbn.
  destruct (asked_twice _ _ h) as [[j|] h']; cbn; [|naive_solver].
  unfold from_utf8. destruct (utf8_valid j) eqn:E; cbn.
  - split; [intros [s' [= <- _]]; done|]. intros [[= <-] _]. by eexists.
  - split; [by intros [? ?]|]. intros [[= <-] ?]. congruence.
Qed.
End Json.

Module HarmonyClaims.
Section Claims.
Context {UP : UrlParser} {UQ : UrlPairs} {SHA1 : Sha1} {SHA : Sha256} {MJ : ManifestJson}
  {ON : HashOrder Z RegisteredSource} {ONL : HashOrderLaws Z RegisteredSource}
  {OF : HashOrder path DiskCacheFile} {OD : DirOrder}
  {FJ : FfiJson} {AL : Allocator} {ALL : AllocatorLaws} {Se Tor Stm St X : Type} {LR : LibRqbit Se Tor Stm}
  {NS : NewServer St (Backend Se Tor) (HostEnv X)} {NSL : NewServerLaws (NS := NS)} (process_id : Z).
Abbreviation Heap := (gmap Z (ProxyServerHandle Se Tor St X)).
Abbreviation method := (MediaProxyCache.method (Se := Se) (Tor := Tor) (St := St) (X := X)).

(** C15: an object of the HarmonyOS adapter never uses a handle that is gone,
    whatever is called on it in whatever order: every method is defined.  While
    the object has a handle, the handle is live and the context its refresh
    callback has captured is one the object keeps; contexts are only added
    until the object is closed.  Closing takes the handle even if it does not
    return, and drops the contexts only after the handle is freed; from then on
    the methods that need a handle fail and change nothing. *)
Theorem object_safe (s : MediaProxyCache * Heap) A (m : method A) :
  object_reachable process_id s -> api process_id A m ->
  is_Some (m s)
  /\ (forall p, handle s.1 = Some p -> exists h, s.2 !! p = Some h /\ context_alive s.1 h)
  /\ (forall r s', m s = Some (r, s') ->
        (forall p, handle s'.1 = Some p ->
           handle s.1 = Some p /\ refresh_contexts s.1 `prefix_of` refresh_contexts s'.1)
        /\ (handle s.1 = None -> needs_handle process_id A m -> is_ok r = false /\ s' = s))
  /\ exists r s', close s = Some (Ok r, s') /\ handle s'.1 = None
       /\ match r with
          | Returns _ => refresh_contexts s'.1 = [] /\ forall p, handle s.1 = Some p -> s'.2 !! p = None
          | Blocks => refresh_contexts s'.1 = refresh_contexts s.1
          end.
Proof.
  intros Hr Hm. apply object_reachable_ok in Hr. pose proof (close_run process_id s Hr) as Hclose.
  assert (Hrun : exists r s', m s = Some (r, s') /\ forall p, handle s'.1 = Some p ->
    handle s.1 = Some p /\ refresh_contexts s.1 `prefix_of` refresh_contexts s'.1).
  { assert (Hsafe : forall B (m0 : method B), safe process_id m0 -> exists r s', m0 s = Some (r, s')
      /\ forall p, handle s'.1 = Some p -> handle s.1 = Some p /\ refresh_contexts s.1 `prefix_of` refresh_contexts s'.1).
    { intros B m0 Hs. destruct (Hs s Hr) as (r & s' & E & _ & Hh & Hc). exists r, s'. split; [done|]. by rewrite Hh. }
    destruct Hm as [B m0 Hm| | |]; [by eapply Hsafe, needs_handle_safe|by eapply Hsafe, stop_safe|..];
      destruct Hclose as (r & s' & E & _ & Hh & _); exists (Ok r), s'; (split; [exact E|]); by rewrite Hh. }
  destruct Hrun as (r & s' & E & Hk). split_and!; [by rewrite E|apply Hr| |].
  - intros r0 s0 E0. rewrite E in E0. injection E0 as <- <-. split; [done|]. intros Hn Hneeds.
    destruct (needs_handle_refuses process_id A m Hneeds s Hn) as [e Ee]. by simplify_eq.
  - destruct Hclose as (r1 & s1 & E1 & _ & Hh & Hx). by exists r1, s1.
Qed.

(** C23: creating an object succeeds exactly for a 16-bit port, a cache directory
    and at least one host, neither blank nor with a zero in it, and no host with
    a comma; and then the server is configured with the port, the directory and
    exactly the trimmed hosts, although they pass through one text that is
    joined and split at commas. *)
Theorem create_correct (env : CreateEnv X) (port : Z) (dir : text) (hosts : list text) (heap : Heap) :
  utf8_valid dir = true -> Forall (fun host => utf8_valid host = true) hosts ->
  let accepted := port <= 65535 /\ trim dir <> [] /\ (x00 ∉ dir) /\ hosts <> [] /\ Forall host_ok hosts in
  (accepted ->
   exists p h, create env port dir hosts heap = Some (Ok (mk_MediaProxyCache (Some p) []), <[p := h]> heap)
     /\ p <> 0 /\ heap !! p = None /\ fh_config h = Some (config_for port (path_of dir) (map trim hosts))
     /\ fh_thread h = false /\ fh_server h = None)
  /\ (~ accepted -> exists message, create env port dir hosts heap = Some (Err (InvalidArg, message), heap)).
Proof.
  intros Hd Hh accepted. unfold create. split.
  - intros (H1 & H2 & H3 & H4 & H5). rewrite (proj2 (parse_configuration_Ok port dir hosts _)) by (split_and!; done).
    unfold proxy_server_create_with_hosts, read_string. cbn [hc_port hc_cache_directory hc_allowed_hosts mbind option_bind]. rewrite Hd.
    rewrite (proj2 (utf8_valid_iff _)); cycle 1.
    { apply utf8_join; [by apply utf8_valid_iff|]. apply Forall_map. eapply Forall_impl; [exact Hh|].
      intros host Hu. by apply utf8_trim, utf8_valid_iff. }
    unfold create_handle. cbn. rewrite split_hosts_join by done.
    destruct (alloc_fresh (dom heap)) as [Hnz Hf]. rewrite (proj2 (Z.eqb_neq _ _) Hnz).
    eexists _, _. split; [reflexivity|]. split_and!; try done. by apply not_elem_of_dom.
  - intros Hn. destruct (parse_configuration port dir hosts) as [c|e] eqn:E; [|by exists e].
    apply parse_configuration_Ok in E as (? & ? & ? & ? & ? & _). by destruct Hn.
Qed.

(** JSON crosses the interface whole or not at all.  The metrics a method
    returns are exactly what the server has, if this is at most 4096 bytes; and
    the description of a torrent is exactly what the second query has given,
    which is returned only when it is as long as the first one, and is of at
    most 4 MiB. *)
Theorem json_exact (o : MediaProxyCache) (heap : Heap) (p : Z) (h : ProxyServerHandle Se Tor St X)
    (value : text) (id : Z) (files : bool) (json : text) :
  handle o = Some p -> p <> 0 -> heap !! p = Some h -> parse_i64 value = Some id -> 0 <= id ->
  let torrent := if files then torrent_files_json value else torrent_status_json value in
  let command := if files then Files id else Status id in
  ((exists s', torrent (o, heap) = Some (Ok json, s')) <->
   exists j1 h1 h2, query_rqbit_json command h = (Some j1, h1) /\ query_rqbit_json command h1 = (Some json, h2)
     /\ length json = length j1 /\ utf8_valid json = true)
  /\ ((exists s', MediaProxyCache.metrics_json (o, heap) = Some (Ok json, s')) <->
      exists rh l, fh_server h = Some (rh, l) /\ Ffi.metrics_json (snapshot (rh_metrics rh)) = Some json
        /\ 0 < Z.of_nat (length json) <= 4096 /\ utf8_valid json = true).
Proof.
  intros Ho Hp Hh Hv Hid torrent command. split.
  - destruct (torrent_method_run o heap p h value id files Ho Hp Hh Hv Hid) as [heap' E]. fold command torrent in E. rewrite E.
    pose proof (asked_twice_torrent command h) as Ha. destruct (asked_twice _ _ h).1 as [j|]; cbn; cycle 1.
    { split; [by intros [? ?]|]. intros (j1 & h1 & h2 & ? & ? & ? & _). 
      assert (None = Some json) by (apply Ha; eauto 8). done. }
    unfold from_utf8. destruct (utf8_valid j) eqn:Eu; cbn; split.
    + intros [s' [= <- _]]. destruct (proj1 (Ha j) eq_refl) as (j1 & h1 & h2 & ? & ? & ?). by exists j1, h1, h2.
    + intros (j1 & h1 & h2 & ? & ? & ? & _). assert (Some j = Some json) as [= <-] by (apply Ha; eauto 8). by eexists.
    + by intros [? ?].
    + intros (j1 & h1 & h2 & ? & ? & ? & ?). assert (Some j = Some json) as [= <-] by (apply Ha; eauto 8). congruence.
  - rewrite (metrics_method_run o heap p h json Ho Hp Hh), asked_twice_metrics. unfold metrics_of. cbn.
    destruct (fh_server h) as [[rh l]|]; naive_solver.
Qed.
End Claims.
End HarmonyClaims.

(** An object that is created, started and used. *)
Module HarmonyDemo.
Import FfiDemo.
Definition hosts : list text := [str " example.com "; str "cdn.example.com"].
Definition made : napi MediaProxyCache * Heap :=
  from_option id (Err (GenericFailure, []), ∅) (create env 8080 (str "/cache") hosts ∅).
Definition object : MediaProxyCache := mk_MediaProxyCache (Some 1) [].
Lemma object_reach : object_reachable 7 (object, made.2).
Proof. eapply (or_create 7 env 8080 (str "/cache") hosts object ∅); [constructor|]. vm_compute. reflexivity. Qed.
Definition serving : Heap := from_option (fun x => x.2.2) ∅ (start sys [] RqbitDemo.fs0 (object, made.2)).
Lemma serving_reach : object_reachable 7 (object, serving).
Proof.
  eapply (or_call 7 _ (start sys [] RqbitDemo.fs0) _ _ _ object_reach); [apply api_open, nh_start, sys_ok|].
  vm_compute. reflexivity.
Qed.

Lemma object_safe_witness :
  is_Some (set_source_refresh_provider (fun _ => None) (object, serving))
  /\ exists r s', close (object, serving) = Some (Ok r, s') /\ MediaProxyCache.handle s'.1 = None.
Proof.
  destruct (HarmonyClaims.object_safe 7 (object, serving) bool (set_source_refresh_provider (fun _ => None))
    serving_reach (api_open _ _ _ (nh_provider 7 _))) as (H1 & _ & _ & r & s' & H2 & H3 & _).
  split; [exact H1|]. exists r, s'. split; [exact H2|exact H3].
Defined.

Lemma create_correct_witness :
  exists p (h : ProxyServerHandle (Z * bool) Z unit nat), create env 8080 (str "/cache") hosts ∅ = Some (Ok (mk_MediaProxyCache (Some p) []), <[p := h]> ∅)
    /\ cfg_allowed_hosts <$> fh_config h = Some [str "example.com"; str "cdn.example.com"].
Proof.
  destruct (HarmonyClaims.create_correct env 8080 (str "/cache") hosts (∅ : Heap)) as [H _];
    [reflexivity|by repeat constructor|].
  destruct H as (p & h & E & _ & _ & Hc & _).
  - split_and!; [lia|by vm_compute|by apply (bool_decide_unpack _)|done|].
    repeat (constructor; [split_and!; [by vm_compute|by apply (bool_decide_unpack _)|by apply (bool_decide_unpack _)]|]).
    constructor.
  - exists p, h. split; [exact E|]. rewrite Hc. vm_compute. reflexivity.
Defined.

Lemma json_exact_witness : exists s', MediaProxyCache.metrics_json (object, serving) = Some (Ok (str "{}"), s').
Proof.
  destruct (HarmonyClaims.json_exact object serving 1 _ (str "1") 1 true (str "{}") eq_refl ltac:(lia)
    eq_refl eq_refl ltac:(lia)) as [_ H].
  apply H. eexists _, _. split; [reflexivity|]. by vm_compute.
Defined.
End HarmonyDemo.
