(* ===== verification/Android.v ===== *)
(** * The Android bindings ([android_jni.rs])

    Java code holds tokens.  A table under a mutex maps tokens to handles of the
    C interface, and every native method but three works under this mutex from
    start to end, so it is one step.  Creating and destroying a handle, and
    installing a refresh provider, take several steps with the mutex released in
    between; they are put together here from these steps, and [native_step]
    interleaves them.

    An argument that is a Java string is [None] when it cannot be converted; a
    method then throws.  A use of a handle that is not live is [None]. *)

From Stdlib Require Import Strings.Byte Strings.String.
From S2P Require Import Prelude Bytes Error External FileSystem Digest DataRequest SourceRegistry P2pManifest P2p Bencode TorrentMeta Magnet RequestHandler Server Rqbit Ffi FfiClaims Harmony.

(** ** Refresh contexts *)

(** The object of the adapter, by what [refreshSource] gives: nothing when it
    throws, and when it returns null or no string. *)
Record AndroidRefreshContext : Type := mk_AndroidRefreshContext { ax_provider : Z -> option text }.

(** [source_id as jlong]. *)
Definition as_jlong (n : Z) : Z := if n <? 2 ^ 63 then n else n - 2 ^ 64.

Definition android_refresh_callback (boxes : list (Z * AndroidRefreshContext)) :
    ProxySourceRefreshCallback := fun context source_id capacity =>
  match list_find (fun b => b.1 = context) boxes with
  | None => (0, [])
  | Some (_, (_, ctx)) =>
      match ax_provider ctx (as_jlong source_id) with
      | None => (0, [])
      | Some value =>
          let n := Z.of_nat (length value) in
          if bool_decide (value = []) || (capacity <? n) then (n, []) else (n, value)
      end
  end.

(** ** The tables *)

Record Jni : Type := mk_Jni {
  j_next : Z;                                                (* NEXT_HANDLE *)
  j_handles : gmap Z Z;                                      (* HANDLES *)
  j_contexts : gmap Z (list (Z * AndroidRefreshContext));    (* REFRESH_CONTEXTS *)
}.
Definition jni_init : Jni := mk_Jni 1 ∅ ∅.

(** [register_handle]: a token, then the entry. *)
Definition fetch_token (j : Jni) : option (Z * Jni) :=
  if (j_next j + 1 <=? i64_max) && (0 <? j_next j + 1)
  then Some (j_next j, mk_Jni (j_next j + 1) (j_handles j) (j_contexts j)) else None.
Definition insert_handle (token p : Z) (j : Jni) : Jni :=
  mk_Jni (j_next j) (<[token := p]> (j_handles j)) (j_contexts j).
Definition register_handle (p : Z) (j : Jni) : option Z * Jni :=
  match fetch_token j with
  | Some (token, j) => (Some token, insert_handle token p j)
  | None => (None, j)
  end.

Definition remove_handle (token : Z) (j : Jni) : option Z * Jni :=
  (j_handles j !! token, mk_Jni (j_next j) (delete token (j_handles j)) (j_contexts j)).

Definition keep_context (token : Z) (box : Z * AndroidRefreshContext) (j : Jni) : Jni :=
  mk_Jni (j_next j) (j_handles j) (<[token := from_option id [] (j_contexts j !! token) ++ [box]]> (j_contexts j)).
Definition drop_contexts (token : Z) (j : Jni) : Jni :=
  mk_Jni (j_next j) (j_handles j) (delete token (j_contexts j)).

(** ** Native methods *)

Inductive jreturn (A : Type) : Type := Gives (a : A) | Throws.
Arguments Gives {A}.
Arguments Throws {A}.
Definition JString : Type := option text.
(** Whether the VM can make a string. *)
Class Jvm : Type := new_string : text -> bool.

Section Native.
Context {UP : UrlParser} {UQ : UrlPairs} {SHA1 : Sha1} {SHA : Sha256} {MJ : ManifestJson}
  {ON : HashOrder Z RegisteredSource} {OF : HashOrder path DiskCacheFile} {OD : DirOrder}
  {FJ : FfiJson} {AL : Allocator} {Se Tor Stm St X : Type} {LR : LibRqbit Se Tor Stm}
  {NS : NewServer St (Backend Se Tor) (HostEnv X)} {JV : Jvm} (process_id : Z).
Abbreviation Heap := (gmap Z (ProxyServerHandle Se Tor St X)).
Abbreviation C A := (Heap -> option (A * Heap)).

Definition J (A : Type) : Type := Jni * Heap -> option (jreturn A * (Jni * Heap)).
#[export] Instance J_ret : MRet J := fun _ a s => Some (Gives a, s).
#[export] Instance J_bind : MBind J := fun _ _ k m s =>
  match m s with
  | Some (Gives a, s) => k a s
  | Some (Throws, s) => Some (Throws, s)
  | None => None
  end.
(** [value.try_to_string(env)?] and the like. *)
Definition or_throw {A} (o : option A) : J A := match o with Some a => mret a | None => fun s => Some (Throws, s) end.
Definition tables {A} (f : Jni -> A * Jni) : J A := fun s =>
  let '(a, j) := f s.1 in Some (Gives a, (j, s.2)).
Definition native {A} (m : C A) : J A := fun s =>
  (fun x => (Gives x.1, (s.1, x.2))) <$> m s.2.

Definition with_handle {A} (token : Z) (operation : Z -> C A) : J (option A) := fun s =>
  match j_handles s.1 !! token with
  | Some p => (native (operation p) ≫= fun a => mret (Some a)) s
  | None => Some (Gives None, s)
  end.
Definition unwrap_or {A} (default_ : A) (m : J (option A)) : J A := o ← m; mret (from_option id default_ o).

(** [jlong::try_from(id)], for an unsigned [id]; [u64::try_from] and
    [u32::try_from], for a signed one. *)
Definition to_jlong (n : Z) : option Z := if n <=? i64_max then Some n else None.
Definition to_u64 (n : Z) : option Z := if 0 <=? n then Some n else None.
Definition to_u32 (n : Z) : option Z := if (0 <=? n) && (n <? 2 ^ 32) then Some n else None.

(** *** Creating, starting, stopping *)

Definition nativeCreate (env : CreateEnv X) (port : Z) (cache_directory allowed_hosts : JString) : J (outcome Z) :=
  cache_directory ← or_throw cache_directory;
  allowed_hosts ← or_throw allowed_hosts;
  match cstring_new cache_directory, cstring_new allowed_hosts with
  | Some cache_directory, Some allowed_hosts =>
      if (0 <=? port) && (port <=? 65535) then
        p ← native (proxy_server_create_with_hosts env port (Some cache_directory) (Some allowed_hosts));
        if p =? 0 then mret (Returns 0)
        else
          token ← tables (register_handle p);
          match token with
          | Some token => mret (Returns token)
          | None =>
              r ← native (proxy_server_destroy p);
              mret (match r with Returns _ => Returns 0 | Blocks => Blocks end)
          end
      else mret (Returns 0)
  | _, _ => mret (Returns 0)
  end.

Definition nativeStart (env : StartEnv) (late : list bool) (files : fs) (token : Z) : J (outcome Z) :=
  unwrap_or (Returns 0) (with_handle token (proxy_server_start env late files)).

Definition nativeStop (token : Z) : J unit := unwrap_or tt (with_handle token proxy_server_stop).

Definition nativeDestroy (token : Z) : J (outcome unit) :=
  p ← tables (remove_handle token);
  r ← match p with
      | Some p => native (proxy_server_destroy p)
      | None => mret (Returns tt)
      end;
  match r with
  | Returns _ => tables (fun j => (Returns tt, drop_contexts token j))
  | Blocks => mret Blocks
  end.

(** *** JSON *)

Definition to_jstring (json : option text) : J (option text) :=
  match json with
  | Some json => if new_string json then mret (Some json) else or_throw None
  | None => mret None
  end.
Definition flatten {A} (o : option (option A)) : option A := o ≫= id.

Definition nativeMetricsJson (token : Z) : J (option text) :=
  json ← with_handle token (fun p heap =>
    '(bytes, heap) ← MediaProxyCache.read_json MediaProxyCache.metrics_length (proxy_server_metrics_json p) heap;
    Some (bytes ≫= MediaProxyCache.from_utf8, heap));
  to_jstring (flatten json).

(** [read_torrent_json] is [query_torrent_json] of the other bindings. *)
Definition read_torrent_json (p torrent_id : Z) (query : Z -> Z -> c_buffer -> C (Z * option text)) :
    C (option text) := fun heap =>
  '(bytes, heap) ← MediaProxyCache.read_json MediaProxyCache.torrent_length (query p torrent_id) heap;
  Some (bytes ≫= MediaProxyCache.from_utf8, heap).
Definition torrent_json_to_jstring (token torrent_id : Z) (query : Z -> Z -> c_buffer -> C (Z * option text)) :
    J (option text) :=
  json ← with_handle token (fun p => read_torrent_json p torrent_id query);
  to_jstring (flatten json).
Definition nativeTorrentFilesJson (token torrent_id : Z) : J (option text) :=
  torrent_json_to_jstring token torrent_id proxy_torrent_files_json.
Definition nativeTorrentStatusJson (token torrent_id : Z) : J (option text) :=
  torrent_json_to_jstring token torrent_id proxy_torrent_status_json.

(** *** Sources *)

Definition nativeRegisterP2PDirectory (token : Z) (manifest_json piece_directory : JString) : J Z :=
  manifest_json ← or_throw manifest_json;
  piece_directory ← or_throw piece_directory;
  match cstring_new piece_directory with
  | None => mret 0
  | Some piece_directory =>
      source_id ← with_handle token (fun p =>
             proxy_p2p_source_register_directory p (Some manifest_json) (Some piece_directory));
      mret (from_option id 0 (source_id ≫= to_jlong))
  end.
Definition nativeVerifyP2PSource (token source_id : Z) : J bool :=
  match to_u64 source_id with
  | Some id => unwrap_or false (with_handle token (fun p => proxy_p2p_source_verify_complete process_id p id))
  | None => mret false
  end.
Definition nativeRemoveP2PSource (token source_id : Z) : J bool :=
  match to_u64 source_id with
  | Some id => unwrap_or false (with_handle token (fun p => proxy_p2p_source_remove p id))
  | None => mret false
  end.

Definition nativeRegisterSource (token : Z) (identity url : JString) : J Z :=
  identity ← or_throw identity;
  url ← or_throw url;
  match cstring_new identity, cstring_new url with
  | Some identity, Some url =>
      source_id ← with_handle token (fun p => proxy_source_register p (Some identity) (Some url));
      mret (from_option id 0 (source_id ≫= to_jlong))
  | _, _ => mret 0
  end.
Definition nativeRefreshSource (token source_id : Z) (url : JString) : J bool :=
  url ← or_throw url;
  match cstring_new url, to_u64 source_id with
  | Some url, Some id => unwrap_or false (with_handle token (fun p => proxy_source_refresh p id (Some url)))
  | _, _ => mret false
  end.
Definition nativeRemoveSource (token source_id : Z) : J bool :=
  match to_u64 source_id with
  | Some id => unwrap_or false (with_handle token (fun p => proxy_source_remove p id))
  | None => mret false
  end.

(** [context] is where the box is. *)
Definition install_context (token context : Z) (boxes : list (Z * AndroidRefreshContext)) : J bool :=
  unwrap_or false (with_handle token (fun p =>
    proxy_source_set_refresh_callback p (Some (android_refresh_callback boxes)) context)).
Definition nativeSetSourceRefreshProvider (token context : Z) (provider : option AndroidRefreshContext) : J bool :=
  provider ← or_throw provider;
  installed ← install_context token context [(context, provider)];
  if installed : bool then tables (fun j => (true, keep_context token (context, provider) j)) else mret false.

(** *** Torrents *)

Definition nativeAddAuthorizedTorrent (token : Z) (magnet_uri : JString) : J Z :=
  magnet_uri ← or_throw magnet_uri;
  match cstring_new magnet_uri with
  | None => mret (-1)
  | Some magnet_uri => unwrap_or (-1) (with_handle token (fun p => proxy_torrent_add_authorized p (Some magnet_uri) 1))
  end.
Definition nativeAddAuthorizedTorrentFile (token : Z) (torrent_bytes : option (list byte)) : J Z :=
  bytes ← or_throw torrent_bytes;
  if bool_decide (bytes = []) || (4 * 1024 * 1024 <? Z.of_nat (length bytes)) then mret (-1)
  else unwrap_or (-1) (with_handle token (fun p => proxy_torrent_add_file_authorized p (Some bytes) 1)).
Definition nativeRemoveTorrent (token torrent_id : Z) (delete_files : bool) : J bool :=
  unwrap_or false (with_handle token (fun p =>
    proxy_torrent_remove p torrent_id (MediaProxyCache.u8_from delete_files))).
Definition nativeSetTorrentPaused (token torrent_id : Z) (paused : bool) : J bool :=
  unwrap_or false (with_handle token (fun p =>
    proxy_torrent_set_paused p torrent_id (MediaProxyCache.u8_from paused))).
(** The numbers of the files that are not negative. *)
Definition nativeSelectTorrentFiles (token torrent_id : Z) (file_ids : option (list Z)) : J bool :=
  ids ← or_throw file_ids;
  unwrap_or false (with_handle token (fun p => proxy_torrent_select_files p torrent_id (Some (omap to_u32 ids)))).
Definition nativeSetTorrentDownloadLimit (token bytes_per_second : Z) : J bool :=
  match to_u32 bytes_per_second with
  | Some limit => unwrap_or false (with_handle token (fun p => proxy_torrent_set_download_limit p limit))
  | None => mret false
  end.
End Native.
