(* ===== verification/AndroidClaims.v ===== *)
(** * The Android bindings: interleaving and claims

    The step relation of the native methods with its invariants, the theorems
    on tokens, handles and contexts, and at the end what a host delivers through
    its callbacks and directories. *)

From Stdlib Require Import Strings.Byte Strings.String.
From S2P Require Import Prelude Bytes Error External DataRequest SourceRegistry FileSystem Digest P2pManifest P2pManifestTheorems P2p P2pClaims RequestHandler Server Bencode TorrentMeta Magnet Rqbit RqbitClaims Ffi FfiClaims Harmony HarmonyClaims Android.

(** * The Android bindings: interleaved calls

    The native methods that take several steps as calls that are under way,
    interleaved with the ones that are one step and with what the servers do.
    With [serial] the calls on one token follow each other and tokens come from
    [nativeCreate], which the lock of the adapter's object sees to; without it
    nothing is assumed of the Java side. *)
Inductive pending : Type :=
| Registering (p : Z)                                  (* [nativeCreate] has a handle *)
| Numbered (token p : Z)                               (* and a token *)
| Refused (p : Z)                                      (* or has got none *)
| Destroying (token p : Z)                             (* [nativeDestroy] has taken the handle *)
| Forgetting (token : Z)                               (* and freed it, or found none *)
| Keeping (token : Z) (box : Z * AndroidRefreshContext). (* the provider is installed *)

Definition pointer_of (c : pending) : option Z :=
  match c with
  | Registering p | Numbered _ p | Refused p | Destroying _ p => Some p
  | _ => None
  end.
Definition token_of (c : pending) : option Z :=
  match c with
  | Numbered token _ | Destroying token _ | Forgetting token | Keeping token _ => Some token
  | _ => None
  end.

Section Steps.
Context {UP : UrlParser} {UQ : UrlPairs} {SHA1 : Sha1} {SHA : Sha256} {MJ : ManifestJson}
  {ON : HashOrder Z RegisteredSource} {ONL : HashOrderLaws Z RegisteredSource}
  {OF : HashOrder path DiskCacheFile} {OD : DirOrder}
  {FJ : FfiJson} {AL : Allocator} {ALL : AllocatorLaws} {Se Tor Stm St X : Type} {LR : LibRqbit Se Tor Stm}
  {NS : NewServer St (Backend Se Tor) (HostEnv X)} {NSL : NewServerLaws (NS := NS)} (process_id : Z) (serial : bool).
Abbreviation Handle := (ProxyServerHandle Se Tor St X).
Abbreviation Heap := (gmap Z Handle).

Record JState : Type := mk_JState { s_calls : gmap nat pending; s_jni : Jni; s_heap : Heap }.
Implicit Types s : JState.

(** A token the Java side may use now. *)
Definition usable (token : Z) s : Prop :=
  0 < token < j_next (s_jni s)
  /\ forall t c, s_calls s !! t = Some c -> token_of c <> Some token.

(** The boxes that are alive. *)
Definition box_alive (context : Z) s : Prop :=
  (exists token boxes, j_contexts (s_jni s) !! token = Some boxes /\ context ∈ map fst boxes)
  \/ exists t token provider, s_calls s !! t = Some (Keeping token (context, provider)).

Inductive native_step : JState -> JState -> Prop :=
| ns_create t env port dir hosts calls j heap p heap' :
    calls !! t = None ->
    proxy_server_create_with_hosts env port (Some dir) (Some hosts) heap = Some (p, heap') -> p <> 0 ->
    native_step (mk_JState calls j heap) (mk_JState (<[t := Registering p]> calls) j heap')
| ns_number t p token calls j j' heap :
    calls !! t = Some (Registering p) -> fetch_token j = Some (token, j') ->
    native_step (mk_JState calls j heap) (mk_JState (<[t := Numbered token p]> calls) j' heap)
| ns_no_number t p calls j heap :
    calls !! t = Some (Registering p) -> fetch_token j = None ->
    native_step (mk_JState calls j heap) (mk_JState (<[t := Refused p]> calls) j heap)
| ns_insert t token p calls j heap :
    calls !! t = Some (Numbered token p) ->
    native_step (mk_JState calls j heap) (mk_JState (delete t calls) (insert_handle token p j) heap)
| ns_refused t p r calls j heap heap' :
    calls !! t = Some (Refused p) -> proxy_server_destroy p heap = Some (r, heap') ->
    native_step (mk_JState calls j heap)
      (mk_JState (match r with Returns _ => delete t calls | Blocks => calls end) j heap')
| ns_remove t token o calls j j' heap :
    calls !! t = None -> (serial = true -> usable token (mk_JState calls j heap)) ->
    remove_handle token j = (o, j') ->
    native_step (mk_JState calls j heap)
      (mk_JState (<[t := match o with Some p => Destroying token p | None => Forgetting token end]> calls) j' heap)
| ns_destroy t token p r calls j heap heap' :
    calls !! t = Some (Destroying token p) -> proxy_server_destroy p heap = Some (r, heap') ->
    native_step (mk_JState calls j heap)
      (mk_JState (match r with Returns _ => <[t := Forgetting token]> calls | Blocks => calls end) j heap')
| ns_forget t token calls j heap :
    calls !! t = Some (Forgetting token) ->
    native_step (mk_JState calls j heap) (mk_JState (delete t calls) (drop_contexts token j) heap)
| ns_install t token context provider (installed : bool) calls j heap j' heap' :
    calls !! t = None -> (serial = true -> usable token (mk_JState calls j heap)) ->
    ~ box_alive context (mk_JState calls j heap) ->
    install_context token context [(context, provider)] (j, heap) = Some (Gives installed, (j', heap')) ->
    native_step (mk_JState calls j heap)
      (mk_JState (if installed then <[t := Keeping token (context, provider)]> calls else calls) j' heap')
| ns_keep t token box calls j heap :
    calls !! t = Some (Keeping token box) ->
    native_step (mk_JState calls j heap) (mk_JState (delete t calls) (keep_context token box j) heap)
| ns_call token c r calls j heap j' heap' :
    call_ok c -> captures c = false -> (serial = true -> usable token (mk_JState calls j heap)) ->
    with_handle token (run_call process_id c) (j, heap) = Some (r, (j', heap')) ->
    native_step (mk_JState calls j heap) (mk_JState calls j' heap')
| ns_servers calls j heap heap' :
    ffi_reachable process_id heap' -> (forall p, fh_context <$> heap' !! p = fh_context <$> heap !! p) ->
    native_step (mk_JState calls j heap) (mk_JState calls j heap').

Inductive native_reachable : JState -> Prop :=
| nr_init : native_reachable (mk_JState ∅ jni_init ∅)
| nr_step s s' : native_reachable s -> native_step s s' -> native_reachable s'.

(** ** Pointers and tokens, under any interleaving *)

(** A call that has taken a token out of the table or has not yet put it in. *)
Definition exclusive (c : pending) : bool := match c with Numbered _ _ | Destroying _ _ => true | _ => false end.

Record tables_ok s : Prop := {
  to_heap : ffi_reachable process_id (s_heap s);
  to_next : 0 < j_next (s_jni s) <= i64_max;
  to_handle token p : j_handles (s_jni s) !! token = Some p -> 0 < token < j_next (s_jni s) /\ is_Some (s_heap s !! p);
  to_handles token1 token2 p :
    j_handles (s_jni s) !! token1 = Some p -> j_handles (s_jni s) !! token2 = Some p -> token1 = token2;
  to_call t c p : s_calls s !! t = Some c -> pointer_of c = Some p ->
    is_Some (s_heap s !! p) /\ forall token, j_handles (s_jni s) !! token <> Some p;
  to_calls t1 t2 c1 c2 p : s_calls s !! t1 = Some c1 -> s_calls s !! t2 = Some c2 ->
    pointer_of c1 = Some p -> pointer_of c2 = Some p -> t1 = t2;
  to_token t c token : s_calls s !! t = Some c -> exclusive c = true -> token_of c = Some token ->
    0 < token < j_next (s_jni s) /\ j_handles (s_jni s) !! token = None;
  to_tokens t1 t2 c1 c2 token : s_calls s !! t1 = Some c1 -> s_calls s !! t2 = Some c2 ->
    exclusive c1 = true -> exclusive c2 = true -> token_of c1 = Some token -> token_of c2 = Some token -> t1 = t2;
}.

Lemma ok_heap calls j heap heap' :
  tables_ok (mk_JState calls j heap) -> ffi_reachable process_id heap' ->
  (forall p, is_Some (heap !! p) -> is_Some (heap' !! p)) -> tables_ok (mk_JState calls j heap').
Proof.
  intros [H1 H2 H3 H4 H5 H6 H7 H8] Hr Hl. split; cbn in *; try done.
  - intros token p Hp. destruct (H3 _ _ Hp). split; [done|by apply Hl].
  - intros t c p Ht Hp. destruct (H5 _ _ _ Ht Hp). split; [by apply Hl|done].
Qed.

(** A handle is freed that nobody has. *)
Lemma ok_freed calls j heap heap' p :
  tables_ok (mk_JState calls j heap) -> ffi_reachable process_id heap' ->
  (forall q, q <> p -> heap' !! q = heap !! q) ->
  (forall token, j_handles j !! token <> Some p) -> (forall t c, calls !! t = Some c -> pointer_of c <> Some p) ->
  tables_ok (mk_JState calls j heap').
Proof.
  intros [H1 H2 H3 H4 H5 H6 H7 H8] Hr Hq Hj Hc. split; cbn in *; try done.
  - intros token q Hp. destruct (H3 _ _ Hp). split; [done|]. rewrite Hq; [done|]. intros ->. by apply (Hj token).
  - intros t c q Ht Hp. destruct (H5 _ _ _ Ht Hp). split; [|done]. rewrite Hq; [done|]. intros ->. by apply (Hc t c).
Qed.

Lemma ok_contexts calls j j' heap :
  tables_ok (mk_JState calls j heap) -> j_handles j' = j_handles j -> j_next j' = j_next j ->
  tables_ok (mk_JState calls j' heap).
Proof. intros [H1 H2 H3 H4 H5 H6 H7 H8] Eh En. split; cbn in *; rewrite ?Eh, ?En; done. Qed.

Lemma ok_delete t calls j heap :
  tables_ok (mk_JState calls j heap) -> tables_ok (mk_JState (delete t calls) j heap).
Proof.
  intros [H1 H2 H3 H4 H5 H6 H7 H8]. split; cbn in *; try done; setoid_rewrite lookup_delete_Some; naive_solver.
Qed.

(** A call goes on, or a new one starts. *)
Lemma ok_insert t c calls j heap :
  tables_ok (mk_JState calls j heap) ->
  (forall p, pointer_of c = Some p -> is_Some (heap !! p) /\ (forall token, j_handles j !! token <> Some p)
     /\ forall t' c', t' <> t -> calls !! t' = Some c' -> pointer_of c' <> Some p) ->
  (forall token, exclusive c = true -> token_of c = Some token ->
     0 < token < j_next j /\ j_handles j !! token = None
     /\ forall t' c', t' <> t -> calls !! t' = Some c' -> exclusive c' = true -> token_of c' <> Some token) ->
  tables_ok (mk_JState (<[t := c]> calls) j heap).
Proof.
  intros [H1 H2 H3 H4 H5 H6 H7 H8] Hp Ht. split; cbn in *; try done.
  - intros t' c' p. rewrite lookup_insert_Some. intros [[<- <-]|[Hne E]] Ep; [|by eapply H5]. by apply Hp in Ep as (? & ? & _).
  - intros t1 t2 c1 c2 p. rewrite !lookup_insert_Some. intros [[<- <-]|[? E1]] [[<- <-]|[? E2]] P1 P2; try done.
    + destruct (Hp p P1) as (_ & _ & Hx). by destruct (Hx t2 c2).
    + destruct (Hp p P2) as (_ & _ & Hx). by destruct (Hx t1 c1).
    + by eapply H6.
  - intros t' c' token. rewrite lookup_insert_Some. intros [[<- <-]|[Hne E]] Ex Et; [|by eapply H7].
    by apply Ht in Et as (? & ? & _).
  - intros t1 t2 c1 c2 token. rewrite !lookup_insert_Some. intros [[<- <-]|[? E1]] [[<- <-]|[? E2]] X1 X2 P1 P2; try done.
    + destruct (Ht token X1 P1) as (_ & _ & Hx). by destruct (Hx t2 c2).
    + destruct (Ht token X2 P2) as (_ & _ & Hx). by destruct (Hx t1 c1).
    + by eapply (H8 t1 t2).
Qed.

(** The next state of a call that keeps its pointer and token. *)
Lemma ok_replace t c c' calls j heap :
  tables_ok (mk_JState calls j heap) -> calls !! t = Some c ->
  (forall p, pointer_of c' = Some p -> pointer_of c = Some p) ->
  (forall token, exclusive c' = true -> token_of c' = Some token -> exclusive c = true /\ token_of c = Some token) ->
  tables_ok (mk_JState (<[t := c']> calls) j heap).
Proof.
  intros Hok Et Hp Ht. pose proof Hok as [H1 H2 H3 H4 H5 H6 H7 H8]. cbn in *. apply ok_insert; [done|..].
  - intros p Ep. apply Hp in Ep. destruct (H5 _ _ _ Et Ep). split_and!; [done|done|].
    intros t' c2 Hne E2 Ep2. by destruct Hne; eapply H6.
  - intros token Ex Etok. destruct (Ht _ Ex Etok) as [Ex' Etok']. destruct (H7 _ _ _ Et Ex' Etok'). split_and!; [lia|lia|done|].
    intros t' c2 Hne E2 Ex2 Ep2. by destruct Hne; eapply (H8 t' t).
Qed.

(** *** The steps on the tables *)

Lemma ok_number t p token calls j j' heap :
  tables_ok (mk_JState calls j heap) -> calls !! t = Some (Registering p) -> fetch_token j = Some (token, j') ->
  tables_ok (mk_JState (<[t := Numbered token p]> calls) j' heap) /\ token = j_next j /\ j_next j' = j_next j + 1.
Proof.
  intros Hok Et E. unfold fetch_token in E. destruct (_ && _) eqn:Eb; [|done]. injection E as <- <-.
  apply andb_true_iff in Eb as [Eb _]. apply Z.leb_le in Eb. split; [|done].
  pose proof Hok as [H1 H2 H3 H4 H5 H6 H7 H8]. cbn in *.
  apply ok_insert; [split; cbn in *; try done; [lia|..]|..]; cbn.
  - intros token q Hq. destruct (H3 _ _ Hq). split; [lia|done].
  - intros t' c' token Hc Hx Ht. destruct (H7 _ _ _ Hc Hx Ht). split; [lia|done].
  - intros q [= <-]. destruct (H5 _ _ p Et eq_refl). split_and!; [done|done|].
    intros t' c' Hne Ec Ep. by destruct Hne; eapply H6.
  - intros token _ [= <-]. split_and!; [lia|lia| |].
    + destruct (j_handles j !! j_next j) eqn:Eq; [|done]. destruct (H3 _ _ Eq). lia.
    + intros t' c' _ Ec Ex Etok. destruct (H7 _ _ _ Ec Ex Etok). lia.
Qed.

Lemma ok_entry t token p calls j heap :
  tables_ok (mk_JState calls j heap) -> calls !! t = Some (Numbered token p) ->
  tables_ok (mk_JState (delete t calls) (insert_handle token p j) heap).
Proof.
  intros [H1 H2 H3 H4 H5 H6 H7 H8] Et. cbn in *.
  destruct (H7 _ _ token Et eq_refl eq_refl) as [Htok Hnone]. destruct (H5 _ _ p Et eq_refl) as [Hlive Hno].
  split; cbn; try done.
  - intros token' q. rewrite lookup_insert_Some. intros [[<- <-]|[? E]]; [done|by apply H3].
  - intros t1 t2 q. rewrite !lookup_insert_Some. intros [[? ?]|[? E1]] [[? ?]|[? E2]]; subst; try done.
    + by apply Hno in E2.
    + by apply Hno in E1.
    + by eapply H4.
  - intros t' c q. rewrite lookup_delete_Some. intros [Hne E] Ep. destruct (H5 _ _ _ E Ep). split; [done|].
    intros token'. rewrite lookup_insert_Some. intros [[_ Eq]|[? E2]]; [|naive_solver]. subst q. by destruct Hne; eapply H6.
  - intros t1 t2 c1 c2 q. rewrite !lookup_delete_Some. intros [_ E1] [_ E2]. by eapply H6.
  - intros t' c token'. rewrite lookup_delete_Some. intros [Hne E] Ex Ep. destruct (H7 _ _ _ E Ex Ep). split; [done|].
    rewrite lookup_insert_ne; [done|]. intros <-. by destruct Hne; eapply (H8 t t').
  - intros t1 t2 c1 c2 token'. rewrite !lookup_delete_Some. intros [_ E1] [_ E2]. by eapply (H8 t1 t2).
Qed.

Lemma ok_remove t token o calls j j' heap :
  tables_ok (mk_JState calls j heap) -> calls !! t = None -> remove_handle token j = (o, j') ->
  tables_ok (mk_JState (<[t := match o with Some p => Destroying token p | None => Forgetting token end]> calls) j' heap).
Proof.
  intros Hok Et [= <- <-]. pose proof Hok as [H1 H2 H3 H4 H5 H6 H7 H8]. cbn in *.
  assert (Hd : tables_ok (mk_JState calls (mk_Jni (j_next j) (delete token (j_handles j)) (j_contexts j)) heap)).
  { split; cbn; try done; try (setoid_rewrite lookup_delete_Some; naive_solver).
    intros t' c token' Ec Ex Ep. destruct (H7 _ _ _ Ec Ex Ep) as [? Hn]. split; [done|].
    by rewrite lookup_delete_None; right. }
  apply ok_insert; [done|..]; cbn; destruct (j_handles j !! token) as [p|] eqn:Eh; try done.
  - intros q [= <-]. destruct (H3 _ _ Eh). split_and!; [done| |].
    + intros token'. rewrite lookup_delete_Some. intros [Hne E]. by destruct Hne; eapply H4.
    + intros t' c' _ Ec Ep. destruct (H5 _ _ _ Ec Ep) as [_ Hn]. by apply (Hn token).
  - intros token' _ [= <-]. destruct (H3 _ _ Eh) as [? _]. split_and!; [lia|lia|by rewrite lookup_delete_eq|].
    intros t' c' _ Ec Ex Ep. destruct (H7 _ _ _ Ec Ex Ep). congruence.
Qed.

(** A handle is destroyed by the call that has it. *)
Lemma ok_destroy t c p r calls j heap heap' calls' :
  tables_ok (mk_JState calls j heap) -> calls !! t = Some c -> pointer_of c = Some p ->
  proxy_server_destroy p heap = Some (r, heap') ->
  match r with
  | Returns _ => tables_ok (mk_JState calls' j heap) /\ (forall t' c', calls' !! t' = Some c' -> t' <> t -> calls !! t' = Some c')
                 /\ (forall c', calls' !! t = Some c' -> pointer_of c' = None)
  | Blocks => calls' = calls
  end ->
  tables_ok (mk_JState calls' j heap').
Proof.
  intros Hok Et Ep E Hr. destruct (to_call _ Hok _ _ _ Et Ep) as [[h Hh] Hno]. cbn in *.
  destruct (live_destroy process_id p heap h (to_heap _ Hok) Hh) as (r' & heap2 & E2 & Hr2 & Hq & Hm).
  rewrite E in E2. injection E2 as <- <-. destruct r as [u|].
  - destruct Hr as (Hok' & Hsame & Hnew). eapply (ok_freed calls' j heap heap' p); try done.
    intros t' c' Ec' Ep'. destruct (decide (t' = t)) as [->|Hne]; [by rewrite (Hnew _ Ec') in Ep'|].
    apply Hne. by eapply (to_calls _ Hok t' t c' c p); [apply Hsame|..].
  - subst calls'. eapply ok_heap; [done|done|]. intros q [g Hg]. destruct (decide (q = p)) as [->|Hne].
    + destruct Hm as (h' & -> & _). done.
    + by rewrite Hq, Hg.
Qed.

Lemma with_handle_run {A} token (operation : Z -> Heap -> option (A * Heap)) j heap r j' heap' :
  with_handle token operation (j, heap) = Some (r, (j', heap')) ->
  j' = j /\ match j_handles j !! token with
            | Some p => exists a, operation p heap = Some (a, heap') /\ r = Gives (Some a)
            | None => heap' = heap /\ r = Gives None
            end.
Proof.
  unfold with_handle, mbind, J_bind, native. cbn. destruct (j_handles j !! token) as [p|]; [|by intros [= <- <- <-]].
  destruct (operation p heap) as [[a heap1]|]; [|done]. cbn. intros [= <- <- <-]. eauto.
Qed.

Lemma install_run token x boxes j (heap : Heap) installed j' heap' :
  install_context token x boxes (j, heap) = Some (Gives installed, (j', heap')) ->
  j' = j /\ match j_handles j !! token with
            | Some p => proxy_source_set_refresh_callback p (Some (android_refresh_callback boxes)) x heap
                        = Some (installed, heap')
            | None => heap' = heap /\ installed = false
            end.
Proof.
  unfold install_context, unwrap_or, mbind, J_bind. destruct (with_handle _ _ _) as [[r [j1 heap1]]|] eqn:E; [|done].
  apply with_handle_run in E as [-> E]. destruct (j_handles j !! token) as [p|].
  - destruct E as (a & E & ->). cbn. by intros [= -> <- ->].
  - destruct E as [-> ->]. cbn. by intros [= <- <- <-].
Qed.

(** A call on a live handle: the other handles stay, this one stays live. *)
Lemma call_keeps c p (heap : Heap) h u heap' :
  call_ok c -> ffi_reachable process_id heap -> heap !! p = Some h -> run_call process_id c p heap = Some (u, heap') ->
  ffi_reachable process_id heap'
  /\ exists h', heap' = <[p := h']> heap /\ (captures c = false -> fh_context h' = fh_context h).
Proof.
  intros Hc Hr Hh E. split; [by eapply fr_call|].
  destruct (ffi_reachable_ok process_id heap Hr p h Hh) as [Hnz _].
  destruct (run_call_one process_id c p Hc heap) as (_ & _ & H). destruct (H Hnz h Hh) as (u1 & h1 & E1 & _).
  rewrite E in E1. injection E1 as _ ->. exists h1. split; [done|]. intros Hcap.
  destruct (run_call_context process_id c p Hcap heap) as (_ & _ & H2). destruct (H2 Hnz h Hh) as (u2 & h2 & E2 & Hs).
  rewrite E in E2. injection E2 as _ E2. apply (f_equal (lookup p)) in E2. rewrite !lookup_insert_eq in E2.
  by injection E2 as ->.
Qed.

Lemma install_keeps p (heap : Heap) h callback x installed heap' :
  ffi_reachable process_id heap -> heap !! p = Some h ->
  proxy_source_set_refresh_callback p (Some callback) x heap = Some (installed, heap') ->
  ffi_reachable process_id heap'
  /\ exists h', heap' = <[p := h']> heap /\ fh_context h' = if installed : bool then Some x else fh_context h.
Proof.
  intros Hr Hh E. destruct (ffi_reachable_ok process_id heap Hr p h Hh) as [Hnz _].
  split; [|by eapply live_set_refresh].
  eapply (fr_call process_id (CallSetRefresh (Some callback) x) p tt heap); [done|done|]. cbn. unfold ignore. by rewrite E.
Qed.

Lemma insert_live (heap : Heap) p h h' q : heap !! p = Some h -> is_Some (heap !! q) -> is_Some ((<[p := h']> heap : Heap) !! q).
Proof. intros Hp Hq. rewrite lookup_insert_is_Some. destruct (decide (p = q)); [by left|by right]. Qed.

Lemma step_tables_ok s s' : native_step s s' -> tables_ok s -> tables_ok s'.
Proof.
  intros Hs Hok. destruct Hs as [t env port dir hosts calls j heap p heap' Et E Hp|t p token calls j j' heap Et E
    |t p calls j heap Et E|t token p calls j heap Et|t p r calls j heap heap' Et E|t token o calls j j' heap Et _ E
    |t token p r calls j heap heap' Et E|t token calls j heap Et|t token x provider installed calls j heap j' heap' Et _ _ E
    |t token box calls j heap Et|token c r calls j heap j' heap' Hc Hcap _ E|calls j heap heap' Hr Hsame].
  - unfold proxy_server_create_with_hosts in E.
    destruct (read_string _) as [d|]; [|by injection E as <- _]. destruct (read_string _) as [hs|]; [|by injection E as <- _].
    assert (Hr : ffi_reachable process_id heap') by (eapply fr_create; [apply (to_heap _ Hok)|exact E]).
    injection E as <- <-. destruct (alloc_fresh (dom heap)) as [_ Hf%not_elem_of_dom].
    assert (Hok' := Hok). eapply ok_heap in Hok'; [|exact Hr|].
    2: { intros q Hq. rewrite lookup_insert_is_Some. destruct (decide (alloc_box (dom heap) = q)); [by left|by right]. }
    apply ok_insert; [exact Hok'| |done]. intros q [= <-]. split_and!.
    + by rewrite lookup_insert_eq.
    + intros token Etok. destruct (to_handle _ Hok _ _ Etok) as [_ Hx]. cbn in Hx. rewrite Hf in Hx. by destruct Hx.
    + intros t' c' _ Ec Ep. destruct (to_call _ Hok _ _ _ Ec Ep) as [Hx _]. cbn in Hx. rewrite Hf in Hx. by destruct Hx.
  - by eapply ok_number.
  - by eapply ok_replace.
  - by apply ok_entry.
  - eapply ok_destroy; [done|done|done|done|]. destruct r; [|done]. split_and!; [by apply ok_delete| |].
    + intros t' c'. by rewrite lookup_delete_Some; intros [_ ?].
    + intros c'. by rewrite lookup_delete_eq.
  - by eapply ok_remove.
  - eapply ok_destroy; [done|done|done|done|]. destruct r; [|done]. split_and!.
    + by eapply ok_replace.
    + intros t' c' E' Hne. by rewrite lookup_insert_ne in E'.
    + intros c'. rewrite lookup_insert_eq. by intros [= <-].
  - eapply ok_contexts; [by apply ok_delete|done|done].
  - apply install_run in E as [-> E]. destruct (j_handles j !! token) as [p|] eqn:Eh; [|by destruct E as [-> ->]].
    destruct (to_handle _ Hok _ _ Eh) as [_ [h Hh]]. cbn in Hh.
    destruct (install_keeps p heap h _ _ _ _ (to_heap _ Hok) Hh E) as (Hr & h' & -> & _).
    assert (Hok' : tables_ok (mk_JState calls j (<[p := h']> heap))).
    { eapply ok_heap; [done|done|]. intros q. by apply (insert_live _ _ h). }
    destruct installed; [|done]. by apply ok_insert.
  - eapply ok_contexts; [by apply ok_delete|done|done].
  - apply with_handle_run in E as [-> E]. destruct (j_handles j !! token) as [p|] eqn:Eh; [|by destruct E as [-> _]].
    destruct E as (u & E & _). destruct (to_handle _ Hok _ _ Eh) as [_ [h Hh]]. cbn in Hh.
    destruct (call_keeps c p heap h u heap' Hc (to_heap _ Hok) Hh E) as (Hr & h' & -> & _).
    eapply ok_heap; [done|done|]. intros q. by apply (insert_live _ _ h).
  - eapply ok_heap; [done|done|]. intros p [h Hp]. specialize (Hsame p). rewrite Hp in Hsame.
    destruct (heap' !! p); done.
Qed.
End Steps.

(** * The Android bindings: claims

    Under any interleaving no native method uses a handle that is gone and no
    token means two handles; when the calls on one token follow each other, the
    context of an installed provider is alive as long as the handle is. *)

Section Contexts.
Context {UP : UrlParser} {UQ : UrlPairs} {SHA1 : Sha1} {SHA : Sha256} {MJ : ManifestJson}
  {ON : HashOrder Z RegisteredSource} {ONL : HashOrderLaws Z RegisteredSource}
  {OF : HashOrder path DiskCacheFile} {OD : DirOrder}
  {FJ : FfiJson} {AL : Allocator} {ALL : AllocatorLaws} {Se Tor Stm St X : Type} {LR : LibRqbit Se Tor Stm}
  {NS : NewServer St (Backend Se Tor) (HostEnv X)} {NSL : NewServerLaws (NS := NS)} (process_id : Z).
Abbreviation Handle := (ProxyServerHandle Se Tor St X).
Abbreviation Heap := (gmap Z Handle).
Abbreviation State := (JState (Se := Se) (Tor := Tor) (St := St) (X := X)).
Implicit Types s : State.

Lemma native_tables_ok serial s : native_reachable process_id serial s -> tables_ok process_id s.
Proof.
  induction 1 as [|s s' _ IH Hs]; [|by eapply step_tables_ok].
  split; cbn; try done. constructor.
Qed.

(** ** Contexts, when the calls on one token follow each other *)

Definition owner (token p : Z) s : Prop :=
  j_handles (s_jni s) !! token = Some p \/ exists t, s_calls s !! t = Some (Destroying token p).
Definition kept (token context : Z) s : Prop :=
  (exists boxes, j_contexts (s_jni s) !! token = Some boxes /\ context ∈ map fst boxes)
  \/ exists t provider, s_calls s !! t = Some (Keeping token (context, provider)).

(** A call is replaced: the tokens of the calls stay apart. *)
Definition tokens_apart (calls : gmap nat pending) : Prop :=
  forall t1 t2 c1 c2 token, calls !! t1 = Some c1 -> calls !! t2 = Some c2 ->
    token_of c1 = Some token -> token_of c2 = Some token -> t1 = t2.

Lemma apart_insert t c (calls : gmap nat pending) :
  tokens_apart calls ->
  (forall token t' c', token_of c = Some token -> t' <> t -> calls !! t' = Some c' -> token_of c' <> Some token) ->
  tokens_apart (<[t := c]> calls).
Proof.
  intros Ha Hc t1 t2 c1 c2 token. rewrite !lookup_insert_Some.
  intros [[? ?]|[? E1]] [[? ?]|[? E2]] T1 T2; subst; try done.
  - by destruct (Hc token t2 c2).
  - by destruct (Hc token t1 c1).
  - by eapply (Ha t1 t2).
Qed.
Lemma apart_delete t (calls : gmap nat pending) : tokens_apart calls -> tokens_apart (delete t calls).
Proof. intros Ha t1 t2 c1 c2 token. rewrite !lookup_delete_Some. intros [_ ?] [_ ?]. by eapply (Ha t1 t2). Qed.
Lemma apart_other t t' c c' token (calls : gmap nat pending) :
  tokens_apart calls -> calls !! t = Some c -> token_of c = Some token -> t' <> t -> calls !! t' = Some c' ->
  token_of c' <> Some token.
Proof. intros Ha Ht Hc Hne Ht' E. by destruct Hne; eapply (Ha t' t). Qed.

(** The calls that keep a handle or a context alive go on. *)
Definition holds (c : pending) : bool := match c with Destroying _ _ | Keeping _ _ => true | _ => false end.
Definition goes_on (calls calls' : gmap nat pending) : Prop :=
  forall t c, holds c = true -> calls !! t = Some c -> calls' !! t = Some c.

Lemma goes_on_refl (calls : gmap nat pending) : goes_on calls calls.
Proof. by intros t c _. Qed.
#[local] Hint Resolve goes_on_refl : core.
Lemma goes_on_insert t c (calls : gmap nat pending) :
  (forall c', calls !! t = Some c' -> holds c' = false) -> goes_on calls (<[t := c]> calls).
Proof.
  intros Hc t' c' Hh Et'. rewrite lookup_insert_ne; [done|]. intros ->. specialize (Hc _ Et'). congruence.
Qed.
Lemma goes_on_delete t (calls : gmap nat pending) :
  (forall c', calls !! t = Some c' -> holds c' = false) -> goes_on calls (delete t calls).
Proof.
  intros Hc t' c' Hh Et'. rewrite lookup_delete_ne; [done|]. intros ->. specialize (Hc _ Et'). congruence.
Qed.

Definition all_alive s : Prop :=
  forall p h context, s_heap s !! p = Some h -> fh_context h = Some context ->
    exists token, owner token p s /\ kept token context s.

Lemma alive_step s s' :
  all_alive s -> goes_on (s_calls s) (s_calls s') ->
  (forall p h context, s_heap s' !! p = Some h -> fh_context h = Some context ->
     exists h0, s_heap s !! p = Some h0 /\ fh_context h0 = Some context) ->
  (forall token p, j_handles (s_jni s) !! token = Some p -> is_Some (s_heap s' !! p) -> owner token p s') ->
  (forall token boxes, j_contexts (s_jni s) !! token = Some boxes -> j_contexts (s_jni s') !! token = Some boxes) ->
  all_alive s'.
Proof.
  intros Ha Hc Hh Hj Hx p h context Hp Hctx. destruct (Hh _ _ _ Hp Hctx) as (h0 & Hp0 & Hc0).
  destruct (Ha _ _ _ Hp0 Hc0) as (token & Ho & Hk). exists token. split.
  - destruct Ho as [Ho|[t Ht]]; [apply Hj; [done|by rewrite Hp]|right; exists t; by apply Hc].
  - destruct Hk as [(boxes & Hb & Hin)|(t & provider & Ht)].
    + left. exists boxes. split; [by apply Hx|done].
    + right. exists t, provider. by apply Hc.
Qed.

(** What a step does to one handle. *)
Lemma same_contexts (heap : Heap) p h h' q g context :
  heap !! p = Some h -> fh_context h' = fh_context h ->
  (<[p := h']> heap : Heap) !! q = Some g -> fh_context g = Some context ->
  exists g0, heap !! q = Some g0 /\ fh_context g0 = Some context.
Proof.
  intros Hp Hc. rewrite lookup_insert_Some. intros [[? ?]|[? Hq]] Hg; subst; [|by eauto]. exists h. split; [done|congruence].
Qed.

Lemma destroyed_contexts (heap heap' : Heap) p r q g context :
  ffi_reachable process_id heap -> is_Some (heap !! p) -> proxy_server_destroy p heap = Some (r, heap') ->
  heap' !! q = Some g -> fh_context g = Some context ->
  (exists g0, heap !! q = Some g0 /\ fh_context g0 = Some context) /\ (r = Returns tt -> q <> p).
Proof.
  intros Hr [h Hh] E Hq Hg. destruct (live_destroy process_id p heap h Hr Hh) as (r' & heap2 & E2 & _ & Hsame & Hm).
  rewrite E in E2. injection E2 as <- <-. destruct (decide (q = p)) as [->|Hne].
  - destruct r as [[]|]; [by rewrite Hm in Hq|]. destruct Hm as (h' & Hh' & Hc). split; [|done].
    exists h. split; [done|congruence].
  - split; [|done]. rewrite Hsame in Hq by done. eauto.
Qed.

Record tokens_ok s : Prop := {
  tk_apart : tokens_apart (s_calls s);
  tk_bound t c token : s_calls s !! t = Some c -> token_of c = Some token -> 0 < token < j_next (s_jni s);
  tk_forget t token : s_calls s !! t = Some (Forgetting token) -> j_handles (s_jni s) !! token = None;
}.

(** The calls change at one place; the table of handles may lose entries. *)
Lemma tokens_insert t c calls j j' heap heap' :
  tokens_ok (mk_JState calls j heap) ->
  (forall token, token_of c = Some token -> 0 < token < j_next j'
     /\ forall t' c', t' <> t -> calls !! t' = Some c' -> token_of c' <> Some token) ->
  (forall token, c = Forgetting token -> j_handles j' !! token = None) ->
  j_next j <= j_next j' -> (forall token, j_handles j !! token = None -> j_handles j' !! token = None) ->
  tokens_ok (mk_JState (<[t := c]> calls) j' heap').
Proof.
  intros [H1 H2 H3] Hc Hf Hn Hj. split; cbn in *.
  - apply apart_insert; [done|]. intros token t' c' Ht Hne E. destruct (Hc _ Ht) as [_ Hx]. by eapply Hx.
  - intros t' c' token. rewrite lookup_insert_Some. intros [[? ?]|[? E]] Ht; subst; [by apply Hc|].
    specialize (H2 _ _ _ E Ht). lia.
  - intros t' token. rewrite lookup_insert_Some. intros [[? ?]|[? E]]; [by apply Hf|]. apply Hj. by eapply H3.
Qed.

Lemma tokens_delete t calls j heap : tokens_ok (mk_JState calls j heap) -> tokens_ok (mk_JState (delete t calls) j heap).
Proof.
  intros [H1 H2 H3]. split; cbn in *; [by apply apart_delete|..]; setoid_rewrite lookup_delete_Some; naive_solver.
Qed.
Lemma tokens_same calls j j' heap heap' :
  tokens_ok (mk_JState calls j heap) -> j_next j' = j_next j -> j_handles j' = j_handles j ->
  tokens_ok (mk_JState calls j' heap').
Proof. intros [H1 H2 H3] En Eh. split; cbn in *; rewrite ?En, ?Eh; done. Qed.

Lemma step_tokens_ok s s' :
  native_step process_id true s s' -> tables_ok process_id s -> tokens_ok s -> tokens_ok s'.
Proof.
  intros Hs Hok Htk. destruct Hs as [t env port dir hosts calls j heap p heap' Et E Hp|t p token calls j j' heap Et E
    |t p calls j heap Et E|t token p calls j heap Et|t p r calls j heap heap' Et E|t token o calls j j' heap Et Hu E
    |t token p r calls j heap heap' Et E|t token calls j heap Et|t token x provider installed calls j heap j' heap' Et Hu _ E
    |t token box calls j heap Et|token c r calls j heap j' heap' Hc Hcap _ E|calls j heap heap' Hr Hsame].
  - by eapply tokens_insert.
  - destruct (ok_number process_id _ _ _ _ _ _ _ Hok Et E) as (_ & -> & En). unfold fetch_token in E.
    destruct (_ && _); [|done]. injection E as <-. eapply tokens_insert; [done|..]; cbn; try done; try lia.
    intros token [= <-]. pose proof (to_next _ _ Hok). cbn in *. split; [lia|].
    intros t' c' _ Ec Htok. pose proof (tk_bound _ Htk _ _ _ Ec Htok). cbn in *. lia.
  - by eapply tokens_insert.
  - pose proof (tokens_delete t _ _ _ Htk) as [H1 H2 H3]. split; cbn in *; try done.
    intros t' token' E. rewrite lookup_insert_ne; [by eapply H3|]. intros <-. apply lookup_delete_Some in E as [Hne E].
    destruct Hne. by eapply (tk_apart _ Htk t t').
  - apply (tokens_same _ j j heap); [|done|done]. by destruct r; [apply tokens_delete|].
  - destruct (Hu eq_refl) as [Hb Hidle]. injection E as <- <-. eapply tokens_insert; [done|..]; cbn; try lia.
    + intros token' Htok. assert (token' = token) as -> by (destruct (j_handles j !! token); by injection Htok).
      split; [done|]. intros t' c' _ Ec. by apply (Hidle t').
    + intros token'. destruct (j_handles j !! token) eqn:Eh; [done|]. intros [= <-]. by apply lookup_delete_eq.
    + intros token' Hn. apply lookup_delete_None. by right.
  - apply (tokens_same _ j j heap); [|done|done]. destruct r; [|done]. eapply tokens_insert; [done|..]; try done.
    + intros token' [= <-]. split; [by apply (tk_bound _ Htk _ _ _ Et)|]. intros t' c' Hne Ec.
      by eapply (apart_other t t'); [apply (tk_apart _ Htk)|..].
    + intros token' [= <-]. by apply (to_token _ _ Hok _ _ _ Et).
  - eapply tokens_same; [by apply tokens_delete|done|done].
  - apply install_run in E as [-> _]. destruct (Hu eq_refl) as [Hb Hidle]. apply (tokens_same _ j j heap); [|done|done].
    destruct installed; [|done]. eapply tokens_insert; [done|..]; try done. intros token' [= <-].
    split; [done|]. intros t' c' _ Ec. by apply (Hidle t').
  - eapply tokens_same; [by apply tokens_delete|done|done].
  - apply with_handle_run in E as [-> _]. by apply (tokens_same _ j j heap).
  - by apply (tokens_same _ j j heap).
Qed.

(** The provider that was installed last is kept by its call. *)
Lemma alive_install t token x provider (installed : bool) calls j heap heap' :
  tables_ok process_id (mk_JState calls j heap) -> calls !! t = None -> all_alive (mk_JState calls j heap) ->
  install_context token x [(x, provider)] (j, heap) = Some (Gives installed, (j, heap')) ->
  all_alive (mk_JState (if installed then <[t := Keeping token (x, provider)]> calls else calls) j heap').
Proof.
  intros Hok Et Ha E. apply install_run in E as [_ E].
  destruct (j_handles j !! token) as [p|] eqn:Eh; [|by destruct E as [-> ->]].
  destruct (to_handle _ _ Hok _ _ Eh) as [_ [h Hh]]. cbn in Hh.
  destruct (install_keeps process_id p heap h _ _ _ _ (to_heap _ _ Hok) Hh E) as (_ & h' & -> & Hc).
  assert (Hon : goes_on calls (if installed then <[t := Keeping token (x, provider)]> calls else calls)).
  { destruct installed; [|done]. apply goes_on_insert. intros c'. by rewrite Et. }
  intros q g context Hq Hg. cbn in Hq. rewrite lookup_insert_Some in Hq.
  destruct (decide (q = p /\ installed = true)) as [[-> ->]|Hne].
  - destruct Hq as [[_ <-]|[? _]]; [|done]. exists token. split; [by left|]. right. exists t, provider. cbn.
    rewrite Hc in Hg. injection Hg as <-. apply lookup_insert_eq.
  - assert (Hq0 : exists g0, heap !! q = Some g0 /\ fh_context g0 = Some context).
    { destruct Hq as [[<- <-]|[_ Hq]]; [|by eauto]. destruct installed; [by destruct Hne|]. exists h. split; [done|congruence]. }
    destruct Hq0 as (g0 & Hq0 & Hg0). destruct (Ha _ _ _ Hq0 Hg0) as (token' & Ho & Hk). exists token'. split.
    + destruct Ho as [Ho|[t' Et']]; [by left|right; exists t'; by apply Hon].
    + destruct Hk as [Hk|(t' & pr & Et')]; [by left|right; exists t', pr; by apply Hon].
Qed.

(** The contexts of a token go when its handle is gone. *)
Lemma alive_forget t token calls j heap :
  tokens_ok (mk_JState calls j heap) -> calls !! t = Some (Forgetting token) -> all_alive (mk_JState calls j heap) ->
  all_alive (mk_JState (delete t calls) (drop_contexts token j) heap).
Proof.
  intros Htk Et Ha p h context Hp Hc. destruct (Ha p h context Hp Hc) as (token' & Ho & Hk).
  assert (Hon : goes_on calls (delete t calls)).
  { apply goes_on_delete. intros c'. rewrite Et. by intros [= <-]. }
  assert (Hne : token' <> token).
  { intros ->. destruct Ho as [Ho|[t' Et']].
    - pose proof (tk_forget _ Htk _ _ Et). cbn in *. congruence.
    - pose proof (tk_apart _ Htk t t' _ _ token Et Et' eq_refl eq_refl) as <-. cbn in Et'. congruence. }
  exists token'. split.
  - destruct Ho as [Ho|[t' Et']]; [by left|right; exists t'; by apply Hon].
  - destruct Hk as [(boxes & Hb & Hin)|(t' & pr & Et')]; [|right; exists t', pr; by apply Hon].
    left. exists boxes. cbn in *. by rewrite lookup_delete_ne.
Qed.

Lemma alive_keep t token box calls j heap :
  calls !! t = Some (Keeping token box) -> all_alive (mk_JState calls j heap) ->
  all_alive (mk_JState (delete t calls) (keep_context token box j) heap).
Proof.
  intros Et Ha p h context Hp Hc. destruct (Ha p h context Hp Hc) as (token' & Ho & Hk). exists token'. split.
  - destruct Ho as [Ho|[t' Et']]; [by left|right]. exists t'. cbn in *. rewrite lookup_delete_ne; [done|].
    intros ->. congruence.
  - destruct Hk as [(boxes & Hb & Hin)|(t' & pr & Et')]; cbn in *.
    + left. cbn. destruct (decide (token' = token)) as [->|Hne].
      * rewrite lookup_insert_eq, Hb. eexists. split; [done|]. cbn. rewrite map_app, elem_of_app. by left.
      * exists boxes. by rewrite lookup_insert_ne.
    + destruct (decide (t' = t)) as [->|Hne].
      * rewrite Et in Et'. injection Et' as -> ->. left. cbn. rewrite lookup_insert_eq. eexists. split; [done|].
        rewrite map_app, elem_of_app. right. cbn. by left.
      * right. exists t', pr. cbn. by rewrite lookup_delete_ne.
Qed.

(** The handle of a call is freed. *)
Lemma alive_destroy t token p r calls j heap heap' :
  tables_ok process_id (mk_JState calls j heap) -> calls !! t = Some (Destroying token p) ->
  all_alive (mk_JState calls j heap) -> proxy_server_destroy p heap = Some (r, heap') ->
  all_alive (mk_JState (match r with Returns _ => <[t := Forgetting token]> calls | Blocks => calls end) j heap').
Proof.
  intros Hok Et Ha E q g context Hq Hg. cbn in Hq. destruct (to_call _ _ Hok _ _ p Et eq_refl) as [Hl _].
  destruct (destroyed_contexts heap heap' p r q g context (to_heap _ _ Hok) Hl E Hq Hg) as ((g0 & Hq0 & Hg0) & Hne).
  destruct (Ha q g0 context Hq0 Hg0) as (token' & Ho & Hk). exists token'. destruct r as [[]|]; [|done]. split.
  - destruct Ho as [Ho|[t' Et']]; [by left|right]. exists t'. cbn in *. rewrite lookup_insert_ne; [done|].
    intros ->. rewrite Et in Et'. injection Et' as _ ->. by apply Hne.
  - destruct Hk as [Hk|(t' & pr & Et')]; [by left|right]. exists t', pr. cbn in *. rewrite lookup_insert_ne; [done|].
    intros ->. congruence.
Qed.

Lemma step_all_alive s s' :
  native_step process_id true s s' -> tables_ok process_id s -> tokens_ok s -> all_alive s -> all_alive s'.
Proof.
  intros Hs Hok Htk Ha. destruct Hs as [t env port dir hosts calls j heap p heap' Et E Hp|t p token calls j j' heap Et E
    |t p calls j heap Et E|t token p calls j heap Et|t p r calls j heap heap' Et E|t token o calls j j' heap Et Hu E
    |t token p r calls j heap heap' Et E|t token calls j heap Et|t token x provider installed calls j heap j' heap' Et Hu _ E
    |t token box calls j heap Et|token c r calls j heap j' heap' Hc Hcap _ E|calls j heap heap' Hr Hsame].
  - unfold proxy_server_create_with_hosts in E.
    destruct (read_string _) as [d|]; [|by injection E as <- _]. destruct (read_string _) as [hs|]; [|by injection E as <- _].
    injection E as <- <-. eapply (alive_step (mk_JState calls j heap)); [done|..]; cbn; try done; [by apply goes_on_insert; intros c'; rewrite Et| |by left].
    intros q g context. rewrite lookup_insert_Some. intros [[_ <-]|[_ Hq]] Hg; [done|by eauto].
  - unfold fetch_token in E. destruct (_ && _); [|done]. injection E as <- <-.
    eapply (alive_step (mk_JState calls j heap)); [done|..]; cbn; try done; [|by eauto|by left].
    apply goes_on_insert. intros c'. rewrite Et. by intros [= <-].
  - eapply (alive_step (mk_JState calls j heap)); [done|..]; cbn; try done; [|by eauto|by left].
    apply goes_on_insert. intros c'. rewrite Et. by intros [= <-].
  - eapply (alive_step (mk_JState calls j heap)); [done|..]; cbn; try done; [|by eauto|].
    + apply goes_on_delete. intros c'. rewrite Et. by intros [= <-].
    + intros token' q Hq _. left. cbn. rewrite lookup_insert_ne; [done|]. intros <-.
      destruct (to_token _ _ Hok _ _ token Et eq_refl eq_refl) as [_ Hn]. cbn in Hn. congruence.
  - destruct (to_call _ _ Hok _ _ p Et eq_refl) as [Hl _].
    eapply (alive_step (mk_JState calls j heap)); [done|..]; cbn; try done; [| |by left].
    + destruct r; [|done]. apply goes_on_delete. intros c'. rewrite Et. by intros [= <-].
    + intros q g context Hq Hg. by eapply (destroyed_contexts heap heap' p r q g context (to_heap _ _ Hok)).
  - injection E as <- <-. eapply (alive_step (mk_JState calls j heap)); [done|..]; cbn; try done; [|by eauto|].
    + apply goes_on_insert. intros c'. by rewrite Et.
    + intros token' q Hq _. destruct (decide (token' = token)) as [->|Hne].
      * right. exists t. cbn. by rewrite Hq, lookup_insert_eq.
      * left. cbn. by rewrite lookup_delete_ne.
  - by apply (alive_destroy t token p r calls j heap).
  - by apply alive_forget.
  - pose proof E as E0. apply install_run in E0 as [-> _]. by eapply alive_install.
  - by apply alive_keep.
  - apply with_handle_run in E as [-> E]. destruct (j_handles j !! token) as [p|] eqn:Eh; [|by destruct E as [-> _]].
    destruct E as (u & E & _). destruct (to_handle _ _ Hok _ _ Eh) as [_ [h Hh]]. cbn in Hh.
    destruct (call_keeps process_id c p heap h u heap' Hc (to_heap _ _ Hok) Hh E) as (_ & h' & -> & Hx).
    eapply (alive_step (mk_JState calls j heap)); [done|..]; cbn; try done; [|by left]. intros q g context. eapply same_contexts; eauto.
  - eapply (alive_step (mk_JState calls j heap)); [done|..]; cbn; try done; [|by left]. intros q g context Hq Hg. specialize (Hsame q).
    rewrite Hq in Hsame. destruct (heap !! q) as [g0|]; [|done]. injection Hsame as Hx. exists g0. split; [done|congruence].
Qed.

Lemma native_all_alive s : native_reachable process_id true s -> all_alive s.
Proof.
  intros Hr. assert (H : tokens_ok s /\ all_alive s); [|by apply H].
  induction Hr as [|s s' Hr [IH1 IH2] Hs]; [by split|].
  pose proof (native_tables_ok true s Hr) as Hok. split; [by eapply step_tokens_ok|by eapply step_all_alive].
Qed.
End Contexts.

Module AndroidClaims.
Section Claims.
Context {UP : UrlParser} {UQ : UrlPairs} {SHA1 : Sha1} {SHA : Sha256} {MJ : ManifestJson}
  {ON : HashOrder Z RegisteredSource} {ONL : HashOrderLaws Z RegisteredSource}
  {OF : HashOrder path DiskCacheFile} {OD : DirOrder}
  {FJ : FfiJson} {AL : Allocator} {ALL : AllocatorLaws} {Se Tor Stm St X : Type} {LR : LibRqbit Se Tor Stm}
  {NS : NewServer St (Backend Se Tor) (HostEnv X)} {NSL : NewServerLaws (NS := NS)} (process_id : Z).
Abbreviation State := (JState (Se := Se) (Tor := Tor) (St := St) (X := X)).

(** A token that was given out and is gone. *)
Definition spent (token : Z) (s : State) : Prop :=
  0 < token < j_next (s_jni s) /\ j_handles (s_jni s) !! token = None
  /\ forall t p, s_calls s !! t <> Some (Numbered token p).

Lemma spent_step serial token s s' : native_step process_id serial s s' -> spent token s -> spent token s'.
Proof.
  assert (Hins : forall t c (calls : gmap nat pending), (forall p, c <> Numbered token p) ->
    (forall t p, calls !! t <> Some (Numbered token p)) -> forall t' p, (<[t := c]> calls) !! t' <> Some (Numbered token p)).
  { intros t c calls Hc Hn t' p. rewrite lookup_insert_Some. naive_solver. }
  assert (Hdel : forall t (calls : gmap nat pending),
    (forall t p, calls !! t <> Some (Numbered token p)) -> forall t' p, delete t calls !! t' <> Some (Numbered token p)).
  { intros t calls Hn t' p. rewrite lookup_delete_Some. naive_solver. }
  intros Hs (Hb & Hn & Hc). destruct Hs; cbn in *; unfold spent; cbn; split_and!; try done; try lia; try (by apply Hdel);
    try (by apply Hins).
  all: repeat match goal with
    | E : fetch_token _ = Some _ |- _ => unfold fetch_token in E; destruct (_ && _); [injection E as <- <-|done]; cbn
    | E : remove_handle _ _ = _ |- _ => injection E as <- <-; cbn
    | E : install_context _ _ _ _ = _ |- _ => apply install_run in E as [-> _]
    | E : with_handle _ _ _ = _ |- _ => apply with_handle_run in E as [-> _]
    end; try done; try lia.
  - apply Hins; [|done]. intros q [= ?]. lia.
  - apply lookup_insert_None. split; [done|]. intros ->. by eapply Hc.
  - destruct r; [by apply Hdel|done].
  - apply lookup_delete_None. by right.
  - apply Hins; [|done]. intros q. by destruct (j_handles j !! token0).
  - destruct r; [by apply Hins|done].
  - destruct installed; [by apply Hins|done].
Qed.

Lemma spent_rtc serial token s s' :
  rtc (native_step process_id serial) s s' -> spent token s -> j_handles (s_jni s') !! token = None.
Proof.
  intros Hr Hs. assert (H : spent token s'); [|by apply H].
  induction Hr as [|s1 s2 s3 Hs1 _ IH]; [done|]. apply IH. by eapply spent_step.
Qed.


End Claims.
End AndroidClaims.

(** A handle that is created, started, given a provider and destroyed twice. *)
Module AndroidDemo.
Import FfiDemo.
Definition provider : AndroidRefreshContext := mk_AndroidRefreshContext (fun _ => None).
Definition h1 : Heap :=
  from_option snd ∅ (proxy_server_create_with_hosts env 8080 (Some (str "/cache")) (Some []) ∅).
Definition j1 : Jni := insert_handle 1 1 (mk_Jni 2 ∅ ∅).
Definition h2 : Heap := from_option (fun x => x.2.2) ∅ (with_handle 1 (run_call 7 boot) (j1, h1)).
Definition h3 : Heap :=
  from_option (fun x => x.2.2) ∅ (install_context 1 100 [(100, provider)] (j1, h2)).
Definition installed : JState (Se := Z * bool) (Tor := Z) (St := unit) (X := nat) :=
  mk_JState {[0%nat := Keeping 1 (100, provider)]} j1 h3.
Definition kept_ : JState (Se := Z * bool) (Tor := Z) (St := unit) (X := nat) :=
  mk_JState ∅ (keep_context 1 (100, provider) j1) h3.
Definition dangling : JState (Se := Z * bool) (Tor := Z) (St := unit) (X := nat) :=
  mk_JState {[0%nat := Destroying 1 1]} (drop_contexts 1 (remove_handle 1 (s_jni kept_)).2) h3.

Lemma installed_reach serial : native_reachable 7 serial installed.
Proof.
  assert (R1 : native_reachable 7 serial (mk_JState {[0%nat := Registering 1]} jni_init h1)).
  { eapply nr_step; [apply nr_init|]. eapply (ns_create 7 serial 0%nat env 8080 (str "/cache") [] ∅ jni_init ∅ 1);
      [done|vm_compute; reflexivity|done]. }
  assert (R2 : native_reachable 7 serial (mk_JState {[0%nat := Numbered 1 1]} (mk_Jni 2 ∅ ∅) h1)).
  { eapply nr_step; [exact R1|]. 
    exact (ns_number 7 serial 0%nat 1 1 {[0%nat := Registering 1]} jni_init _ h1 eq_refl eq_refl). }
  assert (R3 : native_reachable 7 serial (mk_JState ∅ j1 h1)).
  { eapply nr_step; [exact R2|]. 
    exact (ns_insert 7 serial 0%nat 1 1 {[0%nat := Numbered 1 1]} (mk_Jni 2 ∅ ∅) h1 eq_refl). }
  assert (R4 : native_reachable 7 serial (mk_JState ∅ j1 h2)).
  { eapply nr_step; [exact R3|]. eapply (ns_call 7 serial 1 boot);
      [apply sys_ok|done|by split|vm_compute; reflexivity]. }
  eapply nr_step; [exact R4|].
  eapply (ns_install 7 serial 0%nat 1 100 provider true ∅ j1 h2); [done|by split| |vm_compute; reflexivity].
  by intros [(token & boxes & H & _)|(t & token & pr & H)].
Qed.
Lemma kept_reach serial : native_reachable 7 serial kept_.
Proof.
  eapply nr_step; [apply installed_reach|].
  exact (ns_keep 7 serial 0%nat 1 (100, provider) {[0%nat := Keeping 1 (100, provider)]} j1 h3 eq_refl).
Qed.
Lemma dangling_reach : native_reachable 7 false dangling.
Proof.
  set (j2 := (remove_handle 1 (s_jni kept_)).2).
  assert (R1 : native_reachable 7 false (mk_JState {[0%nat := Destroying 1 1]} j2 h3)).
  { eapply nr_step; [apply kept_reach|].
    exact (ns_remove 7 false 0%nat 1 (Some 1) ∅ (s_jni kept_) j2 h3 eq_refl ltac:(done) eq_refl). }
  assert (R2 : native_reachable 7 false (mk_JState {[1%nat := Forgetting 1; 0%nat := Destroying 1 1]} j2 h3)).
  { eapply nr_step; [exact R1|].
    exact (ns_remove 7 false 1%nat 1 None {[0%nat := Destroying 1 1]} j2 j2 h3 eq_refl ltac:(done) eq_refl). }
  eapply nr_step; [exact R2|].
  exact (ns_forget 7 false 1%nat 1 {[1%nat := Forgetting 1; 0%nat := Destroying 1 1]} j2 h3 eq_refl).
Qed.


Definition ready_handle : ProxyServerHandle (Z * bool) Z unit nat := from_option id handle (h3 !! 1).

(** The native methods alone do not keep the context alive.  If the handle
    is destroyed by two calls at once, the one that finds the table empty drops
    the contexts while the other is still stopping the server, whose refresh
    callback points to the dropped context. *)
Theorem second_destroy_frees_context :
  native_reachable 7 false dangling
  /\ s_calls dangling !! 0%nat = Some (Destroying 1 1)
  /\ (exists h, s_heap dangling !! 1 = Some h /\ is_Some (fh_server h) /\ fh_context h = Some 100)
  /\ ~ box_alive 100 dangling.
Proof.
  split_and!; [apply dangling_reach|done| |].
  - exists ready_handle. split_and!; [vm_compute; reflexivity|eexists; vm_compute; reflexivity|vm_compute; reflexivity].
  - intros [(token & boxes & H & _)|(t & token & pr & H)].
    + vm_compute in H. done.
    + change (({[0%nat := Destroying 1 1]} : gmap nat pending) !! t = Some (Keeping token (100, pr))) in H.
      apply lookup_singleton_Some in H as [_ H]. done.
Qed.
End AndroidDemo.

(** * What a host delivers: claims

    The addresses and pieces a host program gives through the callbacks and
    directories of the C interface arrive as they are, or not at all. *)

Lemma filled_exact n (w : text) : 0 <= n -> Z.of_nat (length w) = n -> filled n w = w.
Proof.
  intros Hn Hl. unfold filled. rewrite take_app_le by lia. apply take_ge. lia.
Qed.
Lemma filled_length n w : 0 <= n -> Z.of_nat (length (filled n w)) = n.
Proof. intros Hn. unfold filled. rewrite length_take, length_app, length_replicate. lia. Qed.

Lemma list_find_head {A} (x : Z) (ctx : A) boxes :
  list_find (fun b : Z * A => b.1 = x) ((x, ctx) :: boxes) = Some (0%nat, (x, ctx)).
Proof. cbn. by rewrite decide_True. Qed.

Section Pieces.
Context {X : Type}.

(** The file of a piece. *)
Definition piece_file (dir : path) (i : nat) (s : fs) : option (list byte) :=
  let file : path := dir ++ [piece_name i] in
  names s !! file ≫= fun ino => inodes s !! ino.
Definition piece_size_ok (bytes : list byte) : Prop :=
  0 < Z.of_nat (length bytes) <= MAX_P2P_CALLBACK_PIECE_BYTES.

(** One byte more than the limit is read, so that a longer file is noticed. *)
Lemma take_limit (c : list byte) :
  let bytes := take (Z.to_nat (MAX_P2P_CALLBACK_PIECE_BYTES + 1)) c in
  bool_decide (bytes = []) || (MAX_P2P_CALLBACK_PIECE_BYTES <? Z.of_nat (length bytes)) = false
  <-> piece_size_ok c /\ bytes = c.
Proof.
  intros bytes. unfold piece_size_ok. assert (Hm : 0 < MAX_P2P_CALLBACK_PIECE_BYTES) by done.
  rewrite orb_false_iff, bool_decide_eq_false, Z.ltb_ge.
  assert (Hl : length bytes = (Z.to_nat (MAX_P2P_CALLBACK_PIECE_BYTES + 1) `min` length c)%nat) by apply length_take.
  split.
  - intros [Hne Hle]. assert (bytes = c) as Hc by (apply take_ge; lia). rewrite Hc in *. split; [|done].
    split; [|done]. destruct c; [done|]. cbn. lia.
  - intros [[H1 H2] ->]. split; [|done]. intros ->. cbn in H1. lia.
Qed.

Lemma directory_piece_Ok (dir : path) i (h h' : HostEnv X) bytes :
  directory_piece dir i h = (Ok bytes, h') ->
  piece_file dir i (he_files h) = Some bytes /\ piece_size_ok bytes.
Proof.
  unfold directory_piece. intros E. apply io_bind_inv in E as [(ino & h1 & E1 & E)|(? & _ & ?)]; [|done].
  apply io_bind_inv in E as [(got & h2 & E2 & E)|(? & _ & ?)]; [|done].
  unfold on_files, fs_open, read_limited, syscall in E1, E2. destruct (next_fault (he_files h)); cbn in E1; try done.
  all: destruct (names (he_files h) !! _) as [ino'|] eqn:En; [|done]; injection E1 as <- <-; cbn in E2.
  all: destruct (next_fault (pop (he_files h))); cbn in E2; try done.
  all: destruct (inodes (he_files h) !! ino') as [c|] eqn:Ei; [|done]; injection E2 as <- <-.
  all: pose proof (take_limit c) as Hl; cbv zeta in Hl; destruct (_ || _); [done|]; injection E as <- _.
  all: destruct (proj1 Hl eq_refl) as [Hs ->]; split; [|done]; apply bind_Some; by exists ino'.
Qed.

Lemma directory_piece_found (dir : path) i (h : HostEnv X) bytes :
  faults (he_files h) = [] -> piece_file dir i (he_files h) = Some bytes -> piece_size_ok bytes ->
  exists h', directory_piece dir i h = (Ok bytes, h').
Proof.
  intros Hf Hp Hs. apply bind_Some in Hp as (ino & En & Ei).
  assert (Ht : take (Z.to_nat (MAX_P2P_CALLBACK_PIECE_BYTES + 1)) bytes = bytes).
  { apply take_ge. unfold piece_size_ok in Hs. lia. }
  assert (Hl := proj2 (take_limit bytes) (conj Hs Ht)). rewrite Ht in Hl.
  set (s1 := pop (he_files h)). exists (mk_HostEnv (he_state h) (pop s1)). unfold directory_piece.
  rewrite (io_bind_Ok _ _ h ino (mk_HostEnv (he_state h) s1)).
  2: { unfold on_files, fs_open, syscall, next_fault. rewrite Hf. cbn. by rewrite En. }
  rewrite (io_bind_Ok _ _ _ bytes (mk_HostEnv (he_state h) (pop s1))); [by rewrite Hl|].
  unfold on_files, read_limited, syscall, next_fault, s1. cbn. rewrite Hf. cbn. by rewrite Ei, Ht.
Qed.

(** The two calls of a callback. *)
Lemma callback_piece_Ok (callback : ProxyP2pPieceCallback X) context i (h h' : HostEnv X) bytes :
  callback_piece callback context i h = (Ok bytes, h') <->
  exists n w1 x1 w2 x2, callback context i None (he_state h) = (n, w1, x1)
    /\ callback context i (Some n) x1 = (n, w2, x2) /\ n <> 0 /\ n <= MAX_P2P_CALLBACK_PIECE_BYTES
    /\ bytes = filled n w2 /\ h' = mk_HostEnv x2 (he_files h).
Proof.
  unfold callback_piece, on_state. destruct (callback context i None (he_state h)) as [[n w1] x1]. cbn.
  destruct (Z.eqb_spec n 0); [split; [done|naive_solver]|].
  destruct (Z.ltb_spec MAX_P2P_CALLBACK_PIECE_BYTES n); [split; [done|]; intros (?&?&?&?&?&[= <- <- <-]&?&?&?&_); lia|].
  cbn. destruct (callback context i (Some n) x1) as [[k w2] x2] eqn:E2. cbn.
  destruct (Z.eqb_spec k n) as [->|]; cbn; split.
  - intros [= <- <-]. by exists n, w1, x1, w2, x2.
  - intros (?&?&?&?&?&[= <- <- <-]&E&_&_&->&->). rewrite E2 in E. by injection E as <- <-.
  - done.
  - intros (?&?&?&?&?&[= <- <- <-]&E&_). rewrite E2 in E. by injection E as -> _ _.
Qed.
End Pieces.

Module HostClaims.

(** C28: the address of a source that is refreshed is exactly the one the host
    has given: on both mobile platforms the proxy gets an address if and only if
    the provider of the adapter has returned this very text for the number of
    the source, it is valid UTF-8, not empty and of at most 16 KiB; otherwise
    the refresh fails, and never with a part of an address. *)
Theorem refresh_exact (context id : Z) (ax : AndroidRefreshContext) (hx : HarmonyRefreshContext)
    (boxes : list (Z * HarmonyRefreshContext)) (url : text) :
  let usable value := value = Some url /\ url <> [] /\ Z.of_nat (length url) <= 16384 /\ utf8_valid url = true in
  (refresh_provider_of (android_refresh_callback [(context, ax)]) context id = Ok url <->
   usable (ax_provider ax (as_jlong id)))
  /\ (refresh_provider_of (harmony_refresh_callback ((context, hx) :: boxes)) context id = Ok url <->
      usable (hx_provider hx (format_u64 id))).
Proof.
  split; apply delivered; unfold android_refresh_callback, harmony_refresh_callback; rewrite list_find_head;
    unfold delivers; by case_match.
Qed.

(** A piece of a P2P source is exactly what the host has.  From a directory
    it is the whole file [<index>.piece], never a part of a longer one, and a
    file of 1 byte to 8 MiB is found when the system reports no error; two
    pieces have two files.  From a callback it has the length the callback has
    announced and then confirmed, again 1 byte to 8 MiB. *)
Theorem pieces_exact {X : Type} (dir : path) (i : nat) (h : HostEnv X) (callback : ProxyP2pPieceCallback X)
    (context : Z) (bytes : list byte) :
  (forall h', directory_piece dir i h = (Ok bytes, h') ->
     piece_file dir i (he_files h) = Some bytes /\ piece_size_ok bytes)
  /\ (faults (he_files h) = [] -> piece_file dir i (he_files h) = Some bytes -> piece_size_ok bytes ->
      exists h', directory_piece dir i h = (Ok bytes, h'))
  /\ (forall k, piece_name i = piece_name k -> i = k)
  /\ (forall h', callback_piece callback context i h = (Ok bytes, h') <->
        exists n w1 x1 w2 x2, callback context i None (he_state h) = (n, w1, x1)
          /\ callback context i (Some n) x1 = (n, w2, x2) /\ n <> 0 /\ n <= MAX_P2P_CALLBACK_PIECE_BYTES
          /\ bytes = filled n w2 /\ h' = mk_HostEnv x2 (he_files h)).
Proof.
  split_and!.
  - intros h'. apply directory_piece_Ok.
  - apply directory_piece_found.
  - intros k E. apply app_inj_2 in E as [E _]; [|done]. apply format_u64_inj in E; lia.
  - intros h'. apply callback_piece_Ok.
Qed.
End HostClaims.
